(* ===== verification/_CoqProject ===== *)
-Q . S2P
Prelude.v
KFifo.v
Threads.v
KFifoThreads.v
Spinlock.v
TimerWheel.v
GameTimer.v
Unpack.v
KFifoExample.v
Utils.v
PacketPool.v
Context.v
SocketMessage.v
ServerLogic.v
SocketState.v
SocketSend.v
SocketReserve.v
SocketPoll.v
SocketInv.v
SocketProtocol.v
SocketTable.v
Uuid.v
Config.v
BufferLog.v
BufferLogThreads.v
Libevent.v
NetCmd.v
Codec.v
GameLogic.v
Connector.v
Client.v
Startup.v
Events.v
GameLoop.v
GameMemory.v
