(* ===== verification/Prelude.v ===== *)
(** * GameServer: a verification library

    GameServer is a small game server framework in C and C++.  Threads hand
    packets to one another through queues; clients are served by a socket server
    on epoll or by libevent; connectors link one server to another; timers and
    events drive the game logic.  This library translates the parts that carry that
    logic into executable definitions and proves what they promise.

    ** Parts of the program and the files that model them

    - [Prelude]: machine integers with explicit wrap-around, the result type [res]
      with its faults ([OutOfBounds], [AssertFail], [Undefined], [Deadlock],
      [UseAfterFree], [OutOfFuel]) and its monad, bounded memory blocks, C strings in
      arrays, and lemmas on lists and blocks shared by all files.
    - [KFifo] (src/common/kfifo/kfifo.c, kfifo.h): the ring buffer in element and in
      record mode.  [__kfifo] is the struct with its data; every function and macro
      is a definition of the same name.
    - [Threads]: programs of two threads that share a state, as trees of accesses; a
      schedule says whose access comes next, and [safe] is the rely-guarantee condition
      under which every schedule keeps an invariant.
    - [KFifoThreads] (kfifo.c): the calls of one writer and one reader of the ring, one
      step for every access to a counter or to the data.
    - [KFifoExample] (src/service/example/kfifo/main.c): the two threads of the example.
    - [Spinlock] (src/common/utils/spinlock.h): the lock as one thread sees it, where to
      take it twice is the fault [Deadlock], and as a step relation of many threads.
    - [TimerWheel] (src/common/timer.cpp, the static functions): the hierarchical
      timing wheel; buckets are lists of nodes.
    - [GameTimer] (src/common/timer.cpp, timer.h, classes GameTimer and TimerQueue):
      keyed timers on the wheel, with the heap of contexts and both maps.
    - [Unpack] (src/network/unpack.h): integers and messages on the wire.  Protobuf
      is the class [Protobuf] of its operations and documented laws.
    - [Utils] (src/common/utils/backtrace.hpp, path.cpp, posix.cpp): stack traces, paths,
      host names and pipes.
    - [PacketPool] (src/network/packet_pool.h, packet.h, queue.h): packet memory,
      shared by pointer, packets and their queues.
    - [Context] (src/network/context.h, socket_ctx.h, libevent_ctx.h, signal.cpp): the
      buffers of a client, the class [ClientContext] with its two instances, and the
      network context that unpacks a stream into packets and frames what is sent.
    - [SocketMessage] (src/network/socket/socket_server.h): what a poll reports.
    - [ServerLogic] (src/network/context.h, socket/server_logic.cpp): client tables,
      the commands of a server and of a connector, and the message handlers of the
      receiving thread.
    - [SocketState] (src/network/socket/socket_server.c, socket_epoll.h): the socket
      server's state, a state monad [M] with weakest preconditions [wp], the system
      calls, and the life of a slot: reserve_id, new_fd, force_close, creation and
      release.
    - [SocketSend] (socket_server.c): the two write buffer lists of a socket,
      send_socket, send_buffer, close_socket.
    - [SocketReserve] (socket_server.c): reserve_id as its atomic operations and stores, called
      by any number of threads beside the server thread.
    - [SocketPoll] (socket_server.c): the requests as bytes in the control pipe, the
      handlers behind ctrl_cmd, socket_server_poll and the public interface.
    - [SocketInv] (socket_server.c): invariants of the event loop.
    - [SocketProtocol] (socket_server.c): runs in which the public calls, each in two halves,
      and the rounds of the server thread interleave, and what ties the requests in the pipe to
      the slots.
    - [SocketTable] (socket/server_logic.cpp on socket_server.c): rounds of the receiving
      thread, each a poll and its handler, with sends of the command thread between them.
    - [Uuid] (src/common/utils/uuid.h, time.h): the generator of sequence numbers; the
      clock is an argument.
    - [Config] (src/common/conf/config.cpp, src/service/gamesvr/gameconf.h,
      src/network/defines.h): the line scanner and parser of configuration files, the
      accessors, and the loading of the server's addresses.  [proc] is [res] with the
      process's exit, which LOGCRITICAL causes.
    - [BufferLog] (src/common/log/bufferlog.cpp, bufferlog.h): log messages as blocks in
      the ring buffer of [KFifo], written by one thread and dumped by another;
      [BufferLogThreads] has the two threads access by access.
    - [Libevent] (src/network/libevent/libevent_handle.cpp): the callbacks of the
      libevent server, and libevent's objects as numbers whose lives are tracked.
    - [NetCmd] (src/network/defines.h, server.cpp, libevent/libevent_server.cpp,
      socket/server_logic.cpp): the commands from the logic thread through a pipe, both
      servers as instances of the class [NertworkServer], and the class [PacketOwner] of
      what the logic thread needs of a server or a connector.
    - [Codec]: an executable encoding that satisfies the laws of [Protobuf], for the
      witnesses.
    - [GameLogic] (src/service/gamesvr/gamelogic.cpp, net/handle.cpp, src/proto): the
      protocol handlers and the rounds of the logic thread on received packets, against
      [PacketOwner].
    - [Connector] (src/network/connector.cpp, connector.h): connectors, their thread,
      their heart beat and their pool.
    - [Client] (src/service/example/socket_client/client.cpp, connector.h): the test client,
      its two threads, and the connection to the server.
    - [Startup] (src/service/gamesvr/gamesvr.cpp, gamenet.cpp, src/network/server.cpp,
      src/common/log/log.hpp, bufferlog.cpp, src/common/signal.cpp): main up to the event
      loops, the logger and the signal handlers.
    - [Events] (src/common/event/event.hpp, listener.hpp): the event listener.
    - [GameLoop] (src/service/gamesvr/gamelogic.cpp): one turn of the logic thread over
      timers, events, the proxy server, the connectors and the main server, which share
      the packet memory; [GameMemory] has the invariant of that memory.

    The socket server's poll yields the messages of [SocketMessage]; the handlers of
    [ServerLogic], and the callbacks of [Libevent], take them to the buffers and queues
    of [Context], whose packets live in the memory of [PacketPool] and are framed with
    [Unpack].  The rounds of [GameLogic] take the packets from there, and the commands of
    [NetCmd] bring the replies back to the network threads.

    ** What the theorems show

    - [KFifo]: any sequence of calls behaves as a bounded queue of elements, or of
      whole records, across the wrap-around of the ring and of its 32-bit counters,
      with no access outside a block; initialisation and its errors; what kfifo_avail
      promises.
    - [KFifoThreads], [BufferLogThreads], [KFifoExample]: without a lock, for every
      interleaving of a writer and a reader, nothing races, the bytes read are those
      written, in order, log messages arrive whole and the assertions of the example hold.
    - [Spinlock]: at most one of any number of threads holds the lock.
    - [TimerWheel], [GameTimer]: the wheel dispatches what a flat list of deadlines
      scanned at every tick would, in the same order, also when the clock wraps; a
      timer fires at its tick exactly once; the keyed timers implement a table of
      named alarms without use after free; handles are fresh and the search for one
      ends; a timer that is due at once deadlocks.
    - [Unpack], [PacketPool]: integers and messages round trip; memory of the pool is
      never in two hands and never lost.
    - [Context], [ServerLogic]: a byte stream in any chunks is reassembled into exactly
      its packets; what is sent arrives; what accepting and closing a client do; the
      streams that hang the receiver or are refused.
    - [SocketState]: reserve_id finds a free slot whenever there is one; release frees
      and closes everything once.
    - [SocketSend]: the bytes of a TCP socket are the submitted packages, whole and in
      order within each priority, whatever the system answers, with exact accounting
      of buffers and sizes; two defects of error and user-object handling.
    - [SocketPoll], [SocketInv]: the control pipe is a queue of requests; replies to a
      datagram go to the port and address of its sender, without the scope of an IPv6 one;
      the event loop stays inside its array; reads deliver what was read and adapt the
      buffer, up to the read of 2^30 bytes that overflows its size; the host name that breaks
      the pipe.
    - [SocketProtocol]: in every run with legal calls the pipe holds whole requests, a slot is
      reserved exactly while a request that opens it is in the pipe or about to be written,
      and opening meets no assertion.
    - [SocketReserve]: two threads never reserve the same slot, identifiers are fresh until
      the counter wraps, and the calls end, also when they make each other's swap fail; when a
      stale close or a stale send stops the server.
    - [SocketTable]: in every run the table of clients is the set of accepted connections, data
      arrives only for clients of the table, and the first close of one reads an erased element.
    - [Uuid]: numbers are distinct for 2^25 microseconds, and repeat after.
    - [Config]: printed files parse to their values; which ports are loaded and which end
      the process.
    - [BufferLog]: the buffered log refines a bounded queue of messages.
    - [Libevent], [GameLogic], [GameLoop]: both servers read alike; from bytes to bytes, a
      hello on the libevent server is answered exactly once and to its sender, on the
      socket server never; a heart beat of a connector is answered by the server of
      another process.
    - [GameMemory]: a turn of the logic thread whose answers fit ends without a fault
      and leaves every memory that is handed out in exactly one queue; the hello that stops
      the server.
    - [Connector]: when a heart beat greets the peer; a connector that was connected frees
      its bufferevent twice; what failed attempts leak; how the pool loses and mishandles
      connectors.
    - [Client]: the assertions of the client hold for every interleaving with a server that
      answers in order, and the libevent server is one; which replies the client leaves
      waiting.
    - [Utils], [Startup]: a stack trace stays in its buffer; what CreatePath creates; main
      brings up both servers in the state the theorems on them start from.
    - [Events]: the listener refines a registry with one event per type.

    ** Conventions, bounds and fuel

    Definitions follow the source line by line and are executable; faults stand for
    what C leaves undefined or for a failed assert.  Loops that are not structural
    take fuel, and running out of it is the fault [OutOfFuel], never a result.
    shift_loop needs at most 4 rounds because the wheel has 4 levels; execute_loop 1
    because dispatching does not refill the bucket; remove_loop 1 because the handle
    is erased in the first round; generate_loop one round more than there are handles
    in use; unpack_loop one round more than there are bytes; send_loop 1 because the
    queue is emptied; parse_loop one round more than the file has bytes; read_loop one
    round more than there are bytes to read; reply_loop of the client one round more than
    its buffer has bytes; path_loop one round more than the path has; these bounds are proved enough where the
    theorems conclude [Ok].  wait_loop waits for the clock, and [uuid_unique] says how
    often it may read the same time; the write of a command repeats on errors, and
    [pipe_answers n] says that less than n come in a row.  The rounds of
    _ProcessMessageData are a parameter: the theorem on its endless loop holds for all of
    them.  Calls of the socket server interrupted by a signal are repeated;
    [retries_suffice n] says that less than n interrupts come in a row, and the theorems
    that need it conclude [Ok].  socket_server_poll takes its rounds as a parameter
    because it waits for events; the main loop of a connector and its select loop take
    what happens in each turn as a list.

    Threads are interleaved with sequential consistency: an access is one step, the barriers
    of the source are no steps, and a race is a load and a store of the same bytes of the
    ring that no counter separates.  In [SocketReserve] the server thread changes a slot in
    one step: a slot in use that no call is about to fill, or, for a stale request, one whose
    new identifier is not stored yet.  The threads of the log and of the example loop a given
    number of turns, and the theorems say after how many accesses these turns are over.  A run
    of [SocketProtocol] has as its steps the two halves of a public call, before and at the
    write to the pipe, and a round of the server thread's loop; reserve_id is part of the first
    half.  A run of [Client] has a turn of the receiving loop, half of a send, or a reply of
    the server.

    System calls of the socket server answer from an oracle and leave events in a log.
    What the theorems say holds for every oracle, within what the manual pages promise:
    write takes at most the bytes offered, sendto all or nothing, epoll_wait at most
    the events asked for, a pipe takes a command of 32 bytes whole.  [SocketTable] also needs
    epoll to report only descriptors that were added to it and not removed ([epoll_honest]),
    and fewer than 2^31 identifiers drawn.  Elsewhere what the
    system or libevent returns is an argument of the definition that asks for it.

    ** What is not modelled

    Weak memory and finer interleaving: apart from the ring buffer, the spinlock, the threads
    of the log and reserve_id, a call of a component is one step.  The runs of [SocketTable]
    have the calls the receiving and the command thread make (listen, start, send); a request
    to close and the half-closed sockets it leaves are in [SocketPoll] and [SocketProtocol],
    but no thread of the server makes one.  [GameMemory] is about a whole turn; what the
    network threads do between two turns is in [Context] and [ServerLogic], on one context at
    a time.  Third-party code: libevent,
    protobuf, spdlog and the resolver appear as parameters or not at all.  getReal of the
    configuration reads a floating-point number and is left out.  The Python binding calls the
    interpreter; nothing uses the macros of atomic.h, and the sample program of libevent holds
    no logic of the server; logging calls, getters and sleeps are left out. *)

From Stdlib Require Export ZArith Lia.
From stdpp Require Export base numbers list list_numbers gmap strings option.

#[global] Open Scope Z_scope.

(** ** Machine integers

    A w-bit unsigned integer is a [Z] in [0, 2^w); a signed one a [Z] in
    [-2^(w-1), 2^(w-1)).  Every C operation that can leave the range is
    followed by an explicit wrap. *)

Definition wrap (w z : Z) : Z := z mod 2 ^ w.

Definition swrap (w z : Z) : Z :=
  let r := z mod 2 ^ w in
  if r <? 2 ^ (w - 1) then r else r - 2 ^ w.

Abbreviation u8 := (wrap 8).
Abbreviation u16 := (wrap 16).
Abbreviation u32 := (wrap 32).
Abbreviation u64 := (wrap 64).
Abbreviation i16 := (swrap 16).
Abbreviation i32 := (swrap 32).
Abbreviation i64 := (swrap 64).

Definition UINT32_MAX : Z := 4294967295.

(** A byte is a [Z] in [0, 256). *)
Definition is_byte (b : Z) : Prop := 0 <= b < 256.

Declare Scope cint_scope.
Delimit Scope cint_scope with cint.
Infix ".&" := Z.land (at level 45, left associativity) : cint_scope.
Infix ".|" := Z.lor (at level 47, left associativity) : cint_scope.
Infix ".<<" := Z.shiftl (at level 42, left associativity) : cint_scope.
Infix ".>>" := Z.shiftr (at level 42, left associativity) : cint_scope.

(** ** Faults and the error monad

    A C operation either returns a value or goes wrong.  [Fault] separates
    the ways in which it goes wrong: an access outside an object, a failed
    [assert], an operation undefined in C, a lock taken twice by the same
    thread, a use of freed memory, and a loop of the model that used up its
    fuel. *)

Inductive fault :=
| OutOfBounds
| AssertFail
| Undefined
| Deadlock
| UseAfterFree
| OutOfFuel.

Inductive res (A : Type) :=
| Ok (a : A)
| Fault (f : fault).
Arguments Ok {A} a.
Arguments Fault {A} f.

#[export] Instance res_ret : MRet res := fun A => Ok.
#[export] Instance res_bind : MBind res := fun A B k m =>
  match m with
  | Ok a => k a
  | Fault f => Fault f
  end.

#[export] Instance fault_eq_dec : EqDecision fault.
Proof. solve_decision. Defined.

#[export] Instance res_eq_dec `{EqDecision A} : EqDecision (res A).
Proof. solve_decision. Defined.

Definition c_assert (b : bool) : res unit := if b then Ok tt else Fault AssertFail.

(** ** Memory blocks

    A block is the list of its bytes; reads and writes of [n] bytes at an
    offset fault outside the block, which is what a bounds checker would
    report for the corresponding [memcpy]. *)

Definition mem_read {A} (d : list A) (off n : Z) : res (list A) :=
  if (0 <=? off) && (0 <=? n) && (off + n <=? Z.of_nat (length d))
  then Ok (take (Z.to_nat n) (drop (Z.to_nat off) d))
  else Fault OutOfBounds.

Definition splice {A} (d : list A) (o : nat) (src : list A) : list A :=
  take o d ++ src ++ drop (o + length src) d.

Definition mem_write {A} (d : list A) (off : Z) (src : list A) : res (list A) :=
  if (0 <=? off) && (off + Z.of_nat (length src) <=? Z.of_nat (length d))
  then Ok (splice d (Z.to_nat off) src)
  else Fault OutOfBounds.

(** std::map::insert keeps an existing entry. *)
Definition map_insert_new {K} `{Countable K} {V} (k : K) (v : V) (m : gmap K V) : gmap K V :=
  match m !! k with
  | Some _ => m
  | None => <[k := v]> m
  end.

(** ** C strings

    A C string is the list of its characters before the terminator [nul]. *)

Fixpoint drop_while {A} (f : A → bool) (l : list A) : list A :=
  match l with
  | [] => []
  | x :: l' => if f x then drop_while f l' else l
  end.

Fixpoint take_while {A} (f : A → bool) (l : list A) : list A :=
  match l with
  | [] => []
  | x :: l' => if f x then x :: take_while f l' else []
  end.

Definition c_string {A} `{EqDecision A} (nul : A) (l : list A) : list A :=
  take_while (λ c, negb (bool_decide (c = nul))) l.

(** What strncpy writes for the count [n]: the string cut at [n], padded with [nul]. *)
Definition strncpy {A} `{EqDecision A} (nul : A) (n : nat) (src : list A) : list A :=
  take n (c_string nul src ++ replicate n nul).

(** The string at the start of a block, up to its terminator. *)
Definition block_string (b : list Z) : res (list Z) :=
  if bool_decide (0 ∈ b) then Ok (c_string 0 b) else Fault OutOfBounds.

(** sprintf with the format %d. *)
Fixpoint digits (fuel : nat) (n : Z) (acc : list Z) : list Z :=
  match fuel with
  | O => acc
  | S fuel => if n <? 10 then 48 + n :: acc else digits fuel (n / 10) (48 + n mod 10 :: acc)
  end.
Definition decimal (z : Z) : list Z := if z <? 0 then 45 :: digits 10 (- z) [] else digits 10 z [].

(** ** Lemmas on the monad *)

Section ResLemmas.
Context {A B : Type}.
Implicit Types (m : res A) (k : A → res B).

Lemma bind_Ok_iff m k b : m ≫= k = Ok b ↔ ∃ a, m = Ok a ∧ k a = Ok b.
Proof.
  destruct m as [a|f]; cbn; split.
  - eauto.
  - by intros (? & [= <-] & ?).
  - done.
  - by intros (? & ? & ?).
Qed.

Lemma bind_Ok (a : A) k : Ok a ≫= k = k a.
Proof. done. Qed.

End ResLemmas.

(** Case analysis on the binds of hypotheses: every [m ≫= k = Ok b] is
    replaced by the value [m] returned and the equation of the rest. *)
Ltac inv_res :=
  repeat match goal with
  | H : _ ≫= _ = Ok _ |- _ =>
      let a := fresh "a" in let Ha := fresh "Ha" in
      apply bind_Ok_iff in H as (a & Ha & H); cbn beta in H
  | H : Ok _ = Ok _ |- _ => injection H as H; subst
  | H : Fault _ = Ok _ |- _ => discriminate H
  end.

(** ** Lists and blocks *)

Create Rewrite HintDb len.
#[export] Hint Rewrite @length_app @length_take @length_drop @length_replicate
  @length_fmap @length_seq @length_insert : len.

Ltac len := autorewrite with len in *; simpl in *; try lia.

Section BlockLemmas.
Context {A : Type}.
Implicit Types (d src : list A).

Lemma length_splice d o src :
  (o + length src <= length d)%nat → length (splice d o src) = length d.
Proof. intros; unfold splice; len. Qed.

Lemma lookup_splice_in d o src i :
  (o + length src <= length d)%nat → (o <= i < o + length src)%nat →
  splice d o src !! i = src !! (i - o)%nat.
Proof.
  intros Hle Hi. unfold splice.
  rewrite lookup_app_r by len. rewrite lookup_app_l by len.
  f_equal. len.
Qed.

Lemma lookup_splice_out d o src i :
  (o + length src <= length d)%nat → ¬ (o <= i < o + length src)%nat →
  splice d o src !! i = d !! i.
Proof.
  intros Hle Hi. unfold splice.
  destruct (decide (i < o)%nat) as [Hlt|Hge].
  - rewrite lookup_app_l by len. by rewrite lookup_take_lt.
  - rewrite lookup_app_r by len. rewrite lookup_app_r by len.
    rewrite lookup_drop. f_equal. len.
Qed.

Lemma splice_nil d o : splice d o [] = d.
Proof. unfold splice. simpl. rewrite Nat.add_0_r. apply take_drop. Qed.

Lemma mem_read_Ok d off n :
  0 <= off → 0 <= n → off + n <= Z.of_nat (length d) →
  mem_read d off n = Ok (take (Z.to_nat n) (drop (Z.to_nat off) d)).
Proof.
  intros. unfold mem_read.
  by rewrite !(proj2 (Z.leb_le _ _)) by lia.
Qed.

Lemma mem_write_Ok d off src :
  0 <= off → off + Z.of_nat (length src) <= Z.of_nat (length d) →
  mem_write d off src = Ok (splice d (Z.to_nat off) src).
Proof.
  intros. unfold mem_write.
  by rewrite !(proj2 (Z.leb_le _ _)) by lia.
Qed.

End BlockLemmas.

(** ** C-string lemmas *)

Section CStringLemmas.
Context {A : Type}.
Implicit Types (l : list A) (f : A → bool).

Lemma take_while_all f l : Forall (λ c, f c = true) l → take_while f l = l.
Proof. induction 1 as [|c l Hc _ IH]; [done|]. cbn. by rewrite Hc, IH. Qed.

Lemma take_while_stop f l c l' :
  Forall (λ c, f c = true) l → f c = false → take_while f (l ++ c :: l') = l.
Proof. intros Hl Hc. induction Hl as [|x l Hx _ IH]; cbn; [by rewrite Hc|by rewrite Hx, IH]. Qed.

Lemma drop_while_head f l : match l with [] => True | c :: _ => f c = false end → drop_while f l = l.
Proof. destruct l as [|c l]; [done|]. intros Hc. cbn. by rewrite Hc. Qed.

Context `{EqDecision A} (nul : A).

Lemma c_string_id l : nul ∉ l → c_string nul l = l.
Proof using.
  intros Hl. apply take_while_all, list.Forall_forall. intros x Hx.
  rewrite bool_decide_false; [done|]. by intros ->.
Qed.

Lemma c_string_stop l l' : nul ∉ l → c_string nul (l ++ nul :: l') = l.
Proof using.
  intros Hl. apply take_while_stop; [|by rewrite bool_decide_true].
  apply list.Forall_forall. intros x Hx. rewrite bool_decide_false; [done|]. by intros ->.
Qed.

Lemma nul_not_in_c_string l : nul ∉ c_string nul l.
Proof using.
  induction l as [|x l IH]; cbn; [apply not_elem_of_nil|]. case_bool_decide; cbn.
  - apply not_elem_of_nil.
  - by rewrite not_elem_of_cons.
Qed.

Lemma length_strncpy n l : length (strncpy nul n l) = n.
Proof using. unfold strncpy. rewrite length_take, length_app, length_replicate. lia. Qed.

(** A copy that is terminated reads back as the string, cut at the count. *)
Lemma c_string_strncpy n l rest :
  c_string nul (strncpy nul n l ++ nul :: rest) = take n (c_string nul l).
Proof using.
  unfold strncpy. pose proof (nul_not_in_c_string l) as Hnul. set (s := c_string nul l) in *.
  rewrite take_app, take_replicate, <- (assoc_L (++)).
  assert (nul ∉ take n s) as Ht by (intros (i & Hi & _)%elem_of_take; by apply list_elem_of_lookup_2 in Hi).
  match goal with |- context [replicate ?k _] => destruct k end; cbn; by rewrite c_string_stop.
Qed.

End CStringLemmas.

(** ** Strings in blocks and decimal numbers *)

(** The text of a block that starts with a string and its terminator. *)
Lemma block_string_spec s rest : 0 ∉ s → block_string (s ++ 0 :: rest) = Ok s.
Proof.
  intros Hs. unfold block_string. rewrite bool_decide_true by (apply elem_of_app; right; apply list_elem_of_here).
  by rewrite c_string_stop.
Qed.

Lemma digits_spec fuel n acc :
  0 <= n → (length (digits fuel n acc) <= fuel + length acc)%nat ∧ (0 ∉ acc → 0 ∉ digits fuel n acc).
Proof.
  revert n acc. induction fuel as [|fuel IH]; intros n acc Hn; cbn [digits]; [split; [lia|done]|].
  destruct (Z.ltb_spec n 10).
  - cbn [length]. split; [lia|]. rewrite not_elem_of_cons. split; [lia|done].
  - destruct (IH (n / 10) (48 + n mod 10 :: acc)) as [Hl Hz]; [apply Z.div_pos; lia|].
    cbn [length] in Hl. split; [lia|]. intros Hacc. apply Hz. rewrite not_elem_of_cons.
    pose proof (Z.mod_pos_bound n 10). split; [lia|done].
Qed.

Lemma decimal_spec i : 0 <= i → (length (decimal i) <= 10)%nat ∧ 0 ∉ decimal i.
Proof.
  intros Hi. unfold decimal. destruct (Z.ltb_spec i 0); [lia|].
  destruct (digits_spec 10 i [] Hi) as [Hl Hz]. cbn [length] in Hl. split; [lia|]. apply Hz, not_elem_of_nil.
Qed.

(** ** Machine-integer lemmas *)

Lemma wrap_bound w z : 0 <= w → 0 <= wrap w z < 2 ^ w.
Proof. intros. apply Z.mod_pos_bound. lia. Qed.

Lemma wrap_small w z : 0 <= z < 2 ^ w → wrap w z = z.
Proof. apply Z.mod_small. Qed.

Lemma u32_bound z : 0 <= u32 z < 4294967296.
Proof. apply (wrap_bound 32). lia. Qed.

Lemma u32_small z : 0 <= z < 4294967296 → u32 z = z.
Proof. apply (wrap_small 32). Qed.

Lemma swrap_small w z :
  0 < w → - 2 ^ (w - 1) <= z < 2 ^ (w - 1) → swrap w z = z.
Proof.
  intros Hw Hz. unfold swrap.
  assert (2 ^ w = 2 * 2 ^ (w - 1)) as E.
  { rewrite <- Z.pow_succ_r by lia. f_equal. lia. }
  destruct (decide (0 <= z)).
  - rewrite Z.mod_small by lia. destruct (Z.ltb_spec z (2 ^ (w - 1))); lia.
  - assert (z mod 2 ^ w = z + 2 ^ w) as ->.
    { symmetry. apply Z.mod_unique with (-1); lia. }
    destruct (Z.ltb_spec (z + 2 ^ w) (2 ^ (w - 1))); lia.
Qed.

Lemma wrap_swrap w z : 0 < w → wrap w (swrap w z) = wrap w z.
Proof.
  intros Hw. unfold swrap, wrap.
  destruct (Z.ltb_spec (z mod 2 ^ w) (2 ^ (w - 1))).
  - by rewrite Z.mod_mod by lia.
  - rewrite <- Zminus_mod_idemp_r, Z.mod_same by lia.
    rewrite Z.sub_0_r. by rewrite Z.mod_mod by lia.
Qed.

(** A mask of low bits is a remainder. *)
Lemma land_mask z k : 0 <= k → Z.land z (2 ^ k - 1) = z mod 2 ^ k.
Proof.
  intros Hk. rewrite <- Z.land_ones by done. f_equal.
  rewrite Z.ones_equiv. lia.
Qed.

Lemma u32_eq_mod z k : 0 <= k <= 32 → u32 z mod 2 ^ k = z mod 2 ^ k.
Proof.
  intros Hk. unfold wrap.
  replace (2 ^ 32) with (2 ^ k * 2 ^ (32 - k)).
  2:{ rewrite <- Z.pow_add_r by lia. f_equal. lia. }
  rewrite Z.rem_mul_r by lia.
  rewrite Z.mul_comm, Z.mod_add by lia. by rewrite Z.mod_mod by lia.
Qed.

Create HintDb cint.
#[export] Hint Resolve wrap_bound u32_bound u32_small : cint.

(** Linear arithmetic with 32-bit wrap-around: the modulus is a constant, so
    [lia] decides it once [wrap] is unfolded. *)
Ltac u32_lia :=
  unfold wrap in *; change (2 ^ 32) with 4294967296 in *; Z.div_mod_to_equations; lia.

(** ** Filters *)

Section FilterLemmas.
Context {A : Type} (P Q : A → Prop) `{∀ x, Decision (P x), ∀ x, Decision (Q x)}.

Lemma filter_none (l : list A) : (∀ x, x ∈ l → ¬ P x) → filter P l = [].
Proof using.
  induction l as [|x l IH]; intros Hl; [done|].
  rewrite filter_cons_False by (apply Hl; left). apply IH. intros y Hy. apply Hl. by right.
Qed.

Lemma filter_all (l : list A) : (∀ x, x ∈ l → P x) → filter P l = l.
Proof using.
  induction l as [|x l IH]; intros Hl; [done|].
  rewrite filter_cons_True by (apply Hl; left). f_equal. apply IH. intros y Hy. apply Hl. by right.
Qed.

Lemma filter_ext_in (l : list A) : (∀ x, x ∈ l → P x ↔ Q x) → filter P l = filter Q l.
Proof using.
  induction l as [|x l IH]; intros Hl; [done|]. rewrite !filter_cons.
  rewrite IH by (intros y Hy; apply Hl; by right).
  destruct (Hl x) as [H1 H2]; [left|]. repeat case_decide; tauto || done.
Qed.

End FilterLemmas.
