(* ===== verification/KFifo.v ===== *)
(** * The kernel FIFO ring buffer (src/common/kfifo/kfifo.c, kfifo.h)

    [__kfifo] is the struct, one definition per C function and per macro of
    the header.  Indices are 32-bit counters that run freely and are masked on
    use; memory is a checked block, so a copy outside the buffer is a
    [Fault].  The theorems show that the ring is a bounded byte queue, also
    across the wrap-around of the counters, and that the record mode is a
    queue of records. *)

From S2P Require Import Prelude.

Open Scope cint_scope.

(** struct __kfifo *)
Record __kfifo := mk_kfifo {
  kf_in : Z;
  kf_out : Z;
  kf_mask : Z;
  kf_esize : Z;
  kf_data : list Z
}.

Definition EINVAL : Z := 22.

(** #define min(x,y) *)
Definition min (x y : Z) : Z := if x <? y then x else y.

Definition roundup_pow_of_two (v : Z) : Z :=
  let v := u32 (v - 1) in
  let v := v .| (v .>> 1) in
  let v := v .| (v .>> 2) in
  let v := v .| (v .>> 4) in
  let v := v .| (v .>> 8) in
  let v := v .| (v .>> 16) in
  u32 (v + 1).

Definition rounddown_pow_of_two (n : Z) : Z :=
  let n := n .| (n .>> 1) in
  let n := n .| (n .>> 2) in
  let n := n .| (n .>> 4) in
  let n := n .| (n .>> 8) in
  let n := n .| (n .>> 16) in
  u32 (n + 1) .>> 1.

Definition kfifo_unused (fifo : __kfifo) : Z :=
  u32 (u32 (kf_mask fifo + 1) - u32 (kf_in fifo - kf_out fifo)).

(** [size /= esize] is computed in 64 bits and stored in an unsigned int; a
    zero [esize] divides by zero. *)
Definition __kfifo_init (buffer : list Z) (size esize : Z) : res (__kfifo * Z) :=
  if esize =? 0 then Fault Undefined else
  let size := u32 (size / esize) in
  let size := rounddown_pow_of_two size in
  if size <? 2
  then Ok (mk_kfifo 0 0 0 (u32 esize) buffer, - EINVAL)
  else Ok (mk_kfifo 0 0 (u32 (size - 1)) (u32 esize) buffer, 0).

(** The offset, the ring size and the length in bytes, as both copy
    functions compute them. *)
Definition copy_geometry (fifo : __kfifo) (len off : Z) : Z * Z * Z :=
  let size := u32 (kf_mask fifo + 1) in
  let esize := kf_esize fifo in
  let off := off .& kf_mask fifo in
  if esize =? 1 then (off, size, len)
  else (u32 (off * esize), u32 (size * esize), u32 (len * esize)).

Definition kfifo_copy_in (fifo : __kfifo) (src : list Z) (len off : Z) : res __kfifo :=
  let '(off, size, len) := copy_geometry fifo len off in
  let l := min len (u32 (size - off)) in
  s1 ← mem_read src 0 l;
  d1 ← mem_write (kf_data fifo) off s1;
  s2 ← mem_read src l (u32 (len - l));
  d2 ← mem_write d1 0 s2;
  Ok (mk_kfifo (kf_in fifo) (kf_out fifo) (kf_mask fifo) (kf_esize fifo) d2).

Definition set_in (fifo : __kfifo) (v : Z) : __kfifo :=
  mk_kfifo v (kf_out fifo) (kf_mask fifo) (kf_esize fifo) (kf_data fifo).
Definition set_out (fifo : __kfifo) (v : Z) : __kfifo :=
  mk_kfifo (kf_in fifo) v (kf_mask fifo) (kf_esize fifo) (kf_data fifo).

Definition __kfifo_in (fifo : __kfifo) (buf : list Z) (len : Z) : res (__kfifo * Z) :=
  let l := kfifo_unused fifo in
  let len := if l <? len then l else len in
  fifo ← kfifo_copy_in fifo buf len (kf_in fifo);
  Ok (set_in fifo (u32 (kf_in fifo + len)), len).

(** The destination is the caller's buffer; the result is that buffer after
    the copy. *)
Definition kfifo_copy_out (fifo : __kfifo) (dst : list Z) (len off : Z) : res (list Z) :=
  let '(off, size, len) := copy_geometry fifo len off in
  let l := min len (u32 (size - off)) in
  s1 ← mem_read (kf_data fifo) off l;
  d1 ← mem_write dst 0 s1;
  s2 ← mem_read (kf_data fifo) 0 (u32 (len - l));
  mem_write d1 l s2.

Definition __kfifo_out_peek (fifo : __kfifo) (buf : list Z) (len : Z) : res (list Z * Z) :=
  let l := u32 (kf_in fifo - kf_out fifo) in
  let len := if l <? len then l else len in
  buf ← kfifo_copy_out fifo buf len (kf_out fifo);
  Ok (buf, len).

Definition __kfifo_out (fifo : __kfifo) (buf : list Z) (len : Z)
  : res (__kfifo * list Z * Z) :=
  '(buf, len) ← __kfifo_out_peek fifo buf len;
  Ok (set_out fifo (u32 (kf_out fifo + len)), buf, len).

(** ** Records: each record is preceded by its length in [recsize] bytes *)

Definition __kfifo_max_r (len recsize : Z) : Z :=
  let max := u32 ((1 .<< (recsize .<< 3)) - 1) in
  if max <? len then max else len.

Definition KFIFO_PEEK (data : list Z) (out mask : Z) : res Z :=
  b ← mem_read data (out .& mask) 1;
  match b with
  | [x] => Ok x
  | _ => Fault OutOfBounds
  end.

Definition __kfifo_peek_n (fifo : __kfifo) (recsize : Z) : res Z :=
  l ← KFIFO_PEEK (kf_data fifo) (kf_out fifo) (kf_mask fifo);
  if u64 (recsize - 1) =? 0 then Ok l else
  h ← KFIFO_PEEK (kf_data fifo) (u32 (kf_out fifo + 1)) (kf_mask fifo);
  Ok (l .| (h .<< 8)).

Definition KFIFO_POKE (data : list Z) (in_ mask val : Z) : res (list Z) :=
  mem_write data (in_ .& mask) [u8 val].

Definition set_data (fifo : __kfifo) (d : list Z) : __kfifo :=
  mk_kfifo (kf_in fifo) (kf_out fifo) (kf_mask fifo) (kf_esize fifo) d.

Definition __kfifo_poke_n (fifo : __kfifo) (n recsize : Z) : res __kfifo :=
  d ← KFIFO_POKE (kf_data fifo) (kf_in fifo) (kf_mask fifo) n;
  if 1 <? recsize then
    d ← KFIFO_POKE d (u32 (kf_in fifo + 1)) (kf_mask fifo) (n .>> 8);
    Ok (set_data fifo d)
  else Ok (set_data fifo d).

Definition __kfifo_len_r (fifo : __kfifo) (recsize : Z) : res Z :=
  __kfifo_peek_n fifo recsize.

(** [len + recsize] is a size_t sum: it does not wrap at 32 bits. *)
Definition __kfifo_in_r (fifo : __kfifo) (buf : list Z) (len recsize : Z)
  : res (__kfifo * Z) :=
  if kfifo_unused fifo <? u64 (len + recsize) then Ok (fifo, 0) else
  fifo ← __kfifo_poke_n fifo len recsize;
  fifo ← kfifo_copy_in fifo buf len (u32 (kf_in fifo + recsize));
  Ok (set_in fifo (u32 (kf_in fifo + (len + recsize))), len).

Definition kfifo_out_copy_r (fifo : __kfifo) (buf : list Z) (len recsize : Z)
  : res (list Z * Z * Z) :=
  n ← __kfifo_peek_n fifo recsize;
  let len := if n <? len then n else len in
  buf ← kfifo_copy_out fifo buf len (u32 (kf_out fifo + recsize));
  Ok (buf, len, n).

Definition __kfifo_out_peek_r (fifo : __kfifo) (buf : list Z) (len recsize : Z)
  : res (list Z * Z) :=
  if kf_in fifo =? kf_out fifo then Ok (buf, 0) else
  '(buf, len, _) ← kfifo_out_copy_r fifo buf len recsize;
  Ok (buf, len).

Definition __kfifo_out_r (fifo : __kfifo) (buf : list Z) (len recsize : Z)
  : res (__kfifo * list Z * Z) :=
  if kf_in fifo =? kf_out fifo then Ok (fifo, buf, 0) else
  '(buf, len, n) ← kfifo_out_copy_r fifo buf len recsize;
  Ok (set_out fifo (u32 (kf_out fifo + (n + recsize))), buf, len).

Definition __kfifo_skip_r (fifo : __kfifo) (recsize : Z) : res __kfifo :=
  n ← __kfifo_peek_n fifo recsize;
  Ok (set_out fifo (u32 (kf_out fifo + (n + recsize)))).

(** ** The macros of kfifo.h

    [recsize] is [sizeof( *rectype)] of the declared fifo: 0 for a plain fifo,
    1 or 2 for the record fifos. *)

(** INIT_KFIFO: the buffer is the array declared inside the structure, of
    [ARRAY_SIZE] elements of [esize] bytes. *)
Definition INIT_KFIFO (buf : list Z) (array_size esize : Z) : __kfifo :=
  mk_kfifo 0 0 (u32 (array_size - 1)) (u32 esize) buf.

(** The array bound of __STRUCT_KFIFO, negative (a compile error) unless the
    size is a power of two of at least 2. *)
Definition STRUCT_KFIFO_bound (size : Z) : Z :=
  if (size <? 2) || negb (size .& (size - 1) =? 0) then -1 else size.

Definition kfifo_initialized (fifo : __kfifo) : bool := negb (kf_mask fifo =? 0).
Definition kfifo_size (fifo : __kfifo) : Z := u32 (kf_mask fifo + 1).
Definition kfifo_reset (fifo : __kfifo) : __kfifo := set_in (set_out fifo 0) 0.
Definition kfifo_reset_out (fifo : __kfifo) : __kfifo := set_out fifo (kf_in fifo).
Definition kfifo_len (fifo : __kfifo) : Z := u32 (kf_in fifo - kf_out fifo).
Definition kfifo_is_empty (fifo : __kfifo) : bool := kf_in fifo =? kf_out fifo.
Definition kfifo_is_full (fifo : __kfifo) : bool := kf_mask fifo <? kfifo_len fifo.

Definition kfifo_avail (recsize : Z) (fifo : __kfifo) : Z :=
  let avail := u32 (kfifo_size fifo - kfifo_len fifo) in
  if negb (recsize =? 0) then
    if avail <=? recsize then 0
    else __kfifo_max_r (u32 (avail - recsize)) recsize
  else avail.

Definition kfifo_skip (recsize : Z) (fifo : __kfifo) : res __kfifo :=
  if negb (recsize =? 0) then __kfifo_skip_r fifo recsize
  else Ok (set_out fifo (u32 (kf_out fifo + 1))).

Definition kfifo_skip_n (fifo : __kfifo) (n : Z) : __kfifo :=
  set_out fifo (u32 (kf_out fifo + n)).

Definition kfifo_peek_len (recsize type_size : Z) (fifo : __kfifo) : res Z :=
  if recsize =? 0 then Ok (u32 (kfifo_len fifo * type_size))
  else __kfifo_len_r fifo recsize.

(** [is_kfifo_ptr] is __is_kfifo_ptr, which the size of the fifo's type decides: a fifo whose
    array is a part of it keeps it. *)
Definition kfifo_init (is_kfifo_ptr : bool) (fifo : __kfifo) (buffer : list Z) (size type_size : Z)
  : res (__kfifo * Z) :=
  if is_kfifo_ptr then __kfifo_init buffer size type_size else Ok (fifo, - EINVAL).

(** The count argument is an unsigned long; the functions take an unsigned
    int. *)
Definition kfifo_in (recsize : Z) (fifo : __kfifo) (buf : list Z) (n : Z)
  : res (__kfifo * Z) :=
  if negb (recsize =? 0) then __kfifo_in_r fifo buf (u32 n) recsize
  else __kfifo_in fifo buf (u32 n).

Definition kfifo_out (recsize : Z) (fifo : __kfifo) (buf : list Z) (n : Z)
  : res (__kfifo * list Z * Z) :=
  if negb (recsize =? 0) then __kfifo_out_r fifo buf (u32 n) recsize
  else __kfifo_out fifo buf (u32 n).

Definition kfifo_out_peek (recsize : Z) (fifo : __kfifo) (buf : list Z) (n : Z)
  : res (list Z * Z) :=
  if negb (recsize =? 0) then __kfifo_out_peek_r fifo buf (u32 n) recsize
  else __kfifo_out_peek fifo buf (u32 n).

(** kfifo_peek for a plain fifo reads one element of [esize] bytes at the
    masked out index. *)
Definition kfifo_peek (recsize : Z) (fifo : __kfifo) (val : list Z)
  : res (list Z * Z) :=
  if negb (recsize =? 0)
  then __kfifo_out_peek_r fifo val (u32 (Z.of_nat (length val))) recsize
  else if kfifo_is_empty fifo then Ok (val, 0) else
    e ← mem_read (kf_data fifo) ((kf_out fifo .& kf_mask fifo) * kf_esize fifo)
          (kf_esize fifo);
    v ← mem_write val 0 e;
    Ok (v, 1).

(** ** The ring seen from outside

    [ring_read d N o n] are the [n] bytes that start at position [o] of the
    ring of [N] bytes stored in [d], indices taken modulo [N]. *)

Definition ring_read (d : list Z) (N o n : nat) : list Z :=
  (fun i => d !!! ((o + i) mod N)%nat) <$> seq 0 n.

(** Capacity in elements, bytes used, and the content of a fifo: the bytes
    written and not yet read, oldest first. *)
Definition capacity (f : __kfifo) : Z := kf_mask f + 1.
Definition used (f : __kfifo) : Z := u32 (kf_in f - kf_out f).
Definition ring_bytes (f : __kfifo) : nat := Z.to_nat (capacity f * kf_esize f).
Definition contents (f : __kfifo) : list Z :=
  ring_read (kf_data f) (ring_bytes f) (Z.to_nat (kf_out f * kf_esize f))
    (Z.to_nat (used f * kf_esize f)).

(** Well-formed fifos: a power-of-two number of elements, a buffer that holds
    them all with byte offsets representable in 32 bits, counters in range and
    no more elements in use than the capacity. *)
Record wf_kfifo (f : __kfifo) : Prop := {
  wf_pow2 : ∃ k, 0 <= k <= 31 ∧ capacity f = 2 ^ k;
  wf_esize : 0 < kf_esize f;
  wf_bytes : capacity f * kf_esize f < 4294967296;
  wf_data : capacity f * kf_esize f <= Z.of_nat (length (kf_data f));
  wf_in : 0 <= kf_in f < 4294967296;
  wf_out : 0 <= kf_out f < 4294967296;
  wf_used : used f <= capacity f
}.

Section Ring.
Implicit Types (d src : list Z) (N o n i : nat).

Lemma length_ring_read d N o n : length (ring_read d N o n) = n.
Proof. unfold ring_read. len. Qed.

Lemma lookup_ring_read d N o n i :
  (i < n)%nat → ring_read d N o n !! i = Some (d !!! ((o + i) mod N)%nat).
Proof.
  intros Hi. unfold ring_read.
  rewrite list_lookup_fmap, lookup_seq_lt by done. done.
Qed.

Lemma ring_read_app d N o n m :
  ring_read d N o (n + m) = ring_read d N o n ++ ring_read d N (o + n) m.
Proof.
  unfold ring_read. rewrite seq_app, fmap_app. f_equal.
  rewrite Nat.add_0_l, <- (Nat.add_0_r n) at 1.
  rewrite <- fmap_add_seq, <- list_fmap_compose.
  apply list_fmap_ext. intros j x _. simpl. do 2 f_equal. lia.
Qed.

(** Only the residue of the start matters. *)
Lemma ring_read_mod d N o o' n :
  (0 < N)%nat → (o mod N = o' mod N)%nat → ring_read d N o n = ring_read d N o' n.
Proof.
  intros HN E. unfold ring_read. apply list_fmap_ext. intros i x _.
  f_equal. rewrite Nat.Div0.add_mod, E, <- Nat.Div0.add_mod. done.
Qed.

(** The two [memcpy] calls of the copy functions, on an offset already
    reduced: a read is the first chunk up to the end of the ring and the rest
    from its start. *)
Lemma ring_read_two d N o n :
  (o < N)%nat → (n <= N)%nat → (N <= length d)%nat →
  ring_read d N o n =
    take (Nat.min n (N - o)) (drop o d) ++ take (n - Nat.min n (N - o)) d.
Proof.
  intros Ho Hn HN. apply list_eq_same_length with n.
  - len.
  - apply length_ring_read.
  - intros i x y Hi Hx Hy. rewrite lookup_ring_read in Hx by done. injection Hx as <-.
    apply list_lookup_total_correct.
    destruct (decide (i < Nat.min n (N - o))%nat) as [Hlt|Hge].
    + rewrite lookup_app_l in Hy by len. rewrite lookup_take_lt in Hy by done.
      rewrite lookup_drop in Hy. by rewrite Nat.mod_small by lia.
    + rewrite lookup_app_r in Hy by len. rewrite lookup_take_lt in Hy by len.
      rewrite <- Hy. f_equal.
      rewrite length_take, length_drop.
      replace (o + i)%nat with ((o + i - N) + 1 * N)%nat by lia.
      rewrite Nat.Div0.mod_add, Nat.mod_small by lia. lia.
Qed.

(** A write of [src] at [o] is the two splices; it changes exactly the bytes
    [o .. o + length src) of the ring. *)
Lemma ring_write_two d N o src i :
  (o < N)%nat → (length src <= N)%nat → (N <= length d)%nat → (i < N)%nat →
  let l := Nat.min (length src) (N - o) in
  splice (splice d o (take l src)) 0 (drop l src) !!! ((o + i) mod N)%nat =
    if decide (i < length src)%nat then src !!! i else d !!! ((o + i) mod N)%nat.
Proof.
  intros Ho Hs HN Hi l.
  assert (length (splice d o (take l src)) = length d) as E1 by (apply length_splice; len).
  rewrite !list_lookup_total_alt.
  destruct (decide (o + i < N)%nat) as [Hlt|Hge].
  - rewrite Nat.mod_small by done.
    rewrite lookup_splice_out by len.
    case_decide.
    + rewrite lookup_splice_in by len. rewrite lookup_take_lt by lia.
      do 2 f_equal. lia.
    + rewrite lookup_splice_out by len. done.
  - assert (((o + i) mod N)%nat = (o + i - N)%nat) as ->.
    { replace (o + i)%nat with ((o + i - N) + 1 * N)%nat by lia.
      rewrite Nat.Div0.mod_add, Nat.mod_small; lia. }
    case_decide.
    + rewrite lookup_splice_in by len. rewrite lookup_drop.
      do 2 f_equal. lia.
    + rewrite lookup_splice_out by len. by rewrite lookup_splice_out by len.
Qed.

End Ring.

(** [ring_update d N o src d']: [d'] is [d] with [src] written at position [o]
    of the ring, every other byte of the ring untouched. *)
Definition ring_update (d : list Z) (N o : nat) (src d' : list Z) : Prop :=
  length d' = length d ∧
  ∀ i, (i < N)%nat →
    d' !!! ((o + i) mod N)%nat =
      if decide (i < length src)%nat then src !!! i else d !!! ((o + i) mod N)%nat.

Section RingUpdate.
Context (d d' src : list Z) (N o : nat).
Hypothesis (HN : (0 < N)%nat).
Hypothesis (Hup : ring_update d N o src d').

Lemma ring_update_new : (length src <= N)%nat → ring_read d' N o (length src) = src.
Proof using HN Hup.
  intros Hs. apply list_eq_same_length with (length src); [done|apply length_ring_read|].
  intros i x y Hi. rewrite lookup_ring_read by done. intros [= <-] Hy.
  destruct Hup as [_ Hup']. rewrite Hup' by lia. rewrite decide_True by done.
  by apply list_lookup_total_correct.
Qed.

(** A region that ends where the write starts keeps its bytes, as long as the
    two together fit in the ring. *)
Lemma ring_update_old o' n :
  (n + length src <= N)%nat → ((o' + n) mod N = o mod N)%nat →
  ring_read d' N o' n = ring_read d N o' n.
Proof using HN Hup.
  intros Hfit Eo. destruct Hup as [_ Hup'].
  unfold ring_read. apply list_fmap_ext. intros i x Hx.
  apply lookup_seq in Hx as [-> Hi]. simpl.
  assert (((o' + i) mod N = (o + (N - n + i)) mod N)%nat) as ->.
  { rewrite <- (Nat.Div0.add_mod_idemp_l o), <- Eo, Nat.Div0.add_mod_idemp_l.
    replace (o' + n + (N - n + i))%nat with (o' + i + 1 * N)%nat by lia.
    by rewrite Nat.Div0.mod_add. }
  rewrite Hup' by lia. by rewrite decide_False by lia.
Qed.

End RingUpdate.

(** ** Geometry of a well-formed fifo *)

Lemma capacity_pos f : wf_kfifo f → 0 < capacity f.
Proof. intros [(k & Hk & E) _ _ _ _ _ _]. rewrite E. lia. Qed.

Lemma used_bound f : 0 <= used f.
Proof. apply u32_bound. Qed.
#[export] Hint Resolve capacity_pos used_bound : cint.

Lemma capacity_le f : wf_kfifo f → capacity f <= 2147483648.
Proof.
  intros [(k & Hk & E) _ _ _ _ _ _]. rewrite E.
  change 2147483648 with (2 ^ 31). apply Z.pow_le_mono_r; lia.
Qed.

Lemma kfifo_size_capacity f : wf_kfifo f → kfifo_size f = capacity f.
Proof.
  intros Hwf. unfold kfifo_size. pose proof (capacity_le f Hwf). pose proof (capacity_pos f Hwf).
  unfold capacity in *. apply u32_small. lia.
Qed.

Lemma kfifo_unused_eq f : wf_kfifo f → kfifo_unused f = capacity f - used f.
Proof.
  intros Hwf. unfold kfifo_unused. fold (kfifo_size f). fold (used f).
  rewrite kfifo_size_capacity by done.
  pose proof (wf_used f Hwf). pose proof (used_bound f). pose proof (capacity_le f Hwf).
  apply u32_small. lia.
Qed.

Lemma land_kf_mask f z : wf_kfifo f → Z.land z (kf_mask f) = z mod capacity f.
Proof.
  intros [(k & Hk & E) _ _ _ _ _ _].
  replace (kf_mask f) with (2 ^ k - 1) by (unfold capacity in E; lia).
  rewrite E. apply land_mask. lia.
Qed.

(** Counters wrap at 2^32, a multiple of the capacity. *)
Lemma u32_mod_capacity f z : wf_kfifo f → u32 z mod capacity f = z mod capacity f.
Proof. intros [(k & Hk & E) _ _ _ _ _ _]. rewrite E. apply u32_eq_mod. lia. Qed.

Lemma copy_geometry_eq f len off :
  wf_kfifo f → 0 <= len <= capacity f →
  copy_geometry f len off =
    ((off mod capacity f) * kf_esize f, capacity f * kf_esize f, len * kf_esize f).
Proof.
  intros Hwf Hlen. unfold copy_geometry. fold (kfifo_size f).
  rewrite kfifo_size_capacity, land_kf_mask by done.
  pose proof (wf_bytes f Hwf). pose proof (wf_esize f Hwf). pose proof (capacity_pos f Hwf).
  pose proof (Z.mod_pos_bound off (capacity f)).
  destruct (Z.eqb_spec (kf_esize f) 1) as [->|_].
  - by rewrite !Z.mul_1_r.
  - rewrite !u32_small by nia. done.
Qed.

Lemma ring_bytes_pos f : wf_kfifo f → (0 < ring_bytes f)%nat.
Proof.
  intros Hwf. unfold ring_bytes.
  pose proof (wf_esize f Hwf). pose proof (capacity_pos f Hwf). nia.
Qed.

Lemma ring_bytes_data f : wf_kfifo f → (ring_bytes f <= length (kf_data f))%nat.
Proof. intros Hwf. unfold ring_bytes. pose proof (wf_data f Hwf). lia. Qed.

Lemma min_nat (a b : nat) : min (Z.of_nat a) (Z.of_nat b) = Z.of_nat (Nat.min a b).
Proof. unfold min. destruct (Z.ltb_spec (Z.of_nat a) (Z.of_nat b)); lia. Qed.

(** The byte offset of an element index, as a ring position. *)
Lemma byte_offset_mod f off :
  wf_kfifo f → 0 <= off →
  Z.to_nat (off mod capacity f * kf_esize f) =
    (Z.to_nat (off * kf_esize f) mod ring_bytes f)%nat.
Proof.
  intros Hwf Hoff. pose proof (wf_esize f Hwf). pose proof (capacity_pos f Hwf).
  unfold ring_bytes. rewrite <- Z2Nat.inj_mod by nia.
  f_equal. symmetry. apply Z.mul_mod_distr_r; lia.
Qed.

Lemma byte_offset_lt f off :
  wf_kfifo f → 0 <= off mod capacity f * kf_esize f < capacity f * kf_esize f.
Proof.
  intros Hwf. pose proof (wf_esize f Hwf). pose proof (capacity_pos f Hwf).
  pose proof (Z.mod_pos_bound off (capacity f)). nia.
Qed.

Lemma kfifo_copy_in_spec f src len off :
  wf_kfifo f → 0 <= len <= capacity f → 0 <= off →
  len * kf_esize f <= Z.of_nat (length src) →
  ∃ d', kfifo_copy_in f src len off = Ok (set_data f d') ∧
    ring_update (kf_data f) (ring_bytes f) (Z.to_nat (off * kf_esize f))
      (take (Z.to_nat (len * kf_esize f)) src) d'.
Proof.
  intros Hwf Hlen Hoff Hsrc.
  pose proof (byte_offset_lt f off Hwf) as Ho. pose proof (wf_bytes f Hwf) as HB.
  pose proof (ring_bytes_data f Hwf) as HD. pose proof (ring_bytes_pos f Hwf) as HN.
  pose proof (wf_esize f Hwf) as He.
  assert (ring_bytes f = Z.to_nat (capacity f * kf_esize f)) as EN by done.
  unfold kfifo_copy_in. rewrite copy_geometry_eq by done.
  set (o := off mod capacity f * kf_esize f) in *.
  set (B := capacity f * kf_esize f) in *. set (n := len * kf_esize f) in *.
  assert (0 <= n <= B) as Hn by (unfold n, B; nia).
  rewrite (u32_small (B - o)) by lia.
  assert (min n (B - o) = Z.of_nat (Nat.min (Z.to_nat n) (ring_bytes f - Z.to_nat o))) as ->.
  { rewrite EN, <- min_nat. f_equal; lia. }
  set (l := Nat.min (Z.to_nat n) (ring_bytes f - Z.to_nat o)).
  rewrite (u32_small (n - Z.of_nat l)) by lia.
  rewrite (mem_read_Ok src 0) by lia. rewrite bind_Ok.
  rewrite mem_write_Ok by len. rewrite bind_Ok.
  rewrite mem_read_Ok by lia. rewrite bind_Ok.
  rewrite mem_write_Ok by (rewrite ?length_splice by len; len). rewrite bind_Ok.
  eexists. split; [done|]. split.
  - rewrite length_splice by (rewrite length_splice by len; len). apply length_splice. len.
  - intros i Hi.
    pose proof (ring_write_two (kf_data f) (ring_bytes f) (Z.to_nat o) (take (Z.to_nat n) src) i)
      as Hw. rewrite length_take, Nat.min_l in Hw by lia. fold l in Hw.
    assert (((Z.to_nat (off * kf_esize f) + i) mod ring_bytes f =
             (Z.to_nat o + i) mod ring_bytes f)%nat) as ->.
    { unfold o. rewrite byte_offset_mod by done. by rewrite Nat.Div0.add_mod_idemp_l. }
    rewrite length_take, Nat.min_l by lia.
    rewrite <- Hw by lia. do 2 f_equal.
    + rewrite drop_0, take_take, Nat.min_l by lia. f_equal. f_equal. lia.
    + rewrite skipn_firstn_comm. f_equal; [lia|]. f_equal. lia.
Qed.

Lemma kfifo_copy_out_spec f dst len off :
  wf_kfifo f → 0 <= len <= capacity f → 0 <= off →
  len * kf_esize f <= Z.of_nat (length dst) →
  let n := Z.to_nat (len * kf_esize f) in
  kfifo_copy_out f dst len off =
    Ok (ring_read (kf_data f) (ring_bytes f) (Z.to_nat (off * kf_esize f)) n ++ drop n dst).
Proof.
  intros Hwf Hlen Hoff Hdst.
  pose proof (byte_offset_lt f off Hwf) as Ho. pose proof (wf_bytes f Hwf) as HB.
  pose proof (ring_bytes_data f Hwf) as HD. pose proof (ring_bytes_pos f Hwf) as HN.
  pose proof (wf_esize f Hwf) as He.
  assert (ring_bytes f = Z.to_nat (capacity f * kf_esize f)) as EN by done.
  unfold kfifo_copy_out. rewrite copy_geometry_eq by done.
  rewrite (ring_read_mod _ _ _ (Z.to_nat (off mod capacity f * kf_esize f))) by
    (done || by rewrite byte_offset_mod, Nat.Div0.mod_mod).
  set (o := off mod capacity f * kf_esize f) in *.
  set (B := capacity f * kf_esize f) in *. set (n := len * kf_esize f) in *.
  assert (0 <= n <= B) as Hn by (unfold n, B; nia).
  rewrite (u32_small (B - o)) by lia.
  assert (min n (B - o) = Z.of_nat (Nat.min (Z.to_nat n) (ring_bytes f - Z.to_nat o))) as ->.
  { rewrite EN, <- min_nat. f_equal; lia. }
  rewrite ring_read_two by lia.
  set (l := Nat.min (Z.to_nat n) (ring_bytes f - Z.to_nat o)).
  rewrite (u32_small (n - Z.of_nat l)) by lia.
  rewrite (mem_read_Ok (kf_data f) o) by lia. rewrite bind_Ok.
  rewrite mem_write_Ok by len. rewrite bind_Ok.
  rewrite mem_read_Ok by lia. rewrite bind_Ok.
  rewrite mem_write_Ok by (rewrite ?length_splice by len; len).
  f_equal. rewrite Nat2Z.id. unfold splice at 2. simpl.
  unfold splice. rewrite take_app_length' by len. rewrite <- app_assoc. f_equal.
  rewrite drop_0. f_equal; [f_equal; lia|].
  rewrite drop_app_ge by len. rewrite drop_drop. f_equal. len.
Qed.

(** ** Producing and consuming

    [produce] is what the writer side does: bytes put at the in position and
    the in counter advanced; [consume] is the reader side. *)

Lemma ring_update_app d d1 d2 N o s1 s2 :
  (0 < N)%nat → (length s1 + length s2 <= N)%nat →
  ring_update d N o s1 d1 → ring_update d1 N (o + length s1) s2 d2 →
  ring_update d N o (s1 ++ s2) d2.
Proof.
  intros HN Hfit [E1 H1] [E2 H2]. split; [congruence|]. intros i Hi.
  assert (((o + i) mod N =
    (o + length s1 + (if decide (length s1 <= i) then i - length s1
                      else N - length s1 + i)) mod N)%nat) as E.
  { case_decide; [f_equal; lia|].
    replace (o + length s1 + (N - length s1 + i))%nat with (o + i + 1 * N)%nat by lia.
    by rewrite Nat.Div0.mod_add. }
  rewrite length_app. destruct (decide (length s1 <= i)%nat).
  - rewrite E, H2 by lia. rewrite <- E, H1 by lia.
    destruct (decide (i - length s1 < length s2)%nat).
    + rewrite decide_True by lia. by rewrite lookup_total_app_r by done.
    + rewrite decide_False by lia. by rewrite decide_False by lia.
  - rewrite E, H2 by lia. rewrite <- E, H1 by lia.
    rewrite decide_False by lia. rewrite !decide_True by lia.
    by rewrite lookup_total_app_l by lia.
Qed.

Lemma in_is_out_plus_used f : wf_kfifo f → kf_in f = u32 (kf_out f + used f).
Proof.
  intros Hwf. pose proof (wf_in f Hwf). pose proof (wf_out f Hwf). unfold used. u32_lia.
Qed.

(** The in position is where the content ends. *)
Lemma in_position f :
  wf_kfifo f →
  ((Z.to_nat (kf_out f * kf_esize f) + Z.to_nat (used f * kf_esize f)) mod ring_bytes f =
   Z.to_nat (kf_in f * kf_esize f) mod ring_bytes f)%nat.
Proof.
  intros Hwf. pose proof (wf_out f Hwf). pose proof (wf_in f Hwf).
  pose proof (used_bound f). pose proof (wf_esize f Hwf).
  rewrite <- Z2Nat.inj_add, <- Z.mul_add_distr_r by nia.
  rewrite <- !byte_offset_mod by (done || lia).
  rewrite (in_is_out_plus_used f) at 1 by done.
  by rewrite u32_mod_capacity.
Qed.

Lemma length_contents f : length (contents f) = Z.to_nat (used f * kf_esize f).
Proof. apply length_ring_read. Qed.

Lemma produce_spec f d' n src :
  wf_kfifo f → 0 <= n <= capacity f - used f →
  Z.of_nat (length src) = n * kf_esize f →
  ring_update (kf_data f) (ring_bytes f) (Z.to_nat (kf_in f * kf_esize f)) src d' →
  let f' := set_in (set_data f d') (u32 (kf_in f + n)) in
  wf_kfifo f' ∧ contents f' = contents f ++ src ∧ used f' = used f + n.
Proof.
  intros Hwf Hn Hsrc Hup f'.
  pose proof (wf_in f Hwf) as Hin. pose proof (wf_out f Hwf) as Hout.
  pose proof (capacity_le f Hwf) as Hcap. pose proof (used_bound f) as Hu.
  pose proof (ring_bytes_pos f Hwf) as HN. pose proof (wf_esize f Hwf) as He.
  assert (used f' = used f + n) as Eu.
  { unfold f', used; simpl. unfold used in Hu, Hn. u32_lia. }
  split_and!; [|..|done].
  - destruct Hwf as [? ? ? ? ? ? ?]. constructor; try done.
    + simpl. by rewrite (proj1 Hup).
    + apply u32_bound.
    + change (capacity f') with (capacity f). lia.
  - unfold contents. rewrite Eu.
    change (ring_bytes f') with (ring_bytes f). change (kf_esize f') with (kf_esize f).
    change (kf_out f') with (kf_out f). change (kf_data f') with d'.
    rewrite Z.mul_add_distr_r, Z2Nat.inj_add by nia.
    rewrite ring_read_app.
    assert (length src = Z.to_nat (n * kf_esize f)) as El by lia.
    assert (Z.to_nat (used f * kf_esize f) + length src <= ring_bytes f)%nat.
    { rewrite El, <- Z2Nat.inj_add by nia. unfold ring_bytes. apply Z2Nat.inj_le; nia. }
    f_equal.
    + eapply ring_update_old; [done|done|lia|by apply in_position].
    + rewrite <- El.
      rewrite (ring_read_mod _ _ _ (Z.to_nat (kf_in f * kf_esize f))) by
        (done || by apply in_position).
      eapply ring_update_new; [done|done|lia].
Qed.

Lemma consume_spec f n :
  wf_kfifo f → 0 <= n <= used f →
  let f' := set_out f (u32 (kf_out f + n)) in
  wf_kfifo f' ∧ contents f' = drop (Z.to_nat (n * kf_esize f)) (contents f) ∧
  used f' = used f - n.
Proof.
  intros Hwf Hn f'.
  pose proof (wf_in f Hwf) as Hin. pose proof (wf_out f Hwf) as Hout.
  pose proof (capacity_le f Hwf) as Hcap. pose proof (wf_used f Hwf) as Hle.
  pose proof (ring_bytes_pos f Hwf) as HN. pose proof (wf_esize f Hwf) as He.
  assert (used f' = used f - n) as Eu.
  { unfold f', used; simpl. unfold used in Hn, Hle. u32_lia. }
  split_and!; [|..|done].
  - destruct Hwf as [? ? ? ? ? ? ?]. constructor; try done.
    + apply u32_bound.
    + change (capacity f') with (capacity f). lia.
  - unfold contents at 2.
    replace (Z.to_nat (used f * kf_esize f))
      with (Z.to_nat (n * kf_esize f) + Z.to_nat ((used f - n) * kf_esize f))%nat.
    2:{ rewrite <- Z2Nat.inj_add by nia. f_equal. lia. }
    rewrite ring_read_app, drop_app_length' by (symmetry; apply length_ring_read).
    unfold contents. rewrite Eu. apply ring_read_mod; [done|]. simpl.
    rewrite <- Z2Nat.inj_add, <- Z.mul_add_distr_r by nia.
    change (ring_bytes f') with (ring_bytes f).
    pose proof (u32_bound (kf_out f + n)).
    rewrite <- !byte_offset_mod by (done || lia).
    by rewrite u32_mod_capacity.
Qed.

(** ** The plain byte queue *)

Lemma kfifo_in_ok f buf len :
  wf_kfifo f → 0 <= len →
  let n := Z.min len (capacity f - used f) in
  n * kf_esize f <= Z.of_nat (length buf) →
  ∃ f', __kfifo_in f buf len = Ok (f', n) ∧ wf_kfifo f' ∧
    contents f' = contents f ++ take (Z.to_nat (n * kf_esize f)) buf ∧
    used f' = used f + n ∧ capacity f' = capacity f ∧ kf_esize f' = kf_esize f.
Proof.
  intros Hwf Hlen n Hbuf. pose proof (wf_used f Hwf). pose proof (used_bound f).
  pose proof (wf_in f Hwf).
  unfold __kfifo_in. rewrite kfifo_unused_eq by done.
  replace (if capacity f - used f <? len then capacity f - used f else len) with n
    by (unfold n; destruct (Z.ltb_spec (capacity f - used f) len); lia).
  assert (0 <= n <= capacity f - used f) as Hn by (unfold n; lia).
  destruct (kfifo_copy_in_spec f buf n (kf_in f)) as (d' & -> & Hup); [done|lia..|].
  rewrite bind_Ok. simpl.
  assert (0 <= n * kf_esize f) by (pose proof (wf_esize f Hwf); nia).
  destruct (produce_spec f d' n (take (Z.to_nat (n * kf_esize f)) buf)) as (? & ? & ?);
    try done; [len|]. eauto 10.
Qed.

Lemma kfifo_out_peek_ok f buf len :
  wf_kfifo f → 0 <= len →
  let n := Z.min len (used f) in
  n * kf_esize f <= Z.of_nat (length buf) →
  let b := Z.to_nat (n * kf_esize f) in
  __kfifo_out_peek f buf len = Ok (take b (contents f) ++ drop b buf, n).
Proof.
  intros Hwf Hlen n Hbuf b. pose proof (wf_used f Hwf). pose proof (used_bound f).
  pose proof (wf_out f Hwf). pose proof (wf_esize f Hwf).
  unfold __kfifo_out_peek. fold (used f).
  replace (if used f <? len then used f else len) with n
    by (unfold n; destruct (Z.ltb_spec (used f) len); lia).
  assert (0 <= n <= used f) as Hn by (unfold n; lia).
  rewrite kfifo_copy_out_spec by (done || lia). rewrite bind_Ok. fold b. do 3 f_equal.
  unfold contents.
  replace (Z.to_nat (used f * kf_esize f))
    with (b + Z.to_nat ((used f - n) * kf_esize f))%nat.
  2:{ unfold b. rewrite <- Z2Nat.inj_add by nia. f_equal. lia. }
  by rewrite ring_read_app, take_app_length' by (symmetry; apply length_ring_read).
Qed.

Lemma kfifo_out_ok f buf len :
  wf_kfifo f → 0 <= len →
  let n := Z.min len (used f) in
  n * kf_esize f <= Z.of_nat (length buf) →
  let b := Z.to_nat (n * kf_esize f) in
  ∃ f', __kfifo_out f buf len = Ok (f', take b (contents f) ++ drop b buf, n) ∧
    wf_kfifo f' ∧ contents f' = drop b (contents f) ∧
    used f' = used f - n ∧ capacity f' = capacity f ∧ kf_esize f' = kf_esize f.
Proof.
  intros Hwf Hlen n Hbuf b. pose proof (used_bound f).
  unfold __kfifo_out. rewrite kfifo_out_peek_ok by done. rewrite bind_Ok. fold n b.
  destruct (consume_spec f n) as (? & ? & ?); [done|unfold n; lia|]. eauto 10.
Qed.

(** ** Refinement: the ring is a bounded queue of bytes

    [qop] are the calls a client makes; [q_step] is the abstract queue: a list
    of bytes, at most [cap] elements of [es] bytes each.  [k_step] runs the
    same call on the ring.  Both report what the caller observes: the count
    returned, and for reads the buffer after the call. *)

Inductive qop :=
| QIn (buf : list Z) (len : Z)
| QOut (buf : list Z) (len : Z)
| QPeek (buf : list Z) (len : Z)
| QSkip (n : Z)
| QReset
| QResetOut.

Definition q_take (es : Z) (q buf : list Z) (len : Z) : nat * (Z * list Z) :=
  let n := Z.min len (Z.of_nat (length q) / es) in
  let b := Z.to_nat (n * es) in
  (b, (n, take b q ++ drop b buf)).

Definition q_step (cap es : Z) (q : list Z) (op : qop) : list Z * (Z * list Z) :=
  match op with
  | QIn buf len =>
      let n := Z.min len (cap - Z.of_nat (length q) / es) in
      (q ++ take (Z.to_nat (n * es)) buf, (n, []))
  | QOut buf len => let '(b, r) := q_take es q buf len in (drop b q, r)
  | QPeek buf len => (q, snd (q_take es q buf len))
  | QSkip n => (drop (Z.to_nat (n * es)) q, (0, []))
  | QReset | QResetOut => ([], (0, []))
  end.

Definition k_step (f : __kfifo) (op : qop) : res (__kfifo * (Z * list Z)) :=
  match op with
  | QIn buf len => '(f', n) ← kfifo_in 0 f buf len; Ok (f', (n, []))
  | QOut buf len => '(f', buf', n) ← kfifo_out 0 f buf len; Ok (f', (n, buf'))
  | QPeek buf len => '(buf', n) ← kfifo_out_peek 0 f buf len; Ok (f, (n, buf'))
  | QSkip n => Ok (kfifo_skip_n f n, (0, []))
  | QReset => Ok (kfifo_reset f, (0, []))
  | QResetOut => Ok (kfifo_reset_out f, (0, []))
  end.

Fixpoint q_run (cap es : Z) (q : list Z) (ops : list qop) : list Z * list (Z * list Z) :=
  match ops with
  | [] => (q, [])
  | op :: ops =>
      let '(q, r) := q_step cap es q op in
      let '(q, rs) := q_run cap es q ops in (q, r :: rs)
  end.

Fixpoint k_run (f : __kfifo) (ops : list qop) : res (__kfifo * list (Z * list Z)) :=
  match ops with
  | [] => Ok (f, [])
  | op :: ops =>
      '(f, r) ← k_step f op;
      '(f, rs) ← k_run f ops;
      Ok (f, r :: rs)
  end.

(** What the caller must provide: counts that fit an unsigned int, buffers as
    long as the count says, and no skip past the content. *)
Definition op_ok (es : Z) (q : list Z) (op : qop) : Prop :=
  match op with
  | QIn buf len | QOut buf len | QPeek buf len =>
      0 <= len < 4294967296 ∧ len * es <= Z.of_nat (length buf)
  | QSkip n => 0 <= n ∧ n * es <= Z.of_nat (length q)
  | QReset | QResetOut => True
  end.

Fixpoint ops_ok (cap es : Z) (q : list Z) (ops : list qop) : Prop :=
  match ops with
  | [] => True
  | op :: ops => op_ok es q op ∧ ops_ok cap es (fst (q_step cap es q op)) ops
  end.

(** The simulation relation. *)
Definition refines (cap es : Z) (f : __kfifo) (q : list Z) : Prop :=
  wf_kfifo f ∧ contents f = q ∧ capacity f = cap ∧ kf_esize f = es.

Lemma used_of_length f :
  wf_kfifo f → Z.of_nat (length (contents f)) / kf_esize f = used f.
Proof.
  intros Hwf. pose proof (wf_esize f Hwf). pose proof (used_bound f).
  rewrite length_contents, Z2Nat.id by nia. apply Z.div_mul. lia.
Qed.

Lemma reset_refines f :
  wf_kfifo f → refines (capacity f) (kf_esize f) (kfifo_reset f) [].
Proof.
  intros Hwf. split_and!; try done.
  - pose proof (capacity_pos f Hwf). destruct Hwf. constructor; try done.
    change (used (kfifo_reset f)) with 0. change (capacity (kfifo_reset f)) with (capacity f). lia.
Qed.

Lemma reset_out_refines f :
  wf_kfifo f → refines (capacity f) (kf_esize f) (kfifo_reset_out f) [].
Proof.
  intros Hwf. assert (used (kfifo_reset_out f) = 0) as E
    by (unfold used, kfifo_reset_out; simpl; by rewrite Z.sub_diag).
  split_and!; try done.
  - pose proof (capacity_pos f Hwf). destruct Hwf. constructor; try done.
    rewrite E. change (capacity (kfifo_reset_out f)) with (capacity f). lia.
  - unfold contents. by rewrite E.
Qed.

Lemma k_step_refines cap es f q op :
  refines cap es f q → op_ok es q op →
  ∃ f', k_step f op = Ok (f', snd (q_step cap es q op)) ∧
    refines cap es f' (fst (q_step cap es q op)).
Proof.
  intros (Hwf & <- & <- & <-) Hop.
  pose proof (wf_used f Hwf). pose proof (used_bound f). pose proof (wf_esize f Hwf).
  destruct op as [buf len|buf len|buf len|n| |]; unfold k_step, q_step, q_take; simpl in Hop.
  - destruct Hop as [Hlen Hbuf]. unfold kfifo_in. simpl. rewrite u32_small by done.
    destruct (kfifo_in_ok f buf len) as (f' & -> & ? & ? & ? & ? & ?); [done|lia|nia|].
    rewrite bind_Ok, used_of_length by done. simpl. unfold refines. eauto 10.
  - destruct Hop as [Hlen Hbuf]. unfold kfifo_out. simpl. rewrite u32_small by done.
    destruct (kfifo_out_ok f buf len) as (f' & -> & ? & ? & ? & ? & ?); [done|lia|nia|].
    rewrite bind_Ok, used_of_length by done. simpl. unfold refines. eauto 10.
  - destruct Hop as [Hlen Hbuf]. unfold kfifo_out_peek. simpl. rewrite u32_small by done.
    rewrite kfifo_out_peek_ok by (done || lia || nia).
    rewrite bind_Ok, used_of_length by done. simpl. unfold refines. eauto 10.
  - rewrite length_contents in Hop. destruct Hop as [Hn Hle].
    destruct (consume_spec f n) as (? & ? & ?); [done|nia|].
    eexists. split; [done|]. done.
  - eexists. split; [done|]. by apply reset_refines.
  - eexists. split; [done|]. by apply reset_out_refines.
Qed.

(** C1: the ring buffer is a bounded queue.  For any sequence of kfifo_in,
    kfifo_out, kfifo_out_peek, kfifo_skip_n, kfifo_reset and kfifo_reset_out calls
    on a well-formed fifo of any power-of-two size and element size, the
    counts returned and the bytes read are those of a first-in first-out queue
    that holds at most [cap] elements; no copy leaves the buffer or the caller's
    array, also when positions wrap around the ring and the 32-bit counters
    overflow. *)
Theorem kfifo_refines_queue cap es f q ops :
  refines cap es f q → ops_ok cap es q ops →
  ∃ f', k_run f ops = Ok (f', snd (q_run cap es q ops)) ∧
    refines cap es f' (fst (q_run cap es q ops)).
Proof.
  revert f q. induction ops as [|op ops IH]; intros f q Hr Hok; simpl.
  - eauto.
  - destruct Hok as [Hop Hok].
    destruct (k_step_refines cap es f q op Hr Hop) as (f1 & -> & Hr1). rewrite bind_Ok.
    destruct (q_step cap es q op) as [q1 r1]. simpl in *.
    destruct (IH f1 q1 Hr1 Hok) as (f2 & -> & Hr2). rewrite bind_Ok.
    destruct (q_run cap es q1 ops) as [q2 rs]. simpl in *. eauto.
Qed.

(** ** Powers of two by bit smearing *)

(** Bits [k-m+1 .. k] of [x] are set and no bit above [k] is. *)
Definition smeared (x k m : Z) : Prop :=
  ∀ i, 0 <= i → (k - m < i <= k → Z.testbit x i = true) ∧ (k < i → Z.testbit x i = false).

Lemma smeared_start x : 0 < x → smeared x (Z.log2 x) 1.
Proof.
  intros Hx i Hi. split; intros.
  - replace i with (Z.log2 x) by lia. by apply Z.bit_log2.
  - apply Z.bits_above_log2; lia.
Qed.

Lemma smeared_step x k m : 0 <= m → smeared x k m → smeared (x .| (x .>> m)) k (2 * m).
Proof.
  intros Hm Hs i Hi. rewrite Z.lor_spec, Z.shiftr_spec by done.
  destruct (Hs i Hi) as [H1 H2]. destruct (Hs (i + m)) as [H3 H4]; [lia|].
  split; intros.
  - destruct (decide (k - m < i)); [rewrite H1 by lia; done|].
    rewrite H3 by lia. apply orb_true_r.
  - by rewrite H2, H4 by lia.
Qed.

Lemma smeared_ones x k m : 0 <= k < m → smeared x k m → x = 2 ^ (k + 1) - 1.
Proof.
  intros Hk Hs. replace (2 ^ (k + 1) - 1) with (Z.ones (k + 1)) by (rewrite Z.ones_equiv; lia).
  apply Z.bits_inj'. intros i Hi. destruct (Hs i Hi) as [H1 H2].
  destruct (decide (i <= k)).
  - rewrite Z.ones_spec_low by lia. apply H1. lia.
  - rewrite Z.ones_spec_high by lia. apply H2. lia.
Qed.

Definition smear (n : Z) : Z :=
  let n := n .| (n .>> 1) in
  let n := n .| (n .>> 2) in
  let n := n .| (n .>> 4) in
  let n := n .| (n .>> 8) in
  n .| (n .>> 16).

Lemma smear_eq n : 0 < n < 4294967296 → smear n = 2 ^ (Z.log2 n + 1) - 1.
Proof.
  intros Hn. assert (0 <= Z.log2 n < 32) as Hk.
  { split; [apply Z.log2_nonneg|]. apply Z.log2_lt_pow2; lia. }
  apply smeared_ones with 32; [done|]. unfold smear.
  apply (smeared_step _ _ 16), (smeared_step _ _ 8), (smeared_step _ _ 4),
    (smeared_step _ _ 2), (smeared_step _ _ 1), smeared_start; lia.
Qed.

Lemma rounddown_pow_of_two_eq n :
  0 <= n < 4294967296 →
  rounddown_pow_of_two n =
    if decide (0 < n < 2147483648) then 2 ^ Z.log2 n else 0.
Proof.
  intros Hn. change (rounddown_pow_of_two n) with (Z.shiftr (u32 (smear n + 1)) 1).
  destruct (decide (n = 0)) as [->|Hn0]; [done|].
  rewrite smear_eq by lia. rewrite Z.sub_add.
  assert (0 <= Z.log2 n) by apply Z.log2_nonneg.
  case_decide as Hlt.
  - assert (Z.log2 n < 31) by (apply Z.log2_lt_pow2; lia).
    rewrite u32_small.
    2:{ split; [lia|]. change 4294967296 with (2 ^ 32). apply Z.pow_lt_mono_r; lia. }
    rewrite Z.shiftr_div_pow2, Z.pow_add_r by lia. apply Z.div_mul. lia.
  - assert (Z.log2 n = 31) as ->; [|done].
    apply Z.log2_unique; lia.
Qed.

Lemma roundup_pow_of_two_eq v :
  0 < v <= 2147483648 → roundup_pow_of_two v = 2 ^ Z.log2_up v.
Proof.
  intros Hv. change (roundup_pow_of_two v) with (u32 (smear (u32 (v - 1)) + 1)).
  rewrite (u32_small (v - 1)) by lia.
  destruct (decide (v = 1)) as [->|Hv1]; [done|].
  rewrite smear_eq by lia. rewrite Z.sub_add.
  rewrite Z.log2_up_eqn by lia. rewrite <- Z.add_1_r, Z.sub_1_r.
  apply u32_small. split; [lia|].
  assert (Z.log2 (Z.pred v) < 31) by (apply Z.log2_lt_pow2; lia).
  change 4294967296 with (2 ^ 32). apply Z.pow_lt_mono_r; lia.
Qed.

(** C15: __kfifo_init rounds the number of elements down to a power of two.  It
    accepts 2 to 2^31 - 1 elements and yields an empty fifo whose capacity is
    more than half of what fits; for fewer than two elements, and also for 2^31
    and more, it returns -EINVAL and leaves the fifo uninitialised. *)
Theorem kfifo_init_ok buffer size esize :
  0 < esize < 4294967296 → 0 <= size < 4294967296 →
  size <= Z.of_nat (length buffer) →
  ∃ f r, __kfifo_init buffer size esize = Ok (f, r) ∧
    if decide (2 <= size / esize < 2147483648) then
      r = 0 ∧ refines (2 ^ Z.log2 (size / esize)) esize f [] ∧
      capacity f <= size / esize < 2 * capacity f
    else r = - EINVAL ∧ kfifo_initialized f = false.
Proof.
  intros He Hs Hb. unfold __kfifo_init.
  rewrite (proj2 (Z.eqb_neq esize 0)) by lia.
  assert (0 <= size / esize < 4294967296) as Hq.
  { split; [apply Z.div_pos; lia|]. apply Z.div_lt_upper_bound; nia. }
  rewrite !(u32_small (size / esize)), rounddown_pow_of_two_eq by done.
  set (n := size / esize) in *. rewrite (u32_small esize) by lia.
  destruct (decide (2 <= n < 2147483648)) as [Hn|Hn].
  - rewrite decide_True by lia.
    destruct (Z.log2_spec n) as [Hlo Hhi]; [lia|].
    assert (1 <= Z.log2 n) by (apply Z.log2_le_pow2; lia).
    assert (Z.log2 n < 31) by (apply Z.log2_lt_pow2; lia).
    assert (2 ^ 1 <= 2 ^ Z.log2 n) by (apply Z.pow_le_mono_r; lia).
    destruct (Z.ltb_spec (2 ^ Z.log2 n) 2); [lia|].
    rewrite u32_small by lia. eexists _, _. split; [done|].
    rewrite Z.pow_succ_r in Hhi by lia.
    assert (n * esize <= size) by (rewrite Z.mul_comm; apply Z.mul_div_le; lia).
    split; [done|]. unfold refines, capacity; simpl. split_and!; try (done || lia).
    constructor; unfold capacity; simpl; try (done || lia || nia).
    + exists (Z.log2 n). lia.
    + change (0 <= 2 ^ Z.log2 n - 1 + 1). lia.
  - destruct (Z.ltb_spec (if decide (0 < n < 2147483648) then 2 ^ Z.log2 n else 0) 2) as [_|Hge].
    + eexists _, _. done.
    + case_decide; [|lia]. assert (n = 1) as Hn1 by lia. rewrite Hn1 in Hge. simpl in Hge. lia.
Qed.

(** ** Record mode

    A record fifo stores bytes ([esize] 1); each record is its length in
    [recsize] (1 or 2) little-endian bytes followed by its bytes. *)

Definition rec_header (recsize len : Z) : list Z :=
  if 1 <? recsize then [u8 len; u8 (len .>> 8)] else [u8 len].
Definition rec_enc (recsize : Z) (r : list Z) : list Z :=
  rec_header recsize (Z.of_nat (length r)) ++ r.

(** The fifo holds the records [rs], oldest first. *)
Definition holds_records (recsize : Z) (f : __kfifo) (rs : list (list Z)) : Prop :=
  wf_kfifo f ∧ kf_esize f = 1 ∧ (recsize = 1 ∨ recsize = 2) ∧
  contents f = concat (rec_enc recsize <$> rs) ∧
  Forall (fun r => Z.of_nat (length r) < 2 ^ (8 * recsize)) rs.

Section Records.
Context (recsize : Z) (Hrec : recsize = 1 ∨ recsize = 2).

Lemma length_rec_header n : length (rec_header recsize n) = Z.to_nat recsize.
Proof using Hrec. by destruct Hrec as [-> | ->]. Qed.

Lemma length_rec_enc r : length (rec_enc recsize r) = (Z.to_nat recsize + length r)%nat.
Proof using Hrec. unfold rec_enc. by rewrite length_app, length_rec_header. Qed.

Lemma ring_bytes_byte f : kf_esize f = 1 → ring_bytes f = Z.to_nat (capacity f).
Proof using. intros E. unfold ring_bytes. by rewrite E, Z.mul_1_r. Qed.

Lemma ring_update_mod d N o o' src d' :
  (o mod N = o' mod N)%nat → ring_update d N o src d' → ring_update d N o' src d'.
Proof using.
  intros E [Hl Hu]. split; [done|]. intros i Hi.
  assert (((o' + i) mod N = (o + i) mod N)%nat) as ->.
  { by rewrite <- (Nat.Div0.add_mod_idemp_l o'), <- E, Nat.Div0.add_mod_idemp_l. }
  by apply Hu.
Qed.

Lemma u32_pos_mod f z :
  wf_kfifo f → 0 <= z →
  (Z.to_nat (u32 z) mod Z.to_nat (capacity f) = Z.to_nat z mod Z.to_nat (capacity f))%nat.
Proof using.
  intros Hwf Hz. pose proof (capacity_pos f Hwf). pose proof (u32_bound z).
  rewrite <- !Z2Nat.inj_mod by lia. by rewrite u32_mod_capacity.
Qed.

Lemma KFIFO_POKE_spec f d pos v :
  wf_kfifo f → kf_esize f = 1 → length d = length (kf_data f) → 0 <= pos →
  ∃ d', KFIFO_POKE d pos (kf_mask f) v = Ok d' ∧
    ring_update d (ring_bytes f) (Z.to_nat pos) [u8 v] d'.
Proof using.
  intros Hwf He Hl Hpos. pose proof (ring_bytes_data f Hwf) as HD.
  pose proof (ring_bytes_pos f Hwf) as HN. pose proof (capacity_pos f Hwf) as Hc.
  pose proof (Z.mod_pos_bound pos (capacity f) Hc) as Hm.
  rewrite ring_bytes_byte in * by done.
  unfold KFIFO_POKE. rewrite land_kf_mask by done.
  rewrite mem_write_Ok by len. eexists. split; [done|].
  apply ring_update_mod with (Z.to_nat (pos mod capacity f)).
  { rewrite Z2Nat.inj_mod by lia. by rewrite Nat.Div0.mod_mod. }
  split; [apply length_splice; len|]. intros i Hi.
  pose proof (ring_write_two d (Z.to_nat (capacity f)) (Z.to_nat (pos mod capacity f)) [u8 v] i)
    as Hw. simpl length in Hw.
  replace (1 `min` _)%nat with 1%nat in Hw by lia.
  cbn [take drop] in Hw. rewrite splice_nil in Hw. apply Hw; len.
Qed.

Lemma poke_n_spec f n :
  wf_kfifo f → kf_esize f = 1 →
  recsize <= capacity f →
  ∃ d', __kfifo_poke_n f n recsize = Ok (set_data f d') ∧
    ring_update (kf_data f) (ring_bytes f) (Z.to_nat (kf_in f)) (rec_header recsize n) d'.
Proof using Hrec.
  intros Hwf He Hcap. pose proof (wf_in f Hwf) as Hin. pose proof (u32_bound (kf_in f + 1)).
  pose proof (ring_bytes_byte f He) as EN.
  unfold __kfifo_poke_n, rec_header.
  destruct (KFIFO_POKE_spec f (kf_data f) (kf_in f) n) as (d1 & -> & H1); [done|done|done|lia|].
  rewrite bind_Ok. destruct Hrec as [-> | ->]; simpl; [by eauto|].
  destruct (KFIFO_POKE_spec f d1 (u32 (kf_in f + 1)) (n .>> 8)) as (d2 & -> & H2);
    [done|done|apply H1|lia|].
  rewrite bind_Ok. eexists. split; [done|].
  apply (ring_update_app _ d1 d2 _ _ [_] [_]); [by apply ring_bytes_pos|simpl; lia|done|].
  eapply ring_update_mod; [|exact H2].
  rewrite EN, u32_pos_mod by (done || lia). simpl. f_equal. lia.
Qed.

(** Writing a record. *)
Lemma kfifo_in_r_ok f rs buf len :
  holds_records recsize f rs → 0 <= len < 2 ^ (8 * recsize) →
  len <= Z.of_nat (length buf) →
  if decide (len + recsize <= capacity f - used f) then
    ∃ f', __kfifo_in_r f buf len recsize = Ok (f', len) ∧
      holds_records recsize f' (rs ++ [take (Z.to_nat len) buf])
  else __kfifo_in_r f buf len recsize = Ok (f, 0).
Proof using Hrec.
  intros (Hwf & He & _ & Hc & Hall) Hlen Hbuf.
  pose proof (wf_in f Hwf) as Hin. pose proof (capacity_le f Hwf). pose proof (used_bound f).
  pose proof (ring_bytes_byte f He) as EN. pose proof (ring_bytes_pos f Hwf) as HN.
  assert (len < 65536) by (destruct Hrec as [-> | ->]; lia).
  unfold __kfifo_in_r. rewrite kfifo_unused_eq by done.
  rewrite (wrap_small 64) by (destruct Hrec as [-> | ->]; lia).
  case_decide as Hfit; [|by rewrite (proj2 (Z.ltb_lt _ _)) by lia].
  rewrite (proj2 (Z.ltb_ge _ _)) by lia.
  destruct (poke_n_spec f len) as (d1 & -> & Hh); [done|done|lia|]. rewrite bind_Ok.
  assert (wf_kfifo (set_data f d1)) as Hwf1.
  { destruct Hwf. constructor; try done. simpl. by rewrite (proj1 Hh). }
  pose proof (u32_bound (kf_in f + recsize)).
  destruct (kfifo_copy_in_spec (set_data f d1) buf len (u32 (kf_in f + recsize)))
    as (d2 & E2 & Hb); [done|change (capacity (set_data f d1)) with (capacity f); lia|lia|
      simpl; rewrite He; lia|].
  simpl in E2. change (kf_in (set_data f d1)) with (kf_in f). rewrite E2, bind_Ok. simpl.
  simpl in Hb. rewrite He, !Z.mul_1_r in Hb.
  change (ring_bytes (set_data f d1)) with (ring_bytes f) in Hb.
  assert (Z.of_nat (length (take (Z.to_nat len) buf)) = len) as Elen by len.
  destruct (produce_spec f d2 (len + recsize) (rec_enc recsize (take (Z.to_nat len) buf)))
    as (Hwf' & Hc' & _); [done|lia|rewrite length_rec_enc, He; lia|..].
  - rewrite He, Z.mul_1_r. unfold rec_enc. rewrite Elen.
    apply ring_update_app with d1; [done| |done|].
    + rewrite length_rec_header. len.
    + rewrite length_rec_header. eapply ring_update_mod; [|exact Hb].
      rewrite EN, u32_pos_mod by (done || lia). f_equal. lia.
  - eexists. split; [done|]. split_and!; try done.
    + etransitivity; [exact Hc'|]. rewrite Hc, fmap_app, concat_app. simpl.
      by rewrite app_nil_r.
    + apply Forall_app. split; [done|]. constructor; [lia|done].
Qed.

Lemma KFIFO_PEEK_spec f pos :
  wf_kfifo f → kf_esize f = 1 → 0 <= pos →
  KFIFO_PEEK (kf_data f) pos (kf_mask f) =
    Ok (kf_data f !!! (Z.to_nat pos mod ring_bytes f)%nat).
Proof using.
  intros Hwf He Hpos. pose proof (ring_bytes_data f Hwf) as HD.
  pose proof (capacity_pos f Hwf) as Hc.
  pose proof (Z.mod_pos_bound pos (capacity f) Hc) as Hm.
  rewrite ring_bytes_byte in * by done.
  unfold KFIFO_PEEK. rewrite land_kf_mask by done.
  rewrite mem_read_Ok by lia. rewrite bind_Ok. rewrite <- Z2Nat.inj_mod by lia.
  destruct (lookup_lt_is_Some_2 (kf_data f) (Z.to_nat (pos mod capacity f))) as [x Hx]; [lia|].
  rewrite (drop_S _ x) by done.
  simpl. by rewrite (list_lookup_total_correct _ _ _ Hx).
Qed.

(** The [i]-th byte of the content, read at its ring position. *)
Lemma contents_lookup f i :
  wf_kfifo f → kf_esize f = 1 → 0 <= i < used f →
  kf_data f !!! (Z.to_nat (u32 (kf_out f + i)) mod ring_bytes f)%nat =
    contents f !!! Z.to_nat i.
Proof using.
  intros Hwf He Hi. pose proof (wf_out f Hwf). symmetry. apply list_lookup_total_correct.
  unfold contents. rewrite He, !Z.mul_1_r, lookup_ring_read by lia.
  rewrite ring_bytes_byte by done. rewrite u32_pos_mod by (done || lia).
  do 3 f_equal. lia.
Qed.

Lemma header_value n :
  0 <= n < 2 ^ (8 * recsize) →
  (if recsize =? 1 then u8 n else u8 n .| (u8 (n .>> 8) .<< 8)) = n.
Proof using Hrec.
  intros Hn. destruct Hrec as [-> | ->]; simpl.
  - by apply wrap_small.
  - rewrite Z.shiftr_div_pow2 by lia. unfold wrap. rewrite (Z.mod_small (n / 2 ^ 8)).
    2:{ split; [apply Z.div_pos; lia|]. apply Z.div_lt_upper_bound; lia. }
    rewrite <- Z.land_ones, <- Z.shiftr_div_pow2 by lia. rewrite <- Z.ldiff_ones_r by lia.
    rewrite Z.lor_comm. apply Z.lor_ldiff_and.
Qed.

Lemma peek_n_spec f r rs :
  holds_records recsize f (r :: rs) →
  __kfifo_peek_n f recsize = Ok (Z.of_nat (length r)).
Proof using Hrec.
  intros (Hwf & He & _ & Hc & Hall). apply Forall_cons_1 in Hall as [Hr _].
  pose proof (wf_out f Hwf) as Hout. pose proof (used_bound f) as Hu.
  assert (Hl := length_contents f). rewrite He, Z.mul_1_r, Hc in Hl. simpl in Hl.
  rewrite length_app, length_rec_enc in Hl.
  unfold __kfifo_peek_n.
  assert (L0 := contents_lookup f 0 Hwf He ltac:(lia)).
  rewrite Z.add_0_r, u32_small in L0 by lia.
  rewrite (KFIFO_PEEK_spec f (kf_out f)) by (done || lia). rewrite bind_Ok, L0.
  rewrite KFIFO_PEEK_spec by (done || apply u32_bound).
  rewrite <- (header_value (Z.of_nat (length r))) by lia.
  destruct Hrec as [-> | ->]; simpl.
  - rewrite Hc. done.
  - rewrite contents_lookup by (done || lia). rewrite Hc. done.
Qed.

(** The record is consumed as a whole. *)
Lemma consume_record f r rs :
  holds_records recsize f (r :: rs) →
  holds_records recsize
    (set_out f (u32 (kf_out f + (Z.of_nat (length r) + recsize)))) rs.
Proof using Hrec.
  intros (Hwf & He & _ & Hc & Hall). apply Forall_cons_1 in Hall as [_ Hall].
  assert (Hl := length_contents f). rewrite He, Z.mul_1_r, Hc in Hl. simpl in Hl.
  rewrite length_app, length_rec_enc in Hl.
  destruct (consume_spec f (Z.of_nat (length r) + recsize)) as (? & E & _); [done|lia|].
  split_and!; try done. rewrite E, Hc, He. simpl.
  rewrite drop_app_length'; [done|]. rewrite length_rec_enc. lia.
Qed.

(** Copying the next record out. *)
Lemma kfifo_out_copy_r_ok f r rs buf len :
  holds_records recsize f (r :: rs) → 0 <= len →
  let n := Z.min len (Z.of_nat (length r)) in
  n <= Z.of_nat (length buf) →
  kf_in f ≠ kf_out f ∧
  kfifo_out_copy_r f buf len recsize =
    Ok (take (Z.to_nat n) r ++ drop (Z.to_nat n) buf, n, Z.of_nat (length r)).
Proof using Hrec.
  intros Hh Hlen n Hbuf. pose proof Hh as (Hwf & He & _ & Hc & _).
  pose proof (wf_out f Hwf) as Hout. pose proof (wf_used f Hwf). pose proof (used_bound f).
  assert (Hl := length_contents f). rewrite He, Z.mul_1_r, Hc in Hl. simpl in Hl.
  rewrite length_app, length_rec_enc in Hl.
  split.
  { intros E. unfold used in Hl. rewrite E, Z.sub_diag in Hl. change (u32 0) with 0 in Hl. lia. }
  unfold kfifo_out_copy_r. rewrite (peek_n_spec f r rs) by done. rewrite bind_Ok.
  replace (if Z.of_nat (length r) <? len then Z.of_nat (length r) else len) with n
    by (unfold n; destruct (Z.ltb_spec (Z.of_nat (length r)) len); lia).
  rewrite kfifo_copy_out_spec by (done || apply u32_bound || (rewrite ?He; lia)).
  rewrite bind_Ok. do 3 f_equal. rewrite He, !Z.mul_1_r. f_equal.
  assert (ring_read (kf_data f) (ring_bytes f) (Z.to_nat (u32 (kf_out f + recsize))) (Z.to_nat n) =
    take (Z.to_nat n) (drop (Z.to_nat recsize) (contents f))) as ->.
  2:{ rewrite Hc. simpl. unfold rec_enc. rewrite <- app_assoc.
      rewrite drop_app_length' by (by rewrite length_rec_header).
      rewrite take_app_le by lia. done. }
  unfold contents. rewrite He, !Z.mul_1_r.
  replace (Z.to_nat (used f))
    with (Z.to_nat recsize + (Z.to_nat n + (Z.to_nat (used f) - Z.to_nat recsize - Z.to_nat n)))%nat
    by lia.
  rewrite !ring_read_app, drop_app_length', take_app_length' by (by rewrite length_ring_read).
  apply ring_read_mod; [by apply ring_bytes_pos|]. rewrite ring_bytes_byte by done.
  rewrite u32_pos_mod by (done || lia). f_equal. lia.
Qed.

(** An empty record fifo has equal counters. *)
Lemma no_records_empty f : holds_records recsize f [] → kf_in f = kf_out f.
Proof using.
  intros (Hwf & He & _ & Hc & _). assert (Hl := length_contents f).
  rewrite Hc, He, Z.mul_1_r in Hl. simpl in Hl.
  pose proof (wf_in f Hwf). pose proof (wf_out f Hwf). pose proof (used_bound f).
  unfold used in *. u32_lia.
Qed.

End Records.

(** Refinement of the record mode: a queue of records bounded by the bytes
    they take with their headers. *)

Inductive rop :=
| RIn (buf : list Z) (len : Z)
| ROut (buf : list Z) (len : Z)
| RPeek (buf : list Z) (len : Z)
| RSkip.

Definition rec_bytes (recsize : Z) (rs : list (list Z)) : Z :=
  Z.of_nat (length (concat (rec_enc recsize <$> rs))).

Definition rec_read (rs : list (list Z)) (buf : list Z) (len : Z) : Z * list Z :=
  match rs with
  | [] => (0, buf)
  | r :: _ =>
      let n := Z.min len (Z.of_nat (length r)) in
      (n, take (Z.to_nat n) r ++ drop (Z.to_nat n) buf)
  end.

Definition r_step (cap recsize : Z) (rs : list (list Z)) (op : rop)
  : list (list Z) * (Z * list Z) :=
  match op with
  | RIn buf len =>
      if decide (len + recsize <= cap - rec_bytes recsize rs)
      then (rs ++ [take (Z.to_nat len) buf], (len, []))
      else (rs, (0, []))
  | ROut buf len => (tail rs, rec_read rs buf len)
  | RPeek buf len => (rs, rec_read rs buf len)
  | RSkip => (tail rs, (0, []))
  end.

Definition kr_step (recsize : Z) (f : __kfifo) (op : rop) : res (__kfifo * (Z * list Z)) :=
  match op with
  | RIn buf len => '(f', n) ← kfifo_in recsize f buf len; Ok (f', (n, []))
  | ROut buf len => '(f', buf', n) ← kfifo_out recsize f buf len; Ok (f', (n, buf'))
  | RPeek buf len => '(buf', n) ← kfifo_out_peek recsize f buf len; Ok (f, (n, buf'))
  | RSkip => f' ← kfifo_skip recsize f; Ok (f', (0, []))
  end.

(** The caller's side: a record length representable in the header, buffers
    as long as the count, a skip only when there is a record. *)
Definition rop_ok (recsize : Z) (rs : list (list Z)) (op : rop) : Prop :=
  match op with
  | RIn buf len => 0 <= len < 2 ^ (8 * recsize) ∧ len <= Z.of_nat (length buf)
  | ROut buf len | RPeek buf len => 0 <= len < 4294967296 ∧ len <= Z.of_nat (length buf)
  | RSkip => rs ≠ []
  end.

Lemma rec_bytes_used recsize f rs : holds_records recsize f rs → rec_bytes recsize rs = used f.
Proof.
  intros (_ & He & _ & Hc & _). unfold rec_bytes. pose proof (used_bound f).
  rewrite <- Hc, length_contents, He. lia.
Qed.

Lemma kr_step_in recsize f rs buf len :
  holds_records recsize f rs → rop_ok recsize rs (RIn buf len) →
  ∃ f', kr_step recsize f (RIn buf len) = Ok (f', snd (r_step (capacity f) recsize rs (RIn buf len))) ∧
    holds_records recsize f' (fst (r_step (capacity f) recsize rs (RIn buf len))).
Proof.
  intros Hh [Hlen Hbuf]. pose proof Hh as (_ & _ & Hrec & _).
  assert (2 ^ (8 * recsize) <= 65536) by (destruct Hrec as [-> | ->]; simpl; lia).
  unfold kr_step, r_step, kfifo_in. rewrite (rec_bytes_used recsize f rs) by done.
  rewrite (proj2 (Z.eqb_neq recsize 0)) by lia. simpl. rewrite u32_small by lia.
  pose proof (kfifo_in_r_ok recsize Hrec f rs buf len Hh Hlen Hbuf) as Hin.
  case_decide.
  - destruct Hin as (f' & -> & ?). rewrite bind_Ok. eauto.
  - rewrite Hin, bind_Ok. eauto.
Qed.

Lemma kr_step_read recsize f rs buf len :
  holds_records recsize f rs → 0 <= len < 4294967296 → len <= Z.of_nat (length buf) →
  let r := rec_read rs buf len in
  kr_step recsize f (RPeek buf len) = Ok (f, r) ∧
  ∃ f', kr_step recsize f (ROut buf len) = Ok (f', r) ∧ holds_records recsize f' (tail rs).
Proof.
  intros Hh Hlen Hbuf r. pose proof Hh as (_ & _ & Hrec & _).
  unfold kr_step, kfifo_out_peek, kfifo_out.
  rewrite (proj2 (Z.eqb_neq recsize 0)) by lia. simpl. rewrite u32_small by lia.
  unfold __kfifo_out_peek_r, __kfifo_out_r. destruct rs as [|r0 rs].
  - rewrite (proj2 (Z.eqb_eq _ _)) by (by eapply no_records_empty).
    rewrite !bind_Ok. eauto.
  - destruct (kfifo_out_copy_r_ok recsize Hrec f r0 rs buf len) as [Hne ->]; [done|lia|lia|].
    rewrite (proj2 (Z.eqb_neq _ _) Hne). rewrite !bind_Ok.
    split; [done|]. eexists. split; [done|]. by apply consume_record.
Qed.

(** C14: record mode is a queue of records.  With 1-byte or 2-byte length headers,
    each kfifo_in stores its bytes as one record or, if record and header do not
    fit, nothing and returns 0; kfifo_out and kfifo_out_peek return the oldest
    record, cut to the caller's length, and kfifo_out and kfifo_skip remove the
    whole of it.  Record lengths must be representable in the header. *)
Theorem kfifo_records_refine_queue recsize f rs op :
  holds_records recsize f rs → rop_ok recsize rs op →
  ∃ f', kr_step recsize f op = Ok (f', snd (r_step (capacity f) recsize rs op)) ∧
    holds_records recsize f' (fst (r_step (capacity f) recsize rs op)).
Proof.
  intros Hh Hop. destruct op as [buf len|buf len|buf len|].
  - by apply kr_step_in.
  - destruct Hop as [Hlen Hbuf]. by destruct (kr_step_read recsize f rs buf len Hh Hlen Hbuf).
  - destruct Hop as [Hlen Hbuf].
    destruct (kr_step_read recsize f rs buf len Hh Hlen Hbuf) as [-> _]. eauto.
  - pose proof Hh as (_ & _ & Hrec & _). destruct rs as [|r rs]; [done|].
    unfold kr_step, kfifo_skip. rewrite (proj2 (Z.eqb_neq recsize 0)) by lia. simpl.
    unfold __kfifo_skip_r. rewrite (peek_n_spec recsize Hrec f r rs) by done.
    rewrite !bind_Ok. eexists. split; [done|]. by apply consume_record.
Qed.

(** ** kfifo_avail *)

Lemma kfifo_avail_plain f : wf_kfifo f → kfifo_avail 0 f = capacity f - used f.
Proof.
  intros Hwf. unfold kfifo_avail. simpl. rewrite kfifo_size_capacity by done. fold (used f).
  pose proof (wf_used f Hwf). pose proof (used_bound f). pose proof (capacity_le f Hwf).
  apply u32_small. lia.
Qed.

Lemma kfifo_avail_rec recsize f :
  wf_kfifo f → recsize = 1 ∨ recsize = 2 →
  kfifo_avail recsize f = Z.max 0 (Z.min (2 ^ (8 * recsize) - 1) (capacity f - used f - recsize)).
Proof.
  intros Hwf Hrec. unfold kfifo_avail.
  rewrite kfifo_size_capacity by done. change (kfifo_len f) with (used f).
  pose proof (wf_used f Hwf). pose proof (used_bound f). pose proof (capacity_le f Hwf).
  rewrite (u32_small (capacity f - used f)) by lia.
  rewrite (proj2 (Z.eqb_neq recsize 0)) by lia. simpl.
  destruct (Z.leb_spec (capacity f - used f) recsize); [lia|].
  rewrite u32_small by lia. unfold __kfifo_max_r.
  replace (u32 ((1 .<< (recsize .<< 3)) - 1)) with (2 ^ (8 * recsize) - 1)
    by (destruct Hrec as [-> | ->]; reflexivity).
  destruct (Z.ltb_spec (2 ^ (8 * recsize) - 1) (capacity f - used f - recsize));
    destruct Hrec as [-> | ->]; lia.
Qed.

(** Kfifo_avail is exact.  Any number of elements up to kfifo_avail is
    accepted in full by kfifo_in, appended to the content, and reduces
    kfifo_avail by that number. *)
Theorem kfifo_avail_sound f buf len :
  wf_kfifo f → 0 <= len <= kfifo_avail 0 f → len * kf_esize f <= Z.of_nat (length buf) →
  ∃ f', kfifo_in 0 f buf len = Ok (f', len) ∧ wf_kfifo f' ∧
    contents f' = contents f ++ take (Z.to_nat (len * kf_esize f)) buf ∧
    kfifo_avail 0 f' = kfifo_avail 0 f - len.
Proof.
  intros Hwf Hlen Hbuf. rewrite kfifo_avail_plain in * by done.
  pose proof (capacity_le f Hwf). pose proof (used_bound f).
  unfold kfifo_in. simpl. rewrite u32_small by lia.
  destruct (kfifo_in_ok f buf len) as (f' & E & ? & Hc & Hu & Hcap & _); [done|lia|rewrite Z.min_l by lia; lia|].
  rewrite Z.min_l in * by lia. exists f'. rewrite kfifo_avail_plain by done.
  split_and!; try done. lia.
Qed.

(** ** Witnesses *)

(** An empty fifo of four bytes whose counters are about to overflow. *)
Definition demo_fifo : __kfifo := mk_kfifo 4294967294 4294967294 3 1 [0; 0; 0; 0].

Lemma demo_fifo_wf : wf_kfifo demo_fifo.
Proof. constructor; try (vm_compute; (repeat split); discriminate). by exists 2. Qed.

Lemma demo_fifo_empty : contents demo_fifo = [].
Proof. unfold contents, ring_read. by change (Z.to_nat (used demo_fifo * kf_esize demo_fifo)) with 0%nat. Qed.

Lemma kfifo_refines_queue_witness :
  let ops := [QIn [1; 2; 3; 4; 5] 5; QOut [0; 0] 2; QIn [6; 7] 2; QPeek [0; 0; 0; 0] 4] in
  ∃ f', k_run demo_fifo ops = Ok (f', [(4, []); (2, [1; 2]); (2, []); (4, [3; 4; 6; 7])]) ∧
    refines 4 1 f' [3; 4; 6; 7].
Proof.
  intros ops. apply (kfifo_refines_queue 4 1 demo_fifo [] ops).
  - split; [apply demo_fifo_wf|]. split; [apply demo_fifo_empty|done].
  - repeat split; cbn; lia.
Defined.

Lemma kfifo_init_ok_witness :
  ∃ f r, __kfifo_init [0; 0; 0; 0; 0; 0; 0] 7 2 = Ok (f, r) ∧
    if decide (2 <= 7 / 2 < 2147483648) then
      r = 0 ∧ refines (2 ^ Z.log2 (7 / 2)) 2 f [] ∧ capacity f <= 7 / 2 < 2 * capacity f
    else r = - EINVAL ∧ kfifo_initialized f = false.
Proof. apply (kfifo_init_ok [0; 0; 0; 0; 0; 0; 0] 7 2); cbn; lia. Defined.

Lemma kfifo_records_witness :
  ∃ f', kr_step 1 demo_fifo (RIn [9; 8; 7] 2) = Ok (f', (2, [])) ∧ holds_records 1 f' [[9; 8]].
Proof.
  apply (kfifo_records_refine_queue 1 demo_fifo [] (RIn [9; 8; 7] 2)).
  - split; [apply demo_fifo_wf|]. split; [done|]. split; [by left|]. split; [apply demo_fifo_empty|done].
  - split; cbn; lia.
Defined.

Lemma kfifo_avail_witness :
  ∃ f', kfifo_in 0 demo_fifo [1; 2; 3] 3 = Ok (f', 3) ∧ wf_kfifo f' ∧
    contents f' = contents demo_fifo ++ [1; 2; 3] ∧ kfifo_avail 0 f' = 1.
Proof.
  apply (kfifo_avail_sound demo_fifo [1; 2; 3] 3).
  - apply demo_fifo_wf.
  - vm_compute. split; discriminate.
  - cbn. lia.
Defined.
