(* ===== verification/Threads.v ===== *)
(** * Threads over shared memory

    A thread is a program whose nodes are the accesses it makes to memory it
    shares with another thread; everything between two accesses is local.  Two
    programs run under a schedule that picks, access by access, which of them
    moves (sequential consistency).  A thread is [safe] when, whatever the other
    thread does within [R] and the invariant [J], every access succeeds, keeps [J]
    and stays within [G]; two safe threads, each staying within what the other
    relies on, run safely under every schedule. *)

From S2P Require Import Prelude.

Section Prog.
Context {acc : Type → Type}.

Inductive prog (A : Type) : Type :=
| Ret (x : A)
| Crash (f : fault)
| Act (B : Type) (a : acc B) (k : B → prog A).
Arguments Ret {A} x.
Arguments Crash {A} f.
Arguments Act {A B} a k.

Fixpoint prog_seq {A B} (p : prog A) (k : A → prog B) : prog B :=
  match p with
  | Ret x => k x
  | Crash f => Crash f
  | Act a k' => Act a (λ b, prog_seq (k' b) k)
  end.

#[export] Instance prog_mret : MRet prog := λ A, Ret.
#[export] Instance prog_mbind : MBind prog := λ A B k p, prog_seq p k.

Definition lift {A} (r : res A) : prog A :=
  match r with
  | Ok x => Ret x
  | Fault f => Crash f
  end.

Definition access {B} (a : acc B) : prog B := Act a Ret.

End Prog.
Arguments prog : clear implicits.
Arguments Ret {acc A} x.
Arguments Crash {acc A} f.
Arguments Act {acc A B} a k.

Section Run.
Context {acc : Type → Type} {S : Type}.
Context (perform : ∀ B, acc B → S → res (B * S)) (halted : S → bool).

(** A thread alone. *)
Fixpoint exec {A} (p : prog acc A) (s : S) : res (A * S) :=
  match p with
  | Ret x => Ok (x, s)
  | Crash f => Fault f
  | Act a k => '(b, s) ← perform _ a s; exec (k b) s
  end.

(** One access; a thread that has returned stays where it is. *)
Definition move {A} (p : prog acc A) (s : S) : res (prog acc A * S) :=
  match p with
  | Ret x => Ok (p, s)
  | Crash f => Fault f
  | Act a k => '(b, s) ← perform _ a s; Ok (k b, s)
  end.

(** Two threads under a schedule; nothing moves once the process has ended. *)
Fixpoint run {A B} (sched : list bool) (p : prog acc A) (q : prog acc B) (s : S)
    : res (prog acc A * prog acc B * S) :=
  match sched with
  | [] => Ok (p, q, s)
  | first :: sched =>
      if halted s then Ok (p, q, s)
      else if first : bool then '(p, s) ← move p s; run sched p q s
      else '(q, s) ← move q s; run sched p q s
  end.

Lemma exec_bind {A B} (p : prog acc A) (k : A → prog acc B) s :
  exec (p ≫= k) s = '(x, s) ← exec p s; exec (k x) s.
Proof.
  revert s. induction p as [x|f|C a k' IH]; intros s; [done..|].
  cbn [mbind prog_mbind prog_seq exec]. destruct (perform _ a s) as [[b s1]|f]; [|done].
  cbn [mbind res_bind]. apply IH.
Qed.

Lemma exec_lift {A} (r : res A) s : exec (lift r) s = x ← r; Ok (x, s).
Proof. by destruct r. Qed.

Lemma exec_access {B} (a : acc B) s : exec (access a) s = perform _ a s.
Proof. cbn. by destruct (perform _ a s) as [[b s1]|f]. Qed.

(** ** Rely and guarantee *)

Section Safe.
Context (J : S → Prop).

Fixpoint safe (R G : S → S → Prop) {A} (p : prog acc A) (Q : A → S → Prop) (s : S) : Prop :=
  ∀ s1, R s s1 → J s1 →
    match p with
    | Ret x => Q x s1
    | Crash f => False
    | Act a k =>
        ∃ b s2, perform _ a s1 = Ok (b, s2) ∧ G s1 s2 ∧ J s2 ∧ safe R G (k b) Q s2
    end.

Section Logic.
Context (R G : S → S → Prop) {Rpre : PreOrder R}.

(** What the other thread does does not matter before the next access. *)
Lemma safe_rely {A} (p : prog acc A) Q s s' : R s s' → safe R G p Q s → safe R G p Q s'.
Proof using Rpre.
  intros HR. destruct p as [x|f|B a k]; cbn; intros H s1 H1; apply H; by trans s'.
Qed.

Lemma safe_ret {A} (x : A) (Q : A → S → Prop) s :
  (∀ s1, R s s1 → J s1 → Q x s1) → safe R G (Ret x) Q s.
Proof. done. Qed.

Lemma safe_mono {A} (p : prog acc A) (Q Q' : A → S → Prop) s :
  (∀ x s, J s → Q x s → Q' x s) → safe R G p Q s → safe R G p Q' s.
Proof.
  intros HQ. revert s. induction p as [x|f|B a k IH]; intros s; cbn; intros H s1 H1 H2.
  1,2: specialize (H s1 H1 H2); eauto; done.
  destruct (H s1 H1 H2) as (b & s2 & E & HG & HJ & Hs). eauto 10.
Qed.

Lemma safe_bind {A B} (p : prog acc A) (k : A → prog acc B) (Q : B → S → Prop) s :
  safe R G p (λ x s, safe R G (k x) Q s) s → safe R G (p ≫= k) Q s.
Proof using Rpre.
  revert s. induction p as [x|f|C a k' IH]; intros s; cbn [mbind prog_mbind prog_seq safe].
  - intros H. destruct (k x) as [y|f|C a k'] eqn:E; cbn [safe];
      intros s1 H1 H2; specialize (H s1 H1 H2); cbn [safe] in H; by apply (H s1).
  - intros H s1 H1 H2. by destruct (H s1 H1 H2).
  - intros H s1 H1 H2. destruct (H s1 H1 H2) as (b & s2 & E & HG & HJ & Hs). eauto 10.
Qed.

Lemma safe_access {B} (a : acc B) (Q : B → S → Prop) s :
  (∀ s1, R s s1 → J s1 →
    ∃ b s2, perform _ a s1 = Ok (b, s2) ∧ G s1 s2 ∧ J s2 ∧ ∀ s3, R s2 s3 → J s3 → Q b s3) →
  safe R G (access a) Q s.
Proof.
  intros H s1 H1 H2. destruct (H s1 H1 H2) as (b & s2 & E & HG & HJ & HQ).
  exists b, s2. split_and!; try done.
Qed.

(** An access that only reads. *)
Lemma safe_read {B} (a : acc B) (v : S → B) (Q : B → S → Prop) s :
  Reflexive G → (∀ s1, perform _ a s1 = Ok (v s1, s1)) →
  (∀ s1 s2, R s s1 → J s1 → R s1 s2 → J s2 → Q (v s1) s2) →
  safe R G (access a) Q s.
Proof.
  intros HG Hv HQ. apply safe_access. intros s1 R1 J1. exists (v s1), s1. eauto 10.
Qed.

Lemma safe_lift {A} (r : res A) x (Q : A → S → Prop) s :
  r = Ok x → (∀ s1, R s s1 → J s1 → Q x s1) → safe R G (lift r) Q s.
Proof. by intros ->. Qed.

(** One access of a safe thread. *)
Lemma safe_move {A} (p : prog acc A) Q s :
  J s → safe R G p Q s →
  ∃ p' s', move p s = Ok (p', s') ∧ (s' = s ∨ G s s') ∧ J s' ∧ safe R G p' Q s'.
Proof using Rpre.
  intros HJ Hs. destruct p as [x|f|B a k]; cbn [move].
  - exists (Ret x), s. auto.
  - exfalso. by apply (Hs s).
  - destruct (Hs s) as (b & s2 & E & HG & HJ2 & Hs2); [done..|].
    rewrite E. cbn. exists (k b), s2. auto.
Qed.

End Logic.

(** Two threads that each stay within what the other relies on. *)
Lemma run_safe (R1 G1 R2 G2 : S → S → Prop) `{!PreOrder R1, !PreOrder R2} {A B} Q1 Q2 sched :
  (∀ s s', G1 s s' → R2 s s') → (∀ s s', G2 s s' → R1 s s') →
  ∀ (p : prog acc A) (q : prog acc B) s, J s → safe R1 G1 p Q1 s → safe R2 G2 q Q2 s →
  ∃ p' q' s', run sched p q s = Ok (p', q', s') ∧ J s' ∧
    safe R1 G1 p' Q1 s' ∧ safe R2 G2 q' Q2 s'.
Proof.
  intros H12 H21. induction sched as [|first sched IH]; intros p q s HJ Hp Hq; cbn [run].
  { by exists p, q, s. }
  destruct (halted s); [by exists p, q, s|]. destruct first.
  - destruct (safe_move R1 G1 p Q1 s HJ Hp) as (p' & s' & -> & Hs & HJ' & Hp'). cbn [mbind res_bind].
    apply IH; [done..|]. destruct Hs as [->|HG]; [done|]. eapply safe_rely; [apply _|by apply H12|done].
  - destruct (safe_move R2 G2 q Q2 s HJ Hq) as (q' & s' & -> & Hs & HJ' & Hq'). cbn [mbind res_bind].
    apply IH; [done| |done]. destruct Hs as [->|HG]; [done|]. eapply safe_rely; [apply _|by apply H21|done].
Qed.

End Safe.

(** ** Running to the end *)

(** The program makes at most [n] accesses, whatever it reads. *)
Fixpoint ends_within {A} (n : nat) (p : prog acc A) : Prop :=
  match p, n with
  | Act a k, O => False
  | Act a k, Datatypes.S n => ∀ b, ends_within n (k b)
  | _, _ => True
  end.

Lemma ends_weaken {A} (p : prog acc A) : ∀ n m, (n <= m)%nat → ends_within n p → ends_within m p.
Proof.
  induction p as [x|f|B a k IH]; intros n m Hle; [by destruct m..|].
  destruct n as [|n]; [done|]. destruct m as [|m]; [lia|]. cbn. intros H b. apply (IH b n); [lia|done].
Qed.

Lemma ends_bind {A B} (p : prog acc A) (k : A → prog acc B) m :
  (∀ x, ends_within m (k x)) → ∀ n, ends_within n p → ends_within (n + m) (p ≫= k).
Proof.
  intros Hk. induction p as [x|f|C a k' IH]; intros n; cbn [mbind prog_mbind prog_seq].
  - intros _. apply (ends_weaken _ m); [lia|apply Hk].
  - by destruct (n + m)%nat.
  - destruct n as [|n]; [done|]. cbn. intros H b. by apply IH.
Qed.

Lemma ends_lift {A} (r : res A) n : ends_within n (lift (acc := acc) r).
Proof. by destruct r, n. Qed.

Lemma ends_access {B} (a : acc B) : ends_within 1 (access a).
Proof. done. Qed.

Lemma ends_ret {A} (x : A) n : ends_within n (Ret (acc := acc) x).
Proof. by destruct n. Qed.

(** How often a schedule picks a thread. *)
Definition turns (who : bool) (sched : list bool) : nat := 
  foldr (λ b n, if eqb b who then Datatypes.S n else n) 0%nat sched.

(** A thread that is given as many turns as it makes accesses has ended, or the process
    has. *)
Lemma run_ends {A B} sched : ∀ (p : prog acc A) (q : prog acc B) s p' q' s' n m,
  run sched p q s = Ok (p', q', s') → ends_within n p → ends_within m q →
  (halted s' = true ∨ (n <= turns true sched → ends_within 0 p')%nat) ∧
  (halted s' = true ∨ (m <= turns false sched → ends_within 0 q')%nat).
Proof.
  induction sched as [|first sched IH]; intros p q s p' q' s' n m Hrun Hp Hq; cbn [run] in Hrun.
  - injection Hrun as <- <- <-. split; right; intros Hle; (eapply ends_weaken; [|eassumption]); done.
  - destruct (halted s) eqn:Hh; [injection Hrun as <- <- <-; auto|]. destruct first.
    + destruct (move p s) as [[p1 s1]|] eqn:E; [|done]. cbn [mbind res_bind] in Hrun.
      assert (ends_within (pred n) p1) as Hp1.
      { destruct p as [x|f|C a k]; cbn [move] in E; [injection E as <- <-; by destruct (pred n)|done|].
        destruct (perform _ a s) as [[b s2]|]; [|done]. injection E as <- <-.
        destruct n as [|n]; [done|]. apply Hp. }
      destruct (IH _ _ _ _ _ _ _ _ Hrun Hp1 Hq) as [H1 H2]. 
      split; [|done]. destruct H1 as [H1|H1]; [by left|right]. intros Hle. apply H1.
      change (turns true (true :: sched)) with (Datatypes.S (turns true sched)) in Hle. lia.
    + destruct (move q s) as [[q1 s1]|] eqn:E; [|done]. cbn [mbind res_bind] in Hrun.
      assert (ends_within (pred m) q1) as Hq1.
      { destruct q as [x|f|C a k]; cbn [move] in E; [injection E as <- <-; by destruct (pred m)|done|].
        destruct (perform _ a s) as [[b s2]|]; [|done]. injection E as <- <-.
        destruct m as [|m]; [done|]. apply Hq. }
      destruct (IH _ _ _ _ _ _ _ _ Hrun Hp Hq1) as [H1 H2]. 
      split; [done|]. destruct H2 as [H2|H2]; [by left|right]. intros Hle. apply H2.
      change (turns false (false :: sched)) with (Datatypes.S (turns false sched)) in Hle. lia.
Qed.

(** A safe thread that has ended has returned. *)
Lemma safe_ended J R G `{!Reflexive R} {A} (p : prog acc A) Q s :
  J s → safe J R G p Q s → ends_within 0 p → ∃ x, p = Ret x ∧ Q x s.
Proof.
  intros HJ Hs He. destruct p as [x|f|B a k]; [|by destruct (Hs s)|done].
  exists x. split; [done|]. by apply Hs.
Qed.

End Run.
