(* ===== verification/KFifoThreads.v ===== *)
(** * The ring buffer between two threads (src/common/kfifo/kfifo.c, kfifo.h)

    One thread writes with [kfifo_in], another reads with [kfifo_out],
    [kfifo_out_peek] and [kfifo_skip_n], without a lock.  The functions of
    KFifo.v are written here as programs whose accesses to the shared struct (the
    two counters and each [memcpy] to or from the ring) interleave with those of
    the other thread.  Alone they are the functions of KFifo.v; under every
    schedule the ring is a queue of bytes: what is read is what was written, in
    order, and the two threads never touch the same byte of the ring. *)

From S2P Require Import Prelude KFifo Threads.

Open Scope cint_scope.

(** Accesses to the shared memory; [Say] hands a line to spdlog, [Quit] is exit(). *)
Inductive ring_access (E : Type) : Type → Type :=
| ReadIn : ring_access E Z
| ReadOut : ring_access E Z
| WriteIn (v : Z) : ring_access E unit
| WriteOut (v : Z) : ring_access E unit
| Load (off n : Z) : ring_access E (list Z)
| Store (off : Z) (src : list Z) : ring_access E unit
| Say (e : E) : ring_access E unit
| Quit : ring_access E unit.
Arguments ReadIn {E}.
Arguments ReadOut {E}.
Arguments WriteIn {E} v.
Arguments WriteOut {E} v.
Arguments Load {E} off n.
Arguments Store {E} off src.
Arguments Say {E} e.
Arguments Quit {E}.

(** [published] and [consumed] are auxiliary: every byte the in counter, and the out
    counter, has passed.  No program reads them. *)
Record shared (E : Type) := mk_shared {
  ring : __kfifo;
  said : list E;
  exited : bool;
  published : list Z;
  consumed : list Z }.
Arguments mk_shared {E} ring said exited published consumed.
Arguments ring {E} s.
Arguments said {E} s.
Arguments exited {E} s.
Arguments published {E} s.
Arguments consumed {E} s.

(** The bytes of [n] elements from an element index on. *)
Definition elements (f : __kfifo) (index n : Z) : list Z :=
  ring_read (kf_data f) (ring_bytes f) (Z.to_nat (index * kf_esize f)) (Z.to_nat (n * kf_esize f)).

Definition ring_perform (E B : Type) (a : ring_access E B) (s : shared E) : res (B * shared E) :=
  let f := ring s in
  match a with
  | ReadIn => Ok (kf_in f, s)
  | ReadOut => Ok (kf_out f, s)
  | WriteIn v =>
      Ok (tt, mk_shared (set_in f v) (said s) (exited s)
                (published s ++ elements f (kf_in f) (u32 (v - kf_in f))) (consumed s))
  | WriteOut v =>
      Ok (tt, mk_shared (set_out f v) (said s) (exited s) (published s)
                (consumed s ++ elements f (kf_out f) (u32 (v - kf_out f))))
  | Load off n => bs ← mem_read (kf_data f) off n; Ok (bs, s)
  | Store off src =>
      d ← mem_write (kf_data f) off src;
      Ok (tt, mk_shared (set_data f d) (said s) (exited s) (published s) (consumed s))
  | Say e => Ok (tt, mk_shared f (said s ++ [e]) (exited s) (published s) (consumed s))
  | Quit => Ok (tt, mk_shared f (said s) true (published s) (consumed s))
  end.

(** Byte [p] of the ring belongs to what it holds. *)
Definition held (f : __kfifo) (p : Z) : bool :=
  (p - kf_out f * kf_esize f) mod (capacity f * kf_esize f) <? used f * kf_esize f.

(** The reader loads bytes the ring holds, the writer stores to bytes it does not hold;
    accesses with this property never race. *)
Definition race_free {E B : Type} (a : ring_access E B) (f : __kfifo) : bool :=
  match a with
  | Load off n => forallb (λ i, held f (off + i)) (seqZ 0 n)
  | Store off src => forallb (λ i, negb (held f (off + i))) (seqZ 0 (Z.of_nat (length src)))
  | _ => true
  end.

(** Memory with a race detector. *)
Definition checked_perform (E B : Type) (a : ring_access E B) (s : shared E) : res (B * shared E) :=
  if race_free a (ring s) then ring_perform E B a s else Fault Undefined.

(** ** The functions as programs

    The mask and the element size do not change after initialisation. *)

Section Programs.
Context {E : Type} (mask esize : Z).
Abbreviation thread := (prog (ring_access E)).

Definition view (in_ out : Z) : __kfifo := mk_kfifo in_ out mask esize [].

Definition t_kfifo_copy_in (src : list Z) (len off : Z) : thread unit :=
  let '(off, size, len) := copy_geometry (view 0 0) len off in
  let l := min len (u32 (size - off)) in
  s1 ← lift (mem_read src 0 l);
  access (Store off s1);;
  s2 ← lift (mem_read src l (u32 (len - l)));
  access (Store 0 s2).

Definition t_kfifo_in (buf : list Z) (len : Z) : thread Z :=
  in_ ← access ReadIn;
  out ← access ReadOut;
  let l := kfifo_unused (view in_ out) in
  let len := if l <? len then l else len in
  off ← access ReadIn;
  t_kfifo_copy_in buf len off;;
  in_ ← access ReadIn;
  access (WriteIn (u32 (in_ + len)));;
  mret len.

Definition t_kfifo_copy_out (dst : list Z) (len off : Z) : thread (list Z) :=
  let '(off, size, len) := copy_geometry (view 0 0) len off in
  let l := min len (u32 (size - off)) in
  s1 ← access (Load off l);
  d1 ← lift (mem_write dst 0 s1);
  s2 ← access (Load 0 (u32 (len - l)));
  lift (mem_write d1 l s2).

Definition t_kfifo_out_peek (buf : list Z) (len : Z) : thread (list Z * Z) :=
  in_ ← access ReadIn;
  out ← access ReadOut;
  let l := u32 (in_ - out) in
  let len := if l <? len then l else len in
  off ← access ReadOut;
  buf ← t_kfifo_copy_out buf len off;
  mret (buf, len).

Definition t_kfifo_out (buf : list Z) (len : Z) : thread (list Z * Z) :=
  '(buf, len) ← t_kfifo_out_peek buf len;
  out ← access ReadOut;
  access (WriteOut (u32 (out + len)));;
  mret (buf, len).

Definition t_kfifo_len : thread Z :=
  in_ ← access ReadIn;
  out ← access ReadOut;
  mret (kfifo_len (view in_ out)).

Definition t_kfifo_avail : thread Z :=
  in_ ← access ReadIn;
  out ← access ReadOut;
  mret (kfifo_avail 0 (view in_ out)).

Definition t_kfifo_skip_n (n : Z) : thread unit :=
  out ← access ReadOut;
  access (WriteOut (u32 (out + n))).

Definition t_kfifo_reset_out : thread unit :=
  in_ ← access ReadIn;
  access (WriteOut in_).

End Programs.

(** ** Alone, the programs are the functions *)

Section Alone.
Context {E : Type}.
Implicit Types (s : shared E) (f : __kfifo).
Abbreviation exec := (exec (ring_perform E)).

(** The ring and the answer of a run; the auxiliary bytes follow from the ring. *)
Definition answer {A} (r : res (A * shared E)) : res (A * __kfifo) :=
  '(x, s) ← r; Ok (x, ring s).

Ltac alone :=
  repeat (rewrite exec_bind || rewrite exec_access || rewrite exec_lift ||
          (progress cbn [ring_perform mbind res_bind exec ring said exited published consumed
             mret prog_mret answer])).

Lemma copy_in_alone s src len off :
  answer (exec (t_kfifo_copy_in (kf_mask (ring s)) (kf_esize (ring s)) src len off) s) =
  f ← kfifo_copy_in (ring s) src len off; Ok (tt, f).
Proof.
  unfold t_kfifo_copy_in, kfifo_copy_in.
  change (copy_geometry (view _ _ 0 0) len off) with (copy_geometry (ring s) len off).
  destruct (copy_geometry (ring s) len off) as [[o size] n].
  alone. destruct (mem_read src 0 _) as [s1|]; [|done]. alone.
  destruct (mem_write _ o s1) as [d1|]; [|done]. alone.
  destruct (mem_read src _ _) as [s2|]; [|done]. alone.
  destruct (mem_write _ 0 s2) as [d2|]; done.
Qed.

Lemma copy_out_alone s dst len off :
  answer (exec (t_kfifo_copy_out (kf_mask (ring s)) (kf_esize (ring s)) dst len off) s) =
  dst ← kfifo_copy_out (ring s) dst len off; Ok (dst, ring s).
Proof.
  unfold t_kfifo_copy_out, kfifo_copy_out.
  change (copy_geometry (view _ _ 0 0) len off) with (copy_geometry (ring s) len off).
  destruct (copy_geometry (ring s) len off) as [[o size] n].
  alone. destruct (mem_read _ o _) as [s1|]; [|done]. alone.
  destruct (mem_write dst _ _) as [d1|]; [|done]. alone.
  destruct (mem_read _ _ _) as [s2|]; [|done]. alone.
  destruct (mem_write d1 _ _) as [d2|]; done.
Qed.

Lemma kfifo_in_alone s buf len :
  answer (exec (t_kfifo_in (kf_mask (ring s)) (kf_esize (ring s)) buf len) s) =
  '(f, n) ← __kfifo_in (ring s) buf len; Ok (n, f).
Proof.
  unfold t_kfifo_in, __kfifo_in. alone.
  change (kfifo_unused (view _ _ (kf_in (ring s)) (kf_out (ring s)))) with (kfifo_unused (ring s)).
  set (n := if _ <? len then _ else len).
  pose proof (copy_in_alone s buf n (kf_in (ring s))) as H.
  destruct (exec (t_kfifo_copy_in _ _ buf n _) s) as [[[] s1]|] eqn:E1; cbn in H.
  - destruct (kfifo_copy_in (ring s) buf n _) as [f1|]; [|done]. injection H as <-. alone. done.
  - destruct (kfifo_copy_in (ring s) buf n _) as [f1|]; [done|]. by injection H as ->.
Qed.

Lemma kfifo_out_peek_alone s buf len :
  answer (exec (t_kfifo_out_peek (kf_mask (ring s)) (kf_esize (ring s)) buf len) s) =
  r ← __kfifo_out_peek (ring s) buf len; Ok (r, ring s).
Proof.
  unfold t_kfifo_out_peek, __kfifo_out_peek. alone.
  set (n := if _ <? len then _ else len).
  pose proof (copy_out_alone s buf n (kf_out (ring s))) as H.
  destruct (exec (t_kfifo_copy_out _ _ buf n _) s) as [[d s1]|] eqn:E1; cbn in H.
  - destruct (kfifo_copy_out (ring s) buf n _) as [d1|]; [|done]. injection H as -> <-. done.
  - destruct (kfifo_copy_out (ring s) buf n _) as [f1|]; [done|]. by injection H as ->.
Qed.

Lemma kfifo_out_alone s buf len :
  answer (exec (t_kfifo_out (kf_mask (ring s)) (kf_esize (ring s)) buf len) s) =
  '(f, buf, n) ← __kfifo_out (ring s) buf len; Ok (buf, n, f).
Proof.
  unfold t_kfifo_out, __kfifo_out. alone.
  pose proof (kfifo_out_peek_alone s buf len) as H.
  destruct (exec (t_kfifo_out_peek _ _ buf len) s) as [[[d n] s1]|] eqn:E1; cbn in H.
  - destruct (__kfifo_out_peek (ring s) buf len) as [[d1 n1]|]; [|done]. injection H as -> -> <-.
    alone. done.
  - destruct (__kfifo_out_peek (ring s) buf len) as [[d1 n1]|]; [done|]. by injection H as ->.
Qed.
End Alone.

(** ** The ring under the accesses of one side *)

Section Steps.
Implicit Types (f : __kfifo).

Lemma ring_update_refl d N o n : ring_update d N o (ring_read d N o n) d.
Proof.
  split; [done|]. intros i Hi. case_decide as Hn; [|done].
  rewrite length_ring_read in Hn. symmetry. apply list_lookup_total_correct.
  by apply lookup_ring_read.
Qed.

Lemma advance_wraps c n :
  0 <= c < 4294967296 → 0 <= n < 4294967296 → u32 (u32 (c + n) - c) = n.
Proof. intros. u32_lia. Qed.

Lemma length_elements f i n : length (elements f i n) = Z.to_nat (n * kf_esize f).
Proof. apply length_ring_read. Qed.

(** Advancing the in counter over elements that are in the ring already. *)
Lemma publish_spec f n :
  wf_kfifo f → 0 <= n <= capacity f - used f →
  let f' := set_in f (u32 (kf_in f + n)) in
  wf_kfifo f' ∧ contents f' = contents f ++ elements f (kf_in f) n.
Proof.
  intros Hwf Hn. pose proof (wf_esize f Hwf).
  destruct (produce_spec f (kf_data f) n (elements f (kf_in f) n)) as (W & C & _); try done.
  - rewrite length_elements. nia.
  - apply ring_update_refl.
Qed.

(** The oldest elements. *)
Lemma elements_out f n :
  wf_kfifo f → 0 <= n <= used f →
  elements f (kf_out f) n = take (Z.to_nat (n * kf_esize f)) (contents f).
Proof.
  intros Hwf Hn. pose proof (wf_esize f Hwf). unfold contents.
  replace (Z.to_nat (used f * kf_esize f))
    with (Z.to_nat (n * kf_esize f) + Z.to_nat ((used f - n) * kf_esize f))%nat by
    (rewrite <- Z2Nat.inj_add by nia; f_equal; lia).
  rewrite ring_read_app. unfold elements.
  by rewrite take_app_length' by (symmetry; apply length_ring_read).
Qed.

Lemma wf_set_data f d' : length d' = length (kf_data f) → wf_kfifo f → wf_kfifo (set_data f d').
Proof. intros Hl []. constructor; try done. cbn. by rewrite Hl. Qed.

(** A write into the free part of the ring does not change what it holds. *)
Lemma contents_update f d' src :
  wf_kfifo f →
  ring_update (kf_data f) (ring_bytes f) (Z.to_nat (kf_in f * kf_esize f)) src d' →
  Z.of_nat (length src) <= (capacity f - used f) * kf_esize f →
  contents (set_data f d') = contents f.
Proof.
  intros Hwf Hup Hsrc. pose proof (ring_bytes_pos f Hwf). pose proof (wf_esize f Hwf).
  pose proof (used_bound f).
  unfold contents. eapply ring_update_old; [done|exact Hup| |by apply in_position].
  change (used (set_data f d')) with (used f). change (kf_esize (set_data f d')) with (kf_esize f).
  unfold ring_bytes. nia.
Qed.

(** The first [memcpy] of kfifo_copy_in alone. *)
Lemma first_chunk_update d N o src :
  (o < N)%nat → (length src <= N - o)%nat → (N <= length d)%nat →
  ring_update d N o src (splice d o src).
Proof.
  intros Ho Hs Hd. split; [apply length_splice; lia|]. intros i Hi.
  pose proof (ring_write_two d N o src i Ho ltac:(lia) Hd Hi) as H. cbv zeta in H.
  rewrite Nat.min_l in H by lia. rewrite take_ge, drop_ge, splice_nil in H by lia. exact H.
Qed.

(** Positions of the ring, counted from the reader's counter. *)
Section Positions.
Context (f : __kfifo) (Hwf : wf_kfifo f).
Let es := kf_esize f.
Let B := capacity f * es.

Lemma ring_size_pos : 0 < B.
Proof using Hwf. unfold B, es. pose proof (wf_esize f Hwf). pose proof (capacity_pos f Hwf). nia. Qed.

Lemma held_used j : 0 <= j < used f * es → held f ((kf_out f * es + j) mod B) = true.
Proof using Hwf.
  intros Hj. pose proof ring_size_pos. pose proof (wf_used f Hwf). pose proof (wf_esize f Hwf).
  unfold held. fold es B. rewrite Zminus_mod_idemp_l.
  replace (kf_out f * es + j - kf_out f * es) with j by lia.
  apply Z.ltb_lt. rewrite Z.mod_small; [lia|]. unfold B, es in *. nia.
Qed.

Lemma free_not_held j :
  0 <= j < (capacity f - used f) * es → held f ((kf_in f * es + j) mod B) = false.
Proof using Hwf.
  intros Hj. pose proof ring_size_pos. pose proof (wf_used f Hwf). pose proof (wf_esize f Hwf).
  pose proof (used_bound f). pose proof (capacity_pos f Hwf).
  assert ((kf_in f * es) mod B = ((kf_out f + used f) * es) mod B) as Hin.
  { unfold B. rewrite !Z.mul_mod_distr_r by (unfold es; lia). f_equal.
    rewrite (in_is_out_plus_used f Hwf) at 1. by apply u32_mod_capacity. }
  unfold held. fold es B. rewrite Zminus_mod_idemp_l.
  replace (kf_in f * es + j - kf_out f * es) with (kf_in f * es + (j - kf_out f * es)) by lia.
  rewrite <- Zplus_mod_idemp_l, Hin, Zplus_mod_idemp_l.
  replace ((kf_out f + used f) * es + (j - kf_out f * es)) with (used f * es + j) by lia.
  apply Z.ltb_ge. rewrite Z.mod_small; [lia|]. unfold B, es in *. nia.
Qed.

(** The bytes of the two chunks of a copy at counter [c], from the counter on. *)
Lemma chunk_positions c nb :
  0 <= nb <= B →
  let o := c mod capacity f * es in
  let l := min nb (B - o) in
  (∀ i, 0 <= i < l → o + i = (c * es + i) mod B) ∧
  (∀ i, 0 <= i < nb - l → 0 + i = (c * es + (l + i)) mod B).
Proof using Hwf.
  intros Hnb o l. pose proof ring_size_pos. pose proof (wf_esize f Hwf). pose proof (capacity_pos f Hwf).
  assert (0 <= o < B) as Ho.
  { unfold o, B. pose proof (Z.mod_pos_bound c (capacity f)). unfold es in *. nia. }
  assert (l <= B - o ∧ (l = nb ∨ l = B - o)) as Hl.
  { unfold l, min. destruct (Z.ltb_spec nb (B - o)); lia. }
  assert (o = (c * es) mod B) as Eo by (unfold o, B; rewrite Z.mul_mod_distr_r; unfold es; lia).
  split; intros i Hi; rewrite <- Zplus_mod_idemp_l, <- Eo.
  - rewrite Z.mod_small; lia.
  - replace (o + (l + i)) with (i + 1 * B) by lia. rewrite Z.mod_add, Z.mod_small; lia.
Qed.

End Positions.
Lemma stores_race_free {E} f n src off :
  wf_kfifo f → 0 <= n <= capacity f - used f → 
  (∀ i, 0 <= i < Z.of_nat (length src) → ∃ j, 0 <= j < n * kf_esize f ∧
     off + i = (kf_in f * kf_esize f + j) mod (capacity f * kf_esize f)) →
  race_free (Store (E := E) off src) f = true.
Proof.
  intros Hwf Hn Hpos. cbn [race_free]. pose proof (wf_esize f Hwf).
  apply forallb_forall. intros i Hi. apply list_elem_of_In, elem_of_seqZ in Hi.
  destruct (Hpos i) as (j & Hj & ->); [lia|]. rewrite free_not_held by (done || nia). done.
Qed.

Lemma loads_race_free {E} f n off m :
  wf_kfifo f → 0 <= n <= used f →
  (∀ i, 0 <= i < m → ∃ j, 0 <= j < n * kf_esize f ∧
     off + i = (kf_out f * kf_esize f + j) mod (capacity f * kf_esize f)) →
  race_free (Load (E := E) off m) f = true.
Proof.
  intros Hwf Hn Hpos. cbn [race_free]. pose proof (wf_esize f Hwf).
  apply forallb_forall. intros i Hi. apply list_elem_of_In, elem_of_seqZ in Hi.
  destruct (Hpos i) as (j & Hj & ->); [lia|]. rewrite held_used by (done || nia). done.
Qed.

End Steps.

(** ** What each side may assume of the other

    [K] is what the users of the ring keep true of the bytes published and consumed and
    of the lines said; [SP] and [SC] are what the writer and the reader may assume of the
    lines the other one says. *)

Section Sides.
Context {E : Type} (mask esize : Z).
Context (K : list Z → list Z → list E → Prop).
Context (SP SC : list E → list E → Prop) `{!PreOrder SP, !PreOrder SC}.
Implicit Types (s : shared E).

Record ring_inv (s : shared E) : Prop := {
  inv_wf : wf_kfifo (ring s);
  inv_mask : kf_mask (ring s) = mask;
  inv_esize : kf_esize (ring s) = esize;
  inv_bytes : published s = consumed s ++ contents (ring s);
  inv_K : K (published s) (consumed s) (said s) }.

Record writer_rely (s s' : shared E) : Prop := {
  wr_in : kf_in (ring s') = kf_in (ring s);
  wr_data : kf_data (ring s') = kf_data (ring s);
  wr_published : published s' = published s;
  wr_consumed : consumed s `prefix_of` consumed s';
  wr_said : SP (said s) (said s') }.

Record reader_rely (s s' : shared E) : Prop := {
  rr_out : kf_out (ring s') = kf_out (ring s);
  rr_published : published s `prefix_of` published s';
  rr_consumed : consumed s' = consumed s;
  rr_said : SC (said s) (said s') }.

#[export] Instance writer_rely_preorder : PreOrder writer_rely.
Proof using PreOrder0.
  split.
  - intros s. by constructor.
  - intros s1 s2 s3 [] []. constructor; try congruence; by etrans.
Qed.

#[export] Instance reader_rely_preorder : PreOrder reader_rely.
Proof using PreOrder1.
  split.
  - intros s. by constructor.
  - intros s1 s2 s3 [] []. constructor; try congruence; by etrans.
Qed.

Lemma length_held s : ring_inv s → Z.of_nat (length (contents (ring s))) = used (ring s) * esize.
Proof.
  intros Hs. pose proof (wf_esize _ (inv_wf s Hs)). pose proof (used_bound (ring s)).
  rewrite length_contents, (inv_esize s Hs) in *. nia.
Qed.

Lemma esize_pos s : ring_inv s → 0 < esize.
Proof. intros Hs. rewrite <- (inv_esize s Hs). apply wf_esize, Hs. Qed.

(** The writer sees the ring drain, the reader sees it fill. *)
Lemma writer_used s s' :
  ring_inv s → ring_inv s' → published s' = published s → consumed s `prefix_of` consumed s' →
  used (ring s') <= used (ring s).
Proof.
  intros Hs Hs' Hp [d Hd]. pose proof (length_held s Hs). pose proof (length_held s' Hs').
  pose proof (esize_pos s Hs). pose proof (inv_bytes s Hs) as E1. pose proof (inv_bytes s' Hs') as E2.
  rewrite Hp, E1, Hd in E2.
  apply (f_equal length) in E2. rewrite !length_app in E2. nia.
Qed.

Lemma reader_contents s s' :
  ring_inv s → ring_inv s' → reader_rely s s' → contents (ring s) `prefix_of` contents (ring s').
Proof.
  intros Hs Hs' HR. pose proof (inv_bytes s Hs) as E1. pose proof (inv_bytes s' Hs') as E2.
  destruct HR as [_ [d Hp] Hc _]. rewrite Hp, E1, Hc, <- (assoc_L (++)) in E2.
  exists d. by apply (inj (app _)) in E2.
Qed.

Lemma inv_capacity s : ring_inv s → capacity (ring s) = mask + 1.
Proof. intros Hs. unfold capacity. by rewrite (inv_mask s Hs). Qed.

Abbreviation safe_writer := (safe (checked_perform E) ring_inv writer_rely reader_rely).
Abbreviation safe_reader := (safe (checked_perform E) ring_inv reader_rely writer_rely).

(** The two chunks kfifo_copy_in stores. *)
Lemma copy_in_chunks f src n :
  wf_kfifo f → 0 <= n <= capacity f → n * kf_esize f <= Z.of_nat (length src) →
  ∃ o c1 c2 d1 d2,
    t_kfifo_copy_in (E := E) (kf_mask f) (kf_esize f) src n (kf_in f) =
      (access (Store o c1);; access (Store 0 c2)) ∧
    mem_write (kf_data f) o c1 = Ok d1 ∧ mem_write d1 0 c2 = Ok d2 ∧
    Z.of_nat (length c1) <= n * kf_esize f ∧
    ring_update (kf_data f) (ring_bytes f) (Z.to_nat (kf_in f * kf_esize f)) c1 d1 ∧
    ring_update (kf_data f) (ring_bytes f) (Z.to_nat (kf_in f * kf_esize f))
      (take (Z.to_nat (n * kf_esize f)) src) d2 ∧
    ∀ f', wf_kfifo f' → kf_in f' = kf_in f → kf_mask f' = kf_mask f → kf_esize f' = kf_esize f →
      n <= capacity f' - used f' →
      race_free (Store (E := E) o c1) f' = true ∧ race_free (Store (E := E) 0 c2) f' = true.
Proof.
  intros Hwf Hn Hsrc. pose proof (wf_in f Hwf) as Hin.
  destruct (kfifo_copy_in_spec f src n (kf_in f)) as (d2 & Hcopy & Hup); [done|lia..|done|].
  pose proof (byte_offset_lt f (kf_in f) Hwf) as Ho.
  pose proof (byte_offset_mod f (kf_in f) Hwf ltac:(lia)) as Hmod.
  pose proof (ring_bytes_data f Hwf) as HD. pose proof (ring_bytes_pos f Hwf) as HN.
  pose proof (wf_bytes f Hwf). pose proof (wf_esize f Hwf).
  unfold kfifo_copy_in in Hcopy. unfold t_kfifo_copy_in.
  change (copy_geometry (view _ _ 0 0) n (kf_in f)) with (copy_geometry f n (kf_in f)).
  rewrite copy_geometry_eq in * by done.
  set (o := kf_in f mod capacity f * kf_esize f) in *. set (B := capacity f * kf_esize f) in *.
  set (l := min (n * kf_esize f) (u32 (B - o))) in *.
  destruct (mem_read src 0 l) as [c1|] eqn:E1; [|discriminate Hcopy]. cbn [mbind res_bind] in Hcopy.
  destruct (mem_write (kf_data f) o c1) as [d1|] eqn:E2; [|discriminate Hcopy]. cbn [mbind res_bind] in Hcopy.
  destruct (mem_read src l _) as [c2|] eqn:E3; [|discriminate Hcopy]. cbn [mbind res_bind] in Hcopy.
  destruct (mem_write d1 0 c2) as [d2'|] eqn:E4; [|discriminate Hcopy]. cbn in Hcopy. injection Hcopy as ->.
  exists o, c1, c2, d1, d2. split; [done|]. split; [done|]. split; [done|].
  assert (0 <= l <= n * kf_esize f ∧ l <= B - o) as Hl.
  { unfold l, min. rewrite u32_small by lia. destruct (Z.ltb_spec (n * kf_esize f) (B - o)); nia. }
  rewrite mem_read_Ok in E1 by lia. injection E1 as <-.
  assert (length (take (Z.to_nat l) (drop (Z.to_nat 0) src)) = Z.to_nat l) as El.
  { rewrite drop_0, length_take. lia. }
  assert (Z.of_nat (length c2) = n * kf_esize f - l) as El2.
  { rewrite u32_small, mem_read_Ok in E3 by nia. injection E3 as <-.
    rewrite length_take, length_drop. lia. }
  split; [lia|]. split; [|split; [done|]].
  2:{ intros f' Hwf' Hi' Hm' He' Hn'.
      assert (capacity f' = capacity f) as Hc' by (unfold capacity; by rewrite Hm').
      destruct (chunk_positions f Hwf (kf_in f) (n * kf_esize f)) as [P1 P2]; [nia|].
      fold o B in P1, P2. replace (min _ (B - o)) with l in P1, P2 by (unfold l; by rewrite u32_small by lia).
      split; apply (stores_race_free f' n); try done; try lia; rewrite Hi', He', Hc'; intros i Hi.
      - exists i. split; [lia|]. apply P1. lia.
      - exists (l + i). split; [lia|]. apply P2. lia. }
  assert (ring_bytes f = Z.to_nat B) as EN by done.
  rewrite mem_write_Ok in E2 by (rewrite ?El; lia). injection E2 as <-.
  destruct (first_chunk_update (kf_data f) (ring_bytes f) (Z.to_nat o)
    (take (Z.to_nat l) (drop (Z.to_nat 0) src))) as [Hlen Hu]; [lia|lia|lia|].
  split; [done|]. intros i Hi. rewrite <- (Nat.Div0.add_mod_idemp_l (Z.to_nat (kf_in f * _))), <- Hmod.
  by apply Hu.
Qed.

(** Storing in the free part of the ring, the second chunk after the first. *)
Lemma store_inv s d0 src0 src d' :
  let f := ring s in
  let room := (capacity f - used f) * esize in
  ring_inv s →
  ring_update d0 (ring_bytes f) (Z.to_nat (kf_in f * kf_esize f)) src0 (kf_data f) →
  ring_update d0 (ring_bytes f) (Z.to_nat (kf_in f * kf_esize f)) src d' →
  Z.of_nat (length src0) <= room → Z.of_nat (length src) <= room →
  ring_inv (mk_shared (set_data f d') (said s) (exited s) (published s) (consumed s)).
Proof.
  intros f room Hs H0 H1 L0 L1. destruct Hs as [Hwf Hm He Hb HK]. fold f in Hwf, Hm, He, Hb.
  unfold room in *. rewrite <- He in *.
  assert (wf_kfifo (set_data f d0)) as Hwf0 by (apply wf_set_data; [symmetry; apply H0|done]).
  constructor; cbn [ring published consumed said]; try done.
  - apply (wf_set_data (set_data f d0)); [apply H1|done].
  - rewrite Hb. f_equal. trans (contents (set_data f d0)).
    + exact (contents_update (set_data f d0) (kf_data f) src0 Hwf0 H0 L0).
    + symmetry. exact (contents_update (set_data f d0) d' src Hwf0 H1 L1).
Qed.

Lemma ring_update_nil d N o : ring_update d N o [] d.
Proof. split; [done|]. intros i Hi. by case_decide; [cbn in *; lia|]. Qed.

Lemma same_ring_bytes s s' : ring_inv s → ring_inv s' → ring_bytes (ring s') = ring_bytes (ring s).
Proof.
  intros Hs Hs'. unfold ring_bytes.
  by rewrite (inv_capacity s Hs), (inv_capacity s' Hs'), (inv_esize s Hs), (inv_esize s' Hs').
Qed.

(** Both stores of kfifo_copy_in: afterwards the bytes are behind the in counter. *)
Lemma copy_in_safe s buf n (Q : unit → shared E → Prop) :
  ring_inv s → 0 <= n <= capacity (ring s) - used (ring s) → n * esize <= Z.of_nat (length buf) →
  (∀ s', ring_inv s' → kf_in (ring s') = kf_in (ring s) → published s' = published s →
     consumed s `prefix_of` consumed s' → SP (said s) (said s') →
     elements (ring s') (kf_in (ring s')) n = take (Z.to_nat (n * esize)) buf → Q tt s') →
  safe_writer (t_kfifo_copy_in mask esize buf n (kf_in (ring s))) Q s.
Proof.
  intros Hs Hn Hbuf HQ.
  pose proof (used_bound (ring s)) as Hpos. pose proof (inv_esize s Hs) as He.
  destruct (copy_in_chunks (ring s) buf n) as (o & c1 & c2 & d1 & d2 & Eq & W1 & W2 & L1 & U1 & U2 & RF);
    [apply Hs|lia|by rewrite He|].
  rewrite He, (inv_mask s Hs) in Eq. rewrite Eq, He in *. clear Eq.
  assert (∀ s', ring_inv s' → kf_in (ring s') = kf_in (ring s) → published s' = published s →
    consumed s `prefix_of` consumed s' →
    race_free (Store (E := E) o c1) (ring s') = true ∧ race_free (Store (E := E) 0 c2) (ring s') = true) as RF'.
  { intros s' Hs' Hi' Hp' Hc'. pose proof (writer_used s s' Hs Hs' Hp' Hc').
    pose proof (inv_capacity s Hs). pose proof (inv_capacity s' Hs').
    apply RF; [apply Hs'|done|by rewrite (inv_mask s Hs), (inv_mask s' Hs')|by rewrite (inv_esize s' Hs')|lia]. }
  apply safe_bind, safe_access; [apply _|]. intros s1 R1 J1. unfold checked_perform.
  rewrite (proj1 (RF' s1 J1 (wr_in _ _ R1) (wr_published _ _ R1) (wr_consumed _ _ R1))). cbn [ring_perform].
  rewrite (wr_data _ _ R1), W1. eexists _, _. split; [reflexivity|]. split; [by constructor|].
  pose proof (writer_used s s1 Hs J1 (wr_published _ _ R1) (wr_consumed _ _ R1)) as Hu1.
  pose proof (inv_capacity s Hs). pose proof (inv_capacity s1 J1). pose proof (esize_pos s Hs).
  split.
  { apply (store_inv s1 (kf_data (ring s)) [] c1 d1); [done| | |cbn; nia|nia].
    - rewrite (wr_data _ _ R1). apply ring_update_nil.
    - by rewrite (same_ring_bytes s s1), (wr_in _ _ R1), (inv_esize s1 J1). }
  intros s2 R2 J2. apply safe_access. intros s3 R3 J3.
  assert (kf_in (ring s3) = kf_in (ring s) ∧ kf_data (ring s3) = d1 ∧ published s3 = published s ∧
    consumed s `prefix_of` consumed s3 ∧ SP (said s) (said s3)) as (Hin & Hdata & Hpub & Hcon & Hsaid).
  { destruct R1, R2, R3. cbn in *. split_and!; try congruence; by do 2 etrans. }
  unfold checked_perform. rewrite (proj2 (RF' s3 J3 Hin Hpub Hcon)). cbn [ring_perform].
  rewrite Hdata, W2. eexists _, _. split; [reflexivity|]. split; [by constructor|].
  pose proof (writer_used s s3 Hs J3 Hpub Hcon). pose proof (inv_capacity s3 J3).
  split.
  { apply (store_inv s3 (kf_data (ring s)) c1 (take (Z.to_nat (n * esize)) buf) d2); [done| | |nia|].
    - by rewrite Hdata, (same_ring_bytes s s3), Hin, (inv_esize s3 J3).
    - by rewrite (same_ring_bytes s s3), Hin, (inv_esize s3 J3).
    - rewrite length_take. nia. }
  intros s4 R4 J4. destruct R4 as [Hin4 Hdata4 Hpub4 Hcon4 Hsaid4]. cbn in Hin4, Hdata4, Hpub4, Hcon4, Hsaid4.
  apply HQ; [done|congruence|congruence|by etrans|by etrans|].
  unfold elements. rewrite Hdata4, Hin4, Hin, (same_ring_bytes s s4), (inv_esize s4 J4) by done.
  assert (length (take (Z.to_nat (n * esize)) buf) = Z.to_nat (n * esize)) as El by (rewrite length_take; lia).
  rewrite <- El at 1. eapply ring_update_new; [|exact U2|].
  - apply ring_bytes_pos, Hs.
  - rewrite El. unfold ring_bytes. rewrite He. nia.
Qed.

Lemma view_eq s : ring_inv s → kfifo_unused (view mask esize (kf_in (ring s)) (kf_out (ring s))) =
  capacity (ring s) - used (ring s).
Proof.
  intros Hs. rewrite <- kfifo_unused_eq by apply Hs. unfold kfifo_unused. cbn [view kf_in kf_out kf_mask].
  by rewrite (inv_mask s Hs).
Qed.

(** The in counter is advanced over bytes that are in place. *)
Lemma publish_inv s n bs :
  ring_inv s → 0 <= n <= capacity (ring s) - used (ring s) → elements (ring s) (kf_in (ring s)) n = bs →
  K (published s ++ bs) (consumed s) (said s) →
  ∃ s', ring_perform E _ (WriteIn (u32 (kf_in (ring s) + n))) s = Ok (tt, s') ∧
    reader_rely s s' ∧ ring_inv s' ∧ published s' = published s ++ bs ∧
    consumed s' = consumed s ∧ said s' = said s.
Proof.
  intros Hs Hn <- HK. pose proof Hs as [Hwf Hm He Hb _].
  pose proof (wf_in _ Hwf). pose proof (capacity_le _ Hwf). pose proof (used_bound (ring s)).
  destruct (publish_spec (ring s) n Hwf Hn) as [W C].
  cbn [ring_perform]. rewrite advance_wraps by lia. eexists. split; [reflexivity|].
  split; [constructor; cbn; try done; by eexists|]. split; [|done].
  constructor; cbn [ring published consumed said]; try done.
  by rewrite C, (assoc_L (++)), <- Hb.
Qed.

(** kfifo_in by the writer: the bytes that fit at the time the reader's counter is read,
    at least as many as fitted at the call, are published. *)
Lemma kfifo_in_safe s buf len (Q : Z → shared E → Prop) :
  ring_inv s → 0 <= len → len * esize <= Z.of_nat (length buf) →
  (∀ n con sd, Z.min len (capacity (ring s) - used (ring s)) <= n <= len → K (published s) con sd →
     K (published s ++ take (Z.to_nat (n * esize)) buf) con sd) →
  (∀ n s', Z.min len (capacity (ring s) - used (ring s)) <= n <= len → ring_inv s' →
     published s' = published s ++ take (Z.to_nat (n * esize)) buf →
     consumed s `prefix_of` consumed s' → SP (said s) (said s') → Q n s') →
  safe_writer (t_kfifo_in mask esize buf len) Q s.
Proof.
  intros Hs Hlen Hbuf HK HQ. unfold t_kfifo_in.
  apply safe_bind, (safe_read _ _ _ _ _ (λ s, kf_in (ring s))); [apply _..|done|]. intros s1 s2 R1 J1 R2 J2.
  apply safe_bind, (safe_read _ _ _ _ _ (λ s, kf_out (ring s))); [apply _..|done|]. intros s3 s4 R3 J3 R4 J4.
  assert (writer_rely s s3) as R13 by (by do 2 etrans).
  replace (kf_in (ring s1)) with (kf_in (ring s3)) by (destruct R1, R2, R3; congruence).
  rewrite view_eq by done. pose proof (inv_capacity s Hs). pose proof (inv_capacity s3 J3).
  pose proof (writer_used s s3 Hs J3 (wr_published _ _ R13) (wr_consumed _ _ R13)).
  pose proof (wf_used _ (inv_wf s3 J3)). pose proof (used_bound (ring s3)).
  set (n := if _ <? len then _ else len).
  assert (0 <= n <= len ∧ n <= capacity (ring s3) - used (ring s3) ∧
    Z.min len (capacity (ring s) - used (ring s)) <= n) as Hn.
  { unfold n. destruct (Z.ltb_spec (capacity (ring s3) - used (ring s3)) len); lia. }
  clearbody n.
  apply safe_bind, (safe_read _ _ _ _ _ (λ s, kf_in (ring s))); [apply _..|done|]. intros s5 s6 R5 J5 R6 J6.
  apply safe_bind; [apply _|]. replace (kf_in (ring s5)) with (kf_in (ring s6)) by apply R6.
  assert (writer_rely s3 s6) as R36 by (by do 2 etrans).
  pose proof (writer_used s3 s6 J3 J6 (wr_published _ _ R36) (wr_consumed _ _ R36)).
  pose proof (inv_capacity s6 J6). assert (writer_rely s s6) as [_ _ P6 C6 S6] by (by etrans).
  clear R1 R2 R3 R4 R5 R6 R13 R36 J1 J2 J4 J5 s1 s2 s4 s5.
  pose proof (esize_pos s Hs). apply copy_in_safe; [done|lia|nia|]. intros s7 J7 I7 P7 C7 S7 El7.
  apply safe_bind, (safe_read _ _ _ _ _ (λ s, kf_in (ring s))); [apply _..|done|]. intros s8 s9 R8 J8 R9 J9.
  apply safe_bind, safe_access; [apply _|]. intros s10 R10 J10.
  assert (writer_rely s7 s10) as [I10 D10 P10 C10 S10] by (by do 2 etrans).
  pose proof (writer_used s7 s10 J7 J10 P10 C10). pose proof (writer_used s6 s7 J6 J7 P7 C7).
  pose proof (inv_capacity s10 J10).
  destruct (publish_inv s10 n (take (Z.to_nat (n * esize)) buf)) as (s11 & Ep & G11 & J11 & P11 & C11 & S11);
    [done|lia| | |].
  { rewrite <- El7. unfold elements. by rewrite D10, I10, (inv_esize s10 J10), (inv_esize s7 J7), (same_ring_bytes s7 s10). }
  { rewrite P10, P7, P6. apply HK; [lia|]. rewrite <- P6, <- P7, <- P10. apply J10. }
  replace (kf_in (ring s8)) with (kf_in (ring s10)) by (destruct R9, R10; congruence).
  exists tt, s11. split; [done|]. split; [done|]. split; [done|].
  intros s12 R12 J12. apply safe_ret. intros s13 R13 J13.
  assert (writer_rely s11 s13) as [_ _ P13 C13 S13] by (by etrans).
  apply HQ; [lia|done|congruence| |].
  - rewrite C11 in C13. by do 3 (etrans; [eassumption|]).
  - rewrite S11 in S13. by do 3 (etrans; [eassumption|]).
Qed.

(** The two chunks kfifo_copy_out loads are the oldest bytes, whatever the writer does
    meanwhile. *)
Lemma oldest_chunks f n :
  wf_kfifo f → 0 <= n <= used f →
  let o := kf_out f mod capacity f * kf_esize f in
  let l := min (n * kf_esize f) (capacity f * kf_esize f - o) in
  ∃ c1 c2, mem_read (kf_data f) o l = Ok c1 ∧ mem_read (kf_data f) 0 (n * kf_esize f - l) = Ok c2 ∧
    length c1 = Z.to_nat l ∧ c1 ++ c2 = take (Z.to_nat (n * kf_esize f)) (contents f) ∧
    0 <= l <= n * kf_esize f.
Proof.
  intros Hwf Hn o l. pose proof (wf_out f Hwf). pose proof (wf_used f Hwf).
  pose proof (byte_offset_lt f (kf_out f) Hwf) as Ho. fold o in Ho.
  pose proof (byte_offset_mod f (kf_out f) Hwf ltac:(lia)) as Hmod. fold o in Hmod.
  pose proof (ring_bytes_data f Hwf) as HD. pose proof (ring_bytes_pos f Hwf) as HN.
  pose proof (wf_esize f Hwf).
  assert (0 <= n * kf_esize f <= capacity f * kf_esize f) as Hb by nia.
  assert (0 <= l <= n * kf_esize f ∧ l <= capacity f * kf_esize f - o) as Hl.
  { unfold l, min. destruct (Z.ltb_spec (n * kf_esize f) (capacity f * kf_esize f - o)); lia. }
  assert (ring_bytes f = Z.to_nat (capacity f * kf_esize f)) as EN by done.
  rewrite !mem_read_Ok by lia. eexists _, _. split; [reflexivity|]. split; [reflexivity|].
  split; [rewrite length_take, length_drop; lia|]. split; [|lia].
  rewrite <- elements_out by done. unfold elements.
  rewrite (ring_read_mod _ _ _ (Z.to_nat o)) by (done || by rewrite Hmod, Nat.Div0.mod_mod).
  rewrite ring_read_two by lia. rewrite drop_0.
  replace (Nat.min (Z.to_nat (n * kf_esize f)) (ring_bytes f - Z.to_nat o)) with (Z.to_nat l).
  - f_equal. f_equal. lia.
  - unfold l, min. destruct (Z.ltb_spec (n * kf_esize f) (capacity f * kf_esize f - o)); lia.
Qed.

Lemma write_two (dst c1 c2 : list Z) :
  (length c1 + length c2 <= length dst)%nat →
  ∃ d1, mem_write dst 0 c1 = Ok d1 ∧
    mem_write d1 (Z.of_nat (length c1)) c2 = Ok (c1 ++ c2 ++ drop (length c1 + length c2) dst).
Proof.
  intros Hl. rewrite mem_write_Ok by lia. eexists. split; [reflexivity|].
  rewrite mem_write_Ok by (rewrite ?length_splice by lia; lia). f_equal. rewrite Nat2Z.id. unfold splice.
  change (Z.to_nat 0) with 0%nat. rewrite take_0, Nat.add_0_l. cbn [app]. rewrite take_app_length. do 2 f_equal.
  rewrite <- drop_drop, drop_app_length, drop_drop. done.
Qed.

Lemma reader_chunks s dst n :
  ring_inv s → 0 <= n <= used (ring s) → n * esize <= Z.of_nat (length dst) →
  ∃ o l m c1 c2 d1,
    t_kfifo_copy_out (E := E) mask esize dst n (kf_out (ring s)) =
      (s1 ← access (Load o l); d1 ← lift (mem_write dst 0 s1);
       s2 ← access (Load 0 m); lift (mem_write d1 l s2)) ∧
    mem_write dst 0 c1 = Ok d1 ∧
    mem_write d1 l c2 =
      Ok (take (Z.to_nat (n * esize)) (contents (ring s)) ++ drop (Z.to_nat (n * esize)) dst) ∧
    ∀ s', ring_inv s' → reader_rely s s' →
      checked_perform E _ (Load o l) s' = Ok (c1, s') ∧ checked_perform E _ (Load 0 m) s' = Ok (c2, s').
Proof.
  intros Hs Hn Hdst. pose proof Hs as [Hwf Hm He _ _]. pose proof (wf_used _ Hwf).
  pose proof (capacity_le _ Hwf). pose proof (wf_out _ Hwf). pose proof (wf_esize _ Hwf).
  pose proof (byte_offset_lt (ring s) (kf_out (ring s)) Hwf) as Ho. pose proof (wf_bytes _ Hwf) as HB.
  destruct (oldest_chunks (ring s) n Hwf Hn) as (c1 & c2 & M1 & M2 & L1 & C & Hl).
  rewrite He in *.
  assert (t_kfifo_copy_out (E := E) mask esize dst n (kf_out (ring s)) =
    let o := kf_out (ring s) mod capacity (ring s) * esize in
    let l := min (n * esize) (capacity (ring s) * esize - o) in
    (s1 ← access (Load o l); d1 ← lift (mem_write dst 0 s1);
     s2 ← access (Load 0 (n * esize - l)); lift (mem_write d1 l s2))) as Eq.
  { unfold t_kfifo_copy_out. rewrite <- Hm, <- He at 1.
    change (copy_geometry (view _ _ 0 0) n (kf_out (ring s)))
      with (copy_geometry (ring s) n (kf_out (ring s))).
    rewrite copy_geometry_eq by (done || lia). cbv zeta. rewrite He in *.
    rewrite (u32_small (_ - kf_out (ring s) mod _ * _)) by lia. by rewrite u32_small by nia. }
  cbv zeta in Eq. set (o := kf_out (ring s) mod capacity (ring s) * esize) in *.
  set (l := min (n * esize) (capacity (ring s) * esize - o)) in *.
  assert (length c1 + length c2 = Z.to_nat (n * esize))%nat as Hlen.
  { rewrite <- length_app, C, length_take, length_contents, He. nia. }
  destruct (write_two dst c1 c2) as (d1 & W1 & W2); [lia|].
  rewrite L1, (assoc_L (++)), C, <- L1, Hlen, L1, Z2Nat.id in W2 by lia.
  exists o, l, (n * esize - l), c1, c2, d1. split; [done|]. split; [done|]. split; [done|].
  intros s' Hs' HR. pose proof Hs' as [Hwf' Hm' He' _ _].
  destruct (reader_contents s s' Hs Hs' HR) as [e Hc'].
  pose proof (length_held s Hs) as Hh. pose proof (length_held s' Hs') as Hh'.
  rewrite Hc', length_app in Hh'.
  destruct (oldest_chunks (ring s') n Hwf') as (c1' & c2' & M1' & M2' & L1' & C' & _); [nia|].
  rewrite He', (rr_out _ _ HR), (inv_capacity s' Hs'), <- (inv_capacity s Hs) in *. fold o l in M1', M2', L1'.
  rewrite Hc', take_app_le, <- C in C' by nia. apply app_inj_1 in C' as [-> ->]; [|congruence].
  destruct (chunk_positions (ring s) Hwf (kf_out (ring s)) (n * esize)) as [P1 P2]; [rewrite He; nia|].
  rewrite He in P1, P2. fold o l in P1, P2.
  assert (0 <= n <= used (ring s')) by nia.
  unfold checked_perform. rewrite !(loads_race_free (ring s') n); try done;
    rewrite ?He', ?(rr_out _ _ HR), ?(inv_capacity s' Hs'), <- ?(inv_capacity s Hs).
  - cbn [ring_perform]. by rewrite M1', M2'.
  - intros i Hi. exists (l + i). split; [lia|]. by apply P2.
  - intros i Hi. exists i. split; [lia|]. by apply P1.
Qed.

Lemma reader_used s s' :
  ring_inv s → ring_inv s' → reader_rely s s' → used (ring s) <= used (ring s').
Proof.
  intros Hs Hs' HR. destruct (reader_contents s s' Hs Hs' HR) as [e He].
  pose proof (length_held s Hs) as H1. pose proof (length_held s' Hs') as H2.
  rewrite He, length_app in H2. pose proof (esize_pos s Hs). nia.
Qed.

(** kfifo_out_peek by the reader: the oldest bytes of the ring as it was at the call. *)
Lemma kfifo_out_peek_safe s buf len (Q : list Z * Z → shared E → Prop) :
  ring_inv s → 0 <= len → len * esize <= Z.of_nat (length buf) →
  (∀ n s' bs, Z.min len (used (ring s)) <= n <= len → n <= used (ring s') → ring_inv s' →
     reader_rely s s' → bs = take (Z.to_nat (n * esize)) (contents (ring s')) →
     Q (bs ++ drop (Z.to_nat (n * esize)) buf, n) s') →
  safe_reader (t_kfifo_out_peek mask esize buf len) Q s.
Proof.
  intros Hs Hlen Hbuf HQ. unfold t_kfifo_out_peek.
  apply safe_bind, (safe_read _ _ _ _ _ (λ s, kf_in (ring s))); [apply _..|done|]. intros s1 s2 R1 J1 R2 J2.
  apply safe_bind, (safe_read _ _ _ _ _ (λ s, kf_out (ring s))); [apply _..|done|]. intros s3 s4 R3 J3 R4 J4.
  replace (kf_out (ring s3)) with (kf_out (ring s1)) by (destruct R2, R3; congruence).
  fold (used (ring s1)).
  set (n := if _ <? len then _ else len).
  pose proof (reader_used s s1 Hs J1 R1). pose proof (used_bound (ring s1)).
  assert (0 <= n <= used (ring s1) ∧ Z.min len (used (ring s)) <= n <= len) as Hn.
  { unfold n. destruct (Z.ltb_spec (used (ring s1)) len); lia. }
  clearbody n. apply safe_bind, (safe_read _ _ _ _ _ (λ s, kf_out (ring s))); [apply _..|done|].
  intros s5 s6 R5 J5 R6 J6. apply safe_bind; [apply _|].
  replace (kf_out (ring s5)) with (kf_out (ring s6)) by apply R6.
  assert (reader_rely s1 s6) as R16 by (by do 4 etrans). assert (reader_rely s s6) as R06 by (by etrans).
  pose proof (reader_used s1 s6 J1 J6 R16). pose proof (esize_pos s Hs).
  clear R2 R3 R4 R5 R6 J2 J3 J4 J5 s2 s3 s4 s5.
  destruct (reader_chunks s6 buf n J6) as (o & l & m & c1 & c2 & d1 & -> & W1 & W2 & Hload); [lia|nia|].
  apply safe_bind, safe_access; [apply _|]. intros s7 R7 J7.
  destruct (Hload s7 J7 R7) as [-> _]. eexists _, _. split; [reflexivity|]. split; [done|]. split; [done|].
  intros s8 R8 J8. rewrite W1. cbn [lift].
  apply safe_bind, safe_ret; [apply _|]. intros s9 R9 J9.
  apply safe_bind, safe_access; [apply _|]. intros s10 R10 J10.
  assert (reader_rely s6 s10) as R610 by (by do 4 etrans).
  destruct (Hload s10 J10 R610) as [_ ->]. eexists _, _. split; [reflexivity|]. split; [done|]. split; [done|].
  intros s11 R11 J11. rewrite W2. cbn [lift]. apply safe_ret. intros s12 R12 J12.
  apply safe_ret. intros s13 R13 J13.
  assert (reader_rely s6 s13) as R613 by (by do 4 etrans).
  pose proof (reader_used s6 s13 J6 J13 R613).
  destruct (reader_contents s6 s13 J6 J13 R613) as [e He].
  apply HQ; [lia|lia|done|by etrans|].
  pose proof (length_held s6 J6). rewrite He, take_app_le by nia. done.
Qed.

(** The out counter is advanced over bytes the ring holds. *)
Lemma consume_inv s n bs :
  ring_inv s → 0 <= n <= used (ring s) → bs = take (Z.to_nat (n * esize)) (contents (ring s)) →
  K (published s) (consumed s ++ bs) (said s) →
  ∃ s', ring_perform E _ (WriteOut (u32 (kf_out (ring s) + n))) s = Ok (tt, s') ∧
    writer_rely s s' ∧ ring_inv s' ∧ published s' = published s ∧
    consumed s' = consumed s ++ bs ∧ said s' = said s.
Proof.
  intros Hs Hn -> HK. pose proof Hs as [Hwf Hm He Hb _].
  pose proof (wf_out _ Hwf). pose proof (capacity_le _ Hwf). pose proof (wf_used _ Hwf).
  destruct (consume_spec (ring s) n Hwf Hn) as (W & C & _).
  cbn [ring_perform]. rewrite advance_wraps by lia. rewrite elements_out, He by done.
  eexists. split; [reflexivity|].
  split; [constructor; cbn; try done; by eexists|]. split; [|done].
  constructor; cbn [ring published consumed said]; try done.
  by rewrite C, He, <- (assoc_L (++)), take_drop.
Qed.

(** kfifo_skip_n, and the last lines of kfifo_out. *)
Lemma kfifo_skip_safe s n bs (Q : unit → shared E → Prop) :
  ring_inv s → 0 <= n <= used (ring s) → bs = take (Z.to_nat (n * esize)) (contents (ring s)) →
  (∀ pub sd, published s `prefix_of` pub → SC (said s) sd → K pub (consumed s) sd →
     K pub (consumed s ++ bs) sd) →
  (∀ s', ring_inv s' → published s `prefix_of` published s' → consumed s' = consumed s ++ bs →
     SC (said s) (said s') → Q tt s') →
  safe_reader (t_kfifo_skip_n n) Q s.
Proof.
  intros Hs Hn Hbs HK HQ. unfold t_kfifo_skip_n.
  apply safe_bind, (safe_read _ _ _ _ _ (λ s, kf_out (ring s))); [apply _..|done|]. intros s1 s2 R1 J1 R2 J2.
  apply safe_access. intros s3 R3 J3. assert (reader_rely s s3) as R03 by (by do 2 etrans).
  replace (kf_out (ring s1)) with (kf_out (ring s3)) by (destruct R2, R3; congruence).
  pose proof (reader_used s s3 Hs J3 R03). pose proof (length_held s Hs). pose proof (esize_pos s Hs).
  destruct (reader_contents s s3 Hs J3 R03) as [e He]. destruct R03 as [O3 P3 C3 S3].
  destruct (consume_inv s3 n bs) as (s4 & Ep & G4 & J4 & P4 & C4 & S4); [done|lia| | |].
  { by rewrite He, take_app_le by nia. }
  { rewrite C3. apply HK; [done..|]. rewrite <- C3. apply J3. }
  exists tt, s4. split; [done|]. split; [done|]. split; [done|]. intros s5 [O5 P5 C5 S5] J5.
  rewrite P4 in P5. rewrite S4 in S5. apply HQ; [done|by etrans|congruence|by etrans].
Qed.

Lemma held_bytes s : ring_inv s → contents (ring s) = drop (length (consumed s)) (published s).
Proof. intros Hs. by rewrite (inv_bytes s Hs), drop_app_length. Qed.

(** kfifo_out by the reader. *)
Lemma kfifo_out_safe s buf len (Q : list Z * Z → shared E → Prop) :
  ring_inv s → 0 <= len → len * esize <= Z.of_nat (length buf) →
  (∀ n pub sd, 0 <= n <= len → published s `prefix_of` pub → SC (said s) sd → K pub (consumed s) sd →
     Z.of_nat (length (consumed s)) + n * esize <= Z.of_nat (length pub) →
     K pub (consumed s ++ take (Z.to_nat (n * esize)) (drop (length (consumed s)) pub)) sd) →
  (∀ n s' bs, Z.min len (used (ring s)) <= n <= len → ring_inv s' →
     published s `prefix_of` published s' → SC (said s) (said s') →
     bs = take (Z.to_nat (n * esize)) (drop (length (consumed s)) (published s')) →
     Z.of_nat (length bs) = n * esize →
     consumed s' = consumed s ++ bs → Q (bs ++ drop (Z.to_nat (n * esize)) buf, n) s') →
  safe_reader (t_kfifo_out mask esize buf len) Q s.
Proof.
  intros Hs Hlen Hbuf HK HQ. pose proof (esize_pos s Hs). unfold t_kfifo_out.
  apply safe_bind, kfifo_out_peek_safe; [apply _|done..|].
  intros n s1 bs Hn Hu J1 R1 Hbs. pose proof R1 as [O1 P1 C1 S1]. pose proof (used_bound (ring s)).
  change (safe_reader (t_kfifo_skip_n n;; mret (bs ++ drop (Z.to_nat (n * esize)) buf, n)) Q s1).
  pose proof (length_held s1 J1) as Hheld. pose proof (held_bytes s1 J1) as Hh. rewrite C1 in Hh.
  assert (length (consumed s) + length (contents (ring s1)) = length (published s1))%nat as Hlp.
  { by rewrite (inv_bytes s1 J1), C1, length_app. }
  assert (Hdrop : ∀ pub, published s1 `prefix_of` pub →
    bs = take (Z.to_nat (n * esize)) (drop (length (consumed s)) pub)).
  { intros pub [e ->]. rewrite Hbs, Hh, drop_app_le, take_app_le; [done| |lia]. rewrite length_drop. nia. }
  apply safe_bind, (kfifo_skip_safe s1 n bs); [apply _|done|lia|done| |].
  - rewrite C1. intros pub sd Hp Hsd HKs. rewrite (Hdrop pub Hp).
    apply HK; [lia|by etrans|by etrans|done|]. destruct Hp as [e ->]. rewrite length_app. nia.
  - intros s2 J2 P2 C2 S2. apply safe_ret. intros s3 [O3 P3 C3 S3] J3. rewrite C1 in C2.
    assert (published s1 `prefix_of` published s3) by (by etrans).
    apply HQ; [lia|done|by etrans| |by apply Hdrop| |congruence].
    + etrans; [done|]. by etrans.
    + rewrite Hbs, length_take, Nat.min_l; nia.
Qed.

Lemma kfifo_len_safe s (Q : Z → shared E → Prop) :
  (∀ s1 s2, reader_rely s s1 → ring_inv s1 → reader_rely s1 s2 → ring_inv s2 → Q (used (ring s1)) s2) →
  safe_reader (t_kfifo_len mask esize) Q s.
Proof.
  intros HQ. unfold t_kfifo_len.
  apply safe_bind, (safe_read _ _ _ _ _ (λ s, kf_in (ring s))); [apply _..|done|]. intros s1 s2 R1 J1 R2 J2.
  apply safe_bind, (safe_read _ _ _ _ _ (λ s, kf_out (ring s))); [apply _..|done|]. intros s3 s4 R3 J3 R4 J4.
  apply safe_ret. intros s5 R5 J5.
  replace (kf_out (ring s3)) with (kf_out (ring s1)) by (destruct R2, R3; congruence).
  apply HQ; [done..| |done]. by do 3 (etrans; [eassumption|]).
Qed.

Lemma kfifo_avail_safe s (Q : Z → shared E → Prop) :
  (∀ s1 s2, writer_rely s s1 → ring_inv s1 → writer_rely s1 s2 → ring_inv s2 →
     Q (capacity (ring s1) - used (ring s1)) s2) →
  safe_writer (t_kfifo_avail mask esize) Q s.
Proof.
  intros HQ. unfold t_kfifo_avail.
  apply safe_bind, (safe_read _ _ _ _ _ (λ s, kf_in (ring s))); [apply _..|done|]. intros s1 s2 R1 J1 R2 J2.
  apply safe_bind, (safe_read _ _ _ _ _ (λ s, kf_out (ring s))); [apply _..|done|]. intros s3 s4 R3 J3 R4 J4.
  apply safe_ret. intros s5 R5 J5.
  replace (kf_in (ring s1)) with (kf_in (ring s3)) by (destruct R2, R3; congruence).
  replace (kfifo_avail 0 _) with (capacity (ring s3) - used (ring s3)).
  - apply HQ; [by do 2 etrans|done|by etrans|done].
  - rewrite <- kfifo_avail_plain by apply J3. unfold kfifo_avail, kfifo_size.
    cbn [view kf_mask kf_in kf_out]. by rewrite (inv_mask s3 J3).
Qed.

(** Lines handed to spdlog. *)
Lemma writer_say s e (Q : unit → shared E → Prop) :
  (∀ s1, writer_rely s s1 → ring_inv s1 →
     K (published s1) (consumed s1) (said s1 ++ [e]) ∧ SC (said s1) (said s1 ++ [e]) ∧
     ∀ s2, ring_inv s2 → published s2 = published s1 → consumed s1 `prefix_of` consumed s2 →
       SP (said s1 ++ [e]) (said s2) → Q tt s2) →
  safe_writer (access (Say e)) Q s.
Proof.
  intros H. apply safe_access. intros s1 R1 J1. destruct (H s1 R1 J1) as (HK & HS & HQ).
  eexists _, _. split; [reflexivity|]. split; [by constructor|]. split; [by destruct J1|].
  intros s2 [_ _ P2 C2 S2] J2. by apply HQ.
Qed.

Lemma reader_say s e (Q : unit → shared E → Prop) :
  (∀ s1, reader_rely s s1 → ring_inv s1 →
     K (published s1) (consumed s1) (said s1 ++ [e]) ∧ SP (said s1) (said s1 ++ [e]) ∧
     ∀ s2, ring_inv s2 → published s1 `prefix_of` published s2 → consumed s2 = consumed s1 →
       SC (said s1 ++ [e]) (said s2) → Q tt s2) →
  safe_reader (access (Say e)) Q s.
Proof.
  intros H. apply safe_access. intros s1 R1 J1. destruct (H s1 R1 J1) as (HK & HS & HQ).
  eexists _, _. split; [reflexivity|]. split; [by constructor|]. split; [by destruct J1|].
  intros s2 [_ P2 C2 S2] J2. by apply HQ.
Qed.

Lemma reader_quit s (Q : unit → shared E → Prop) :
  (∀ s1, reader_rely s s1 → ring_inv s1 → Q tt s1) → safe_reader (access Quit) Q s.
Proof.
  intros HQ. apply safe_access. intros s1 R1 J1.
  eexists _, _. split; [reflexivity|]. split; [by constructor|]. split; [by destruct J1|].
  intros s2 [O2 P2 C2 S2] J2. apply HQ; [|done]. etrans; [done|]. by constructor.
Qed.
End Sides.

(** ** A writer and a reader *)

Section Clients.
Context {E : Type} (mask esize : Z).

(** The writer calls kfifo_in for each buffer with a count; the reader kfifo_out. *)
Fixpoint t_write_all (calls : list (list Z * Z)) : prog (ring_access E) (list Z) :=
  match calls with
  | [] => mret []
  | (buf, len) :: calls =>
      n ← t_kfifo_in mask esize buf len;
      ns ← t_write_all calls;
      mret (n :: ns)
  end.

Fixpoint t_read_all (calls : list (list Z * Z)) : prog (ring_access E) (list (list Z)) :=
  match calls with
  | [] => mret []
  | (buf, len) :: calls =>
      '(buf, n) ← t_kfifo_out mask esize buf len;
      bss ← t_read_all calls;
      mret (take (Z.to_nat (n * esize)) buf :: bss)
  end.

(** The count fits in the caller's buffer. *)
Definition call_ok (c : list Z * Z) : Prop := 0 <= c.2 ∧ c.2 * esize <= Z.of_nat (length c.1).

(** What the writer has handed over. *)
Definition written (calls : list (list Z * Z)) (ns : list Z) : list Z :=
  concat (zip_with (λ c n, take (Z.to_nat (n * esize)) c.1) calls ns).

Abbreviation inv := (ring_inv mask esize (λ _ _ _, True)).
Abbreviation wrely := (writer_rely (E := E) eq).
Abbreviation rrely := (reader_rely (E := E) eq).

Lemma write_all_safe calls s :
  inv s → Forall call_ok calls →
  safe (checked_perform E) inv wrely rrely (t_write_all calls)
    (λ ns s', length ns = length calls ∧ Forall2 (λ n c, n <= c.2) ns calls ∧
      published s' = published s ++ written calls ns) s.
Proof.
  intros Hs Hcalls. revert s Hs. induction Hcalls as [|[buf len] calls [Hlen Hbuf] _ IH]; intros s Hs;
    cbn [t_write_all].
  - apply safe_ret. intros s1 [_ _ P1 _ _] J1. split; [done|]. split; [done|].
    by rewrite P1, app_nil_r.
  - apply safe_bind, (kfifo_in_safe mask esize (λ _ _ _, True) eq eq); [apply _|done..|].
    intros n s1 Hn J1 P1 _ _. apply safe_bind; [apply _|].
    eapply safe_mono; [|by apply IH]. cbn beta. intros ns s2 J2 (Hl & Hle & P2).
    apply safe_ret. intros s3 [_ _ P3 _ _] J3. cbn in Hn.
    split; [cbn; lia|]. split; [constructor; [cbn; lia|done]|].
    rewrite P3, P2, P1, <- (assoc_L (++)). done.
Qed.

Lemma read_all_safe calls s :
  inv s → Forall call_ok calls →
  safe (checked_perform E) inv rrely wrely (t_read_all calls)
    (λ bss s', length bss = length calls ∧ consumed s' = consumed s ++ concat bss) s.
Proof.
  intros Hs Hcalls. revert s Hs. induction Hcalls as [|[buf len] calls [Hlen Hbuf] _ IH]; intros s Hs;
    cbn [t_read_all].
  - apply safe_ret. intros s1 [_ _ C1 _] J1. split; [done|]. by rewrite C1, app_nil_r.
  - apply safe_bind, (kfifo_out_safe mask esize (λ _ _ _, True) eq eq); [apply _|done..|].
    intros n s1 bs Hn J1 P1 _ Hbs Hl C1. apply safe_bind; [apply _|].
    eapply safe_mono; [|by apply IH]. cbn beta. intros bss s2 J2 (Hl2 & C2).
    apply safe_ret. intros s3 [_ _ C3 _] J3. split; [cbn; lia|].
    rewrite C3, C2, C1. cbn [concat]. rewrite take_app_length' by lia. by rewrite (assoc_L (++)).
Qed.

Lemma kfifo_in_ends buf len : ends_within 7 (t_kfifo_in (E := E) mask esize buf len).
Proof.
  unfold t_kfifo_in, t_kfifo_copy_in. cbn. intros in_ out off.
  destruct (copy_geometry _ _ _) as [[o size] n]. cbn.
  destruct (mem_read buf 0 _); [|done]. cbn. intros _. destruct (mem_read buf _ _); done.
Qed.

Lemma kfifo_out_peek_ends buf len : ends_within 5 (t_kfifo_out_peek (E := E) mask esize buf len).
Proof.
  unfold t_kfifo_out_peek, t_kfifo_copy_out. cbn. intros in_ out off.
  destruct (copy_geometry _ _ _) as [[o size] n]. cbn. intros c1.
  destruct (mem_write buf 0 _); [|done]. cbn. intros c2. destruct (mem_write _ _ _); done.
Qed.

Lemma kfifo_out_ends buf len : ends_within 7 (t_kfifo_out (E := E) mask esize buf len).
Proof. refine (ends_bind _ _ 2 _ 5 _); [by intros [b n]|apply kfifo_out_peek_ends]. Qed.

Lemma write_all_ends calls : ends_within (7 * length calls) (t_write_all calls).
Proof.
  induction calls as [|[buf len] calls IH]; [done|]. cbn [t_write_all].
  replace (7 * length ((buf, len) :: calls))%nat with (7 + (7 * length calls + 0))%nat by (cbn; lia).
  apply ends_bind; [|apply kfifo_in_ends]. intros n. apply ends_bind; [done|apply IH].
Qed.

Lemma read_all_ends calls : ends_within (7 * length calls) (t_read_all calls).
Proof.
  induction calls as [|[buf len] calls IH]; [done|]. cbn [t_read_all].
  replace (7 * length ((buf, len) :: calls))%nat with (7 + (7 * length calls + 0))%nat by (cbn; lia).
  apply ends_bind; [|apply kfifo_out_ends]. intros [b n]. apply ends_bind; [done|apply IH].
Qed.

End Clients.

(** C2: a writer calling kfifo_in and a reader calling kfifo_out on one ring without a
    lock, their accesses interleaved by any schedule: no access faults or touches a byte
    the other thread may be touching; the bytes the reader gets are the bytes the writer
    handed over, in order, those still in the ring are the rest; and each call ends after
    seven accesses of its own, whatever the other thread does. *)
Theorem kfifo_two_threads f ins outs sched :
  wf_kfifo f → Forall (call_ok (kf_esize f)) ins → Forall (call_ok (kf_esize f)) outs →
  ∃ p q s,
    run (checked_perform unit) (λ _, false) sched
      (t_write_all (kf_mask f) (kf_esize f) ins) (t_read_all (kf_mask f) (kf_esize f) outs)
      (mk_shared f [] false (contents f) []) = Ok (p, q, s) ∧
    wf_kfifo (ring s) ∧ published s = consumed s ++ contents (ring s) ∧
    ((7 * length ins <= turns true sched)%nat →
      ∃ ns, p = Ret ns ∧ Forall2 (λ n c, n <= c.2) ns ins ∧
        published s = contents f ++ written (kf_esize f) ins ns) ∧
    ((7 * length outs <= turns false sched)%nat → ∃ bss, q = Ret bss ∧ consumed s = concat bss).
Proof.
  intros Hwf Hins Houts. set (s0 := mk_shared f [] false (contents f) []).
  assert (ring_inv (kf_mask f) (kf_esize f) (λ _ _ _, True) s0) as J0 by (by constructor).
  destruct (run_safe (checked_perform unit) (λ _, false) _ _ _ _ _ _ _ sched (λ s s' H, H) (λ s s' H, H)
    _ _ s0 J0 (write_all_safe _ _ ins s0 J0 Hins) (read_all_safe _ _ outs s0 J0 Houts))
    as (p & q & s & Hrun & J & Hp & Hq).
  destruct (run_ends _ _ _ _ _ _ _ _ _ _ _ Hrun (write_all_ends _ _ ins) (read_all_ends _ _ outs))
    as [[|Ep] [|Eq]]; try done.
  exists p, q, s. split; [done|]. split; [apply J|]. split; [apply J|]. split; intros Hturns.
  - destruct (safe_ended _ _ _ _ _ _ _ J Hp (Ep Hturns)) as (ns & -> & _ & Hle & HP). by exists ns.
  - destruct (safe_ended _ _ _ _ _ _ _ J Hq (Eq Hturns)) as (bss & -> & _ & HC). by exists bss.
Qed.

Definition two_threads_sched : list bool :=
  concat (replicate 7 [true; true; false]) ++ replicate 7 false.

(** The ring of four bytes with its counters about to wrap around. *)
Lemma kfifo_two_threads_witness :
  ∃ p q s,
    run (checked_perform unit) (λ _, false) two_threads_sched
      (t_write_all 3 1 [([1; 2; 3], 3); ([4; 5], 2)]) (t_read_all 3 1 [([0; 0], 2); ([0; 0], 2)])
      (mk_shared demo_fifo [] false [] []) = Ok (p, q, s) ∧
    ∃ ns bss, p = Ret ns ∧ q = Ret bss ∧
      written 1 [([1; 2; 3], 3); ([4; 5], 2)] ns = concat bss ++ contents (ring s).
Proof.
  destruct (kfifo_two_threads demo_fifo [([1; 2; 3], 3); ([4; 5], 2)] [([0; 0], 2); ([0; 0], 2)]
    two_threads_sched) as (p & q & s & Hrun & _ & Hb & Hp & Hq).
  - exact demo_fifo_wf.
  - repeat constructor; vm_compute; done.
  - repeat constructor; vm_compute; done.
  - destruct (Hp ltac:(vm_compute; lia)) as (ns & Ep & _ & HP).
    destruct (Hq ltac:(vm_compute; lia)) as (bss & Eq & HC).
    exists p, q, s. split; [exact Hrun|]. exists ns, bss. split; [done|]. split; [done|].
    rewrite HC, HP in Hb. exact Hb.
Defined.
