(* ===== verification/Spinlock.v ===== *)
(** * Spinlocks (src/common/utils/spinlock.h)

    The lock word and its four operations, seen by the one thread whose calls
    a definition follows: [spinlock_lock] on a word that is already set spins
    for ever unless another thread releases it, so taking a lock the thread
    holds itself is the fault [Deadlock]. *)

From S2P Require Import Prelude.

Record spinlock := mk_spinlock { lock : Z }.

Definition spinlock_init : spinlock := mk_spinlock 0.

(** __sync_lock_test_and_set: the old value, and the word set. *)
Definition test_and_set (l : spinlock) : Z * spinlock := (lock l, mk_spinlock 1).

Definition spinlock_lock (l : spinlock) : res spinlock :=
  let '(old, l) := test_and_set l in
  if old =? 0 then Ok l else Fault Deadlock.

Definition spinlock_trylock (l : spinlock) : bool * spinlock :=
  let '(old, l) := test_and_set l in (old =? 0, l).

Definition spinlock_unlock (l : spinlock) : spinlock := mk_spinlock 0.

(** The lock is free. *)
Definition unlocked (l : spinlock) : Prop := l = spinlock_init.
Definition locked (l : spinlock) : Prop := l = mk_spinlock 1.

Lemma spinlock_lock_free l : unlocked l → spinlock_lock l = Ok (mk_spinlock 1).
Proof. by intros ->. Qed.

Lemma spinlock_lock_held l : locked l → spinlock_lock l = Fault Deadlock.
Proof. by intros ->. Qed.

(** ** Many threads

    Any number of threads use one lock; where each one is: outside, in the loop of
    [spinlock_lock], or between its return (or a successful [spinlock_trylock]) and
    [spinlock_unlock]. *)

Inductive place := Outside | Spinning | Inside.

#[export] Instance place_eq_dec : EqDecision place.
Proof. solve_decision. Defined.

Abbreviation lock_state := (spinlock * list place)%type.

(** Each step is one atomic operation of one thread. *)
Inductive lock_step : lock_state → lock_state → Prop :=
| step_call l ps i :
    ps !! i = Some Outside → lock_step (l, ps) (l, <[i := Spinning]> ps)
| step_spin l ps i :
    ps !! i = Some Spinning →
    lock_step (l, ps)
      ((test_and_set l).2, <[i := if (test_and_set l).1 =? 0 then Inside else Spinning]> ps)
| step_try l ps i :
    ps !! i = Some Outside →
    lock_step (l, ps)
      ((spinlock_trylock l).2, <[i := if (spinlock_trylock l).1 then Inside else Outside]> ps)
| step_unlock l ps i :
    ps !! i = Some Inside → lock_step (l, ps) (spinlock_unlock l, <[i := Outside]> ps).

(** The lock word says whether there is a thread inside, and there is at most one. *)
Definition lock_inv (st : lock_state) : Prop :=
  (st.1 = mk_spinlock 0 ∧ ∀ i, st.2 !! i ≠ Some Inside) ∨
  (st.1 = mk_spinlock 1 ∧ ∃ i, st.2 !! i = Some Inside ∧ ∀ j, st.2 !! j = Some Inside → j = i).

Lemma insert_other_inside (ps : list place) i p j :
  p ≠ Inside → <[i := p]> ps !! j = Some Inside → ps !! j = Some Inside ∧ j ≠ i.
Proof.
  intros Hp. destruct (decide (j = i)) as [->|Hne].
  - intros Hj. exfalso. apply Hp.
    destruct (decide (i < length ps)%nat).
    + rewrite list_lookup_insert_eq in Hj by done. congruence.
    + rewrite list_insert_ge, lookup_ge_None_2 in Hj by lia. done.
  - by rewrite list_lookup_insert_ne by done.
Qed.

Lemma enter_inv l ps i p :
  lock_inv (l, ps) → ps !! i = Some p → p ≠ Inside → ∀ p', p' ≠ Inside →
  lock_inv (mk_spinlock 1, <[i := if lock l =? 0 then Inside else p']> ps).
Proof.
  intros [[Hl Hno]|[Hl (k & Hk & Huniq)]] Hi Hp p' Hp'; cbn in *; subst l; right; (split; [done|]); cbn.
  - exists i. pose proof (lookup_lt_Some _ _ _ Hi). split; [by apply list_lookup_insert_eq|].
    intros j Hj. destruct (decide (j = i)) as [|Hne]; [done|].
    rewrite list_lookup_insert_ne in Hj by done. by destruct (Hno j).
  - exists k. assert (i ≠ k) by congruence. rewrite list_lookup_insert_ne by done. split; [done|].
    intros j Hj. apply insert_other_inside in Hj as [Hj _]; [by apply Huniq|done].
Qed.

Lemma leave_inv l ps i p :
  lock_inv (l, ps) → ps !! i ≠ Some Inside → p ≠ Inside → lock_inv (l, <[i := p]> ps).
Proof.
  intros [[Hl Hno]|[Hl (k & Hk & Huniq)]] Hi Hp; cbn in *; subst l; [left|right]; (split; [done|]); cbn.
  - intros j Hj. apply insert_other_inside in Hj as [Hj _]; [by apply (Hno j)|done].
  - exists k. assert (i ≠ k) by congruence. rewrite list_lookup_insert_ne by done. split; [done|].
    intros j Hj. apply insert_other_inside in Hj as [Hj _]; [by apply Huniq|done].
Qed.

Lemma lock_step_inv st st' : lock_step st st' → lock_inv st → lock_inv st'.
Proof.
  intros [l ps i Hi|l ps i Hi|l ps i Hi|l ps i Hi] Hinv.
  - apply leave_inv; [done|congruence|done].
  - by eapply enter_inv.
  - unfold spinlock_trylock, test_and_set. cbn [fst snd]. by eapply enter_inv.
  - left. split; [done|]. cbn. intros j Hj. apply insert_other_inside in Hj as [Hj Hne]; [|done].
    destruct Hinv as [[_ Hno]|[_ (k & _ & Huniq)]]; cbn in *; [by apply (Hno j)|].
    apply Hne. by rewrite (Huniq j Hj), (Huniq i Hi).
Qed.

Lemma lock_run_inv st st' : rtc lock_step st st' → lock_inv st → lock_inv st'.
Proof. induction 1 as [|st st1 st2 H1 _ IH]; [done|]. intros Hinv. by eapply IH, lock_step_inv. Qed.

(** C28: however the threads are scheduled, at most one of them is between taking the lock
    and releasing it; the lock word is 0 or 1, and it is 1 exactly while a thread is inside;
    and the lock is not lost: while nobody is inside, any spinning thread that moves gets
    in. *)
Theorem spinlock_mutual_exclusion n st :
  rtc lock_step (spinlock_init, replicate n Outside) st →
  (∀ i j, st.2 !! i = Some Inside → st.2 !! j = Some Inside → i = j) ∧
  (lock st.1 = 0 ∨ lock st.1 = 1) ∧ (lock st.1 = 1 ↔ ∃ i, st.2 !! i = Some Inside) ∧
  ((∀ i, st.2 !! i ≠ Some Inside) → ∀ i, st.2 !! i = Some Spinning →
     lock_step st (mk_spinlock 1, <[i := Inside]> st.2)).
Proof.
  intros Hrun. assert (lock_inv st) as Hinv.
  { apply (lock_run_inv _ _ Hrun).
    left. split; [done|]. cbn. intros i Hi. by apply lookup_replicate in Hi as []. }
  destruct st as [l ps]. destruct Hinv as [[Hl Hno]|[Hl (k & Hk & Huniq)]]; cbn in *; subst l; cbn; split_and!.
  - intros i j Hi. by destruct (Hno i).
  - by left.
  - split; [done|]. intros [i Hi]. by destruct (Hno i).
  - intros _ i Hi. exact (step_spin (mk_spinlock 0) ps i Hi).
  - intros i j Hi Hj. by rewrite (Huniq i Hi), (Huniq j Hj).
  - by right.
  - split; [by exists k|done].
  - intros Hno. by destruct (Hno k).
Qed.

(** Two threads: the first gets in, the second spins until the first leaves. *)
Lemma spinlock_mutual_exclusion_witness :
  lock_step (spinlock_init, [Outside; Spinning]) (mk_spinlock 1, [Outside; Inside]).
Proof.
  apply (proj2 (proj2 (proj2 (spinlock_mutual_exclusion 2 (spinlock_init, [Outside; Spinning])
    ltac:(eapply rtc_l; [exact (step_try spinlock_init [Outside; Outside] 0 eq_refl)|];
          eapply rtc_l; [exact (step_call (mk_spinlock 1) [Inside; Outside] 1 eq_refl)|];
          eapply rtc_l; [exact (step_spin (mk_spinlock 1) [Inside; Spinning] 1 eq_refl)|];
          eapply rtc_l; [exact (step_unlock (mk_spinlock 1) [Inside; Spinning] 0 eq_refl)|];
          apply rtc_refl))))
    ltac:(by intros [|[|[|i]]]) 1%nat eq_refl).
Defined.
