(* ===== verification/TimerWheel.v ===== *)
(** * The hierarchical timing wheel (src/common/timer.cpp, lines 39 to 220)

    [timer] is the struct with its 256 near buckets and four levels of 64; a
    bucket is the list of its nodes in link order.  Nodes carry an arbitrary
    payload, as [timer_add] copies [sz] bytes of it.  The theorems show that
    the wheel refines a flat list of pending nodes: every node is dispatched
    at exactly the tick it is due, nodes due at the same tick in the order in
    which they were added, across all level boundaries and the wrap-around of
    the 32-bit clock. *)

From S2P Require Import Prelude Spinlock.

Open Scope cint_scope.

Definition TIME_NEAR_SHIFT : Z := 8.
Definition TIME_NEAR : Z := 1 .<< TIME_NEAR_SHIFT.
Definition TIME_LEVEL_SHIFT : Z := 6.
Definition TIME_LEVEL : Z := 1 .<< TIME_LEVEL_SHIFT.
Definition TIME_NEAR_MASK : Z := TIME_NEAR - 1.
Definition TIME_LEVEL_MASK : Z := TIME_LEVEL - 1.

(** struct timer_node: the expiry and the payload stored behind it. *)
Record timer_node (A : Type) := mk_node { expire : Z; arg : A }.
Arguments mk_node {A}.
Arguments expire {A}.
Arguments arg {A}.

(** struct timer; a struct link_list is the list of its nodes from head to
    tail. *)
Record timer (A : Type) := mk_timer {
  near : list (list (timer_node A));
  t : list (list (list (timer_node A)));
  tlock : spinlock;
  time : Z;
  starttime : Z;
  current : Z;
  current_point : Z
}.
Arguments mk_timer {A}.
Arguments near {A}.
Arguments t {A}.
Arguments tlock {A}.
Arguments time {A}.
Arguments starttime {A}.
Arguments current {A}.
Arguments current_point {A}.

Section Wheel.
Context {A : Type}.
Implicit Types (T : timer A) (n : timer_node A).

(** ** Buckets: [near[j]] and [t[i][j]] *)

Inductive bucket := Near (j : nat) | Lvl (i j : nat).

Definition nodes_in T (b : bucket) : list (timer_node A) :=
  match b with
  | Near j => near T !!! j
  | Lvl i j => (t T !!! i) !!! j
  end.

Definition put T (b : bucket) (l : list (timer_node A)) : timer A :=
  match b with
  | Near j =>
      mk_timer (<[j := l]> (near T)) (t T) (tlock T) (time T) (starttime T)
        (current T) (current_point T)
  | Lvl i j =>
      mk_timer (near T) (<[i := <[j := l]> (t T !!! i)]> (t T)) (tlock T) (time T)
        (starttime T) (current T) (current_point T)
  end.

Definition set_time T (v : Z) : timer A :=
  mk_timer (near T) (t T) (tlock T) v (starttime T) (current T) (current_point T).
Definition set_tlock T (l : spinlock) : timer A :=
  mk_timer (near T) (t T) l (time T) (starttime T) (current T) (current_point T).

(** ** Operations *)

(** Unhook the whole list: the old chain and the emptied list. *)
Definition link_clear T (b : bucket) : list (timer_node A) * timer A :=
  (nodes_in T b, put T b []).

(** Append at the tail. *)
Definition link T (b : bucket) n : timer A := put T b (nodes_in T b ++ [n]).

(** The loop of add_node: the first level [i < 3] whose block contains both
    times, else 3. *)
Fixpoint find_level (rounds : nat) (i mask time current_time : Z) : Z :=
  match rounds with
  | O => i
  | S rounds =>
      if (time .| (mask - 1)) =? (current_time .| (mask - 1)) then i
      else find_level rounds (i + 1) (u32 (mask .<< TIME_LEVEL_SHIFT)) time current_time
  end.

Definition add_node T n : timer A :=
  let time := expire n in
  let current_time := TimerWheel.time T in
  if (time .| TIME_NEAR_MASK) =? (current_time .| TIME_NEAR_MASK)
  then link T (Near (Z.to_nat (time .& TIME_NEAR_MASK))) n
  else
    let i := find_level 3 0 (TIME_NEAR .<< TIME_LEVEL_SHIFT) time current_time in
    link T (Lvl (Z.to_nat i)
      (Z.to_nat ((time .>> (TIME_NEAR_SHIFT + i * TIME_LEVEL_SHIFT)) .& TIME_LEVEL_MASK))) n.

Definition timer_add T (arg : A) (time : Z) : res (timer A) :=
  l ← spinlock_lock (tlock T);
  let T := set_tlock T l in
  let node := mk_node (u32 (time + TimerWheel.time T)) arg in
  let T := add_node T node in
  Ok (set_tlock T (spinlock_unlock (tlock T))).

Definition move_list T (level idx : Z) : timer A :=
  let '(current, T) := link_clear T (Lvl (Z.to_nat level) (Z.to_nat idx)) in
  fold_left add_node current T.

Definition timer_create_timer : timer A :=
  mk_timer (replicate (Z.to_nat TIME_NEAR) [])
    (replicate 4 (replicate (Z.to_nat TIME_LEVEL) [])) spinlock_init 0 0 0 0.

(** The while loop of timer_shift.  Its [mask] is an int, which the shift
    would overflow on the fifth round. *)
Fixpoint shift_loop (fuel : nat) T (ct mask time i : Z) : res (timer A) :=
  match fuel with
  | O => Fault OutOfFuel
  | S fuel =>
      if (ct .& (mask - 1)) =? 0 then
        let idx := time .& TIME_LEVEL_MASK in
        if negb (idx =? 0) then Ok (move_list T i idx)
        else shift_loop fuel T ct (i32 (mask .<< TIME_LEVEL_SHIFT))
               (time .>> TIME_LEVEL_SHIFT) (i + 1)
      else Ok T
  end.

Definition timer_shift T : res (timer A) :=
  let mask := TIME_NEAR in
  let ct := u32 (time T + 1) in
  let T := set_time T ct in
  if ct =? 0 then Ok (move_list T 3 0)
  else shift_loop 4 T ct mask (ct .>> TIME_NEAR_SHIFT) 0.

(** ** Dispatch

    [St] is the state of the GameTimer around the wheel and [TimerTimeout] its
    handler; the wheel is not locked while the handler runs. *)

Context {St : Type} (TimerTimeout : A → St → res St).

(** The do-while loop; the chain passed is never empty. *)
Fixpoint dispatch_list (current : list (timer_node A)) (s : St) : res St :=
  match current with
  | [] => Fault Undefined
  | [n] => TimerTimeout (arg n) s
  | n :: current => s ← TimerTimeout (arg n) s; dispatch_list current s
  end.

Fixpoint execute_loop (fuel : nat) (idx : Z) T (s : St) : res (timer A * St) :=
  match nodes_in T (Near (Z.to_nat idx)) with
  | [] => Ok (T, s)
  | _ =>
      match fuel with
      | O => Fault OutOfFuel
      | S fuel =>
          let '(current, T) := link_clear T (Near (Z.to_nat idx)) in
          let T := set_tlock T (spinlock_unlock (tlock T)) in
          s ← dispatch_list current s;
          l ← spinlock_lock (tlock T);
          execute_loop fuel idx (set_tlock T l) s
      end
  end.

Definition timer_execute T (s : St) : res (timer A * St) :=
  execute_loop 1 (time T .& TIME_NEAR_MASK) T s.

Definition timer_update T (s : St) : res (timer A * St) :=
  l ← spinlock_lock (tlock T);
  '(T, s) ← timer_execute (set_tlock T l) s;
  T ← timer_shift T;
  '(T, s) ← timer_execute T s;
  Ok (set_tlock T (spinlock_unlock (tlock T)), s).

End Wheel.

(** ** Where a node belongs

    [slot e c] is the bucket of a node that expires at [e] when the clock
    shows [c]: the smallest block of the hierarchy that contains both. *)

Definition slot (e c : Z) : bucket :=
  if decide (e / 2 ^ 8 = c / 2 ^ 8) then Near (Z.to_nat (e mod 2 ^ 8))
  else if decide (e / 2 ^ 14 = c / 2 ^ 14) then Lvl 0 (Z.to_nat (e / 2 ^ 8 mod 2 ^ 6))
  else if decide (e / 2 ^ 20 = c / 2 ^ 20) then Lvl 1 (Z.to_nat (e / 2 ^ 14 mod 2 ^ 6))
  else if decide (e / 2 ^ 26 = c / 2 ^ 26) then Lvl 2 (Z.to_nat (e / 2 ^ 20 mod 2 ^ 6))
  else Lvl 3 (Z.to_nat (e / 2 ^ 26 mod 2 ^ 6)).

(** The bucket that timer_shift redistributes when the clock becomes [ct]. *)
Definition moved (ct : Z) : option bucket :=
  if decide (ct = 0) then Some (Lvl 3 0)
  else if decide (ct mod 2 ^ 8 ≠ 0) then None
  else if decide (ct / 2 ^ 8 mod 2 ^ 6 ≠ 0) then Some (Lvl 0 (Z.to_nat (ct / 2 ^ 8 mod 2 ^ 6)))
  else if decide (ct / 2 ^ 14 mod 2 ^ 6 ≠ 0) then Some (Lvl 1 (Z.to_nat (ct / 2 ^ 14 mod 2 ^ 6)))
  else if decide (ct / 2 ^ 20 mod 2 ^ 6 ≠ 0) then Some (Lvl 2 (Z.to_nat (ct / 2 ^ 20 mod 2 ^ 6)))
  else Some (Lvl 3 (Z.to_nat (ct / 2 ^ 26 mod 2 ^ 6))).

(** Ticks left until [e]. *)
Definition remaining (e c : Z) : Z := u32 (e - c).

(** Nodes are at most 2^31 ticks ahead: the delay of timer_add is an int. *)
Definition HORIZON : Z := 2147483648.
Definition ahead (e c : Z) : Prop := 0 <= e < 4294967296 ∧ remaining e c < HORIZON.

#[export] Instance bucket_eq_dec : EqDecision bucket.
Proof. solve_decision. Defined.

(** Two numbers agree above bit [k] when setting their low [k] bits makes them
    equal. *)
Lemma lor_mask_eq x y k :
  0 <= k → (x .| (2 ^ k - 1)) = (y .| (2 ^ k - 1)) ↔ x / 2 ^ k = y / 2 ^ k.
Proof.
  intros Hk. rewrite <- !Z.shiftr_div_pow2 by done.
  replace (2 ^ k - 1) with (Z.ones k) by (rewrite Z.ones_equiv; lia). split; intros E.
  - apply (f_equal (fun z => Z.shiftr z k)) in E. rewrite !Z.shiftr_lor in E.
    assert (Z.shiftr (Z.ones k) k = 0) as E0.
    { apply Z.bits_inj'. intros i Hi. rewrite Z.shiftr_spec, Z.bits_0 by done.
      apply Z.ones_spec_high. lia. }
    by rewrite E0, !Z.lor_0_r in E.
  - apply Z.bits_inj'. intros i Hi. rewrite !Z.lor_spec.
    destruct (decide (i < k)).
    + rewrite Z.ones_spec_low by lia. by rewrite !orb_true_r.
    + f_equal. apply (f_equal (fun z => Z.testbit z (i - k))) in E.
      rewrite !Z.shiftr_spec, !Z.sub_add in E by lia. done.
Qed.

Lemma lor_mask_eqb x y k :
  0 <= k → ((x .| (2 ^ k - 1)) =? (y .| (2 ^ k - 1))) = bool_decide (x / 2 ^ k = y / 2 ^ k).
Proof.
  intros Hk. apply Bool.eq_iff_eq_true. rewrite Z.eqb_eq, bool_decide_eq_true.
  by apply lor_mask_eq.
Qed.

Lemma shiftr_land_mask x k l :
  0 <= k → 0 <= l → ((x .>> k) .& (2 ^ l - 1)) = x / 2 ^ k mod 2 ^ l.
Proof. intros. rewrite land_mask by done. by rewrite Z.shiftr_div_pow2. Qed.

Lemma slot_far e c : e / 2 ^ 26 ≠ c / 2 ^ 26 → slot e c = Lvl 3 (Z.to_nat (e / 2 ^ 26 mod 2 ^ 6)).
Proof.
  intros Hne. unfold slot.
  change (2 ^ 8) with 256. change (2 ^ 14) with 16384. change (2 ^ 20) with 1048576.
  change (2 ^ 26) with 67108864 in *. change (2 ^ 6) with 64.
  rewrite !decide_False; [done|Z.div_mod_to_equations; lia..].
Qed.

(** A tick inside a near block changes no bucket. *)
Lemma slot_tick_inside e c : (c + 1) mod 2 ^ 8 ≠ 0 → slot e (c + 1) = slot e c.
Proof.
  intros Hm. unfold slot.
  change (2 ^ 8) with 256 in *. change (2 ^ 14) with 16384. change (2 ^ 20) with 1048576.
  change (2 ^ 26) with 67108864 in *. change (2 ^ 6) with 64.
  replace ((c + 1) / 256) with (c / 256) by (Z.div_mod_to_equations; lia).
  replace ((c + 1) / 16384) with (c / 16384) by (Z.div_mod_to_equations; lia).
  replace ((c + 1) / 1048576) with (c / 1048576) by (Z.div_mod_to_equations; lia).
  replace ((c + 1) / 67108864) with (c / 67108864) by (Z.div_mod_to_equations; lia).
  done.
Qed.

(** Arithmetic of a tick at a block boundary. *)
Lemma div_tick c k : 0 <= k → (c + 1) mod 2 ^ k ≠ 0 → (c + 1) / 2 ^ k = c / 2 ^ k.
Proof.
  intros Hk Hm. assert (0 < 2 ^ k) by lia.
  pose proof (Z.mod_pos_bound (c + 1) (2 ^ k) ltac:(lia)).
  pose proof (Z.div_mod (c + 1) (2 ^ k) ltac:(lia)).
  apply Z.div_unique with ((c + 1) mod 2 ^ k - 1); lia.
Qed.

Lemma div_boundary e c k : 0 <= k → c < e → (c + 1) mod 2 ^ k = 0 → e / 2 ^ k ≠ c / 2 ^ k.
Proof.
  intros Hk Hlt Hm E. assert (0 < 2 ^ k) by lia.
  assert ((c + 1) / 2 ^ k <= e / 2 ^ k) by (apply Z.div_le_mono; lia).
  pose proof (Z.div_mod (c + 1) (2 ^ k) ltac:(lia)).
  pose proof (Z.div_mod c (2 ^ k) ltac:(lia)).
  pose proof (Z.mod_pos_bound c (2 ^ k) ltac:(lia)). nia.
Qed.

Lemma div_eq_up a b j k : 0 <= j <= k → a / 2 ^ j = b / 2 ^ j → a / 2 ^ k = b / 2 ^ k.
Proof.
  intros Hjk E. replace (2 ^ k) with (2 ^ j * 2 ^ (k - j)).
  2:{ rewrite <- Z.pow_add_r by lia. f_equal. lia. }
  rewrite <- !Z.div_div by lia. by rewrite E.
Qed.

Lemma mod_up a j : 0 <= j → a mod 2 ^ (j + 6) = 0 ↔ a mod 2 ^ j = 0 ∧ a / 2 ^ j mod 2 ^ 6 = 0.
Proof.
  intros Hj. rewrite Z.pow_add_r, Z.rem_mul_r by lia.
  pose proof (Z.mod_pos_bound a (2 ^ j) ltac:(lia)).
  pose proof (Z.mod_pos_bound (a / 2 ^ j) (2 ^ 6) ltac:(lia)). nia.
Qed.

(** Numbers in different blocks are in different smaller blocks: decide the
    test [P] of a smaller block by the inequality [E] of a larger one. *)
Ltac coarser E P :=
  rewrite (decide_False (P := P)) by
    (let E' := fresh in intros E'; apply E; eapply div_eq_up; [|exact E']; lia).

(** The core of the wheel: one tick changes the bucket of a pending node only
    if that bucket is the one being redistributed. *)
Lemma slot_tick_boundary e c :
  0 <= c → c < e < 4294967296 → (c + 1) mod 2 ^ 8 = 0 →
  slot e (c + 1) = slot e c ∨ moved (c + 1) = Some (slot e c).
Proof.
  intros Hc He Hb. unfold moved, slot.
  rewrite (decide_False (P := c + 1 = 0)) by lia.
  rewrite (decide_False (P := (c + 1) mod 2 ^ 8 ≠ 0)) by auto.
  assert (N8 := div_boundary e c 8 ltac:(lia) ltac:(lia) Hb).
  rewrite (decide_False (P := e / 2 ^ 8 = c / 2 ^ 8)) by done.
  destruct (decide ((c + 1) / 2 ^ 8 mod 2 ^ 6 ≠ 0)) as [H14|H14%dec_stable].
  { assert ((c + 1) mod 2 ^ 14 ≠ 0) as M14 by (rewrite (mod_up _ 8) by lia; tauto).
    assert ((c + 1) mod 2 ^ 20 ≠ 0) as M20 by (rewrite (mod_up _ 14) by lia; tauto).
    assert ((c + 1) mod 2 ^ 26 ≠ 0) as M26 by (rewrite (mod_up _ 20) by lia; tauto).
    rewrite (div_tick c 14), (div_tick c 20), (div_tick c 26) by (done || lia).
    destruct (decide (e / 2 ^ 8 = (c + 1) / 2 ^ 8)) as [E|E]; [right|by left].
    rewrite decide_True; [by rewrite E|].
    apply (div_eq_up _ _ 8 14) in E; [|lia]. by rewrite div_tick in E by (done || lia). }
  assert ((c + 1) mod 2 ^ 14 = 0) as M14 by (by rewrite (mod_up _ 8) by lia).
  assert (N14 := div_boundary e c 14 ltac:(lia) ltac:(lia) M14).
  rewrite (decide_False (P := e / 2 ^ 14 = c / 2 ^ 14)) by done.
  destruct (decide ((c + 1) / 2 ^ 14 mod 2 ^ 6 ≠ 0)) as [H20|H20%dec_stable].
  { assert ((c + 1) mod 2 ^ 20 ≠ 0) as M20 by (rewrite (mod_up _ 14) by lia; tauto).
    assert ((c + 1) mod 2 ^ 26 ≠ 0) as M26 by (rewrite (mod_up _ 20) by lia; tauto).
    rewrite (div_tick c 20), (div_tick c 26) by (done || lia).
    destruct (decide (e / 2 ^ 14 = (c + 1) / 2 ^ 14)) as [E|E].
    - right. rewrite decide_True; [by rewrite E|].
      apply (div_eq_up _ _ 14 20) in E; [|lia]. by rewrite div_tick in E by (done || lia).
    - left. coarser E (e / 2 ^ 8 = (c + 1) / 2 ^ 8). done. }
  assert ((c + 1) mod 2 ^ 20 = 0) as M20 by (by rewrite (mod_up _ 14) by lia).
  assert (N20 := div_boundary e c 20 ltac:(lia) ltac:(lia) M20).
  rewrite (decide_False (P := e / 2 ^ 20 = c / 2 ^ 20)) by done.
  destruct (decide ((c + 1) / 2 ^ 20 mod 2 ^ 6 ≠ 0)) as [H26|H26%dec_stable].
  { assert ((c + 1) mod 2 ^ 26 ≠ 0) as M26 by (rewrite (mod_up _ 20) by lia; tauto).
    rewrite (div_tick c 26) by (done || lia).
    destruct (decide (e / 2 ^ 20 = (c + 1) / 2 ^ 20)) as [E|E].
    - right. rewrite decide_True; [by rewrite E|].
      apply (div_eq_up _ _ 20 26) in E; [|lia]. by rewrite div_tick in E by (done || lia).
    - left. coarser E (e / 2 ^ 8 = (c + 1) / 2 ^ 8). coarser E (e / 2 ^ 14 = (c + 1) / 2 ^ 14).
      done. }
  assert ((c + 1) mod 2 ^ 26 = 0) as M26 by (by rewrite (mod_up _ 20) by lia).
  assert (N26 := div_boundary e c 26 ltac:(lia) ltac:(lia) M26).
  rewrite (decide_False (P := e / 2 ^ 26 = c / 2 ^ 26)) by done.
  destruct (decide (e / 2 ^ 26 = (c + 1) / 2 ^ 26)) as [E|E].
  - right. by rewrite E.
  - left. coarser E (e / 2 ^ 8 = (c + 1) / 2 ^ 8). coarser E (e / 2 ^ 14 = (c + 1) / 2 ^ 14).
    coarser E (e / 2 ^ 20 = (c + 1) / 2 ^ 20). done.
Qed.

Lemma slot_tick e c :
  0 <= c < 4294967296 → ahead e c → e ≠ c →
  slot e (u32 (c + 1)) = slot e c ∨ moved (u32 (c + 1)) = Some (slot e c).
Proof.
  intros Hc [He Hah] Hne. unfold remaining, HORIZON in Hah.
  assert (u32 (c + 1) = 0 ∧ c = 4294967295 ∨ u32 (c + 1) = c + 1 ∧ c < 4294967295)
    as [[-> Hl]|[-> Hl]] by u32_lia.
  - subst c. assert (e < 2147483648) by u32_lia.
    rewrite (slot_far e 4294967295) by (simpl; Z.div_mod_to_equations; lia).
    destruct (decide (e / 2 ^ 26 = 0)) as [E|E].
    + right. by rewrite E.
    + left. by apply slot_far.
  - destruct (decide (e < c)).
    { left. assert (c - e > 2147483648) by u32_lia.
      rewrite !slot_far; [done|simpl; Z.div_mod_to_equations; lia..]. }
    destruct (decide ((c + 1) mod 2 ^ 8 = 0)).
    + apply slot_tick_boundary; [lia..|done].
    + left. by apply slot_tick_inside.
Qed.

Lemma slot_self_inv e c :
  slot e c = Near (Z.to_nat (c mod 2 ^ 8)) → e = c.
Proof.
  unfold slot. repeat case_decide; try done. intros [= E].
  pose proof (Z.mod_pos_bound e (2 ^ 8)). pose proof (Z.mod_pos_bound c (2 ^ 8)).
  pose proof (Z.div_mod e (2 ^ 8)). pose proof (Z.div_mod c (2 ^ 8)). lia.
Qed.

Lemma slot_self e : slot e e = Near (Z.to_nat (e mod 2 ^ 8)).
Proof. unfold slot. by rewrite decide_True. Qed.

(** ** Shape of the wheel *)

Definition in_range (b : bucket) : Prop :=
  match b with
  | Near j => (j < 256)%nat
  | Lvl i j => (i < 4)%nat ∧ (j < 64)%nat
  end.

Lemma slot_in_range e c : in_range (slot e c).
Proof.
  unfold slot. repeat case_decide; simpl;
    first [pose proof (Z.mod_pos_bound e (2 ^ 8) ltac:(lia)); lia
          |split; [lia|]; match goal with |- context [?x mod 2 ^ 6] =>
            pose proof (Z.mod_pos_bound x (2 ^ 6) ltac:(lia)) end; lia].
Qed.

Section Proofs.
Context {A : Type}.
Implicit Types (T : timer A) (n : timer_node A) (l L : list (timer_node A)) (b : bucket).

Record wf_wheel T : Prop := {
  wf_near : length (near T) = 256%nat;
  wf_levels : length (t T) = 4%nat;
  wf_rows : ∀ i, (i < 4)%nat → length (t T !!! i) = 64%nat;
  wf_time : 0 <= time T < 4294967296
}.

Lemma get_put_eq T b l : wf_wheel T → in_range b → nodes_in (put T b l) b = l.
Proof.
  intros [H1 H2 H3 _] Hb. destruct b as [j|i j]; simpl in *.
  - apply list_lookup_total_insert_eq. lia.
  - destruct Hb. rewrite list_lookup_total_insert_eq by lia.
    apply list_lookup_total_insert_eq. rewrite H3; lia.
Qed.

Lemma get_put_ne T b b' l : b ≠ b' → nodes_in (put T b l) b' = nodes_in T b'.
Proof.
  intros Hne. destruct b as [j|i j], b' as [j'|i' j']; simpl; try done.
  - apply list_lookup_total_insert_ne. congruence.
  - destruct (decide (i = i')) as [<-|Hi]; [|by rewrite list_lookup_total_insert_ne].
    destruct (decide (i < length (t T))%nat) as [Hi|Hi].
    + rewrite list_lookup_total_insert_eq by done.
      apply list_lookup_total_insert_ne. congruence.
    + rewrite list_insert_ge by lia. done.
Qed.

Lemma wf_put T b l : wf_wheel T → wf_wheel (put T b l).
Proof.
  intros [H1 H2 H3 H4]. destruct b as [j|i j]; constructor; simpl; rewrite ?length_insert; try done.
  intros i' Hi'. destruct (decide (i = i')) as [<-|Hi].
  - rewrite list_lookup_total_insert_eq by lia. rewrite length_insert. by apply H3.
  - rewrite list_lookup_total_insert_ne by done. by apply H3.
Qed.

Lemma put_time T b l : time (put T b l) = time T.
Proof. by destruct b. Qed.
Lemma put_tlock T b l : tlock (put T b l) = tlock T.
Proof. by destruct b. Qed.
Lemma put_point T b l : current_point (put T b l) = current_point T.
Proof. by destruct b. Qed.

(** add_node links the node into its slot. *)
Lemma add_node_slot T n : add_node T n = link T (slot (expire n) (time T)) n.
Proof.
  unfold add_node, slot.
  change TIME_NEAR_MASK with (2 ^ 8 - 1). change TIME_LEVEL_MASK with (2 ^ 6 - 1).
  cbn [find_level].
  change (TIME_NEAR .<< TIME_LEVEL_SHIFT) with (2 ^ 14).
  change (u32 (2 ^ 14 .<< TIME_LEVEL_SHIFT)) with (2 ^ 20).
  change (u32 (2 ^ 20 .<< TIME_LEVEL_SHIFT)) with (2 ^ 26).
  rewrite !lor_mask_eqb by lia. rewrite land_mask by lia.
  repeat match goal with
  | |- context [bool_decide ?P] => destruct (decide P) as [?|?];
      [rewrite (bool_decide_eq_true_2 P) by done | rewrite (bool_decide_eq_false_2 P) by done]
  end; rewrite ?shiftr_land_mask by (unfold TIME_NEAR_SHIFT, TIME_LEVEL_SHIFT; lia); done.
Qed.

Lemma get_link T b b' n :
  wf_wheel T → in_range b →
  nodes_in (link T b n) b' = nodes_in T b' ++ (if decide (b = b') then [n] else []).
Proof.
  intros Hwf Hb. unfold link. case_decide as E.
  - subst b'. by rewrite get_put_eq.
  - rewrite get_put_ne by done. by rewrite app_nil_r.
Qed.

Lemma add_nodes_spec c (ns : list (timer_node A)) T :
  wf_wheel T → time T = c →
  let T' := fold_left add_node ns T in
  wf_wheel T' ∧ time T' = c ∧ tlock T' = tlock T ∧ current_point T' = current_point T ∧
  ∀ b, nodes_in T' b = nodes_in T b ++ filter (fun n => slot (expire n) c = b) ns.
Proof.
  revert T. induction ns as [|n ns IH]; intros T Hwf Hc; simpl.
  - split_and!; try done. intros b. by rewrite app_nil_r.
  - rewrite add_node_slot, Hc.
    destruct (IH (link T (slot (expire n) c) n)) as (H1 & H2 & H3 & H5 & H4).
    { by apply wf_put. }
    { unfold link. by rewrite put_time. }
    split_and!; try done.
    + rewrite H3. apply put_tlock.
    + rewrite H5. apply put_point.
    + intros b. rewrite H4, get_link by (done || apply slot_in_range).
      rewrite <- app_assoc. f_equal. rewrite filter_cons. by case_decide.
Qed.

(** ** The abstract timer: a flat list of pending nodes, oldest first *)

Abbreviation due e := (fun n : timer_node A => expire n = e).

(** The wheel [T] represents the pending list [L]: every node is in the slot
    of its expiry, the nodes of equal expiry are in insertion order, and no
    node is overdue. *)
Record represents T L : Prop := {
  rep_wf : wf_wheel T;
  rep_placed : ∀ b n, in_range b → n ∈ nodes_in T b → slot (expire n) (time T) = b;
  rep_order : ∀ e, filter (due e) (nodes_in T (slot e (time T))) = filter (due e) L;
  rep_ahead : ∀ n, n ∈ L → ahead (expire n) (time T)
}.

(** Nodes of one expiry are found in their slot only. *)
Lemma due_elsewhere T L b e :
  represents T L → in_range b → slot e (time T) ≠ b → filter (due e) (nodes_in T b) = [].
Proof.
  intros HR Hb Hne. apply filter_none. intros n Hn He.
  apply Hne. rewrite <- He. by apply (rep_placed T L).
Qed.

Lemma represented_in T L b n : represents T L → in_range b → n ∈ nodes_in T b → n ∈ L.
Proof.
  intros HR Hb Hn. pose proof (rep_placed T L HR b n Hb Hn) as Hs.
  assert (n ∈ filter (due (expire n)) (nodes_in T (slot (expire n) (time T)))) as Hin.
  { apply list_elem_of_filter. by rewrite Hs. }
  rewrite (rep_order T L HR) in Hin. by apply list_elem_of_filter in Hin as [_ ?].
Qed.

(** Adding a node appends it to the pending list. *)
Lemma represents_add T L n :
  represents T L → ahead (expire n) (time T) → represents (add_node T n) (L ++ [n]).
Proof.
  intros HR Hah. pose proof (rep_wf T L HR) as Hwf.
  pose proof (slot_in_range (expire n) (time T)) as Hb.
  rewrite add_node_slot.
  assert (time (link T (slot (expire n) (time T)) n) = time T) as Et by apply put_time.
  constructor.
  - by apply wf_put.
  - intros b m Hb' Hm. rewrite Et. rewrite get_link in Hm by done.
    apply elem_of_app in Hm as [Hm|Hm]; [by apply (rep_placed T L)|].
    case_decide; [|by apply not_elem_of_nil in Hm].
    apply list_elem_of_singleton in Hm as ->. done.
  - intros e. rewrite Et, get_link, !list.filter_app by done. f_equal; [by apply rep_order|].
    case_decide as E; [done|]. symmetry. apply filter_none.
    intros m ->%list_elem_of_singleton <-. done.
  - intros m. rewrite Et. intros [Hm| ->%list_elem_of_singleton]%elem_of_app; [|done].
    by apply (rep_ahead T L).
Qed.

(** Redistributing a bucket after the clock moved to [ct]. *)
Definition redistribute T (b : bucket) : timer A := fold_left add_node (nodes_in T b) (put T b []).

Definition tick_to T (ct : Z) : timer A :=
  match moved ct with
  | None => set_time T ct
  | Some b => redistribute (set_time T ct) b
  end.

Lemma wf_set_time T c : wf_wheel T → 0 <= c < 4294967296 → wf_wheel (set_time T c).
Proof. intros [? ? ? _] Hc. by constructor. Qed.

Lemma get_set_time T c b : nodes_in (set_time T c) b = nodes_in T b.
Proof. by destruct b. Qed.

Lemma moved_in_range ct b : moved ct = Some b → in_range b.
Proof.
  unfold moved. repeat case_decide; intros [= <-]; simpl;
    (split; [lia|]); try lia;
    match goal with |- context [?x mod 2 ^ 6] =>
      pose proof (Z.mod_pos_bound x (2 ^ 6) ltac:(lia)) end; lia.
Qed.

Section Tick.
Context (T : timer A) (L : list (timer_node A)) (HR : represents T L).
Hypothesis (Hgone : ∀ n, n ∈ L → expire n ≠ time T).
Let ct := u32 (time T + 1).

Lemma tick_stay n :
  n ∈ L → Some (slot (expire n) (time T)) ≠ moved ct → slot (expire n) ct = slot (expire n) (time T).
Proof using HR Hgone.
  intros Hn Hm. destruct (slot_tick (expire n) (time T)) as [E|E].
  - apply (wf_time T (rep_wf T L HR)).
  - by apply (rep_ahead T L).
  - by apply Hgone.
  - done.
  - by destruct Hm.
Qed.

Lemma tick_ahead n : n ∈ L → ahead (expire n) ct.
Proof using HR Hgone.
  intros Hn. pose proof (Hgone n Hn). destruct (rep_ahead T L HR n Hn) as [? Hrem].
  pose proof (wf_time T (rep_wf T L HR)).
  split; [done|]. unfold remaining in *. unfold ct, HORIZON in *. u32_lia.
Qed.

(** An expiry whose bucket is not redistributed. *)
Lemma tick_order e :
  Some (slot e (time T)) ≠ moved ct →
  filter (due e) (nodes_in T (slot e ct)) = filter (due e) L ∧
  (filter (due e) L ≠ [] → slot e ct = slot e (time T)).
Proof using HR Hgone.
  intros Hm. destruct (filter (due e) L) as [|n0 l0] eqn:EL.
  - split; [|done]. apply filter_none. intros n Hn He.
    eapply (filter_nil_not_elem_of _ L n); [exact EL|done|].
    eapply (represented_in T L); [done|apply slot_in_range|done].
  - assert (n0 ∈ L ∧ expire n0 = e) as [Hn0 <-].
    { assert (n0 ∈ filter (due e) L) as Hin by (rewrite EL; left).
      by apply list_elem_of_filter in Hin as [? ?]. }
    rewrite (tick_stay n0) by done. split; [|done]. rewrite <- EL. by apply rep_order.
Qed.

Lemma tick_still : moved ct = None → represents (set_time T ct) L.
Proof using HR Hgone.
  intros Em. constructor.
  - apply wf_set_time; [apply HR|apply u32_bound].
  - intros b n Hb. rewrite get_set_time. intros Hn. simpl.
    rewrite tick_stay; [by apply (rep_placed T L)|by eapply represented_in|by rewrite Em].
  - intros e. rewrite get_set_time. simpl. apply tick_order. by rewrite Em.
  - apply tick_ahead.
Qed.

Lemma tick_move m :
  moved ct = Some m →
  represents (redistribute (set_time T ct) m) L ∧
  time (redistribute (set_time T ct) m) = ct ∧
  tlock (redistribute (set_time T ct) m) = tlock T ∧
  current_point (redistribute (set_time T ct) m) = current_point T.
Proof using HR Hgone.
  intros Em. pose proof (moved_in_range ct m Em) as Hm. unfold redistribute.
  destruct (add_nodes_spec ct (nodes_in (set_time T ct) m) (put (set_time T ct) m []))
    as (W & Et & El & Ep & Hget).
  { apply wf_put, wf_set_time; [apply HR|apply u32_bound]. }
  { by rewrite put_time. }
  rewrite put_tlock in El. rewrite put_point in Ep. split_and!; [|done..].
  assert (Hbase : ∀ b, nodes_in (put (set_time T ct) m []) b = if decide (m = b) then [] else nodes_in T b).
  { intros b. case_decide as E.
    - subst b. apply get_put_eq; [|done]. apply wf_set_time; [apply HR|apply u32_bound].
    - by rewrite get_put_ne, get_set_time. }
  constructor; [done|..].
  - intros b n Hb. rewrite Et, Hget, Hbase. intros [Hn|Hn]%elem_of_app.
    + case_decide; [by apply not_elem_of_nil in Hn|].
      assert (slot (expire n) (time T) = b) as Es by (by apply (rep_placed T L)).
      rewrite tick_stay; [done|by eapply represented_in|]. rewrite Em, Es. congruence.
    + by apply list_elem_of_filter in Hn as [? _].
  - intros e. rewrite Et, Hget, Hbase, list.filter_app, get_set_time.
    rewrite list_filter_filter_l by (intros ? <-; done).
    destruct (decide (slot e (time T) = m)) as [E|E].
    + assert (filter (due e) (nodes_in T m) = filter (due e) L) as ->
        by (rewrite <- E; by apply rep_order).
      case_decide; [done|]. rewrite (due_elsewhere T L); [done|done|apply slot_in_range|congruence].
    + rewrite (due_elsewhere T L m) by done. rewrite app_nil_r.
      destruct (tick_order e) as [Ho Hs]; [rewrite Em; congruence|].
      case_decide as Eb; [|done].
      destruct (filter (due e) L); [done|]. destruct E. rewrite Eb. symmetry. by apply Hs.
  - rewrite Et. apply tick_ahead.
Qed.

(** A tick keeps the pending list, provided the nodes due now are gone. *)
Lemma represents_tick :
  represents (tick_to T ct) L ∧ time (tick_to T ct) = ct ∧ tlock (tick_to T ct) = tlock T ∧
  current_point (tick_to T ct) = current_point T.
Proof using HR Hgone.
  unfold tick_to. destruct (moved ct) eqn:Em; [by apply tick_move|].
  split; [by apply tick_still|done].
Qed.

End Tick.

(** timer_shift redistributes the bucket [moved] names; its loop ends within
    four rounds because a nonzero clock has a nonzero digit. *)
Lemma timer_shift_eq T :
  0 <= time T < 4294967296 → timer_shift T = Ok (tick_to T (u32 (time T + 1))).
Proof.
  intros Ht. pose proof (u32_bound (time T + 1)) as Hct. unfold timer_shift, tick_to, moved.
  set (ct := u32 (time T + 1)) in *. set (T1 := set_time T ct).
  destruct (Z.eqb_spec ct 0) as [E|E]; [by rewrite (decide_True (P := ct = 0))|].
  rewrite (decide_False (P := ct = 0)) by done.
  cbn [shift_loop].
  change (i32 (TIME_NEAR .<< TIME_LEVEL_SHIFT)) with (2 ^ 14).
  change (i32 (2 ^ 14 .<< TIME_LEVEL_SHIFT)) with (2 ^ 20).
  change (i32 (2 ^ 20 .<< TIME_LEVEL_SHIFT)) with (2 ^ 26).
  change TIME_NEAR with (2 ^ 8). change TIME_LEVEL_MASK with (2 ^ 6 - 1).
  rewrite !Z.shiftr_shiftr by (unfold TIME_LEVEL_SHIFT; lia).
  unfold TIME_NEAR_SHIFT, TIME_LEVEL_SHIFT. 
  change (8 + 6 + 6 + 6) with 26. change (8 + 6 + 6) with 20. change (8 + 6) with 14.
  rewrite !shiftr_land_mask, !land_mask by lia.
  assert (ct / 2 ^ 26 mod 2 ^ 6 = ct / 2 ^ 26) as E26.
  { apply Z.mod_small. split; [apply Z.div_pos; lia|]. apply Z.div_lt_upper_bound; lia. }
  destruct (Z.eqb_spec (ct mod 2 ^ 8) 0) as [M8|M8];
    [rewrite (decide_False (P := ct mod 2 ^ 8 ≠ 0)) by auto|by rewrite (decide_True (P := ct mod 2 ^ 8 ≠ 0))].
  destruct (Z.eqb_spec (ct / 2 ^ 8 mod 2 ^ 6) 0) as [D8|D8]; simpl negb;
    [rewrite (decide_False (P := ct / 2 ^ 8 mod 2 ^ 6 ≠ 0)) by auto
    |by rewrite (decide_True (P := ct / 2 ^ 8 mod 2 ^ 6 ≠ 0)) by done].
  assert (ct mod 2 ^ 14 = 0) as M14 by (by rewrite (mod_up _ 8) by lia).
  rewrite M14. simpl (0 =? 0). cbv iota.
  destruct (Z.eqb_spec (ct / 2 ^ 14 mod 2 ^ 6) 0) as [D14|D14]; simpl negb;
    [rewrite (decide_False (P := ct / 2 ^ 14 mod 2 ^ 6 ≠ 0)) by auto
    |by rewrite (decide_True (P := ct / 2 ^ 14 mod 2 ^ 6 ≠ 0)) by done].
  assert (ct mod 2 ^ 20 = 0) as M20 by (by rewrite (mod_up _ 14) by lia).
  rewrite M20. simpl (0 =? 0). cbv iota.
  destruct (Z.eqb_spec (ct / 2 ^ 20 mod 2 ^ 6) 0) as [D20|D20]; simpl negb;
    [rewrite (decide_False (P := ct / 2 ^ 20 mod 2 ^ 6 ≠ 0)) by auto
    |by rewrite (decide_True (P := ct / 2 ^ 20 mod 2 ^ 6 ≠ 0)) by done].
  assert (ct mod 2 ^ 26 = 0) as M26 by (by rewrite (mod_up _ 20) by lia).
  rewrite M26. simpl (0 =? 0). cbv iota.
  destruct (Z.eqb_spec (ct / 2 ^ 26 mod 2 ^ 6) 0) as [D26|D26]; [|done].
  exfalso. pose proof (Z.div_mod ct (2 ^ 26) ltac:(lia)). lia.
Qed.

(** The near bucket of the current time holds exactly the nodes due now. *)
Lemma near_bucket T L :
  represents T L →
  nodes_in T (Near (Z.to_nat (time T .& TIME_NEAR_MASK))) = filter (due (time T)) L.
Proof.
  intros HR. change TIME_NEAR_MASK with (2 ^ 8 - 1). rewrite land_mask by lia.
  rewrite <- (rep_order T L HR), slot_self. symmetry. apply filter_all.
  intros n Hn. apply slot_self_inv. apply (rep_placed T L HR); [|done].
  rewrite <- slot_self. apply slot_in_range.
Qed.

Lemma represents_clear T L :
  represents T L →
  represents (put T (slot (time T) (time T)) []) (filter (fun n => expire n ≠ time T) L).
Proof.
  intros HR. pose proof (rep_wf T L HR) as Hwf.
  pose proof (slot_in_range (time T) (time T)) as Hb. set (b0 := slot (time T) (time T)) in *.
  assert (Hget : ∀ b, nodes_in (put T b0 []) b = if decide (b0 = b) then [] else nodes_in T b).
  { intros b. case_decide as E; [subst b; by apply get_put_eq|by apply get_put_ne]. }
  constructor; rewrite ?put_time.
  - by apply wf_put.
  - intros b n Hb'. rewrite Hget. case_decide; [by intros ?%not_elem_of_nil|].
    by apply (rep_placed T L).
  - intros e. rewrite Hget. destruct (decide (e = time T)) as [->|Hne].
    + rewrite decide_True by done. symmetry. apply filter_none.
      intros n [? _]%list_elem_of_filter. done.
    + rewrite list_filter_filter_l by (intros ? ->; done).
      case_decide as E; [|by apply (rep_order T L)].
      rewrite <- (rep_order T L HR). rewrite <- E. symmetry. apply filter_none.
      intros n Hn He. apply Hne. rewrite <- He. apply slot_self_inv.
      rewrite <- slot_self. by apply (rep_placed T L).
  - intros n [_ Hn]%list_elem_of_filter. by apply (rep_ahead T L).
Qed.

Lemma represents_tlock T L (l : spinlock) : represents T L → represents (set_tlock T l) L.
Proof. intros [[? ? ? ?] ? ? ?]. done. Qed.

(** ** The contract: an alarm clock

    Between calls the wheel is unlocked and no node is due at the current
    time: [timer_add] is called with a positive delay, and [timer_update]
    dispatches what is due at the time it shifts to. *)
Record clock_inv T L : Prop := {
  ci_rep : represents T L;
  ci_free : unlocked (tlock T);
  ci_none : ∀ n, n ∈ L → expire n ≠ time T
}.

Lemma timer_add_spec T L a d :
  clock_inv T L → 0 < d < HORIZON →
  ∃ T', timer_add T a d = Ok T' ∧ time T' = time T ∧ current_point T' = current_point T ∧
    clock_inv T' (L ++ [mk_node (u32 (d + time T)) a]).
Proof.
  intros [HR Hf Hn] Hd. unfold timer_add. rewrite (spinlock_lock_free _ Hf), bind_Ok.
  set (n := mk_node (u32 (d + time (set_tlock T (mk_spinlock 1)))) a).
  pose proof (wf_time T (rep_wf T L HR)) as Ht. unfold HORIZON in Hd.
  assert (represents (add_node (set_tlock T (mk_spinlock 1)) n) (L ++ [n])) as HR'.
  { apply represents_add; [by apply represents_tlock|]. split; [apply u32_bound|].
    unfold remaining, HORIZON. simpl. u32_lia. }
  assert (time (add_node (set_tlock T (mk_spinlock 1)) n) = time T) as Et
    by (rewrite add_node_slot; unfold link; by rewrite put_time).
  assert (current_point (add_node (set_tlock T (mk_spinlock 1)) n) = current_point T) as Ep
    by (rewrite add_node_slot; unfold link; by rewrite put_point).
  eexists. split_and!; [done..|]. constructor.
  - by apply represents_tlock.
  - done.
  - simpl. rewrite Et. intros m [Hm| ->%list_elem_of_singleton]%elem_of_app; [by apply Hn|].
    simpl. u32_lia.
Qed.

(** The nodes due at ticks 1 to [k] from time [c], by tick and within a tick by
    age. *)
Fixpoint schedule (k : nat) (c : Z) L : list (timer_node A) :=
  match k with
  | O => []
  | S k => schedule k c L ++ filter (fun n => remaining (expire n) c = Z.of_nat (S k)) L
  end.

Lemma schedule_S k c L :
  (∀ n, n ∈ L → ahead (expire n) c ∧ expire n ≠ c) → 0 <= c < 4294967296 →
  schedule (S k) c L =
  filter (due (u32 (c + 1))) L ++
  schedule k (u32 (c + 1)) (filter (fun n => expire n ≠ u32 (c + 1)) L).
Proof.
  intros Hah Hc. induction k as [|k IH].
  - simpl. rewrite app_nil_r. apply filter_ext_in. intros n Hn.
    destruct (Hah n Hn) as [[He Hr] Hne]. unfold remaining, HORIZON in *. u32_lia.
  - cbn [schedule] in *. rewrite IH. rewrite <- app_assoc. do 2 f_equal.
    rewrite list_filter_filter. apply filter_ext_in. intros n Hn.
    destruct (Hah n Hn) as [[He Hr] Hne]. unfold remaining, HORIZON in *. u32_lia.
Qed.

Lemma schedule_later k c L1 n :
  Z.of_nat k < remaining (expire n) c →
  schedule k c (L1 ++ [n]) = schedule k c L1.
Proof.
  intros Hk. induction k as [|k IH]; [done|]. cbn [schedule].
  rewrite IH by lia. f_equal. rewrite list.filter_app, (filter_none _ [n]); [apply app_nil_r|].
  intros ? ->%list_elem_of_singleton. lia.
Qed.

Lemma schedule_nil k c : schedule k c [] = [].
Proof. induction k as [|k IH]; [done|]. cbn [schedule]. by rewrite IH. Qed.

Lemma remaining_add d c :
  0 < d < HORIZON → remaining (u32 (d + c)) c = d.
Proof. unfold remaining, HORIZON. intros. u32_lia. Qed.

Lemma get_create b : nodes_in (timer_create_timer (A := A)) b = [].
Proof.
  assert (∀ k j, replicate k ([] : list (timer_node A)) !!! j = []) as Hr.
  { intros k j. rewrite list_lookup_total_alt. destruct (replicate k [] !! j) eqn:E; [|done].
    by apply lookup_replicate in E as [-> _]. }
  destruct b as [j|i j]; [apply Hr|].
  unfold timer_create_timer, nodes_in, t. do 4 (destruct i as [|i]; [apply Hr|]). done.
Qed.

(** A new timer represents the empty list. *)
Lemma clock_inv_create : clock_inv (timer_create_timer (A := A)) [].
Proof.
  constructor; [constructor|done|by intros n ?%not_elem_of_nil].
  - constructor; try done. intros i Hi. do 4 (destruct i as [|i]; [done|]). lia.
  - intros b n _. rewrite get_create. by intros ?%not_elem_of_nil.
  - intros e. by rewrite get_create.
  - by intros n ?%not_elem_of_nil.
Qed.

(** ** Dispatch *)

Section Dispatch.
Context {St : Type} (TimerTimeout : A → St → res St).

(** The handler run on a list of nodes, which may be empty. *)
Fixpoint dispatch_all (ns : list (timer_node A)) (s : St) : res St :=
  match ns with
  | [] => Ok s
  | n :: ns => s ← TimerTimeout (arg n) s; dispatch_all ns s
  end.

Lemma dispatch_list_all ns s : ns ≠ [] → dispatch_list TimerTimeout ns s = dispatch_all ns s.
Proof.
  revert s. induction ns as [|n ns IH]; intros s Hne; [done|].
  destruct ns as [|n' ns]; simpl.
  - by destruct (TimerTimeout (arg n) s).
  - destruct (TimerTimeout (arg n) s); simpl; [|done]. by apply IH.
Qed.

Lemma dispatch_all_app ns ms s :
  dispatch_all (ns ++ ms) s = (s ← dispatch_all ns s; dispatch_all ms s).
Proof.
  revert s. induction ns as [|n ns IH]; intros s; simpl; [done|].
  destruct (TimerTimeout (arg n) s); simpl; [apply IH|done].
Qed.

(** timer_execute dispatches the nodes due at the current time, in insertion
    order, and leaves the others. *)
Lemma timer_execute_spec T L :
  represents T L → locked (tlock T) →
  ∃ T', represents T' (filter (fun n => expire n ≠ time T) L) ∧
    time T' = time T ∧ locked (tlock T') ∧ current_point T' = current_point T ∧
    ∀ s, timer_execute TimerTimeout T s =
      (s ← dispatch_all (filter (due (time T)) L) s; Ok (T', s)).
Proof.
  intros HR Hl. unfold timer_execute.
  assert (Near (Z.to_nat (time T .& TIME_NEAR_MASK)) = slot (time T) (time T)) as Eb.
  { rewrite slot_self. change TIME_NEAR_MASK with (2 ^ 8 - 1). by rewrite land_mask by lia. }
  pose proof (near_bucket T L HR) as Hn.
  pose proof (represents_clear T L HR) as Hc. rewrite <- Eb in Hc.
  destruct (filter (due (time T)) L) as [|n ns] eqn:EL.
  - exists T. split_and!; try done.
    + rewrite filter_all; [done|]. intros m Hm He.
      eapply (filter_nil_not_elem_of _ L m); [exact EL|done|done].
    + intros s. unfold execute_loop. by rewrite Hn.
  - exists (set_tlock (put T (Near (Z.to_nat (time T .& TIME_NEAR_MASK))) []) (mk_spinlock 1)).
    split_and!; try done; [by apply represents_tlock|].
    intros s. cbn [execute_loop]. rewrite Hn. unfold link_clear.
    rewrite Hn. rewrite dispatch_list_all by done.
    destruct (dispatch_all (n :: ns) s); [|done]. rewrite !bind_Ok. cbn [set_tlock tlock].
    change (spinlock_lock (spinlock_unlock _)) with (Ok (mk_spinlock 1)).
    rewrite bind_Ok. unfold execute_loop.
    assert (nodes_in (put T (Near (Z.to_nat (time T .& TIME_NEAR_MASK))) [])
      (Near (Z.to_nat (time T .& TIME_NEAR_MASK))) = []) as E0.
    { apply get_put_eq; [apply HR|]. rewrite Eb. apply slot_in_range. }
    simpl in E0 |- *. rewrite E0. done.
Qed.

Lemma timer_update_spec T L :
  clock_inv T L →
  ∃ T', clock_inv T' (filter (fun n => expire n ≠ u32 (time T + 1)) L) ∧
    time T' = u32 (time T + 1) ∧ current_point T' = current_point T ∧
    ∀ s, timer_update TimerTimeout T s =
      (s ← dispatch_all (filter (due (u32 (time T + 1))) L) s; Ok (T', s)).
Proof.
  intros [HR Hf Hn]. set (T0 := set_tlock T (mk_spinlock 1)).
  destruct (timer_execute_spec T0 L) as (T1 & HR1 & Et1 & Hl1 & Ep1 & E1); [by apply represents_tlock|done|].
  change (time T0) with (time T) in *.
  rewrite (filter_none (due (time T)) L Hn) in E1. rewrite filter_all in HR1 by done.
  assert (∀ n, n ∈ L → expire n ≠ time T1) as Hn1 by (by rewrite Et1).
  destruct (represents_tick T1 L HR1 Hn1) as (HR2 & Et2 & El2 & Ep2). rewrite Et1 in HR2, Et2, El2, Ep2.
  set (T2 := tick_to T1 (u32 (time T + 1))) in *.
  destruct (timer_execute_spec T2 L) as (T3 & HR3 & Et3 & Hl3 & Ep3 & E3); [done|by rewrite El2|].
  rewrite Et2 in HR3, Et3, E3.
  exists (set_tlock T3 (spinlock_unlock (tlock T3))). split_and!; [|done|cbn; by rewrite Ep3, Ep2, Ep1|].
  - constructor; [by apply represents_tlock|done|]. simpl. rewrite Et3.
    by intros n [? _]%list_elem_of_filter.
  - intros s. unfold timer_update. rewrite (spinlock_lock_free _ Hf), bind_Ok.
    fold T0. rewrite E1. simpl. rewrite timer_shift_eq, Et1 by apply HR1. fold T2. simpl.
    rewrite E3. by destruct (dispatch_all _ s).
Qed.

(** ** Runs: the wheel against a flat list

    A run is a sequence of additions and ticks; [alarm] is the specification,
    a clock and the list of what is pending. *)

Inductive wheel_op :=
| OpAdd (a : A) (d : Z)
| OpTick.

Definition wheel_step (op : wheel_op) (p : timer A * St) : res (timer A * St) :=
  match op with
  | OpAdd a d => T ← timer_add p.1 a d; Ok (T, p.2)
  | OpTick => timer_update TimerTimeout p.1 p.2
  end.

Fixpoint wheel_run (ops : list wheel_op) (p : timer A * St) : res (timer A * St) :=
  match ops with
  | [] => Ok p
  | op :: ops => p ← wheel_step op p; wheel_run ops p
  end.

Record alarm := mk_alarm { now : Z; pending : list (timer_node A) }.

Definition alarm_step (op : wheel_op) (p : alarm * St) : res (alarm * St) :=
  match op with
  | OpAdd a d =>
      Ok (mk_alarm (now p.1) (pending p.1 ++ [mk_node (u32 (d + now p.1)) a]), p.2)
  | OpTick =>
      let c := u32 (now p.1 + 1) in
      s ← dispatch_all (filter (due c) (pending p.1)) p.2;
      Ok (mk_alarm c (filter (fun n => expire n ≠ c) (pending p.1)), s)
  end.

Fixpoint alarm_run (ops : list wheel_op) (p : alarm * St) : res (alarm * St) :=
  match ops with
  | [] => Ok p
  | op :: ops => p ← alarm_step op p; alarm_run ops p
  end.

Definition op_ok (op : wheel_op) : Prop :=
  match op with
  | OpAdd _ d => 0 < d < HORIZON
  | OpTick => True
  end.

Definition wheel_alarm (p : timer A * St) (q : alarm * St) : Prop :=
  clock_inv p.1 (pending q.1) ∧ time p.1 = now q.1 ∧ p.2 = q.2.

(** Equal faults, or results in the relation. *)
Definition res_rel {X Y} (R : X → Y → Prop) (x : res X) (y : res Y) : Prop :=
  match x, y with
  | Ok x, Ok y => R x y
  | Fault f, Fault g => f = g
  | _, _ => False
  end.

Lemma wheel_step_refines op p q :
  wheel_alarm p q → op_ok op → res_rel wheel_alarm (wheel_step op p) (alarm_step op q).
Proof.
  destruct p as [T s], q as [[c L] s']. intros (HI & Et & Es) Hop. simpl in *. subst c s'.
  destruct op as [a d|]; simpl.
  - destruct (timer_add_spec T L a d HI Hop) as (T' & -> & Et & _ & HI'). simpl. split_and!; done.
  - destruct (timer_update_spec T L HI) as (T' & HI' & Et & _ & E). rewrite E.
    destruct (dispatch_all _ s); simpl; [|done]. split_and!; done.
Qed.

(** C22: the timing wheel refines an alarm clock.  Any sequence of timer_add
    calls (positive int delays) and timer_update calls on the 256 near buckets
    and four levels of 64 dispatches the same payloads to the handler in the
    same order, with the same faults, as a flat list of pending nodes scanned
    at every tick; no loop of the wheel runs out of rounds and no lock is taken
    twice.  This includes the wrap-around of the 32-bit clock. *)
Theorem wheel_run_refines_alarm ops p q :
  wheel_alarm p q → Forall op_ok ops → res_rel wheel_alarm (wheel_run ops p) (alarm_run ops q).
Proof.
  intros HR Hops. revert p q HR. induction Hops as [|op ops Hop _ IH]; intros p q HR; simpl; [done|].
  pose proof (wheel_step_refines op p q HR Hop) as Hs.
  destruct (wheel_step op p), (alarm_step op q); simpl in Hs; try done. by apply IH.
Qed.

(** ** What a run of ticks dispatches *)

Lemma ticks_spec k T L :
  clock_inv T L →
  ∃ T', clock_inv T' (filter (fun n => Z.of_nat k < remaining (expire n) (time T)) L) ∧
    ∀ s, wheel_run (replicate k OpTick) (T, s) =
      (s ← dispatch_all (schedule k (time T) L) s; Ok (T', s)).
Proof.
  revert T L. induction k as [|k IH]; intros T L HI.
  - exists T. split; [|done]. rewrite filter_all; [done|]. intros n Hn.
    pose proof (ci_none T L HI n Hn). destruct HI as [HR _ _]. destruct (rep_ahead T L HR n Hn).
    pose proof (wf_time T (rep_wf T L HR)). unfold remaining in *. u32_lia.
  - destruct (timer_update_spec T L HI) as (T1 & HI1 & Et1 & _ & E1).
    destruct (IH T1 _ HI1) as (T' & HI' & E'). exists T'. rewrite Et1 in HI', E'.
    rewrite schedule_S.
    2:{ intros n Hn. split; [by apply (rep_ahead T L), Hn; apply HI|by apply (ci_none T L)]. }
    2:{ apply (wf_time T), (rep_wf T L), HI. }
    split.
    + rewrite list_filter_filter in HI'.
      erewrite filter_ext_in; [exact HI'|]. intros n Hn.
      pose proof (ci_none T L HI n Hn). destruct HI as [HR _ _].
      destruct (rep_ahead T L HR n Hn) as [? Hr]. pose proof (wf_time T (rep_wf T L HR)).
      unfold remaining, HORIZON in *. simpl. u32_lia.
    + intros s. rewrite dispatch_all_app. simpl. rewrite E1.
      destruct (dispatch_all (filter _ L) s) as [s1|f]; simpl; [by rewrite E'|done].
Qed.

(** C23: a timer fires at exactly its tick.  A node added with delay [d] is not
    dispatched by the next [k < d] updates, whatever else is pending and
    whatever the clock shows, and is dispatched by the [d]-th one, exactly
    once and after all older nodes of the same tick. *)
Theorem timer_fires_at_its_tick T L a d :
  clock_inv T L → 0 < d < HORIZON →
  ∃ T1, timer_add T a d = Ok T1 ∧
    (∀ k, Z.of_nat k < d → ∃ T2, ∀ s,
      wheel_run (replicate k OpTick) (T1, s) =
      (s ← dispatch_all (schedule k (time T) L) s; Ok (T2, s))) ∧
    (∃ T2, clock_inv T2 (filter (fun n => d < remaining (expire n) (time T)) L) ∧ ∀ s,
      wheel_run (replicate (Z.to_nat d) OpTick) (T1, s) =
      (s ← dispatch_all (schedule (Z.to_nat d) (time T) L) s;
       s ← TimerTimeout a s; Ok (T2, s))).
Proof.
  intros HI Hd. destruct (timer_add_spec T L a d HI Hd) as (T1 & E & Et & _ & HI1).
  assert (remaining (u32 (d + time T)) (time T) = d) as Hr by (by apply remaining_add).
  set (n := mk_node (u32 (d + time T)) a) in *.
  exists T1. split; [done|]. split.
  - intros k Hk. destruct (ticks_spec k T1 _ HI1) as (T2 & _ & E2). exists T2. intros s.
    by rewrite E2, Et, schedule_later by (simpl; lia).
  - destruct (ticks_spec (Z.to_nat d) T1 _ HI1) as (T2 & HI2 & E2). exists T2. rewrite Et in HI2, E2.
    rewrite Z2Nat.id in HI2 by lia. rewrite list.filter_app in HI2.
    rewrite (filter_none _ [n]) in HI2 by (intros ? ->%list_elem_of_singleton; simpl; lia).
    rewrite app_nil_r in HI2. split; [done|]. intros s. rewrite E2.
    replace (Z.to_nat d) with (S (Z.to_nat (d - 1))) by lia. cbn [schedule].
    rewrite schedule_later by (simpl; lia).
    rewrite list.filter_app, (filter_all _ [n])
      by (intros ? ->%list_elem_of_singleton; simpl; lia).
    rewrite app_assoc, dispatch_all_app. destruct (dispatch_all _ s); simpl; [|done].
    by destruct (TimerTimeout a a0).
Qed.

End Dispatch.

End Proofs.

(** ** Witnesses *)

(** The handler that logs what it is called with. *)
Definition log_handler (a : Z) (log : list Z) : res (list Z) := Ok (log ++ [a]).

(** Two nodes due at tick 300 added at different times, one of them moved down
    a level on the way. *)
Lemma wheel_run_refines_alarm_witness :
  Forall op_ok (OpAdd 1 300 :: replicate 50 OpTick ++ OpAdd 2 250 :: replicate 250 OpTick) ∧
  res_rel (wheel_alarm (St := list Z))
    (wheel_run log_handler (OpAdd 1 300 :: replicate 50 OpTick ++ OpAdd 2 250 :: replicate 250 OpTick)
       (timer_create_timer, []))
    (alarm_run log_handler (OpAdd 1 300 :: replicate 50 OpTick ++ OpAdd 2 250 :: replicate 250 OpTick)
       (mk_alarm 0 [], [])).
Proof.
  assert (Forall (op_ok (A := Z))
    (OpAdd 1 300 :: replicate 50 OpTick ++ OpAdd 2 250 :: replicate 250 OpTick)) as H.
  { repeat constructor. all: unfold HORIZON; simpl; try lia. }
  split; [exact H|].
  apply (wheel_run_refines_alarm log_handler _ (timer_create_timer, []) (mk_alarm 0 [], []));
    [|exact H].
  split; [apply clock_inv_create|done].
Defined.

Lemma timer_fires_at_its_tick_witness :
  ∃ T1, timer_add timer_create_timer 7 70000 = Ok T1 ∧
    ∃ T2, wheel_run log_handler (replicate (Z.to_nat 70000) OpTick) (T1, []) = Ok (T2, [7]).
Proof.
  destruct (timer_fires_at_its_tick log_handler timer_create_timer [] 7 70000)
    as (T1 & E & _ & T2 & _ & H).
  - apply clock_inv_create.
  - unfold HORIZON. lia.
  - exists T1. split; [exact E|]. exists T2. rewrite H. by rewrite schedule_nil.
Defined.
