(* ===== verification/GameTimer.v ===== *)
(** * The keyed timers (src/common/timer.h, src/common/timer.cpp from line 217)

    [GameTimer] keeps a context object per handle, a map from timer keys to
    handles and the timing wheel, whose nodes carry a handle and a pointer to
    the context.  Contexts are objects of a heap, so that a node of a removed
    timer carries a dangling pointer, as in the code.  The theorems show that
    the three structures together implement a table of named alarms. *)

From Stdlib Require Import Ascii.
From S2P Require Import Prelude Spinlock TimerWheel.

Definition GAMETIMER_MAX_TIMER_KEY_LEN : Z := 128.
Definition GAMETIMER_MAX_TIMER_KEY_LEN_EXTRA : Z := 128 + 8.

(** Function and object pointers of a callback are opaque words. *)
Record ST_TimerCallback := mk_callback { m_pFuncCallback : Z; m_pstArgs : Z }.

(** A TimerQueue& is the number of the queue. *)
Record ST_TimerContext := mk_context {
  m_dwHandle : Z;
  m_achTimerKey : list ascii;
  m_stCallback : ST_TimerCallback;
  m_rstQueue : nat
}.

(** ** C strings *)

Definition NUL : ascii := Ascii.zero.

(** The characters before the first NUL, if there is one. *)
Fixpoint cstr_read (a : list ascii) : res (list ascii) :=
  match a with
  | [] => Fault OutOfBounds
  | c :: a => if decide (c = NUL) then Ok [] else s ← cstr_read a; Ok (c :: s)
  end.

(** The bytes [c_str()] points to, with the terminating NUL. *)
Definition key_bytes (s : string) : list ascii := String.list_ascii_of_string s ++ [NUL].

(** [strncpy (dst, src, n)] over an array of [n] bytes: the source up to its
    NUL, cut or padded with NULs to [n]. *)
Fixpoint strncpy (src : list ascii) (n : nat) : list ascii :=
  match n with
  | O => []
  | S n' =>
      match src with
      | [] => replicate n NUL
      | c :: src => if decide (c = NUL) then replicate n NUL else c :: strncpy src n'
      end
  end.

Definition ST_TimerContext_new (pchTimerKey : list ascii) (dwHandle : Z)
    (rstCallback : ST_TimerCallback) (rstQueue : nat) : ST_TimerContext :=
  mk_context dwHandle (strncpy pchTimerKey (Z.to_nat GAMETIMER_MAX_TIMER_KEY_LEN_EXTRA))
    rstCallback rstQueue.

(** std::string (m_achTimerKey) *)
Definition key_string (c : ST_TimerContext) : res string :=
  s ← cstr_read (m_achTimerKey c); Ok (String.string_of_list_ascii s).

(** ** Queues of expired timers *)

Record TimerQueue := mk_queue {
  q_lock : spinlock;
  m_vecQueue : list ST_TimerContext
}.

Definition TimerQueue_new : TimerQueue := mk_queue spinlock_init [].

Definition TimerQueue_Init (q : TimerQueue) : TimerQueue := mk_queue (q_lock q) [].

(** The vector receives a copy of the context. *)
Definition PushQueue (q : TimerQueue) (rstCtx : ST_TimerContext) : res TimerQueue :=
  l ← spinlock_lock (q_lock q);
  Ok (mk_queue (spinlock_unlock l) (m_vecQueue q ++ [rstCtx])).

(** ** GameTimer *)

Record timer_event := mk_event { handle : Z; ctx : nat }.

(** The members of GameTimer other than the wheel, with the objects they point
    to: contexts by address, the next address [new] returns, and queues by
    number. *)
Record timer_tables := mk_tables {
  m_dwCounter : Z;
  m_stLock : spinlock;
  m_mContextMap : gmap Z nat;
  m_mTimerKeyMap : gmap string Z;
  heap : gmap nat ST_TimerContext;
  next_ctx : nat;
  queues : gmap nat TimerQueue
}.

Record GameTimer := mk_game_timer {
  tables : timer_tables;
  m_pstTimer : option (timer timer_event)
}.

Definition set_counter (s : timer_tables) (c : Z) : timer_tables :=
  mk_tables c (m_stLock s) (m_mContextMap s) (m_mTimerKeyMap s) (heap s) (next_ctx s) (queues s).
Definition set_lock (s : timer_tables) (l : spinlock) : timer_tables :=
  mk_tables (m_dwCounter s) l (m_mContextMap s) (m_mTimerKeyMap s) (heap s) (next_ctx s) (queues s).
Definition set_ctx_map (s : timer_tables) (m : gmap Z nat) : timer_tables :=
  mk_tables (m_dwCounter s) (m_stLock s) m (m_mTimerKeyMap s) (heap s) (next_ctx s) (queues s).
Definition set_key_map (s : timer_tables) (m : gmap string Z) : timer_tables :=
  mk_tables (m_dwCounter s) (m_stLock s) (m_mContextMap s) m (heap s) (next_ctx s) (queues s).
Definition set_heap (s : timer_tables) (h : gmap nat ST_TimerContext) : timer_tables :=
  mk_tables (m_dwCounter s) (m_stLock s) (m_mContextMap s) (m_mTimerKeyMap s) h (next_ctx s) (queues s).
Definition set_queues (s : timer_tables) (q : gmap nat TimerQueue) : timer_tables :=
  mk_tables (m_dwCounter s) (m_stLock s) (m_mContextMap s) (m_mTimerKeyMap s) (heap s) (next_ctx s) q.

(** [new] and [delete] on contexts, and the access through a pointer. *)
Definition ctx_new (s : timer_tables) (c : ST_TimerContext) : nat * timer_tables :=
  (next_ctx s,
   mk_tables (m_dwCounter s) (m_stLock s) (m_mContextMap s) (m_mTimerKeyMap s)
     (<[next_ctx s := c]> (heap s)) (S (next_ctx s)) (queues s)).

Definition ctx_load (s : timer_tables) (p : nat) : res ST_TimerContext :=
  match heap s !! p with
  | Some c => Ok c
  | None => Fault UseAfterFree
  end.

Definition ctx_delete (s : timer_tables) (p : nat) : res timer_tables :=
  match heap s !! p with
  | Some _ => Ok (set_heap s (delete p (heap s)))
  | None => Fault UseAfterFree
  end.

(** ST_TimerContext::Timeout through the pointer [p]. *)
Definition Timeout (s : timer_tables) (p : nat) : res timer_tables :=
  c ← ctx_load s p;
  match queues s !! m_rstQueue c with
  | None => Fault UseAfterFree
  | Some q =>
      q ← PushQueue q c;
      Ok (set_queues s (<[m_rstQueue c := q]> (queues s)))
  end.

(** The while loop of _RemoveTimerHandle. *)
Fixpoint remove_loop (fuel : nat) (s : timer_tables) (handle : Z) : res timer_tables :=
  match m_mContextMap s !! handle with
  | None => Ok s
  | Some pstTimerCtx =>
      match fuel with
      | O => Fault OutOfFuel
      | S fuel =>
          c ← ctx_load s pstTimerCtx;
          sTimerkey ← key_string c;
          let s :=
            match m_mTimerKeyMap s !! sTimerkey with
            | Some _ => set_key_map s (delete sTimerkey (m_mTimerKeyMap s))
            | None => s
            end in
          s ← ctx_delete s pstTimerCtx;
          let s := set_ctx_map s (delete handle (m_mContextMap s)) in
          remove_loop fuel s handle
      end
  end.

Definition _RemoveTimerHandle (s : timer_tables) (handle : Z) : res timer_tables :=
  remove_loop 1 s handle.

Definition TimerTimeout (e : timer_event) (s : timer_tables) : res timer_tables :=
  l ← spinlock_lock (m_stLock s);
  let s := set_lock s l in
  s ← match m_mContextMap s !! handle e with
      | Some _ => Timeout s (ctx e)
      | None => Ok s
      end;
  s ← _RemoveTimerHandle s (handle e);
  Ok (set_lock s (spinlock_unlock (m_stLock s))).

(** The while loop of _GenerateHandleID. *)
Fixpoint generate_loop (fuel : nat) (m : gmap Z nat) (counter : Z) : res Z :=
  if bool_decide (is_Some (m !! counter)) || (counter >=? UINT32_MAX) then
    match fuel with
    | O => Fault OutOfFuel
    | S fuel =>
        let counter := if counter >=? UINT32_MAX then 0 else counter in
        generate_loop fuel m (u32 (counter + 1))
    end
  else Ok counter.

(** The loop visits a handle at most once per entry of the map, and the value
    UINT32_MAX at most once. *)
Definition _GenerateHandleID (s : timer_tables) : res (Z * timer_tables) :=
  c ← generate_loop (size (m_mContextMap s) + 1) (m_mContextMap s) (u32 (m_dwCounter s + 1));
  Ok (c, set_counter s c).

Definition Timer (g : GameTimer) : res (timer timer_event) :=
  match m_pstTimer g with
  | Some T => Ok T
  | None => Fault AssertFail
  end.

Definition _AddTimerHandle (g : GameTimer) (handle time : Z) (rstTimerCtx : nat) : res GameTimer :=
  if time <=? 0 then
    s ← TimerTimeout (mk_event handle rstTimerCtx) (tables g);
    Ok (mk_game_timer s (m_pstTimer g))
  else
    T ← Timer g;
    T ← timer_add T (mk_event handle rstTimerCtx) time;
    Ok (mk_game_timer (tables g) (Some T)).

(** AddTimer (std::string&, ...) *)
Definition AddTimer (g : GameTimer) (sTimerKey : string) (time func args : Z) (rstQueue : nat)
    : res (Z * GameTimer) :=
  if GAMETIMER_MAX_TIMER_KEY_LEN <? Z.of_nat (String.length sTimerKey) then Ok (-2, g)
  else
    let stCallback := mk_callback func args in
    let s := tables g in
    l ← spinlock_lock (m_stLock s);
    let s := set_lock s l in
    s ← match m_mTimerKeyMap s !! sTimerKey with
        | Some h => _RemoveTimerHandle s h
        | None => Ok s
        end;
    '(dwHandleID, s) ← _GenerateHandleID s;
    let '(pstTimerCtx, s) :=
      ctx_new s (ST_TimerContext_new (key_bytes sTimerKey) dwHandleID stCallback rstQueue) in
    let s := set_ctx_map s (map_insert_new dwHandleID pstTimerCtx (m_mContextMap s)) in
    let s := set_key_map s (map_insert_new sTimerKey dwHandleID (m_mTimerKeyMap s)) in
    g ← _AddTimerHandle (mk_game_timer s (m_pstTimer g)) dwHandleID time pstTimerCtx;
    let s := tables g in
    Ok (0, mk_game_timer (set_lock s (spinlock_unlock (m_stLock s))) (m_pstTimer g)).

(** AddTimer (const char*, ...); [None] is the null pointer, [Some a] the bytes
    the pointer leads to. *)
Definition AddTimer_cstr (g : GameTimer) (pchTimerKey : option (list ascii)) (time func args : Z)
    (rstQueue : nat) : res (Z * GameTimer) :=
  match pchTimerKey with
  | None => Ok (-1, g)
  | Some a =>
      sKey ← cstr_read a;
      AddTimer g (String.string_of_list_ascii sKey) time func args rstQueue
  end.

(** RemoveTimer (std::string&) *)
Definition RemoveTimer (g : GameTimer) (sTimerKey : string) : res (Z * GameTimer) :=
  if GAMETIMER_MAX_TIMER_KEY_LEN <? Z.of_nat (String.length sTimerKey) then Ok (-2, g)
  else
    let s := tables g in
    l ← spinlock_lock (m_stLock s);
    let s := set_lock s l in
    s ← match m_mTimerKeyMap s !! sTimerKey with
        | Some h => _RemoveTimerHandle s h
        | None => Ok s
        end;
    let s := set_key_map s (delete sTimerKey (m_mTimerKeyMap s)) in
    Ok (0, mk_game_timer (set_lock s (spinlock_unlock (m_stLock s))) (m_pstTimer g)).

(** RemoveTimer (const char* ) *)
Definition RemoveTimer_cstr (g : GameTimer) (pchTimerKey : option (list ascii))
    : res (Z * GameTimer) :=
  match pchTimerKey with
  | None => Ok (-1, g)
  | Some a =>
      sKey ← cstr_read a;
      RemoveTimer g (String.string_of_list_ascii sKey)
  end.

Definition set_current (T : timer timer_event) (c cp : Z) : timer timer_event :=
  mk_timer (near T) (t T) (tlock T) (TimerWheel.time T) (starttime T) c cp.

(** The for loop of TimerUpdate. *)
Fixpoint update_loop (n : nat) (T : timer timer_event) (s : timer_tables)
    : res (timer timer_event * timer_tables) :=
  match n with
  | O => Ok (T, s)
  | S n => '(T, s) ← timer_update TimerTimeout T s; update_loop n T s
  end.

(** [cp] is what gettime returns: centiseconds of CLOCK_MONOTONIC. *)
Definition TimerUpdate (g : GameTimer) (cp : Z) : res GameTimer :=
  T ← Timer g;
  if cp <? current_point T then Ok (mk_game_timer (tables g) (Some (set_current T (current T) cp)))
  else if negb (cp =? current_point T) then
    let diff := u32 (cp - current_point T) in
    let T := set_current T (u64 (current T + diff)) cp in
    '(T, s) ← update_loop (Z.to_nat diff) T (tables g);
    Ok (mk_game_timer s (Some T))
  else Ok g.

(** systime and gettime on the clock's seconds and nanoseconds. *)
Definition systime (tv_sec tv_nsec : Z) : Z * Z := (u32 tv_sec, u32 (tv_nsec `quot` 10000000)).
Definition gettime (tv_sec tv_nsec : Z) : Z :=
  u64 (u64 (tv_sec * 100) + tv_nsec `quot` 10000000).

Definition TimerInit (g : GameTimer) (realtime monotonic : Z * Z) : GameTimer :=
  let T := timer_create_timer in
  let '(sec, cs) := systime realtime.1 realtime.2 in
  mk_game_timer (tables g)
    (Some (mk_timer (near T) (t T) (tlock T) (TimerWheel.time T) sec cs
             (gettime monotonic.1 monotonic.2))).

(** The constructor, with the queues that exist around it. *)
Definition GameTimer_new (qs : gmap nat TimerQueue) : GameTimer :=
  mk_game_timer (mk_tables 0 spinlock_init ∅ ∅ ∅ 0 qs) None.

(** TimerQueue::PrepareExecute of queue [q] into queue [r]. *)
Definition PrepareExecute (s : timer_tables) (q r : nat) : res timer_tables :=
  match queues s !! q, queues s !! r with
  | Some Q, Some R =>
      l ← spinlock_lock (q_lock Q);
      let qs := <[q := mk_queue l (m_vecQueue R)]> (queues s) in
      let qs := alter (fun R => mk_queue (q_lock R) (m_vecQueue Q)) r qs in
      let qs := alter TimerQueue_Init q qs in
      let qs := alter (fun Q => mk_queue (spinlock_unlock (q_lock Q)) (m_vecQueue Q)) q qs in
      Ok (set_queues s qs)
  | _, _ => Fault UseAfterFree
  end.

(** ** Fresh handles *)

Section Generate.
Context (m : gmap Z nat).

(** The [j]-th value the counter takes, from [c] on. *)
Definition nth_counter (c : Z) (j : nat) : Z := (c - 1 + Z.of_nat j) mod UINT32_MAX + 1.

Lemma nth_counter_S c j :
  1 <= c <= UINT32_MAX →
  nth_counter (u32 ((if c >=? UINT32_MAX then 0 else c) + 1)) j = nth_counter c (S j).
Proof using.
  unfold nth_counter, UINT32_MAX. intros Hc.
  destruct (Z.geb_spec c 4294967295).
  - assert (c = 4294967295) as -> by lia. simpl Z.add. change (u32 1) with 1. f_equal.
    replace (4294967295 - 1 + Z.of_nat (S j)) with (1 - 1 + Z.of_nat j + 1 * 4294967295) by lia.
    by rewrite Z.mod_add.
  - rewrite u32_small by lia. f_equal. f_equal. lia.
Qed.

Lemma nth_counter_inj c i j :
  (i < Z.to_nat UINT32_MAX)%nat → (j < Z.to_nat UINT32_MAX)%nat →
  nth_counter c i = nth_counter c j → i = j.
Proof using. unfold nth_counter, UINT32_MAX. intros. Z.div_mod_to_equations. lia. Qed.

Definition taken (c : Z) : Prop := is_Some (m !! c) ∨ c = UINT32_MAX.

Lemma generate_loop_spec fuel c :
  1 <= c <= UINT32_MAX →
  match generate_loop fuel m c with
  | Ok h => ¬ taken h ∧ 1 <= h < UINT32_MAX ∧ (¬ taken c → h = c)
  | Fault f => ∀ j, (j <= fuel)%nat → taken (nth_counter c j)
  end.
Proof.
  revert c. induction fuel as [|fuel IH]; intros c Hc; cbn [generate_loop].
  all: assert (nth_counter c 0 = c) as E0
    by (unfold nth_counter; rewrite Z.add_0_r, Z.mod_small; unfold UINT32_MAX in *; lia).
  all: assert ((bool_decide (is_Some (m !! c)) || (c >=? UINT32_MAX)) = bool_decide (taken c)) as ->
    by (apply eq_bool_prop_intro; rewrite orb_True, !bool_decide_spec, Is_true_true, Z.geb_le;
        unfold taken; intuition lia).
  all: case_bool_decide as Ht.
  - intros j Hj. assert (j = 0)%nat as -> by lia. by rewrite E0.
  - split_and!; try done; try lia. destruct (decide (c = UINT32_MAX)); [|lia].
    by destruct Ht; right.
  - specialize (IH (u32 ((if c >=? UINT32_MAX then 0 else c) + 1))).
    assert (1 <= u32 ((if c >=? UINT32_MAX then 0 else c) + 1) <= UINT32_MAX) as Hc'.
    { unfold UINT32_MAX in *. destruct (Z.geb_spec c 4294967295); rewrite u32_small; lia. }
    destruct (generate_loop fuel m _) as [h|f].
    + destruct IH as (? & ? & _); [done|]. split_and!; [done|lia|lia|]. by intros [].
    + intros [|j] Hj; [by rewrite E0|]. rewrite <- nth_counter_S by done. apply IH; [done|lia].
  - split_and!; try done; try lia. destruct (decide (c = UINT32_MAX)); [|lia].
    by destruct Ht; right.
Qed.

Lemma generate_loop_total c :
  1 <= c <= UINT32_MAX → (size m + 1 < Z.to_nat UINT32_MAX)%nat →
  ∃ h, generate_loop (size m + 1) m c = Ok h ∧ m !! h = None ∧ 1 <= h < UINT32_MAX ∧
    (m !! c = None → c < UINT32_MAX → h = c).
Proof.
  intros Hc Hs. pose proof (generate_loop_spec (size m + 1) c Hc) as Hg.
  destruct (generate_loop (size m + 1) m c) as [h|f].
  - destruct Hg as (Ht & Hh & He). exists h. split_and!; [done| |lia|lia|].
    + apply eq_None_not_Some. intros Hx. apply Ht. by left.
    + intros Hn Hlt. apply He. intros [[x Hx]|?]; [congruence|lia].
  - exfalso. set (S := list_to_set (nth_counter c <$> seq 0 (size m + 2)) : gset Z).
    assert (S ⊆ {[UINT32_MAX]} ∪ dom m) as Hsub.
    { intros x. unfold S. rewrite elem_of_list_to_set, list_elem_of_fmap.
      intros (j & -> & Hj%elem_of_seq). destruct (Hg j) as [H|H]; [lia| |].
      - apply elem_of_union_r, elem_of_dom, H.
      - apply elem_of_union_l. by apply elem_of_singleton. }
    apply subseteq_size in Hsub. rewrite size_union_alt, size_singleton in Hsub.
    assert (size (dom m ∖ {[UINT32_MAX]}) <= size (dom m))%nat as Hd
      by (by apply subseteq_size, subseteq_difference_l).
    rewrite size_dom in Hd. unfold S in Hsub. rewrite size_list_to_set, length_fmap, length_seq in Hsub.
    + lia.
    + apply NoDup_fmap_2_strong, NoDup_seq. intros i j Hi%elem_of_seq Hj%elem_of_seq.
      apply nth_counter_inj; lia.
Qed.

End Generate.

(** ** Keys in contexts *)

Definition key_ok (k : string) : Prop :=
  (String.length k <= 128)%nat ∧ NUL ∉ String.list_ascii_of_string k.

Lemma cstr_read_app (l r : list ascii) : NUL ∉ l → cstr_read (l ++ NUL :: r) = Ok l.
Proof.
  induction l as [|c l IH]; intros Hl; [done|]. simpl.
  rewrite decide_False by (intros ->; apply Hl; left).
  rewrite IH by (intros ?; apply Hl; by right). done.
Qed.

Lemma strncpy_short (l : list ascii) n :
  NUL ∉ l → (length l < n)%nat → ∃ r, strncpy (l ++ [NUL]) n = l ++ NUL :: r.
Proof.
  revert n. induction l as [|c l IH]; intros [|n] Hl Hn; simpl in *; [lia|by eexists|lia|].
  rewrite decide_False by (intros ->; apply Hl; left).
  destruct (IH n) as [r ->]; [intros ?; apply Hl; by right|lia|]. by eexists.
Qed.

Lemma length_list_ascii k : length (String.list_ascii_of_string k) = String.length k.
Proof. induction k; simpl; congruence. Qed.

(** The key copied into the context is read back. *)
Lemma key_string_new k h cb q :
  key_ok k → key_string (ST_TimerContext_new (key_bytes k) h cb q) = Ok k.
Proof.
  intros [Hlen Hnul]. unfold key_string, ST_TimerContext_new, key_bytes. cbn [m_achTimerKey].
  destruct (strncpy_short (String.list_ascii_of_string k)
    (Z.to_nat GAMETIMER_MAX_TIMER_KEY_LEN_EXTRA)) as [r ->]; [done| |].
  { rewrite length_list_ascii. change (Z.to_nat GAMETIMER_MAX_TIMER_KEY_LEN_EXTRA) with 136%nat. lia. }
  rewrite cstr_read_app by done. simpl. by rewrite String.string_of_list_ascii_of_string.
Qed.

(** ** The invariant of the tables and the wheel's pending nodes *)

Abbreviation node := (timer_node timer_event).

Record tables_inv (s : timer_tables) (L : list node) : Prop := {
  ti_ctx : ∀ h p, m_mContextMap s !! h = Some p → ∃ c k,
    heap s !! p = Some c ∧ m_dwHandle c = h ∧ key_string c = Ok k ∧
    m_mTimerKeyMap s !! k = Some h ∧ is_Some (queues s !! m_rstQueue c);
  ti_key : ∀ k h, m_mTimerKeyMap s !! k = Some h → ∃ p c,
    m_mContextMap s !! h = Some p ∧ heap s !! p = Some c ∧ key_string c = Ok k;
  ti_heap : ∀ p c, heap s !! p = Some c →
    m_mContextMap s !! m_dwHandle c = Some p ∧ (p < next_ctx s)%nat;
  ti_node : ∀ n : node, n ∈ L → 1 <= handle (arg n) <= m_dwCounter s ∧
    ∀ p, m_mContextMap s !! handle (arg n) = Some p → p = ctx (arg n);
  ti_live : ∀ h p, m_mContextMap s !! h = Some p → ∃ n, n ∈ L ∧ handle (arg n) = h;
  ti_once : NoDup ((fun n : node => handle (arg n)) <$> L);
  ti_queues : ∀ q Q, queues s !! q = Some Q → unlocked (q_lock Q);
  ti_counter : 0 <= m_dwCounter s < UINT32_MAX
}.

(** What a pending node stands for: nothing if its timer was removed. *)
Definition entry (s : timer_tables) (n : node) : option (Z * ST_TimerContext) :=
  p ← m_mContextMap s !! handle (arg n);
  c ← heap s !! p;
  Some (expire n, c).

Definition alarms (s : timer_tables) (L : list node) : list (Z * ST_TimerContext) :=
  omap (entry s) L.

(** The tables without the timer of handle [h], whose context [c] with key [k]
    is at [p]. *)
Definition tables_without (s : timer_tables) (h : Z) (p : nat) (k : string) : timer_tables :=
  mk_tables (m_dwCounter s) (m_stLock s) (delete h (m_mContextMap s))
    (delete k (m_mTimerKeyMap s)) (delete p (heap s)) (next_ctx s) (queues s).

Section Tables.
Context (s : timer_tables) (L : list node) (HI : tables_inv s L).

Lemma remove_present h p :
  m_mContextMap s !! h = Some p → ∃ c k,
  heap s !! p = Some c ∧ m_dwHandle c = h ∧ key_string c = Ok k ∧
  m_mTimerKeyMap s !! k = Some h ∧ _RemoveTimerHandle s h = Ok (tables_without s h p k).
Proof using HI.
  intros Hp. destruct (ti_ctx s L HI h p Hp) as (c & k & Hc & Hh & Hk & Hkm & _).
  exists c, k. split_and!; try done.
  unfold _RemoveTimerHandle, remove_loop. rewrite Hp. unfold ctx_load. rewrite Hc, !bind_Ok, Hk, !bind_Ok.
  rewrite Hkm. unfold ctx_delete. cbn [heap set_key_map]. rewrite Hc, bind_Ok.
  cbn [m_mContextMap set_ctx_map set_heap set_key_map]. by rewrite lookup_delete_eq.
Qed.

Lemma remove_absent h : m_mContextMap s !! h = None → _RemoveTimerHandle s h = Ok s.
Proof. intros Hn. unfold _RemoveTimerHandle, remove_loop. by rewrite Hn. Qed.

Context (h : Z) (p : nat) (c : ST_TimerContext) (k : string).
Context (Hp : m_mContextMap s !! h = Some p) (Hc : heap s !! p = Some c).
Context (Hh : m_dwHandle c = h) (Hk : key_string c = Ok k) (Hkm : m_mTimerKeyMap s !! k = Some h).

Lemma other_ctx h' p' : h' ≠ h → m_mContextMap s !! h' = Some p' → p' ≠ p.
Proof using HI Hc Hh.
  intros Hne Hp' ->. destruct (ti_ctx s L HI h' p Hp') as (c' & _ & Hc' & Hh' & _). congruence.
Qed.

Lemma tables_without_inv : tables_inv (tables_without s h p k) L.
Proof using HI Hp Hc Hh Hk Hkm.
  constructor; cbn [m_mContextMap m_mTimerKeyMap heap queues next_ctx m_dwCounter tables_without].
  - intros h' p' [Hne Hp']%lookup_delete_Some.
    destruct (ti_ctx s L HI h' p' Hp') as (c' & k' & Hc' & Hh' & Hk' & Hkm' & Hq).
    exists c', k'. split_and!; try done.
    + rewrite lookup_delete_ne; [done|]. by apply not_eq_sym, (other_ctx h' p').
    + rewrite lookup_delete_ne; [done|]. congruence.
  - intros k' h' [Hne Hk']%lookup_delete_Some.
    destruct (ti_key s L HI k' h' Hk') as (p' & c' & Hp' & Hc' & Hs').
    assert (h' ≠ h) by congruence.
    exists p', c'. split_and!; [by rewrite lookup_delete_ne| |done].
    rewrite lookup_delete_ne; [done|]. by apply not_eq_sym, (other_ctx h' p').
  - intros p' c' [Hne Hc']%lookup_delete_Some. destruct (ti_heap s L HI p' c' Hc') as [Hm Hlt].
    split; [|done]. rewrite lookup_delete_ne; [done|]. intros E. congruence.
  - intros n Hn. destruct (ti_node s L HI n Hn) as [? Hptr]. split; [done|].
    intros p' [_ Hp']%lookup_delete_Some. by apply Hptr.
  - intros h' p' [_ Hp']%lookup_delete_Some. by apply (ti_live s L HI h' p').
  - apply HI.
  - apply HI.
  - apply HI.
Qed.

Lemma entry_without n :
  entry (tables_without s h p k) n = if decide (handle (arg n) = h) then None else entry s n.
Proof using HI Hp Hc Hh.
  unfold entry, tables_without. cbn. case_decide as E.
  - rewrite E. by rewrite lookup_delete_eq.
  - rewrite lookup_delete_ne by done. destruct (m_mContextMap s !! handle (arg n)) as [p'|] eqn:Ep; [|done]. cbn.
    rewrite lookup_delete_ne; [done|]. by apply not_eq_sym, (other_ctx (handle (arg n)) p').
Qed.

End Tables.

(** ** The effect of the operations on alarms and queues *)

Definition push_all (Qs : gmap nat (list ST_TimerContext)) (es : list (Z * ST_TimerContext))
    : gmap nat (list ST_TimerContext) :=
  fold_left (fun Qs e => alter (.++ [e.2]) (m_rstQueue e.2) Qs) es Qs.

Definition contents (s : timer_tables) : gmap nat (list ST_TimerContext) := m_vecQueue <$> queues s.

Lemma entry_handle s L n e : tables_inv s L → entry s n = Some e →
  m_dwHandle e.2 = handle (arg n) ∧ e.1 = expire n ∧ ∃ k, key_string e.2 = Ok k ∧
  m_mTimerKeyMap s !! k = Some (handle (arg n)).
Proof.
  intros HI He. unfold entry in He.
  destruct (m_mContextMap s !! handle (arg n)) as [p|] eqn:Ep; [|done]. cbn in He.
  destruct (ti_ctx s L HI _ p Ep) as (c & k & Hc & Hh & Hk & Hkm & _). rewrite Hc in He.
  injection He as <-. eauto.
Qed.

Lemma tables_inv_lock s L l : tables_inv s L → tables_inv (set_lock s l) L.
Proof. by intros []. Qed.

Lemma tables_inv_queues s L qs :
  tables_inv s L → (∀ q, is_Some (queues s !! q) → is_Some (qs !! q)) →
  (∀ q Q, qs !! q = Some Q → unlocked (q_lock Q)) → tables_inv (set_queues s qs) L.
Proof.
  intros [] Hqs Hfree. constructor; cbn; try done.
  intros h p Hp. destruct (ti_ctx0 h p Hp) as (c' & k & ? & ? & ? & ? & ?).
  exists c', k. split_and!; try done. by apply Hqs.
Qed.

Lemma tables_inv_push s L q Q c :
  tables_inv s L → queues s !! q = Some Q →
  tables_inv (set_queues (set_lock s (mk_spinlock 1))
    (<[q := mk_queue (spinlock_unlock (mk_spinlock 1)) (m_vecQueue Q ++ [c])]> (queues s))) L.
Proof.
  intros HI HQ. apply tables_inv_queues; [by apply tables_inv_lock|..].
  - intros i Hi. by apply lookup_insert_is_Some'; right.
  - intros i X [[_ <-]|[_ HX]]%lookup_insert_Some; [done|by apply (ti_queues s L HI i X)].
Qed.

Lemma alter_push_queue (qs : gmap nat TimerQueue) q Q c l :
  qs !! q = Some Q →
  m_vecQueue <$> <[q := mk_queue l (m_vecQueue Q ++ [c])]> qs =
  alter (.++ [c]) q (m_vecQueue <$> qs).
Proof.
  intros HQ. apply map_eq. intros i. rewrite lookup_fmap.
  destruct (decide (i = q)) as [->|Hi].
  - rewrite lookup_insert_eq, lookup_alter_eq, lookup_fmap, HQ. done.
  - by rewrite lookup_insert_ne, lookup_alter_ne, lookup_fmap.
Qed.

(** [Timeout] and the removal, under the lock. *)
Lemma TimerTimeout_spec s L n :
  tables_inv s L → unlocked (m_stLock s) → n ∈ L →
  ∃ s', TimerTimeout (arg n) s = Ok s' ∧ tables_inv s' L ∧ unlocked (m_stLock s') ∧
    m_dwCounter s' = m_dwCounter s ∧
    contents s' = push_all (contents s) (omap (entry s) [n]) ∧
    (∀ n', entry s' n' = if decide (handle (arg n') = handle (arg n)) then None else entry s n').
Proof.
  intros HI Hl Hn. unfold TimerTimeout. rewrite (spinlock_lock_free _ Hl), bind_Ok.
  cbn [set_lock m_mContextMap].
  destruct (m_mContextMap s !! handle (arg n)) as [p|] eqn:Ep.
  - destruct (ti_node s L HI n Hn) as [_ Hptr]. rewrite <- (Hptr p Ep).
    destruct (ti_ctx s L HI _ p Ep) as (c & k & Hc & Hh & Hk & Hkm & [Q HQ]).
    unfold Timeout, ctx_load. cbn [set_lock heap queues]. rewrite Hc, bind_Ok, HQ.
    unfold PushQueue. rewrite (spinlock_lock_free _ (ti_queues s L HI _ Q HQ)), !bind_Ok.
    pose proof (tables_inv_push s L _ Q c HI HQ) as HI1.
    set (s1 := set_queues (set_lock s (mk_spinlock 1)) _).
    destruct (remove_present s1 L HI1 (handle (arg n)) p Ep) as (c' & k' & Hc' & Hh' & Hk' & Hkm' & ->).
    rewrite bind_Ok. assert (c' = c) as -> by (cbn in Hc'; congruence).
    eexists. split_and!; [done|..].
    + apply tables_inv_lock. by eapply tables_without_inv.
    + done.
    + done.
    + cbn [omap list_omap]. unfold entry at 1. rewrite Ep. cbn. rewrite Hc. cbn.
      unfold contents. cbn. by apply alter_push_queue.
    + intros n'. change (entry (set_lock ?x _) n') with (entry x n').
      by rewrite (entry_without s1 L HI1 (handle (arg n)) p c k').
  - rewrite bind_Ok. rewrite (remove_absent (set_lock s (mk_spinlock 1))) by done.
    rewrite bind_Ok. eexists. split_and!; [done|by repeat apply tables_inv_lock|done|done|..].
    + cbn [omap list_omap]. unfold entry at 1. by rewrite Ep.
    + intros n'. change (entry (set_lock (set_lock s _) _) n') with (entry s n').
      case_decide as E; [|done]. unfold entry. by rewrite E, Ep.
Qed.

Lemma dispatch_spec ns s L :
  tables_inv s L → unlocked (m_stLock s) → (∀ n, n ∈ ns → n ∈ L) →
  NoDup ((fun n : node => handle (arg n)) <$> ns) →
  ∃ s', dispatch_all TimerTimeout ns s = Ok s' ∧ tables_inv s' L ∧ unlocked (m_stLock s') ∧
    m_dwCounter s' = m_dwCounter s ∧
    contents s' = push_all (contents s) (omap (entry s) ns) ∧
    (∀ n', entry s' n' =
      if decide (handle (arg n') ∈ (fun n : node => handle (arg n)) <$> ns) then None else entry s n').
Proof.
  revert s. induction ns as [|n ns IH]; intros s HI Hl Hsub Hnd.
  - exists s. split_and!; try done.
  - destruct (TimerTimeout_spec s L n) as (s1 & E1 & HI1 & Hl1 & Hc1 & Hq1 & He1);
      [done|done|apply Hsub; left|].
    rewrite fmap_cons in Hnd. apply list.NoDup_cons in Hnd as [Hnin Hnd].
    destruct (IH s1 HI1 Hl1) as (s2 & E2 & HI2 & Hl2 & Hc2 & Hq2 & He2); [|done|].
    { intros n' Hn'. apply Hsub. by right. }
    exists s2. split_and!; try done.
    + simpl. by rewrite E1.
    + congruence.
    + rewrite Hq2, Hq1. rewrite (list_omap_ext (entry s1) (entry s) ns ns).
      * simpl. by destruct (entry s n).
      * apply Forall_Forall2_diag, list.Forall_forall. intros n' Hn'. rewrite He1, decide_False; [done|].
        intros E. apply Hnin. rewrite <- E. by apply (list_elem_of_fmap_2 (fun n : node => handle (arg n))).
    + intros n'. rewrite He2, He1. cbn [fmap list_fmap].
      destruct (decide (handle (arg n') ∈ handle (arg n) :: _)) as [Hin|Hin].
      * apply elem_of_cons in Hin as [Hin|Hin]; [rewrite (decide_True (P := _ = _)) by done|].
        -- by case_decide.
        -- by rewrite decide_True.
      * apply not_elem_of_cons in Hin as [? ?]. by rewrite !decide_False.
Qed.

(** ** The specification: a table of named alarms

    Alarms in order of their addition, each with its deadline; at most one per
    key.  [a_counter] numbers the alarms. *)

Record alarm_table := mk_alarm_table {
  a_time : Z;
  a_point : Z;
  a_counter : Z;
  a_alarms : list (Z * ST_TimerContext);
  a_queues : gmap nat (list ST_TimerContext)
}.

Definition other_key (k : string) (e : Z * ST_TimerContext) : Prop := key_string e.2 ≠ Ok k.
#[export] Instance other_key_dec k e : Decision (other_key k e).
Proof. unfold other_key. apply _. Defined.

Definition spec_add (A : alarm_table) (k : string) (d func args : Z) (q : nat) : alarm_table :=
  mk_alarm_table (a_time A) (a_point A) (a_counter A + 1)
    (filter (other_key k) (a_alarms A) ++
      [(u32 (d + a_time A),
        ST_TimerContext_new (key_bytes k) (a_counter A + 1) (mk_callback func args) q)])
    (a_queues A).

Definition spec_remove (A : alarm_table) (k : string) : alarm_table :=
  mk_alarm_table (a_time A) (a_point A) (a_counter A) (filter (other_key k) (a_alarms A)) (a_queues A).

(** Alarms due at the next tick go to their queues, oldest first. *)
Definition spec_tick (A : alarm_table) : alarm_table :=
  let c := u32 (a_time A + 1) in
  mk_alarm_table c (a_point A) (a_counter A) (filter (fun e => e.1 ≠ c) (a_alarms A))
    (push_all (a_queues A) (filter (fun e => e.1 = c) (a_alarms A))).

Definition spec_set_point (A : alarm_table) (cp : Z) : alarm_table :=
  mk_alarm_table (a_time A) cp (a_counter A) (a_alarms A) (a_queues A).

Definition spec_update (A : alarm_table) (cp : Z) : alarm_table :=
  if cp <? a_point A then spec_set_point A cp
  else Nat.iter (Z.to_nat (u32 (cp - a_point A))) spec_tick (spec_set_point A cp).

Definition spec_prepare (A : alarm_table) (q r : nat) : alarm_table :=
  mk_alarm_table (a_time A) (a_point A) (a_counter A) (a_alarms A)
    (<[q := []]> (<[r := a_queues A !!! q]> (a_queues A))).

Inductive game_op :=
| GAdd (k : string) (d func args : Z) (q : nat)
| GRemove (k : string)
| GUpdate (cp : Z)
| GPrepare (q r : nat).

Definition too_long (k : string) : bool := 128 <? Z.of_nat (String.length k).

Definition spec_step (op : game_op) (A : alarm_table) : Z * alarm_table :=
  match op with
  | GAdd k d func args q => if too_long k then (-2, A) else (0, spec_add A k d func args q)
  | GRemove k => if too_long k then (-2, A) else (0, spec_remove A k)
  | GUpdate cp => (0, spec_update A cp)
  | GPrepare q r => (0, spec_prepare A q r)
  end.

Definition game_step (op : game_op) (g : GameTimer) : res (Z * GameTimer) :=
  match op with
  | GAdd k d func args q => AddTimer g k d func args q
  | GRemove k => RemoveTimer g k
  | GUpdate cp => g ← TimerUpdate g cp; Ok (0, g)
  | GPrepare q r => s ← PrepareExecute (tables g) q r; Ok (0, mk_game_timer s (m_pstTimer g))
  end.

(** Return codes and final state of a run. *)
Fixpoint game_run (ops : list game_op) (g : GameTimer) : res (list Z * GameTimer) :=
  match ops with
  | [] => Ok ([], g)
  | op :: ops =>
      '(r, g) ← game_step op g;
      '(rs, g) ← game_run ops g;
      Ok (r :: rs, g)
  end.

Fixpoint spec_run (ops : list game_op) (A : alarm_table) : list Z * alarm_table :=
  match ops with
  | [] => ([], A)
  | op :: ops =>
      let '(r, A) := spec_step op A in
      let '(rs, A) := spec_run ops A in
      (r :: rs, A)
  end.

(** Keys are C strings, delays positive ints, queues exist. *)
Definition game_op_ok (qs : gset nat) (op : game_op) : Prop :=
  match op with
  | GAdd k d _ _ q => (NUL ∉ String.list_ascii_of_string k) ∧ 0 < d < HORIZON ∧ q ∈ qs
  | GRemove k => NUL ∉ String.list_ascii_of_string k
  | GUpdate _ => True
  | GPrepare q r => q ∈ qs ∧ r ∈ qs
  end.

#[export] Instance game_op_ok_dec qs op : Decision (game_op_ok qs op).
Proof. destruct op; cbn [game_op_ok]; apply _. Defined.

Record game_rel (g : GameTimer) (A : alarm_table) (T : timer timer_event) (L : list node) : Prop := {
  gr_timer : m_pstTimer g = Some T;
  gr_clock : clock_inv T L;
  gr_tables : tables_inv (tables g) L;
  gr_free : unlocked (m_stLock (tables g));
  gr_time : TimerWheel.time T = a_time A;
  gr_point : current_point T = a_point A;
  gr_counter : m_dwCounter (tables g) = a_counter A;
  gr_alarms : alarms (tables g) L = a_alarms A;
  gr_queues : contents (tables g) = a_queues A
}.

Definition implements (g : GameTimer) (A : alarm_table) : Prop := ∃ T L, game_rel g A T L.

(** ** Lists of alarms under the operations *)

Lemma omap_filter {X Y} (f g : X → option Y) (P : Y → Prop) `{∀ y, Decision (P y)} (l : list X) :
  (∀ x, x ∈ l → g x = (y ← f x; if decide (P y) then Some y else None)) →
  omap g l = filter P (omap f l).
Proof.
  induction l as [|x l IH]; intros Hg; [done|]. cbn [omap list_omap].
  rewrite Hg by left. rewrite IH by (intros y Hy; apply Hg; by right).
  destruct (f x) as [y|]; cbn [mbind option_bind]; [|done]. rewrite filter_cons. by case_decide.
Qed.

Lemma filter_omap {X Y} (f : X → option Y) (P : X → Prop) (Q : Y → Prop)
    `{∀ x, Decision (P x), ∀ y, Decision (Q y)} (l : list X) :
  (∀ x y, x ∈ l → f x = Some y → (P x ↔ Q y)) →
  omap f (filter P l) = filter Q (omap f l).
Proof.
  induction l as [|x l IH]; intros Hg; [done|]. rewrite filter_cons. cbn [omap list_omap].
  assert (omap f (filter P l) = filter Q (omap f l)) as E0
    by (apply IH; intros ???; apply Hg; by right).
  pose proof (Hg x) as Hx. destruct (f x) as [y|] eqn:E.
  - rewrite filter_cons. specialize (Hx y ltac:(left) eq_refl).
    repeat case_decide; cbn [omap list_omap]; rewrite ?E, ?E0; tauto || done.
  - case_decide; cbn [omap list_omap]; by rewrite ?E, ?E0.
Qed.

Lemma alarms_without s L h p c k :
  tables_inv s L → m_mContextMap s !! h = Some p → heap s !! p = Some c →
  m_dwHandle c = h → key_string c = Ok k →
  alarms (tables_without s h p k) L = filter (other_key k) (alarms s L).
Proof.
  intros HI Hp Hc Hh Hk. apply omap_filter. intros n _.
  rewrite (entry_without s L HI h p c k Hp Hc Hh). case_decide as E.
  - unfold entry. rewrite E, Hp. cbn. rewrite Hc. cbn.
    rewrite decide_False; [done|]. unfold other_key. cbn. tauto.
  - destruct (entry s n) as [e|] eqn:He; [|done]. cbn.
    destruct (entry_handle s L n e HI He) as (_ & _ & k' & Hk' & Hm').
    rewrite decide_True; [done|]. unfold other_key. rewrite Hk'. intros [= ->].
    destruct (ti_key s L HI k _ Hm') as (p' & c' & Hp' & Hc' & _).
    destruct (ti_ctx s L HI h p Hp) as (c1 & k1 & Hc1 & _ & Hk1 & Hm1 & _). congruence.
Qed.

Lemma alarms_no_key s L k :
  tables_inv s L → m_mTimerKeyMap s !! k = None → filter (other_key k) (alarms s L) = alarms s L.
Proof.
  intros HI Hk. apply filter_all. intros e (n & _ & He)%list_elem_of_omap.
  destruct (entry_handle s L n e HI He) as (_ & _ & k' & Hk' & Hm').
  unfold other_key. rewrite Hk'. congruence.
Qed.

(** The common first part of AddTimer and RemoveTimer. *)
Lemma remove_key_spec s L k :
  tables_inv s L →
  ∃ s', match m_mTimerKeyMap s !! k with Some h => _RemoveTimerHandle s h | None => Ok s end = Ok s' ∧
    tables_inv s' L ∧ m_stLock s' = m_stLock s ∧ m_dwCounter s' = m_dwCounter s ∧
    queues s' = queues s ∧ m_mTimerKeyMap s' !! k = None ∧
    alarms s' L = filter (other_key k) (alarms s L).
Proof.
  intros HI. destruct (m_mTimerKeyMap s !! k) as [h|] eqn:Hk.
  - destruct (ti_key s L HI k h Hk) as (p & c & Hp & Hc & Hs).
    destruct (remove_present s L HI h p Hp) as (c' & k' & Hc' & Hh' & Hk' & Hm' & ->).
    assert (c' = c) as -> by congruence. assert (k' = k) as -> by congruence.
    eexists. split_and!; [done| |done|done|done|by apply lookup_delete_eq|].
    + by eapply tables_without_inv.
    + by apply (alarms_without s L h p c k).
  - exists s. split_and!; try done. by rewrite (alarms_no_key s L k).
Qed.

(** Handles of live timers do not exceed the counter. *)
Lemma live_handle s L h p :
  tables_inv s L → m_mContextMap s !! h = Some p → 1 <= h <= m_dwCounter s.
Proof.
  intros HI Hp. destruct (ti_live s L HI h p Hp) as (n & Hn & <-).
  by destruct (ti_node s L HI n Hn) as [? _].
Qed.

Lemma _GenerateHandleID_next s L :
  tables_inv s L → m_dwCounter s + 1 < UINT32_MAX →
  _GenerateHandleID s = Ok (m_dwCounter s + 1, set_counter s (m_dwCounter s + 1)).
Proof.
  intros HI Hlt. pose proof (ti_counter s L HI). unfold _GenerateHandleID. unfold UINT32_MAX in *.
  rewrite u32_small by lia. rewrite Nat.add_1_r. cbn [generate_loop].
  destruct (m_mContextMap s !! (m_dwCounter s + 1)) as [p|] eqn:Ep.
  - pose proof (live_handle s L _ p HI Ep). lia.
  - rewrite bool_decide_eq_false_2 by (by rewrite <- eq_None_not_Some).
    destruct (Z.geb_spec (m_dwCounter s + 1) UINT32_MAX); unfold UINT32_MAX in *; [lia|done].
Qed.

(** The tables after AddTimer inserted a new context. *)
Definition tables_with (s : timer_tables) (h : Z) (k : string) (c : ST_TimerContext) : timer_tables :=
  mk_tables h (m_stLock s) (<[h := next_ctx s]> (m_mContextMap s)) (<[k := h]> (m_mTimerKeyMap s))
    (<[next_ctx s := c]> (heap s)) (S (next_ctx s)) (queues s).

Section With.
Context (s : timer_tables) (L : list node) (k : string) (c : ST_TimerContext) (e : Z).
Context (HI : tables_inv s L) (Hfree : m_mTimerKeyMap s !! k = None).
Context (Hlt : m_dwCounter s + 1 < UINT32_MAX).
Context (Hh : m_dwHandle c = m_dwCounter s + 1) (Hk : key_string c = Ok k).
Context (Hq : is_Some (queues s !! m_rstQueue c)).
Let h := m_dwCounter s + 1.
Let n : node := mk_node e (mk_event h (next_ctx s)).

Lemma with_old_handle h' p : m_mContextMap s !! h' = Some p → h' ≠ h.
Proof using HI. intros Hp. pose proof (live_handle s L h' p HI Hp). unfold h. lia. Qed.

Lemma with_old_ptr p c' : heap s !! p = Some c' → p ≠ next_ctx s.
Proof using HI. intros Hp. pose proof (ti_heap s L HI p c' Hp). lia. Qed.

Lemma tables_with_inv : tables_inv (tables_with s h k c) (L ++ [n]).
Proof using HI Hfree Hlt Hh Hk Hq.
  pose proof (ti_counter s L HI) as Hc0.
  constructor; cbn [m_mContextMap m_mTimerKeyMap heap queues next_ctx m_dwCounter tables_with].
  - intros h' p [[<- <-]|[Hne Hp]]%lookup_insert_Some.
    + exists c, k. by rewrite !lookup_insert_eq.
    + destruct (ti_ctx s L HI h' p Hp) as (c' & k' & Hc' & Hh' & Hk' & Hm' & ?).
      exists c', k'. split_and!; try done.
      * rewrite lookup_insert_ne; [done|]. by apply not_eq_sym, (with_old_ptr p c').
      * rewrite lookup_insert_ne; [done|]. congruence.
  - intros k' h' [[<- <-]|[Hne Hk']]%lookup_insert_Some.
    + exists (next_ctx s), c. by rewrite !lookup_insert_eq.
    + destruct (ti_key s L HI k' h' Hk') as (p & c' & Hp & Hc' & ?). exists p, c'.
      split_and!; [| |done]; (rewrite lookup_insert_ne; [done|]).
      * by apply not_eq_sym, (with_old_handle h' p).
      * by apply not_eq_sym, (with_old_ptr p c').
  - intros p c' [[<- <-]|[Hne Hc']]%lookup_insert_Some.
    + rewrite Hh. fold h. rewrite lookup_insert_eq. split; [done|lia].
    + destruct (ti_heap s L HI p c' Hc') as [Hm ?].
      split; [|lia]. rewrite lookup_insert_ne; [done|]. by apply not_eq_sym, (with_old_handle _ p).
  - intros n' [Hn| ->%list_elem_of_singleton]%elem_of_app.
    + destruct (ti_node s L HI n' Hn) as [? Hp]. split; [unfold h; lia|].
      intros p [[E _]|[_ ?]]%lookup_insert_Some; [unfold h in E; lia|]. by apply Hp.
    + cbn. split; [unfold h; lia|]. intros p. rewrite lookup_insert_eq. by intros [= <-].
  - intros h' p [[<- <-]|[Hne Hp]]%lookup_insert_Some.
    + exists n. split; [|done]. apply elem_of_app. right. by apply list_elem_of_singleton.
    + destruct (ti_live s L HI h' p Hp) as (n' & ? & ?). exists n'.
      split; [|done]. apply elem_of_app. by left.
  - rewrite fmap_app. apply list.NoDup_app. split_and!; [apply HI| |apply NoDup_singleton].
    intros x (n' & -> & Hn)%list_elem_of_fmap. cbn. intros E%list_elem_of_singleton.
    destruct (ti_node s L HI n' Hn) as [? _]. unfold h in E. lia.
  - apply HI.
  - unfold h. lia.
Qed.

Lemma alarms_with : alarms (tables_with s h k c) (L ++ [n]) = alarms s L ++ [(e, c)].
Proof using HI.
  unfold alarms. rewrite omap_app. f_equal.
  - apply list_omap_ext, Forall_Forall2_diag, list.Forall_forall. intros n' Hn. unfold entry. cbn.
    destruct (ti_node s L HI n' Hn) as [? _]. rewrite lookup_insert_ne by (unfold h; lia).
    destruct (m_mContextMap s !! handle (arg n')) as [p|] eqn:Ep; [|done]. cbn.
    destruct (ti_ctx s L HI _ p Ep) as (c' & _ & Hc' & _).
    rewrite lookup_insert_ne; [done|]. by apply not_eq_sym, (with_old_ptr p c').
  - cbn. unfold entry. cbn. rewrite lookup_insert_eq. cbn. by rewrite lookup_insert_eq.
Qed.

End With.

(** ** Each operation implements its specification *)

Lemma too_long_ok k : too_long k = false → NUL ∉ String.list_ascii_of_string k → key_ok k.
Proof. unfold too_long. intros ?%Z.ltb_ge ?. split; [lia|done]. Qed.

Lemma clock_inv_current T L c cp : clock_inv T L → clock_inv (set_current T c cp) L.
Proof. intros [[[] ? ? ?] ? ?]. by constructor. Qed.

Lemma AddTimer_spec g A k d func args q :
  implements g A → too_long k = false → NUL ∉ String.list_ascii_of_string k →
  0 < d < HORIZON → q ∈ dom (a_queues A) → a_counter A + 1 < UINT32_MAX →
  ∃ g', AddTimer g k d func args q = Ok (0, g') ∧ implements g' (spec_add A k d func args q).
Proof.
  intros (T & L & [Ht Hc Htab Hf Etime Epoint Ecnt Eal Eq]) Hlen Hnul Hd Hq Hcnt.
  unfold AddTimer. change (GAMETIMER_MAX_TIMER_KEY_LEN <? _) with (too_long k). rewrite Hlen.
  rewrite (spinlock_lock_free _ Hf), bind_Ok.
  pose proof (tables_inv_lock _ _ (mk_spinlock 1) Htab) as Htab0.
  destruct (remove_key_spec _ L k Htab0) as (s1 & E1 & HI1 & El1 & Ec1 & Eq1 & Hk1 & Ea1).
  rewrite E1, bind_Ok. cbn in Ec1, Eq1.
  rewrite (_GenerateHandleID_next s1 L) by (done || congruence || lia). rewrite bind_Ok.
  set (c := ST_TimerContext_new _ _ _ _).
  cbn [ctx_new set_ctx_map set_key_map set_counter m_mContextMap m_mTimerKeyMap next_ctx].
  assert (m_mContextMap s1 !! (m_dwCounter s1 + 1) = None) as Hn.
  { destruct (m_mContextMap s1 !! (m_dwCounter s1 + 1)) as [p|] eqn:Ep; [|done].
    pose proof (live_handle s1 L _ p HI1 Ep). lia. }
  unfold map_insert_new. rewrite Hn, Hk1.
  destruct (timer_add_spec T L (mk_event (m_dwCounter s1 + 1) (next_ctx s1)) d Hc Hd)
    as (T' & ET & Etime' & Epoint' & HC').
  unfold _AddTimerHandle. destruct (Z.leb_spec d 0); [lia|]. cbn [Timer m_pstTimer].
  unfold Timer. cbn [m_pstTimer]. rewrite Ht, bind_Ok, ET, !bind_Ok.
  eexists. split; [done|]. exists T', (L ++ [mk_node (u32 (d + TimerWheel.time T))
    (mk_event (m_dwCounter s1 + 1) (next_ctx s1))]).
  assert (is_Some (queues s1 !! q)) as Hqs.
  { rewrite Eq1. rewrite <- Eq in Hq. unfold contents in Hq. apply elem_of_dom.
    by rewrite dom_fmap in Hq. }
  constructor; cbn [m_pstTimer tables spec_add a_time a_point a_counter a_alarms a_queues];
    try done; try congruence.
  - apply tables_inv_lock. apply (tables_with_inv s1 L k c); try done; [lia|].
    by apply key_string_new, too_long_ok.
  - cbn. lia.
  - rewrite <- Etime. rewrite <- Eal, <- Ecnt, <- Ec1.
    change (alarms (tables _) L) with (alarms (set_lock (tables g) (mk_spinlock 1)) L).
    rewrite <- Ea1. by apply (alarms_with s1 L k c).
  - unfold contents. cbn. by rewrite Eq1.
Qed.

Lemma RemoveTimer_spec g A k :
  implements g A → too_long k = false →
  ∃ g', RemoveTimer g k = Ok (0, g') ∧ implements g' (spec_remove A k).
Proof.
  intros (T & L & [Ht Hc Htab Hf Etime Epoint Ecnt Eal Eq]) Hlen.
  unfold RemoveTimer. change (GAMETIMER_MAX_TIMER_KEY_LEN <? _) with (too_long k). rewrite Hlen.
  rewrite (spinlock_lock_free _ Hf), bind_Ok.
  pose proof (tables_inv_lock _ _ (mk_spinlock 1) Htab) as Htab0.
  destruct (remove_key_spec _ L k Htab0) as (s1 & E1 & HI1 & El1 & Ec1 & Eq1 & Hk1 & Ea1).
  rewrite E1, bind_Ok. eexists. split; [done|].
  exists T, L. rewrite delete_id by done. cbn in *.
  constructor; cbn; try done; try congruence.
  - by destruct HI1.
  - change (alarms (set_lock _ _) L) with (alarms s1 L). rewrite Ea1, <- Eal. done.
  - unfold contents. cbn. by rewrite Eq1.
Qed.

Lemma tables_inv_filter s L (P : node → Prop) `{∀ n, Decision (P n)} :
  tables_inv s L → (∀ n, n ∈ L → ¬ P n → entry s n = None) → tables_inv s (filter P L).
Proof.
  intros HI Hgone. pose proof (ti_ctx s L HI) as Hctx.
  destruct HI as [_ Hkey Hheap Hnode Hlive Honce Hqs Hcnt]. constructor; try done.
  - intros n [_ Hn]%list_elem_of_filter. by apply Hnode.
  - intros h p Hp. destruct (Hlive h p Hp) as (n & Hn & <-). exists n. split; [|done].
    apply list_elem_of_filter. split; [|done]. apply dec_stable. intros HP.
    apply (Hgone n Hn) in HP. unfold entry in HP. rewrite Hp in HP. cbn in HP.
    destruct (Hctx _ p Hp) as (c & _ & Hc & _). by rewrite Hc in HP.
  - eapply sublist_NoDup; [exact Honce|]. apply fmap_sublist, sublist_filter.
Qed.

Lemma same_handle s L (n m : node) :
  tables_inv s L → n ∈ L → m ∈ L → handle (arg n) = handle (arg m) → n = m.
Proof.
  intros HI Hn Hm E. apply list_elem_of_lookup in Hn as [i Hi], Hm as [j Hj].
  assert (i = j) as ->; [|congruence].
  apply (NoDup_lookup _ i j (handle (arg n)) (ti_once s L HI)); rewrite list_lookup_fmap.
  - by rewrite Hi.
  - by rewrite Hj, E.
Qed.

(** One timer_update is one tick of the specification. *)
Lemma tick_spec s A T L :
  game_rel (mk_game_timer s (Some T)) A T L →
  ∃ s' T' L', timer_update TimerTimeout T s = Ok (T', s') ∧
    game_rel (mk_game_timer s' (Some T')) (spec_tick A) T' L'.
Proof.
  intros [_ Hc Htab Hf Etime Epoint Ecnt Eal Eq]. cbn [tables m_pstTimer] in *.
  destruct (timer_update_spec TimerTimeout T L Hc) as (T' & HC' & Etime' & Epoint' & EU).
  set (c := u32 (TimerWheel.time T + 1)) in *.
  destruct (dispatch_spec (filter (fun n => expire n = c) L) s L Htab Hf)
    as (s' & ED & HI' & Hf' & Ecnt' & Eq' & Hent).
  { by intros n [_ ?]%list_elem_of_filter. }
  { eapply sublist_NoDup; [apply Htab|]. apply fmap_sublist, sublist_filter. }
  exists s', T', (filter (fun n => expire n ≠ c) L). rewrite EU, ED. split; [done|].
  constructor; cbn [m_pstTimer tables spec_tick a_time a_point a_counter a_alarms a_queues];
    try done; try congruence.
  - apply (tables_inv_filter s' L (fun n => expire n ≠ c)); [done|]. intros n Hn Hne.
    rewrite Hent, decide_True; [done|].
    apply (list_elem_of_fmap_2 (fun n : node => handle (arg n))), list_elem_of_filter.
    by apply dec_stable in Hne.
  - by rewrite Etime', <- Etime.
  - rewrite <- Eal, <- Etime. fold c. unfold alarms.
    rewrite (list_omap_ext (entry s') (entry s) _ (filter (fun n => expire n ≠ c) L)).
    2:{ apply Forall_Forall2_diag, list.Forall_forall. intros n [Hne Hn]%list_elem_of_filter.
        rewrite Hent, decide_False; [done|].
        intros (m & Em & [Hm1 Hm]%list_elem_of_filter)%list_elem_of_fmap.
        by rewrite (same_handle s L n m) in Hne. }
    apply filter_omap. intros n e Hn He. destruct (entry_handle s L n e Htab He) as (_ & -> & _). done.
  - rewrite Eq', Eq, <- Eal, <- Etime. f_equal. unfold alarms. fold c.
    apply filter_omap. intros n e Hn He. destruct (entry_handle s L n e Htab He) as (_ & -> & _). done.
Qed.

Lemma ticks_rel n s A T L :
  game_rel (mk_game_timer s (Some T)) A T L →
  ∃ s' T' L', update_loop n T s = Ok (T', s') ∧
    game_rel (mk_game_timer s' (Some T')) (Nat.iter n spec_tick A) T' L'.
Proof.
  revert s A T L. induction n as [|n IH]; intros s A T L HR; [by eauto|].
  destruct (tick_spec s A T L HR) as (s1 & T1 & L1 & E1 & HR1).
  destruct (IH s1 _ T1 L1 HR1) as (s2 & T2 & L2 & E2 & HR2).
  exists s2, T2, L2. cbn [update_loop]. rewrite E1, bind_Ok. split; [done|].
  by rewrite Nat.iter_succ_r.
Qed.

Lemma TimerUpdate_spec g A cp :
  implements g A → ∃ g', TimerUpdate g cp = Ok g' ∧ implements g' (spec_update A cp).
Proof.
  intros (T & L & HR). destruct g as [s oT]. destruct HR as [Ht Hc Htab Hf Etime Epoint Ecnt Eal Eq].
  cbn in *. subst oT. unfold TimerUpdate, Timer, spec_update. cbn [m_pstTimer]. rewrite bind_Ok, Epoint.
  assert (∀ c, game_rel (mk_game_timer s (Some (set_current T c cp))) (spec_set_point A cp)
    (set_current T c cp) L) as HR.
  { intros c. constructor; try done. by apply clock_inv_current. }
  destruct (Z.ltb_spec cp (a_point A)).
  - eexists. split; [done|]. eexists _, _. apply HR.
  - destruct (Z.eqb_spec cp (a_point A)) as [E|E]; cbn [negb].
    + eexists. split; [done|]. exists T, L. rewrite E, Z.sub_diag. cbn.
      by destruct A; constructor.
    + destruct (ticks_rel (Z.to_nat (u32 (cp - a_point A))) s _ _ L
        (HR (u64 (current T + u32 (cp - a_point A))))) as (s' & T' & L' & E' & HR').
      cbn [tables]. rewrite E', bind_Ok. eexists. split; [done|]. by exists T', L'.
Qed.

Lemma PrepareExecute_queues s q r Q R :
  queues s !! q = Some Q → queues s !! r = Some R → unlocked (q_lock Q) →
  PrepareExecute s q r =
  Ok (set_queues s (<[q := TimerQueue_new]> (<[r := mk_queue (q_lock R) (m_vecQueue Q)]> (queues s)))).
Proof.
  intros HQ HR Hl. unfold PrepareExecute. rewrite HQ, HR, (spinlock_lock_free _ Hl), bind_Ok.
  do 2 f_equal. apply map_eq. intros i.
  destruct (decide (i = q)) as [->|Hq].
  - rewrite lookup_insert_eq, !lookup_alter_eq.
    destruct (decide (q = r)) as [->|Hr].
    + by rewrite lookup_alter_eq, lookup_insert_eq.
    + by rewrite lookup_alter_ne, lookup_insert_eq by done.
  - rewrite lookup_insert_ne, !(lookup_alter_ne _ _ q) by done.
    destruct (decide (i = r)) as [->|Hr].
    + by rewrite lookup_insert_eq, lookup_alter_eq, lookup_insert_ne, HR.
    + by rewrite lookup_insert_ne, lookup_alter_ne, lookup_insert_ne.
Qed.

Lemma PrepareExecute_spec g A q r :
  implements g A → q ∈ dom (a_queues A) → r ∈ dom (a_queues A) →
  ∃ s', PrepareExecute (tables g) q r = Ok s' ∧
    implements (mk_game_timer s' (m_pstTimer g)) (spec_prepare A q r).
Proof.
  intros (T & L & [Ht Hc Htab Hf Etime Epoint Ecnt Eal Eq]) Hq Hr.
  rewrite <- Eq in Hq, Hr. unfold contents in Hq, Hr. rewrite dom_fmap in Hq, Hr.
  apply elem_of_dom in Hq as [Q HQ]. apply elem_of_dom in Hr as [R HR].
  rewrite (PrepareExecute_queues _ q r Q R HQ HR (ti_queues _ _ Htab q Q HQ)).
  eexists. split; [done|]. exists T, L. constructor; try done.
  - apply tables_inv_queues; [done|..].
    + intros i Hi. by do 2 (apply lookup_insert_is_Some'; right).
    + intros i X [[_ <-]|[_ [[_ <-]|[_ HX]]%lookup_insert_Some]]%lookup_insert_Some; [done|..].
      * by apply (ti_queues _ _ Htab r R).
      * by apply (ti_queues _ _ Htab i X).
  - unfold contents. cbn [tables set_queues queues spec_prepare a_queues].
    rewrite !fmap_insert. cbn. unfold contents in Eq. rewrite Eq. do 2 f_equal.
    rewrite <- Eq. symmetry. apply lookup_total_correct. by rewrite lookup_fmap, HQ.
Qed.

Lemma game_step_refines op g A :
  implements g A → game_op_ok (dom (a_queues A)) op → a_counter A + 1 < UINT32_MAX →
  ∃ g', game_step op g = Ok ((spec_step op A).1, g') ∧ implements g' (spec_step op A).2.
Proof.
  intros HR Hop Hcnt. destruct op as [k d func args q|k|cp|q r]; cbn [game_op_ok game_step spec_step] in *.
  - destruct Hop as (Hnul & Hd & Hq). destruct (too_long k) eqn:El.
    + exists g. unfold AddTimer. change (GAMETIMER_MAX_TIMER_KEY_LEN <? _) with (too_long k).
      by rewrite El.
    + by apply AddTimer_spec.
  - destruct (too_long k) eqn:El.
    + exists g. unfold RemoveTimer. change (GAMETIMER_MAX_TIMER_KEY_LEN <? _) with (too_long k).
      by rewrite El.
    + by apply RemoveTimer_spec.
  - destruct (TimerUpdate_spec g A cp HR) as (g' & -> & HR'). by exists g'.
  - destruct Hop as [Hq Hr]. destruct (PrepareExecute_spec g A q r HR Hq Hr) as (s' & -> & HR').
    by eexists.
Qed.

Lemma push_all_dom es Qs : dom (push_all Qs es) = dom Qs.
Proof.
  revert Qs. induction es as [|e es IH]; intros Qs; [done|].
  unfold push_all in *. cbn [fold_left]. rewrite IH. apply dom_alter_L.
Qed.

Lemma ticks_frame n A :
  dom (a_queues (Nat.iter n spec_tick A)) = dom (a_queues A) ∧
  a_counter (Nat.iter n spec_tick A) = a_counter A.
Proof.
  induction n as [|n [<- <-]]; [done|]. rewrite Nat.iter_succ. split; [apply push_all_dom|done].
Qed.

(** Queues are never created or destroyed, and the counter moves by one at
    most. *)
Lemma spec_step_frame op A :
  game_op_ok (dom (a_queues A)) op →
  dom (a_queues (spec_step op A).2) = dom (a_queues A) ∧
  a_counter A <= a_counter (spec_step op A).2 <= a_counter A + 1.
Proof.
  intros Hop. destruct op as [k d func args q|k|cp|q r]; cbn [spec_step].
  - destruct (too_long k); cbn; split; done || lia.
  - destruct (too_long k); cbn; split; done || lia.
  - cbn [snd]. unfold spec_update. destruct (cp <? a_point A); [cbn; split; done || lia|].
    destruct (ticks_frame (Z.to_nat (u32 (cp - a_point A))) (spec_set_point A cp)) as [-> ->].
    cbn. split; done || lia.
  - destruct Hop as [Hq Hr]. cbn. split; [|lia].
    rewrite !dom_insert_L, (subseteq_union_1_L {[r]}) by (by apply singleton_subseteq_l).
    by apply subseteq_union_1_L, singleton_subseteq_l.
Qed.

(** C24: the keyed timers refine a table of named alarms.  In any sequence of
    AddTimer calls with positive delays, and of RemoveTimer, TimerUpdate and
    PrepareExecute calls, after TimerInit, the handle map, the key map, the heap of contexts and the timing
    wheel together behave as one list of alarms with unique keys: adding a key
    replaces its old timer, a removed timer never reaches a queue although its
    node stays in the wheel, each due alarm is queued once at its tick and in
    the order of addition, return codes agree (-2 for long keys), and no call
    takes a lock twice, reads a deleted context or leaves a loop unfinished.
    The bound is the number of handles before the 32-bit counter wraps.  A delay
    that is not positive is outside of this: AddTimer then takes its lock twice
    ([AddTimer_due_now_deadlocks]). *)
Theorem game_timer_refines_alarm_table ops g A :
  implements g A → Forall (game_op_ok (dom (a_queues A))) ops →
  a_counter A + Z.of_nat (length ops) < UINT32_MAX →
  ∃ g', game_run ops g = Ok ((spec_run ops A).1, g') ∧ implements g' (spec_run ops A).2.
Proof.
  revert g A. induction ops as [|op ops IH]; intros g A HR Hops Hcnt; [by exists g|].
  apply Forall_cons_1 in Hops as [Hop Hops]. cbn [length] in Hcnt.
  destruct (game_step_refines op g A HR Hop) as (g1 & E1 & HR1); [lia|].
  destruct (spec_step_frame op A Hop) as [Edom Hc].
  cbn [game_run spec_run]. rewrite E1, bind_Ok. destruct (spec_step op A) as [r1 A1]. cbn in *.
  destruct (IH g1 A1 HR1) as (g2 & E2 & HR2); [by rewrite Edom|lia|].
  rewrite E2. destruct (spec_run ops A1) as [rs A2]. by exists g2.
Qed.

Lemma implements_init qs rt mono :
  (∀ q Q, qs !! q = Some Q → unlocked (q_lock Q)) →
  implements (TimerInit (GameTimer_new qs) rt mono)
    (mk_alarm_table 0 (gettime mono.1 mono.2) 0 [] (m_vecQueue <$> qs)).
Proof.
  intros Hqs. unfold TimerInit. destruct (systime rt.1 rt.2) as [sec cs].
  eexists _, []. constructor; try done.
  - pose proof (clock_inv_create (A := timer_event)) as [[[] ? ? ?] ? ?]. by constructor.
  - constructor; cbn; try done; [by intros n ?%not_elem_of_nil|apply NoDup_nil_2].
Qed.

(** A key replaced before it fires, a removal, and a key added again. *)
Lemma game_timer_refines_witness :
  let qs := {[0%nat := TimerQueue_new; 1%nat := TimerQueue_new]} in
  let A := mk_alarm_table 0 1000 0 [] (m_vecQueue <$> qs) in
  let ops := [GAdd "hp" 300 11 0 0; GAdd "buff" 20 12 0 0; GUpdate 1010; GAdd "hp" 5 13 0 0;
              GRemove "buff"; GUpdate 1040; GPrepare 0 1] in
  ∃ g', game_run ops (TimerInit (GameTimer_new qs) (0, 0) (10, 0)) =
    Ok ([0; 0; 0; 0; 0; 0; 0], g') ∧ implements g' (spec_run ops A).2 ∧
    m_pFuncCallback ∘ m_stCallback <$> (a_queues (spec_run ops A).2 !!! 1%nat) = [13].
Proof.
  intros qs A ops.
  destruct (game_timer_refines_alarm_table ops (TimerInit (GameTimer_new qs) (0, 0) (10, 0)) A)
    as (g' & E & HR).
  - apply (implements_init qs (0, 0) (10, 0)).
    intros q Q [[_ <-]|[_ [_ <-]%lookup_singleton_Some]]%lookup_insert_Some; done.
  - apply (bool_decide_unpack _). vm_compute. done.
  - vm_compute. done.
  - exists g'. split; [exact E|]. split; [exact HR|]. vm_compute. done.
Defined.

(** C25: _GenerateHandleID terminates and returns an unused handle.  While fewer
    than UINT32_MAX - 1 timers exist, the search ends after at most one round
    per timer and one for the wrap-around of the counter, with a handle that is
    not in the context map and is neither 0 nor UINT32_MAX; the counter is left
    on that handle. *)
Theorem GenerateHandleID_fresh s :
  0 <= m_dwCounter s <= UINT32_MAX - 1 →
  Z.of_nat (size (m_mContextMap s)) < UINT32_MAX - 1 →
  ∃ h, _GenerateHandleID s = Ok (h, set_counter s h) ∧
    m_mContextMap s !! h = None ∧ 1 <= h < UINT32_MAX.
Proof.
  intros Hc Hs. unfold _GenerateHandleID.
  destruct (generate_loop_total (m_mContextMap s) (u32 (m_dwCounter s + 1))) as (h & E & ? & ? & _).
  - unfold UINT32_MAX in *. rewrite u32_small; lia.
  - lia.
  - exists h. by rewrite E.
Qed.

(** The counter wraps around over two live handles. *)
Lemma GenerateHandleID_witness :
  let s := mk_tables 4294967293 spinlock_init {[4294967294 := 0%nat; 1 := 1%nat]} ∅ ∅ 0 ∅ in
  _GenerateHandleID s = Ok (2, set_counter s 2) ∧
  ∃ h, _GenerateHandleID s = Ok (h, set_counter s h) ∧
    m_mContextMap s !! h = None ∧ 1 <= h < UINT32_MAX.
Proof.
  intros s. split; [vm_compute; done|]. apply (GenerateHandleID_fresh s); vm_compute; split; done.
Defined.

(** A timer that is due at once hangs the server.  AddTimer takes m_stLock
    and, for a delay of zero or less, calls TimerTimeout, which takes the same
    lock again. *)
Theorem AddTimer_due_now_deadlocks g A k d func args q :
  implements g A → too_long k = false → a_counter A + 1 < UINT32_MAX → d <= 0 →
  AddTimer g k d func args q = Fault Deadlock.
Proof.
  intros (T & L & [Ht Hc Htab Hf Etime Epoint Ecnt Eal Eq]) Hlen Hcnt Hd.
  unfold AddTimer. change (GAMETIMER_MAX_TIMER_KEY_LEN <? _) with (too_long k). rewrite Hlen.
  rewrite (spinlock_lock_free _ Hf), bind_Ok.
  pose proof (tables_inv_lock _ _ (mk_spinlock 1) Htab) as Htab0.
  destruct (remove_key_spec _ L k Htab0) as (s1 & E1 & HI1 & El1 & Ec1 & Eq1 & Hk1 & Ea1).
  rewrite E1, bind_Ok. cbn in Ec1, El1.
  rewrite (_GenerateHandleID_next s1 L) by (done || congruence || lia). rewrite bind_Ok.
  cbn [ctx_new]. unfold _AddTimerHandle. destruct (Z.leb_spec d 0); [|lia].
  unfold TimerTimeout. cbn. by rewrite El1.
Qed.

Lemma AddTimer_due_now_witness :
  AddTimer (TimerInit (GameTimer_new {[0%nat := TimerQueue_new]}) (0, 0) (10, 0)) "now" 0 1 0 0 =
  Fault Deadlock.
Proof.
  eapply AddTimer_due_now_deadlocks.
  - apply implements_init. by intros q Q [_ <-]%lookup_singleton_Some.
  - done.
  - done.
  - lia.
Defined.
