(* ===== verification/Unpack.v ===== *)
(** * Wire integers and messages (src/network/unpack.h)

    [UnpackInt] and [PackInt] convert between host integers and network byte
    order; the host is little-endian, so the byte swaps of <endian.h> reverse
    the bytes.  The protobuf library is an interface: a class of the three
    calls the code makes and what their documentation promises. *)

From S2P Require Import Prelude.

Open Scope cint_scope.

(** ** Bytes of an integer *)

(** The [n] low bytes of [z], least significant first: the representation of
    an integer in memory. *)
Fixpoint le_bytes (n : nat) (z : Z) : list Z :=
  match n with
  | O => []
  | S n => (z .& 255) :: le_bytes n (z .>> 8)
  end.

Fixpoint le_value (l : list Z) : Z :=
  match l with
  | [] => 0
  | b :: l => b .| (le_value l .<< 8)
  end.

(** htons, htonl, htobe64 and their inverses on [n] bytes. *)
Definition bswap (n : nat) (z : Z) : Z := le_value (rev (le_bytes n z)).

(** ** Integer types *)

Record ctype := mk_ctype { sizeof : Z; signed : bool }.

Definition int16_t : ctype := mk_ctype 2 true.
Definition int32_t : ctype := mk_ctype 4 true.
Definition int64_t : ctype := mk_ctype 8 true.
Definition uint16_t : ctype := mk_ctype 2 false.
Definition uint32_t : ctype := mk_ctype 4 false.
Definition size_t : ctype := mk_ctype 8 false.

(** Conversion to an integer type. *)
Definition cast (T : ctype) (z : Z) : Z :=
  if signed T then swrap (8 * sizeof T) z else wrap (8 * sizeof T) z.

Definition in_type (T : ctype) (z : Z) : Prop := cast T z = z.

(** ** Integers in buffers

    A pointer into a buffer is the list of bytes from it on; the call returns
    the moved pointer. *)

Definition UnpackInt (T : ctype) (buffer : list Z) (size : Z) : res (Z * list Z) :=
  let size := if sizeof T <? u64 size then sizeof T else size in
  read ← mem_read buffer 0 size;
  let bytes := cast T (le_value read) in
  let buffer := drop (Z.to_nat size) buffer in
  if size =? 8 then Ok (cast T (bswap 8 (u64 bytes)), buffer)
  else if size =? 4 then Ok (cast T (bswap 4 (u32 bytes)), buffer)
  else if size =? 2 then Ok (cast T (bswap 2 (u16 bytes)), buffer)
  else Ok (bytes, buffer).

(** The value's bytes are written at the start of [buffer]; the result is the
    returned size, the buffer and the offset of the moved pointer. *)
Definition PackInt (T : ctype) (buffer : list Z) (off value : Z) : res (Z * list Z * Z) :=
  let iSize := sizeof T in
  let value :=
    if iSize =? 8 then cast T (bswap 8 (u64 value))
    else if iSize =? 4 then cast T (bswap 4 (u32 value))
    else if iSize =? 2 then cast T (bswap 2 (u16 value))
    else value in
  buffer ← mem_write buffer off (le_bytes (Z.to_nat iSize) value);
  Ok (cast T iSize, buffer, off + iSize).

(** A protocol number and the bytes of a struct. *)
Definition PackStruct (wProto : Z) (rst buffer : list Z) : res (Z * list Z) :=
  let wProto := cast int16_t (bswap 2 (u16 wProto)) in
  buffer ← mem_write buffer 0 (le_bytes 2 wProto);
  buffer ← mem_write buffer 2 rst;
  Ok (i32 (2 + Z.of_nat (length rst)), buffer).

(** ** Protobuf messages *)

Class Protobuf (M : Type) := {
  ByteSizeLong : M → Z;
  (** The bytes written into an array of the given size, or failure. *)
  SerializeToArray : M → Z → option (list Z);
  (** The message read from the array, and whether parsing succeeded. *)
  ParseFromArray : list Z → M * bool;
  size_nonneg : ∀ m, 0 <= ByteSizeLong m;
  serialize_fits : ∀ m n, ByteSizeLong m <= n → ∃ bs,
    SerializeToArray m n = Some bs ∧ Z.of_nat (length bs) = ByteSizeLong m ∧
    Forall is_byte bs ∧ ParseFromArray bs = (m, true);
  serialize_short : ∀ m n, n < ByteSizeLong m → SerializeToArray m n = None
}.

Section Messages.
Context {M : Type} `{Protobuf M}.

(** The boolean SerializeToArray returns is ignored; a failed call leaves the
    buffer alone. *)
Definition PackProtobufStruct (rstProto : M) (iBufferSize iProtoSize : Z) (buffer : list Z)
    : res (Z * list Z) :=
  let iBufferSize := if iProtoSize <? iBufferSize then iProtoSize else iBufferSize in
  match SerializeToArray rstProto iBufferSize with
  | Some bs =>
      buffer ← mem_write buffer 0 bs;
      Ok (i32 (2 + iBufferSize), buffer)
  | None => Ok (i32 (2 + iBufferSize), buffer)
  end.

Definition UnpackProtobufStruct (buffer : list Z) (iBufferSize : Z) : res M :=
  read ← mem_read buffer 0 iBufferSize;
  Ok (fst (ParseFromArray read)).

End Messages.

(** ** Lemmas *)

(** Most significant byte first. *)
Definition be_bytes (n : nat) (z : Z) : list Z := rev (le_bytes n z).

Lemma length_le_bytes n z : length (le_bytes n z) = n.
Proof. revert z. induction n as [|n IH]; intros z; simpl; [done|]. by rewrite IH. Qed.

Lemma length_be_bytes n z : length (be_bytes n z) = n.
Proof. unfold be_bytes. by rewrite length_rev, length_le_bytes. Qed.

#[export] Hint Rewrite length_le_bytes length_be_bytes @length_rev : len.

Lemma land_255_byte z : is_byte (z .& 255).
Proof. change 255 with (2 ^ 8 - 1). rewrite land_mask by done. apply (Z.mod_pos_bound z 256). lia. Qed.

Lemma le_bytes_byte n z : Forall is_byte (le_bytes n z).
Proof. revert z. induction n as [|n IH]; intros z; constructor; [apply land_255_byte|apply IH]. Qed.

Lemma be_bytes_byte n z : Forall is_byte (be_bytes n z).
Proof. apply Forall_rev, le_bytes_byte. Qed.

Lemma le_value_cons b l : is_byte b → le_value (b :: l) = b + 256 * le_value l.
Proof.
  intros Hb. cbn [le_value]. rewrite Z.shiftl_mul_pow2 by lia. change (2 ^ 8) with 256.
  pose proof (Z.add_lor_land b (le_value l * 256)) as E.
  assert (b .& (le_value l * 256) = 0) as E0; [|lia].
  apply Z.bits_inj'. intros i Hi. rewrite Z.land_spec, Z.bits_0. change 256 with (2 ^ 8).
  destruct (decide (i < 8)).
  - rewrite Z.mul_pow2_bits_low by lia. apply andb_false_r.
  - rewrite <- (Z.mod_small b (2 ^ 8)) by apply Hb. rewrite Z.mod_pow2_bits_high by lia. done.
Qed.

Lemma le_value_bound l : Forall is_byte l → 0 <= le_value l < 2 ^ (8 * Z.of_nat (length l)).
Proof.
  induction 1 as [|b l Hb Hl IH]; [done|]. rewrite le_value_cons by done. cbn [length].
  replace (8 * Z.of_nat (S (length l))) with (8 + 8 * Z.of_nat (length l)) by lia.
  rewrite Z.pow_add_r by lia. change (2 ^ 8) with 256. unfold is_byte in Hb. nia.
Qed.

Lemma le_value_le_bytes n z : le_value (le_bytes n z) = wrap (8 * Z.of_nat n) z.
Proof.
  revert z. induction n as [|n IH]; intros z; cbn [le_bytes].
  - unfold wrap. by rewrite Z.mod_1_r.
  - rewrite le_value_cons by apply land_255_byte. rewrite IH. unfold wrap.
    change 255 with (2 ^ 8 - 1). rewrite land_mask, Z.shiftr_div_pow2 by lia. change (2 ^ 8) with 256.
    replace (8 * Z.of_nat (S n)) with (8 + 8 * Z.of_nat n) by lia.
    rewrite Z.pow_add_r by lia. change (2 ^ 8) with 256. rewrite Z.rem_mul_r by lia. done.
Qed.

Lemma le_bytes_le_value l : Forall is_byte l → le_bytes (length l) (le_value l) = l.
Proof.
  induction 1 as [|b l Hb Hl IH]; [done|]. cbn [length le_bytes].
  rewrite le_value_cons by done. change 255 with (2 ^ 8 - 1).
  rewrite land_mask, Z.shiftr_div_pow2 by lia. change (2 ^ 8) with 256.
  rewrite (Z.mul_comm 256), Z.mod_add, Z.mod_small, Z.div_add, Z.div_small by (done || lia).
  by rewrite Z.add_0_l, IH.
Qed.

Lemma le_bytes_wrap n z : le_bytes n (wrap (8 * Z.of_nat n) z) = le_bytes n z.
Proof.
  rewrite <- le_value_le_bytes. rewrite <- (length_le_bytes n z) at 1.
  apply le_bytes_le_value, le_bytes_byte.
Qed.

(** Reading and writing a byte-swapped integer reads and writes the bytes most
    significant first. *)
Lemma le_bytes_bswap n z : le_bytes n (bswap n z) = be_bytes n z.
Proof.
  unfold bswap. rewrite <- (length_be_bytes n z) at 1. apply le_bytes_le_value, be_bytes_byte.
Qed.

Definition std_type (T : ctype) : Prop := sizeof T = 2 ∨ sizeof T = 4 ∨ sizeof T = 8.

Lemma wrap_cast T z : std_type T → wrap (8 * sizeof T) (cast T z) = wrap (8 * sizeof T) z.
Proof.
  intros HT. unfold cast. destruct (signed T).
  - apply wrap_swrap. unfold std_type in HT. lia.
  - unfold wrap. by rewrite Z.mod_mod by (unfold std_type in HT; lia).
Qed.

Lemma cast_wrap T z : std_type T → cast T (wrap (8 * sizeof T) z) = cast T z.
Proof.
  intros HT. unfold cast, swrap, wrap. by rewrite !Z.mod_mod by (unfold std_type in HT; lia).
Qed.

(** PackInt writes the value most significant byte first. *)
Lemma PackInt_big_endian T buffer off v :
  std_type T → 0 <= off → off + sizeof T <= Z.of_nat (length buffer) →
  PackInt T buffer off v =
  Ok (sizeof T, splice buffer (Z.to_nat off) (be_bytes (Z.to_nat (sizeof T)) v), off + sizeof T).
Proof.
  intros HT Hoff Hlen. unfold PackInt.
  assert (le_bytes (Z.to_nat (sizeof T))
    (if sizeof T =? 8 then cast T (bswap 8 (u64 v)) else if sizeof T =? 4 then cast T (bswap 4 (u32 v))
     else if sizeof T =? 2 then cast T (bswap 2 (u16 v)) else v) =
    be_bytes (Z.to_nat (sizeof T)) v) as ->.
  { assert (∀ n, sizeof T = Z.of_nat n →
      le_bytes n (cast T (bswap n (wrap (8 * Z.of_nat n) v))) = be_bytes n v) as Hn.
    { intros n E. rewrite <- le_bytes_wrap, <- E, wrap_cast, E, le_bytes_wrap, le_bytes_bswap by done.
      unfold be_bytes. by rewrite le_bytes_wrap. }
    destruct HT as [HT|[HT|HT]]; rewrite HT; cbn [Z.eqb Pos.eqb].
    - by apply (Hn 2%nat).
    - by apply (Hn 4%nat).
    - by apply (Hn 8%nat). }
  assert (0 <= sizeof T) by (unfold std_type in HT; lia).
  rewrite mem_write_Ok by len. rewrite bind_Ok. do 3 f_equal.
  unfold cast. destruct T as [sz []], HT as [->|[->| ->]]; done.
Qed.

(** UnpackInt of a full-width integer reads the value most significant byte
    first. *)
Lemma UnpackInt_big_endian T v rest :
  std_type T → in_type T v →
  UnpackInt T (be_bytes (Z.to_nat (sizeof T)) v ++ rest) (sizeof T) = Ok (v, rest).
Proof.
  intros HT Hv. unfold UnpackInt.
  assert ((sizeof T <? u64 (sizeof T)) = false) as ->.
  { rewrite wrap_small; [apply Z.ltb_irrefl|]. unfold std_type in HT. lia. }
  assert (0 <= sizeof T) by (unfold std_type in HT; lia).
  rewrite mem_read_Ok by len. rewrite drop_0, take_app_length', drop_app_length' by len. rewrite bind_Ok.
  assert (∀ n, sizeof T = Z.of_nat n →
    cast T (bswap n (wrap (8 * Z.of_nat n) (cast T (le_value (be_bytes n v))))) = v) as Hn.
  { intros n E. rewrite <- E, wrap_cast, E by done. unfold bswap. rewrite le_bytes_wrap.
    rewrite <- (length_be_bytes n v) at 1. rewrite le_bytes_le_value by apply be_bytes_byte.
    unfold be_bytes. rewrite rev_involutive, le_value_le_bytes, <- E, cast_wrap by done. done. }
  destruct HT as [HT|[HT|HT]]; rewrite HT; cbn [Z.eqb Pos.eqb]; do 2 f_equal.
  - by apply (Hn 2%nat).
  - by apply (Hn 4%nat).
  - by apply (Hn 8%nat).
Qed.

Lemma in_type_i16 z : -32768 <= z < 32768 → in_type int16_t z.
Proof. intros. unfold in_type, cast. simpl. apply swrap_small; lia. Qed.

Lemma drop_splice (d src : list Z) o :
  (o + length src <= length d)%nat → drop o (splice d o src) = src ++ drop (o + length src) d.
Proof. intros. unfold splice. by rewrite drop_app_length' by len. Qed.

(** ** Round trips *)

(** Integers survive the wire.  For every 2, 4 or 8 byte type and every
    value of it, PackInt at any offset with room leaves the big-endian bytes
    there and nothing else changed, and UnpackInt from that offset returns the
    value and a pointer just behind it. *)
Theorem PackInt_UnpackInt_roundtrip T buffer off v :
  std_type T → in_type T v → 0 <= off → off + sizeof T <= Z.of_nat (length buffer) →
  ∃ buffer', PackInt T buffer off v = Ok (sizeof T, buffer', off + sizeof T) ∧
    UnpackInt T (drop (Z.to_nat off) buffer') (sizeof T) =
      Ok (v, drop (Z.to_nat (off + sizeof T)) buffer) ∧
    buffer' = take (Z.to_nat off) buffer ++ be_bytes (Z.to_nat (sizeof T)) v ++
      drop (Z.to_nat (off + sizeof T)) buffer.
Proof.
  intros HT Hv Hoff Hlen. assert (0 < sizeof T) by (unfold std_type in HT; lia).
  rewrite PackInt_big_endian by done. eexists. split_and!; [done|..].
  - rewrite drop_splice by len. rewrite UnpackInt_big_endian by done.
    do 3 f_equal. len.
  - unfold splice. do 3 f_equal. len.
Qed.

Lemma PackInt_UnpackInt_witness :
  ∃ buffer', PackInt int16_t [0; 0; 0; 0] 2 (-300) = Ok (2, buffer', 4) ∧
    UnpackInt int16_t (drop 2 buffer') 2 = Ok (-300, []) ∧ buffer' = [0; 0; 254; 212].
Proof.
  apply (PackInt_UnpackInt_roundtrip int16_t [0; 0; 0; 0] 2 (-300)).
  - by left.
  - done.
  - lia.
  - simpl. lia.
Defined.

(** Messages survive the wire.  A message packed into a buffer of its own
    size, as PacketProduceProtobufPacket does, is filled completely and parsed
    back to the same message; the result also counts the two bytes of the
    protocol number, which is not written. *)
Theorem PackProtobufStruct_roundtrip {M} `{Protobuf M} (m : M) (buffer : list Z) :
  Z.of_nat (length buffer) = ByteSizeLong m → ByteSizeLong m + 2 < 2147483648 →
  ∃ buffer', PackProtobufStruct m (ByteSizeLong m) (ByteSizeLong m) buffer =
      Ok (ByteSizeLong m + 2, buffer') ∧ length buffer' = length buffer ∧
    Forall is_byte buffer' ∧ UnpackProtobufStruct buffer' (ByteSizeLong m) = Ok m.
Proof.
  intros Hlen Hmax. pose proof (size_nonneg m). unfold PackProtobufStruct. rewrite Z.ltb_irrefl.
  destruct (serialize_fits m (ByteSizeLong m)) as (bs & -> & Hbs & Hbyte & Hp); [lia|].
  rewrite mem_write_Ok, bind_Ok by lia. exists bs.
  assert (splice buffer (Z.to_nat 0) bs = bs) as ->.
  { unfold splice. simpl. rewrite drop_ge by lia. by rewrite app_nil_r. }
  split_and!; try done.
  - do 2 f_equal. rewrite swrap_small by (simpl; lia). lia.
  - lia.
  - unfold UnpackProtobufStruct. rewrite mem_read_Ok by lia. rewrite bind_Ok.
    change (Z.to_nat 0) with 0%nat. rewrite drop_0, take_ge by lia. by rewrite Hp.
Qed.

(** An instance of the interface: messages that are one byte, encoded as a
    field key and the value. *)
Inductive tiny_message := Tiny (b : bool).

#[export, refine] Instance tiny_protobuf : Protobuf tiny_message := {|
  ByteSizeLong := fun _ => 2;
  SerializeToArray := fun '(Tiny b) n => if n <? 2 then None else Some [8; if b then 1 else 0];
  ParseFromArray := fun l => match l with
    | [8; 1] => (Tiny true, true)
    | [8; 0] => (Tiny false, true)
    | _ => (Tiny false, false)
    end
|}.
Proof.
  - done.
  - intros [[]] n Hn; (destruct (Z.ltb_spec n 2); [lia|]); eexists; split_and!; try done;
      by repeat constructor.
  - intros [b] n Hn. destruct (Z.ltb_spec n 2); [done|lia].
Defined.

Lemma PackProtobufStruct_witness :
  ∃ buffer', PackProtobufStruct (Tiny true) 2 2 [0; 0] = Ok (4, buffer') ∧ length buffer' = 2%nat ∧
    Forall is_byte buffer' ∧ UnpackProtobufStruct buffer' 2 = Ok (Tiny true).
Proof.
  pose proof (PackProtobufStruct_roundtrip (Tiny true) [0; 0]) as H.
  change (ByteSizeLong (Tiny true)) with 2 in H. apply H; [done|lia].
Defined.
