(* ===== verification/KFifoExample.v ===== *)
(** * The example of the ring buffer (src/service/example/kfifo/main.c)

    One thread writes a million numbered structures into a ring of 256, another reads them
    and asserts that each one is the next, with the numbers and the text it was given.  No
    lock is used.  The file shows that the assertions hold for every interleaving of the
    two threads' memory accesses. *)

From S2P Require Import Prelude KFifo Threads KFifoThreads Unpack.

Definition KFIFO_TEST_LOOP_COUNT : Z := 100 * 10000.

Record ST_FIFO_UNIT := mk_unit { unit_x : Z; unit_y : Z; unit_z : Z; unit_buffer : list Z }.

Definition sizeof_unit : Z := 112.

(** The structure in memory: three ints and a hundred characters. *)
Definition unit_bytes (u : ST_FIFO_UNIT) : list Z :=
  le_bytes 4 (unit_x u) ++ le_bytes 4 (unit_y u) ++ le_bytes 4 (unit_z u) ++ unit_buffer u.
Definition unit_of_bytes (b : list Z) : ST_FIFO_UNIT :=
  mk_unit (i32 (le_value (take 4 b))) (i32 (le_value (take 4 (drop 4 b))))
    (i32 (le_value (take 4 (drop 8 b)))) (drop 12 b).

Definition unit_zero : ST_FIFO_UNIT := mk_unit 0 0 0 (replicate 100 0).

(** DECLARE_KFIFO with INIT_KFIFO: 256 elements. *)
Definition FIFO_ELEMENTS : Z := 256.
Definition g_fifobuf (data : list Z) : __kfifo := INIT_KFIFO data FIFO_ELEMENTS sizeof_unit.

(** The format str_%d. *)
Definition unit_text (i : Z) : list Z := [115; 116; 114; 95] ++ decimal i.

(** What the threads print. *)
Inductive line :=
| WriteBegin | FullWait | SpaceWait | WriteOver (i : Z) | ReadBegin | ReadOver (x : Z).

Definition mask : Z := FIFO_ELEMENTS - 1.
Abbreviation thread := (prog (ring_access line)).

Definition t_kfifo_is_full : thread bool :=
  len ← t_kfifo_len mask sizeof_unit; mret (mask <? len).

Definition t_kfifo_is_empty : thread bool :=
  in_ ← access ReadIn; out ← access ReadOut; mret (in_ =? out).

(** At most [n] rounds of the while loop of write_thread; the result is [i]. *)
Fixpoint t_write_rounds (n : nat) (i : Z) (stUnit : ST_FIFO_UNIT) : thread Z :=
  match n with
  | O => mret i
  | S n =>
      if i <? KFIFO_TEST_LOOP_COUNT then
        full ← t_kfifo_is_full;
        if full : bool then access (Say FullWait);; t_write_rounds n i stUnit
        else
          avail ← t_kfifo_avail mask sizeof_unit;
          if avail <? 1 then access (Say SpaceWait);; t_write_rounds n i stUnit
          else
            let i := i + 1 in
            buffer ← lift (mem_write (unit_buffer stUnit) 0 (unit_text i ++ [0]));
            let stUnit := mk_unit i (i + 1) (i + 2) buffer in
            _ ← t_kfifo_in mask sizeof_unit (unit_bytes stUnit) 1;
            t_write_rounds n i stUnit
      else access (Say (WriteOver i));; mret i
  end.

Definition t_write_thread (n : nat) : thread Z :=
  access (Say WriteBegin);; t_write_rounds n 0 unit_zero.

(** At most [n] rounds of read_thread. *)
Fixpoint t_read_rounds (n : nat) (i : Z) (stUnit : ST_FIFO_UNIT) : thread Z :=
  match n with
  | O => mret i
  | S n =>
      if i <? KFIFO_TEST_LOOP_COUNT then
        empty ← t_kfifo_is_empty;
        if empty : bool then t_read_rounds n i stUnit
        else
          len ← t_kfifo_len mask sizeof_unit;
          if len <? 1 then t_read_rounds n i stUnit
          else
            '(bytes, _) ← t_kfifo_out mask sizeof_unit (unit_bytes stUnit) 1;
            let stUnit := unit_of_bytes bytes in
            let i := i + 1 in
            lift (c_assert (unit_x stUnit =? i));;
            lift (c_assert (unit_y stUnit =? i + 1));;
            lift (c_assert (unit_z stUnit =? i + 2));;
            buffer ← lift (mem_write (replicate 100 0) 0 (unit_text i ++ [0]));
            s1 ← lift (block_string buffer);
            s2 ← lift (block_string (unit_buffer stUnit));
            lift (c_assert (bool_decide (s1 = s2)));;
            t_read_rounds n i stUnit
      else access (Say (ReadOver (unit_x stUnit)));; mret i
  end.

Definition t_read_thread (n : nat) : thread Z :=
  access (Say ReadBegin);; t_read_rounds n 0 unit_zero.

(** ** The structures *)

Definition unit_ok (u : ST_FIFO_UNIT) : Prop := length (unit_buffer u) = 100%nat.

Lemma length_unit_bytes u : unit_ok u → length (unit_bytes u) = 112%nat.
Proof. intros Hu. unfold unit_bytes. rewrite !length_app, !length_le_bytes, Hu. done. Qed.

(** The parts of a structure in memory. *)
Lemma four_parts (a b c d : list Z) :
  length a = 4%nat → length b = 4%nat → length c = 4%nat →
  take 4 (a ++ b ++ c ++ d) = a ∧ take 4 (drop 4 (a ++ b ++ c ++ d)) = b ∧
  take 4 (drop 8 (a ++ b ++ c ++ d)) = c ∧ drop 12 (a ++ b ++ c ++ d) = d.
Proof.
  intros Ha Hb Hc. destruct a as [|? [|? [|? [|? [|]]]]], b as [|? [|? [|? [|? [|]]]]], c as [|? [|? [|? [|? [|]]]]];
    done.
Qed.

Lemma unit_roundtrip u :
  - 2147483648 <= unit_x u < 2147483648 → - 2147483648 <= unit_y u < 2147483648 →
  - 2147483648 <= unit_z u < 2147483648 → unit_of_bytes (unit_bytes u) = u.
Proof.
  intros Hx Hy Hz. unfold unit_of_bytes, unit_bytes.
  assert (∀ v, - 2147483648 <= v < 2147483648 → i32 (le_value (le_bytes 4 v)) = v) as Hv.
  { intros v Hv. rewrite le_value_le_bytes. change (8 * Z.of_nat 4) with 32.
    rewrite <- (swrap_small 32 v) at 2 by lia. unfold swrap, wrap. by rewrite Z.mod_mod by lia. }
  destruct (four_parts (le_bytes 4 (unit_x u)) (le_bytes 4 (unit_y u)) (le_bytes 4 (unit_z u)) (unit_buffer u))
    as (-> & -> & -> & ->); [apply length_le_bytes..|]. rewrite !Hv by done. by destruct u.
Qed.

(** Structure number [i], in memory. *)
Definition is_unit (i : Z) (bs : list Z) : Prop :=
  length bs = 112%nat ∧ let u := unit_of_bytes bs in
  unit_x u = i ∧ unit_y u = i + 1 ∧ unit_z u = i + 2 ∧ block_string (unit_buffer u) = Ok (unit_text i).

Lemma unit_text_ok i : 0 <= i → (length (unit_text i) <= 14)%nat ∧ 0 ∉ unit_text i.
Proof.
  intros Hi. destruct (decimal_spec i Hi) as [Hl Hz]. unfold unit_text. rewrite length_app. cbn [length].
  split; [lia|]. rewrite not_elem_of_app. split; [|done]. rewrite !not_elem_of_cons. split_and!; try lia. apply not_elem_of_nil.
Qed.

(** sprintf into a hundred characters. *)
Lemma print_unit_text b i :
  0 <= i → length b = 100%nat →
  ∃ b', mem_write b 0 (unit_text i ++ [0]) = Ok b' ∧ length b' = 100%nat ∧ block_string b' = Ok (unit_text i).
Proof.
  intros Hi Hb. destruct (unit_text_ok i Hi) as [Hl Hz].
  rewrite mem_write_Ok by (rewrite ?length_app; cbn [length]; lia). eexists. split; [done|].
  rewrite length_splice by (rewrite length_app; cbn [length]; lia). split; [done|].
  unfold splice. change (Z.to_nat 0) with 0%nat. cbn [take app]. rewrite <- (assoc_L (++)).
  by apply block_string_spec.
Qed.

Lemma new_unit i b : 0 <= i <= 1000001 → length b = 100%nat → block_string b = Ok (unit_text i) →
  is_unit i (unit_bytes (mk_unit i (i + 1) (i + 2) b)).
Proof.
  intros Hi Hb Ht. split; [by apply length_unit_bytes|]. cbv zeta. by rewrite unit_roundtrip by (cbn; lia).
Qed.

(** The structures one after the other. *)
Definition numbered (us : list (list Z)) : Prop := ∀ n bs, us !! n = Some bs → is_unit (Z.of_nat n + 1) bs.

Lemma numbered_snoc us bs : numbered us → is_unit (Z.of_nat (length us) + 1) bs → numbered (us ++ [bs]).
Proof.
  intros Hus Hbs n x [Hx|[Hn Hx]]%lookup_app_Some; [by apply Hus|].
  apply list_lookup_singleton_Some in Hx as [Hn' <-]. by replace n with (length us) by lia.
Qed.

Lemma length_numbered us : numbered us → length (concat us) = (112 * length us)%nat.
Proof.
  induction us as [|bs us IH] using rev_ind; intros Hus; [done|]. rewrite concat_app, !length_app. cbn [concat length].
  rewrite app_nil_r, IH by (intros n x Hx; by apply Hus, lookup_app_l_Some).
  destruct (Hus (length us) bs) as [Hl _]; [|lia]. rewrite lookup_app_r, Nat.sub_diag by lia. done.
Qed.

(** The next structure of a longer sequence. *)
Lemma numbered_next us vs bs :
  numbered us → numbered vs → (112 * length us + 112 <= length (concat vs))%nat →
  concat us `prefix_of` concat vs → bs = take 112 (drop (length (concat us)) (concat vs)) →
  numbered (us ++ [bs]) ∧ concat us ++ bs `prefix_of` concat vs.
Proof.
  intros Hus Hvs Hl Hpre Hbs. rewrite (length_numbered vs Hvs) in Hl.
  destruct (lookup_lt_is_Some_2 vs (length us)) as [v Hv]; [lia|].
  assert (length (concat (take (length us) vs)) = (112 * length us)%nat) as Ht.
  { rewrite length_numbered; [rewrite length_take; lia|]. intros n x Hx. apply Hvs.
    apply lookup_take_Some in Hx. apply Hx. }
  assert (concat vs = concat (take (length us) vs) ++ v ++ concat (drop (S (length us)) vs)) as Ec.
  { rewrite <- (take_drop_middle vs (length us) v Hv) at 1. by rewrite concat_app. }
  pose proof (Hvs _ _ Hv) as Huv.
  assert (bs = v) as ->.
  { rewrite Hbs, (length_numbered us Hus), Ec, drop_app_length' by lia. apply take_app_length'. symmetry. apply Huv. }
  split; [by apply numbered_snoc|]. destruct Hpre as [e He].
  assert (concat us = concat (take (length us) vs)) as ->.
  { rewrite Ec in He. apply app_inj_1 in He as [E _]; [done|]. by rewrite Ht, length_numbered. }
  rewrite Ec, (assoc_L (++)). by apply prefix_app_r.
Qed.

(** ** The threads *)

Definition unit_K (pub con : list Z) (es : list line) : Prop := ∃ us, numbered us ∧ pub = concat us.
Definition anything (es es' : list line) : Prop := True.
#[export] Instance anything_preorder : PreOrder anything.
Proof. done. Qed.

Abbreviation inv := (ring_inv mask sizeof_unit unit_K).
Abbreviation wrely := (writer_rely (E := line) anything).
Abbreviation rrely := (reader_rely (E := line) anything).
Abbreviation safe_write := (safe (checked_perform line) inv wrely rrely).
Abbreviation safe_read_side := (safe (checked_perform line) inv rrely wrely).

(** What the writer and the reader know of the ring: how many structures it has handed over,
    and how many it has taken. *)
Definition handed_over (i : Z) (s : shared line) : Prop :=
  ∃ us, numbered us ∧ published s = concat us ∧ Z.of_nat (length us) = i.
Definition taken (i : Z) (s : shared line) : Prop :=
  ∃ us, numbered us ∧ consumed s = concat us ∧ Z.of_nat (length us) = i.

Lemma handed_same i s s' : published s' = published s → handed_over i s → handed_over i s'.
Proof. intros Hp (us & Hu & E & Hl). exists us. by rewrite Hp. Qed.
Lemma taken_same i s s' : consumed s' = consumed s → taken i s → taken i s'.
Proof. intros Hc (us & Hu & E & Hl). exists us. by rewrite Hc. Qed.

(** Lines that are printed. *)
Lemma write_say s e (Q : unit → shared line → Prop) :
  (∀ s', inv s' → published s' = published s → Q tt s') → safe_write (access (Say e)) Q s.
Proof.
  intros HQ. apply (writer_say mask sizeof_unit unit_K anything anything). intros s1 [_ _ P1 _ _] J1.
  split; [apply J1|]. split; [done|]. intros s2 J2 P2 _ _. apply HQ; [done|congruence].
Qed.

Lemma read_say s e (Q : unit → shared line → Prop) :
  (∀ s', inv s' → consumed s' = consumed s → Q tt s') → safe_read_side (access (Say e)) Q s.
Proof.
  intros HQ. apply (reader_say mask sizeof_unit unit_K anything anything). intros s1 [_ _ C1 _] J1.
  split; [apply J1|]. split; [done|]. intros s2 J2 _ C2 _. apply HQ; [done|congruence].
Qed.

(** Tests whose answer the threads do not rely on. *)
Lemma is_full_safe s (Q : bool → shared line → Prop) :
  (∀ b s', wrely s s' → inv s' → Q b s') → safe_write t_kfifo_is_full Q s.
Proof.
  intros HQ. unfold t_kfifo_is_full, t_kfifo_len. apply safe_bind; [apply _|].
  apply safe_bind, (safe_read _ _ _ _ _ (λ s, kf_in (ring s))); [apply _..|done|]. intros s1 s2 R1 J1 R2 J2.
  apply safe_bind, (safe_read _ _ _ _ _ (λ s, kf_out (ring s))); [apply _..|done|]. intros s3 s4 R3 J3 R4 J4.
  apply safe_ret. intros s5 R5 J5. apply safe_ret. intros s6 R6 J6. apply HQ; [|done].
  by do 5 (etrans; [eassumption|]).
Qed.

Lemma is_empty_safe s (Q : bool → shared line → Prop) :
  (∀ b s', rrely s s' → inv s' → Q b s') → safe_read_side t_kfifo_is_empty Q s.
Proof.
  intros HQ. unfold t_kfifo_is_empty.
  apply safe_bind, (safe_read _ _ _ _ _ (λ s, kf_in (ring s))); [apply _..|done|]. intros s1 s2 R1 J1 R2 J2.
  apply safe_bind, (safe_read _ _ _ _ _ (λ s, kf_out (ring s))); [apply _..|done|]. intros s3 s4 R3 J3 R4 J4.
  apply safe_ret. intros s5 R5 J5. apply HQ; [|done]. by do 4 (etrans; [eassumption|]).
Qed.

(** One structure is handed over. *)
Lemma put_unit s i bytes (Q : Z → shared line → Prop) :
  inv s → used (ring s) < capacity (ring s) → handed_over i s → is_unit (i + 1) bytes →
  (∀ n s', inv s' → handed_over (i + 1) s' → Q n s') →
  safe_write (t_kfifo_in mask sizeof_unit bytes 1) Q s.
Proof.
  intros Hs Hu (us & Hus & Ep & Hl) Hb HQ. pose proof (proj1 Hb) as Hlen.
  assert (numbered (us ++ [bytes])) as Hnext by (apply numbered_snoc; [done|by rewrite Hl]).
  assert (∀ n, Z.min 1 (capacity (ring s) - used (ring s)) <= n <= 1 →
    published s ++ take (Z.to_nat (n * sizeof_unit)) bytes = concat (us ++ [bytes])) as Happ.
  { intros n Hn. replace n with 1 by lia. unfold sizeof_unit. rewrite take_ge by lia.
    rewrite concat_app, Ep. cbn [concat]. by rewrite app_nil_r. }
  apply (kfifo_in_safe mask sizeof_unit unit_K anything anything); try done.
  - unfold sizeof_unit. lia.
  - intros n con sd Hn _. exists (us ++ [bytes]). split; [done|by apply Happ].
  - intros n s' Hn J P _ _. apply HQ; [done|]. exists (us ++ [bytes]). split; [done|].
    split; [rewrite P; by apply Happ|]. rewrite length_app. cbn. lia.
Qed.

(** One structure is taken. *)
Lemma get_unit s i buf (Q : list Z * Z → shared line → Prop) :
  inv s → 0 < used (ring s) → taken i s → length buf = 112%nat →
  (∀ bytes n s', inv s' → is_unit (i + 1) bytes → taken (i + 1) s' → Q (bytes, n) s') →
  safe_read_side (t_kfifo_out mask sizeof_unit buf 1) Q s.
Proof.
  intros Hs Hu (us & Hus & Ec & Hl) Hlen HQ.
  apply (kfifo_out_safe mask sizeof_unit unit_K anything anything); try done.
  - unfold sizeof_unit. lia.
  - intros n s' bs Hn J Hp _ Hbs Hlb Cs. replace n with 1 in * by lia.
    destruct (inv_K _ _ _ _ J) as (vs & Hvs & Ev).
    change (Z.to_nat (1 * sizeof_unit)) with 112%nat in *.
    assert (concat us `prefix_of` concat vs) as Hpre.
    { rewrite <- Ev, (inv_bytes _ _ _ _ J), Cs, Ec, <- (assoc_L (++)). by apply prefix_app_r. }
    rewrite Ec, Ev in Hbs.
    destruct (numbered_next us vs bs Hus Hvs) as [Hn' _]; [|done|done|].
    { apply (f_equal length) in Hbs. rewrite length_take, length_drop, (length_numbered us Hus) in Hbs.
      unfold sizeof_unit in Hlb. lia. }
    rewrite drop_ge, app_nil_r by lia. apply HQ; [done| |].
    + rewrite <- Hl. apply Hn'. rewrite lookup_app_r, Nat.sub_diag by lia. done.
    + exists (us ++ [bs]). split; [done|]. rewrite Cs, Ec, concat_app, length_app. cbn. rewrite app_nil_r. split; [done|lia].
Qed.

Lemma write_rounds_safe n : ∀ i u s,
  inv s → 0 <= i <= KFIFO_TEST_LOOP_COUNT → unit_ok u → handed_over i s →
  safe_write (t_write_rounds n i u) (λ j s', 0 <= j <= KFIFO_TEST_LOOP_COUNT ∧ handed_over j s') s.
Proof.
  induction n as [|n IH]; intros i u s Hs Hi Hu Hh; cbn [t_write_rounds].
  { apply safe_ret. intros s1 [_ _ P1 _ _] J1. split; [done|]. by eapply handed_same. }
  destruct (Z.ltb_spec i KFIFO_TEST_LOOP_COUNT).
  2:{ apply safe_bind; [apply _|]. apply write_say. intros s1 J1 P1. apply safe_ret. intros s2 [_ _ P2 _ _] J2.
      split; [done|]. eapply handed_same; [|done]. congruence. }
  apply safe_bind; [apply _|]. apply is_full_safe. intros full s1 [_ _ P1 _ _] J1.
  assert (handed_over i s1) as Hh1 by (by eapply handed_same). destruct full.
  { apply safe_bind; [apply _|]. apply write_say. intros s2 J2 P2. apply IH; try done. by eapply handed_same. }
  apply safe_bind, (kfifo_avail_safe mask sizeof_unit unit_K anything anything); [apply _..|].
  intros s2 s3 [_ _ P2 _ _] J2 [_ _ P3 C3 _] J3.
  assert (handed_over i s3) as Hh3 by (eapply handed_same; [|done]; congruence).
  destruct (Z.ltb_spec (capacity (ring s2) - used (ring s2)) 1).
  { apply safe_bind; [apply _|]. apply write_say. intros s4 J4 P4. apply IH; try done. by eapply handed_same. }
  pose proof (writer_used mask sizeof_unit unit_K s2 s3 J2 J3 P3 C3) as Hused.
  rewrite (inv_capacity _ _ _ _ J2) in *. cbv zeta.
  unfold KFIFO_TEST_LOOP_COUNT in *. apply safe_bind; [apply _|].
  destruct (print_unit_text (unit_buffer u) (i + 1)) as (b & Eb & Hb & Htext); [lia|done|].
  apply (safe_lift _ _ _ _ _ b); [done|]. intros s4 [_ _ P4 C4 _] J4.
  pose proof (writer_used mask sizeof_unit unit_K s3 s4 J3 J4 P4 C4) as Hused4.
  apply safe_bind; [apply _|]. apply (put_unit s4 i); try done.
  - rewrite (inv_capacity _ _ _ _ J4). lia.
  - by eapply handed_same.
  - apply new_unit; [lia|done..].
  - intros m s5 J5 H5. apply IH; [done|lia|done..].
Qed.

(** The assertions of one round. *)
Lemma check_unit i bytes {A} (k : ST_FIFO_UNIT → thread A) (Q : A → shared line → Prop) s :
  0 <= i → is_unit i bytes → (∀ s', rrely s s' → inv s' → safe_read_side (k (unit_of_bytes bytes)) Q s') →
  safe_read_side
    (lift (c_assert (unit_x (unit_of_bytes bytes) =? i));;
     lift (c_assert (unit_y (unit_of_bytes bytes) =? i + 1));;
     lift (c_assert (unit_z (unit_of_bytes bytes) =? i + 2));;
     buffer ← lift (mem_write (replicate 100 0) 0 (unit_text i ++ [0]));
     s1 ← lift (block_string buffer);
     s2 ← lift (block_string (unit_buffer (unit_of_bytes bytes)));
     lift (c_assert (bool_decide (s1 = s2)));;
     k (unit_of_bytes bytes)) Q s.
Proof.
  intros Hi (_ & Hx & Hy & Hz & Ht) Hk. rewrite Hx, Hy, Hz, Ht, !Z.eqb_refl.
  destruct (print_unit_text (replicate 100 0) i) as (b & -> & _ & Eb); [done|done|].
  cbn [lift c_assert mbind prog_mbind prog_seq]. rewrite Eb. cbn [lift mbind prog_mbind prog_seq].
  rewrite bool_decide_true by done. cbn [lift c_assert mbind prog_mbind prog_seq].
  destruct (k (unit_of_bytes bytes)) as [x|f|B a kk] eqn:E; cbn [safe]; intros s1 R1 J1;
    specialize (Hk s1 R1 J1); cbn [safe] in Hk; apply (Hk s1); done.
Qed.

Lemma read_rounds_safe n : ∀ i u s,
  inv s → 0 <= i <= KFIFO_TEST_LOOP_COUNT → unit_ok u → taken i s →
  safe_read_side (t_read_rounds n i u) (λ j s', 0 <= j <= KFIFO_TEST_LOOP_COUNT ∧ taken j s') s.
Proof.
  induction n as [|n IH]; intros i u s Hs Hi Hu Ht; cbn [t_read_rounds].
  { apply safe_ret. intros s1 [_ _ C1 _] J1. split; [done|]. by eapply taken_same. }
  destruct (Z.ltb_spec i KFIFO_TEST_LOOP_COUNT).
  2:{ apply safe_bind; [apply _|]. apply read_say. intros s1 J1 C1. apply safe_ret. intros s2 [_ _ C2 _] J2.
      split; [done|]. eapply taken_same; [|done]. congruence. }
  apply safe_bind; [apply _|]. apply is_empty_safe. intros empty s1 [_ _ C1 _] J1.
  assert (taken i s1) as Ht1 by (by eapply taken_same). destruct empty; [by apply IH|].
  apply safe_bind, (kfifo_len_safe mask sizeof_unit unit_K anything anything); [apply _..|].
  intros s2 s3 [_ _ C2 _] J2 R3 J3.
  assert (taken i s3) as Ht3 by (eapply taken_same; [|done]; destruct R3; congruence).
  destruct (Z.ltb_spec (used (ring s2)) 1); [by apply IH|].
  pose proof (reader_used mask sizeof_unit unit_K anything s2 s3 J2 J3 R3) as Hused.
  apply safe_bind; [apply _|]. apply (get_unit s3 i); try done; [lia|by apply length_unit_bytes|].
  intros bytes m s4 J4 Hb H4. cbv zeta. unfold KFIFO_TEST_LOOP_COUNT in *.
  apply (check_unit (i + 1) bytes (t_read_rounds n (i + 1))); [lia|done|].
  intros s5 [_ _ C5 _] J5. apply IH; [done|lia| |by eapply taken_same].
  unfold unit_ok, unit_of_bytes. cbn [unit_buffer]. rewrite length_drop. destruct Hb as [Hb _]. lia.
Qed.

(** ** The program *)

Lemma write_rounds_end n : ∀ i u, ends_within (12 * n) (t_write_rounds n i u).
Proof.
  induction n as [|n IH]; intros i u; [done|]. cbn [t_write_rounds].
  destruct (i <? _); [|apply (ends_weaken _ 1); [lia|done]].
  replace (12 * S n)%nat with (2 + (10 + 12 * n))%nat by lia. apply ends_bind; [|done].
  intros [|].
  { apply (ends_weaken _ (1 + 12 * n)); [lia|]. by apply ends_bind. }
  replace (10 + 12 * n)%nat with (2 + (8 + 12 * n))%nat by lia. apply ends_bind; [|done]. intros avail.
  destruct (avail <? 1).
  { apply (ends_weaken _ (1 + 12 * n)); [lia|]. by apply ends_bind. }
  apply (ends_weaken _ (0 + (7 + 12 * n))); [lia|]. apply ends_bind; [|apply ends_lift]. intros b.
  apply ends_bind; [done|apply kfifo_in_ends].
Qed.

Lemma read_rounds_end n : ∀ i u, ends_within (12 * n) (t_read_rounds n i u).
Proof.
  induction n as [|n IH]; intros i u; [done|]. cbn [t_read_rounds].
  destruct (i <? _); [|apply (ends_weaken _ 1); [lia|done]].
  replace (12 * S n)%nat with (2 + (10 + 12 * n))%nat by lia. apply ends_bind; [|done].
  intros [|]; [apply (ends_weaken _ (12 * n)); [lia|apply IH]|].
  replace (10 + 12 * n)%nat with (2 + (8 + 12 * n))%nat by lia. apply ends_bind; [|done]. intros len.
  destruct (len <? 1); [apply (ends_weaken _ (12 * n)); [lia|apply IH]|].
  apply (ends_weaken _ (7 + 12 * n)); [lia|]. apply ends_bind; [|apply kfifo_out_ends]. intros [bytes k].
  do 7 (apply (ends_bind _ _ (12 * n)) with (n := 0%nat); [intros ?|apply ends_lift]). apply IH.
Qed.

Lemma fifobuf_start data :
  Z.of_nat (length data) = FIFO_ELEMENTS * sizeof_unit →
  inv (mk_shared (g_fifobuf data) [] false [] []).
Proof.
  intros Hl. unfold FIFO_ELEMENTS, sizeof_unit in *.
  assert (capacity (g_fifobuf data) = 256) as Hc by done. assert (kf_esize (g_fifobuf data) = 112) as He by done.
  constructor; try done.
  - constructor; cbn [ring]; rewrite ?Hc, ?He; try done.
    + exists 8. split; [lia|done].
    + change (kf_data _) with data. lia.
  - exists []. split; [|done]. intros n bs Hn. by destruct n.
Qed.

(** C4: the assertions of the example never fail.  However the accesses of write_thread and
    read_thread to the ring are interleaved, for any number of rounds of each: nothing
    faults, no assertion fails and no access races; the bytes published are the structures
    1, 2, 3 and so on, the bytes consumed a prefix of them; a thread that gets twelve
    accesses for each of its rounds finishes them, and returns the number of structures it
    has written or read. *)
Theorem example_assertions_hold data n m sched :
  Z.of_nat (length data) = FIFO_ELEMENTS * sizeof_unit →
  ∃ p q s,
    run (checked_perform line) (λ _, false) sched (t_write_thread n) (t_read_thread m)
      (mk_shared (g_fifobuf data) [] false [] []) = Ok (p, q, s) ∧
    (∃ us, numbered us ∧ published s = concat us) ∧ consumed s `prefix_of` published s ∧
    ((12 * n + 1 <= turns true sched)%nat → ∃ i, p = Ret i ∧ handed_over i s) ∧
    ((12 * m + 1 <= turns false sched)%nat → ∃ j, q = Ret j ∧ taken j s).
Proof.
  intros Hl. pose proof (fifobuf_start data Hl) as J0. set (s0 := mk_shared (g_fifobuf data) [] false [] []) in *.
  assert (∃ us, numbered us ∧ [] = concat us ∧ Z.of_nat (length us) = 0) as Hempty.
  { exists []. split; [|done]. intros k bs Hk. by destruct k. }
  assert (safe_write (t_write_thread n) (λ j s', 0 <= j <= KFIFO_TEST_LOOP_COUNT ∧ handed_over j s') s0) as Hw.
  { apply safe_bind; [apply _|]. apply write_say. intros s1 J1 P1. apply write_rounds_safe; [done|done|done|].
    unfold handed_over. by rewrite P1. }
  assert (safe_read_side (t_read_thread m) (λ j s', 0 <= j <= KFIFO_TEST_LOOP_COUNT ∧ taken j s') s0) as Hr.
  { apply safe_bind; [apply _|]. apply read_say. intros s1 J1 C1. apply read_rounds_safe; [done|done|done|].
    unfold taken. by rewrite C1. }
  destruct (run_safe (checked_perform line) (λ _, false) inv wrely rrely rrely wrely _ _ sched (λ s s' H, H) (λ s s' H, H)
    _ _ s0 J0 Hw Hr) as (p & q & s & Hrun & J & Hp & Hq).
  destruct (run_ends _ _ _ _ _ _ _ _ _ (1 + 12 * n) (1 + 12 * m) Hrun) as [[|Ep] [|Eq]]; try done.
  { apply ends_bind; [intros _; apply write_rounds_end|done]. }
  { apply ends_bind; [intros _; apply read_rounds_end|done]. }
  exists p, q, s. split; [done|]. split; [apply J|]. split; [|split]; [|intros Hturns..].
  - rewrite (inv_bytes _ _ _ _ J). by apply prefix_app_r.
  - destruct (safe_ended _ _ _ _ _ _ _ J Hp (Ep ltac:(lia))) as (i & -> & _ & H). by exists i.
  - destruct (safe_ended _ _ _ _ _ _ _ J Hq (Eq ltac:(lia))) as (j & -> & _ & H). by exists j.
Qed.

(** Three rounds of the writer and two of the reader, turn by turn. *)
Lemma example_assertions_hold_witness :
  ∃ p q s,
    run (checked_perform line) (λ _, false) (concat (replicate 37 [true; false])) (t_write_thread 3) (t_read_thread 2)
      (mk_shared (g_fifobuf (replicate (Z.to_nat (256 * 112)) 0)) [] false [] []) = Ok (p, q, s) ∧
    (∃ i, p = Ret i) ∧ (∃ j, q = Ret j).
Proof.
  destruct (example_assertions_hold (replicate (Z.to_nat (256 * 112)) 0) 3 2 (concat (replicate 37 [true; false])))
    as (p & q & s & Hrun & _ & _ & Hp & Hq).
  - rewrite length_replicate, Z2Nat.id by lia. reflexivity.
  - exists p, q, s. split; [exact Hrun|]. split.
    + destruct Hp as (i & E & _); [vm_compute; lia|]. by exists i.
    + destruct Hq as (j & E & _); [vm_compute; lia|]. by exists j.
Defined.
