(* ===== verification/Utils.v ===== *)
(** * Utilities (src/common/utils/backtrace.hpp, path.cpp, posix.cpp)

    The text buffer of LogBacktrace, the creation of directories, and two wrappers of
    system calls.  What the system answers is an argument. *)

From S2P Require Import Prelude Unpack.

(** ** Stack traces *)

Definition MAX_BACKTRACE_SIZE : Z := 30.
Definition MAX_BACKTRACE_LOG_STR_SIZE : Z := 100 * 4096.

Record LogBacktrace := mk_backtrace { m_achBufferLogStr : list Z; m_iBufferLogIdx : Z }.

Definition LogBacktrace_new : LogBacktrace :=
  mk_backtrace (replicate (Z.to_nat MAX_BACKTRACE_LOG_STR_SIZE) 0) 0.

(** snprintf of the formatted [text] into [size] bytes at [off]; it returns the length of
    the whole text. *)
Definition snprintf (buf : list Z) (off size : Z) (text : list Z) : res (list Z) :=
  if size <=? 0 then Ok buf
  else mem_write buf off (take (Z.to_nat (size - 1)) text ++ [0]).

(** The text ".......more......." on a line of its own. *)
Definition more_text : list Z := [10] ++ replicate 7 46 ++ [109; 111; 114; 101] ++ replicate 7 46.

Definition _FillLogStr (t : LogBacktrace) (text : list Z) : res LogBacktrace :=
  let iLeftSpace := i32 (MAX_BACKTRACE_LOG_STR_SIZE - m_iBufferLogIdx t) in
  if MAX_BACKTRACE_LOG_STR_SIZE - 1024 <? m_iBufferLogIdx t then
    buf ← (if 32 <? iLeftSpace
           then snprintf (m_achBufferLogStr t) (m_iBufferLogIdx t) iLeftSpace more_text
           else Ok (m_achBufferLogStr t));
    Ok (mk_backtrace buf MAX_BACKTRACE_LOG_STR_SIZE)
  else
    buf ← snprintf (m_achBufferLogStr t) (m_iBufferLogIdx t) iLeftSpace text;
    Ok (mk_backtrace buf (i32 (m_iBufferLogIdx t + Z.of_nat (length text)))).

Definition GetLogStr (t : LogBacktrace) : res (list Z) := block_string (m_achBufferLogStr t).

Definition fill_all (t : LogBacktrace) (texts : list (list Z)) : res LogBacktrace :=
  foldl (λ r text, t ← r; _FillLogStr t text) (Ok t) texts.

(** A line of the trace; a symbol can be a null pointer. *)
Definition _FormatStackStr (t : LogBacktrace) (pchMsg : option (list Z)) : res LogBacktrace :=
  match pchMsg with
  | None => _FillLogStr t [78; 85; 76; 76; 10; 9]
  | Some s => t ← _FillLogStr t s; _FillLogStr t [10; 9]
  end.

(** The format #%02d. *)
Definition frame_number (i : Z) : list Z :=
  [35] ++ (if i <? 10 then 48 :: decimal i else decimal i) ++ [32].

Fixpoint stack_loop (t : LogBacktrace) (i : Z) (symbols : list (option (list Z))) : res LogBacktrace :=
  match symbols with
  | [] => Ok t
  | s :: symbols =>
      t ← _FillLogStr t (frame_number (i - 1));
      t ← _FormatStackStr t s;
      stack_loop t (i + 1) symbols
  end.

Definition trace_error : list Z := map (λ c, Z.of_nat (Ascii.nat_of_ascii c)) (String.list_ascii_of_string "error while dump stack trace!") ++ [10].
Definition trace_mark (s : string) : list Z :=
  [10] ++ map (λ c, Z.of_nat (Ascii.nat_of_ascii c)) (String.list_ascii_of_string s) ++ [10; 9].
Definition trace_start : list Z := trace_mark ">>>>>>>>>>>>>>>> STACK TRACE START >>>>>>>>".
Definition trace_end : list Z := trace_mark "<<<<<<<<<<<<<<<< STACK TRACE END <<<<<<<<".

(** [symbols] is the answer of backtrace_symbols for the frames backtrace found, [None] a
    null pointer; the first frame is this function. *)
Definition GetTraceMsg (t : LogBacktrace) (symbols : option (list (option (list Z)))) : res (list Z * LogBacktrace) :=
  match symbols with
  | None =>
      t ← _FillLogStr t trace_error;
      s ← GetLogStr t; Ok (s, t)
  | Some symbols =>
      t ← _FillLogStr t trace_start;
      t ← stack_loop t 1 (drop 1 symbols);
      t ← _FillLogStr t trace_end;
      s ← GetLogStr t; Ok (s, t)
  end.

(** ** Directories *)

(** What mkdir answers: success, or an errno. *)
Inductive mkdir_answer := MkdirOk | MkdirErr (errno : Z).
Definition EEXIST : Z := 17.

(** std::string::find for a slash from an index on. *)
Fixpoint find_slash (s : list Z) (i : nat) : option nat :=
  match s with
  | [] => None
  | c :: s =>
      match i with
      | O => if c =? 47 then Some 0%nat else S <$> find_slash s 0
      | S i => S <$> find_slash s i
      end
  end.

Definition mkdir_failed (a : mkdir_answer) : bool :=
  match a with MkdirOk => false | MkdirErr e => negb (e =? EEXIST) end.

(** The while loop: [k] counts the calls of mkdir, [calls] collects their arguments. *)
Fixpoint path_loop (fuel : nat) (mkdir : nat → mkdir_answer) (sPath : list Z) (index : option nat) (k : nat)
    (calls : list (list Z)) : res (bool * nat * list (list Z)) :=
  match fuel with
  | O => Fault OutOfFuel
  | S fuel =>
      match index with
      | None => Ok (true, k, calls)
      | Some i =>
          let calls := calls ++ [take (i + 1) sPath] in
          if mkdir_failed (mkdir k) then Ok (false, S k, calls)
          else path_loop fuel mkdir sPath (find_slash sPath (i + 1)) (S k) calls
      end
  end.

(** [stat] is the answer of stat: [None] when it fails, else whether it is a directory.
    The results are that of the function and the calls of mkdir. *)
Definition CreatePath (stat : option bool) (mkdir : nat → mkdir_answer) (sPath : list Z)
    : res (bool * list (list Z)) :=
  match stat with
  | Some b => Ok (b, [])
  | None =>
      match mkdir 0%nat with
      | MkdirOk => Ok (true, [sPath])
      | MkdirErr _ =>
          '(ok, k, calls) ← path_loop (S (length sPath)) mkdir sPath (find_slash sPath 0) 1 [sPath];
          if ok : bool then
            match mkdir k with
            | MkdirOk => Ok (true, calls ++ [sPath])
            | MkdirErr _ => Ok (true, calls ++ [sPath])
            end
          else Ok (false, calls)
      end
  end.

Definition FileExists (stat : option bool) : bool := match stat with Some _ => true | None => false end.
Definition RemoveFile (remove : Z) : bool := remove =? 0.

(** ** System calls *)

Definition AF_INET : Z := 2.

(** What gethostbyname_r answers: its result, and the type and address of the host. *)
Definition GetHostByName (r : Z) (he : option (Z * list Z)) : list Z :=
  match he with
  | Some (h_addrtype, h_addr) =>
      if (r =? 0) && (h_addrtype =? AF_INET) then take 4 h_addr else replicate 4 255
  | None => replicate 4 255
  end.

(** [r] is what pipe returns, with the two descriptors it stores. *)
Definition CreatePipe (r : Z) (fds iFds : Z * Z) : bool * (Z * Z) :=
  if negb (r =? 0) then (false, iFds) else (true, fds).

(** ** The text of a trace

    The text kept is what was appended, as long as there is room; then a mark, then
    nothing.  The flag says that no more text is taken. *)

Abbreviation MAX := MAX_BACKTRACE_LOG_STR_SIZE.

Definition appended (s : list Z * bool) (text : list Z) : list Z * bool :=
  let '(acc, closed) := s in
  if closed then (acc, true)
  else if MAX - 1024 <? Z.of_nat (length acc) then
    (if 32 <? MAX - Z.of_nat (length acc) then acc ++ more_text else acc, true)
  else if MAX <=? Z.of_nat (length acc + length text) then (take (Z.to_nat (MAX - 1)) (acc ++ text), true)
  else (acc ++ text, false).

Definition text_ok (text : list Z) : Prop := (0 ∉ text) ∧ Z.of_nat (length text) < 2 ^ 31 - MAX.

Record trace_inv (t : LogBacktrace) (s : list Z * bool) : Prop := {
  ti_buffer : ∃ rest, m_achBufferLogStr t = s.1 ++ 0 :: rest;
  ti_size : Z.of_nat (length (m_achBufferLogStr t)) = MAX;
  ti_text : 0 ∉ s.1;
  ti_index : if s.2 then MAX <= m_iBufferLogIdx t < 2 ^ 31 else m_iBufferLogIdx t = Z.of_nat (length s.1) }.

Lemma MAX_value : MAX = 409600.
Proof. done. Qed.

(** Sizes of this order are not unfolded. *)
#[local] Opaque MAX_BACKTRACE_LOG_STR_SIZE.

Lemma trace_new : trace_inv LogBacktrace_new ([], false).
Proof.
  pose proof MAX_value. constructor; cbn [LogBacktrace_new m_achBufferLogStr m_iBufferLogIdx fst snd].
  - exists (replicate (Z.to_nat (MAX - 1)) 0). assert (Z.to_nat MAX = S (Z.to_nat (MAX - 1))) as -> by lia. done.
  - rewrite length_replicate. lia.
  - apply not_elem_of_nil.
  - reflexivity.
Qed.

(** Writing a text behind the text that is there. *)
Lemma snprintf_spec buf acc rest text n :
  buf = acc ++ 0 :: rest → Z.of_nat (length buf) = MAX → n = MAX - Z.of_nat (length acc) → 0 < n →
  ∃ buf' rest', snprintf buf (Z.of_nat (length acc)) n text = Ok buf' ∧
    buf' = (acc ++ take (Z.to_nat (n - 1)) text) ++ 0 :: rest' ∧ length buf' = length buf.
Proof.
  intros Hb Hl Hn Hpos. unfold snprintf. destruct (Z.leb_spec n 0); [lia|].
  set (w := take (Z.to_nat (n - 1)) text). assert (Z.of_nat (length w) <= n - 1).
  { unfold w. rewrite length_take. lia. }
  rewrite mem_write_Ok by (rewrite ?length_app; cbn [length]; lia).
  exists (splice buf (Z.to_nat (Z.of_nat (length acc))) (w ++ [0])). eexists. split; [done|].
  rewrite Nat2Z.id. split; [|apply length_splice; rewrite length_app; cbn [length]; lia].
  rewrite Hb. unfold splice. rewrite take_app_length, <- !(assoc_L (++)). reflexivity.
Qed.

Lemma more_text_ok : (0 ∉ more_text) ∧ length more_text = 19%nat.
Proof. split; [|done]. refine (bool_decide_unpack _ _). vm_compute. exact I. Qed.

Lemma fill_step t s text :
  trace_inv t s → text_ok text → ∃ t', _FillLogStr t text = Ok t' ∧ trace_inv t' (appended s text).
Proof.
  intros [[rest Hb] Hl Hz Hi] [Ht Hlen]. destruct s as [acc closed]. cbn [fst snd] in *. unfold _FillLogStr, appended.
  pose proof MAX_value as HM. destruct closed.
  { destruct (Z.ltb_spec (MAX - 1024) (m_iBufferLogIdx t)); [|lia]. rewrite swrap_small by lia.
    destruct (Z.ltb_spec 32 (MAX - m_iBufferLogIdx t)); [lia|]. rewrite bind_Ok. eexists. split; [done|].
    constructor; cbn; [by exists rest|done|done|lia]. }
  assert (Z.of_nat (length acc) < MAX) as Ha by (rewrite Hb, length_app in Hl; cbn [length] in Hl; lia).
  rewrite Hi, swrap_small by lia. destruct (Z.ltb_spec (MAX - 1024) (Z.of_nat (length acc))).
  - destruct (Z.ltb_spec 32 (MAX - Z.of_nat (length acc))).
    + destruct more_text_ok as [Hmz Hml].
      destruct (snprintf_spec _ acc rest more_text _ Hb Hl eq_refl) as (b' & r' & -> & Eb & El); [lia|].
      rewrite take_ge in Eb by lia. rewrite bind_Ok. eexists. split; [done|].
      constructor; cbn; [by exists r'|lia| |lia]. rewrite not_elem_of_app. done.
    + rewrite bind_Ok. eexists. split; [done|]. constructor; cbn; [by exists rest|done|done|lia].
  - destruct (snprintf_spec _ acc rest text _ Hb Hl eq_refl) as (b' & r' & -> & Eb & El); [lia|].
    rewrite bind_Ok. eexists. split; [done|]. rewrite swrap_small by lia.
    destruct (Z.leb_spec MAX (Z.of_nat (length acc + length text))).
    + constructor; cbn; [|lia| |lia].
      * exists r'. rewrite Eb. f_equal. rewrite take_app, (take_ge acc) by lia. do 2 f_equal. lia.
      * intros (i & Hx & _)%elem_of_take. apply list_elem_of_lookup_2 in Hx. rewrite elem_of_app in Hx. tauto.
    + rewrite take_ge in Eb by lia.
      constructor; cbn; [by exists r'|lia| |rewrite length_app; lia]. rewrite not_elem_of_app. done.
Qed.

(** Any texts, in any number: the writes stay in the buffer, which stays terminated, and the
    text read back is the text appended. *)
Theorem backtrace_text texts :
  Forall text_ok texts →
  ∃ t, fill_all LogBacktrace_new texts = Ok t ∧ GetLogStr t = Ok (foldl appended ([], false) texts).1 ∧
    Z.of_nat (length (m_achBufferLogStr t)) = MAX.
Proof.
  intros Hok. assert (∃ t, fill_all LogBacktrace_new texts = Ok t ∧ trace_inv t (foldl appended ([], false) texts))
    as (t & E & Hinv).
  { unfold fill_all. generalize trace_new. generalize LogBacktrace_new. generalize (@nil Z, false).
    induction Hok as [|text texts Ht _ IH]; intros s t0 Hinv; [by exists t0|]. cbn [foldl]. rewrite bind_Ok.
    destruct (fill_step t0 s text Hinv Ht) as (t1 & -> & Hinv1). by apply IH. }
  exists t. split; [done|]. split; [|apply Hinv]. unfold GetLogStr.
  destruct (ti_buffer _ _ Hinv) as [rest ->]. apply block_string_spec, Hinv.
Qed.

(** ** The directories that are made *)

(** The indices of slashes from [i] on. *)
Definition slashes (s : list Z) (i : nat) : list nat :=
  filter (λ j, s !! j = Some 47) (seq i (length s - i)).

Lemma find_slash_Some s : ∀ i j,
  find_slash s i = Some j → (i <= j)%nat ∧ s !! j = Some 47 ∧ ∀ k, (i <= k < j)%nat → s !! k ≠ Some 47.
Proof.
  induction s as [|c s IH]; intros i j; cbn [find_slash]; [done|]. destruct i as [|i].
  - destruct (Z.eqb_spec c 47) as [->|Hc].
    + intros [= <-]. split_and!; [done..|]. lia.
    + intros (j' & Hj & ->)%fmap_Some. apply IH in Hj as (_ & Hl & Hk). split; [lia|]. split; [done|].
      intros [|k] Hk'; [by intros [= ->]|]. apply Hk. lia.
  - intros (j' & Hj & ->)%fmap_Some. apply IH in Hj as (Hle & Hl & Hk). split; [lia|]. split; [done|].
    intros [|k] Hk'; [lia|]. apply Hk. lia.
Qed.

Lemma find_slash_None s : ∀ i, find_slash s i = None → ∀ k, (i <= k)%nat → s !! k ≠ Some 47.
Proof.
  induction s as [|c s IH]; intros i; cbn [find_slash]; [done|]. destruct i as [|i].
  - destruct (Z.eqb_spec c 47); [done|]. intros Hn%fmap_None [|k] Hk; [by intros [= ->]|]. apply (IH _ Hn). lia.
  - intros Hn%fmap_None [|k] Hk; [lia|]. apply (IH _ Hn). lia.
Qed.

Lemma slashes_step s i :
  slashes s i = match find_slash s i with None => [] | Some j => j :: slashes s (j + 1) end.
Proof.
  unfold slashes. destruct (find_slash s i) as [j|] eqn:E.
  - apply find_slash_Some in E as (Hle & Hj & Hk). pose proof (lookup_lt_Some _ _ _ Hj) as Hlt.
    replace (length s - i)%nat with ((j - i) + (1 + (length s - (j + 1))))%nat by lia.
    rewrite !seq_app, !list.filter_app. replace (i + (j - i))%nat with j by lia.
    rewrite (filter_none _ (seq i (j - i))).
    2:{ intros x Hx%elem_of_seq. apply Hk. lia. }
    cbn [app seq]. rewrite filter_cons_True, filter_nil by done. done.
  - apply filter_none. intros x Hx%elem_of_seq. apply (find_slash_None s i E). lia.
Qed.

(** The prefixes of a path that end with a slash. *)
Definition parents (s : list Z) (i : nat) : list (list Z) := (λ j, take (j + 1) s) <$> slashes s i.

Lemma path_loop_spec mkdir s fuel : ∀ i k calls,
  (length s - i < fuel)%nat →
  path_loop fuel mkdir s (find_slash s i) k calls =
    match list_find (λ j, mkdir_failed (mkdir j) = true) (seq k (length (parents s i))) with
    | Some (n, _) => Ok (false, k + S n, calls ++ take (S n) (parents s i))
    | None => Ok (true, k + length (parents s i), calls ++ parents s i)
    end%nat.
Proof.
  unfold parents. induction fuel as [|fuel IH]; intros i k calls Hf; [lia|]. cbn [path_loop]. rewrite slashes_step.
  destruct (find_slash s i) as [j|] eqn:E; cbn [fmap list_fmap length seq list_find].
  - apply find_slash_Some in E as (Hle & Hj & _). apply lookup_lt_Some in Hj.
    destruct (mkdir_failed (mkdir k)) eqn:Ef.
    + rewrite decide_True by done. cbn [take]. by rewrite take_0, !Nat.add_1_r.
    + rewrite decide_False by done. rewrite IH by lia.
      destruct (list_find _ _) as [[n x]|]; cbn [fmap option_fmap option_map prod_map fst]; rewrite <- (assoc_L (++)).
      * by replace (S k + S n)%nat with (k + S (S n))%nat by lia.
      * by rewrite Nat.add_succ_comm.
  - by rewrite Nat.add_0_r, app_nil_r.
Qed.

(** CreatePath on a path that does not exist and cannot be made at once: it makes every
    prefix that ends with a slash, in order, stops with false at the first error other than
    EEXIST, and else tries the path again; the answer is then true whatever this last call
    answers. *)
Theorem CreatePath_spec mkdir s e :
  mkdir 0%nat = MkdirErr e →
  CreatePath None mkdir s =
    match list_find (λ j, mkdir_failed (mkdir j) = true) (seq 1 (length (parents s 0))) with
    | Some (n, _) => Ok (false, s :: take (S n) (parents s 0))
    | None => Ok (true, s :: parents s 0 ++ [s])
    end.
Proof.
  intros E0. unfold CreatePath. rewrite E0, path_loop_spec by lia.
  destruct (list_find _ _) as [[n x]|]; rewrite bind_Ok; [done|]. by case_match.
Qed.

(** ** The trace *)

Definition symbol_texts (s : option (list Z)) : list (list Z) :=
  match s with None => [[78; 85; 76; 76; 10; 9]] | Some s => [s; [10; 9]] end.

Fixpoint stack_texts (i : Z) (symbols : list (option (list Z))) : list (list Z) :=
  match symbols with
  | [] => []
  | s :: symbols => (frame_number (i - 1) :: symbol_texts s) ++ stack_texts (i + 1) symbols
  end.

Lemma fill_all_cons t text texts : fill_all t (text :: texts) = t ← _FillLogStr t text; fill_all t texts.
Proof.
  unfold fill_all. cbn [foldl]. rewrite bind_Ok. destruct (_FillLogStr t text) as [t'|f]; [done|]. cbn [mbind res_bind].
  induction texts as [|x texts IH]; [done|]. apply IH.
Qed.

Lemma fill_all_app t l1 l2 : fill_all t (l1 ++ l2) = t ← fill_all t l1; fill_all t l2.
Proof.
  revert t. induction l1 as [|x l1 IH]; intros t; [done|]. cbn [app]. rewrite !fill_all_cons.
  destruct (_FillLogStr t x) as [t'|f]; [|done]. cbn [mbind res_bind]. apply IH.
Qed.

Lemma stack_loop_texts symbols : ∀ t i, stack_loop t i symbols = fill_all t (stack_texts i symbols).
Proof.
  induction symbols as [|s symbols IH]; intros t i; [done|]. cbn [stack_loop stack_texts]. rewrite fill_all_app, fill_all_cons.
  destruct (_FillLogStr t (frame_number (i - 1))) as [t1|f]; [|done]. cbn [mbind res_bind].
  replace (_FormatStackStr t1 s) with (fill_all t1 (symbol_texts s)).
  { destruct (fill_all t1 (symbol_texts s)); [apply IH|done]. }
  destruct s as [s|]; unfold _FormatStackStr, symbol_texts; rewrite !fill_all_cons.
  - destruct (_FillLogStr t1 s) as [t2|f]; [|done]. cbn [mbind res_bind]. rewrite fill_all_cons.
    by destruct (_FillLogStr t2 [10; 9]).
  - by destruct (_FillLogStr t1 _).
Qed.

Lemma short_text_ok text : forallb (λ c, negb (c =? 0)) text = true → (length text <= 1000)%nat → text_ok text.
Proof.
  intros Hz Hl. split; [|pose proof MAX_value; lia]. intros Hin. apply list_elem_of_In in Hin.
  by apply (proj1 (forallb_forall _ _) Hz) in Hin.
Qed.

Lemma frame_number_ok i : 0 <= i → text_ok (frame_number i).
Proof.
  intros Hi. destruct (decimal_spec i Hi) as [Hl Hz]. unfold frame_number. split.
  - rewrite !not_elem_of_app. split_and!; [rewrite not_elem_of_cons; split; [done|apply not_elem_of_nil]| |
      rewrite not_elem_of_cons; split; [done|apply not_elem_of_nil]].
    destruct (i <? 10); [rewrite not_elem_of_cons; done|done].
  - pose proof MAX_value. rewrite !length_app. destruct (i <? 10); cbn [length]; lia.
Qed.

Lemma stack_texts_ok symbols : ∀ i,
  1 <= i → Forall (λ s, match s with Some s => text_ok s | None => True end) symbols →
  Forall text_ok (stack_texts i symbols).
Proof.
  induction symbols as [|s symbols IH]; intros i Hi Hs; [constructor|]. apply Forall_cons_1 in Hs as [Hs Hss].
  cbn [stack_texts]. apply Forall_app_2; [|apply IH; [lia|done]]. constructor; [apply frame_number_ok; lia|].
  destruct s as [s|]; cbn [symbol_texts]; [apply Forall_cons_2; [done|]|];
    apply Forall_singleton, short_text_ok; done || (cbn; lia).
Qed.

(** The stack trace stays in its buffer.  Whatever the number and the lengths of the
    symbols, every write of GetTraceMsg is inside the array, which stays terminated; the
    string returned is the start mark, the numbered lines and the end mark, appended until
    less than 1024 bytes are left, then closed with the mark for more. *)
Theorem GetTraceMsg_text symbols :
  Forall (λ s, match s with Some s => text_ok s | None => True end) symbols →
  ∃ t, GetTraceMsg LogBacktrace_new (Some symbols) =
    Ok ((foldl appended ([], false) (trace_start :: stack_texts 1 (drop 1 symbols) ++ [trace_end])).1, t) ∧
    Z.of_nat (length (m_achBufferLogStr t)) = MAX.
Proof.
  intros Hs. destruct (backtrace_text (trace_start :: stack_texts 1 (drop 1 symbols) ++ [trace_end])) as (t & E & Et & Hl).
  { constructor; [apply short_text_ok; [done|vm_compute; lia]|]. apply Forall_app_2.
    - apply stack_texts_ok; [lia|]. by apply Forall_drop.
    - constructor; [apply short_text_ok; [done|vm_compute; lia]|constructor]. }
  exists t. split; [|done]. unfold GetTraceMsg. rewrite fill_all_cons in E.
  destruct (_FillLogStr LogBacktrace_new trace_start) as [t1|]; [|done]. cbn [mbind res_bind] in E |- *.
  rewrite fill_all_app, <- stack_loop_texts in E. destruct (stack_loop t1 1 (drop 1 symbols)) as [t2|]; [|done].
  cbn [mbind res_bind] in E |- *. rewrite fill_all_cons in E.
  destruct (_FillLogStr t2 trace_end) as [t3|]; [|done]. cbn [mbind res_bind] in E |- *. injection E as ->.
  by rewrite Et.
Qed.

Lemma GetTraceMsg_text_witness :
  ∃ t, GetTraceMsg LogBacktrace_new (Some [Some [109]; Some [102]; None]) =
    Ok ((foldl appended ([], false) (trace_start :: stack_texts 1 [Some [102]; None] ++ [trace_end])).1, t).
Proof.
  destruct (GetTraceMsg_text [Some [109]; Some [102]; None]) as (t & E & _).
  - repeat constructor; unfold text_ok; vm_compute; try reflexivity; intros Hin;
      apply list_elem_of_In in Hin; cbn in Hin; destruct Hin as [Hin|[]]; discriminate Hin.
  - exists t. exact E.
Defined.
