(* ===== verification/PacketPool.v ===== *)
(** * Packet memory, packets and packet queues
      (src/network/packet_pool.h, src/network/packet.h, src/network/queue.h)

    Packet bodies live in objects shared by pointer: 4096 pool slots handed out
    through a queue of free indices, and heap objects when the pool is empty.
    The theorems show that the pool never hands out memory that is in use, and
    that packets keep their bytes until they are released. *)

From S2P Require Import Prelude Spinlock Unpack.

Definition NETWORK_PACKET_BUFFER_DEFAULT_SIZE : Z := 256.
Definition NETWORK_PACKET_BUFFER_MAX_SIZE : Z := 10240.
Definition NETWORK_PACKET_HEADER_SIZE : Z := 2 * 2.
Definition NETWORK_PACKET_TAIL_SIZE : Z := 8.
Definition NETWORK_SERVER_IP_ADDRESS_LEN : Z := 64.
Definition MAX_PACKET_MEMORY_POOL_SIZE : Z := 4096.

(** ** ST_PacketMemory *)

(** The extra space is an array only this object points to. *)
Record ST_PacketMemory := mk_memory {
  m_iIndex : Z;
  m_achBytesArray : list Z;
  m_pchBytesExtraSpace : option (list Z)
}.

Definition memory_construct : ST_PacketMemory :=
  mk_memory 0 (replicate (Z.to_nat NETWORK_PACKET_BUFFER_DEFAULT_SIZE) 0) None.

(** delete[] of the extra space, and everything zeroed, the index too. *)
Definition memory_release (m : ST_PacketMemory) : ST_PacketMemory := memory_construct.

Definition memory_GetBuffer (m : ST_PacketMemory) : list Z :=
  match m_pchBytesExtraSpace m with
  | Some extra => extra
  | None => m_achBytesArray m
  end.

Definition SetIndex (m : ST_PacketMemory) (iIndex : Z) : ST_PacketMemory :=
  mk_memory iIndex (m_achBytesArray m) (m_pchBytesExtraSpace m).

Definition memory_Init (m : ST_PacketMemory) (iBufferSize : Z) (pchBuffer : list Z)
    : res ST_PacketMemory :=
  if Z.of_nat (length (m_achBytesArray m)) <=? u64 iBufferSize then
    _ ← c_assert (iBufferSize <=? NETWORK_PACKET_BUFFER_MAX_SIZE);
    (* new BYTE[n] of a negative n throws *)
    if iBufferSize <? 0 then Fault Undefined
    else
      src ← mem_read pchBuffer 0 iBufferSize;
      Ok (mk_memory (m_iIndex m) (m_achBytesArray m) (Some src))
  else
    src ← mem_read pchBuffer 0 iBufferSize;
    arr ← mem_write (m_achBytesArray m) 0 src;
    Ok (mk_memory (m_iIndex m) arr (m_pchBytesExtraSpace m)).

(** ** CPacketMemoryPool *)

Inductive mem_ptr := PoolSlot (i : nat) | HeapObj (p : nat).

#[export] Instance mem_ptr_eq_dec : EqDecision mem_ptr.
Proof. solve_decision. Defined.

#[export, refine] Instance mem_ptr_countable : Countable mem_ptr :=
  inj_countable' (fun p => match p with PoolSlot i => inl i | HeapObj i => inr i end)
    (fun s => match s with inl i => PoolSlot i | inr i => HeapObj i end) _.
Proof. by intros []. Defined.

(** The singleton, with the heap objects it has created. *)
Record CPacketMemoryPool := mk_pool {
  p_lock : spinlock;
  m_PacketMemoryPool : list ST_PacketMemory;
  m_PacketIndexFreeQueue : list Z;
  p_heap : gmap nat ST_PacketMemory;
  p_next : nat
}.

Definition pool_new : CPacketMemoryPool :=
  mk_pool spinlock_init
    ((fun i => SetIndex memory_construct (Z.of_nat i)) <$> seq 0 (Z.to_nat MAX_PACKET_MEMORY_POOL_SIZE))
    (Z.of_nat <$> seq 0 (Z.to_nat MAX_PACKET_MEMORY_POOL_SIZE)) ∅ 0.

(** Access through a pointer. *)
Definition mem_load (P : CPacketMemoryPool) (p : mem_ptr) : res ST_PacketMemory :=
  match p with
  | PoolSlot i =>
      match m_PacketMemoryPool P !! i with Some m => Ok m | None => Fault OutOfBounds end
  | HeapObj i => match p_heap P !! i with Some m => Ok m | None => Fault UseAfterFree end
  end.

Definition mem_store (P : CPacketMemoryPool) (p : mem_ptr) (m : ST_PacketMemory) : CPacketMemoryPool :=
  match p with
  | PoolSlot i =>
      mk_pool (p_lock P) (<[i := m]> (m_PacketMemoryPool P)) (m_PacketIndexFreeQueue P) (p_heap P)
        (p_next P)
  | HeapObj i =>
      mk_pool (p_lock P) (m_PacketMemoryPool P) (m_PacketIndexFreeQueue P) (<[i := m]> (p_heap P))
        (p_next P)
  end.

Definition set_p_lock (P : CPacketMemoryPool) (l : spinlock) : CPacketMemoryPool :=
  mk_pool l (m_PacketMemoryPool P) (m_PacketIndexFreeQueue P) (p_heap P) (p_next P).
Definition set_free (P : CPacketMemoryPool) (q : list Z) : CPacketMemoryPool :=
  mk_pool (p_lock P) (m_PacketMemoryPool P) q (p_heap P) (p_next P).

(** new ST_PacketMemory () *)
Definition heap_new (P : CPacketMemoryPool) : mem_ptr * CPacketMemoryPool :=
  (HeapObj (p_next P),
   mk_pool (p_lock P) (m_PacketMemoryPool P) (m_PacketIndexFreeQueue P)
     (<[p_next P := memory_construct]> (p_heap P)) (S (p_next P))).

(** delete; the destructor releases once more. *)
Definition heap_delete (P : CPacketMemoryPool) (p : mem_ptr) : res CPacketMemoryPool :=
  match p with
  | PoolSlot _ => Fault Undefined
  | HeapObj i =>
      Ok (mk_pool (p_lock P) (m_PacketMemoryPool P) (m_PacketIndexFreeQueue P) (delete i (p_heap P))
            (p_next P))
  end.

Definition GetFreePacketMemory (P : CPacketMemoryPool) : res (mem_ptr * CPacketMemoryPool) :=
  l ← spinlock_lock (p_lock P);
  let P := set_p_lock P l in
  '(pstMemory, P) ←
    match m_PacketIndexFreeQueue P with
    | [] =>
        let '(p, P) := heap_new P in
        m ← mem_load P p;
        Ok (p, mem_store P p (SetIndex m (-1)))
    | iIndex :: q =>
        let P := set_free P q in
        let p := PoolSlot (Z.to_nat iIndex) in
        m ← mem_load P p;
        Ok (p, mem_store P p (SetIndex m (i32 iIndex)))
    end;
  Ok (pstMemory, set_p_lock P (spinlock_unlock (p_lock P))).

Definition ReleasePacketMemory (P : CPacketMemoryPool) (pstMemory : option mem_ptr)
    : res CPacketMemoryPool :=
  match pstMemory with
  | None => Fault AssertFail
  | Some p =>
      m ← mem_load P p;
      let iIndex := m_iIndex m in
      let P := mem_store P p (memory_release m) in
      if iIndex <=? -1 then heap_delete P p
      else
        l ← spinlock_lock (p_lock P);
        let P := set_p_lock P l in
        let P := set_free P (m_PacketIndexFreeQueue P ++ [u64 iIndex]) in
        Ok (set_p_lock P (spinlock_unlock (p_lock P)))
  end.

(** ** NetPacketBuffer *)

Record NetPacketBuffer := mk_packet {
  m_ulClientSeq : Z;
  m_iSockFd : Z;
  m_iProtoNo : Z;
  m_iBufferSize : Z;
  m_dwCreateTime : Z;
  m_pstMemory : option mem_ptr
}.

(** The constructor with memory; [now] is what GetMilliSecond returns. *)
Definition NetPacketBuffer_new (P : CPacketMemoryPool) (now ulClientSeq iSockFd iProtoNo iBufferSize : Z)
    (pstMemory : option mem_ptr) (pchBuffer : list Z) : res (NetPacketBuffer * CPacketMemoryPool) :=
  match pstMemory with
  | None => Fault AssertFail
  | Some p =>
      m ← mem_load P p;
      m ← memory_Init m iBufferSize pchBuffer;
      Ok (mk_packet ulClientSeq iSockFd iProtoNo iBufferSize now (Some p), mem_store P p m)
  end.

(** The constructor without memory. *)
Definition NetPacketBuffer_bare (now ulClientSeq iSockFd iProtoNo iBufferSize : Z) : NetPacketBuffer :=
  mk_packet ulClientSeq iSockFd iProtoNo iBufferSize now None.

Definition GetPacketSize (b : NetPacketBuffer) : Z := i32 (m_iBufferSize b + NETWORK_PACKET_HEADER_SIZE).

Definition GetBuffer (P : CPacketMemoryPool) (b : NetPacketBuffer) : res (list Z) :=
  match m_pstMemory b with
  | None => Fault AssertFail
  | Some p => m ← mem_load P p; Ok (memory_GetBuffer m)
  end.

Definition RequireMemory (P : CPacketMemoryPool) (b : NetPacketBuffer) (iBufferSize : Z)
    (pchBuffer : list Z) : res (NetPacketBuffer * CPacketMemoryPool) :=
  P ← match m_pstMemory b with
      | Some p => ReleasePacketMemory P (Some p)
      | None => Ok P
      end;
  '(p, P) ← GetFreePacketMemory P;
  m ← mem_load P p;
  m ← memory_Init m iBufferSize pchBuffer;
  Ok (mk_packet (m_ulClientSeq b) (m_iSockFd b) (m_iProtoNo b) (m_iBufferSize b) (m_dwCreateTime b)
        (Some p), mem_store P p m).

Definition ReleaseMemory (P : CPacketMemoryPool) (b : NetPacketBuffer) : res CPacketMemoryPool :=
  _ ← c_assert (match m_pstMemory b with Some _ => true | None => false end);
  ReleasePacketMemory P (m_pstMemory b).

Definition PrepareHeader (b : NetPacketBuffer) : res (list Z) :=
  let pchBuffer := replicate (Z.to_nat NETWORK_PACKET_HEADER_SIZE) 0 in
  '(_, pchBuffer, ptr) ← PackInt int16_t pchBuffer 0
    (cast int16_t (m_iBufferSize b + NETWORK_PACKET_HEADER_SIZE + NETWORK_PACKET_TAIL_SIZE));
  '(_, pchBuffer, _) ← PackInt int16_t pchBuffer ptr (cast int16_t (m_iProtoNo b));
  Ok pchBuffer.

Definition PrepareTail (now : Z) : res (list Z) :=
  '(_, pchBuffer, _) ← PackInt size_t (replicate (Z.to_nat NETWORK_PACKET_TAIL_SIZE) 0) 0 now;
  Ok pchBuffer.

(** ** NetPacketQueue *)

Record NetPacketQueue := mk_net_queue {
  m_iPacketNum : Z;
  m_vecPacketPool : list NetPacketBuffer
}.

Definition queue_Init : NetPacketQueue := mk_net_queue 0 [].

(** [CopyFrom (this, other)] returns the count and both queues. *)
Definition CopyFrom (q r : NetPacketQueue) : Z * NetPacketQueue * NetPacketQueue :=
  if 0 <? m_iPacketNum q then
    let v := m_vecPacketPool q ++ m_vecPacketPool r in
    let n := i32 (Z.of_nat (length v)) in
    (n, mk_net_queue n v, queue_Init)
  else
    let v := m_vecPacketPool r in
    let n := i32 (Z.of_nat (length v)) in
    (n, mk_net_queue n v, queue_Init).

Definition AddPacket (P : CPacketMemoryPool) (q : NetPacketQueue) (now ulClientSeq iSockFd iProtoNo
    iBufferSize : Z) (pchBuffer : list Z) : res (Z * NetPacketQueue * CPacketMemoryPool) :=
  '(pstMemory, P) ← GetFreePacketMemory P;
  '(b, P) ← NetPacketBuffer_new P now ulClientSeq iSockFd iProtoNo iBufferSize (Some pstMemory) pchBuffer;
  let n := i32 (m_iPacketNum q + 1) in
  Ok (n, mk_net_queue n (m_vecPacketPool q ++ [b]), P).

Fixpoint release_packets (P : CPacketMemoryPool) (v : list NetPacketBuffer) : res CPacketMemoryPool :=
  match v with
  | [] => Ok P
  | b :: v => P ← ReleaseMemory P b; release_packets P v
  end.

(** The count is not reset. *)
Definition ReleaseAllPackets (P : CPacketMemoryPool) (q : NetPacketQueue)
    : res (NetPacketQueue * CPacketMemoryPool) :=
  P ← release_packets P (m_vecPacketPool q);
  Ok (mk_net_queue (m_iPacketNum q) [], P).

(** ** Ownership

    [O] is the set of memories handed out and not yet released. *)

Definition index_of (p : mem_ptr) : Z :=
  match p with PoolSlot i => Z.of_nat i | HeapObj _ => -1 end.

Record pool_inv (P : CPacketMemoryPool) (O : gset mem_ptr) : Prop := {
  pi_lock : unlocked (p_lock P);
  pi_len : length (m_PacketMemoryPool P) = 4096%nat;
  pi_nodup : NoDup (m_PacketIndexFreeQueue P);
  pi_free : ∀ z, z ∈ m_PacketIndexFreeQueue P ↔ 0 <= z < 4096 ∧ PoolSlot (Z.to_nat z) ∉ O;
  pi_slots : ∀ i, PoolSlot i ∈ O → (i < 4096)%nat;
  pi_heap : ∀ i, HeapObj i ∈ O ↔ is_Some (p_heap P !! i);
  pi_next : ∀ i, is_Some (p_heap P !! i) → (i < p_next P)%nat;
  pi_index : ∀ p m, p ∈ O → mem_load P p = Ok m → m_iIndex m = index_of p;
  pi_clean : ∀ p m, p ∉ O → mem_load P p = Ok m → m_pchBytesExtraSpace m = None;
  pi_array : ∀ p m, mem_load P p = Ok m → length (m_achBytesArray m) = 256%nat
}.

Lemma mem_load_store_eq P O p m : pool_inv P O → p ∈ O → mem_load (mem_store P p m) p = Ok m.
Proof.
  intros HI Hp. destruct p as [i|i]; cbn.
  - rewrite list_lookup_insert_eq; [done|]. rewrite (pi_len P O HI). by apply (pi_slots P O).
  - by rewrite lookup_insert_eq.
Qed.

Lemma mem_load_store_ne P p q m : p ≠ q → mem_load (mem_store P p m) q = mem_load P q.
Proof.
  intros Hne. destruct p as [i|i], q as [j|j]; cbn; try done.
  - rewrite list_lookup_insert_ne by congruence. done.
  - rewrite lookup_insert_ne by congruence. done.
Qed.

Lemma owned_load P O p : pool_inv P O → p ∈ O → ∃ m, mem_load P p = Ok m.
Proof.
  intros HI Hp. destruct p as [i|i]; cbn.
  - pose proof (pi_slots P O HI i Hp). destruct (m_PacketMemoryPool P !! i) eqn:E; [by eexists|].
    apply lookup_ge_None in E. rewrite (pi_len P O HI) in E. lia.
  - apply (pi_heap P O HI) in Hp as [m ->]. by eexists.
Qed.

(** Writing an owned memory, keeping its index and the size of its array. *)
Lemma pool_inv_store P O p m :
  pool_inv P O → p ∈ O → m_iIndex m = index_of p → length (m_achBytesArray m) = 256%nat →
  pool_inv (mem_store P p m) O.
Proof.
  intros HI Hp Hidx Harr.
  assert (∀ q m', mem_load (mem_store P p m) q = Ok m' → q = p ∧ m' = m ∨ q ≠ p ∧ mem_load P q = Ok m')
    as Hload.
  { intros q m' Hq. destruct (decide (q = p)) as [->|Hne].
    - rewrite (mem_load_store_eq P O) in Hq by done. left. by simplify_eq.
    - right. by rewrite mem_load_store_ne in Hq. }
  pose proof HI as []. destruct p as [i|i]; constructor; try done.
  all: try (intros q m' Hq [[-> ->]|[_ Hm]]%Hload; [done|by eauto]).
  all: try (intros q m' [[-> ->]|[_ Hm]]%Hload; [done|by eauto]).
  - cbn. by rewrite length_insert.
  - intros j. cbn. rewrite lookup_insert_is_Some'. rewrite pi_heap0. split; [by right|].
    intros [<-|?]; [|done]. by apply pi_heap0.
  - intros j. cbn. rewrite lookup_insert_is_Some'. intros [<-|?]; [|by apply pi_next0].
    by apply pi_next0, pi_heap0.
Qed.

Lemma pool_inv_lock P O l : pool_inv P O → unlocked l → pool_inv (set_p_lock P l) O.
Proof. intros [] ?. by constructor. Qed.

(** Taking a slot from the free queue. *)
Lemma get_slot P O z q :
  pool_inv P O → m_PacketIndexFreeQueue P = z :: q →
  let p := PoolSlot (Z.to_nat z) in
  (p ∉ O) ∧ 0 <= z < 4096 ∧ ∃ m, mem_load P p = Ok m ∧
  pool_inv (mem_store (set_free P q) p (SetIndex m z)) ({[p]} ∪ O).
Proof.
  intros HI Eq p. pose proof HI as [].
  assert (0 <= z < 4096 ∧ p ∉ O) as [Hz Hp] by (apply pi_free0; rewrite Eq; left).
  split; [done|]. split; [done|].
  assert (∃ m, m_PacketMemoryPool P !! Z.to_nat z = Some m) as [m Hm].
  { apply lookup_lt_is_Some_2. lia. }
  exists m. split; [cbn; by rewrite Hm|].
  assert (∀ q' m', mem_load (mem_store (set_free P q) p (SetIndex m z)) q' = Ok m' →
    q' = p ∧ m' = SetIndex m z ∨ q' ≠ p ∧ mem_load P q' = Ok m') as Hload.
  { intros q' m' Hq. destruct (decide (q' = p)) as [->|Hne].
    - left. split; [done|]. cbn in Hq. rewrite list_lookup_insert_eq in Hq by lia. congruence.
    - right. rewrite mem_load_store_ne in Hq by done. by split. }
  rewrite Eq in pi_nodup0, pi_free0. apply list.NoDup_cons in pi_nodup0 as [Hnin Hnd].
  constructor; try done.
  - cbn. by rewrite length_insert.
  - intros y. cbn [m_PacketIndexFreeQueue mem_store set_free p]. specialize (pi_free0 y).
    rewrite elem_of_cons in pi_free0. rewrite not_elem_of_union, not_elem_of_singleton. split.
    + intros Hy. destruct pi_free0 as [Hf _]. destruct Hf as [Hr HO]; [by right|]. split_and!; try done; try lia.
      unfold p. intros [= E]. assert (y = z) as -> by lia. done.
    + intros (Hr & Hne & HO). destruct pi_free0 as [_ [->|?]]; [done|by destruct Hne|done].
  - intros i. rewrite elem_of_union, elem_of_singleton. unfold p. intros [[= ->]|?]; [lia|by apply pi_slots0].
  - intros i. rewrite elem_of_union, elem_of_singleton. cbn. rewrite <- pi_heap0. unfold p.
    split; [by intros [?|?]|by right].
  - intros q' m' Hq [[-> ->]|[Hne Hm']]%Hload; [cbn; lia|].
    apply (pi_index0 q'); [|done]. apply elem_of_union in Hq as [?%elem_of_singleton|?]; done.
  - intros q' m' Hq [[-> ->]|[Hne Hm']]%Hload.
    + destruct Hq. apply elem_of_union_l, elem_of_singleton. done.
    + apply (pi_clean0 q'); [|done]. intros ?. apply Hq. by apply elem_of_union_r.
  - intros q' m' [[-> ->]|[Hne Hm']]%Hload; [|by eauto]. cbn.
    apply (pi_array0 p). cbn. by rewrite Hm.
Qed.

(** Creating a heap object. *)
Lemma get_heap P O :
  pool_inv P O →
  let p := HeapObj (p_next P) in
  (p ∉ O) ∧ pool_inv (mem_store (heap_new P).2 p (SetIndex memory_construct (-1))) ({[p]} ∪ O).
Proof.
  intros HI p. pose proof HI as [].
  assert (p ∉ O) as Hp. { intros Hin%pi_heap0. apply pi_next0 in Hin. lia. }
  split; [done|].
  assert (∀ q' m', mem_load (mem_store (heap_new P).2 p (SetIndex memory_construct (-1))) q' = Ok m' →
    q' = p ∧ m' = SetIndex memory_construct (-1) ∨ q' ≠ p ∧ mem_load P q' = Ok m') as Hload.
  { intros q' m' Hq. destruct (decide (q' = p)) as [->|Hne].
    - left. split; [done|]. cbn in Hq. rewrite lookup_insert_eq in Hq. congruence.
    - right. split; [done|]. destruct q' as [j|j]; [done|]. cbn in Hq.
      by rewrite !lookup_insert_ne in Hq by (unfold p in *; congruence). }
  constructor; try done.
  - intros z. cbn. rewrite pi_free0, not_elem_of_union, not_elem_of_singleton. unfold p. intuition congruence.
  - intros i. rewrite elem_of_union, elem_of_singleton. unfold p. intros [?|?]; [done|by apply pi_slots0].
  - intros i. cbn. rewrite !lookup_insert_is_Some', elem_of_union, elem_of_singleton, <- pi_heap0.
    unfold p. intuition congruence.
  - intros i. cbn. rewrite !lookup_insert_is_Some'. intros [?|[?|?%pi_next0]]; lia.
  - intros q' m' Hq [[-> ->]|[Hne Hm']]%Hload; [done|].
    apply (pi_index0 q'); [|done]. apply elem_of_union in Hq as [?%elem_of_singleton|?]; done.
  - intros q' m' Hq [[-> ->]|[Hne Hm']]%Hload; [done|].
    apply (pi_clean0 q'); [|done]. intros ?. apply Hq. by apply elem_of_union_r.
  - intros q' m' [[-> ->]|[Hne Hm']]%Hload; [done|by eauto].
Qed.

Lemma GetFree_spec P O :
  pool_inv P O → ∃ p P' m, GetFreePacketMemory P = Ok (p, P') ∧ (p ∉ O) ∧
    pool_inv P' ({[p]} ∪ O) ∧ mem_load P' p = Ok m ∧ m_pchBytesExtraSpace m = None ∧
    (∀ q, q ∈ O → mem_load P' q = mem_load P q) ∧
    ((∃ i, p = HeapObj i) ↔ m_PacketIndexFreeQueue P = []).
Proof.
  intros HI. unfold GetFreePacketMemory. rewrite (spinlock_lock_free _ (pi_lock P O HI)), bind_Ok.
  cbn [m_PacketIndexFreeQueue set_p_lock]. destruct (m_PacketIndexFreeQueue P) as [|z q] eqn:Eq.
  - destruct (get_heap P O HI) as [Hp HI']. set (p := HeapObj (p_next P)) in *.
    cbn. rewrite lookup_insert_eq, bind_Ok. eexists p, _, _. split; [done|]. split; [done|].
    split; [exact (pool_inv_lock _ _ spinlock_init HI' eq_refl)|].
    split; [cbn; by rewrite lookup_insert_eq|]. split; [done|].
    split; [|split; [done|by eexists]].
    intros q' Hq. assert (q' ≠ p) by (intros ->; done). destruct q' as [j|j]; [done|]. cbn.
    by rewrite !lookup_insert_ne by (unfold p in *; congruence).
  - destruct (get_slot P O z q HI Eq) as (Hp & Hz & m & Hm & HI'). set (p := PoolSlot (Z.to_nat z)) in *.
    change (mem_load (set_free _ q) p) with (mem_load P p). rewrite Hm, !bind_Ok.
    rewrite swrap_small by (simpl; lia).
    eexists p, _, (SetIndex m z). split; [done|]. split; [done|].
    split; [exact (pool_inv_lock _ _ spinlock_init HI' eq_refl)|].
    split. { cbn. rewrite list_lookup_insert_eq; [done|]. rewrite (pi_len P O HI). lia. }
    split; [exact (pi_clean P O HI p m Hp Hm)|]. split; [|unfold p; by split; [intros [? [=]]|]].
    intros q' Hq. assert (p ≠ q') by (intros <-; done).
    exact (mem_load_store_ne (set_free P q) p q' (SetIndex m z) H).
Qed.

(** Returning a slot, and deleting a heap object. *)
Lemma pool_inv_return P O i :
  pool_inv P O → PoolSlot i ∈ O →
  pool_inv (mk_pool spinlock_init (<[i := memory_construct]> (m_PacketMemoryPool P))
    (m_PacketIndexFreeQueue P ++ [Z.of_nat i]) (p_heap P) (p_next P)) (O ∖ {[PoolSlot i]}).
Proof.
  intros HI Hp. pose proof HI as [].
  assert (∀ q m, mem_load (mk_pool spinlock_init (<[i := memory_construct]> (m_PacketMemoryPool P))
    (m_PacketIndexFreeQueue P ++ [Z.of_nat i]) (p_heap P) (p_next P)) q = Ok m →
    q = PoolSlot i ∧ m = memory_construct ∨ q ≠ PoolSlot i ∧ mem_load P q = Ok m) as Hload.
  { intros q m Hq. pose proof (mem_load_store_ne P (PoolSlot i) q memory_construct) as Hne.
    pose proof (mem_load_store_eq P O (PoolSlot i) memory_construct HI Hp) as Heq.
    destruct (decide (q = PoolSlot i)) as [->|Hn]; [left|right].
    - split; [done|]. cbn in *. congruence.
    - split; [done|]. rewrite <- Hne by congruence. exact Hq. }
  constructor; cbn [p_lock m_PacketMemoryPool m_PacketIndexFreeQueue p_heap p_next]; try done.
  - by rewrite length_insert.
  - apply list.NoDup_app. split_and!; [done| |apply NoDup_singleton].
    intros z Hz ->%list_elem_of_singleton. apply pi_free0 in Hz as [_ Hz]. by rewrite Nat2Z.id in Hz.
  - intros z. rewrite elem_of_app, list_elem_of_singleton, pi_free0, not_elem_of_difference,
      elem_of_singleton. pose proof (pi_slots0 i Hp). split.
    + intros [[? ?]| ->]; [tauto|]. rewrite Nat2Z.id. split; [lia|by right].
    + intros [? [?|[= <-]]]; [by left|right; lia].
  - intros j [Hj _]%elem_of_difference. by apply pi_slots0.
  - intros j. rewrite <- pi_heap0, elem_of_difference, elem_of_singleton. intuition congruence.
  - intros q m [Hq Hne]%elem_of_difference [[-> ->]|[_ Hm]]%Hload; [|by eauto].
    by rewrite elem_of_singleton in Hne.
  - intros q m Hq [[-> ->]|[Hne Hm]]%Hload; [done|]. apply (pi_clean0 q); [|done].
    intros HO. apply Hq. apply elem_of_difference. by rewrite elem_of_singleton.
  - intros q m [[-> ->]|[Hne Hm]]%Hload; [done|by eauto].
Qed.

Lemma pool_inv_delete P O i :
  pool_inv P O → HeapObj i ∈ O →
  pool_inv (mk_pool (p_lock P) (m_PacketMemoryPool P) (m_PacketIndexFreeQueue P)
    (delete i (<[i := memory_construct]> (p_heap P))) (p_next P)) (O ∖ {[HeapObj i]}).
Proof.
  intros HI Hp. rewrite delete_insert_eq. pose proof HI as [].
  set (P' := mk_pool _ _ _ _ _).
  assert (∀ q m, mem_load P' q = Ok m → q ≠ HeapObj i ∧ mem_load P q = Ok m) as Hload.
  { intros [j|j] m Hq; [done|]. cbn in Hq. destruct (decide (j = i)) as [->|Hne].
    - by rewrite lookup_delete_eq in Hq.
    - rewrite lookup_delete_ne in Hq by done. split; [congruence|done]. }
  constructor; try done; unfold P'; cbn [p_lock m_PacketMemoryPool m_PacketIndexFreeQueue p_heap p_next].
  - intros z. rewrite pi_free0, not_elem_of_difference, elem_of_singleton. intuition congruence.
  - intros j [Hj _]%elem_of_difference. by apply pi_slots0.
  - intros j. rewrite lookup_delete_is_Some, <- pi_heap0, elem_of_difference, elem_of_singleton.
    intuition congruence.
  - intros j [_ ?]%lookup_delete_is_Some. by apply pi_next0.
  - intros q m [Hq Hne]%elem_of_difference [_ Hm]%Hload. by eauto.
  - intros q m Hq [Hne Hm]%Hload. apply (pi_clean0 q); [|done].
    intros HO. apply Hq. apply elem_of_difference. by rewrite elem_of_singleton.
  - intros q m [Hne Hm]%Hload. by eauto.
Qed.

(** Returning memory. *)
Lemma Release_spec P O p :
  pool_inv P O → p ∈ O →
  ∃ P', ReleasePacketMemory P (Some p) = Ok P' ∧ pool_inv P' (O ∖ {[p]}) ∧
    ∀ q, q ∈ O ∖ {[p]} → mem_load P' q = mem_load P q.
Proof.
  intros HI Hp. destruct (owned_load P O p HI Hp) as [m Hm]. unfold ReleasePacketMemory.
  rewrite Hm, bind_Ok. rewrite (pi_index P O HI p m Hp Hm). pose proof HI as [].
  destruct p as [i|i].
  - pose proof (pi_slots0 i Hp) as Hi. cbn [index_of]. destruct (Z.leb_spec (Z.of_nat i) (-1)); [lia|].
    change (p_lock (mem_store P _ _)) with (p_lock P). rewrite (spinlock_lock_free _ pi_lock0), bind_Ok.
    rewrite wrap_small by lia. eexists. split; [done|]. split.
    + apply (pool_inv_return P O i HI Hp).
    + intros q [Hq Hne]%elem_of_difference. rewrite not_elem_of_singleton in Hne.
      apply (mem_load_store_ne P (PoolSlot i) q). congruence.
  - cbn [index_of]. destruct (Z.leb_spec (-1) (-1)); [|lia]. cbn. eexists. split; [done|]. split.
    + apply (pool_inv_delete P O i HI Hp).
    + intros q [Hq Hne]%elem_of_difference. rewrite not_elem_of_singleton in Hne.
      destruct q as [j|j]; [done|]. cbn. by rewrite lookup_delete_ne, lookup_insert_ne by congruence.
Qed.

Lemma pool_inv_new : pool_inv pool_new ∅.
Proof.
  assert (∀ p m, mem_load pool_new p = Ok m → ∃ i, m = SetIndex memory_construct (Z.of_nat i)) as Hload.
  { intros [i|i] m; [|done]. cbn [mem_load pool_new m_PacketMemoryPool]. rewrite list_lookup_fmap.
    destruct (seq 0 _ !! i) as [j|]; [|done]. intros [= <-]. by eexists. }
  constructor; try done.
  - apply NoDup_fmap_2; [apply _|apply NoDup_seq].
  - intros z. cbn [pool_new m_PacketIndexFreeQueue]. rewrite list_elem_of_fmap. split.
    + intros (i & -> & Hi%elem_of_seq). change (Z.to_nat MAX_PACKET_MEMORY_POOL_SIZE) with 4096%nat in Hi.
      split; [lia|apply not_elem_of_empty].
    + intros [Hz _]. exists (Z.to_nat z). split; [lia|]. apply elem_of_seq.
      change (Z.to_nat MAX_PACKET_MEMORY_POOL_SIZE) with 4096%nat. lia.
  - intros i. split; [by intros ?%not_elem_of_empty|]. by intros [? ?].
  - by intros i [? ?].
  - by intros p m _ [i ->]%Hload.
  - by intros p m [i ->]%Hload.
Qed.

(** ** Runs of the pool *)

(** A client takes memory, or returns the [k]-th piece it holds. *)
Inductive pool_op := PGet | PPut (k : nat).

Definition pool_step (op : pool_op) (s : CPacketMemoryPool * list mem_ptr)
    : res (CPacketMemoryPool * list mem_ptr) :=
  let '(P, held) := s in
  match op with
  | PGet => '(p, P) ← GetFreePacketMemory P; Ok (P, p :: held)
  | PPut k =>
      match held !! k with
      | None => Ok (P, held)
      | Some p => P ← ReleasePacketMemory P (Some p); Ok (P, delete k held)
      end
  end.

Fixpoint pool_run (ops : list pool_op) (s : CPacketMemoryPool * list mem_ptr)
    : res (CPacketMemoryPool * list mem_ptr) :=
  match ops with
  | [] => Ok s
  | op :: ops => s ← pool_step op s; pool_run ops s
  end.

Definition held_inv (s : CPacketMemoryPool * list mem_ptr) : Prop :=
  NoDup s.2 ∧ pool_inv s.1 (list_to_set s.2).

Lemma delete_as_difference (l : list mem_ptr) k p :
  NoDup l → l !! k = Some p → (list_to_set (delete k l) : gset mem_ptr) = list_to_set l ∖ {[p]}.
Proof.
  intros Hnd Hk. apply set_eq. intros x.
  rewrite elem_of_difference, !elem_of_list_to_set, elem_of_singleton.
  assert (x ∈ l ↔ x ∈ take k l ∨ x = p ∨ x ∈ drop (S k) l) as ->
    by (rewrite <- (take_drop_middle l k p Hk) at 1; by rewrite elem_of_app, elem_of_cons).
  rewrite (delete_take_drop l k), elem_of_app.
  rewrite <- (take_drop_middle l k p Hk) in Hnd. apply list.NoDup_app in Hnd as (_ & Hd & Hc).
  apply list.NoDup_cons in Hc as [Hp _]. split.
  - intros [Hx|Hx]; (split; [tauto|]); intros ->; [|done]. apply (Hd p Hx). left.
  - tauto.
Qed.

Lemma pool_step_inv op s : held_inv s → ∃ s', pool_step op s = Ok s' ∧ held_inv s'.
Proof.
  destruct s as [P held]. intros [Hnd HI]. cbn in Hnd, HI. destruct op as [|k]; cbn [pool_step].
  - destruct (GetFree_spec P _ HI) as (p & P' & m & -> & Hp & HI' & _).
    eexists. split; [done|]. split; [|done]. cbn. apply NoDup_cons_2; [|done].
    by rewrite elem_of_list_to_set in Hp.
  - destruct (held !! k) as [p|] eqn:Ek; [|by eexists].
    destruct (Release_spec P _ p HI) as (P' & -> & HI' & _).
    { by apply elem_of_list_to_set, list_elem_of_lookup_2 with k. }
    eexists. split; [done|]. split; cbn.
    + eapply sublist_NoDup; [exact Hnd|apply sublist_delete].
    + by rewrite (delete_as_difference held k p).
Qed.

(** The packet memory pool never hands out memory that is in use.  In any
    sequence of GetFreePacketMemory and ReleasePacketMemory calls, beyond the
    4096 slots too, no call fails, all pointers held at a time are distinct, the
    free queue lists exactly the slots not held, each once, every heap object is
    held, and free memory has no extra array left. *)
Theorem pool_run_no_alias ops s :
  held_inv s → ∃ s', pool_run ops s = Ok s' ∧ held_inv s'.
Proof.
  revert s. induction ops as [|op ops IH]; intros s HI; [by eexists|].
  destruct (pool_step_inv op s HI) as (s1 & E & HI1). destruct (IH s1 HI1) as (s2 & E2 & HI2).
  exists s2. cbn [pool_run]. by rewrite E.
Qed.

Lemma pool_run_no_alias_witness :
  ∃ s', pool_run (replicate 5000 PGet ++ [PPut 4990; PPut 0; PGet; PGet]) (pool_new, []) = Ok s' ∧
    held_inv s'.
Proof. apply (pool_run_no_alias _ (pool_new, [])). split; [apply NoDup_nil_2|apply pool_inv_new]. Defined.

(** ** Packets and their bytes *)

Record packet := mk_pkt { pk_seq : Z; pk_fd : Z; pk_proto : Z; pk_body : list Z }.

(** The packet a buffer object stands for. *)
Definition packet_of (P : CPacketMemoryPool) (b : NetPacketBuffer) : res packet :=
  buf ← GetBuffer P b;
  body ← mem_read buf 0 (m_iBufferSize b);
  Ok (mk_pkt (m_ulClientSeq b) (m_iSockFd b) (m_iProtoNo b) body).

Definition queue_holds (P : CPacketMemoryPool) (v : list NetPacketBuffer) (pks : list packet) : Prop :=
  Forall2 (fun b pk => packet_of P b = Ok pk) v pks.

Definition ptrs (v : list NetPacketBuffer) : list mem_ptr := omap m_pstMemory v.

(** All packets have memory. *)
Definition backed (v : list NetPacketBuffer) : Prop := Forall (fun b => is_Some (m_pstMemory b)) v.

Lemma mem_read_inv {A} (d : list A) off n x :
  mem_read d off n = Ok x →
  0 <= off ∧ 0 <= n ∧ off + n <= Z.of_nat (length d) ∧ x = take (Z.to_nat n) (drop (Z.to_nat off) d).
Proof.
  unfold mem_read. destruct (Z.leb_spec 0 off), (Z.leb_spec 0 n),
    (Z.leb_spec (off + n) (Z.of_nat (length d))); cbn; intros E; try done. injection E as <-. done.
Qed.

Lemma memory_Init_spec m n src body :
  m_pchBytesExtraSpace m = None → length (m_achBytesArray m) = 256%nat →
  n <= 10240 → mem_read src 0 n = Ok body →
  ∃ m', memory_Init m n src = Ok m' ∧ m_iIndex m' = m_iIndex m ∧
    length (m_achBytesArray m') = 256%nat ∧ mem_read (memory_GetBuffer m') 0 n = Ok body.
Proof.
  intros Hx Ha Hn Hr. destruct (mem_read_inv _ _ _ _ Hr) as (_ & H0 & Hl & Hb).
  assert (Z.of_nat (length body) = n) as Hlen by (subst body; change (Z.to_nat 0) with 0%nat; len).
  unfold memory_Init. rewrite Ha, wrap_small by lia.
  destruct (Z.leb_spec (Z.of_nat 256) n).
  - rewrite (proj2 (Z.leb_le n NETWORK_PACKET_BUFFER_MAX_SIZE)) by (unfold NETWORK_PACKET_BUFFER_MAX_SIZE; lia).
    cbn [c_assert]. rewrite bind_Ok. destruct (Z.ltb_spec n 0); [lia|]. rewrite Hr, bind_Ok.
    eexists. split_and!; try done. unfold memory_GetBuffer. cbn [m_pchBytesExtraSpace].
    rewrite mem_read_Ok by lia. f_equal. change (Z.to_nat 0) with 0%nat. by rewrite drop_0, take_ge by lia.
  - rewrite Hr, bind_Ok, mem_write_Ok, bind_Ok by lia. eexists. split_and!; try done; cbn.
    + rewrite length_splice; lia.
    + unfold memory_GetBuffer. cbn. rewrite Hx. rewrite mem_read_Ok; [|lia|lia|].
      * f_equal. change (Z.to_nat 0) with 0%nat. rewrite drop_0. unfold splice. cbn.
        rewrite take_0, app_nil_l. by rewrite take_app_length' by lia.
      * rewrite length_splice; lia.
Qed.

Lemma packet_of_frame P P' b p pk :
  m_pstMemory b = Some p → mem_load P' p = mem_load P p → packet_of P b = Ok pk → packet_of P' b = Ok pk.
Proof. intros Hb Hl. unfold packet_of, GetBuffer. by rewrite Hb, Hl. Qed.

Lemma queue_holds_frame P P' v pks (O : gset mem_ptr) :
  (∀ q, q ∈ O → mem_load P' q = mem_load P q) → (∀ q, q ∈ ptrs v → q ∈ O) → backed v →
  queue_holds P v pks → queue_holds P' v pks.
Proof.
  intros Hf Hsub Hb Hq. induction Hq as [|b pk v pks Hpk Hq IH]; [constructor|].
  apply Forall_cons_1 in Hb as [[p Hp] Hb]. unfold ptrs in Hsub. cbn in Hsub. rewrite Hp in Hsub.
  constructor.
  - apply (packet_of_frame P P' b p); [done| |done]. apply Hf, Hsub. left.
  - apply IH; [|done]. intros q Hq'. apply Hsub. by right.
Qed.

Lemma AddPacket_spec P O q now seq fd proto n src body :
  pool_inv P O → n <= 10240 → mem_read src 0 n = Ok body →
  ∃ p P' b, AddPacket P q now seq fd proto n src =
      Ok (i32 (m_iPacketNum q + 1), mk_net_queue (i32 (m_iPacketNum q + 1)) (m_vecPacketPool q ++ [b]), P') ∧
    m_pstMemory b = Some p ∧ (p ∉ O) ∧ pool_inv P' ({[p]} ∪ O) ∧
    (∀ q, q ∈ O → mem_load P' q = mem_load P q) ∧
    packet_of P' b = Ok (mk_pkt seq fd proto body).
Proof.
  intros HI Hn Hr. unfold AddPacket.
  destruct (GetFree_spec P O HI) as (p & P1 & m & -> & Hp & HI1 & Hm & Hx & Hf & _).
  rewrite bind_Ok. unfold NetPacketBuffer_new. rewrite Hm, bind_Ok.
  destruct (memory_Init_spec m n src body) as (m' & -> & Hidx & Ha & Hg);
    [done|by apply (pi_array P1 _ HI1 p)|done|done|].
  rewrite bind_Ok. assert (p ∈ ({[p]} ∪ O : gset mem_ptr)) as Hin by (apply elem_of_union_l; by apply elem_of_singleton).
  eexists p, _, _. split; [done|]. split; [done|]. split; [done|]. split_and!.
  - apply pool_inv_store; try done. rewrite Hidx. by apply (pi_index P1 _ HI1 p).
  - intros q' Hq'. rewrite mem_load_store_ne by (intros ->; done). by apply Hf.
  - unfold packet_of, GetBuffer. cbn. rewrite (mem_load_store_eq P1 ({[p]} ∪ O)) by done.
    cbn. by rewrite Hg.
Qed.

Lemma release_packets_spec v P O :
  pool_inv P O → backed v → NoDup (ptrs v) → (∀ q, q ∈ ptrs v → q ∈ O) →
  ∃ P', release_packets P v = Ok P' ∧ pool_inv P' (O ∖ list_to_set (ptrs v)) ∧
    ∀ q, q ∈ O ∖ list_to_set (ptrs v) → mem_load P' q = mem_load P q.
Proof.
  revert P O. induction v as [|b v IH]; intros P O HI Hb Hnd Hsub.
  - exists P. unfold ptrs. cbn. by rewrite difference_empty_L.
  - apply Forall_cons_1 in Hb as [[p Hp] Hb]. unfold ptrs in *. cbn in Hnd, Hsub |- *. rewrite Hp in *.
    apply list.NoDup_cons in Hnd as [Hnin Hnd]. unfold ReleaseMemory. rewrite Hp. cbn [c_assert].
    rewrite bind_Ok. destruct (Release_spec P O p HI) as (P1 & -> & HI1 & Hf1); [apply Hsub; left|].
    rewrite bind_Ok. destruct (IH P1 (O ∖ {[p]}) HI1 Hb Hnd) as (P2 & -> & HI2 & Hf2).
    { intros q Hq. apply elem_of_difference. split; [apply Hsub; by right|].
      rewrite elem_of_singleton. intros ->. done. }
    rewrite difference_difference_l_L in HI2, Hf2. exists P2. split; [done|]. split; [done|].
    intros q Hq. rewrite Hf2 by done. apply Hf1.
    apply elem_of_difference in Hq as [HO Hq]. apply elem_of_difference. split; [done|].
    intros Hp'. apply Hq. by apply elem_of_union_l.
Qed.
