(* ===== verification/Context.v ===== *)
(** * Client buffers and network contexts
      (src/network/context.h, src/network/socket/socket_ctx.h,
       src/network/libevent/libevent_ctx.h, the message handlers of
       src/network/socket/server_logic.cpp, src/common/signal.cpp)

    The receive path cuts the byte stream of a client into packets; the send
    path frames packets and hands them to a client.  The theorems show that
    framing is a round trip whatever the chunks in which bytes arrive. *)

From S2P Require Import Prelude Spinlock Unpack PacketPool.

Definition NETWORK_PACKET_BUFFER_READ_SIZE : Z := 10 * 1024.

(** ** ST_GameSingnal *)

Record ST_GameSingnal := mk_signal { s_lock : spinlock; m_bHasSignal : bool }.

Definition signal_new : ST_GameSingnal := mk_signal spinlock_init false.

Definition Emit (s : ST_GameSingnal) : res ST_GameSingnal :=
  l ← spinlock_lock (s_lock s);
  Ok (mk_signal (spinlock_unlock l) true).

Definition CheckAndSetSignalActived (s : ST_GameSingnal) : res (bool * ST_GameSingnal) :=
  l ← spinlock_lock (s_lock s);
  let bIsEmit := m_bHasSignal s in
  Ok (bIsEmit, mk_signal (spinlock_unlock l) false).

(** ** ST_ClientContextBuffer *)

Record ST_ClientContextBuffer := mk_cbuf {
  cb_ulClientSeq : Z;
  cb_iClientFd : Z;
  cb_chClientIP : list Z;
  cb_iBufferSize : Z;
  m_chBuffer : list Z
}.

Definition BUFFER_BYTES : Z := NETWORK_PACKET_BUFFER_READ_SIZE * 10.

Definition cbuf_construct : ST_ClientContextBuffer :=
  mk_cbuf 0 0 (replicate (Z.to_nat NETWORK_SERVER_IP_ADDRESS_LEN) 0) 0
    (replicate (Z.to_nat BUFFER_BYTES) 0).

(** [pchBufferPtr] is an offset into m_chBuffer. *)
Definition MoveBufferPtr (c : ST_ClientContextBuffer) (pchBufferPtr iLeftSize : Z)
    : res ST_ClientContextBuffer :=
  if iLeftSize <=? 0 then
    Ok (mk_cbuf (cb_ulClientSeq c) (cb_iClientFd c) (cb_chClientIP c) 0
          (replicate (length (m_chBuffer c)) 0))
  else
    src ← mem_read (m_chBuffer c) pchBufferPtr iLeftSize;
    buf ← mem_write (m_chBuffer c) 0 src;
    Ok (mk_cbuf (cb_ulClientSeq c) (cb_iClientFd c) (cb_chClientIP c) iLeftSize buf).

(** ** What a packet looks like on the wire *)

Definition wire_header (size proto : Z) : list Z := be_bytes 2 size ++ be_bytes 2 proto.

(** The frame UnpackPacketToRecvQueue accepts. *)
Definition frame (proto : Z) (body : list Z) : list Z :=
  wire_header (Z.of_nat (length body) + 4) proto ++ body.

(** ** The interface of a client *)

Class ClientContext (C : Type) := {
  GetContextBuffer : C → ST_ClientContextBuffer;
  SetContextBuffer : C → ST_ClientContextBuffer → C;
  GetClientFd : C → Z;
  GetClientSeq : C → Z;
  (** The returned size, the descriptor and the bytes handed to it; [now] is
      what GetMilliSecond returns. *)
  PacketBufferSend : CPacketMemoryPool → Z → C → NetPacketBuffer → res (Z * Z * list Z);
  (** The descriptor a packet goes to. *)
  send_fd : C → packet → Z;
  get_set_buffer : ∀ c b, GetContextBuffer (SetContextBuffer c b) = b;
  set_buffer_seq : ∀ c b, cb_ulClientSeq b = cb_ulClientSeq (GetContextBuffer c) →
    cb_iClientFd b = cb_iClientFd (GetContextBuffer c) →
    GetClientSeq (SetContextBuffer c b) = GetClientSeq c ∧
    GetClientFd (SetContextBuffer c b) = GetClientFd c;
  (** The body and an 8-byte time stamp, framed. *)
  send_frames : ∀ P now c b pk, packet_of P b = Ok pk → in_type int16_t (pk_proto pk) →
    Z.of_nat (length (pk_body pk)) <= 10240 →
    PacketBufferSend P now c b =
      Ok (Z.of_nat (length (pk_body pk)) + 12, send_fd c pk,
          frame (pk_proto pk) (pk_body pk ++ be_bytes 8 now))
}.

(** ** SocketClientCtx *)

Record SocketClientCtx := mk_socket_client {
  sc_ulClientUniqSeq : Z;
  sc_stContextBuffer : ST_ClientContextBuffer
}.

(** [seq] is what SnowFlakeUUID returns; only the descriptor is copied into the
    buffer. *)
Definition SocketClientCtx_new (seq iClientFd : Z) : SocketClientCtx :=
  let b := cbuf_construct in
  mk_socket_client seq
    (mk_cbuf (cb_ulClientSeq b) iClientFd (cb_chClientIP b) (cb_iBufferSize b) (m_chBuffer b)).

Definition SetClientIP (c : SocketClientCtx) (pchIP : list Z) (dwSize : Z) : res SocketClientCtx :=
  let b := sc_stContextBuffer c in
  let ip := replicate (length (cb_chClientIP b)) 0 in
  let dwSize :=
    if NETWORK_SERVER_IP_ADDRESS_LEN <? dwSize then NETWORK_SERVER_IP_ADDRESS_LEN else dwSize in
  src ← mem_read pchIP 0 dwSize;
  ip ← mem_write ip 0 src;
  Ok (mk_socket_client (sc_ulClientUniqSeq c)
        (mk_cbuf (cb_ulClientSeq b) (cb_iClientFd b) ip (cb_iBufferSize b) (m_chBuffer b))).

Definition PacketBufferRead (b : ST_ClientContextBuffer) (pchBuffer : list Z) (iBufferNeedRead : Z)
    : res (Z * ST_ClientContextBuffer) :=
  let iLeftSpace := i32 (Z.of_nat (length (m_chBuffer b)) - cb_iBufferSize b) in
  if iLeftSpace <? iBufferNeedRead then Ok (-1, b)
  else
    src ← mem_read pchBuffer 0 iBufferNeedRead;
    buf ← mem_write (m_chBuffer b) (cb_iBufferSize b) src;
    Ok (iBufferNeedRead,
        mk_cbuf (cb_ulClientSeq b) (cb_iClientFd b) (cb_chClientIP b)
          (i32 (cb_iBufferSize b + iBufferNeedRead)) buf).

(** The block of malloc is overwritten completely, so its first contents do not
    matter. *)
Definition socket_PacketBufferSend (P : CPacketMemoryPool) (now : Z) (b : NetPacketBuffer)
    : res (Z * Z * list Z) :=
  let iClientFd := m_iSockFd b in
  let iSizeTotal := i32 (NETWORK_PACKET_HEADER_SIZE + m_iBufferSize b + NETWORK_PACKET_TAIL_SIZE) in
  let buffer := replicate (Z.to_nat iSizeTotal) 0 in
  chHeaderArray ← PrepareHeader b;
  chTailArray ← PrepareTail now;
  src ← GetBuffer P b;
  src ← mem_read src 0 (m_iBufferSize b);
  buffer ← mem_write buffer 0 chHeaderArray;
  buffer ← mem_write buffer NETWORK_PACKET_HEADER_SIZE src;
  buffer ← mem_write buffer (NETWORK_PACKET_HEADER_SIZE + m_iBufferSize b) chTailArray;
  Ok (iSizeTotal, iClientFd, buffer).

(** ** LibeventClientCtx *)

(** The bufferevent is named by a number; NULL is [None]. *)
Record LibeventClientCtx := mk_libevent_client {
  lc_stContextBuffer : ST_ClientContextBuffer;
  lc_pstBufferEvent : option nat
}.

(** [seq] is what SnowFlakeUUID returns, [ip] the text address:port, which snprintf cuts
    to the array and terminates. *)
Definition LibeventClientCtx_new (seq iClientFd : Z) (pstBufferEvent : nat) (ip : list Z)
    : LibeventClientCtx :=
  let b := cbuf_construct in
  let text := take (Z.to_nat (NETWORK_SERVER_IP_ADDRESS_LEN - 1)) ip in
  mk_libevent_client
    (mk_cbuf seq iClientFd (splice (cb_chClientIP b) 0 text) (cb_iBufferSize b) (m_chBuffer b))
    (Some pstBufferEvent).

(** Three writes to the bufferevent of the client, which queues them.  The assertion that
    the client has one is left out: [LibeventClientCtx_new] sets it, and only the destructor
    clears it. *)
Definition libevent_PacketBufferSend (P : CPacketMemoryPool) (now : Z) (c : LibeventClientCtx)
    (b : NetPacketBuffer) : res (Z * Z * list Z) :=
  chHeaderArray ← PrepareHeader b;
  chTailArray ← PrepareTail now;
  src ← GetBuffer P b;
  src ← mem_read src 0 (m_iBufferSize b);
  Ok (i32 (NETWORK_PACKET_HEADER_SIZE + m_iBufferSize b + NETWORK_PACKET_TAIL_SIZE),
      cb_iClientFd (lc_stContextBuffer c), chHeaderArray ++ src ++ chTailArray).

(** [avail] are the bytes bufferevent_read has for us. *)
Definition libevent_PacketBufferRead (b : ST_ClientContextBuffer) (avail : list Z)
    : res (Z * ST_ClientContextBuffer * list Z) :=
  let iBufferSize := cb_iBufferSize b in
  let iBufferRecv := i32 (Z.of_nat (length (m_chBuffer b)) - iBufferSize) in
  if iBufferRecv <=? 0 then Ok (-1, b, avail)
  else
    let iReadLen := Z.min iBufferRecv (Z.of_nat (length avail)) in
    buf ← mem_write (m_chBuffer b) iBufferSize (take (Z.to_nat iReadLen) avail);
    Ok (iReadLen,
        mk_cbuf (cb_ulClientSeq b) (cb_iClientFd b) (cb_chClientIP b) (i32 (iBufferSize + iReadLen)) buf,
        drop (Z.to_nat iReadLen) avail).

(** ** NetworkContext *)

Record NetworkContext := mk_net {
  m_stReadLock : spinlock;
  m_stWriteLock : spinlock;
  m_stNetPacketRecvPrepareQueue : NetPacketQueue;
  m_stNetPacketRecvQueue : NetPacketQueue;
  m_stNetPacketLogicQueue : NetPacketQueue;
  m_stNetPacketSendPrepareQueue : NetPacketQueue;
  m_stNetPacketSendQueue : NetPacketQueue;
  m_stNetPacketSendCache : NetPacketQueue;
  m_stSignalExec : ST_GameSingnal
}.

Definition net_new : NetworkContext :=
  mk_net spinlock_init spinlock_init queue_Init queue_Init queue_Init queue_Init queue_Init queue_Init
    signal_new.

Definition set_recv (N : NetworkContext) (prep recv logic : NetPacketQueue) : NetworkContext :=
  mk_net (m_stReadLock N) (m_stWriteLock N) prep recv logic (m_stNetPacketSendPrepareQueue N)
    (m_stNetPacketSendQueue N) (m_stNetPacketSendCache N) (m_stSignalExec N).
Definition set_send (N : NetworkContext) (prep send cache : NetPacketQueue) : NetworkContext :=
  mk_net (m_stReadLock N) (m_stWriteLock N) (m_stNetPacketRecvPrepareQueue N)
    (m_stNetPacketRecvQueue N) (m_stNetPacketLogicQueue N) prep send cache (m_stSignalExec N).
Definition set_read_lock (N : NetworkContext) (l : spinlock) : NetworkContext :=
  mk_net l (m_stWriteLock N) (m_stNetPacketRecvPrepareQueue N) (m_stNetPacketRecvQueue N)
    (m_stNetPacketLogicQueue N) (m_stNetPacketSendPrepareQueue N) (m_stNetPacketSendQueue N)
    (m_stNetPacketSendCache N) (m_stSignalExec N).
Definition set_write_lock (N : NetworkContext) (l : spinlock) : NetworkContext :=
  mk_net (m_stReadLock N) l (m_stNetPacketRecvPrepareQueue N) (m_stNetPacketRecvQueue N)
    (m_stNetPacketLogicQueue N) (m_stNetPacketSendPrepareQueue N) (m_stNetPacketSendQueue N)
    (m_stNetPacketSendCache N) (m_stSignalExec N).
Definition set_signal (N : NetworkContext) (s : ST_GameSingnal) : NetworkContext :=
  mk_net (m_stReadLock N) (m_stWriteLock N) (m_stNetPacketRecvPrepareQueue N)
    (m_stNetPacketRecvQueue N) (m_stNetPacketLogicQueue N) (m_stNetPacketSendPrepareQueue N)
    (m_stNetPacketSendQueue N) (m_stNetPacketSendCache N) s.

Definition PacketRecvPrepare (N : NetworkContext) : res (Z * NetworkContext) :=
  l ← spinlock_lock (m_stReadLock N);
  let '(n, recv, prep) := CopyFrom (m_stNetPacketRecvQueue N) (m_stNetPacketRecvPrepareQueue N) in
  Ok (n, set_read_lock (set_recv N prep recv (m_stNetPacketLogicQueue N)) (spinlock_unlock l)).

Definition CopyPacketsFromNetToLogic (N : NetworkContext) : res (Z * NetworkContext) :=
  l ← spinlock_lock (m_stReadLock N);
  let '(n, logic, recv) := CopyFrom queue_Init (m_stNetPacketRecvQueue N) in
  Ok (n, set_read_lock (set_recv N (m_stNetPacketRecvPrepareQueue N) recv logic) (spinlock_unlock l)).

(** The buffer is on the stack, zeroed, of the size the message reports. *)
Definition PacketProduceProtobufPacket {M} `{Protobuf M} (P : CPacketMemoryPool) (N : NetworkContext)
    (now ulClientSeq iClientFd iProtoNo : Z) (rstProto : M) : res (NetworkContext * CPacketMemoryPool) :=
  let iBufferSize := i32 (ByteSizeLong rstProto) in
  let chRspBuffer := replicate (Z.to_nat iBufferSize) 0 in
  '(_, chRspBuffer) ← PackProtobufStruct rstProto iBufferSize iBufferSize chRspBuffer;
  '(_, q, P) ← AddPacket P (m_stNetPacketSendPrepareQueue N) now ulClientSeq iClientFd iProtoNo
    iBufferSize chRspBuffer;
  Ok (set_send N q (m_stNetPacketSendQueue N) (m_stNetPacketSendCache N), P).

Definition PacketSendPrepare (N : NetworkContext) : res (Z * NetworkContext) :=
  l ← spinlock_lock (m_stWriteLock N);
  let '(n, send, prep) := CopyFrom (m_stNetPacketSendQueue N) (m_stNetPacketSendPrepareQueue N) in
  Ok (n, set_write_lock (set_send N prep send (m_stNetPacketSendCache N)) (spinlock_unlock l)).

Definition PacketSendPrepareCache (N : NetworkContext) : res (Z * NetworkContext) :=
  l ← spinlock_lock (m_stWriteLock N);
  let '(_, cache, send) := CopyFrom (m_stNetPacketSendCache N) (m_stNetPacketSendQueue N) in
  Ok (m_iPacketNum cache,
      set_write_lock (set_send N (m_stNetPacketSendPrepareQueue N) send cache) (spinlock_unlock l)).

(** How the while loop of UnpackPacketToRecvQueue ends. *)
Inductive loop_exit :=
| LoopDone (pchBufferPtr iLeftSize iTotalPackets : Z)
| LoopError (code : Z).

(** One round per packet.  [now k] is the [k]-th reading of the clock. *)
Fixpoint unpack_loop (fuel : nat) (now : nat → Z) (k : nat) (b : ST_ClientContextBuffer)
    (P : CPacketMemoryPool) (q : NetPacketQueue) (pchBufferPtr iLeftSize iTotalPackets : Z)
    : res (loop_exit * NetPacketQueue * CPacketMemoryPool) :=
  if iLeftSize <? NETWORK_PACKET_HEADER_SIZE then
    Ok (LoopDone pchBufferPtr iLeftSize iTotalPackets, q, P)
  else
    match fuel with
    | O => Fault OutOfFuel
    | S fuel =>
        let ptr := drop (Z.to_nat pchBufferPtr) (m_chBuffer b) in
        '(iPacketSize, ptr) ← UnpackInt int16_t ptr 2;
        if (iLeftSize <? iPacketSize) || (iPacketSize <? NETWORK_PACKET_HEADER_SIZE) then
          Ok (LoopDone pchBufferPtr iLeftSize iTotalPackets, q, P)
        else
          '(iProtoNo, ptr) ← UnpackInt int16_t ptr 2;
          let iBodySize := i32 (iPacketSize - NETWORK_PACKET_HEADER_SIZE) in
          if iBodySize <=? 0 then Ok (LoopError (-2), q, P)
          else if NETWORK_PACKET_BUFFER_MAX_SIZE <? iBodySize then Ok (LoopError (-3), q, P)
          else
            '(_, q, P) ← AddPacket P q (now k) (cb_ulClientSeq b) (cb_iClientFd b) iProtoNo iBodySize ptr;
            unpack_loop fuel now (S k) b P q (pchBufferPtr + iPacketSize) (iLeftSize - iPacketSize)
              (i32 (iTotalPackets + 1))
    end.

(** A round consumes at least five bytes, so the number of buffered bytes bounds
    the rounds. *)
Definition UnpackPacketToRecvQueue (now : nat → Z) (P : CPacketMemoryPool) (N : NetworkContext)
    (b : ST_ClientContextBuffer)
    : res (Z * ST_ClientContextBuffer * NetworkContext * CPacketMemoryPool) :=
  '(exit, q, P) ← unpack_loop (S (Z.to_nat (cb_iBufferSize b))) now 1 b P
    (m_stNetPacketRecvPrepareQueue N) 0 (cb_iBufferSize b) 0;
  let N := set_recv N q (m_stNetPacketRecvQueue N) (m_stNetPacketLogicQueue N) in
  match exit with
  | LoopError code => Ok (code, b, N, P)
  | LoopDone pchBufferPtr iLeftSize iTotalPackets =>
      b ← MoveBufferPtr b pchBufferPtr iLeftSize;
      '(_, N) ← PacketRecvPrepare N;
      N ← (if 0 <? iTotalPackets then s ← Emit (m_stSignalExec N); Ok (set_signal N s) else Ok N);
      Ok (0, b, N, P)
  end.

(** ** Sending: both clients frame the body and a time stamp *)

Lemma PackInt_two (b1 b2 : list Z) v w :
  length b1 = 2%nat → length b2 = 2%nat →
  PackInt int16_t (b1 ++ b2) 0 v = Ok (2, be_bytes 2 v ++ b2, 2) ∧
  PackInt int16_t (be_bytes 2 v ++ b2) 2 w = Ok (2, be_bytes 2 v ++ be_bytes 2 w, 4).
Proof.
  intros H1 H2. split.
  - rewrite PackInt_big_endian by (try (by left); simpl; len). do 3 f_equal.
    unfold splice. change (Z.to_nat (sizeof int16_t)) with 2%nat. rewrite length_be_bytes. cbn.
    rewrite take_0, app_nil_l. by rewrite drop_app_length' by lia.
  - rewrite PackInt_big_endian by (try (by left); simpl; len). do 3 f_equal.
    unfold splice. change (Z.to_nat (sizeof int16_t)) with 2%nat. rewrite length_be_bytes.
    change (Z.to_nat 2) with 2%nat. rewrite take_app_length' by len.
    rewrite drop_ge by len. by rewrite app_nil_r.
Qed.

Lemma be_bytes_cast T z : std_type T →
  be_bytes (Z.to_nat (sizeof T)) (cast T z) = be_bytes (Z.to_nat (sizeof T)) z.
Proof.
  intros HT. unfold be_bytes. f_equal. rewrite <- le_bytes_wrap, <- (le_bytes_wrap _ z). f_equal.
  rewrite Z2Nat.id by (unfold std_type in HT; lia). by apply wrap_cast.
Qed.

Lemma PrepareHeader_spec b :
  PrepareHeader b = Ok (wire_header (m_iBufferSize b + 12) (m_iProtoNo b)).
Proof.
  unfold PrepareHeader, wire_header.
  change (replicate (Z.to_nat NETWORK_PACKET_HEADER_SIZE) 0) with ([0; 0] ++ [0; 0]).
  destruct (PackInt_two [0; 0] [0; 0]
    (cast int16_t (m_iBufferSize b + NETWORK_PACKET_HEADER_SIZE + NETWORK_PACKET_TAIL_SIZE))
    (cast int16_t (m_iProtoNo b))) as [-> E2]; [done..|].
  rewrite bind_Ok, E2, bind_Ok. do 2 f_equal.
  - rewrite (be_bytes_cast int16_t) by (by left). f_equal. unfold NETWORK_PACKET_HEADER_SIZE, NETWORK_PACKET_TAIL_SIZE. lia.
  - apply (be_bytes_cast int16_t). by left.
Qed.

Lemma PrepareTail_spec now : PrepareTail now = Ok (be_bytes 8 now).
Proof.
  unfold PrepareTail. rewrite PackInt_big_endian by (unfold std_type; simpl; len).
  rewrite bind_Ok. by f_equal.
Qed.

Lemma splice_app (a b c : list Z) o :
  o = length a → splice (a ++ b) o c = a ++ c ++ drop (length c) b.
Proof.
  intros ->. unfold splice. rewrite take_app_length. do 2 f_equal.
  rewrite drop_app, (drop_ge a) by lia. cbn. f_equal. lia.
Qed.

Lemma splice_three (h s t : list Z) n :
  n = (length h + length s + length t)%nat →
  splice (splice (splice (replicate n 0) 0 h) (length h) s) (length h + length s) t = h ++ s ++ t.
Proof.
  intros ->. set (R := replicate _ 0). assert (splice R 0 h = h ++ drop (length h) R) as -> by done.
  unfold R.
  rewrite splice_app by done. rewrite app_assoc, splice_app by len.
  rewrite (drop_ge _ (length t)) by len. by rewrite app_nil_r, app_assoc.
Qed.

Lemma packet_of_inv P b pk :
  packet_of P b = Ok pk → ∃ buf, GetBuffer P b = Ok buf ∧ mem_read buf 0 (m_iBufferSize b) = Ok (pk_body pk) ∧
    pk_proto pk = m_iProtoNo b ∧ m_iBufferSize b = Z.of_nat (length (pk_body pk)).
Proof.
  unfold packet_of. intros H. inv_res. exists a. split_and!; try done.
  destruct (mem_read_inv _ _ _ _ Ha0) as (_ & ? & ? & ->). change (Z.to_nat 0) with 0%nat. cbn [pk_body]. len.
Qed.

Lemma frame_stamped proto (body : list Z) now :
  frame proto (body ++ be_bytes 8 now) =
  wire_header (Z.of_nat (length body) + 12) proto ++ body ++ be_bytes 8 now.
Proof. unfold frame. do 2 f_equal. len. Qed.

Lemma socket_send_spec P now b pk :
  packet_of P b = Ok pk → Z.of_nat (length (pk_body pk)) <= 10240 →
  socket_PacketBufferSend P now b =
  Ok (Z.of_nat (length (pk_body pk)) + 12, m_iSockFd b,
      frame (pk_proto pk) (pk_body pk ++ be_bytes 8 now)).
Proof.
  intros Hpk Hlen. destruct (packet_of_inv P b pk Hpk) as (buf & Hbuf & Hr & Hp & Hsz).
  unfold socket_PacketBufferSend. rewrite PrepareHeader_spec, PrepareTail_spec, Hbuf, !bind_Ok, Hr, bind_Ok.
  rewrite Hsz, <- Hp. unfold NETWORK_PACKET_HEADER_SIZE, NETWORK_PACKET_TAIL_SIZE.
  rewrite swrap_small by (simpl; lia). rewrite frame_stamped.
  set (h := wire_header _ _). set (s := pk_body pk) in *. set (t := be_bytes 8 now).
  assert (length h = 4%nat) as Hh by (unfold h, wire_header; len).
  assert (length t = 8%nat) as Ht by (unfold t; len).
  set (n := Z.to_nat _). assert (n = length h + length s + length t)%nat as Hn by (unfold n; lia).
  rewrite mem_write_Ok by (rewrite ?length_replicate; lia). rewrite bind_Ok.
  rewrite mem_write_Ok by (rewrite ?length_splice; rewrite ?length_replicate; lia). rewrite bind_Ok.
  rewrite mem_write_Ok by (rewrite ?length_splice; rewrite ?length_splice; rewrite ?length_replicate; lia).
  rewrite bind_Ok. do 2 f_equal; [f_equal; lia|].
  rewrite <- (splice_three h s t n Hn).
  replace (Z.to_nat (2 * 2 + Z.of_nat (length s))) with (length h + length s)%nat by lia.
  by replace (Z.to_nat (2 * 2)) with (length h) by lia.
Qed.

Lemma libevent_send_spec P now c b pk :
  packet_of P b = Ok pk → Z.of_nat (length (pk_body pk)) <= 10240 →
  libevent_PacketBufferSend P now c b =
  Ok (Z.of_nat (length (pk_body pk)) + 12, cb_iClientFd (lc_stContextBuffer c),
      frame (pk_proto pk) (pk_body pk ++ be_bytes 8 now)).
Proof.
  intros Hpk Hlen. destruct (packet_of_inv P b pk Hpk) as (buf & Hbuf & Hr & Hp & Hsz).
  unfold libevent_PacketBufferSend. rewrite PrepareHeader_spec, PrepareTail_spec, Hbuf, !bind_Ok, Hr, bind_Ok.
  rewrite Hsz, <- Hp, frame_stamped. unfold NETWORK_PACKET_HEADER_SIZE, NETWORK_PACKET_TAIL_SIZE.
  rewrite swrap_small by (simpl; lia). do 3 f_equal. lia.
Qed.

#[export, refine] Instance socket_client : ClientContext SocketClientCtx := {|
  GetContextBuffer := sc_stContextBuffer;
  SetContextBuffer := fun c b => mk_socket_client (sc_ulClientUniqSeq c) b;
  GetClientFd := fun c => cb_iClientFd (sc_stContextBuffer c);
  GetClientSeq := sc_ulClientUniqSeq;
  PacketBufferSend := fun P now _ b => socket_PacketBufferSend P now b;
  send_fd := fun _ pk => pk_fd pk
|}.
Proof.
  - done.
  - intros c b Hs Hf. split; [done|exact Hf].
  - intros P now c b pk Hpk _ Hlen. rewrite (socket_send_spec P now b pk Hpk Hlen).
    revert Hpk. unfold packet_of. intros E. inv_res. done.
Defined.

#[export, refine] Instance libevent_client : ClientContext LibeventClientCtx := {|
  GetContextBuffer := lc_stContextBuffer;
  SetContextBuffer := fun c b => mk_libevent_client b (lc_pstBufferEvent c);
  GetClientFd := fun c => cb_iClientFd (lc_stContextBuffer c);
  GetClientSeq := fun c => cb_ulClientSeq (lc_stContextBuffer c);
  PacketBufferSend := libevent_PacketBufferSend;
  send_fd := fun c _ => cb_iClientFd (lc_stContextBuffer c)
|}.
Proof.
  - done.
  - intros c b Hs Hf. split; [exact Hs|exact Hf].
  - intros P now c b pk Hpk _ Hlen. by apply libevent_send_spec.
Defined.

(** ** Receiving: streams of frames *)

(** Packets that fit the protocol. *)
Definition msg_ok (m : Z * list Z) : Prop :=
  in_type int16_t m.1 ∧ 0 < Z.of_nat (length m.2) <= 10240.

Definition frames (ms : list (Z * list Z)) : list Z := concat ((fun m => frame m.1 m.2) <$> ms).

Lemma frames_cons m ms : frames (m :: ms) = frame m.1 m.2 ++ frames ms.
Proof. done. Qed.

(** A proper prefix of a frame. *)
Definition partial (l : list Z) : Prop :=
  ∃ m rest, msg_ok m ∧ rest ≠ [] ∧ frame m.1 m.2 = l ++ rest.

Lemma length_frame proto body : length (frame proto body) = (4 + length body)%nat.
Proof. unfold frame, wire_header. len. Qed.

(** The header of a frame, read from its start. *)
Lemma UnpackInt_header size proto (rest : list Z) :
  in_type int16_t size → in_type int16_t proto →
  UnpackInt int16_t (wire_header size proto ++ rest) 2 = Ok (size, be_bytes 2 proto ++ rest) ∧
  UnpackInt int16_t (be_bytes 2 proto ++ rest) 2 = Ok (proto, rest).
Proof.
  intros Hs Hp. unfold wire_header. rewrite <- app_assoc.
  split; apply (UnpackInt_big_endian int16_t); by try left.
Qed.

(** Only the first two bytes matter for the size. *)
Lemma UnpackInt_size (l r : list Z) :
  (2 <= length l)%nat →
  ∀ v x, UnpackInt int16_t (l ++ r) 2 = Ok (v, x) → ∃ y, UnpackInt int16_t l 2 = Ok (v, y).
Proof.
  intros Hl v x. unfold UnpackInt. change (sizeof int16_t <? u64 2) with false. cbv iota.
  rewrite !mem_read_Ok by len. rewrite !bind_Ok, !drop_0.
  change (Z.to_nat 2) with 2%nat. rewrite take_app_le by lia. cbn [Z.eqb Pos.eqb].
  intros [= <- _]. by eexists.
Qed.

(** A proper prefix of a frame stops the loop: too short for a header, or
    shorter than the header says. *)
Lemma partial_incomplete l r :
  partial l →
  (length l < 4)%nat ∨ ∃ size x, UnpackInt int16_t (l ++ r) 2 = Ok (size, x) ∧ Z.of_nat (length l) < size.
Proof.
  intros ([proto body] & rest & [Hp Hb] & Hne & Hf). cbn [fst snd] in *.
  destruct (decide (length l < 4)%nat) as [|Hl]; [by left|right].
  assert (length l + length rest = 4 + length body)%nat as Hlen.
  { rewrite <- length_frame with proto body, Hf. len. }
  assert (in_type int16_t (Z.of_nat (length body) + 4)) as Hsz by (apply in_type_i16; lia).
  destruct (UnpackInt_header (Z.of_nat (length body) + 4) proto body Hsz Hp) as [E _].
  change (wire_header _ _ ++ body) with (frame proto body) in E. rewrite Hf in E.
  destruct (UnpackInt_size l rest ltac:(lia) _ _ E) as [y Ey].
  exists (Z.of_nat (length body) + 4). destruct rest; [done|]. cbn in Hlen.
  eexists. split; [|lia].
  revert Ey. unfold UnpackInt. change (sizeof int16_t <? u64 2) with false. cbv iota.
  rewrite !mem_read_Ok by len. rewrite !bind_Ok, !drop_0. change (Z.to_nat 2) with 2%nat.
  rewrite take_app_le by lia. cbn [Z.eqb Pos.eqb]. intros [= -> _]. done.
Qed.

(** The packets [bs] were added to the pool [P] with memory [O] in use: they
    have fresh distinct memory, stand for [pks], and nothing in use changed. *)
Record added (P : CPacketMemoryPool) (O : gset mem_ptr) (P' : CPacketMemoryPool)
    (bs : list NetPacketBuffer) (pks : list packet) : Prop := {
  ad_backed : backed bs;
  ad_nodup : NoDup (ptrs bs);
  ad_fresh : ∀ p, p ∈ ptrs bs → p ∉ O;
  ad_inv : pool_inv P' (list_to_set (ptrs bs) ∪ O);
  ad_frame : ∀ p, p ∈ O → mem_load P' p = mem_load P p;
  ad_holds : queue_holds P' bs pks
}.

Lemma added_nil P O : pool_inv P O → added P O P [] [].
Proof.
  intros HI. constructor; try done.
  - constructor.
  - constructor.
  - by intros p ?%not_elem_of_nil.
  - change (list_to_set (ptrs [])) with (∅ : gset mem_ptr). by rewrite union_empty_l_L.
  - constructor.
Qed.

Lemma added_cons P O P1 P2 b p pk bs pks :
  m_pstMemory b = Some p → (p ∉ O) → (∀ q, q ∈ O → mem_load P1 q = mem_load P q) →
  packet_of P1 b = Ok pk → added P1 ({[p]} ∪ O) P2 bs pks → added P O P2 (b :: bs) (pk :: pks).
Proof.
  intros Hb Hp Hf Hpk [A1 A2 A3 A4 A5 A6]. unfold ptrs in *.
  assert (p ∈ ({[p]} ∪ O : gset mem_ptr)) as Hin by (apply elem_of_union_l; by apply elem_of_singleton).
  constructor; unfold ptrs; cbn [omap list_omap]; rewrite ?Hb.
  - constructor; [by eexists|done].
  - apply NoDup_cons_2; [|done]. intros Hq. by apply A3 in Hq.
  - intros q [->|Hq]%elem_of_cons; [done|]. intros HO. apply (A3 q Hq). by apply elem_of_union_r.
  - rewrite list_to_set_cons. by rewrite (union_comm_L {[p]}), <- union_assoc_L.
  - intros q Hq. rewrite A5 by (by apply elem_of_union_r). by apply Hf.
  - constructor; [|done]. apply (packet_of_frame P1 P2 b p); [done| |done]. by apply A5.
Qed.

Definition pkt_of (b : ST_ClientContextBuffer) (m : Z * list Z) : packet :=
  mk_pkt (cb_ulClientSeq b) (cb_iClientFd b) m.1 m.2.

Section Loop.
Context (now : nat → Z) (b : ST_ClientContextBuffer) (tail junk : list Z) (Htail : partial tail).

(** One complete frame at the pointer is one round. *)
Lemma unpack_round fuel k P O q off left total m rest :
  pool_inv P O → msg_ok m →
  drop (Z.to_nat off) (m_chBuffer b) = frame m.1 m.2 ++ rest →
  Z.of_nat (length (frame m.1 m.2)) <= left →
  ∃ p P1 nb, m_pstMemory nb = Some p ∧ (p ∉ O) ∧ pool_inv P1 ({[p]} ∪ O) ∧
    (∀ q, q ∈ O → mem_load P1 q = mem_load P q) ∧ packet_of P1 nb = Ok (pkt_of b m) ∧
    unpack_loop (S fuel) now k b P q off left total =
    unpack_loop fuel now (S k) b P1 (mk_net_queue (i32 (m_iPacketNum q + 1)) (m_vecPacketPool q ++ [nb]))
      (off + Z.of_nat (length (frame m.1 m.2))) (left - Z.of_nat (length (frame m.1 m.2)))
      (i32 (total + 1)).
Proof using.
  intros HI [Hp Hb] Hd Hleft. destruct m as [proto body]. cbn [fst snd] in *.
  rewrite length_frame in *.
  assert (in_type int16_t (Z.of_nat (length body) + 4)) as Hsz by (apply in_type_i16; lia).
  destruct (UnpackInt_header (Z.of_nat (length body) + 4) proto (body ++ rest) Hsz Hp) as [E1 E2].
  assert (mem_read (body ++ rest) 0 (Z.of_nat (length body)) = Ok body) as Hr.
  { rewrite mem_read_Ok by len. change (Z.to_nat 0) with 0%nat. rewrite drop_0.
    by rewrite take_app_length' by lia. }
  destruct (AddPacket_spec P O q (now k) (cb_ulClientSeq b) (cb_iClientFd b) proto
    (Z.of_nat (length body)) (body ++ rest) body HI ltac:(lia) Hr)
    as (p & P1 & nb & EA & Hnb & Hfresh & HI1 & Hf & Hpk).
  exists p, P1, nb. split_and!; try done. cbn [unpack_loop].
  unfold NETWORK_PACKET_HEADER_SIZE, NETWORK_PACKET_BUFFER_MAX_SIZE.
  destruct (Z.ltb_spec left (2 * 2)); [lia|].
  rewrite Hd. unfold frame. rewrite <- app_assoc, E1, bind_Ok.
  destruct (Z.ltb_spec left (Z.of_nat (length body) + 4)); [lia|].
  destruct (Z.ltb_spec (Z.of_nat (length body) + 4) (2 * 2)); [lia|]. cbn [orb].
  rewrite E2, bind_Ok. rewrite swrap_small by (simpl; lia).
  replace (Z.of_nat (length body) + 4 - 2 * 2) with (Z.of_nat (length body)) by lia.
  destruct (Z.leb_spec (Z.of_nat (length body)) 0); [lia|].
  destruct (Z.ltb_spec 10240 (Z.of_nat (length body))); [lia|].
  rewrite EA, bind_Ok. f_equal; lia.
Qed.

Lemma unpack_loop_stops fuel k P q off left total :
  drop (Z.to_nat off) (m_chBuffer b) = tail ++ junk → left = Z.of_nat (length tail) →
  unpack_loop (S fuel) now k b P q off left total = Ok (LoopDone off left total, q, P).
Proof using Htail.
  intros Hd ->. cbn [unpack_loop]. unfold NETWORK_PACKET_HEADER_SIZE.
  destruct (Z.ltb_spec (Z.of_nat (length tail)) (2 * 2)); [done|].
  destruct (partial_incomplete tail junk Htail) as [?|(size & x & E & Hlt)]; [lia|].
  rewrite Hd, E, bind_Ok. destruct (Z.ltb_spec (Z.of_nat (length tail)) size); [done|lia].
Qed.

Lemma unpack_loop_spec ms : ∀ fuel k P O q off left total,
  pool_inv P O → 0 <= off → Forall msg_ok ms →
  drop (Z.to_nat off) (m_chBuffer b) = frames ms ++ tail ++ junk →
  left = Z.of_nat (length (frames ms ++ tail)) → (length ms < fuel)%nat →
  0 <= total → total + Z.of_nat (length ms) < 2147483648 →
  ∃ P' bs n, unpack_loop fuel now k b P q off left total =
    Ok (LoopDone (off + Z.of_nat (length (frames ms))) (Z.of_nat (length tail))
          (total + Z.of_nat (length ms)), mk_net_queue n (m_vecPacketPool q ++ bs), P') ∧
    added P O P' bs (pkt_of b <$> ms).
Proof using Htail.
  induction ms as [|m ms IH]; intros [|fuel] k P O q off left total HI Hoff Hok Hd -> Hfuel Ht Hmax;
    try (cbn in Hfuel; lia).
  - exists P, [], (m_iPacketNum q). rewrite (unpack_loop_stops fuel k P q off _ total) by done.
    split; [|by apply added_nil]. rewrite app_nil_r. cbn. rewrite !Z.add_0_r. by destruct q.
  - apply Forall_cons_1 in Hok as [Hm Hok]. rewrite frames_cons in *.
    cbn [length] in Hfuel, Hmax.
    destruct (unpack_round fuel k P O q off
      (Z.of_nat (length ((frame m.1 m.2 ++ frames ms) ++ tail))) total m (frames ms ++ tail ++ junk))
      as (p & P1 & nb & Hnb & Hp & HI1 & Hf & Hpk & ->); [done|done|by rewrite Hd, <- app_assoc|len|].
    rewrite (swrap_small 32 (total + 1)) by (simpl; lia).
    destruct (IH fuel (S k) P1 ({[p]} ∪ O)
      (mk_net_queue (i32 (m_iPacketNum q + 1)) (m_vecPacketPool q ++ [nb]))
      (off + Z.of_nat (length (frame m.1 m.2)))
      (Z.of_nat (length (frames ms ++ tail))) (total + 1)) as (P2 & bs & n & E & Had);
      [done|lia|done| |done|lia|lia|lia|].
    { rewrite Z2Nat.inj_add, Nat2Z.id by lia. rewrite <- drop_drop, Hd.
      by rewrite <- app_assoc, drop_app_length. }
    exists P2, (nb :: bs), n. split; [|by apply (added_cons P O P1 P2 nb p)].
    rewrite <- app_assoc in *. rewrite length_app.
    replace (Z.of_nat (length (frame m.1 m.2) + length (frames ms ++ tail)) - Z.of_nat (length (frame m.1 m.2)))
      with (Z.of_nat (length (frames ms ++ tail))) by lia.
    rewrite E. cbn [m_vecPacketPool]. rewrite <- app_assoc. rewrite length_app.
    do 4 f_equal; len.
Qed.

End Loop.

(** ** One call of UnpackPacketToRecvQueue *)

(** The buffer holds the bytes [content]. *)
Definition holds_stream (b : ST_ClientContextBuffer) (content : list Z) : Prop :=
  Z.of_nat (length (m_chBuffer b)) = BUFFER_BYTES ∧ cb_iBufferSize b = Z.of_nat (length content) ∧
  ∃ junk, m_chBuffer b = content ++ junk.

Definition same_client (b b' : ST_ClientContextBuffer) : Prop :=
  cb_ulClientSeq b' = cb_ulClientSeq b ∧ cb_iClientFd b' = cb_iClientFd b.

Lemma holds_stream_length b c : holds_stream b c → Z.of_nat (length c) <= BUFFER_BYTES.
Proof. intros (Hl & _ & junk & Hb). rewrite <- Hl, Hb. len. Qed.

Lemma MoveBufferPtr_spec b c tail :
  holds_stream b (c ++ tail) →
  ∃ b', MoveBufferPtr b (Z.of_nat (length c)) (Z.of_nat (length tail)) = Ok b' ∧
    holds_stream b' tail ∧ same_client b b'.
Proof.
  intros (Hl & Hs & junk & Hb). unfold MoveBufferPtr.
  destruct (Z.leb_spec (Z.of_nat (length tail)) 0).
  - destruct tail; [|cbn in *; lia]. eexists. split; [done|]. split; [|done].
    split_and!; cbn; [by rewrite length_replicate|done|by eexists].
  - rewrite Hb. rewrite mem_read_Ok by len. rewrite bind_Ok, !Nat2Z.id.
    rewrite <- app_assoc, drop_app_length, take_app_length.
    rewrite mem_write_Ok by len. rewrite bind_Ok. eexists. split; [done|]. split; [|done].
    split_and!; cbn; [|done|by eexists].
    rewrite length_splice by len. rewrite <- Hl, Hb. len.
Qed.

Lemma PacketBufferRead_spec b t (chunk rest : list Z) :
  holds_stream b t → Z.of_nat (length t + length chunk) <= BUFFER_BYTES →
  ∃ b', PacketBufferRead b (chunk ++ rest) (Z.of_nat (length chunk)) = Ok (Z.of_nat (length chunk), b') ∧
    holds_stream b' (t ++ chunk) ∧ same_client b b'.
Proof.
  intros (Hl & Hs & junk & Hb) Hfit. unfold PacketBufferRead. rewrite Hl, Hs.
  unfold BUFFER_BYTES, NETWORK_PACKET_BUFFER_READ_SIZE in *. rewrite swrap_small by (simpl; lia).
  destruct (Z.ltb_spec (10 * 1024 * 10 - Z.of_nat (length t)) (Z.of_nat (length chunk))); [lia|].
  rewrite mem_read_Ok by len. rewrite bind_Ok. change (Z.to_nat 0) with 0%nat.
  rewrite drop_0, Nat2Z.id, take_app_length. rewrite mem_write_Ok by lia. rewrite bind_Ok.
  rewrite swrap_small by (simpl; lia). eexists. split; [done|]. split; [|done].
  rewrite Nat2Z.id. split_and!; cbn [m_chBuffer cb_iBufferSize].
  - rewrite length_splice; [done|]. lia.
  - len.
  - rewrite Hb. rewrite (splice_app t junk chunk) by done. eexists. by rewrite app_assoc.
Qed.

(** What the receive side holds: packets in the receive queue and then in the
    prepare queue, with memory of their own. *)
Record recv_inv (P : CPacketMemoryPool) (O : gset mem_ptr) (N : NetworkContext) (pks : list packet)
    : Prop := {
  ri_pool : pool_inv P O;
  ri_lock : unlocked (m_stReadLock N);
  ri_signal : unlocked (s_lock (m_stSignalExec N));
  ri_count : m_vecPacketPool (m_stNetPacketRecvQueue N) = [] ∨ 0 < m_iPacketNum (m_stNetPacketRecvQueue N);
  ri_backed : backed (m_vecPacketPool (m_stNetPacketRecvQueue N) ++
                      m_vecPacketPool (m_stNetPacketRecvPrepareQueue N));
  ri_nodup : NoDup (ptrs (m_vecPacketPool (m_stNetPacketRecvQueue N) ++
                          m_vecPacketPool (m_stNetPacketRecvPrepareQueue N)));
  ri_owned : ∀ p, p ∈ ptrs (m_vecPacketPool (m_stNetPacketRecvQueue N) ++
                            m_vecPacketPool (m_stNetPacketRecvPrepareQueue N)) → p ∈ O;
  ri_holds : queue_holds P (m_vecPacketPool (m_stNetPacketRecvQueue N) ++
                            m_vecPacketPool (m_stNetPacketRecvPrepareQueue N)) pks
}.

Lemma ptrs_app v w : ptrs (v ++ w) = ptrs v ++ ptrs w.
Proof. apply omap_app. Qed.

Lemma CopyFrom_spec q r :
  m_vecPacketPool q = [] ∨ 0 < m_iPacketNum q →
  CopyFrom q r =
  let v := m_vecPacketPool q ++ m_vecPacketPool r in
  (i32 (Z.of_nat (length v)), mk_net_queue (i32 (Z.of_nat (length v))) v, queue_Init).
Proof.
  intros Hq. unfold CopyFrom. destruct (Z.ltb_spec 0 (m_iPacketNum q)); [done|].
  destruct Hq as [->|?]; [done|lia].
Qed.

(** The packets of the loop move to the receive queue. *)
Lemma recv_prepare_spec P O N pks P' bs new n :
  recv_inv P O N pks → added P O P' bs new →
  Z.of_nat (length pks + length new) < 2147483648 →
  let q := mk_net_queue n (m_vecPacketPool (m_stNetPacketRecvPrepareQueue N) ++ bs) in
  ∃ N' k, PacketRecvPrepare (set_recv N q (m_stNetPacketRecvQueue N) (m_stNetPacketLogicQueue N)) = Ok (k, N') ∧
    recv_inv P' (list_to_set (ptrs bs) ∪ O) N' (pks ++ new) ∧
    m_stNetPacketRecvPrepareQueue N' = queue_Init ∧ m_stSignalExec N' = m_stSignalExec N.
Proof.
  intros [R1 R2 R3 R4 R5 R6 R7 R8] [A1 A2 A3 A4 A5 A6] Hlen q.
  unfold PacketRecvPrepare. cbn [set_recv m_stReadLock m_stNetPacketRecvQueue m_stNetPacketRecvPrepareQueue].
  rewrite (spinlock_lock_free _ R2), bind_Ok, CopyFrom_spec by done. cbv zeta.
  eexists _, _. split; [done|].
  cbn [set_recv set_read_lock m_stReadLock m_stNetPacketRecvQueue m_stNetPacketRecvPrepareQueue
       m_stSignalExec m_vecPacketPool m_iPacketNum queue_Init q] in *.
  set (v1 := m_vecPacketPool (m_stNetPacketRecvQueue N)) in *.
  set (v0 := m_vecPacketPool (m_stNetPacketRecvPrepareQueue N)) in *.
  assert (queue_holds P' (v1 ++ v0 ++ bs) (pks ++ new)) as Hh.
  { rewrite app_assoc. apply Forall2_app; [|done]. by apply (queue_holds_frame P P' _ pks O). }
  assert (length (v1 ++ v0 ++ bs) = length pks + length new)%nat as Hl
    by (rewrite <- length_app; exact (Forall2_length Hh)).
  split; [|done]. constructor;
    cbn [set_recv set_read_lock m_stReadLock m_stNetPacketRecvQueue m_stNetPacketRecvPrepareQueue
         m_stSignalExec m_vecPacketPool m_iPacketNum queue_Init q]; rewrite ?app_nil_r; try done.
  - rewrite Hl, swrap_small by (simpl; lia). destruct (length pks + length new)%nat eqn:E; [|right; lia].
    left. by apply nil_length_inv.
  - rewrite app_assoc. by apply Forall_app_2.
  - rewrite app_assoc, ptrs_app. apply list.NoDup_app. split_and!; [done| |done].
    intros p Hp Hp'. by apply (A3 p), R7.
  - intros p. rewrite app_assoc, ptrs_app, elem_of_app, elem_of_union, elem_of_list_to_set.
    intros [Hp|Hp]; [right; by apply R7|by left].
Qed.

Lemma UnpackPacketToRecvQueue_spec now P O N pks b ms tail :
  recv_inv P O N pks → holds_stream b (frames ms ++ tail) → Forall msg_ok ms → partial tail →
  Z.of_nat (length pks + length ms) < 2147483648 →
  ∃ b' N' P' O', UnpackPacketToRecvQueue now P N b = Ok (0, b', N', P') ∧
    holds_stream b' tail ∧ same_client b b' ∧
    recv_inv P' O' N' (pks ++ (pkt_of b <$> ms)) ∧
    m_stNetPacketRecvPrepareQueue N' = queue_Init ∧
    m_bHasSignal (m_stSignalExec N') = (bool_decide (ms ≠ []) || m_bHasSignal (m_stSignalExec N)).
Proof.
  intros HR Hs Hok Ht Hlen. pose proof Hs as (Hbl & Hbs & junk & Hb).
  unfold UnpackPacketToRecvQueue.
  assert (length ms <= length (frames ms))%nat as Hms.
  { clear. induction ms as [|m ms IH]; [done|]. rewrite frames_cons, length_app, length_frame. cbn. lia. }
  destruct (unpack_loop_spec now b tail junk Ht ms (S (Z.to_nat (cb_iBufferSize b))) 1 P O
    (m_stNetPacketRecvPrepareQueue N) 0 (cb_iBufferSize b) 0) as (P' & bs & n & E & Had);
    [apply HR|lia|done| |done| |lia|lia|].
  { change (Z.to_nat 0) with 0%nat. by rewrite drop_0, Hb, <- app_assoc. }
  { rewrite Hbs, Nat2Z.id, length_app. lia. }
  rewrite E, bind_Ok. rewrite !Z.add_0_l.
  destruct (MoveBufferPtr_spec b (frames ms) tail Hs) as (b' & -> & Hs' & Hsame). rewrite bind_Ok.
  destruct (recv_prepare_spec P O N pks P' bs (pkt_of b <$> ms) n HR Had) as (N' & k & -> & HR' & Hprep & Hsig).
  { by rewrite length_fmap. }
  rewrite bind_Ok, Hsig. destruct ms as [|m ms].
  - change (0 <? Z.of_nat (length [])) with false. cbv iota. rewrite bind_Ok. eexists _, _, _, _.
    split; [done|]. split; [done|]. split; [done|]. split; [done|]. split; [done|]. by rewrite Hsig.
  - rewrite (proj2 (Z.ltb_lt 0 (Z.of_nat (length (m :: ms))))) by (cbn; lia).
    unfold Emit. rewrite (spinlock_lock_free _ (ri_signal P O N pks HR)), !bind_Ok.
    eexists _, _, _, _. split; [done|]. split; [done|]. split; [done|]. split; [|done].
    destruct HR'. by constructor.
Qed.

(** Receiving leaves the send side alone. *)
Definition send_same (N N' : NetworkContext) : Prop :=
  m_stWriteLock N' = m_stWriteLock N ∧
  m_stNetPacketSendPrepareQueue N' = m_stNetPacketSendPrepareQueue N ∧
  m_stNetPacketSendQueue N' = m_stNetPacketSendQueue N ∧
  m_stNetPacketSendCache N' = m_stNetPacketSendCache N.

Lemma UnpackPacketToRecvQueue_send_same now P N b r b' N' P' :
  UnpackPacketToRecvQueue now P N b = Ok (r, b', N', P') → send_same N N'.
Proof.
  unfold UnpackPacketToRecvQueue. intros E. inv_res. destruct a as [[[ptr left total|code] q] P1].
  - unfold PacketRecvPrepare in E. inv_res. destruct (CopyFrom _ _) as [[n recv] prep]. inv_res.
    destruct (0 <? total); inv_res; done.
  - injection E as <- <- <- <-. done.
Qed.
