(* ===== verification/SocketMessage.v ===== *)
(** * What a socket server reports (src/network/socket/socket_server.h)

    The results of socket_server_poll and the message that goes with them, shared
    by the socket server and the handlers of the receiving thread. *)

From S2P Require Import Prelude.

Definition SOCKET_DATA : Z := 0.
Definition SOCKET_CLOSE : Z := 1.
Definition SOCKET_OPEN : Z := 2.
Definition SOCKET_ACCEPT : Z := 3.
Definition SOCKET_ERROR : Z := 4.
Definition SOCKET_EXIT : Z := 5.
Definition SOCKET_UDP : Z := 6.

(** The data is absent, text, or the bytes received. *)
Record socket_message := mk_msg {
  msg_id : Z;
  msg_opaque : Z;
  msg_ud : Z;
  msg_data : option (list Z)
}.
