(* ===== verification/ServerLogic.v ===== *)
(** * Clients of a server and its message handlers
      (ClientContextPool, ServerContext and ConnectorContext of
       src/network/context.h; src/network/socket/server_logic.cpp)

    Client objects are reached through two maps, by sequence number and by
    descriptor.  The theorems show that the packets a client sends arrive in
    order and intact whatever the chunks, what the send command writes, and how
    a malformed stream stalls the receiving thread. *)

From S2P Require Import Prelude Spinlock Unpack PacketPool Context SocketMessage.

(** ** ClientContextPool: pointers to clients by sequence number and by fd *)

Record ClientContextPool := mk_cpool {
  m_stClientSeqPool : gmap Z nat;
  m_stClientFdPool : gmap Z nat
}.

Definition GetClient (cp : ClientContextPool) (ulClientSeq : Z) : option nat :=
  m_stClientSeqPool cp !! ulClientSeq.

Definition GetClientByFd (cp : ClientContextPool) (iClientFd : Z) : option nat :=
  m_stClientFdPool cp !! iClientFd.

(** The result is read through the iterator of the erased element. *)
Definition RemoveClientByFd (cp : ClientContextPool) (iClientFd : Z)
    : res (option nat * ClientContextPool) :=
  match m_stClientFdPool cp !! iClientFd with
  | Some _ => Fault UseAfterFree
  | None => Ok (None, cp)
  end.

Definition AddClient (cp : ClientContextPool) (ulClientSeq iClientFd : Z) (pstClient : nat)
    : ClientContextPool :=
  mk_cpool (map_insert_new ulClientSeq pstClient (m_stClientSeqPool cp))
    (map_insert_new iClientFd pstClient (m_stClientFdPool cp)).

(** [fd_of] is the virtual GetClientFd through the pointer. *)
Definition RemoveClient (cp : ClientContextPool) (fd_of : nat → res Z) (ulClientSeq : Z)
    : res (option nat * ClientContextPool) :=
  match m_stClientSeqPool cp !! ulClientSeq with
  | Some pstClient =>
      fd ← fd_of pstClient;
      '(_, cp) ← RemoveClientByFd cp fd;
      Ok (Some pstClient, mk_cpool (delete ulClientSeq (m_stClientSeqPool cp)) (m_stClientFdPool cp))
  | None => Ok (None, cp)
  end.

Section Server.
Context {C : Type} `{ClientContext C}.

(** A server context, the client objects its pool points to, and the packet
    memory. *)
Record ServerContext := mk_server {
  sv_net : NetworkContext;
  sv_pool : ClientContextPool;
  sv_clients : gmap nat C;
  sv_next : nat;
  sv_mem : CPacketMemoryPool
}.

Definition client (W : ServerContext) (p : nat) : res C :=
  match sv_clients W !! p with Some c => Ok c | None => Fault UseAfterFree end.

Definition set_client (W : ServerContext) (p : nat) (c : C) : ServerContext :=
  mk_server (sv_net W) (sv_pool W) (<[p := c]> (sv_clients W)) (sv_next W) (sv_mem W).

Definition set_net (W : ServerContext) (N : NetworkContext) (P : CPacketMemoryPool) : ServerContext :=
  mk_server N (sv_pool W) (sv_clients W) (sv_next W) P.

(** ExecuteCmdRecvAllPacket of both kinds of context. *)
Definition ExecuteCmdRecvAllPacket (now : nat → Z) (W : ServerContext) (pstClientCtx : nat)
    : res (Z * ServerContext) :=
  c ← client W pstClientCtx;
  '(r, b, N, P) ← UnpackPacketToRecvQueue now (sv_mem W) (sv_net W) (GetContextBuffer c);
  Ok (r, set_net (set_client W pstClientCtx (SetContextBuffer c b)) N P).

(** The for loop over the send cache; [target] picks the client of a packet.
    Returns what was written, in order. *)
Fixpoint send_each (now : nat → Z) (k : nat) (W : ServerContext)
    (target : NetPacketBuffer → option nat) (v : list NetPacketBuffer) : res (list (Z * list Z)) :=
  match v with
  | [] => Ok []
  | b :: v =>
      match target b with
      | None => send_each now k W target v
      | Some p =>
          c ← client W p;
          '(_, fd, bytes) ← PacketBufferSend (sv_mem W) (now k) c b;
          out ← send_each now (S k) W target v;
          Ok ((fd, bytes) :: out)
      end
  end.

(** The do-while loop of ExecuteCmdSendAllPacket. *)
Fixpoint send_loop (fuel : nat) (now : nat → Z) (k : nat) (W : ServerContext)
    (target : NetPacketBuffer → option nat) : res (Z * list (Z * list Z) * ServerContext) :=
  match fuel with
  | O => Fault OutOfFuel
  | S fuel =>
      let N := sv_net W in
      let v := m_vecPacketPool (m_stNetPacketSendCache N) in
      out ← send_each now k W target v;
      '(cache, P) ← ReleaseAllPackets (sv_mem W) (m_stNetPacketSendCache N);
      '(iTotalPackets, N) ← PacketSendPrepareCache
        (set_send N (m_stNetPacketSendPrepareQueue N) (m_stNetPacketSendQueue N) cache);
      let W := set_net W N P in
      if 0 <? iTotalPackets then
        '(r, out', W) ← send_loop fuel now (k + length out) W target;
        Ok (r, out ++ out', W)
      else Ok (u64 iTotalPackets, out, W)
  end.

(** The first round empties the send queue into the cache and the cache to the
    clients, so one round is enough when no other thread adds packets. *)
Definition server_ExecuteCmdSendAllPacket (now : nat → Z) (W : ServerContext)
    : res (Z * list (Z * list Z) * ServerContext) :=
  '(_, N) ← PacketSendPrepareCache (sv_net W);
  let W := set_net W N (sv_mem W) in
  send_loop 1 now 1 W (fun b => GetClient (sv_pool W) (m_ulClientSeq b)).

Definition connector_ExecuteCmdSendAllPacket (now : nat → Z) (W : ServerContext)
    (m_pstClientCtx : option nat) : res (Z * list (Z * list Z) * ServerContext) :=
  match m_pstClientCtx with
  | None => Ok (u64 (-1), [], W)
  | Some p =>
      '(_, N) ← PacketSendPrepareCache (sv_net W);
      send_loop 1 now 1 (set_net W N (sv_mem W)) (fun _ => Some p)
  end.

End Server.

Arguments ServerContext : clear implicits.

(** ** The handlers of the receiving thread (server_logic.cpp) *)

Abbreviation server := (ServerContext SocketClientCtx).

Definition NETWORK_SOCKET_SERVER_OPAQUE : Z := 1001.

(** A message of a socket the server opened. *)
Abbreviation mk_message id ud data := (mk_msg id NETWORK_SOCKET_SERVER_OPAQUE ud data).

(** strlen of a C string: the bytes before the NUL. *)
Fixpoint strlen (a : list Z) : res Z :=
  match a with
  | [] => Fault OutOfBounds
  | c :: a => if c =? 0 then Ok 0 else n ← strlen a; Ok (n + 1)
  end.

(** [seq] is the number SnowFlakeUUID generates if a client is created. *)
Definition _ProcessNewClient (W : server) (seq iClientFd : Z) (rstMessage : socket_message) : res server :=
  match msg_data rstMessage with
  | None => Fault Undefined
  | Some data =>
      dwSize ← strlen data;
      '(W, pstClient) ←
        match GetClientByFd (sv_pool W) iClientFd with
        | Some p => Ok (W, p)
        | None =>
            let p := sv_next W in
            c ← SetClientIP (SocketClientCtx_new seq iClientFd) data dwSize;
            Ok (mk_server (sv_net W) (AddClient (sv_pool W) (GetClientSeq c) (GetClientFd c) p)
                  (<[p := c]> (sv_clients W)) (S p) (sv_mem W), p)
        end;
      c ← client W pstClient;
      c ← SetClientIP c data dwSize;
      Ok (set_client W pstClient c)
  end.

Definition _ProcessCloseClient (W : server) (iClientFd : Z) : res (bool * server) :=
  match GetClientByFd (sv_pool W) iClientFd with
  | None => Ok (false, W)
  | Some pstClient =>
      c ← client W pstClient;
      '(_, cp) ← RemoveClient (sv_pool W) (fun p => c ← client W p; Ok (GetClientFd c)) (GetClientSeq c);
      Ok (true, mk_server (sv_net W) cp (delete pstClient (sv_clients W)) (sv_next W) (sv_mem W))
  end.

(** The do-while loop of _ProcessMessageData, [fuel] rounds at most. *)
Fixpoint message_loop (fuel : nat) (now : nat → Z) (W : server) (iClientFd : Z) (pstClientCtx : nat)
    (pchBufferPtr : list Z) (iBufferNeedRead : Z) : res server :=
  match fuel with
  | O => Fault OutOfFuel
  | S fuel =>
      c ← client W pstClientCtx;
      '(iReadLen, b) ← PacketBufferRead (GetContextBuffer c) pchBufferPtr iBufferNeedRead;
      let W := set_client W pstClientCtx (SetContextBuffer c b) in
      let '(pchBufferPtr, iBufferNeedRead) :=
        if 0 <? iReadLen then (drop (Z.to_nat iReadLen) pchBufferPtr, i32 (iBufferNeedRead - iReadLen))
        else (pchBufferPtr, iBufferNeedRead) in
      '(iRet, W) ← ExecuteCmdRecvAllPacket now W pstClientCtx;
      if negb (iRet =? 0) then
        '(_, W) ← _ProcessCloseClient W iClientFd;
        Ok W
      else if 0 <? iBufferNeedRead then
        message_loop fuel now W iClientFd pstClientCtx pchBufferPtr iBufferNeedRead
      else Ok W
  end.

Definition _ProcessMessageData (fuel : nat) (now : nat → Z) (W : server) (iClientFd : Z)
    (rstMessage : socket_message) : res server :=
  match GetClientByFd (sv_pool W) iClientFd with
  | None => Ok W
  | Some pstClientCtx =>
      match msg_data rstMessage with
      | None => Ok W
      | Some data =>
          if msg_ud rstMessage <=? 0 then Ok W
          else message_loop fuel now W iClientFd pstClientCtx data (msg_ud rstMessage)
      end
  end.

(** One message of the poll; the second result is the id socket_server_start is
    called with, if it is. *)
Definition _ProcessOneLoop (fuel : nat) (now : nat → Z) (seq : Z) (W : server) (type : Z)
    (stMessage : socket_message) : res (server * option Z) :=
  if type =? SOCKET_ACCEPT then
    W ← _ProcessNewClient W seq (msg_ud stMessage) stMessage;
    Ok (W, Some (msg_ud stMessage))
  else if (type =? SOCKET_CLOSE) || (type =? SOCKET_ERROR) then
    '(_, W) ← _ProcessCloseClient W (msg_id stMessage);
    Ok (W, None)
  else if type =? SOCKET_DATA then
    W ← _ProcessMessageData fuel now W (msg_id stMessage) stMessage;
    Ok (W, None)
  else Ok (W, None).

(** ** Streams in chunks *)

Lemma partial_prefix (u v : list Z) : partial (u ++ v) → partial u.
Proof.
  intros (m & rest & Hm & Hne & Hf). exists m, (v ++ rest). split_and!; [done| |by rewrite app_assoc].
  intros [_ ?]%app_eq_nil. done.
Qed.

Lemma partial_nil : partial [].
Proof. exists (0, [0]), (frame 0 [0]). split_and!; try done. Qed.

Lemma partial_length l : partial l → Z.of_nat (length l) < 10244.
Proof.
  intros ([proto body] & rest & [_ Hb] & Hne & Hf). cbn [fst snd] in *.
  apply (f_equal length) in Hf. rewrite length_frame, length_app in Hf.
  destruct rest; [done|]. cbn in Hf. lia.
Qed.

(** A proper prefix of a frame does not start with a complete one. *)
Lemma partial_no_frame m l : msg_ok m → partial (frame m.1 m.2 ++ l) → False.
Proof.
  destruct m as [proto body]. cbn [fst snd]. intros [Hp Hb] Hpart. cbn [fst snd] in *.
  destruct (partial_incomplete _ [] Hpart) as [Hl|(size & x & E & Hlt)];
    rewrite ?length_app, ?length_frame in *; [lia|].
  assert (in_type int16_t (Z.of_nat (length body) + 4)) as Hsz by (apply in_type_i16; lia).
  destruct (UnpackInt_header (Z.of_nat (length body) + 4) proto (body ++ l ++ []) Hsz Hp) as [E1 _].
  unfold frame in E. rewrite <- !app_assoc in E. rewrite E1 in E. injection E as <- _. lia.
Qed.

(** Whatever prefix of a stream of frames has arrived, it is some complete
    frames and a proper prefix of the next one. *)
Lemma stream_split ms tail (u v : list Z) :
  Forall msg_ok ms → partial tail → u ++ v = frames ms ++ tail →
  ∃ ms1 ms2 tail1, ms = ms1 ++ ms2 ∧ u = frames ms1 ++ tail1 ∧ partial tail1 ∧
    tail1 ++ v = frames ms2 ++ tail.
Proof.
  intros Hok Ht. revert u. induction Hok as [|m ms Hm Hok IH]; intros u E.
  - exists [], [], u. split_and!; try done. apply (partial_prefix u v). by rewrite E.
  - rewrite frames_cons, <- app_assoc in E.
    destruct (decide (length u < length (frame m.1 m.2))%nat) as [Hlt|Hge].
    + exists [], (m :: ms), u. split_and!; try done; [|by rewrite E, frames_cons, <- app_assoc].
      exists m, (drop (length u) (frame m.1 m.2)). split_and!; [done| |].
      * intros Hn. apply (f_equal length) in Hn. rewrite length_drop, length_nil in Hn. lia.
      * apply (f_equal (take (length u))) in E. rewrite take_app_length, take_app_le in E by lia.
        rewrite E at 1. by rewrite take_drop.
    + pose proof (f_equal (take (length (frame m.1 m.2))) E) as E1.
      pose proof (f_equal (drop (length (frame m.1 m.2))) E) as E2.
      rewrite take_app_length, take_app_le in E1 by lia.
      rewrite drop_app_length, drop_app_le in E2 by lia.
      destruct (IH _ E2) as (ms1 & ms2 & tail1 & -> & Hu & Ht1 & Hv).
      exists (m :: ms1), ms2, tail1. split_and!; try done.
      rewrite frames_cons, <- app_assoc, <- Hu. rewrite <- E1 at 1. by rewrite take_drop.
Qed.

(** Client [p] is registered under [fd], its buffer holds [t], and the receive
    side holds [pks]. *)
Definition receiving {C} `{ClientContext C} (W : ServerContext C) (p : nat) (fd seq : Z) (O : gset mem_ptr) (pks : list packet)
    (t : list Z) : Prop :=
  GetClientByFd (sv_pool W) fd = Some p ∧ recv_inv (sv_mem W) O (sv_net W) pks ∧
  ∃ c, sv_clients W !! p = Some c ∧ holds_stream (GetContextBuffer c) t ∧
    cb_ulClientSeq (GetContextBuffer c) = seq ∧ cb_iClientFd (GetContextBuffer c) = fd.

Definition delivered (seq fd : Z) (ms : list (Z * list Z)) : list packet :=
  (fun m => mk_pkt seq fd m.1 m.2) <$> ms.

(** A client whose buffer changed to [b], with the same owner. *)
Lemma receiving_set_buffer {C} `{ClientContext C} (W : ServerContext C) p fd seq O pks t c b t' :
  receiving W p fd seq O pks t → sv_clients W !! p = Some c → same_client (GetContextBuffer c) b →
  holds_stream b t' → receiving (set_client W p (SetContextBuffer c b)) p fd seq O pks t'.
Proof.
  intros (Hfd & HR & c' & Hc & _ & Hseq & Hcfd) Hc' [H1 H2] Hb.
  rewrite Hc in Hc'. injection Hc' as ->. split; [done|]. split; [done|].
  eexists. cbn [set_client sv_clients]. rewrite lookup_insert_eq. split; [done|].
  rewrite get_set_buffer. split_and!; [done|congruence|congruence].
Qed.

(** Receiving changes the receive side and the contents of clients only. *)
Definition only_received {C} (W W' : ServerContext C) : Prop :=
  sv_pool W' = sv_pool W ∧ send_same (sv_net W) (sv_net W') ∧
  ∀ q, is_Some (sv_clients W !! q) → is_Some (sv_clients W' !! q).

Lemma only_received_refl {C} (W : ServerContext C) : only_received W W.
Proof. done. Qed.

Lemma only_received_trans {C} (W1 W2 W3 : ServerContext C) :
  only_received W1 W2 → only_received W2 W3 → only_received W1 W3.
Proof.
  intros (A1 & (A2 & A3 & A4 & A5) & A6) (B1 & (B2 & B3 & B4 & B5) & B6).
  split; [congruence|]. split; [|auto]. unfold send_same. split_and!; congruence.
Qed.

Lemma set_client_only_received {C} (W : ServerContext C) p c : only_received W (set_client W p c).
Proof.
  split; [done|]. split; [done|]. intros q Hq. cbn [set_client sv_clients].
  destruct (decide (p = q)) as [->|Hne]; [rewrite lookup_insert_eq; by eexists|by rewrite lookup_insert_ne].
Qed.

(** Unpacking moves the complete frames of a buffer to the receive queue. *)
Lemma ExecuteCmdRecvAllPacket_spec {C} `{ClientContext C} now (W : ServerContext C) p fd seq O pks ms tail :
  receiving W p fd seq O pks (frames ms ++ tail) → Forall msg_ok ms → partial tail →
  Z.of_nat (length pks + length ms) < 2147483648 →
  ∃ W' O', ExecuteCmdRecvAllPacket now W p = Ok (0, W') ∧ only_received W W' ∧
    receiving W' p fd seq O' (pks ++ delivered seq fd ms) tail ∧
    m_stNetPacketRecvPrepareQueue (sv_net W') = queue_Init ∧
    m_bHasSignal (m_stSignalExec (sv_net W')) =
      (bool_decide (ms ≠ []) || m_bHasSignal (m_stSignalExec (sv_net W))).
Proof.
  intros (Hfd & HR & c & Hc & Hs & Hseq & Hcfd) Hok Ht Hlen.
  unfold ExecuteCmdRecvAllPacket, client. rewrite Hc, bind_Ok.
  destruct (UnpackPacketToRecvQueue_spec now _ O _ pks _ ms tail HR Hs Hok Ht Hlen)
    as (b' & N' & P' & O' & EU & Hs' & [Hq1' Hq2'] & HR' & Hprep & Hsig).
  rewrite EU, bind_Ok. eexists _, O'. split; [done|]. split; [|split; [|done]].
  { destruct (set_client_only_received W p (SetContextBuffer c b')) as (A & _ & B).
    split; [done|]. split; [by apply UnpackPacketToRecvQueue_send_same in EU|done]. }
  split; [done|]. split.
  - cbn [set_net sv_mem sv_net]. unfold delivered.
    assert (pkt_of (GetContextBuffer c) <$> ms = (fun m => mk_pkt seq fd m.1 m.2) <$> ms) as <-; [|done].
    apply list_fmap_ext. intros _ m _. unfold pkt_of. congruence.
  - eexists. cbn [set_net set_client sv_clients]. rewrite lookup_insert_eq. split; [done|].
    rewrite get_set_buffer. split_and!; [done|congruence|congruence].
Qed.

Lemma _ProcessMessageData_spec fuel now W p fd seq O pks t id (chunk : list Z) ms tail :
  receiving W p fd seq O pks t → chunk ≠ [] →
  t ++ chunk = frames ms ++ tail → Forall msg_ok ms → partial tail →
  Z.of_nat (length t + length chunk) <= BUFFER_BYTES →
  Z.of_nat (length pks + length ms) < 2147483648 →
  ∃ W' O', _ProcessMessageData (S fuel) now W fd
      (mk_message id (Z.of_nat (length chunk)) (Some chunk)) = Ok W' ∧
    receiving W' p fd seq O' (pks ++ delivered seq fd ms) tail ∧ only_received W W' ∧
    m_stNetPacketRecvPrepareQueue (sv_net W') = queue_Init ∧
    (ms ≠ [] → m_bHasSignal (m_stSignalExec (sv_net W')) = true).
Proof.
  intros Hrcv Hne E Hok Ht Hfit Hlen. pose proof Hrcv as (Hfd & _ & c & Hc & Hs & _).
  unfold _ProcessMessageData. rewrite Hfd. cbn [msg_data msg_ud].
  assert (0 < length chunk)%nat by (destruct chunk; [done|cbn; lia]).
  destruct (Z.leb_spec (Z.of_nat (length chunk)) 0); [lia|].
  cbn [message_loop]. unfold client at 1. rewrite Hc, bind_Ok.
  destruct (PacketBufferRead_spec (GetContextBuffer c) t chunk [] Hs Hfit) as (b & Er & Hs1 & Hsame).
  rewrite app_nil_r in Er. rewrite Er, bind_Ok.
  rewrite (proj2 (Z.ltb_lt 0 (Z.of_nat (length chunk)))) by lia.
  rewrite Z.sub_diag. change (i32 0) with 0. rewrite E in Hs1.
  destruct (ExecuteCmdRecvAllPacket_spec now _ p fd seq O pks ms tail
    (receiving_set_buffer _ _ _ _ _ _ _ c b _ Hrcv Hc Hsame Hs1) Hok Ht Hlen)
    as (W' & O' & -> & Hf & HR' & Hprep & Hsig).
  rewrite bind_Ok. cbn [negb Z.eqb Z.ltb Z.compare]. exists W', O'. split; [done|]. split; [done|].
  split; [eapply only_received_trans; [apply set_client_only_received|exact Hf]|]. split; [done|].
  intros Hms. rewrite Hsig. apply orb_true_iff. left. by apply bool_decide_true.
Qed.

(** The messages of one connection, chunk by chunk. *)
Fixpoint feed (now : nat → Z) (W : server) (fd : Z) (chunks : list (list Z)) : res server :=
  match chunks with
  | [] => Ok W
  | chunk :: chunks =>
      W ← _ProcessMessageData 1 now W fd (mk_message fd (Z.of_nat (length chunk)) (Some chunk));
      feed now W fd chunks
  end.

(** Chunks that always fit beside an incomplete frame, in a buffer of 102400 bytes.  The
    source sets no such bound: its read buffer doubles ([oversized_chunk_hangs_receiver] is
    about the chunks that do not fit). *)
Definition chunk_ok (chunk : list Z) : Prop := chunk ≠ [] ∧ Z.of_nat (length chunk) <= 92156.

Lemma feed_spec now p fd seq chunks : ∀ W O pks t ms tail,
  receiving W p fd seq O pks t → Forall chunk_ok chunks →
  t ++ concat chunks = frames ms ++ tail → Forall msg_ok ms → partial t → partial tail →
  Z.of_nat (length pks + length ms) < 2147483648 →
  ∃ W' O', feed now W fd chunks = Ok W' ∧
    receiving W' p fd seq O' (pks ++ delivered seq fd ms) tail.
Proof.
  induction chunks as [|chunk chunks IH]; intros W O pks t ms tail HR Hck E Hok Hpt Hpl Hlen.
  - cbn [concat] in E. rewrite app_nil_r in E. subst t.
    destruct ms as [|m ms].
    + exists W, O. split; [done|]. unfold delivered. cbn. by rewrite app_nil_r.
    + exfalso. rewrite frames_cons, <- app_assoc in Hpt. apply Forall_cons_1 in Hok as [Hm _].
      by apply (partial_no_frame m (frames ms ++ tail)).
  - apply Forall_cons_1 in Hck as [[Hne Hc] Hck]. cbn [concat] in E. rewrite app_assoc in E.
    destruct (stream_split ms tail (t ++ chunk) (concat chunks) Hok Hpl E)
      as (ms1 & ms2 & tail1 & -> & Hu & Hp1 & Hv).
    apply Forall_app in Hok as [Hok1 Hok2]. rewrite length_app in Hlen.
    destruct (_ProcessMessageData_spec 0 now W p fd seq O pks t fd chunk ms1 tail1 HR Hne Hu Hok1 Hp1)
      as (W1 & O1 & E1 & HR1 & _).
    { pose proof (partial_length t Hpt). unfold BUFFER_BYTES, NETWORK_PACKET_BUFFER_READ_SIZE. lia. }
    { lia. }
    destruct (IH W1 O1 _ tail1 ms2 tail HR1 Hck Hv Hok2 Hp1 Hpl) as (W2 & O2 & E2 & HR2).
    { unfold delivered. rewrite length_app, length_fmap. lia. }
    exists W2, O2. cbn [feed]. rewrite E1, bind_Ok. split; [done|].
    unfold delivered in *. by rewrite fmap_app, app_assoc.
Qed.

Lemma feed_stream now p fd seq chunks W O ms :
  receiving W p fd seq O [] [] → Forall chunk_ok chunks → concat chunks = frames ms →
  Forall msg_ok ms → Z.of_nat (length ms) < 2147483648 →
  ∃ W' O', feed now W fd chunks = Ok W' ∧ receiving W' p fd seq O' (delivered seq fd ms) [].
Proof.
  intros HR Hck E Hok Hlen. apply (feed_spec now p fd seq chunks W O [] [] ms []); try done.
  - cbn. by rewrite E, app_nil_r.
  - apply partial_nil.
  - apply partial_nil.
Qed.

(** C36: framing does not depend on how the bytes arrive.  Let a connected
    client's buffered bytes followed by the chunks of the next SOCKET_DATA
    messages, each of 1 to 92156 bytes, be a well-formed stream of packets (bodies of 1 to 10240 bytes) and the
    beginning of another one.  Then the handlers end normally after each chunk
    and the receive queue has got exactly these packets, in order, with their
    protocol numbers and bodies unchanged and tagged with the client, and the
    buffer keeps exactly the incomplete rest. *)
Theorem chunked_stream_is_reassembled now p fd seq chunks W O pks t ms tail :
  receiving W p fd seq O pks t → Forall chunk_ok chunks →
  t ++ concat chunks = frames ms ++ tail → Forall msg_ok ms → partial t → partial tail →
  Z.of_nat (length pks + length ms) < 2147483648 →
  ∃ W' O', feed now W fd chunks = Ok W' ∧
    receiving W' p fd seq O' (pks ++ delivered seq fd ms) tail.
Proof. apply feed_spec. Qed.

(** A fresh server with one client. *)
Definition server_with (seq fd : Z) : server :=
  mk_server net_new (mk_cpool {[seq := 0%nat]} {[fd := 0%nat]})
    {[0%nat := SocketClientCtx_new seq fd]} 1 pool_new.

Lemma receiving_new seq fd : receiving (server_with seq fd) 0 fd 0 ∅ [] [].
Proof.
  split; [apply lookup_singleton_eq|]. split.
  - constructor.
    + apply pool_inv_new.
    + reflexivity.
    + reflexivity.
    + by left.
    + apply Forall_nil_2.
    + apply NoDup_nil_2.
    + intros q Hq. by apply not_elem_of_nil in Hq.
    + apply Forall2_nil_2.
  - eexists. split; [apply lookup_singleton_eq|]. split; [|done]. split; [|split; [done|by eexists]].
    change (m_chBuffer _) with (replicate (Z.to_nat BUFFER_BYTES) 0).
    by rewrite length_replicate, Z2Nat.id.
Qed.

Lemma chunked_stream_witness :
  let ms := [(7, [1; 2; 3]); (-1, [9])] in
  let chunks := [[0; 7; 0]; [7; 1; 2; 3; 0; 5]; [255; 255; 9; 0]] in
  ∃ W' O', feed (fun _ => 0) (server_with 77 5) 5 chunks = Ok W' ∧
    receiving W' 0 5 0 O' ([] ++ delivered 0 5 ms) [0].
Proof.
  apply (chunked_stream_is_reassembled (fun _ => 0) 0 5 0 _ _ ∅ [] []).
  - apply receiving_new.
  - repeat constructor; done.
  - reflexivity.
  - repeat constructor; done.
  - apply partial_nil.
  - exists (7, [1; 2; 3]), [7; 0; 7; 1; 2; 3]. split_and!; done.
  - done.
Defined.

(** ** Sending *)

(** The packets with their time stamps appended, as the receiver sees them. *)
Fixpoint stamped (now : nat → Z) (k : nat) (pks : list packet) : list (Z * list Z) :=
  match pks with
  | [] => []
  | pk :: pks => (pk_proto pk, pk_body pk ++ be_bytes 8 (now k)) :: stamped now (S k) pks
  end.

Lemma length_stamped now k pks : length (stamped now k pks) = length pks.
Proof. revert k. induction pks as [|pk pks IH]; intros k; cbn; [done|]. by rewrite IH. Qed.

Lemma stamped_ok now k pks :
  Forall (fun pk => in_type int16_t (pk_proto pk) ∧ Z.of_nat (length (pk_body pk)) <= 10232) pks →
  Forall msg_ok (stamped now k pks).
Proof.
  intros Hok. revert k. induction Hok as [|pk pks [Hp Hl] _ IH]; intros k; constructor; [|apply IH].
  split; [done|]. cbn [snd]. rewrite length_app, length_be_bytes. lia.
Qed.

Definition sendable (pk : packet) : Prop :=
  in_type int16_t (pk_proto pk) ∧ Z.of_nat (length (pk_body pk)) <= 10240.

Section Sending.
Context {C : Type} `{ClientContext C}.

(** The descriptor of the client a packet is sent to. *)
Definition dest_fd (W : ServerContext C) (to : packet → option nat) (pk : packet) : option Z :=
  p ← to pk; c ← sv_clients W !! p; Some (send_fd c pk).

Lemma send_each_spec now (W : ServerContext C) (target : NetPacketBuffer → option nat)
    (to : packet → option nat) v pks : ∀ k,
  queue_holds (sv_mem W) v pks → Forall sendable pks →
  (∀ b pk, packet_of (sv_mem W) b = Ok pk → target b = to pk) →
  (∀ pk p, to pk = Some p → is_Some (sv_clients W !! p)) →
  ∃ out, send_each now k W target v = Ok out ∧
    concat (snd <$> out) = frames (stamped now k (filter (fun pk => is_Some (to pk)) pks)) ∧
    fst <$> out = omap (dest_fd W to) pks.
Proof.
  intros k Hq Hs Hto Hcl. revert k Hs. induction Hq as [|b pk v pks Hpk Hq IH]; intros k Hs.
  - by exists [].
  - apply Forall_cons_1 in Hs as [[Hp Hl] Hs]. cbn [send_each]. rewrite (Hto b pk Hpk).
    rewrite filter_cons. destruct (to pk) as [p|] eqn:Ep.
    + destruct (Hcl pk p Ep) as [c Hc]. unfold client. rewrite Hc, bind_Ok.
      rewrite (send_frames (sv_mem W) (now k) c b pk Hpk Hp Hl). rewrite bind_Ok.
      destruct (IH (S k) Hs) as (out & -> & Ho & Hfd). rewrite bind_Ok. eexists. split; [done|].
      rewrite decide_True by (by eexists). rewrite !fmap_cons. cbn [concat snd fst]. rewrite Ho.
      split; [done|]. cbn [omap list_omap]. unfold dest_fd at 1. rewrite Ep. cbn [mbind option_bind].
      rewrite Hc. cbn. by rewrite Hfd.
    + rewrite decide_False by (by intros [? ?]). destruct (IH k Hs) as (out & Eo & Ho & Hfd).
      exists out. split; [done|]. split; [done|]. cbn [omap list_omap]. unfold dest_fd at 1.
      by rewrite Ep.
Qed.

(** The send side: packets in the cache and then in the send queue. *)
Record send_inv (P : CPacketMemoryPool) (O : gset mem_ptr) (N : NetworkContext) (pks : list packet)
    : Prop := {
  si_pool : pool_inv P O;
  si_lock : unlocked (m_stWriteLock N);
  si_count : m_vecPacketPool (m_stNetPacketSendCache N) = [] ∨ 0 < m_iPacketNum (m_stNetPacketSendCache N);
  si_backed : backed (m_vecPacketPool (m_stNetPacketSendCache N) ++ m_vecPacketPool (m_stNetPacketSendQueue N));
  si_nodup : NoDup (ptrs (m_vecPacketPool (m_stNetPacketSendCache N) ++
                          m_vecPacketPool (m_stNetPacketSendQueue N)));
  si_owned : ∀ p, p ∈ ptrs (m_vecPacketPool (m_stNetPacketSendCache N) ++
                            m_vecPacketPool (m_stNetPacketSendQueue N)) → p ∈ O;
  si_holds : queue_holds P (m_vecPacketPool (m_stNetPacketSendCache N) ++
                            m_vecPacketPool (m_stNetPacketSendQueue N)) pks
}.

(** Both queues are empty and their memory is released. *)
Definition all_sent (P : CPacketMemoryPool) (O : gset mem_ptr) (N N' : NetworkContext) : Prop :=
  send_inv P (O ∖ list_to_set (ptrs (m_vecPacketPool (m_stNetPacketSendCache N) ++
                                     m_vecPacketPool (m_stNetPacketSendQueue N)))) N' [].

Lemma send_all_spec now (W : ServerContext C) (target : NetPacketBuffer → option nat)
    (to : packet → option nat) O pks :
  send_inv (sv_mem W) O (sv_net W) pks → Forall sendable pks →
  (∀ b pk, packet_of (sv_mem W) b = Ok pk → target b = to pk) →
  (∀ pk p, to pk = Some p → is_Some (sv_clients W !! p)) →
  ∃ N0 k out W', PacketSendPrepareCache (sv_net W) = Ok (k, N0) ∧
    send_loop 1 now 1 (set_net W N0 (sv_mem W)) target = Ok (0, out, W') ∧
    concat (snd <$> out) = frames (stamped now 1 (filter (fun pk => is_Some (to pk)) pks)) ∧
    fst <$> out = omap (dest_fd W to) pks ∧
    all_sent (sv_mem W') O (sv_net W) (sv_net W').
Proof.
  intros [S1 S2 S3 S4 S5 S6 S7] Hs Hto Hcl.
  unfold PacketSendPrepareCache at 1. rewrite (spinlock_lock_free _ S2), bind_Ok, CopyFrom_spec by done.
  cbv zeta iota beta. set (v := m_vecPacketPool _ ++ _) in *.
  match goal with |- context [Ok (?k, set_write_lock ?N ?l)] =>
    set (N0 := set_write_lock N l); exists N0, k end.
  destruct (send_each_spec now (set_net W N0 (sv_mem W)) target to v pks 1 S7 Hs Hto Hcl)
    as (out & Eo & Ho & Hfd).
  destruct (release_packets_spec v (sv_mem W) O S1 S4 S5 S6) as (P' & EP & HI' & _).
  exists out. eexists. split; [done|]. cbn [send_loop]. split.
  - change (m_vecPacketPool (m_stNetPacketSendCache (sv_net (set_net W N0 (sv_mem W))))) with v.
    rewrite Eo, bind_Ok. unfold ReleaseAllPackets.
    change (m_vecPacketPool (m_stNetPacketSendCache (sv_net (set_net W N0 (sv_mem W))))) with v.
    cbn [set_net sv_mem].
    rewrite EP, !bind_Ok. unfold PacketSendPrepareCache.
    cbn [set_send set_write_lock m_stWriteLock m_stNetPacketSendCache m_stNetPacketSendQueue
         m_stNetPacketSendPrepareQueue].
    change (spinlock_lock _) with (Ok (mk_spinlock 1)). rewrite bind_Ok, CopyFrom_spec by (by left).
    cbn [m_vecPacketPool queue_Init app length m_iPacketNum].
    change (i32 (Z.of_nat 0)) with 0. rewrite bind_Ok. done.
  - split; [done|]. split; [exact Hfd|]. constructor; try done.
    + by left.
    + apply Forall_nil_2.
    + apply NoDup_nil_2.
    + intros p Hp. by apply not_elem_of_nil in Hp.
    + apply Forall2_nil_2.
Qed.

End Sending.

Lemma packet_of_seq P b pk : packet_of P b = Ok pk → m_ulClientSeq b = pk_seq pk.
Proof. unfold packet_of. intros E. inv_res. done. Qed.

(** Every pointer of the client table leads to a client. *)
Definition clients_live {C} (W : ServerContext C) : Prop :=
  ∀ seq p, GetClient (sv_pool W) seq = Some p → is_Some (sv_clients W !! p).

Lemma server_send_spec {C} `{ClientContext C} now (W : ServerContext C) O pks :
  send_inv (sv_mem W) O (sv_net W) pks → Forall sendable pks →
  (∀ seq p, GetClient (sv_pool W) seq = Some p → is_Some (sv_clients W !! p)) →
  ∃ out W', server_ExecuteCmdSendAllPacket now W = Ok (0, out, W') ∧
    concat (snd <$> out) =
      frames (stamped now 1 (filter (fun pk => is_Some (GetClient (sv_pool W) (pk_seq pk))) pks)) ∧
    fst <$> out = omap (dest_fd W (fun pk => GetClient (sv_pool W) (pk_seq pk))) pks ∧
    all_sent (sv_mem W') O (sv_net W) (sv_net W').
Proof.
  intros HS Hok Hcl.
  destruct (send_all_spec now W (fun b => GetClient (sv_pool W) (m_ulClientSeq b))
    (fun pk => GetClient (sv_pool W) (pk_seq pk)) O pks HS Hok)
    as (N0 & k & out & W' & E1 & E2 & Ho & Hfd & Hs).
  - intros b pk Hpk. by rewrite (packet_of_seq _ b pk Hpk).
  - intros pk p. apply Hcl.
  - exists out, W'. unfold server_ExecuteCmdSendAllPacket. by rewrite E1, bind_Ok.
Qed.

(** The send command writes every queued packet whose client is known.
    The packets of the send cache and the send queue are written in order, each
    as a frame of its body and an 8-byte time stamp, to the descriptor of its
    client; packets of unknown clients are skipped; all packet memory is returned to
    the pool, both queues end empty, and the call returns 0 after one round. *)
Theorem server_sends_to_known_clients {C} `{ClientContext C} now (W : ServerContext C) O pks :
  send_inv (sv_mem W) O (sv_net W) pks → Forall sendable pks →
  (∀ seq p, GetClient (sv_pool W) seq = Some p → is_Some (sv_clients W !! p)) →
  ∃ out W', server_ExecuteCmdSendAllPacket now W = Ok (0, out, W') ∧
    concat (snd <$> out) =
      frames (stamped now 1 (filter (fun pk => is_Some (GetClient (sv_pool W) (pk_seq pk))) pks)) ∧
    fst <$> out = omap (dest_fd W (fun pk => GetClient (sv_pool W) (pk_seq pk))) pks ∧
    all_sent (sv_mem W') O (sv_net W) (sv_net W').
Proof. apply server_send_spec. Qed.

(** A server whose send queue holds packets for a known and an unknown
    client. *)
Definition send_demo : res server :=
  '(_, q, P) ← AddPacket pool_new queue_Init 0 77 5 3 2 [10; 11];
  '(_, q, P) ← AddPacket P q 0 99 6 4 1 [12];
  Ok (mk_server (set_send net_new queue_Init q queue_Init) (mk_cpool {[77 := 0%nat]} {[5 := 0%nat]})
        {[0%nat := SocketClientCtx_new 77 5]} 1 P).

Lemma send_demo_ok : ∃ W O, send_demo = Ok W ∧
  sv_pool W = mk_cpool {[77 := 0%nat]} {[5 := 0%nat]} ∧
  sv_clients W = {[0%nat := SocketClientCtx_new 77 5]} ∧
  send_inv (sv_mem W) O (sv_net W) [mk_pkt 77 5 3 [10; 11]; mk_pkt 99 6 4 [12]].
Proof.
  unfold send_demo.
  destruct (AddPacket_spec pool_new ∅ queue_Init 0 77 5 3 2 [10; 11] [10; 11] pool_inv_new ltac:(lia) eq_refl)
    as (p & P1 & b & -> & Hb & Hp & HI1 & Hf1 & Hpk1). rewrite bind_Ok.
  destruct (AddPacket_spec P1 _ (mk_net_queue (i32 (m_iPacketNum queue_Init + 1)) (m_vecPacketPool queue_Init ++ [b]))
    0 99 6 4 1 [12] [12] HI1 ltac:(lia) eq_refl)
    as (p' & P2 & b' & -> & Hb' & Hp' & HI2 & Hf2 & Hpk2). rewrite bind_Ok.
  eexists _, _. split; [done|]. split; [done|]. split; [done|].
  cbn [sv_mem sv_net]. assert (p ∈ ({[p]} ∪ ∅ : gset mem_ptr)) as Hin
    by (apply elem_of_union_l; by apply elem_of_singleton).
  constructor; cbn [set_send m_stNetPacketSendCache m_stNetPacketSendQueue m_vecPacketPool queue_Init app];
    unfold ptrs; cbn [omap list_omap]; rewrite ?Hb, ?Hb'.
  - exact HI2.
  - done.
  - by left.
  - repeat constructor; by eexists.
  - apply NoDup_cons_2; [|apply NoDup_singleton]. intros ->%list_elem_of_singleton. done.
  - intros q Hq. apply elem_of_cons in Hq as [->|Hq]; [by apply elem_of_union_r|].
    apply list_elem_of_singleton in Hq as ->. apply elem_of_union_l. by apply elem_of_singleton.
  - constructor; [|constructor; [done|constructor]].
    apply (packet_of_frame P1 P2 b p); [done| |done]. by apply Hf2.
Qed.

Lemma server_sends_witness :
  ∃ W O out W', send_demo = Ok W ∧ server_ExecuteCmdSendAllPacket (fun _ => 258) W = Ok (0, out, W') ∧
    concat (snd <$> out) = [0; 14; 0; 3; 10; 11; 0; 0; 0; 0; 0; 0; 1; 2] ∧
    all_sent (sv_mem W') O (sv_net W) (sv_net W').
Proof.
  destruct send_demo_ok as (W & O & E & Ep & Ec & HS).
  destruct (server_sends_to_known_clients (fun _ => 258) W O _ HS) as (out & W' & E' & Ho & _ & Hs).
  - repeat constructor; done.
  - intros seq p. rewrite Ep, Ec. unfold GetClient. cbn [m_stClientSeqPool]. intros [_ <-]%lookup_singleton_Some.
    rewrite lookup_singleton_eq. by eexists.
  - exists W, O, out, W'. rewrite Ep in Ho. split_and!; [exact E|exact E'| |exact Hs].
    rewrite Ho. reflexivity.
Defined.

Lemma connector_send_spec {C} `{ClientContext C} now (W : ServerContext C) O pks p :
  send_inv (sv_mem W) O (sv_net W) pks → is_Some (sv_clients W !! p) → Forall sendable pks →
  ∃ out W', connector_ExecuteCmdSendAllPacket now W (Some p) = Ok (0, out, W') ∧
    all_sent (sv_mem W') O (sv_net W) (sv_net W') ∧
    concat (snd <$> out) = frames (stamped now 1 pks) ∧
    fst <$> out = omap (dest_fd W (fun _ => Some p)) pks.
Proof.
  intros HS Hp Hok.
  destruct (send_all_spec now W (fun _ => Some p) (fun _ => Some p) O pks HS Hok)
    as (N0 & k & out & W' & E1 & E2 & Ho & Hfd & Hs).
  - done.
  - by intros pk q [= <-].
  - exists out, W'. unfold connector_ExecuteCmdSendAllPacket. rewrite E1, bind_Ok.
    rewrite filter_all in Ho by (by eexists). done.
Qed.

(** C37: packets survive the connection.  What a connector's send command
    writes for packets with bodies of at most 10232 bytes, cut into chunks of 1 to
    92156 bytes and handed to a server that has the connection registered and
    nothing received on it, arrives as exactly the queued packets, in order, each
    body with its time stamp appended.  Larger bodies are sent and refused
    ([largest_packets_are_refused]), larger chunks may never be consumed
    ([oversized_chunk_hangs_receiver]). *)
Theorem sent_packets_arrive {C} `{ClientContext C} now now' (W : ServerContext C) O pks p
    (S : server) ps fd seq Os chunks :
  send_inv (sv_mem W) O (sv_net W) pks → is_Some (sv_clients W !! p) →
  Forall (fun pk => in_type int16_t (pk_proto pk) ∧ Z.of_nat (length (pk_body pk)) <= 10232) pks →
  Z.of_nat (length pks) < 2147483648 → receiving S ps fd seq Os [] [] →
  ∃ out W', connector_ExecuteCmdSendAllPacket now W (Some p) = Ok (0, out, W') ∧
    all_sent (sv_mem W') O (sv_net W) (sv_net W') ∧
    concat (snd <$> out) = frames (stamped now 1 pks) ∧
    (Forall chunk_ok chunks → concat chunks = concat (snd <$> out) →
     ∃ S' Os', feed now' S fd chunks = Ok S' ∧
       receiving S' ps fd seq Os' (delivered seq fd (stamped now 1 pks)) []).
Proof.
  intros HS Hp Hok Hlen HR.
  destruct (connector_send_spec now W O pks p HS Hp) as (out & W' & E & Hs & Ho & _).
  { eapply list.Forall_impl; [exact Hok|]. intros pk [? ?]. split; [done|lia]. }
  exists out, W'. split; [done|]. split; [done|]. split; [done|]. intros Hck Ec.
  destruct (feed_stream now' ps fd seq chunks S Os (stamped now 1 pks) HR Hck) as (S' & Os' & E' & HR').
  - by rewrite Ec, Ho.
  - by apply stamped_ok.
  - by rewrite length_stamped.
  - exists S', Os'. done.
Qed.

Lemma sent_packets_witness :
  ∃ W O out W', send_demo = Ok W ∧
    connector_ExecuteCmdSendAllPacket (fun _ => 258) W (Some 0%nat) = Ok (0, out, W') ∧
    all_sent (sv_mem W') O (sv_net W) (sv_net W') ∧
    ∃ S' Os', feed (fun _ => 0) (server_with 8 9) 9 [concat (snd <$> out)] = Ok S' ∧
      receiving S' 0 9 0 Os' (delivered 0 9 (stamped (fun _ => 258) 1
        [mk_pkt 77 5 3 [10; 11]; mk_pkt 99 6 4 [12]])) [].
Proof.
  destruct send_demo_ok as (W & O & E & Ep & Ec & HS).
  destruct (sent_packets_arrive (fun _ => 258) (fun _ => 0) W O
    [mk_pkt 77 5 3 [10; 11]; mk_pkt 99 6 4 [12]] 0 (server_with 8 9) 0 9 0 ∅
    [frames (stamped (fun _ => 258) 1 [mk_pkt 77 5 3 [10; 11]; mk_pkt 99 6 4 [12]])])
    as (out & W' & E' & Hs & Ho & Hfeed).
  - exact HS.
  - rewrite Ec, lookup_singleton_eq. by eexists.
  - repeat constructor; done.
  - done.
  - apply receiving_new.
  - exists W, O, out, W'. split; [exact E|]. split; [exact E'|]. split; [exact Hs|].
    rewrite Ho. apply Hfeed.
    + repeat constructor; done.
    + rewrite Ho. reflexivity.
Defined.

(** ** What the receiver does with malformed streams *)

(** A buffer with given contents. *)
Definition cbuf_with (seq fd : Z) (l : list Z) : ST_ClientContextBuffer :=
  mk_cbuf seq fd [] (Z.of_nat (length l)) (l ++ replicate (Z.to_nat BUFFER_BYTES - length l) 0).

Lemma cbuf_with_holds seq fd l :
  Z.of_nat (length l) <= BUFFER_BYTES → holds_stream (cbuf_with seq fd l) l.
Proof.
  intros Hl. split; [|split; [done|by eexists]].
  unfold cbuf_with. cbn [m_chBuffer]. rewrite length_app, length_replicate. lia.
Qed.

(** A header whose size field is below the header size. *)
Definition bad_header (l : list Z) : Prop :=
  (4 <= length l)%nat ∧ ∃ size x, UnpackInt int16_t l 2 = Ok (size, x) ∧ size < 4.

Lemma UnpackInt_prefix (l r : list Z) size x :
  (2 <= length l)%nat → UnpackInt int16_t l 2 = Ok (size, x) →
  UnpackInt int16_t (l ++ r) 2 = Ok (size, x ++ r).
Proof.
  intros Hl. unfold UnpackInt. change (sizeof int16_t <? u64 2) with false. cbv iota.
  rewrite !mem_read_Ok by len. rewrite !bind_Ok, !drop_0.
  change (Z.to_nat 2) with 2%nat. rewrite take_app_le, drop_app_le by lia. cbn [Z.eqb Pos.eqb].
  by intros [= <- <-].
Qed.

(** Such a header stays at the front of the buffer. *)
Lemma Unpack_bad_header now P O N pks b l :
  recv_inv P O N pks → holds_stream b l → bad_header l → Z.of_nat (length pks) < 2147483648 →
  ∃ b' N', UnpackPacketToRecvQueue now P N b = Ok (0, b', N', P) ∧
    holds_stream b' l ∧ recv_inv P O N' pks.
Proof.
  intros HR Hs (Hl & size & x & Eu & Hlt) Hlen. pose proof Hs as (Hbl & Hbs & junk & Hb).
  unfold UnpackPacketToRecvQueue. cbn [unpack_loop]. unfold NETWORK_PACKET_HEADER_SIZE.
  destruct (Z.ltb_spec (cb_iBufferSize b) (2 * 2)); [lia|].
  change (Z.to_nat 0) with 0%nat. rewrite drop_0, Hb, (UnpackInt_prefix l junk size x), bind_Ok by (done || lia).
  assert (((cb_iBufferSize b <? size) || (size <? 2 * 2)) = true) as ->.
  { apply orb_true_iff. right. apply Z.ltb_lt. lia. }
  rewrite bind_Ok, Hbs.
  destruct (MoveBufferPtr_spec b [] l Hs) as (b' & Em & Hs' & _). change (Z.of_nat (length [])) with 0 in Em.
  rewrite Em, bind_Ok.
  pose proof (added_nil P O (ri_pool P O N pks HR)) as Had.
  destruct (recv_prepare_spec P O N pks P [] [] (m_iPacketNum (m_stNetPacketRecvPrepareQueue N)) HR Had)
    as (N' & k & E & HR' & _ & _); [cbn; lia|].
  rewrite app_nil_r in E. replace (mk_net_queue _ _) with (m_stNetPacketRecvPrepareQueue N) in E
    by (by destruct (m_stNetPacketRecvPrepareQueue N)).
  rewrite E, bind_Ok. cbn [Z.ltb Z.compare]. rewrite bind_Ok. eexists _, _. split; [done|].
  split; [done|]. rewrite app_nil_r in HR'.
  change (list_to_set (ptrs [])) with (∅ : gset mem_ptr) in HR'. by rewrite union_empty_l_L in HR'.
Qed.

(** C40: a client can hang the receiving thread.  Once a client's buffer starts
    with a header whose size field is below 4 (two zero bytes, or a negative
    size), a chunk that does not fit into the rest of the buffer is never
    consumed: the do-while loop of _ProcessMessageData repeats for ever,
    whatever number of rounds it is given. *)
Theorem bad_header_hangs_receiver fuel now W p fd seq O pks l id (chunk : list Z) :
  receiving W p fd seq O pks l → bad_header l → Z.of_nat (length pks) < 2147483648 →
  BUFFER_BYTES < Z.of_nat (length l + length chunk) → Z.of_nat (length chunk) < 2147483648 →
  _ProcessMessageData fuel now W fd (mk_message id (Z.of_nat (length chunk)) (Some chunk)) =
  Fault OutOfFuel.
Proof.
  intros (Hfd & HR & c & Hc & Hs & _) Hbad Hlen Hbig Hint.
  pose proof (holds_stream_length _ _ Hs) as Hmax.
  unfold _ProcessMessageData. rewrite Hfd. cbn [msg_data msg_ud].
  destruct (Z.leb_spec (Z.of_nat (length chunk)) 0); [lia|].
  assert (∃ c, sv_clients W !! p = Some c ∧ holds_stream (GetContextBuffer c) l) as Hcl by eauto.
  clear c Hc Hs Hfd. revert W O HR Hcl. induction fuel as [|fuel IH]; intros W O HR (c & Hc & Hs); [done|].
  cbn [message_loop]. unfold client at 1. rewrite Hc, bind_Ok.
  pose proof Hs as (Hbl & Hbs & _). unfold PacketBufferRead. rewrite Hbl, Hbs.
  unfold BUFFER_BYTES, NETWORK_PACKET_BUFFER_READ_SIZE in *. rewrite swrap_small by (simpl; lia).
  destruct (Z.ltb_spec (10 * 1024 * 10 - Z.of_nat (length l)) (Z.of_nat (length chunk))); [|lia].
  rewrite bind_Ok. cbn [Z.ltb Z.compare]. unfold ExecuteCmdRecvAllPacket, client, set_client.
  cbn [sv_clients sv_mem sv_net]. rewrite lookup_insert_eq, bind_Ok, get_set_buffer.
  destruct (Unpack_bad_header now _ O _ pks _ l HR Hs Hbad Hlen) as (b' & N' & -> & Hs' & HR').
  rewrite !bind_Ok. cbn [negb Z.eqb]. rewrite (proj2 (Z.ltb_lt 0 (Z.of_nat (length chunk)))) by lia.
  apply (IH _ O).
  - exact HR'.
  - eexists. cbn [set_net sv_clients]. rewrite lookup_insert_eq. split; [done|]. by rewrite get_set_buffer.
Qed.

(** A chunk that does not fit beside the incomplete frame in the buffer is never consumed
    either: the loop of _ProcessMessageData repeats for ever.  A chunk may be as large as
    the read buffer of its socket, which doubles to 131072 bytes and beyond. *)
Theorem oversized_chunk_hangs_receiver fuel now W p fd seq O pks t id (chunk : list Z) :
  receiving W p fd seq O pks t → partial t → Z.of_nat (length pks) < 2147483648 →
  BUFFER_BYTES < Z.of_nat (length t + length chunk) → Z.of_nat (length chunk) < 2147483648 →
  _ProcessMessageData fuel now W fd (mk_message id (Z.of_nat (length chunk)) (Some chunk)) =
  Fault OutOfFuel.
Proof.
  intros Hrcv Hpt Hlen Hbig Hint. pose proof Hrcv as (Hfd & _ & c & _ & Hs & _).
  pose proof (holds_stream_length _ _ Hs) as Hmax. clear c Hs.
  unfold _ProcessMessageData. rewrite Hfd. cbn [msg_data msg_ud].
  destruct (Z.leb_spec (Z.of_nat (length chunk)) 0); [lia|]. clear Hfd.
  revert W O Hrcv. induction fuel as [|fuel IH]; intros W O Hrcv; [done|].
  pose proof Hrcv as (_ & _ & c & Hc & Hs & _). pose proof Hs as (Hbl & Hbs & _).
  cbn [message_loop]. unfold client at 1. rewrite Hc, bind_Ok. unfold PacketBufferRead. rewrite Hbl, Hbs.
  unfold BUFFER_BYTES, NETWORK_PACKET_BUFFER_READ_SIZE in *. rewrite swrap_small by (simpl; lia).
  destruct (Z.ltb_spec (10 * 1024 * 10 - Z.of_nat (length t)) (Z.of_nat (length chunk))); [|lia].
  rewrite bind_Ok. cbn [Z.ltb Z.compare].
  destruct (ExecuteCmdRecvAllPacket_spec now (set_client W p (SetContextBuffer c (GetContextBuffer c))) p fd seq O pks [] t)
    as (W' & O' & -> & _ & HR' & _); [|by constructor|done|cbn; lia|].
  { eapply receiving_set_buffer; [exact Hrcv|exact Hc|done|exact Hs]. }
  rewrite bind_Ok. cbn [negb Z.eqb]. rewrite (proj2 (Z.ltb_lt 0 (Z.of_nat (length chunk)))) by lia.
  apply (IH _ O'). unfold delivered in HR'. cbn in HR'. by rewrite app_nil_r in HR'.
Qed.

(** Four zero bytes, and then a chunk as large as the buffer. *)
Lemma bad_header_witness :
  ∃ W O, receiving W 0 5 0 O [] [0; 0; 0; 0] ∧
    _ProcessMessageData 1000 (fun _ => 0) W 5 (mk_message 5 102400 (Some (replicate (Z.to_nat 102400) 0))) =
    Fault OutOfFuel.
Proof.
  set (W := mk_server net_new (mk_cpool {[77 := 0%nat]} {[5 := 0%nat]})
    {[0%nat := mk_socket_client 77 (cbuf_with 0 5 [0; 0; 0; 0])]} 1 pool_new : server).
  assert (receiving W 0 5 0 ∅ [] [0; 0; 0; 0]) as HR.
  { destruct (receiving_new 77 5) as (_ & HN & _). split; [apply lookup_singleton_eq|]. split; [exact HN|].
    eexists. split; [apply lookup_singleton_eq|]. split; [by apply cbuf_with_holds|done]. }
  exists W, ∅. split; [exact HR|].
  pose proof (bad_header_hangs_receiver 1000 (fun _ => 0) W 0 5 0 ∅ [] [0; 0; 0; 0] 5
    (replicate (Z.to_nat 102400) 0)) as Hh.
  rewrite length_replicate, Z2Nat.id in Hh by done. apply Hh; clear Hh.
  - exact HR.
  - split; [cbn; lia|]. exists 0, [0; 0]. split; [reflexivity|lia].
  - done.
  - change (length [0; 0; 0; 0]) with 4%nat. unfold BUFFER_BYTES, NETWORK_PACKET_BUFFER_READ_SIZE. lia.
  - lia.
Defined.

(** The largest packets cannot be received.  A sender accepts bodies up to
    10240 bytes and adds the time stamp; a frame sent with more than 10232
    bytes is refused by the receiver with -3. *)
Theorem largest_packets_are_refused now t P O N pks b proto (body rest : list Z) :
  recv_inv P O N pks → holds_stream b (frame proto (body ++ be_bytes 8 t) ++ rest) →
  in_type int16_t proto → 10232 < Z.of_nat (length body) <= 10240 →
  ∃ b' N' P', UnpackPacketToRecvQueue now P N b = Ok (-3, b', N', P').
Proof.
  intros HR (Hbl & Hbs & junk & Hb) Hp Hlen. unfold UnpackPacketToRecvQueue. cbn [unpack_loop].
  rewrite Hbs. unfold NETWORK_PACKET_HEADER_SIZE, NETWORK_PACKET_BUFFER_MAX_SIZE.
  set (bd := body ++ be_bytes 8 t) in *.
  assert (length bd = length body + 8)%nat as Hbd by (unfold bd; len).
  rewrite length_app, length_frame.
  destruct (Z.ltb_spec (Z.of_nat (4 + length bd + length rest)) (2 * 2)); [lia|].
  change (Z.to_nat 0) with 0%nat. rewrite drop_0, Hb. unfold frame.
  assert (in_type int16_t (Z.of_nat (length bd) + 4)) as Hsz by (apply in_type_i16; lia).
  destruct (UnpackInt_header (Z.of_nat (length bd) + 4) proto (bd ++ rest ++ junk) Hsz Hp) as [E1 E2].
  rewrite <- !app_assoc, E1, bind_Ok.
  destruct (Z.ltb_spec (Z.of_nat (4 + length bd + length rest)) (Z.of_nat (length bd) + 4)); [lia|].
  destruct (Z.ltb_spec (Z.of_nat (length bd) + 4) (2 * 2)); [lia|]. cbn [orb].
  rewrite E2, bind_Ok. rewrite swrap_small by (simpl; lia).
  destruct (Z.leb_spec (Z.of_nat (length bd) + 4 - 2 * 2) 0); [lia|].
  destruct (Z.ltb_spec 10240 (Z.of_nat (length bd) + 4 - 2 * 2)); [|lia].
  rewrite bind_Ok. by eexists _, _, _.
Qed.

Lemma largest_packets_witness :
  ∃ b' N' P', UnpackPacketToRecvQueue (fun _ => 0) pool_new net_new
    (cbuf_with 0 5 (frame 1 (replicate (Z.to_nat 10233) 7 ++ be_bytes 8 0) ++ [])) = Ok (-3, b', N', P').
Proof.
  destruct (receiving_new 77 5) as (_ & HN & _).
  apply (largest_packets_are_refused (fun _ => 0) 0 pool_new ∅ net_new [] _ 1 (replicate (Z.to_nat 10233) 7) []).
  - exact HN.
  - apply cbuf_with_holds. rewrite length_app, length_frame, length_app, length_replicate, length_be_bytes.
    cbn [length]. unfold BUFFER_BYTES, NETWORK_PACKET_BUFFER_READ_SIZE. lia.
  - reflexivity.
  - rewrite length_replicate. lia.
Defined.

(** ** Clients that come and go *)

(** Both maps lead to the client object. *)
Definition registered (W : server) (fd : Z) (p : nat) (c : SocketClientCtx) : Prop :=
  GetClientByFd (sv_pool W) fd = Some p ∧ GetClient (sv_pool W) (GetClientSeq c) = Some p ∧
  sv_clients W !! p = Some c ∧ GetClientFd c = fd.

Lemma strlen_nul (ip rest : list Z) :
  Forall (fun x => x ≠ 0) ip → strlen (ip ++ 0 :: rest) = Ok (Z.of_nat (length ip)).
Proof.
  induction 1 as [|x ip Hx _ IH]; [done|]. cbn [strlen app].
  destruct (Z.eqb_spec x 0); [done|]. rewrite IH, bind_Ok. f_equal. cbn. lia.
Qed.

Lemma SetClientIP_spec c (ip rest : list Z) :
  length (cb_chClientIP (sc_stContextBuffer c)) = 64%nat → (length ip <= 64)%nat →
  ∃ c', SetClientIP c (ip ++ 0 :: rest) (Z.of_nat (length ip)) = Ok c' ∧
    sc_ulClientUniqSeq c' = sc_ulClientUniqSeq c ∧
    length (cb_chClientIP (sc_stContextBuffer c')) = 64%nat ∧
    cb_ulClientSeq (sc_stContextBuffer c') = cb_ulClientSeq (sc_stContextBuffer c) ∧
    cb_iClientFd (sc_stContextBuffer c') = cb_iClientFd (sc_stContextBuffer c) ∧
    ∀ l, holds_stream (sc_stContextBuffer c) l → holds_stream (sc_stContextBuffer c') l.
Proof.
  intros Hip Hl. unfold SetClientIP, NETWORK_SERVER_IP_ADDRESS_LEN. rewrite Hip.
  destruct (Z.ltb_spec 64 (Z.of_nat (length ip))); [lia|].
  rewrite mem_read_Ok by len. rewrite bind_Ok. change (Z.to_nat 0) with 0%nat.
  rewrite drop_0, Nat2Z.id, take_app_length. rewrite mem_write_Ok by len. rewrite bind_Ok.
  eexists. split; [done|]. split_and!; try done. cbn [sc_stContextBuffer cb_chClientIP].
  rewrite length_splice by len. by rewrite length_replicate.
Qed.

(** Accepting a connection.  A SOCKET_ACCEPT for a new descriptor creates a
    client with an empty buffer that both maps lead to; all other clients and
    the packets received so far stay.  The packets of such a client carry the
    sequence number 0, not the client's own: its buffer is never given one, so
    a reply addressed to a packet's sender finds no client. *)
Theorem accepted_client_is_registered W O pks seq fd id (ip rest : list Z) :
  recv_inv (sv_mem W) O (sv_net W) pks → GetClientByFd (sv_pool W) fd = None →
  GetClient (sv_pool W) seq = None → Forall (fun x => x ≠ 0) ip → (length ip <= 64)%nat →
  ∃ W' c, _ProcessNewClient W seq fd (mk_message id fd (Some (ip ++ 0 :: rest))) = Ok W' ∧
    registered W' fd (sv_next W) c ∧ GetClientSeq c = seq ∧
    receiving W' (sv_next W) fd 0 O pks [] ∧
    (∀ p, p ≠ sv_next W → sv_clients W' !! p = sv_clients W !! p).
Proof.
  intros HR Hfd Hseq Hip Hl. unfold _ProcessNewClient. cbn [msg_data].
  rewrite strlen_nul, bind_Ok, Hfd by done.
  destruct (SetClientIP_spec (SocketClientCtx_new seq fd) ip rest) as (c1 & -> & Q1 & Q2 & Q3 & Q4 & Q5);
    [done|done|]. rewrite !bind_Ok. unfold client. cbn [sv_clients]. rewrite lookup_insert_eq, bind_Ok.
  destruct (SetClientIP_spec c1 ip rest Q2 Hl) as (c2 & -> & R1 & R2 & R3 & R4 & R5). rewrite bind_Ok.
  assert (GetClientSeq c2 = seq ∧ GetClientFd c2 = fd ∧ GetClientSeq c1 = seq ∧ GetClientFd c1 = fd)
    as (S2 & F2 & S1 & F1) by (cbn in *; split_and!; congruence).
  eexists _, c2. split; [done|]. unfold registered, receiving, set_client, AddClient, GetClientByFd, GetClient,
    map_insert_new in *. cbn [sv_pool sv_clients sv_net sv_mem m_stClientFdPool m_stClientSeqPool] in *.
  rewrite S1, F1, S2, F2, Hfd, Hseq, !lookup_insert_eq. split; [done|]. split; [done|]. split.
  - split; [done|]. split; [done|]. eexists. split; [done|]. split; [|cbn in *; split; congruence].
    apply R5, Q5. destruct (receiving_new seq fd) as (_ & _ & c & Hc & Hs & _).
    cbn [server_with sv_clients] in Hc. rewrite lookup_singleton_eq in Hc. by injection Hc as <-.
  - intros p Hp. by rewrite !lookup_insert_ne.
Qed.

Lemma accepted_client_witness :
  ∃ W' c, _ProcessNewClient (mk_server net_new (mk_cpool ∅ ∅) ∅ 0 pool_new) 77 5
      (mk_message 1 5 (Some ([49; 50] ++ 0 :: []))) = Ok W' ∧
    registered W' 5 0 c ∧ GetClientSeq c = 77 ∧ receiving W' 0 5 0 ∅ [] [] ∧
    (∀ p, p ≠ 0%nat → sv_clients W' !! p = (∅ : gmap nat SocketClientCtx) !! p).
Proof.
  apply (accepted_client_is_registered (mk_server net_new (mk_cpool ∅ ∅) ∅ 0 pool_new) ∅ [] 77 5 1 [49; 50] []).
  - apply (receiving_new 0 0).
  - reflexivity.
  - reflexivity.
  - repeat constructor; done.
  - cbn. lia.
Defined.

(** Closing a client reads freed memory.  RemoveClientByFd returns the
    value of the map element it has just erased, and _ProcessCloseClient calls
    it for every registered client. *)
Theorem closing_a_client_reads_erased_element W fd p c :
  registered W fd p c → _ProcessCloseClient W fd = Fault UseAfterFree.
Proof.
  intros (Hfd & Hseq & Hc & Ef). unfold _ProcessCloseClient. rewrite Hfd.
  assert (client W p = Ok c) as Ec by (unfold client; by rewrite Hc). rewrite Ec, bind_Ok.
  unfold RemoveClient. unfold GetClient in Hseq. rewrite Hseq, Ec, !bind_Ok, Ef.
  unfold RemoveClientByFd. unfold GetClientByFd in Hfd. by rewrite Hfd.
Qed.

Lemma closing_a_client_witness : _ProcessCloseClient (server_with 77 5) 5 = Fault UseAfterFree.
Proof.
  apply (closing_a_client_reads_erased_element (server_with 77 5) 5 0 (SocketClientCtx_new 77 5)).
  split; [apply lookup_singleton_eq|]. split; [apply lookup_singleton_eq|].
  split; [apply lookup_singleton_eq|reflexivity].
Defined.
