(* ===== verification/SocketState.v ===== *)
(** * The socket server: its state, the system calls and the slots
      (src/network/socket/socket_server.c, socket_epoll.h)

    Operations run in a state monad over the server and the operating system.
    System calls take their results from an oracle and leave an event in a log,
    so that theorems can speak about the bytes handed to a descriptor and the
    buffers freed.  The poll functions of socket_epoll.h are such calls.

    The file holds the data, the monad with its weakest preconditions, the
    calls, and the life of a slot: reserve_id, new_fd, force_close, and the
    creation and release of a server.  One thread runs the operations. *)

From S2P Require Import Prelude Unpack SocketMessage.

Open Scope cint_scope.

Definition MAX_SOCKET_P : Z := 16.
Definition MAX_SOCKET : Z := 1 .<< MAX_SOCKET_P.
Definition MAX_EVENT : Z := 64.
Definition MIN_READ_BUFFER : Z := 64.
Definition MAX_UDP_PACKAGE : Z := 65535.
Definition UDP_ADDRESS_SIZE : Z := 19.

Definition SOCKET_TYPE_INVALID : Z := 0.
Definition SOCKET_TYPE_RESERVE : Z := 1.
Definition SOCKET_TYPE_PLISTEN : Z := 2.
Definition SOCKET_TYPE_LISTEN : Z := 3.
Definition SOCKET_TYPE_CONNECTING : Z := 4.
Definition SOCKET_TYPE_CONNECTED : Z := 5.
Definition SOCKET_TYPE_HALFCLOSE : Z := 6.
Definition SOCKET_TYPE_PACCEPT : Z := 7.
Definition SOCKET_TYPE_BIND : Z := 8.

Definition PRIORITY_HIGH : Z := 0.
Definition PRIORITY_LOW : Z := 1.

Definition PROTOCOL_TCP : Z := 0.
Definition PROTOCOL_UDP : Z := 1.
Definition PROTOCOL_UDPv6 : Z := 2.

(** errno *)
Definition EINTR : Z := 4.
Definition EAGAIN : Z := 11.
Definition EINPROGRESS : Z := 115.

Definition HASH_ID (id : Z) : Z := u32 id mod MAX_SOCKET.

(** ** Data *)

(** [wb_ptr] is an address: sending a part of the buffer moves it forward. *)
Record write_buffer := mk_wb {
  wb_buffer : Z;
  wb_ptr : Z;
  wb_sz : Z;
  wb_userobject : bool;
  wb_udp_address : list Z
}.

(** struct socket; a wb_list is the list of its buffers from head to tail, and
    the union [p] is its 20 bytes. *)
Record socket := mk_socket {
  opaque : Z;
  high : list write_buffer;
  low : list write_buffer;
  wb_size : Z;
  sfd : Z;
  sid : Z;
  protocol : Z;
  type : Z;
  p : list Z
}.

(** struct event; a pointer to a slot is the index of the slot. *)
Record event := mk_event { e_s : option Z; e_read : bool; e_write : bool }.

(** struct socket_object_interface without free, which only leaves an event. *)
Record socket_object_interface := mk_soi { soi_buffer : Z → Z; soi_size : Z → Z }.

(** struct socket_server.  [pipe] holds the bytes between sendctrl_fd and
    recvctrl_fd; a null [soi] is [None].  The scratch buffers are values of the
    operations that fill them. *)
Record socket_server := mk_ss {
  recvctrl_fd : Z;
  sendctrl_fd : Z;
  checkctrl : bool;
  event_fd : Z;
  alloc_id : Z;
  event_n : Z;
  event_index : Z;
  soi : option socket_object_interface;
  ev : list event;
  slot : gmap Z socket;
  pipe : list Z
}.

(** union sockaddr_all: family, port (two bytes in network order), address, and the
    flow information and scope of an IPv6 address, 0 for an IPv4 one, which has
    neither. *)
Record sockaddr_all := mk_sa {
  sa_family : Z;
  sa_port : list Z;
  sa_addr : list Z;
  sa_flowinfo : Z;
  sa_scope_id : Z
}.

Definition AF_INET : Z := 2.
Definition AF_INET6 : Z := 10.

(** ** The union p: little-endian int, or a UDP address *)

Definition p_size (s : socket) : Z := i32 (le_value (take 4 (p s))).
Definition p_udp_address (s : socket) : list Z := take (Z.to_nat UDP_ADDRESS_SIZE) (p s).

(** ** System calls *)

(** The result of a call: its value, errno, the bytes it stored, the address it
    stored, and the pairs (pointer, flags) epoll_wait stored. *)
Record sysres := mk_sysres {
  rv : Z;
  err : Z;
  stored : list Z;
  from : sockaddr_all;
  ready : list (option Z * Z)
}.

(** What a call does to the outside. *)
Inductive sysevent :=
| EvWrite (fd : Z) (bytes : list Z)
| EvSendto (fd : Z) (bytes : list Z) (to : option sockaddr_all)
| EvClose (fd : Z)
| EvPollAdd (fd : Z) (s : option Z)
| EvPollDel (fd : Z)
| EvPollWrite (fd : Z) (s : Z) (enable : bool)
| EvFree (buffer : Z) (userobject : bool)
| EvSetsockopt (fd level what value : Z)
| EvNonblocking (fd : Z)
| EvListen (fd backlog : Z).

(** struct addrinfo *)
Record addrinfo := mk_ai { ai_family : Z; ai_socktype : Z; ai_addr : sockaddr_all }.

(** The environment: the results of the system calls in order, the bytes of the
    caller's memory, and the resolver and printer of addresses. *)
Class Env := {
  os : nat → sysres;
  mem : Z → Z;
  getaddrinfo : list Z → Z → Z → option (list addrinfo);
  inet_ntop : Z → list Z → option (list Z)
}.

(** The server, the result message, the number of results consumed and the
    events so far. *)
Record world := mk_world {
  ss : socket_server;
  result : socket_message;
  pos : nat;
  log : list sysevent
}.

Definition M (A : Type) : Type := world → res (A * world).

Definition ret {A} (a : A) : M A := fun w => Ok (a, w).
Definition bind {A B} (m : M A) (k : A → M B) : M B := fun w =>
  match m w with
  | Ok (a, w) => k a w
  | Fault f => Fault f
  end.

Declare Scope sock_scope.
Delimit Scope sock_scope with sock.
Notation "'let!' x := m 'in' k" := (bind m (fun x => k))
  (at level 10, x pattern, m at level 200, k at level 200) : sock_scope.
Notation "m ;;; k" := (bind m (fun _ => k)) (at level 110, right associativity) : sock_scope.
Open Scope sock_scope.

Definition fail {A} (f : fault) : M A := fun _ => Fault f.
Definition m_assert (b : bool) : M unit := if b then ret tt else fail AssertFail.
Definition gets {A} (f : world → A) : M A := fun w => Ok (f w, w).
Definition modify (f : world → world) : M unit := fun w => Ok (tt, f w).
Definition when (b : bool) (m : M unit) : M unit := if b then m else ret tt.

Definition set_ss (f : socket_server → socket_server) : M unit :=
  modify (fun w => mk_world (f (ss w)) (result w) (pos w) (log w)).
Definition set_result (r : socket_message) : M unit :=
  modify (fun w => mk_world (ss w) r (pos w) (log w)).
Definition emit (e : sysevent) : M unit :=
  modify (fun w => mk_world (ss w) (result w) (pos w) (log w ++ [e])).

(** ** Fields *)

Definition with_slot (s : socket_server) (m : gmap Z socket) : socket_server :=
  mk_ss (recvctrl_fd s) (sendctrl_fd s) (checkctrl s) (event_fd s) (alloc_id s) (event_n s)
    (event_index s) (soi s) (ev s) m (pipe s).
Definition with_alloc (s : socket_server) (a : Z) : socket_server :=
  mk_ss (recvctrl_fd s) (sendctrl_fd s) (checkctrl s) (event_fd s) a (event_n s)
    (event_index s) (soi s) (ev s) (slot s) (pipe s).
Definition with_events (s : socket_server) (n i : Z) (e : list event) : socket_server :=
  mk_ss (recvctrl_fd s) (sendctrl_fd s) (checkctrl s) (event_fd s) (alloc_id s) n i (soi s) e (slot s)
    (pipe s).
Definition with_checkctrl (s : socket_server) (c : bool) : socket_server :=
  mk_ss (recvctrl_fd s) (sendctrl_fd s) c (event_fd s) (alloc_id s) (event_n s)
    (event_index s) (soi s) (ev s) (slot s) (pipe s).
Definition with_pipe (s : socket_server) (b : list Z) : socket_server :=
  mk_ss (recvctrl_fd s) (sendctrl_fd s) (checkctrl s) (event_fd s) (alloc_id s) (event_n s)
    (event_index s) (soi s) (ev s) (slot s) b.
Definition with_soi (s : socket_server) (o : socket_object_interface) : socket_server :=
  mk_ss (recvctrl_fd s) (sendctrl_fd s) (checkctrl s) (event_fd s) (alloc_id s) (event_n s)
    (event_index s) (Some o) (ev s) (slot s) (pipe s).

(** A slot as the initialisation loop leaves it; what it does not set is zero. *)
Definition socket0 : socket := mk_socket 0 [] [] 0 0 0 0 SOCKET_TYPE_INVALID (replicate 20 0).

(** ss->slot[i] *)
Definition slot_at (s : socket_server) (i : Z) : socket := default socket0 (slot s !! i).
Definition get_slot (i : Z) : M socket := gets (fun w => slot_at (ss w) i).
Definition put_slot (i : Z) (s : socket) : M unit := set_ss (fun x => with_slot x (<[i := s]> (slot x))).

Definition with_type (s : socket) (t : Z) : socket :=
  mk_socket (opaque s) (high s) (low s) (wb_size s) (sfd s) (sid s) (protocol s) t (p s).
Definition with_lists (s : socket) (h l : list write_buffer) (n : Z) : socket :=
  mk_socket (opaque s) h l n (sfd s) (sid s) (protocol s) (type s) (p s).
Definition with_opaque (s : socket) (o : Z) : socket :=
  mk_socket o (high s) (low s) (wb_size s) (sfd s) (sid s) (protocol s) (type s) (p s).
Definition with_p (s : socket) (b : list Z) : socket :=
  mk_socket (opaque s) (high s) (low s) (wb_size s) (sfd s) (sid s) (protocol s) (type s) (splice (p s) 0 b).

Definition modify_slot (i : Z) (f : socket → socket) : M unit :=
  let! s := get_slot i in put_slot i (f s).

Section Calls.
Context `{Env}.

(** The next result. *)
Definition sysret : M sysres := fun w => Ok (os (pos w), mk_world (ss w) (result w) (S (pos w)) (log w)).

(** The bytes at an address. *)
Definition bytes_at (ptr sz : Z) : list Z := mem <$> seqZ ptr sz.

(** write takes at most the bytes offered; a negative result sets errno. *)
Definition sys_write (fd : Z) (bytes : list Z) : M (Z * Z) :=
  let! r := sysret in
  if rv r <? 0 then ret (-1, err r)
  else
    let n := Z.min (rv r) (Z.of_nat (length bytes)) in
    emit (EvWrite fd (take (Z.to_nat n) bytes)) ;;;
    ret (n, 0).

(** sendto sends a datagram as a whole or fails. *)
Definition sys_sendto (fd : Z) (bytes : list Z) (to : option sockaddr_all) : M (Z * Z) :=
  let! r := sysret in
  if rv r <? 0 then ret (-1, err r)
  else
    emit (EvSendto fd bytes to) ;;;
    ret (Z.of_nat (length bytes), 0).

Definition sys_close (fd : Z) : M unit := emit (EvClose fd).

(** setsockopt *)
Definition sys_setsockopt (fd level what value : Z) : M Z :=
  let! r := sysret in
  if rv r =? -1 then ret (-1)
  else emit (EvSetsockopt fd level what value) ;;; ret 0.

Definition SOL_SOCKET : Z := 1.
Definition SO_REUSEADDR : Z := 2.
Definition SO_KEEPALIVE : Z := 9.

(** *** socket_epoll.h *)

Definition EPOLLIN : Z := 1.
Definition EPOLLOUT : Z := 4.

Definition sp_invalid (efd : Z) : bool := efd =? -1.

Definition sp_create : M Z := let! r := sysret in ret (rv r).

Definition sp_release (efd : Z) : M unit := sys_close efd.

(** True when epoll_ctl returns -1. *)
Definition sp_add (fd : Z) (s : option Z) : M bool :=
  let! r := sysret in
  if rv r =? -1 then ret true
  else emit (EvPollAdd fd s) ;;; ret false.

Definition sp_del (fd : Z) : M unit := emit (EvPollDel fd).

Definition sp_write (fd : Z) (s : Z) (enable : bool) : M unit := emit (EvPollWrite fd s enable).

(** The loop over what epoll_wait stored. *)
Definition sp_event (e : option Z * Z) : event :=
  mk_event e.1 (negb (e.2 .& EPOLLIN =? 0)) (negb (e.2 .& EPOLLOUT =? 0)).

(** epoll_wait stores at most [max] events, as many as it returns. *)
Definition sp_wait (max : Z) : M (Z * list event) :=
  let! r := sysret in
  let evs := take (Z.to_nat max) (ready r) in
  if rv r <? 0 then ret (rv r, []) else ret (Z.of_nat (length evs), sp_event <$> evs).

Definition sp_nonblocking (fd : Z) : M unit :=
  let! r := sysret in
  if rv r =? -1 then ret tt else emit (EvNonblocking fd).

(** *** Helpers of socket_server.c *)

Definition socket_keepalive (fd : Z) : M unit :=
  sys_setsockopt fd SOL_SOCKET SO_KEEPALIVE 1 ;;; ret tt.

Record send_object := mk_so { so_buffer : Z; so_sz : Z; so_user : bool }.

(** The boolean tells a user object, whose free function is soi.free.  Calling
    through a null interface is undefined. *)
Definition send_object_init (object sz : Z) : M send_object :=
  if sz <? 0 then
    let! o := gets (fun w => soi (ss w)) in
    match o with
    | Some o => ret (mk_so (soi_buffer o object) (soi_size o object) true)
    | None => fail Undefined
    end
  else ret (mk_so object sz false).

(** free_func *)
Definition so_free (so : send_object) (object : Z) : M unit := emit (EvFree object (so_user so)).

Definition write_buffer_free (wb : write_buffer) : M unit := emit (EvFree (wb_buffer wb) (wb_userobject wb)).

Definition free_buffer (buffer sz : Z) : M unit :=
  let! so := send_object_init buffer sz in so_free so buffer.

(** ** Slots *)

(** The for loop of reserve_id; the compare-and-swap of a lone thread succeeds. *)
Fixpoint reserve_loop (rounds : nat) : M Z :=
  match rounds with
  | O => ret (-1)
  | S rounds =>
      let! a := gets (fun w => alloc_id (ss w)) in
      let id := i32 (a + 1) in
      set_ss (fun s => with_alloc s id) ;;;
      let! id := (if id <? 0 then
                    let id := id .& 2147483647 in
                    set_ss (fun s => with_alloc s id) ;;; ret id
                  else ret id) in
      let! s := get_slot (HASH_ID id) in
      if type s =? SOCKET_TYPE_INVALID then
        put_slot (HASH_ID id)
          (mk_socket (opaque s) (high s) (low s) (wb_size s) (-1) id (protocol s) SOCKET_TYPE_RESERVE (p s)) ;;;
        ret id
      else reserve_loop rounds
  end.

Definition reserve_id : M Z := reserve_loop (Z.to_nat MAX_SOCKET).

Fixpoint free_wb_list (l : list write_buffer) : M unit :=
  match l with
  | [] => ret tt
  | wb :: l => write_buffer_free wb ;;; free_wb_list l
  end.

Definition force_close (i : Z) : M unit :=
  let! s := get_slot i in
  set_result (mk_msg (sid s) (opaque s) 0 None) ;;;
  if type s =? SOCKET_TYPE_INVALID then ret tt
  else
    m_assert (negb (type s =? SOCKET_TYPE_RESERVE)) ;;;
    free_wb_list (high s) ;;;
    free_wb_list (low s) ;;;
    when (negb (type s =? SOCKET_TYPE_PACCEPT) && negb (type s =? SOCKET_TYPE_PLISTEN)) (sp_del (sfd s)) ;;;
    when (negb (type s =? SOCKET_TYPE_BIND)) (sys_close (sfd s)) ;;;
    put_slot i (with_type (with_lists s [] [] (wb_size s)) SOCKET_TYPE_INVALID).

Definition check_wb_list (l : list write_buffer) : M unit :=
  m_assert (match l with [] => true | _ => false end).

(** The result is the slot, or [None] for the null pointer. *)
Definition new_fd (id fd proto opq : Z) (add : bool) : M (option Z) :=
  let i := HASH_ID id in
  let! s := get_slot i in
  m_assert (type s =? SOCKET_TYPE_RESERVE) ;;;
  let! failed := (if add then sp_add fd (Some i) else ret false) in
  if failed : bool then
    put_slot i (with_type s SOCKET_TYPE_INVALID) ;;;
    ret None
  else
    put_slot i
      (with_p (mk_socket opq (high s) (low s) 0 fd id (wrap 16 proto) (type s) (p s))
         (le_bytes 4 MIN_READ_BUFFER)) ;;;
    check_wb_list (high s) ;;;
    check_wb_list (low s) ;;;
    ret (Some i).

(** ** Creation and release *)

Definition FD_SETSIZE : Z := 1024.

(** pipe stores two descriptors. *)
Definition socket_server_create : M bool :=
  let! efd := sp_create in
  if sp_invalid efd then ret false
  else
    let! r := sysret in
    let fd0 := stored r !!! 0%nat in
    let fd1 := stored r !!! 1%nat in
    if negb (rv r =? 0) then sp_release efd ;;; ret false
    else
      let! failed := sp_add fd0 None in
      if failed : bool then
        sys_close fd0 ;;; sys_close fd1 ;;; sp_release efd ;;; ret false
      else
        set_ss (fun _ => mk_ss fd0 fd1 true efd 0 0 0 None
                           (replicate (Z.to_nat MAX_EVENT) (mk_event None false false)) ∅ []) ;;;
        m_assert (fd0 <? FD_SETSIZE) ;;;
        ret true.

(** The for loop over the slots, from slot [i] on. *)
Fixpoint release_loop (i : Z) (n : nat) : M unit :=
  match n with
  | O => ret tt
  | S n =>
      let! s := get_slot i in
      when (negb (type s =? SOCKET_TYPE_RESERVE)) (force_close i) ;;;
      release_loop (i + 1) n
  end.

Definition socket_server_release : M unit :=
  release_loop 0 (Z.to_nat MAX_SOCKET) ;;;
  let! s := gets ss in
  sys_close (sendctrl_fd s) ;;;
  sys_close (recvctrl_fd s) ;;;
  sp_release (event_fd s).

End Calls.

(** ** Weakest preconditions

    [wp E m Q w]: from [w], [m] ends in a state of [Q] or in a fault of [E]. *)

Definition wp {A} (E : fault → Prop) (m : M A) (Q : A → world → Prop) (w : world) : Prop :=
  match m w with
  | Ok (a, w') => Q a w'
  | Fault f => E f
  end.

Definition no_fault (_ : fault) : Prop := False.

Section Rules.
Context `{Env} (E : fault → Prop).

Lemma wp_ret {A} (a : A) Q w : Q a w → wp E (ret a) Q w.
Proof. done. Qed.

Lemma wp_bind {A B} (m : M A) (k : A → M B) Q w :
  wp E m (fun a => wp E (k a) Q) w → wp E (bind m k) Q w.
Proof. unfold wp, bind. destruct (m w) as [[a w']|f]; auto. Qed.

Lemma wp_mono {A} (m : M A) (P Q : A → world → Prop) w :
  wp E m P w → (∀ a w', P a w' → Q a w') → wp E m Q w.
Proof. unfold wp. destruct (m w) as [[a w']|f]; auto. Qed.

(** Two facts about one run. *)
Lemma wp_and {A} (m : M A) (P Q : A → world → Prop) w :
  wp E m P w → wp E m Q w → wp E m (fun a w' => P a w' ∧ Q a w') w.
Proof. unfold wp. destruct (m w) as [[a w']|f]; auto. Qed.

Lemma wp_gets {A} (f : world → A) Q w : Q (f w) w → wp E (gets f) Q w.
Proof. done. Qed.

Lemma wp_modify (f : world → world) Q w : Q tt (f w) → wp E (modify f) Q w.
Proof. done. Qed.

Lemma wp_assert b Q w : b = true → Q tt w → wp E (m_assert b) Q w.
Proof. by intros ->. Qed.

Lemma wp_when b m Q w :
  (b = true → wp E m Q w) → (b = false → Q tt w) → wp E (when b m) Q w.
Proof. destruct b; intros H1 H2; [by apply H1 | by apply H2]. Qed.

Lemma wp_sysret Q w :
  Q (os (pos w)) (mk_world (ss w) (result w) (S (pos w)) (log w)) → wp E sysret Q w.
Proof. done. Qed.

End Rules.

Lemma wp_no_fault {A} (m : M A) Q w : wp no_fault m Q w → ∃ a w', m w = Ok (a, w') ∧ Q a w'.
Proof. unfold wp. destruct (m w) as [[a w']|f]; [eauto | done]. Qed.

Lemma wp_Ok {A} E (m : M A) Q w a w' : wp E m Q w → m w = Ok (a, w') → Q a w'.
Proof. unfold wp. intros Hwp Hm. by rewrite Hm in Hwp. Qed.

(** One step of a program whose head is known. *)
Ltac wp_step :=
  match goal with
  | |- wp _ (bind _ _) _ _ => apply wp_bind
  | |- wp _ (ret _) _ _ => apply wp_ret
  | |- wp _ (gets _) _ _ => apply wp_gets
  | |- wp _ (get_slot _) _ _ => apply wp_gets
  | |- wp _ (set_ss _) _ _ => apply wp_modify
  | |- wp _ (put_slot _ _) _ _ => apply wp_modify
  | |- wp _ (set_result _) _ _ => apply wp_modify
  | |- wp _ (emit _) _ _ => apply wp_modify
  | |- wp _ (write_buffer_free _) _ _ => apply wp_modify
  | |- wp _ (so_free _ _) _ _ => apply wp_modify
  | |- wp _ (sys_close _) _ _ => apply wp_modify
  | |- wp _ (sp_write _ _ _) _ _ => apply wp_modify
  | |- wp _ (sp_del _) _ _ => apply wp_modify
  | |- wp _ sysret _ _ => apply wp_sysret
  end; cbn beta iota.
Ltac wp_steps := repeat wp_step.

(** ** Slots and their lookup *)

Lemma slot_at_insert s i x j :
  slot_at (with_slot s (<[i := x]> (slot s))) j = if decide (i = j) then x else slot_at s j.
Proof.
  unfold slot_at. cbn. case_decide as Hij; [subst; by rewrite lookup_insert_eq | by rewrite lookup_insert_ne].
Qed.

Lemma HASH_ID_mod z : HASH_ID z = z mod 65536.
Proof. unfold HASH_ID. change MAX_SOCKET with (2 ^ 16). by rewrite (u32_eq_mod z 16) by lia. Qed.

Lemma HASH_ID_bound z : 0 <= HASH_ID z < 65536.
Proof. rewrite HASH_ID_mod. apply Z.mod_pos_bound. lia. Qed.

(** The identifier after [a]: the sign bit is dropped. *)
Definition next_id (a : Z) : Z := (a + 1) mod 2 ^ 31.

Lemma next_id_masked a :
  0 <= a < 2 ^ 31 → (if i32 (a + 1) <? 0 then i32 (a + 1) .& 2147483647 else i32 (a + 1)) = next_id a.
Proof.
  intros Ha. unfold next_id. destruct (decide (a = 2 ^ 31 - 1)) as [->|]; [reflexivity|].
  rewrite (swrap_small 32) by lia. rewrite Z.mod_small by lia.
  destruct (Z.ltb_spec (a + 1) 0); lia.
Qed.

Lemma next_id_bound a : 0 <= next_id a < 2 ^ 31.
Proof. apply Z.mod_pos_bound. lia. Qed.

(** The slot of the k-th identifier after [a]. *)
Lemma HASH_ID_next a k : HASH_ID (next_id a + k) = HASH_ID (a + 1 + k).
Proof.
  rewrite !HASH_ID_mod. unfold next_id.
  change (2 ^ 31) with (65536 * 32768). rewrite Z.rem_mul_r by lia.
  rewrite <- (Z.add_assoc _ _ k), (Z.mul_comm 65536), (Z.add_comm (_ * 65536)), Z.add_assoc.
  rewrite Z.mod_add by lia. by rewrite Zplus_mod_idemp_l.
Qed.

(** Every slot is reached within a full round. *)
Lemma HASH_ID_reaches a i : 0 <= i < MAX_SOCKET → ∃ k, 1 <= k <= MAX_SOCKET ∧ HASH_ID (a + k) = i.
Proof.
  change MAX_SOCKET with 65536. intros Hi. exists ((i - a - 1) mod 65536 + 1).
  pose proof (Z.mod_pos_bound (i - a - 1) 65536). split; [lia|].
  rewrite HASH_ID_mod. Z.div_mod_to_equations. lia.
Qed.

Section ReserveLemmas.
Context `{Env}.

(** Slot [id] reserved. *)
Definition reserved (s : socket) (id : Z) : socket :=
  mk_socket (opaque s) (high s) (low s) (wb_size s) (-1) id (protocol s) SOCKET_TYPE_RESERVE (p s).

(** What [n] rounds of the loop do: the first free slot among the next [n]. *)
Definition reserve_post (n : nat) (w : world) (id : Z) (w' : world) : Prop :=
  result w' = result w ∧ pos w' = pos w ∧ log w' = log w ∧
  (∃ a, 0 <= a < 2 ^ 31 ∧
    ((id = -1 ∧ ss w' = with_alloc (ss w) a ∧
      ∀ k, 1 <= k <= Z.of_nat n → type (slot_at (ss w) (HASH_ID (alloc_id (ss w) + k))) ≠ SOCKET_TYPE_INVALID)
     ∨ (id = a ∧ type (slot_at (ss w) (HASH_ID id)) = SOCKET_TYPE_INVALID ∧
        ss w' = with_slot (with_alloc (ss w) a)
                  (<[HASH_ID id := reserved (slot_at (ss w) (HASH_ID id)) id]> (slot (ss w)))))).

Lemma reserve_round n w :
  0 <= alloc_id (ss w) < 2 ^ 31 →
  let id := next_id (alloc_id (ss w)) in
  let w1 := mk_world (with_alloc (ss w) id) (result w) (pos w) (log w) in
  reserve_loop (S n) w =
    if type (slot_at (ss w) (HASH_ID id)) =? SOCKET_TYPE_INVALID
    then Ok (id, mk_world (with_slot (with_alloc (ss w) id)
                   (<[HASH_ID id := reserved (slot_at (ss w) (HASH_ID id)) id]> (slot (ss w))))
                   (result w) (pos w) (log w))
    else reserve_loop n w1.
Proof.
  intros Ha id w1. subst id w1. rewrite <- (next_id_masked _ Ha).
  cbn [reserve_loop]. unfold bind, gets, get_slot, set_ss, put_slot, modify, ret. cbn [ss alloc_id].
  destruct (i32 (alloc_id (ss w) + 1) <? 0); unfold slot_at; cbn;
    (destruct (type _ =? SOCKET_TYPE_INVALID); done).
Qed.

Lemma reserve_loop_post n : ∀ w,
  0 <= alloc_id (ss w) < 2 ^ 31 → wp no_fault (reserve_loop n) (reserve_post n w) w.
Proof.
  induction n as [|n IH]; intros w Ha.
  - cbn. repeat split. exists (alloc_id (ss w)). split; [done|]. left.
    split; [done|]. split; [|lia]. by destruct w as [[] ? ? ?].
  - unfold wp. rewrite reserve_round by done.
    set (id := next_id (alloc_id (ss w))).
    destruct (Z.eqb_spec (type (slot_at (ss w) (HASH_ID id))) SOCKET_TYPE_INVALID) as [Hf|Hf].
    + repeat split. exists id. split; [apply next_id_bound|]. by right.
    + eapply wp_mono; [apply IH, next_id_bound|]. cbn.
      intros r w' (? & ? & ? & a & Hb & Hor). repeat split; try done. exists a. split; [done|].
      destruct Hor as [(-> & -> & Hk)|(-> & Ht & ->)]; [left | right; done].
      split; [done|]. split; [done|]. intros k Hk1.
      destruct (decide (k = 1)) as [->|].
      * rewrite <- (Z.add_0_r (_ + 1)), <- HASH_ID_next. by rewrite Z.add_0_r.
      * specialize (Hk (k - 1) ltac:(lia)). change (alloc_id _) with id in Hk at 1. subst id.
        rewrite HASH_ID_next in Hk. by replace (alloc_id (ss w) + 1 + (k - 1)) with (alloc_id (ss w) + k) in Hk by lia.
Qed.

End ReserveLemmas.

(** ** Closing slots *)

(** The buffers a log frees, the descriptors it closes and removes from epoll. *)
Definition freed (l : list sysevent) : list (Z * bool) :=
  omap (fun e => match e with EvFree b u => Some (b, u) | _ => None end) l.
Definition closed (l : list sysevent) : list Z :=
  omap (fun e => match e with EvClose fd => Some fd | _ => None end) l.
Definition polled_out (l : list sysevent) : list Z :=
  omap (fun e => match e with EvPollDel fd => Some fd | _ => None end) l.

Definition wb_owner (wb : write_buffer) : Z * bool := (wb_buffer wb, wb_userobject wb).

(** A slot that holds a socket. *)
Definition live (s : socket) : bool :=
  negb (type s =? SOCKET_TYPE_INVALID) && negb (type s =? SOCKET_TYPE_RESERVE).

(** The buffers and the descriptor a slot owns. *)
Definition owned_buffers (s : socket) : list (Z * bool) :=
  if live s then wb_owner <$> high s ++ low s else [].
Definition owned_fd (s : socket) : list Z :=
  if live s && negb (type s =? SOCKET_TYPE_BIND) then [sfd s] else [].
Definition polled_fd (s : socket) : list Z :=
  if live s && negb (type s =? SOCKET_TYPE_PACCEPT) && negb (type s =? SOCKET_TYPE_PLISTEN) then [sfd s] else [].

Lemma free_wb_list_run l : ∀ w,
  free_wb_list l w =
    Ok (tt, mk_world (ss w) (result w) (pos w)
              (log w ++ ((fun wb => EvFree (wb_buffer wb) (wb_userobject wb)) <$> l))).
Proof.
  induction l as [|wb l IH]; intros w; cbn.
  - rewrite app_nil_r. by destruct w.
  - unfold bind. cbn. rewrite IH. cbn. by rewrite <- app_assoc.
Qed.

(** The events of closing a live socket. *)
Definition close_events (s : socket) : list sysevent :=
  ((fun wb => EvFree (wb_buffer wb) (wb_userobject wb)) <$> high s ++ low s) ++
  (EvPollDel <$> polled_fd s) ++ (EvClose <$> owned_fd s).

Definition closed_slot (s : socket) : socket :=
  with_type (with_lists s [] [] (wb_size s)) SOCKET_TYPE_INVALID.

Lemma force_close_live i w :
  let s := slot_at (ss w) i in
  live s = true →
  force_close i w =
    Ok (tt, mk_world (with_slot (ss w) (<[i := closed_slot s]> (slot (ss w))))
              (mk_msg (sid s) (opaque s) 0 None) (pos w) (log w ++ close_events s)).
Proof.
  intros s Hl. unfold force_close, bind, get_slot, gets, set_result, modify. fold s. cbn [ss].
  unfold close_events, owned_fd, polled_fd. rewrite Hl. unfold live in Hl.
  destruct (type s =? SOCKET_TYPE_INVALID); [done|]. destruct (type s =? SOCKET_TYPE_RESERVE); [done|].
  cbn [negb m_assert ret andb]. rewrite !free_wb_list_run. cbn [ss result pos log].
  destruct (type s =? SOCKET_TYPE_PACCEPT), (type s =? SOCKET_TYPE_PLISTEN), (type s =? SOCKET_TYPE_BIND);
    cbn; rewrite fmap_app, <- ?app_assoc, ?app_nil_r; done.
Qed.

Lemma force_close_invalid i w :
  type (slot_at (ss w) i) = SOCKET_TYPE_INVALID →
  force_close i w =
    Ok (tt, mk_world (ss w) (mk_msg (sid (slot_at (ss w) i)) (opaque (slot_at (ss w) i)) 0 None)
              (pos w) (log w)).
Proof. intros Ht. unfold force_close, bind, get_slot, gets, set_result, modify. cbn. by rewrite Ht. Qed.

Lemma omap_fmap_none {A B C} (f : B → option C) (g : A → B) (l : list A) :
  (∀ x, f (g x) = None) → omap f (g <$> l) = [].
Proof. intros Hf. induction l; cbn; [done|]. by rewrite Hf. Qed.

Lemma omap_fmap_some {A B C} (f : B → option C) (g : A → B) (h : A → C) (l : list A) :
  (∀ x, f (g x) = Some (h x)) → omap f (g <$> l) = h <$> l.
Proof. intros Hf. induction l; cbn; [done|]. rewrite Hf. by f_equal. Qed.

Lemma close_events_freed s : live s = true → freed (close_events s) = owned_buffers s.
Proof.
  intros Hl. unfold freed, close_events, owned_buffers. rewrite Hl, !omap_app.
  rewrite (omap_fmap_some _ _ wb_owner) by done. rewrite !omap_fmap_none by done. by rewrite !app_nil_r.
Qed.

Lemma close_events_closed s : closed (close_events s) = owned_fd s.
Proof.
  unfold closed, close_events. rewrite !omap_app, !omap_fmap_none by done.
  by rewrite (omap_fmap_some _ _ id), list_fmap_id by done.
Qed.

Lemma close_events_polled s : polled_out (close_events s) = polled_fd s.
Proof.
  unfold polled_out, close_events. rewrite !omap_app, !omap_fmap_none by done.
  rewrite (omap_fmap_some _ _ id), list_fmap_id, omap_fmap_none by done. apply app_nil_r.
Qed.

Lemma mjoin_cons {A} (x : list A) l : mjoin (x :: l) = x ++ mjoin l.
Proof. done. Qed.

(** The slots from [i] on, [n] of them. *)
Definition slots_from (s : socket_server) (i : Z) (n : nat) : list socket :=
  slot_at s <$> seqZ i (Z.of_nat n).

(** What the release loop leaves: every slot invalid or reserved, the events of
    closing each live slot in order. *)
Definition release_events (s : socket) : list sysevent := if live s then close_events s else [].

Lemma slots_from_S s i n : slots_from s i (S n) = slot_at s i :: slots_from s (i + 1) n.
Proof. unfold slots_from. rewrite seqZ_cons by lia. cbn. f_equal. f_equal. f_equal; lia. Qed.

Lemma slots_from_ext s s' i n :
  (∀ j, i <= j < i + Z.of_nat n → slot_at s j = slot_at s' j) → slots_from s i n = slots_from s' i n.
Proof. intros Hj. apply list_fmap_ext. intros k j Hk%lookup_seqZ. apply Hj. lia. Qed.

Definition release_post (i : Z) (n : nat) (w w' : world) : Prop :=
  log w' = log w ++ mjoin (release_events <$> slots_from (ss w) i n) ∧
  recvctrl_fd (ss w') = recvctrl_fd (ss w) ∧ sendctrl_fd (ss w') = sendctrl_fd (ss w) ∧
  event_fd (ss w') = event_fd (ss w) ∧
  ∀ j, live (slot_at (ss w') j) = live (slot_at (ss w) j) && negb (bool_decide (i <= j < i + Z.of_nat n)).

Lemma release_step i w :
  wp no_fault (when (negb (type (slot_at (ss w) i) =? SOCKET_TYPE_RESERVE)) (force_close i))
    (fun _ w' =>
       log w' = log w ++ release_events (slot_at (ss w) i) ∧
       recvctrl_fd (ss w') = recvctrl_fd (ss w) ∧ sendctrl_fd (ss w') = sendctrl_fd (ss w) ∧
       event_fd (ss w') = event_fd (ss w) ∧
       live (slot_at (ss w') i) = false ∧ ∀ j, j ≠ i → slot_at (ss w') j = slot_at (ss w) j) w.
Proof.
  unfold release_events. destruct (live (slot_at (ss w) i)) eqn:Hl.
  - assert ((type (slot_at (ss w) i) =? SOCKET_TYPE_RESERVE) = false) as ->.
    { unfold live in Hl. destruct (_ =? SOCKET_TYPE_RESERVE); [|done]. by rewrite andb_false_r in Hl. }
    cbn [negb when]. unfold wp. rewrite force_close_live by done. repeat split; cbn [ss].
    + by rewrite slot_at_insert, decide_True by done.
    + intros j Hj. by rewrite slot_at_insert, decide_False by done.
  - rewrite app_nil_r. unfold when.
    destruct (Z.eqb_spec (type (slot_at (ss w) i)) SOCKET_TYPE_RESERVE) as [Hr|Hr]; cbn [negb]; [done|].
    unfold wp. rewrite force_close_invalid; [done|]. unfold live in Hl.
    destruct (Z.eqb_spec (type (slot_at (ss w) i)) SOCKET_TYPE_INVALID); [done|].
    by rewrite (proj2 (Z.eqb_neq _ _) Hr) in Hl.
Qed.

Lemma release_loop_post n : ∀ i w, wp no_fault (release_loop i n) (fun _ => release_post i n w) w.
Proof.
  induction n as [|n IH]; intros i w.
  - cbn. unfold release_post. cbn. rewrite app_nil_r. repeat split. intros j.
    rewrite bool_decide_eq_false_2 by lia. by rewrite andb_true_r.
  - cbn [release_loop]. apply wp_bind, wp_gets. apply wp_bind.
    eapply wp_mono; [apply release_step|]. intros _ w1 (Hlog & Hr & Hs & He & Hi & Hj).
    eapply wp_mono; [apply IH|]. intros _ w2 (Hlog2 & Hr2 & Hs2 & He2 & Hl2). unfold release_post.
    rewrite Hlog2, Hlog, slots_from_S, (slots_from_ext (ss w1) (ss w)) by (intros j ?; apply Hj; lia).
    rewrite fmap_cons, mjoin_cons, <- app_assoc.
    repeat split; [congruence..|]. intros j. rewrite Hl2.
    destruct (decide (j = i)) as [->|Hne].
    + rewrite Hi, (bool_decide_eq_true_2 (i <= i < _)) by lia. by rewrite andb_false_r.
    + rewrite Hj by done. f_equal. f_equal. apply bool_decide_ext. lia.
Qed.

Lemma freed_app l l' : freed (l ++ l') = freed l ++ freed l'.
Proof. apply omap_app. Qed.

Lemma closed_app l l' : closed (l ++ l') = closed l ++ closed l'.
Proof. apply omap_app. Qed.

Lemma freed_release l : freed (mjoin (release_events <$> l)) = mjoin (owned_buffers <$> l).
Proof.
  induction l as [|s l IH]; [done|]. rewrite !fmap_cons, !mjoin_cons.
  rewrite freed_app, IH. f_equal.
  unfold release_events. destruct (live s) eqn:Hl; [by apply close_events_freed|].
  unfold owned_buffers. by rewrite Hl.
Qed.

Lemma closed_release l : closed (mjoin (release_events <$> l)) = mjoin (owned_fd <$> l).
Proof.
  induction l as [|s l IH]; [done|]. rewrite !fmap_cons, !mjoin_cons.
  rewrite closed_app, IH. f_equal.
  unfold release_events. destruct (live s) eqn:Hl; [apply close_events_closed|].
  unfold owned_fd. by rewrite Hl.
Qed.

Section SlotClaims.
Context `{Env}.

(** C31: reserve_id never faults and finds a free slot whenever there is one,
    through the wrap-around of the 31-bit counter.  It returns a non-negative
    identifier whose slot was invalid and is now reserved under that identifier,
    with no other slot changed; or -1, with the slots unchanged, only when every
    one of the 65536 slots is in use. *)
Theorem reserve_id_complete w :
  0 <= alloc_id (ss w) < 2 ^ 31 →
  ∃ id w', reserve_id w = Ok (id, w') ∧ log w' = log w ∧ 0 <= alloc_id (ss w') < 2 ^ 31 ∧
    ((0 <= id < 2 ^ 31 ∧ type (slot_at (ss w) (HASH_ID id)) = SOCKET_TYPE_INVALID ∧
      slot (ss w') = <[HASH_ID id := reserved (slot_at (ss w) (HASH_ID id)) id]> (slot (ss w)))
     ∨ (id = -1 ∧ slot (ss w') = slot (ss w) ∧
        ∀ i, 0 <= i < MAX_SOCKET → type (slot_at (ss w) i) ≠ SOCKET_TYPE_INVALID)).
Proof.
  intros Ha. destruct (wp_no_fault _ _ _ (reserve_loop_post (Z.to_nat MAX_SOCKET) w Ha))
    as (id & w' & Hrun & _ & _ & Hlog & a & Hb & Hor).
  exists id, w'. split; [done|]. split; [done|].
  destruct Hor as [(-> & -> & Hk)|(-> & Ht & ->)]; split; try done; [right|left; done].
  split; [done|]. split; [done|]. intros i Hi.
  destruct (HASH_ID_reaches (alloc_id (ss w)) i Hi) as (k & Hk1 & <-). apply Hk.
  by rewrite Z2Nat.id by (vm_compute; discriminate).
Qed.

(** C32: releasing a server never faults; it frees every buffer still queued in a
    live socket exactly once, in slot order, high list before low list; it closes
    the descriptor of every live socket that is not bound from outside, then both
    ends of the control pipe and the epoll descriptor; no live socket is left. *)
Theorem socket_server_release_frees_everything w :
  ∃ w', socket_server_release w = Ok (tt, w') ∧
    let slots := slots_from (ss w) 0 (Z.to_nat MAX_SOCKET) in
    freed (log w') = freed (log w) ++ mjoin (owned_buffers <$> slots) ∧
    closed (log w') = closed (log w) ++ mjoin (owned_fd <$> slots)
                      ++ [sendctrl_fd (ss w); recvctrl_fd (ss w); event_fd (ss w)] ∧
    ∀ i, 0 <= i < MAX_SOCKET → live (slot_at (ss w') i) = false.
Proof.
  destruct (wp_no_fault _ _ _ (release_loop_post (Z.to_nat MAX_SOCKET) 0 w))
    as ([] & w1 & Hrun & Hlog & Hr & Hs & He & Hlive).
  unfold socket_server_release, bind. rewrite Hrun. eexists. split; [reflexivity|]. cbn [log ss].
  rewrite Hlog, Hr, Hs, He, !freed_app, !closed_app, freed_release, closed_release, <- !app_assoc.
  set (l := slots_from _ _ _). clearbody l.
  split; [cbn [freed omap list_omap]; rewrite app_nil_r; reflexivity|]. split; [reflexivity|].
  intros i Hi. rewrite Hlive, bool_decide_eq_true_2; [by rewrite andb_false_r | lia].
Qed.

End SlotClaims.

(** ** A concrete environment and server *)

Definition sa0 : sockaddr_all := mk_sa AF_INET [0; 80] [127; 0; 0; 1] 0 0.

(** Every call returns [v]. *)
Definition const_env (v e : Z) : Env :=
  Build_Env (fun _ => mk_sysres v e [] sa0 []) (fun a => a mod 256) (fun _ _ _ => None) (fun _ _ => None).

Definition ss0 : socket_server := mk_ss 3 4 true 5 0 0 0 None [] ∅ [].
Definition world0 : world := mk_world ss0 (mk_msg 0 0 0 None) 0 [].

(** The counter about to wrap, slot 0 in use. *)
Definition world_wrap : world :=
  mk_world (with_slot (with_alloc ss0 (2 ^ 31 - 1))
              {[0 := with_type socket0 SOCKET_TYPE_CONNECTED]}) (mk_msg 0 0 0 None) 0 [].

Lemma reserve_id_complete_witness :
  (∃ w', reserve_id world_wrap = Ok (1, w')) ∧
  ∃ id w', reserve_id world_wrap = Ok (id, w') ∧ log w' = log world_wrap.
Proof.
  split; [eexists; vm_compute; reflexivity|].
  destruct (reserve_id_complete world_wrap) as (id & w' & Hr & Hl & _).
  - vm_compute. split; [discriminate | reflexivity].
  - by exists id, w'.
Defined.
