(* ===== verification/SocketSend.v ===== *)
(** * The socket server: send buffers (src/network/socket/socket_server.c,
      send_list_tcp to send_socket and close_socket)

    A socket has two lists of write buffers.  The theorems relate the bytes
    written to a TCP descriptor and the buffers still queued to the packages
    submitted: none is lost, repeated, interleaved or reordered within its
    priority, and each buffer is freed exactly once. *)

From S2P Require Import Prelude Unpack SocketMessage SocketState.

Open Scope cint_scope.
Open Scope sock_scope.

Section Sending.
Context `{Env}.

(** The send functions work on slot [i]; [hi] selects its high or low list. *)
Definition list_of (hi : bool) (s : socket) : list write_buffer := if hi then high s else low s.
Definition set_list (hi : bool) (s : socket) (l : list write_buffer) (n : Z) : socket :=
  if hi then with_lists s l (low s) n else with_lists s (high s) l n.

(** The bytes from [ptr] on. *)
Definition wb_rest (wb : write_buffer) : list Z := bytes_at (wb_ptr wb) (wb_sz wb).

(** The inner for loop of send_list_tcp: the call is repeated on EINTR. *)
Fixpoint write_retry (fuel : nat) (fd : Z) (bytes : list Z) : M (Z * Z) :=
  match fuel with
  | O => fail OutOfFuel
  | S fuel =>
      let! r := sys_write fd bytes in
      if (r.1 <? 0) && (r.2 =? EINTR) then write_retry fuel fd bytes else ret r
  end.

(** The while loop: one round per buffer of the list.  [retries] bounds the
    consecutive interrupted calls. *)
Fixpoint send_list_tcp (retries : nat) (bufs : list write_buffer) (i : Z) (hi : bool) : M Z :=
  match bufs with
  | [] => ret (-1)
  | tmp :: rest =>
      let! s := get_slot i in
      let! r := write_retry retries (sfd s) (wb_rest tmp) in
      let sz := r.1 in
      if sz <? 0 then
        if r.2 =? EAGAIN then ret (-1)
        else force_close i ;;; ret SOCKET_CLOSE
      else if negb (sz =? wb_sz tmp) then
        put_slot i (set_list hi s
          (mk_wb (wb_buffer tmp) (wb_ptr tmp + sz) (wb_sz tmp - sz) (wb_userobject tmp) (wb_udp_address tmp)
             :: rest) (i64 (wb_size s - sz))) ;;;
        ret (-1)
      else
        put_slot i (set_list hi s rest (i64 (wb_size s - sz))) ;;;
        write_buffer_free tmp ;;;
        send_list_tcp retries rest i hi
  end.

(** The socket address, or [None] for the length 0 of a protocol mismatch.  Port
    and address are copied unchanged; the memset leaves an IPv6 address with the flow
    information and the scope 0. *)
Definition udp_socket_address (s : socket) (udp_address : list Z) : option sockaddr_all :=
  let ty := udp_address !!! 0%nat in
  if negb (ty =? protocol s) then None
  else
    let port := take 2 (drop 1 udp_address) in
    if protocol s =? PROTOCOL_UDP then Some (mk_sa AF_INET port (take 4 (drop 3 udp_address)) 0 0)
    else if protocol s =? PROTOCOL_UDPv6 then Some (mk_sa AF_INET6 port (take 16 (drop 3 udp_address)) 0 0)
    else None.

Fixpoint send_list_udp (bufs : list write_buffer) (i : Z) (hi : bool) : M Z :=
  match bufs with
  | [] => ret (-1)
  | tmp :: rest =>
      let! s := get_slot i in
      let! r := sys_sendto (sfd s) (wb_rest tmp) (udp_socket_address s (wb_udp_address tmp)) in
      if r.1 <? 0 then ret (-1)
      else
        put_slot i (set_list hi s rest (i64 (wb_size s - wb_sz tmp))) ;;;
        write_buffer_free tmp ;;;
        send_list_udp rest i hi
  end.

Definition send_list (retries : nat) (i : Z) (hi : bool) : M Z :=
  let! s := get_slot i in
  if protocol s =? PROTOCOL_TCP then send_list_tcp retries (list_of hi s) i hi
  else send_list_udp (list_of hi s) i hi.

Definition list_uncomplete (l : list write_buffer) : bool :=
  match l with
  | [] => false
  | wb :: _ => negb (wb_ptr wb =? wb_buffer wb)
  end.

(** Moves the head of the low list to the empty high list. *)
Definition raise_uncomplete (i : Z) : M unit :=
  let! s := get_slot i in
  match low s with
  | [] => fail Undefined
  | tmp :: rest =>
      m_assert (match high s with [] => true | _ => false end) ;;;
      put_slot i (with_lists s [tmp] rest (wb_size s))
  end.

Definition send_buffer (retries : nat) (i : Z) : M Z :=
  let! s := get_slot i in
  m_assert (negb (list_uncomplete (low s))) ;;;
  let! t := send_list retries i true in
  if t =? SOCKET_CLOSE then ret SOCKET_CLOSE
  else
    let! s := get_slot i in
    match high s with
    | _ :: _ => ret (-1)
    | [] =>
        match low s with
        | _ :: _ =>
            let! t := send_list retries i false in
            if t =? SOCKET_CLOSE then ret SOCKET_CLOSE
            else
              let! s := get_slot i in
              when (list_uncomplete (low s)) (raise_uncomplete i) ;;;
              ret (-1)
        | [] =>
            sp_write (sfd s) i false ;;;
            if type s =? SOCKET_TYPE_HALFCLOSE then force_close i ;;; ret SOCKET_CLOSE
            else ret (-1)
        end
    end.

(** The new buffer, from byte [n] of the object on, at the end of a list. *)
Definition append_sendbuffer_ (l : list write_buffer) (object sz n : Z) (udp_address : list Z)
    : M (list write_buffer * write_buffer) :=
  let! so := send_object_init object sz in
  let buf := mk_wb object (so_buffer so + n) (so_sz so - n) (so_user so) udp_address in
  ret (l ++ [buf], buf).

Definition append_sendbuffer_udp (i prio object sz : Z) (udp_address : list Z) : M unit :=
  let! s := get_slot i in
  let hi := prio =? PRIORITY_HIGH in
  let! r := append_sendbuffer_ (list_of hi s) object sz 0 (take (Z.to_nat UDP_ADDRESS_SIZE) udp_address) in
  put_slot i (set_list hi s r.1 (i64 (wb_size s + wb_sz r.2))).

Definition append_sendbuffer (i object sz n : Z) : M unit :=
  let! s := get_slot i in
  let! r := append_sendbuffer_ (high s) object sz n [] in
  put_slot i (set_list true s r.1 (i64 (wb_size s + wb_sz r.2))).

Definition append_sendbuffer_low (i object sz : Z) : M unit :=
  let! s := get_slot i in
  let! r := append_sendbuffer_ (low s) object sz 0 [] in
  put_slot i (set_list false s r.1 (i64 (wb_size s + wb_sz r.2))).

Definition send_buffer_empty (s : socket) : bool :=
  match high s, low s with [], [] => true | _, _ => false end.

(** [udp_address] is [None] for a null pointer. *)
Definition send_socket (id object sz prio : Z) (udp_address : option (list Z)) : M Z :=
  let i := HASH_ID id in
  let! s := get_slot i in
  let! so := send_object_init object sz in
  if (type s =? SOCKET_TYPE_INVALID) || negb (sid s =? id)
     || (type s =? SOCKET_TYPE_HALFCLOSE) || (type s =? SOCKET_TYPE_PACCEPT) then
    so_free so object ;;;
    ret (-1)
  else
    m_assert (negb (type s =? SOCKET_TYPE_PLISTEN) && negb (type s =? SOCKET_TYPE_LISTEN)) ;;;
    let address := match udp_address with Some a => a | None => p_udp_address s end in
    if send_buffer_empty s && (type s =? SOCKET_TYPE_CONNECTED) then
      if protocol s =? PROTOCOL_TCP then
        let! r := sys_write (sfd s) (bytes_at (so_buffer so) (so_sz so)) in
        if (r.1 <? 0) && negb ((r.2 =? EINTR) || (r.2 =? EAGAIN)) then
          force_close i ;;; ret SOCKET_CLOSE
        else
          let n := if r.1 <? 0 then 0 else r.1 in
          if n =? so_sz so then so_free so object ;;; ret (-1)
          else
            append_sendbuffer i object sz n ;;;
            sp_write (sfd s) i true ;;;
            ret (-1)
      else
        let! r := sys_sendto (sfd s) (bytes_at (so_buffer so) (so_sz so)) (udp_socket_address s address) in
        if negb (r.1 =? so_sz so) then
          append_sendbuffer_udp i prio object sz address ;;;
          sp_write (sfd s) i true ;;;
          ret (-1)
        else so_free so object ;;; ret (-1)
    else
      (if protocol s =? PROTOCOL_TCP then
         if prio =? PRIORITY_LOW then append_sendbuffer_low i object sz
         else append_sendbuffer i object sz 0
       else append_sendbuffer_udp i prio object sz address) ;;;
      ret (-1).

Definition close_socket (retries : nat) (id opq : Z) : M Z :=
  let i := HASH_ID id in
  let! s := get_slot i in
  if (type s =? SOCKET_TYPE_INVALID) || negb (sid s =? id) then
    set_result (mk_msg id opq 0 None) ;;;
    ret SOCKET_CLOSE
  else
    let! t := (if negb (send_buffer_empty s) then send_buffer retries i else ret (-1)) in
    if negb (t =? -1) then ret t
    else
      let! s := get_slot i in
      if send_buffer_empty s then
        force_close i ;;;
        let! r := gets result in
        set_result (mk_msg id opq (msg_ud r) (msg_data r)) ;;;
        ret SOCKET_CLOSE
      else
        put_slot i (with_type s SOCKET_TYPE_HALFCLOSE) ;;;
        ret (-1).

End Sending.

(** ** What a log says about a descriptor *)

Definition written (fd : Z) (l : list sysevent) : list Z :=
  mjoin (omap (fun e => match e with EvWrite f b => if f =? fd then Some b else None | _ => None end) l).

Definition total_size (l : list write_buffer) : Z := foldr (fun wb n => wb_sz wb + n) 0 l.

Section SendLemmas.
Context `{Env}.

(** The bytes and the owners of a list of buffers. *)
Definition rest_bytes (l : list write_buffer) : list Z := mjoin (wb_rest <$> l).
Definition owners (l : list write_buffer) : list (Z * bool) := wb_owner <$> l.

Lemma mjoin_app {A} (l l' : list (list A)) : mjoin (l ++ l') = mjoin l ++ mjoin l'.
Proof. induction l as [|x l IH]; [done|]. rewrite <- app_comm_cons, !mjoin_cons, IH. by rewrite app_assoc. Qed.

Lemma written_app fd l l' : written fd (l ++ l') = written fd l ++ written fd l'.
Proof. unfold written. by rewrite omap_app, mjoin_app. Qed.

Lemma written_write fd b : written fd [EvWrite fd b] = b.
Proof. unfold written. cbn. rewrite Z.eqb_refl. apply app_nil_r. Qed.

Lemma rest_bytes_cons wb l : rest_bytes (wb :: l) = wb_rest wb ++ rest_bytes l.
Proof. done. Qed.

Lemma rest_bytes_app l l' : rest_bytes (l ++ l') = rest_bytes l ++ rest_bytes l'.
Proof. unfold rest_bytes. by rewrite fmap_app, mjoin_app. Qed.

Lemma total_size_app l l' : total_size (l ++ l') = total_size l + total_size l'.
Proof. induction l as [|x l IH]; cbn; [done|]. fold (total_size (l ++ l')) (total_size l). rewrite IH. lia. Qed.

Lemma length_bytes_at ptr sz : 0 <= sz → Z.of_nat (length (bytes_at ptr sz)) = sz.
Proof. intros. unfold bytes_at. rewrite length_fmap, length_seqZ. lia. Qed.

Lemma take_bytes_at ptr sz n :
  0 <= n <= sz → take (Z.to_nat n) (bytes_at ptr sz) ++ bytes_at (ptr + n) (sz - n) = bytes_at ptr sz.
Proof.
  intros Hn. assert (bytes_at ptr sz = bytes_at ptr n ++ bytes_at (ptr + n) (sz - n)) as E.
  { unfold bytes_at. rewrite <- fmap_app. f_equal.
    replace sz with (n + (sz - n)) at 1 by lia. rewrite seqZ_app by lia. done. }
  rewrite E at 1. rewrite take_app_le, take_ge; [done|..]; pose proof (length_bytes_at ptr n); lia.
Qed.

Lemma i64_i64_add a b : i64 (i64 a + b) = i64 (a + b).
Proof.
  unfold swrap at 1 3. change ((?x) mod 2 ^ 64) with (wrap 64 x).
  assert (wrap 64 (i64 a + b) = wrap 64 (a + b)) as ->; [|done].
  unfold wrap. rewrite <- Zplus_mod_idemp_l. change (i64 a mod 2 ^ 64) with (wrap 64 (i64 a)).
  rewrite wrap_swrap by lia. unfold wrap. by rewrite Zplus_mod_idemp_l.
Qed.

(** ** Calls that write *)

(** What one (possibly repeated) write did: nothing, or the first bytes. *)
Definition wrote (fd : Z) (bytes : list Z) (w : world) (r : Z * Z) (w' : world) : Prop :=
  ss w' = ss w ∧ result w' = result w ∧
  ((r.1 = -1 ∧ log w' = log w) ∨
   (0 <= r.1 <= Z.of_nat (length bytes) ∧ log w' = log w ++ [EvWrite fd (take (Z.to_nat r.1) bytes)])).

Lemma sys_write_wrote fd bytes w : wp no_fault (sys_write fd bytes) (wrote fd bytes w) w.
Proof.
  unfold sys_write. wp_steps. destruct (Z.ltb_spec (rv (os (pos w))) 0); wp_steps; repeat split.
  - by left.
  - right. cbn. split; [lia | done].
Qed.

Definition interrupted (r : sysres) : Prop := rv r < 0 ∧ err r = EINTR.

(** A call is interrupted less than [n] times in a row. *)
Definition retries_suffice (n : nat) : Prop := ∀ k, ∃ m, (m < n)%nat ∧ ¬ interrupted (os (k + m)).

Lemma write_retry_wrote n fd bytes : ∀ w,
  (∃ m, (m < n)%nat ∧ ¬ interrupted (os (pos w + m))) →
  wp no_fault (write_retry n fd bytes) (wrote fd bytes w) w.
Proof.
  induction n as [|n IH]; intros w (m & Hm & Hi); [lia|].
  cbn [write_retry]. apply wp_bind. unfold sys_write. wp_steps.
  destruct (Z.ltb_spec (rv (os (pos w))) 0) as [Hn|Hn]; wp_steps.
  - cbn [fst snd]. destruct (Z.eqb_spec (err (os (pos w))) EINTR) as [He|He]; cbn.
    + eapply wp_mono; [apply IH|by intros]. destruct m as [|m].
      { rewrite Nat.add_0_r in Hi. by destruct Hi. }
      exists m. cbn [pos]. rewrite Nat.add_succ_comm. split; [lia | done].
    + repeat split. by left.
  - cbn [fst snd]. rewrite (proj2 (Z.ltb_ge _ 0)) by lia. cbn. repeat split. right. cbn. split; [lia | done].
Qed.

(** ** Flushing one list *)

(** Buffer [wb] with its first [k] bytes gone. *)
Definition advance (wb : write_buffer) (k : Z) : write_buffer :=
  mk_wb (wb_buffer wb) (wb_ptr wb + k) (wb_sz wb - k) (wb_userobject wb) (wb_udp_address wb).

Lemma advance_0 wb : advance wb 0 = wb.
Proof. destruct wb. unfold advance. cbn. f_equal; lia. Qed.

(** [l] after its first buffers are gone and the next one is partly gone. *)
Definition consumed (l gone l' : list write_buffer) : Prop :=
  ∃ left, l = gone ++ left ∧
    match left with
    | [] => l' = []
    | wb :: tl => ∃ k, 0 <= k <= wb_sz wb ∧ l' = advance wb k :: tl
    end.

Lemma consumed_refl l : Forall (fun wb => 0 <= wb_sz wb) l → consumed l [] l.
Proof.
  intros Hl. exists l. split; [done|]. destruct Hl as [|wb tl Hw _]; [done|].
  exists 0. split; [lia | by rewrite advance_0].
Qed.

Lemma consumed_cons wb l gone l' : consumed l gone l' → consumed (wb :: l) (wb :: gone) l'.
Proof. intros (left & -> & Hl). by exists left. Qed.

(** A socket that stays open: list [hi] went from [l] to [l'], the bytes that
    left it were written and the finished buffers freed. *)
Definition flushed (i : Z) (hi : bool) (l : list write_buffer) (w w' : world) : Prop :=
  let s := slot_at (ss w) i in
  ∃ gone l', consumed l gone l' ∧
    (∀ j, j ≠ i → slot_at (ss w') j = slot_at (ss w) j) ∧
    slot_at (ss w') i = set_list hi s l' (i64 (wb_size s - (total_size l - total_size l'))) ∧
    written (sfd s) (log w') ++ rest_bytes l' = written (sfd s) (log w) ++ rest_bytes l ∧
    freed (log w') = freed (log w) ++ owners gone ∧
    closed (log w') = closed (log w).

(** A socket closed by a write error: what it had queued is freed. *)
Definition dropped (i : Z) (l other : list write_buffer) (w w' : world) : Prop :=
  let s := slot_at (ss w) i in
  type (slot_at (ss w') i) = SOCKET_TYPE_INVALID ∧
  (∃ sent, sent `prefix_of` rest_bytes l ∧ written (sfd s) (log w') = written (sfd s) (log w) ++ sent) ∧
  freed (log w') ≡ₚ freed (log w) ++ owners l ++ owners other ∧
  closed (log w') = closed (log w) ++ owned_fd s.

Lemma set_list_eq hi s : set_list hi s (list_of hi s) (wb_size s) = s.
Proof. by destruct hi, s. Qed.

Lemma set_list_set_list hi s l n l' n' : set_list hi (set_list hi s l n) l' n' = set_list hi s l' n'.
Proof. by destruct hi, s. Qed.

Lemma list_of_set_list hi s l n : list_of hi (set_list hi s l n) = l.
Proof. by destruct hi. Qed.

Lemma list_of_other hi s l n : list_of (negb hi) (set_list hi s l n) = list_of (negb hi) s.
Proof. by destruct hi. Qed.

Lemma close_events_lists hi s l n : live s = true →
  freed (close_events (set_list hi s l n)) ≡ₚ owners l ++ owners (list_of (negb hi) s).
Proof.
  intros Hl. rewrite close_events_freed by (by destruct hi). unfold owned_buffers.
  assert (live (set_list hi s l n) = true) as -> by (by destruct hi).
  destruct hi; cbn; unfold owners; rewrite fmap_app; [done | apply Permutation_app_comm].
Qed.

Lemma written_close fd s : written fd (close_events s) = [].
Proof.
  unfold close_events. rewrite !written_app. unfold written.
  by rewrite !omap_fmap_none by done.
Qed.

Lemma slot_put s i x : slot_at (with_slot s (<[i := x]> (slot s))) i = x.
Proof. by rewrite slot_at_insert, decide_True. Qed.

Lemma slot_put_ne s i x j : j ≠ i → slot_at (with_slot s (<[i := x]> (slot s))) j = slot_at s j.
Proof. intros. by rewrite slot_at_insert, decide_False. Qed.

(** The state after the head buffer of a list is written in full and freed. *)
Definition after_head (i : Z) (hi : bool) (wb : write_buffer) (tl : list write_buffer) (w w1 : world) : Prop :=
  let s := slot_at (ss w) i in
  (∀ j, j ≠ i → slot_at (ss w1) j = slot_at (ss w) j) ∧
  slot_at (ss w1) i = set_list hi s tl (i64 (wb_size s - wb_sz wb)) ∧
  written (sfd s) (log w1) = written (sfd s) (log w) ++ wb_rest wb ∧
  freed (log w1) = freed (log w) ++ [wb_owner wb] ∧
  closed (log w1) = closed (log w).

Lemma flushed_cons i hi wb tl w w1 w2 :
  after_head i hi wb tl w w1 → flushed i hi tl w1 w2 → flushed i hi (wb :: tl) w w2.
Proof.
  intros (Hj & Hs & Hw & Hf & Hc) (gone & l' & Hcon & Hj2 & Hs2 & Hw2 & Hf2 & Hc2).
  rewrite Hs in Hw2, Hs2. replace (sfd (set_list _ _ _ _)) with (sfd (slot_at (ss w) i)) in Hw2 by (by destruct hi).
  exists (wb :: gone), l'. split; [by apply consumed_cons|].
  split; [intros j Hne; by rewrite Hj2, Hj|]. split; [|split_and!].
  - rewrite Hs2, set_list_set_list. f_equal. replace (wb_size (set_list _ _ _ _)) with (i64 (wb_size (slot_at (ss w) i) - wb_sz wb)) by (by destruct hi).
    unfold Z.sub at 1. rewrite i64_i64_add. f_equal. cbn. fold (total_size tl). lia.
  - rewrite Hw2, Hw, rest_bytes_cons. by rewrite app_assoc.
  - by rewrite Hf2, Hf, <- app_assoc.
  - congruence.
Qed.

Lemma dropped_cons i hi wb tl w w1 w2 :
  after_head i hi wb tl w w1 →
  dropped i tl (list_of (negb hi) (slot_at (ss w1) i)) w1 w2 →
  dropped i (wb :: tl) (list_of (negb hi) (slot_at (ss w) i)) w w2.
Proof.
  intros (Hj & Hs & Hw & Hf & Hc) (Ht & (sent & Hp & Hw2) & Hf2 & Hc2).
  rewrite Hs in Hw2, Hf2, Hc2. rewrite list_of_other in Hf2.
  replace (sfd (set_list _ _ _ _)) with (sfd (slot_at (ss w) i)) in Hw2 by (by destruct hi).
  replace (owned_fd (set_list _ _ _ _)) with (owned_fd (slot_at (ss w) i)) in Hc2 by (by destruct hi).
  split; [done|]. split; [|split].
  - exists (wb_rest wb ++ sent). rewrite rest_bytes_cons. split; [by apply prefix_app|].
    by rewrite Hw2, Hw, app_assoc.
  - by rewrite Hf2, Hf, <- app_assoc.
  - by rewrite Hc2, Hc.
Qed.

(** A write error: the socket is closed with its lists as they are. *)
Lemma force_close_dropped i hi w w1 :
  let s := slot_at (ss w) i in
  live s = true → ss w1 = ss w → log w1 = log w →
  wp no_fault (force_close i) (fun _ w' => dropped i (list_of hi s) (list_of (negb hi) s) w w') w1.
Proof.
  intros s Hl Hss Hlog. unfold wp. rewrite (force_close_live i w1); rewrite Hss; [|done]. fold s.
  split; [|split; [|split]]; cbn [ss log].
  - by rewrite slot_put.
  - exists []. split; [apply prefix_nil|]. by rewrite Hlog, written_app, written_close.
  - rewrite Hlog, freed_app. f_equiv. rewrite <- (set_list_eq hi s) at 1. by apply close_events_lists.
  - by rewrite Hlog, closed_app, close_events_closed.
Qed.

Lemma live_set_list hi s l n : live (set_list hi s l n) = live s.
Proof. by destruct hi. Qed.

Lemma i64_i64 a : i64 (i64 a) = i64 a.
Proof. pose proof (i64_i64_add a 0) as E. by rewrite !Z.add_0_r in E. Qed.

(** Nothing written: the list is as before. *)
Lemma flushed_refl i hi w w1 :
  let s := slot_at (ss w) i in
  i64 (wb_size s) = wb_size s → Forall (fun wb => 0 <= wb_sz wb) (list_of hi s) →
  ss w1 = ss w → log w1 = log w → flushed i hi (list_of hi s) w w1.
Proof.
  intros s Hr Hsz Hss Hlog. exists [], (list_of hi s). rewrite Hss, Hlog. fold s.
  split; [by apply consumed_refl|]. rewrite Z.sub_diag, Z.sub_0_r, Hr, set_list_eq, app_nil_r. done.
Qed.

(** The head buffer partly written. *)
Lemma flushed_partial i hi wb tl w w1 k :
  let s := slot_at (ss w) i in
  list_of hi s = wb :: tl → 0 <= k <= wb_sz wb →
  (∀ j, j ≠ i → slot_at (ss w1) j = slot_at (ss w) j) →
  slot_at (ss w1) i = set_list hi s (advance wb k :: tl) (i64 (wb_size s - k)) →
  log w1 = log w ++ [EvWrite (sfd s) (take (Z.to_nat k) (wb_rest wb))] →
  flushed i hi (wb :: tl) w w1.
Proof.
  intros s Hb Hk Hj Hs Hlog. exists [], (advance wb k :: tl).
  split; [exists (wb :: tl); split; [done|]; by exists k|]. split; [done|].
  rewrite Hlog, written_app, freed_app, closed_app. fold s. rewrite written_write, !app_nil_r.
  split; [|split; [|done]].
  - rewrite Hs. f_equal. f_equal. cbn. lia.
  - rewrite !rest_bytes_cons. rewrite <- app_assoc, (app_assoc (take _ _)). do 2 f_equal.
    by apply take_bytes_at.
Qed.

Lemma send_list_tcp_spec n i hi bufs : retries_suffice n → ∀ w,
  let s := slot_at (ss w) i in
  live s = true → list_of hi s = bufs → Forall (fun wb => 0 <= wb_sz wb) bufs →
  i64 (wb_size s) = wb_size s →
  wp no_fault (send_list_tcp n bufs i hi)
    (fun t w' => (t = -1 ∧ flushed i hi bufs w w') ∨
                 (t = SOCKET_CLOSE ∧ dropped i bufs (list_of (negb hi) s) w w')) w.
Proof.
  intros Hn. induction bufs as [|wb tl IH]; intros w s Hl Hb Hsz Hr.
  { apply wp_ret. left. split; [done|]. rewrite <- Hb. apply flushed_refl; try done. fold s. by rewrite Hb. }
  cbn [send_list_tcp]. wp_steps. fold s.
  eapply wp_mono; [by apply write_retry_wrote, Hn|].
  intros r w1 (Hss & _ & [(Hneg & Hlog)|(Hpos & Hlog)]).
  - rewrite Hneg. cbn [Z.ltb Z.compare]. destruct (r.2 =? EAGAIN).
    + apply wp_ret. left. split; [done|]. rewrite <- Hb. apply flushed_refl; try done. fold s. by rewrite Hb.
    + apply wp_bind. eapply wp_mono; [by apply (force_close_dropped i hi w)|]. fold s. rewrite Hb.
      intros _ w2 Hd. apply wp_ret. by right.
  - unfold wb_rest in Hpos at 1. apply Forall_cons_1 in Hsz as [Hw Hsz].
    rewrite length_bytes_at in Hpos by done. rewrite (proj2 (Z.ltb_ge _ 0)) by lia.
    destruct (Z.eqb_spec r.1 (wb_sz wb)) as [He|He]; cbn [negb]; wp_steps.
    2:{ left. split; [done|]. apply (flushed_partial i hi wb tl w _ r.1); cbn [ss log]; rewrite ?Hss; try done.
        - intros. by rewrite slot_put_ne.
        - by rewrite slot_put. }
    match goal with |- wp _ _ _ ?w2 => assert (after_head i hi wb tl w w2) as Hah end.
    { split; [|split_and!]; cbn [ss log]; rewrite ?Hss, ?Hlog, ?He.
      - intros. by rewrite slot_put_ne.
      - by rewrite slot_put.
      - rewrite !written_app, written_write. fold s. rewrite take_ge; [by rewrite !app_nil_r|].
        unfold wb_rest. pose proof (length_bytes_at (wb_ptr wb) (wb_sz wb)). lia.
      - by rewrite !freed_app, app_nil_r.
      - by rewrite !closed_app, !app_nil_r. }
    pose proof Hah as (_ & Hs & _). fold s in Hs.
    eapply wp_mono; [apply IH; rewrite ?Hs|].
    + by rewrite live_set_list.
    + by rewrite list_of_set_list.
    + done.
    + replace (wb_size (set_list _ _ _ _)) with (i64 (wb_size s - wb_sz wb)) by (by destruct hi). apply i64_i64.
    + intros t w' [(-> & Hfl)|(-> & Hd)]; [left|right]; (split; [done|]).
      * by eapply flushed_cons.
      * by eapply dropped_cons.
Qed.

End SendLemmas.

(** ** The stream of a TCP socket

    A package is an object submitted with a size and a priority. *)

Record package := mk_pkg { pk_object : Z; pk_sz : Z; pk_low : bool }.

#[export] Instance package_eq_dec : EqDecision package.
Proof. solve_decision. Defined.

Section Stream.
Context `{Env}.

Definition payload (pk : package) : list Z := bytes_at (pk_object pk) (pk_sz pk).
Definition pk_owner (pk : package) : Z * bool := (pk_object pk, false).
Definition whole (pk : package) : write_buffer := mk_wb (pk_object pk) (pk_object pk) (pk_sz pk) false [].
Definition payloads (l : list package) : list Z := mjoin (payload <$> l).

(** What the caller does with a connected socket: submit a package, or let the
    server handle a writable event.  The run stops when the socket is closed. *)
Inductive tx_op :=
| TxSend (object sz prio : Z)
| TxWritable.

Definition tx_exec (retries : nat) (id : Z) (op : tx_op) : M Z :=
  match op with
  | TxSend object sz prio => send_socket id object sz prio None
  | TxWritable => send_buffer retries (HASH_ID id)
  end.

Fixpoint tx_run (retries : nat) (id : Z) (ops : list tx_op) : M bool :=
  match ops with
  | [] => ret true
  | op :: ops =>
      let! t := tx_exec retries id op in
      if t =? SOCKET_CLOSE then ret false else tx_run retries id ops
  end.

Definition submitted (ops : list tx_op) : list package :=
  omap (fun op => match op with
                  | TxSend object sz prio => Some (mk_pkg object sz (prio =? PRIORITY_LOW))
                  | TxWritable => None
                  end) ops.

(** Objects with a size: not user objects. *)
Definition plain (op : tx_op) : Prop :=
  match op with TxSend _ sz _ => 0 <= sz | TxWritable => True end.

Context (id fd : Z) (W0 : list Z) (F0 : list (Z * bool)) (C0 : list Z).

(** The packages of [dh] are written or in the high list, those of [lp] wait in
    the low list. *)
Record tx_inv (dh lp : list package) (w : world) : Prop := {
  tx_type : type (slot_at (ss w) (HASH_ID id)) = SOCKET_TYPE_CONNECTED;
  tx_proto : protocol (slot_at (ss w) (HASH_ID id)) = PROTOCOL_TCP;
  tx_sid : sid (slot_at (ss w) (HASH_ID id)) = id;
  tx_fd : sfd (slot_at (ss w) (HASH_ID id)) = fd;
  tx_high : Forall (fun wb => 0 <= wb_sz wb) (high (slot_at (ss w) (HASH_ID id)));
  tx_low : low (slot_at (ss w) (HASH_ID id)) = whole <$> lp;
  tx_lp : Forall (fun pk => 0 <= pk_sz pk ∧ pk_low pk = true) lp;
  tx_written : written fd (log w) ++ rest_bytes (high (slot_at (ss w) (HASH_ID id))) = W0 ++ payloads dh;
  tx_freed : freed (log w) ++ owners (high (slot_at (ss w) (HASH_ID id))) = F0 ++ (pk_owner <$> dh);
  tx_closed : closed (log w) = C0;
  tx_size : wb_size (slot_at (ss w) (HASH_ID id)) =
              i64 (total_size (high (slot_at (ss w) (HASH_ID id))) + total_size (low (slot_at (ss w) (HASH_ID id))))
}.

(** The socket is gone; what was accepted was written up to some byte, and
    every accepted buffer was freed. *)
Definition tx_gone (order : list package) (w : world) : Prop :=
  type (slot_at (ss w) (HASH_ID id)) = SOCKET_TYPE_INVALID ∧
  closed (log w) = C0 ++ [fd] ∧
  written fd (log w) `prefix_of` W0 ++ payloads order ∧
  freed (log w) ≡ₚ F0 ++ (pk_owner <$> order).

Lemma tx_live dh lp w : tx_inv dh lp w → live (slot_at (ss w) (HASH_ID id)) = true.
Proof. intros Hi. unfold live. by rewrite (tx_type _ _ _ Hi). Qed.

Lemma tx_wb_size dh lp w : tx_inv dh lp w →
  i64 (wb_size (slot_at (ss w) (HASH_ID id))) = wb_size (slot_at (ss w) (HASH_ID id)).
Proof. intros Hi. rewrite (tx_size _ _ _ Hi). apply i64_i64. Qed.

Lemma tx_low_nonneg dh lp w : tx_inv dh lp w →
  Forall (fun wb => 0 <= wb_sz wb) (low (slot_at (ss w) (HASH_ID id))).
Proof.
  intros Hi. rewrite (tx_low _ _ _ Hi). apply list.Forall_fmap.
  eapply list.Forall_impl; [apply (tx_lp _ _ _ Hi)|]. by intros pk [].
Qed.

Lemma owners_consumed l gone l' : consumed l gone l' → owners gone ++ owners l' = owners l.
Proof.
  intros (left & -> & Hl). unfold owners. rewrite fmap_app. f_equal.
  destruct left as [|wb tl]; [by subst|]. by destruct Hl as (k & _ & ->).
Qed.

Lemma consumed_nonneg l gone l' : consumed l gone l' →
  Forall (fun wb => 0 <= wb_sz wb) l → Forall (fun wb => 0 <= wb_sz wb) l'.
Proof.
  intros (left & -> & Hl) [_ Hf]%Forall_app. destruct left as [|wb tl]; [by subst|].
  destruct Hl as (k & Hk & ->). apply Forall_cons_1 in Hf as [? ?]. constructor; cbn; [lia | done].
Qed.

Lemma flush_high_inv dh lp w w' :
  tx_inv dh lp w → flushed (HASH_ID id) true (high (slot_at (ss w) (HASH_ID id))) w w' → tx_inv dh lp w'.
Proof.
  intros Hi (gone & l' & Hc & _ & Hs & Hw & Hf & Hcl). pose proof Hi as [].
  cbn [set_list] in Hs. split; rewrite ?Hs; cbn [with_lists type protocol sid sfd high low wb_size]; try done.
  - by eapply consumed_nonneg.
  - rewrite tx_fd0 in Hw. by etrans; [apply Hw|].
  - by rewrite Hf, <- app_assoc, (owners_consumed _ _ _ Hc).
  - congruence.
  - rewrite tx_size0. unfold Z.sub at 1. rewrite i64_i64_add. f_equal. lia.
Qed.

Lemma payloads_app l l' : payloads (l ++ l') = payloads l ++ payloads l'.
Proof. unfold payloads. by rewrite fmap_app, mjoin_app. Qed.

Lemma rest_bytes_whole l : rest_bytes (whole <$> l) = payloads l.
Proof. unfold rest_bytes, payloads. by rewrite <- list_fmap_compose. Qed.

Lemma owners_whole l : owners (whole <$> l) = pk_owner <$> l.
Proof. unfold owners. by rewrite <- list_fmap_compose. Qed.

(** The part of the low list that is gone joins [dh]; a head left part-way is
    raised to the high list. *)
Definition raise_if_needed : M unit :=
  let! s := get_slot (HASH_ID id) in
  when (list_uncomplete (low s)) (raise_uncomplete (HASH_ID id)).

Lemma low_consumed lp gone l' : consumed (whole <$> lp) gone l' →
  ∃ l1 l2, lp = l1 ++ l2 ∧ gone = whole <$> l1 ∧
    match l2 with
    | [] => l' = []
    | pk :: tl => ∃ k, 0 <= k <= pk_sz pk ∧ l' = advance (whole pk) k :: (whole <$> tl)
    end.
Proof.
  intros (left & Hl & Hm). apply fmap_app_inv in Hl as (l1 & l2 & -> & -> & ->).
  exists l1, l2. split; [done|]. split; [done|]. by destruct l2.
Qed.

Lemma total_size_whole_cons pk l : total_size (whole <$> pk :: l) = pk_sz pk + total_size (whole <$> l).
Proof. done. Qed.

Lemma flush_low_inv dh lp w w' :
  tx_inv dh lp w → high (slot_at (ss w) (HASH_ID id)) = [] →
  flushed (HASH_ID id) false (low (slot_at (ss w) (HASH_ID id))) w w' →
  wp no_fault raise_if_needed (fun _ w'' => ∃ dh' lp', dh' ++ lp' = dh ++ lp ∧ tx_inv dh' lp' w'') w'.
Proof.
  intros Hi Hh (gone & l' & Hc & _ & Hs & Hw & Hf & Hcl). pose proof Hi as [].
  cbn [set_list] in Hs. rewrite Hh in *. rewrite tx_low0 in *.
  apply low_consumed in Hc as (l1 & l2 & -> & -> & Hl2).
  rewrite rest_bytes_whole, tx_fd0, payloads_app, app_assoc in Hw.
  cbn in tx_written0, tx_freed0. rewrite app_nil_r in tx_written0, tx_freed0.
  rewrite tx_written0, <- (app_assoc W0), <- payloads_app in Hw.
  rewrite owners_whole, tx_freed0, <- app_assoc, <- fmap_app in Hf.
  apply Forall_app in tx_lp0 as [_ Hl2p].
  assert (wb_size (slot_at (ss w') (HASH_ID id)) = i64 (total_size l')) as Hsize.
  { rewrite Hs, tx_size0. cbn [with_lists wb_size]. unfold Z.sub at 1. rewrite i64_i64_add. f_equal. cbn. lia. }
  rewrite tx_closed0 in Hcl.
  unfold raise_if_needed. wp_steps.
  destruct l2 as [|pk tl]; [|destruct Hl2 as (k & Hk & ->); destruct (decide (k = 0)) as [->|Hk0]].
  - subst l'. rewrite Hs. cbn. exists (dh ++ l1), []. rewrite !app_nil_r in *. split; [done|].
    split; rewrite ?Hs in *; cbn in *; rewrite ?app_nil_r; done.
  - rewrite Hs. cbn [with_lists low list_uncomplete advance wb_ptr wb_buffer whole].
    rewrite Z.add_0_r, Z.eqb_refl. cbn [negb when]. apply wp_ret. rewrite advance_0 in *.
    exists (dh ++ l1), (pk :: tl). split; [by rewrite <- app_assoc|].
    change (whole pk :: (whole <$> tl)) with (whole <$> pk :: tl) in *.
    rewrite rest_bytes_whole, payloads_app, app_assoc in Hw. apply app_inv_tail in Hw.
    split; rewrite ?Hs in *; cbn [with_lists type protocol sid sfd high low wb_size] in *; try done.
    + cbn. by rewrite app_nil_r, payloads_app, app_assoc.
    + cbn. by rewrite app_nil_r.
  - rewrite Hs at 1. cbn [with_lists low list_uncomplete advance wb_ptr wb_buffer whole].
    rewrite (proj2 (Z.eqb_neq _ _)) by lia. cbn [negb when]. unfold raise_uncomplete. wp_steps.
    rewrite Hs. cbn [with_lists low high m_assert]. wp_steps.
    exists (dh ++ l1 ++ [pk]), tl. split; [by rewrite <- !app_assoc|].
    rewrite rest_bytes_cons, rest_bytes_whole in Hw.
    change (pk :: tl) with ([pk] ++ tl) in Hw. rewrite (payloads_app [pk]), !app_assoc in Hw.
    apply app_inv_tail in Hw. rewrite <- (app_assoc W0), <- payloads_app in Hw.
    apply Forall_cons_1 in Hl2p as [[Hp1 Hp2] Htl].
    split; cbn [ss log]; rewrite ?slot_put; cbn [with_lists type protocol sid sfd high low wb_size]; try done.
    + repeat constructor. cbn. lia.
    + cbn. rewrite app_nil_r. etrans; [apply Hw|]. by rewrite <- !app_assoc.
    + rewrite Hf. cbn. by rewrite !fmap_app, <- !app_assoc.
    + rewrite Hs in Hsize. cbn [with_lists wb_size] in Hsize. rewrite Hsize. f_equal.
      unfold total_size. cbn. lia.
Qed.

Lemma owned_fd_tx dh lp w : tx_inv dh lp w → owned_fd (slot_at (ss w) (HASH_ID id)) = [fd].
Proof.
  intros Hi. unfold owned_fd. rewrite (tx_live _ _ _ Hi), (tx_type _ _ _ Hi). cbn. by rewrite (tx_fd _ _ _ Hi).
Qed.

Lemma dropped_high_gone dh lp w w' :
  tx_inv dh lp w →
  dropped (HASH_ID id) (high (slot_at (ss w) (HASH_ID id))) (low (slot_at (ss w) (HASH_ID id))) w w' →
  tx_gone (dh ++ lp) w'.
Proof.
  intros Hi (Ht & (sent & Hp & Hw) & Hf & Hc). rewrite (owned_fd_tx _ _ _ Hi) in Hc.
  destruct Hi. rewrite tx_fd0, tx_low0, owners_whole in *. split; [done|].
  split; [by rewrite Hc, tx_closed0|]. split.
  - rewrite Hw, payloads_app, app_assoc, <- tx_written0. apply prefix_app_r. by apply prefix_app.
  - by rewrite Hf, app_assoc, tx_freed0, fmap_app, app_assoc.
Qed.

Lemma dropped_low_gone dh lp w w' :
  tx_inv dh lp w → high (slot_at (ss w) (HASH_ID id)) = [] →
  dropped (HASH_ID id) (low (slot_at (ss w) (HASH_ID id))) [] w w' →
  tx_gone (dh ++ lp) w'.
Proof.
  intros Hi Hh (Ht & (sent & Hp & Hw) & Hf & Hc). rewrite (owned_fd_tx _ _ _ Hi) in Hc.
  destruct Hi. rewrite tx_fd0, tx_low0, owners_whole, rest_bytes_whole, Hh in *.
  cbn in tx_written0, tx_freed0. rewrite app_nil_r in *. split; [done|].
  split; [by rewrite Hc, tx_closed0|]. split.
  - rewrite Hw, payloads_app, app_assoc, <- tx_written0. by apply prefix_app.
  - by rewrite Hf, tx_freed0, fmap_app, app_assoc.
Qed.

Lemma whole_complete lp : list_uncomplete (whole <$> lp) = false.
Proof. destruct lp; [done|]. cbn. by rewrite Z.eqb_refl. Qed.

(** Events other than writes, frees and closes do not matter. *)
Lemma tx_inv_emit dh lp w e r n :
  written fd [e] = [] → freed [e] = [] → closed [e] = [] →
  tx_inv dh lp w → tx_inv dh lp (mk_world (ss w) r n (log w ++ [e])).
Proof.
  intros Hw Hf Hc []. split; cbn [ss log]; rewrite ?written_app, ?freed_app, ?closed_app, ?Hw, ?Hf, ?Hc, ?app_nil_r; done.
Qed.

(** What one operation leaves, given the order so far. *)
Definition tx_after (order : list package) (t : Z) (w : world) : Prop :=
  (t = -1 ∧ ∃ dh lp, dh ++ lp = order ∧ tx_inv dh lp w) ∨ (t = SOCKET_CLOSE ∧ tx_gone order w).

Lemma send_buffer_tx n dh lp w :
  retries_suffice n → tx_inv dh lp w → wp no_fault (send_buffer n (HASH_ID id)) (tx_after (dh ++ lp)) w.
Proof.
  intros Hn Hi. unfold send_buffer. wp_steps. rewrite (tx_low _ _ _ Hi), whole_complete. cbn [negb m_assert].
  wp_steps. unfold send_list. wp_steps. rewrite (tx_proto _ _ _ Hi). cbn [Z.eqb PROTOCOL_TCP list_of].
  eapply wp_mono; [apply send_list_tcp_spec; try done|].
  { by eapply tx_live. } { by apply (tx_high _ _ _ Hi). } { by eapply tx_wb_size. }
  intros t w1 [(-> & Hfl)|(-> & Hd)].
  2:{ cbn. right. split; [done|]. by eapply dropped_high_gone. }
  cbn [Z.eqb SOCKET_CLOSE]. wp_steps. apply (flush_high_inv _ _ _ _ Hi) in Hfl as Hi1.
  destruct (high (slot_at (ss w1) (HASH_ID id))) as [|wb tl] eqn:Hh; [|left; split; [done|]; by exists dh, lp].
  destruct (low (slot_at (ss w1) (HASH_ID id))) as [|wb tl] eqn:Hl.
  { wp_steps. rewrite (tx_type _ _ _ Hi1). cbn. left. split; [done|]. exists dh, lp. split; [done|].
    by apply tx_inv_emit. }
  wp_steps. unfold send_list. wp_steps. rewrite (tx_proto _ _ _ Hi1). cbn [Z.eqb PROTOCOL_TCP list_of].
  eapply wp_mono; [apply send_list_tcp_spec; try done|].
  { by eapply tx_live. } { by eapply tx_low_nonneg. } { by eapply tx_wb_size. }
  intros t w2 [(-> & Hfl2)|(-> & Hd)].
  2:{ cbn. right. split; [done|]. eapply dropped_low_gone; [done..|]. cbn [negb list_of] in Hd. by rewrite Hh in Hd. }
  cbn [Z.eqb SOCKET_CLOSE]. pose proof (flush_low_inv _ _ _ _ Hi1 Hh Hfl2) as Hr.
  unfold raise_if_needed in Hr. wp_step. wp_step. unfold wp in Hr |- *. cbn in Hr |- *.
  unfold bind in *. cbn in *. destruct (when _ _ w2) as [[[] w3]|]; [|done]. left. by split.
Qed.

(** A package joins the end of the high list, from byte [k] on. *)
Lemma tx_inv_append_high dh lp pk k w w1 :
  tx_inv dh lp w → 0 <= k <= pk_sz pk →
  slot_at (ss w1) (HASH_ID id) =
    (let s := slot_at (ss w) (HASH_ID id) in
     with_lists s (high s ++ [advance (whole pk) k]) (low s) (i64 (wb_size s + (pk_sz pk - k)))) →
  written fd (log w1) ++ rest_bytes (high (slot_at (ss w) (HASH_ID id)) ++ [advance (whole pk) k]) =
    written fd (log w) ++ rest_bytes (high (slot_at (ss w) (HASH_ID id))) ++ payload pk →
  freed (log w1) = freed (log w) → closed (log w1) = closed (log w) →
  tx_inv (dh ++ [pk]) lp w1.
Proof.
  intros [] Hk Hs Hw Hf Hc. cbv zeta in Hs.
  split; rewrite ?Hs; cbn [with_lists type protocol sid sfd high low wb_size]; try done.
  - apply Forall_app. split; [done|]. repeat constructor. cbn. lia.
  - rewrite Hw, app_assoc, tx_written0, payloads_app, <- app_assoc. unfold payloads. cbn. by rewrite app_nil_r.
  - unfold owners. rewrite Hf, !fmap_app, !app_assoc. f_equal. apply tx_freed0.
  - by rewrite Hc.
  - rewrite tx_size0, i64_i64_add, total_size_app. f_equal. cbn. lia.
Qed.

Lemma tx_inv_append_low dh lp pk w w1 :
  tx_inv dh lp w → 0 <= pk_sz pk → pk_low pk = true →
  slot_at (ss w1) (HASH_ID id) =
    (let s := slot_at (ss w) (HASH_ID id) in
     with_lists s (high s) (low s ++ [whole pk]) (i64 (wb_size s + pk_sz pk))) →
  log w1 = log w → tx_inv dh (lp ++ [pk]) w1.
Proof.
  intros [] Hk Hp Hs Hl. cbv zeta in Hs.
  split; rewrite ?Hs, ?Hl; cbn [with_lists type protocol sid sfd high low wb_size]; try done.
  - by rewrite tx_low0, fmap_app.
  - apply Forall_app. split; [done|]. by repeat constructor.
  - rewrite tx_size0, i64_i64_add, total_size_app. f_equal. cbn. lia.
Qed.

(** A package written in full at once. *)
Lemma tx_inv_direct dh pk w w1 :
  tx_inv dh [] w → high (slot_at (ss w) (HASH_ID id)) = [] → ss w1 = ss w →
  written fd (log w1) = written fd (log w) ++ payload pk →
  freed (log w1) = freed (log w) ++ [pk_owner pk] → closed (log w1) = closed (log w) →
  tx_inv (dh ++ [pk]) [] w1.
Proof.
  intros [] Hh Hss Hw Hf Hc. rewrite Hh in *. cbn in tx_written0, tx_freed0. rewrite app_nil_r in *.
  split; rewrite ?Hss, ?Hh; try done.
  - cbn. rewrite app_nil_r, Hw, tx_written0, payloads_app, <- app_assoc. unfold payloads. cbn. by rewrite app_nil_r.
  - cbn. by rewrite app_nil_r, Hf, tx_freed0, fmap_app, app_assoc.
  - by rewrite Hc.
Qed.

(** Where a submitted package goes. *)
Definition tx_joins (dh lp : list package) (pk : package) (dh' lp' : list package) : Prop :=
  (dh' = dh ++ [pk] ∧ lp' = lp ∧ (pk_low pk = false ∨ lp = [])) ∨
  (dh' = dh ∧ lp' = lp ++ [pk] ∧ pk_low pk = true).

Definition tx_sent (dh lp : list package) (pk : package) (t : Z) (w : world) : Prop :=
  (t = -1 ∧ ∃ dh' lp', tx_joins dh lp pk dh' lp' ∧ tx_inv dh' lp' w) ∨
  (t = SOCKET_CLOSE ∧ tx_gone (dh ++ lp) w).

Lemma send_socket_queued dh lp object sz prio w :
  tx_inv dh lp w → 0 <= sz → send_buffer_empty (slot_at (ss w) (HASH_ID id)) = false →
  wp no_fault (send_socket id object sz prio None) (tx_sent dh lp (mk_pkg object sz (prio =? PRIORITY_LOW))) w.
Proof.
  intros Hi Hsz He. unfold send_socket. wp_steps.
  unfold send_object_init. rewrite (proj2 (Z.ltb_ge sz 0)) by done. wp_steps.
  rewrite (tx_type _ _ _ Hi), (tx_sid _ _ _ Hi), (tx_proto _ _ _ Hi), Z.eqb_refl, He. cbn -[tx_sent]. wp_steps.
  destruct (Z.eqb_spec prio PRIORITY_LOW) as [Hp|Hp];
    unfold append_sendbuffer, append_sendbuffer_low, append_sendbuffer_, send_object_init; wp_steps;
    rewrite (proj2 (Z.ltb_ge sz 0)) by done; wp_steps; left; (split; [done|]).
  - exists dh, (lp ++ [mk_pkg object sz true]). split; [right; done|].
    eapply tx_inv_append_low; [done..| |done]. cbn [ss]. rewrite slot_put.
    unfold whole. cbn. by rewrite Z.add_0_r, Z.sub_0_r.
  - exists (dh ++ [mk_pkg object sz false]), lp. split; [left; auto|].
    eapply (tx_inv_append_high _ _ _ 0); cbn; try done.
    + rewrite slot_put. done.
    + rewrite rest_bytes_app. do 2 f_equal. unfold rest_bytes. cbn.
      rewrite app_nil_r. unfold wb_rest. cbn. by rewrite Z.add_0_r, Z.sub_0_r.
Qed.

Lemma send_buffer_empty_lists s : send_buffer_empty s = true → high s = [] ∧ low s = [].
Proof. unfold send_buffer_empty. by destruct (high s), (low s). Qed.

(** What the direct write leaves: the first [n] bytes are out. *)
Lemma send_socket_direct_rest dh object sz prio n w w1 :
  let s := slot_at (ss w) (HASH_ID id) in
  let pk := mk_pkg object sz (prio =? PRIORITY_LOW) in
  tx_inv dh [] w → 0 <= n <= sz → high s = [] → ss w1 = ss w →
  written fd (log w1) = written fd (log w) ++ take (Z.to_nat n) (payload pk) →
  freed (log w1) = freed (log w) → closed (log w1) = closed (log w) →
  wp no_fault
    (if n =? sz then so_free (mk_so object sz false) object ;;; ret (-1)
     else append_sendbuffer (HASH_ID id) object sz n ;;; sp_write (sfd s) (HASH_ID id) true ;;; ret (-1))
    (tx_sent dh [] pk) w1.
Proof.
  intros s pk Hi Hn Hh Hss Hw Hf Hc.
  destruct (Z.eqb_spec n sz) as [->|Hne]; wp_steps.
  - left. split; [done|]. exists (dh ++ [pk]), []. split; [left; auto|].
    apply (tx_inv_direct _ _ w); cbn [ss log]; try done.
    + rewrite written_app, Hw, app_nil_r. f_equal. apply take_ge.
      pose proof (length_bytes_at object sz). unfold payload. cbn. lia.
    + by rewrite freed_app, Hf.
    + by rewrite closed_app, Hc, app_nil_r.
  - unfold append_sendbuffer, append_sendbuffer_, send_object_init. wp_steps.
    rewrite (proj2 (Z.ltb_ge sz 0)) by lia. wp_steps. left. split; [done|].
    exists (dh ++ [pk]), []. split; [left; auto|]. apply tx_inv_emit; try done.
    eapply (tx_inv_append_high _ _ _ n w); cbn [ss log]; try done.
    + rewrite slot_put. by rewrite Hss.
    + fold s. rewrite Hw, Hh. cbn. rewrite app_nil_r, <- app_assoc. f_equal.
      by apply (take_bytes_at object sz n).
Qed.

(** A connected TCP socket with empty lists is written to directly. *)
Lemma send_socket_direct E dh lp object sz prio Q w :
  let s := slot_at (ss w) (HASH_ID id) in
  tx_inv dh lp w → 0 <= sz → send_buffer_empty s = true →
  wp E (let! r := sys_write (sfd s) (bytes_at object sz) in
        if (r.1 <? 0) && negb ((r.2 =? EINTR) || (r.2 =? EAGAIN)) then
          force_close (HASH_ID id) ;;; ret SOCKET_CLOSE
        else
          let n := if r.1 <? 0 then 0 else r.1 in
          if n =? sz then so_free (mk_so object sz false) object ;;; ret (-1)
          else append_sendbuffer (HASH_ID id) object sz n ;;; sp_write (sfd s) (HASH_ID id) true ;;; ret (-1)) Q w →
  wp E (send_socket id object sz prio None) Q w.
Proof.
  intros s Hi Hsz He HQ. unfold send_socket. wp_steps. unfold send_object_init.
  rewrite (proj2 (Z.ltb_ge sz 0)) by done. wp_steps. fold s.
  rewrite (tx_type _ _ _ Hi : type s = _), (tx_sid _ _ _ Hi : sid s = _), (tx_proto _ _ _ Hi : protocol s = _),
    Z.eqb_refl, He. exact HQ.
Qed.

Lemma send_socket_tx dh lp object sz prio w :
  tx_inv dh lp w → 0 <= sz →
  wp no_fault (send_socket id object sz prio None) (tx_sent dh lp (mk_pkg object sz (prio =? PRIORITY_LOW))) w.
Proof.
  intros Hi Hsz. destruct (send_buffer_empty (slot_at (ss w) (HASH_ID id))) eqn:He;
    [|by apply send_socket_queued].
  eapply send_socket_direct; [done..|]. apply send_buffer_empty_lists in He as [Hh Hl].
  assert (lp = []) as -> by (rewrite (tx_low _ _ _ Hi) in Hl; by destruct lp). wp_steps.
  eapply wp_mono; [apply sys_write_wrote|].
  intros r w1 (Hss & _ & [(Hr & Hlog)|(Hr & Hlog)]).
  - rewrite Hr. change (-1 <? 0) with true. cbn [andb].
    destruct ((r.2 =? EINTR) || (r.2 =? EAGAIN)); cbn [negb].
    + apply (send_socket_direct_rest _ _ _ _ 0 w); rewrite ?Hlog; try done. by rewrite app_nil_r.
    + apply wp_bind. eapply wp_mono; [apply (force_close_dropped _ true w); [by eapply tx_live|done..]|].
      intros u w2 Hd. cbn beta in Hd. apply wp_ret. right. split; [done|]. by eapply dropped_high_gone.
  - rewrite length_bytes_at in Hr by done. rewrite (proj2 (Z.ltb_ge r.1 0)) by lia. cbn [andb].
    apply (send_socket_direct_rest _ _ _ _ r.1 w); rewrite ?Hlog, ?(tx_fd _ _ _ Hi); try done.
    + by rewrite written_app, written_write.
    + by rewrite freed_app, app_nil_r.
    + by rewrite closed_app, app_nil_r.
Qed.

(** [order] keeps the order of [subs] within each priority. *)
Definition same_order (order subs : list package) : Prop :=
  ∀ b, filter (fun pk => pk_low pk = b) order = filter (fun pk => pk_low pk = b) subs.

Lemma low_none b lp : Forall (fun pk => 0 <= pk_sz pk ∧ pk_low pk = true) lp → b = false →
  filter (fun pk => pk_low pk = b) lp = [].
Proof.
  intros Hl ->. apply filter_none. intros pk Hpk ?. rewrite list.Forall_forall in Hl.
  destruct (Hl pk Hpk). congruence.
Qed.

Lemma same_order_joins dh lp pk dh' lp' subs w :
  tx_inv dh lp w → tx_joins dh lp pk dh' lp' → same_order (dh ++ lp) subs → same_order (dh' ++ lp') (subs ++ [pk]).
Proof.
  intros Hi Hj Hs b. rewrite (list.filter_app _ subs), <- (Hs b).
  destruct Hj as [(-> & -> & [Hb| ->])|(-> & -> & Hb)].
  - rewrite !list.filter_app, <- !app_assoc. f_equal. destruct b.
    + rewrite (filter_cons_False _ pk) by congruence. by rewrite app_nil_r.
    + by rewrite (low_none false lp (tx_lp _ _ _ Hi)), app_nil_r by done.
  - by rewrite !app_nil_r, list.filter_app.
  - by rewrite app_assoc, list.filter_app.
Qed.

(** The outcome of a run: open with everything accounted for, or closed by the
    operation [op], with everything accepted before it accounted for. *)
Definition tx_outcome (subs : list package) (ops : list tx_op) (is_open : bool) (w : world) : Prop :=
  if is_open then ∃ dh lp, tx_inv dh lp w ∧ same_order (dh ++ lp) (subs ++ submitted ops)
  else ∃ before op after order, ops = before ++ op :: after ∧
         same_order order (subs ++ submitted before) ∧ tx_gone order w.

Lemma tx_outcome_cons subs pks op ops is_open w :
  submitted [op] = pks → tx_outcome (subs ++ pks) ops is_open w → tx_outcome subs (op :: ops) is_open w.
Proof.
  assert (∀ l, submitted (op :: l) = submitted [op] ++ submitted l) as Hs
    by (intros l; apply (omap_app _ [op] l)).
  intros Hop. unfold tx_outcome. destruct is_open.
  - rewrite Hs, Hop, app_assoc. done.
  - intros (before & op' & after & order & -> & Ho & Hg). exists (op :: before), op', after, order.
    by rewrite Hs, Hop, app_assoc.
Qed.

Lemma tx_run_spec n ops : retries_suffice n → ∀ w subs dh lp,
  tx_inv dh lp w → same_order (dh ++ lp) subs → Forall plain ops →
  wp no_fault (tx_run n id ops) (tx_outcome subs ops) w.
Proof.
  intros Hn. induction ops as [|op ops IH]; intros w subs dh lp Hi Hs Hp; cbn [tx_run].
  { apply wp_ret. exists dh, lp. by rewrite app_nil_r. }
  assert (∀ w1, tx_gone (dh ++ lp) w1 → tx_outcome subs (op :: ops) false w1) as Hclosed.
  { intros w1 Hg. exists [], op, ops, (dh ++ lp). by rewrite app_nil_r. }
  apply Forall_cons_1 in Hp as [Hop Hp]. apply wp_bind. destruct op as [object sz prio|]; cbn [tx_exec].
  - eapply wp_mono; [by apply send_socket_tx|].
    intros t w1 [(-> & dh' & lp' & Hj & Hi')|(-> & Hg)]; [|apply wp_ret; by apply Hclosed].
    change (-1 =? SOCKET_CLOSE) with false. cbn iota.
    eapply wp_mono; [eapply IH; [done|exact (same_order_joins _ _ _ _ _ _ _ Hi Hj Hs)|done]|].
    intros o w2 Ho. by eapply tx_outcome_cons.
  - eapply wp_mono; [by apply send_buffer_tx|].
    intros t w1 [(-> & dh' & lp' & Hj & Hi')|(-> & Hg)]; [|apply wp_ret; by apply Hclosed].
    change (-1 =? SOCKET_CLOSE) with false. cbn iota.
    eapply wp_mono; [eapply IH; [done|by rewrite Hj|done]|].
    intros o w2 Ho. apply (tx_outcome_cons _ []); [done|]. by rewrite app_nil_r.
Qed.

End Stream.

(** A connected TCP socket with nothing queued. *)
Definition idle (w : world) (id : Z) : bool :=
  let s := slot_at (ss w) (HASH_ID id) in
  (type s =? SOCKET_TYPE_CONNECTED) && (protocol s =? PROTOCOL_TCP) && (sid s =? id) &&
  send_buffer_empty s && (wb_size s =? 0).

Section StreamClaims.
Context `{Env}.

Lemma idle_inv w id :
  idle w id = true →
  let s := slot_at (ss w) (HASH_ID id) in
  tx_inv id (sfd s) (written (sfd s) (log w)) (freed (log w)) (closed (log w)) [] [] w.
Proof.
  unfold idle. intros ((((Ht & Hpr)%andb_prop & Hid)%andb_prop & He)%andb_prop & Hw)%andb_prop.
  apply Z.eqb_eq in Ht, Hpr, Hid, Hw. apply send_buffer_empty_lists in He as [Hh Hl].
  split; rewrite ?Ht, ?Hpr, ?Hid, ?Hw, ?Hh, ?Hl; try done; cbn; by rewrite ?app_nil_r.
Qed.

(** C16: however packages of plain memory of both priorities and writable events
    follow one another on a connected TCP socket with nothing queued, and whatever the
    system answers, nothing faults.  While the socket is open, the bytes written so far
    followed by the bytes queued are the payloads of all submitted packages, each
    exactly once and as a whole, in an order that keeps the order of submission within
    each priority; the buffers freed followed by the buffers queued are the objects of
    these packages in the same order; and wb_size is the number of bytes queued.
    When a write error in an operation closes the socket, the packages of exactly the
    operations before it form such an order: the bytes written are a prefix of its
    payloads, its buffers are all freed, each once, and the descriptor is closed once.
    The package whose own direct write failed is not among them; its buffer is not
    freed ([send_socket_error_leaks]).  User objects, whose size is negative, are
    outside [plain] ([low_user_object_fails_assert]). *)
Theorem tcp_stream_in_order n id ops w :
  retries_suffice n → idle w id = true → Forall plain ops →
  ∃ is_open w', tx_run n id ops w = Ok (is_open, w') ∧
    let fd := sfd (slot_at (ss w) (HASH_ID id)) in
    let s' := slot_at (ss w') (HASH_ID id) in
    let queue := high s' ++ low s' in
    if is_open : bool then
      ∃ order, same_order order (submitted ops) ∧
        written fd (log w') ++ rest_bytes queue = written fd (log w) ++ payloads order ∧
        freed (log w') ++ owners queue = freed (log w) ++ (pk_owner <$> order) ∧
        wb_size s' = i64 (total_size queue)
    else
      ∃ before op after order, ops = before ++ op :: after ∧ same_order order (submitted before) ∧
        type s' = SOCKET_TYPE_INVALID ∧
        written fd (log w') `prefix_of` written fd (log w) ++ payloads order ∧
        freed (log w') ≡ₚ freed (log w) ++ (pk_owner <$> order) ∧
        closed (log w') = closed (log w) ++ [fd].
Proof.
  intros Hn Hi Hp. apply idle_inv in Hi.
  destruct (wp_no_fault _ _ _ (tx_run_spec _ _ _ _ _ n ops Hn w [] [] [] Hi ltac:(done) Hp))
    as (is_open & w' & Hrun & Hout).
  exists is_open, w'. split; [done|]. cbv zeta. destruct is_open.
  - destruct Hout as (dh & lp & [] & Hs). exists (dh ++ lp). split; [done|].
    unfold owners. rewrite tx_low0, rest_bytes_app, rest_bytes_whole, payloads_app, !fmap_app, !app_assoc.
    split; [by rewrite tx_written0|]. split; [|by rewrite tx_size0, tx_low0, total_size_app].
    fold (owners (high (slot_at (ss w') (HASH_ID id)))) (owners (whole <$> lp)).
    by rewrite tx_freed0, owners_whole.
  - destruct Hout as (before & op & after & order & Hops & Hs & Ht & Hc & Hw & Hf).
    by exists before, op, after, order.
Qed.

(** When the first write of a package to an idle socket fails with an error
    other than EINTR and EAGAIN, send_socket closes the socket and reports it, but
    does not free the package's buffer, which no list holds either: it is leaked. *)
Theorem send_socket_error_leaks id object sz prio w :
  idle w id = true → 0 <= sz → rv (os (pos w)) < 0 → err (os (pos w)) ∉ [EINTR; EAGAIN] →
  ∃ t w', send_socket id object sz prio None w = Ok (t, w') ∧ t = SOCKET_CLOSE ∧
    freed (log w') = freed (log w) ∧ send_buffer_empty (slot_at (ss w') (HASH_ID id)) = true.
Proof.
  intros Hi Hsz Hr He. pose proof (idle_inv _ _ Hi) as Htx. cbv zeta in Htx.
  unfold idle in Hi. apply andb_prop in Hi as [(_ & Hemp)%andb_prop _].
  apply wp_no_fault. eapply send_socket_direct; [done..|]. unfold sys_write. wp_steps.
  rewrite (proj2 (Z.ltb_lt _ 0) Hr). wp_steps. cbn [fst snd].
  rewrite !not_elem_of_cons in He. destruct He as (He1 & He2 & _).
  rewrite (proj2 (Z.eqb_neq _ _) He1), (proj2 (Z.eqb_neq _ _) He2). cbn. wp_steps.
  unfold wp. rewrite force_close_live; cbn [ss]; [|by eapply tx_live].
  apply send_buffer_empty_lists in Hemp as [Hh Hl].
  split; [done|]. cbn [ss log]. rewrite slot_put. split; [|done].
  rewrite freed_app, close_events_freed by (by eapply tx_live). unfold owned_buffers.
  rewrite Hh, Hl. destruct (live _); apply app_nil_r.
Qed.

(** A user object whose bytes are not at its own address, submitted with low
    priority to a socket whose low list is empty but which has other data queued,
    makes the next flush fail its assertion: list_uncomplete compares the buffer's
    pointer with the object and takes the untouched head for a part-sent one. *)
Theorem low_user_object_fails_assert n id object sz o w :
  let s := slot_at (ss w) (HASH_ID id) in
  type s = SOCKET_TYPE_CONNECTED → protocol s = PROTOCOL_TCP → sid s = id →
  high s ≠ [] → low s = [] → soi (ss w) = Some o → sz < 0 → soi_buffer o object ≠ object →
  ∃ w', send_socket id object sz PRIORITY_LOW None w = Ok (-1, w') ∧
    send_buffer n (HASH_ID id) w' = Fault AssertFail.
Proof.
  intros s Ht Hp Hid Hh Hl Ho Hsz Hb.
  unfold send_socket, send_object_init, bind, get_slot, gets. fold s.
  rewrite (proj2 (Z.ltb_lt _ 0) Hsz), Ho, Ht, Hp, Hid, Z.eqb_refl. unfold send_buffer_empty.
  destruct (high s) as [|wb tl] eqn:Eh; [done|]. cbn.
  unfold append_sendbuffer_low, append_sendbuffer_, send_object_init, bind, get_slot, gets.
  rewrite (proj2 (Z.ltb_lt _ 0) Hsz), Ho. fold s. cbn -[slot_at]. rewrite Hl. cbn -[slot_at].
  eexists. split; [reflexivity|].
  unfold send_buffer, bind, get_slot, gets. cbn [ss]. rewrite slot_put. cbn.
  by rewrite Z.add_0_r, (proj2 (Z.eqb_neq _ _) Hb).
Qed.

End StreamClaims.

(** ** Concrete runs *)

(** Socket 7 on descriptor 9, connected and idle. *)
Definition conn_world : world :=
  mk_world (with_slot ss0 {[7 := mk_socket 1 [] [] 0 9 7 PROTOCOL_TCP SOCKET_TYPE_CONNECTED (replicate 20 0)]})
    (mk_msg 0 0 0 None) 0 [].

(** Two bytes are taken per call: a low package is cut, raised, then followed by
    the high one. *)
Definition tx_ops : list tx_op :=
  [TxSend 100 5 PRIORITY_LOW; TxSend 200 3 PRIORITY_LOW; TxSend 300 2 PRIORITY_HIGH; TxWritable; TxWritable; TxWritable].

Lemma tcp_stream_in_order_witness :
  (∃ w', @tx_run (const_env 2 0) 1 7 tx_ops conn_world = Ok (true, w') ∧
         written 9 (log w') = [100; 101; 102; 103; 104; 44; 45; 200; 201; 202]) ∧
  ∃ is_open w', @tx_run (const_env 2 0) 1 7 tx_ops conn_world = Ok (is_open, w').
Proof.
  split; [eexists; split; vm_compute; reflexivity|].
  destruct (@tcp_stream_in_order (const_env 2 0) 1 7 tx_ops conn_world) as (o & w' & Hr & _).
  - intros k. exists 0%nat. split; [lia|]. intros [Hn _]. cbn in Hn. lia.
  - reflexivity.
  - repeat constructor; cbn; lia.
  - by exists o, w'.
Defined.

(** EPIPE on the first write. *)
Lemma send_socket_error_leaks_witness :
  ∃ t w', @send_socket (const_env (-1) 32) 7 100 5 PRIORITY_HIGH None conn_world = Ok (t, w') ∧ t = SOCKET_CLOSE.
Proof.
  destruct (@send_socket_error_leaks (const_env (-1) 32) 7 100 5 PRIORITY_HIGH conn_world) as (t & w' & Hr & Ht & _).
  - reflexivity.
  - lia.
  - cbn. lia.
  - cbn. rewrite !not_elem_of_cons. split; [discriminate|]. split; [discriminate|]. apply not_elem_of_nil.
  - by exists t, w'.
Defined.

(** One package queued, and user objects whose bytes follow a header of 16. *)
Definition queued_world : world :=
  mk_world (with_soi (with_slot ss0
      {[7 := mk_socket 1 [mk_wb 100 100 5 false []] [] 5 9 7 PROTOCOL_TCP SOCKET_TYPE_CONNECTED (replicate 20 0)]})
      (mk_soi (fun o => o + 16) (fun _ => 4)))
    (mk_msg 0 0 0 None) 0 [].

Lemma low_user_object_fails_assert_witness :
  ∃ w', @send_socket (const_env 2 0) 7 500 (-1) PRIORITY_LOW None queued_world = Ok (-1, w') ∧
    @send_buffer (const_env 2 0) 1 (HASH_ID 7) w' = Fault AssertFail.
Proof.
  apply (@low_user_object_fails_assert (const_env 2 0) 1 7 500 (-1)
           (mk_soi (fun o => o + 16) (fun _ => 4)) queued_world); try reflexivity; discriminate.
Defined.
