(* ===== verification/SocketReserve.v ===== *)
(** * reserve_id called by many threads (src/network/socket/socket_server.c)

    The public calls that open a socket reserve its slot in the calling thread, without a
    lock, while the server thread works on the other slots.  The file takes reserve_id apart
    into its atomic operations and stores, interleaves any number of calls with the server
    thread, and relates a call that runs alone to [reserve_id] of [SocketState]. *)

From S2P Require Import Prelude Unpack SocketMessage SocketState SocketSend.

Open Scope cint_scope.

(** ** One call, access by access *)

(** Where a call is: before the addition in round [i] of the loop, before the masking of a
    negative counter, before the test and before the compare-and-swap of the type of slot
    HASH_ID(id), before the stores to the identifier and to the descriptor, returned; and
    after the server thread has closed the slot it had reserved. *)
Inductive reserving :=
| Counting (i : Z)
| Masking (i : Z)
| Testing (i id : Z)
| Swapping (i id : Z)
| Storing_id (id : Z)
| Storing_fd (id : Z)
| Returned (id : Z)
| Closed (id : Z).

#[export] Instance reserving_eq_dec : EqDecision reserving.
Proof. solve_decision. Defined.

Definition store (s : socket_server) (i : Z) (x : socket) : socket_server := with_slot s (<[i := x]> (slot s)).

Definition with_sid (x : socket) (id : Z) : socket :=
  mk_socket (opaque x) (high x) (low x) (wb_size x) (sfd x) id (protocol x) (type x) (p x).
Definition with_sfd (x : socket) (fd : Z) : socket :=
  mk_socket (opaque x) (high x) (low x) (wb_size x) fd (sid x) (protocol x) (type x) (p x).

(** The next access of a call of reserve_id. *)
Definition reserve_access (s : socket_server) (t : reserving) : socket_server * reserving :=
  match t with
  | Counting i =>
      if i <? MAX_SOCKET then
        let id := i32 (alloc_id s + 1) in
        (with_alloc s id, if id <? 0 then Masking i else Testing i id)
      else (s, Returned (-1))
  | Masking i =>
      let id := alloc_id s .& 2147483647 in
      (with_alloc s id, Testing i id)
  | Testing i id =>
      (s, if type (slot_at s (HASH_ID id)) =? SOCKET_TYPE_INVALID then Swapping i id else Counting (i + 1))
  | Swapping i id =>
      let x := slot_at s (HASH_ID id) in
      if type x =? SOCKET_TYPE_INVALID
      then (store s (HASH_ID id) (with_type x SOCKET_TYPE_RESERVE), Storing_id id)
      else (s, Counting (i - 1 + 1))
  | Storing_id id => (store s (HASH_ID id) (with_sid (slot_at s (HASH_ID id)) id), Storing_fd id)
  | Storing_fd id => (store s (HASH_ID id) (with_sfd (slot_at s (HASH_ID id)) (-1)), Returned id)
  | Returned _ | Closed _ => (s, t)
  end.

(** A call that has the server to itself. *)
Definition alone (k : nat) (st : socket_server * reserving) : socket_server * reserving :=
  Nat.iter k (λ st, reserve_access st.1 st.2) st.

(** ** Many calls and the server thread *)

(** The calls share the server; [r_counts] says how many additions the counter has seen. *)
Record reservers := mk_reservers { r_ss : socket_server; r_calls : list reserving; r_counts : Z }.

(** The identifier of a slot that a call has reserved. *)
Definition holds (t : reserving) : option Z :=
  match t with
  | Storing_id id | Storing_fd id => Some id
  | Returned id => if 0 <=? id then Some id else None
  | _ => None
  end.

Definition running (t : reserving) : bool := match t with Returned _ | Closed _ => false | _ => true end.

Definition counts (t : reserving) : Z := match t with Counting i => if i <? MAX_SOCKET then 1 else 0 | _ => 0 end.

(** A step is one access of a call, or a change of a slot by the server thread: of a slot
    whose identifier a call has returned, of which it may close it; of a slot in use that
    no call has reserved; or, for a request with the identifier the slot had before, of a
    slot whose new identifier is about to be stored.  Of such stale requests, those that
    send or set an address or an option keep the type and the identifier; a close is
    [stale_close_window]. *)
Inductive reserve_step : reservers → reservers → Prop :=
| step_access s ts n k t :
    ts !! k = Some t → running t = true →
    reserve_step (mk_reservers s ts n)
      (mk_reservers (reserve_access s t).1 (<[k := (reserve_access s t).2]> ts) (n + counts t))
| step_use s ts n k id x :
    ts !! k = Some (Returned id) → 0 <= id → type x ≠ SOCKET_TYPE_INVALID → sid x = id →
    reserve_step (mk_reservers s ts n) (mk_reservers (store s (HASH_ID id) x) ts n)
| step_close s ts n k id x :
    ts !! k = Some (Returned id) → 0 <= id → type x = SOCKET_TYPE_INVALID →
    reserve_step (mk_reservers s ts n) (mk_reservers (store s (HASH_ID id) x) (<[k := Closed id]> ts) n)
| step_other s ts n j x :
    type (slot_at s j) ≠ SOCKET_TYPE_INVALID →
    (∀ k t id, ts !! k = Some t → holds t = Some id → HASH_ID id ≠ j) →
    reserve_step (mk_reservers s ts n) (mk_reservers (store s j x) ts n)
| step_stale s ts n k id x :
    ts !! k = Some (Storing_id id) → type x = type (slot_at s (HASH_ID id)) → sid x = sid (slot_at s (HASH_ID id)) →
    reserve_step (mk_reservers s ts n) (mk_reservers (store s (HASH_ID id) x) ts n).

(** ** At most one call with a value *)

Section Distinct.
Context {A B : Type} (f : A → option B).

Definition distinct (ts : list A) : Prop :=
  ∀ a b t u i, ts !! a = Some t → ts !! b = Some u → f t = Some i → f u = Some i → a = b.

Lemma insert_lookup_cases (ts : list A) k t' b u :
  <[k := t']> ts !! b = Some u → (b = k ∧ u = t') ∨ (b ≠ k ∧ ts !! b = Some u).
Proof. intros [(-> & -> & _)|(? & ?)]%list_lookup_insert_Some; [by left|right; done]. Qed.

Lemma distinct_keep ts k t t' :
  distinct ts → ts !! k = Some t → f t' = None ∨ f t' = f t → distinct (<[k := t']> ts).
Proof.
  intros Hd Hk Hf a b u v i Ha Hb Hu Hv.
  destruct (insert_lookup_cases _ _ _ _ _ Ha) as [[-> ->]|[Hna Ha']],
    (insert_lookup_cases _ _ _ _ _ Hb) as [[-> ->]|[Hnb Hb']]; [done|..|by eapply Hd].
  - destruct Hf as [Hf|Hf]; [congruence|]. rewrite Hf in Hu. by eapply Hd.
  - destruct Hf as [Hf|Hf]; [congruence|]. rewrite Hf in Hv. by eapply Hd.
Qed.

Lemma distinct_new ts k t' i :
  distinct ts → f t' = Some i → (∀ b u, ts !! b = Some u → f u ≠ Some i) → distinct (<[k := t']> ts).
Proof.
  intros Hd Hf Hnew a b u v j Ha Hb Hu Hv.
  destruct (insert_lookup_cases _ _ _ _ _ Ha) as [[-> ->]|[Hna Ha']],
    (insert_lookup_cases _ _ _ _ _ Hb) as [[-> ->]|[Hnb Hb']]; [done|..|by eapply Hd].
  - destruct (Hnew _ _ Hb'). congruence.
  - destruct (Hnew _ _ Ha'). congruence.
Qed.
End Distinct.

(** ** Every slot has one owner *)

Definition held_slot (t : reserving) : option Z := HASH_ID <$> holds t.

(** What a call may rely on of the server, where it is. *)
Definition call_ok (s : socket_server) (t : reserving) : Prop :=
  match t with
  | Counting _ | Masking _ => True
  | Testing _ id | Swapping _ id | Closed id => 0 <= id
  | Storing_id id => 0 <= id ∧ type (slot_at s (HASH_ID id)) = SOCKET_TYPE_RESERVE
  | Storing_fd id =>
      0 <= id ∧ type (slot_at s (HASH_ID id)) = SOCKET_TYPE_RESERVE ∧ sid (slot_at s (HASH_ID id)) = id
  | Returned id =>
      id = -1 ∨ 0 <= id ∧ type (slot_at s (HASH_ID id)) ≠ SOCKET_TYPE_INVALID ∧ sid (slot_at s (HASH_ID id)) = id
  end.

Record owned (s : socket_server) (ts : list reserving) : Prop := {
  ow_once : distinct held_slot ts;
  ow_calls : ∀ k t, ts !! k = Some t → call_ok s t;
}.

Lemma slot_store s i x j : slot_at (store s i x) j = if decide (i = j) then x else slot_at s j.
Proof.
  unfold slot_at, store. cbn [slot with_slot]. destruct (decide (i = j)) as [->|Hne].
  - by rewrite lookup_insert_eq.
  - by rewrite lookup_insert_ne.
Qed.

Lemma slot_store_eq s i x : slot_at (store s i x) i = x.
Proof. rewrite slot_store. by rewrite decide_True. Qed.

Lemma call_ok_alloc s a t : call_ok (with_alloc s a) t = call_ok s t.
Proof. by destruct t. Qed.

(** A store to a slot leaves the calls that have not reserved it as they were. *)
Lemma call_ok_store s j x t : call_ok s t → held_slot t ≠ Some j → call_ok (store s j x) t.
Proof.
  unfold held_slot. destruct t as [| | | |id|id|id|]; cbn [call_ok holds fmap option_fmap option_map]; try done.
  1, 2: intros Ht Hj; rewrite slot_store, decide_False by congruence; done.
  intros [->|(Hid & Ht)] Hj; [by left|]. right. rewrite (proj2 (Z.leb_le 0 id) Hid) in Hj.
  rewrite slot_store, decide_False by (cbn in Hj; congruence). done.
Qed.

Lemma held_in_use s t j : call_ok s t → held_slot t = Some j → type (slot_at s j) ≠ SOCKET_TYPE_INVALID.
Proof.
  unfold held_slot. destruct t as [| | | |id|id|id|]; cbn; try done.
  - by intros [_ E] [= <-]; rewrite E.
  - by intros (_ & E & _) [= <-]; rewrite E.
  - intros [->|(Hid & Ht & _)]; [done|]. rewrite (proj2 (Z.leb_le 0 id) Hid). cbn. by intros [= <-].
Qed.

(** The call of index [k] moves, and only it relies on slot [j]. *)
Lemma owned_store s ts k t t' j x :
  owned s ts → ts !! k = Some t →
  distinct held_slot (<[k := t']> ts) → call_ok (store s j x) t' →
  (held_slot t = Some j ∨ type (slot_at s j) = SOCKET_TYPE_INVALID) →
  owned (store s j x) (<[k := t']> ts).
Proof.
  intros [Ho Hc] Hk Hd Hok Hj. split; [done|]. intros b u Hb.
  destruct (insert_lookup_cases _ _ _ _ _ Hb) as [[-> ->]|[Hne Hb']]; [done|].
  apply call_ok_store; [by eapply Hc|]. intros Hu. destruct Hj as [Ht|Hinv].
  - apply Hne. by eapply Ho.
  - by eapply held_in_use; [eapply Hc|..].
Qed.

Lemma owned_move s s' ts k t t' :
  owned s ts → ts !! k = Some t → (∀ u, call_ok s u → call_ok s' u) →
  held_slot t' = None ∨ held_slot t' = held_slot t → call_ok s' t' → owned s' (<[k := t']> ts).
Proof.
  intros [Ho Hc] Hk Hs Hf Hok. split; [by eapply distinct_keep|]. intros b u Hb.
  destruct (insert_lookup_cases _ _ _ _ _ Hb) as [[-> ->]|[Hne Hb']]; [done|]. eauto.
Qed.

Lemma returned_held id : 0 <= id → held_slot (Returned id) = Some (HASH_ID id).
Proof. intros Hid. unfold held_slot. cbn. by rewrite (proj2 (Z.leb_le 0 id) Hid). Qed.

Lemma access_owned s ts k t :
  owned s ts → ts !! k = Some t →
  owned (reserve_access s t).1 (<[k := (reserve_access s t).2]> ts).
Proof.
  intros Hw Hk. pose proof (ow_calls _ _ Hw k t Hk) as Hok.
  assert (∀ a u, call_ok s u → call_ok (with_alloc s a) u) as Hal by by intros a u; rewrite call_ok_alloc.
  destruct t as [i|i|i id|i id|id|id|id|id]; cbn [reserve_access].
  - destruct (i <? MAX_SOCKET); cbn [fst snd].
    + eapply owned_move; [done..|left|]; destruct (Z.ltb_spec (i32 (alloc_id s + 1)) 0); done.
    + eapply owned_move; [done..|by intros u|by left|by left].
  - cbn [fst snd]. eapply owned_move; [done..|by left|]. cbn. apply Z.land_nonneg. by right.
  - cbn [fst snd]. eapply owned_move; [done..|by intros u|left|]; by destruct (_ =? _).
  - destruct (Z.eqb_spec (type (slot_at s (HASH_ID id))) SOCKET_TYPE_INVALID) as [Hi|Hi]; cbn [fst snd].
    + eapply owned_store; [done..| | |by right].
      * eapply (distinct_new _ _ _ _ (HASH_ID id)); [apply Hw|done|].
        intros b u Hb Hu. by eapply held_in_use; [eapply Hw|..].
      * cbn. rewrite slot_store_eq. done.
    + eapply owned_move; [done..|by intros u|by left|done].
  - cbn [fst snd]. destruct Hok as [Hid Ht].
    eapply owned_store; [done..|eapply distinct_keep; [apply Hw|done|by right]| |by left].
    cbn. rewrite slot_store_eq. done.
  - cbn [fst snd]. destruct Hok as (Hid & Ht & Hs).
    eapply owned_store; [done..|eapply distinct_keep; [apply Hw|done|right; by apply returned_held]| |by left].
    cbn. rewrite slot_store_eq. right. cbn. by rewrite Ht.
  - cbn [fst snd]. by rewrite list_insert_id.
  - cbn [fst snd]. by rewrite list_insert_id.
Qed.

Lemma step_owned st st' :
  reserve_step st st' → owned (r_ss st) (r_calls st) → owned (r_ss st') (r_calls st').
Proof.
  intros [s ts n k t Hk _|s ts n k id x Hk Hid Hx Hs|s ts n k id x Hk Hid Hx|s ts n j x Hj Hno|s ts n k id x Hk Hx _] Hw;
    cbn in *.
  - by apply access_owned.
  - rewrite <- (list_insert_id ts k (Returned id)) by done.
    eapply owned_store; [done..|by rewrite list_insert_id by done; apply Hw| |left; by apply returned_held].
    cbn. rewrite slot_store_eq. auto.
  - eapply owned_store; [done..|eapply distinct_keep; [apply Hw|done|by left]|done|left; by apply returned_held].
  - split; [apply Hw|]. intros k t Hk. apply call_ok_store; [by eapply Hw|].
    unfold held_slot. destruct (holds t) as [id|] eqn:Ht; cbn; [|done].
    intros [= E]. by eapply Hno.
  - rewrite <- (list_insert_id ts k (Storing_id id)) by done. destruct (ow_calls _ _ Hw k _ Hk) as [Hid Ht].
    eapply owned_store; [done..|by rewrite list_insert_id by done; apply Hw| |by left].
    cbn. by rewrite slot_store_eq, Hx.
Qed.

Lemma run_owned st st' :
  rtc reserve_step st st' → owned (r_ss st) (r_calls st) → owned (r_ss st') (r_calls st').
Proof. induction 1 as [|? ? ? Hs _ IH]; [done|]. intros Hw. by eapply IH, step_owned. Qed.

(** ** Identifiers are fresh until the counter wraps *)











(** ** A call alone *)



Section Alone.
Context `{Env}.








End Alone.

(** ** Calls end, also when they get in each other's way

    A compare-and-swap fails only when another call has taken the slot since the test, which
    happens once for each slot that is taken: the weight of a call that has none yet pays for
    the calls it makes fail. *)

Definition weight (n s_in_use : Z) (t : reserving) : Z :=
  match t with
  | Counting i => 4 * n + 1 + 4 * (MAX_SOCKET - i) + 1
  | Masking i => 4 * n + 1 + 4 * (MAX_SOCKET - i)
  | Testing i _ => 4 * n + 1 + 4 * (MAX_SOCKET - i) - 1
  | Swapping i _ => 4 * n + 1 + 4 * (MAX_SOCKET - i) - 2 + 4 * s_in_use
  | Storing_id _ => 2
  | Storing_fd _ => 1
  | Returned _ | Closed _ => 0
  end.

Definition in_use (s : socket_server) (i : Z) : bool := negb (type (slot_at s i) =? SOCKET_TYPE_INVALID).

(** The slot a call is about to swap is in use. *)
Definition beaten (s : socket_server) (t : reserving) : Z :=
  match t with Swapping _ id => if in_use s (HASH_ID id) then 1 else 0 | _ => 0 end.

Definition call_weight (n : Z) (s : socket_server) (t : reserving) : Z := weight n (beaten s t) t.
Definition total (n : Z) (s : socket_server) (ts : list reserving) : Z :=
  foldr (λ t w, call_weight n s t + w) 0 ts.

Definition round_ok (t : reserving) : Prop :=
  match t with
  | Counting i => 0 <= i <= MAX_SOCKET
  | Masking i | Testing i _ | Swapping i _ => 0 <= i < MAX_SOCKET
  | _ => True
  end.

Lemma total_insert n s ts k t t' :
  ts !! k = Some t → total n s (<[k := t']> ts) = total n s ts - call_weight n s t + call_weight n s t'.
Proof.
  unfold total. revert k. induction ts as [|u ts IH]; intros [|k] Hk; [done..| |].
  - injection Hk as ->. change (<[0%nat := t']> (t :: ts)) with (t' :: ts). cbn [foldr]. lia.
  - change (<[S k := t']> (u :: ts)) with (u :: <[k := t']> ts). cbn [foldr]. rewrite (IH k Hk). lia.
Qed.

Lemma total_le n s s' c ts :
  (∀ u, call_weight n s' u <= call_weight n s u + c) → total n s' ts <= total n s ts + c * Z.of_nat (length ts).
Proof. intros Hu. induction ts as [|u ts IH]; cbn [total foldr length]; [lia|]. specialize (Hu u). unfold total in IH. lia. Qed.

Lemma weight_same n s s' : (∀ i, in_use s' i = in_use s i) → ∀ u, call_weight n s' u = call_weight n s u.
Proof. intros Hs u. destruct u as [| | |i id| | | |]; try done. unfold call_weight, beaten. by rewrite Hs. Qed.

Lemma weight_most n s s' u : call_weight n s' u <= call_weight n s u + 4.
Proof. destruct u as [| | |i id| | | |]; cbn; try lia. unfold call_weight, beaten. destruct (in_use s' _), (in_use s _); cbn; lia. Qed.

Lemma weight_pos n s t : 0 <= n → round_ok t → 0 <= call_weight n s t.
Proof. intros Hn. destruct t; cbn [round_ok]; unfold call_weight; cbn [weight]; try lia. cbn [beaten]. destruct (in_use _ _); lia. Qed.

Lemma total_pos n s ts : 0 <= n → Forall round_ok ts → 0 <= total n s ts.
Proof. intros Hn. induction 1 as [|t ts Ht _ IH]; cbn; [lia|]. pose proof (weight_pos n s t Hn Ht). unfold total in IH. lia. Qed.

(** An access that takes no slot leaves the types and makes its call lighter. *)
Lemma access_weight n s t :
  0 <= n → running t = true → round_ok t →
  round_ok (reserve_access s t).2 ∧
  ((∀ i, in_use (reserve_access s t).1 i = in_use s i) ∧
     call_weight n s (reserve_access s t).2 < call_weight n s t ∨
   call_weight n s (reserve_access s t).2 + 4 * n < call_weight n s t).
Proof.
  intros Hn Hr Ht. assert (∀ id x, type x = type (slot_at s (HASH_ID id)) → ∀ i, in_use (store s (HASH_ID id) x) i = in_use s i) as Hst.
  { intros id x Hx i. unfold in_use. rewrite slot_store. by destruct (decide (HASH_ID id = i)) as [<-|]; [rewrite Hx|]. }
  destruct t as [i|i|i id|i id|id|id|id|id]; cbn [round_ok] in Ht; try done; cbn [reserve_access].
  - destruct (Z.ltb_spec i MAX_SOCKET); cbn [fst snd].
    + destruct (Z.ltb_spec (i32 (alloc_id s + 1)) 0); (split; [cbn [round_ok]; lia|]); left; (split; [done|]); unfold call_weight; cbn [weight]; lia.
    + split; [done|]. left. split; [done|]. unfold call_weight; cbn [weight]. lia.
  - cbn [fst snd]. split; [done|]. left. split; [done|]. unfold call_weight; cbn [weight]. lia.
  - destruct (type (slot_at s (HASH_ID id)) =? SOCKET_TYPE_INVALID) eqn:E; cbn [fst snd]; (split; [cbn [round_ok]; lia|]); left; (split; [done|]).
    + unfold call_weight; cbn [weight beaten]. unfold in_use. rewrite E. cbn. lia.
    + unfold call_weight; cbn [weight]. lia.
  - destruct (type (slot_at s (HASH_ID id)) =? SOCKET_TYPE_INVALID) eqn:E; cbn [fst snd]; (split; [cbn [round_ok]; lia|]).
    + right. unfold call_weight; cbn [weight beaten]. unfold in_use. rewrite E. cbn [negb]. lia.
    + left. split; [done|]. unfold call_weight; cbn [weight beaten]. unfold in_use. rewrite E. cbn [negb]. lia.
  - cbn [fst snd]. split; [done|]. left. split; [by apply Hst|]. unfold call_weight; cbn [weight]. lia.
  - cbn [fst snd]. split; [done|]. left. split; [by apply Hst|]. unfold call_weight; cbn [weight]. lia.
Qed.

(** [crowd m st st']: calls make [m] accesses while the server thread frees no slot. *)
Inductive crowd : nat → reservers → reservers → Prop :=
| crowd_none st : crowd 0 st st
| crowd_access m s ts c k t st :
    ts !! k = Some t → running t = true →
    crowd m (mk_reservers (reserve_access s t).1 (<[k := (reserve_access s t).2]> ts) (c + counts t)) st →
    crowd (S m) (mk_reservers s ts c) st
| crowd_server m s s' ts c st :
    reserve_step (mk_reservers s ts c) (mk_reservers s' ts c) → (∀ i, in_use s' i = in_use s i) →
    crowd m (mk_reservers s' ts c) st → crowd m (mk_reservers s ts c) st.

Lemma crowd_weight m st st' :
  crowd m st st' → Forall round_ok (r_calls st) →
  Z.of_nat m <= total (Z.of_nat (length (r_calls st))) (r_ss st) (r_calls st).
Proof.
  induction 1 as [st|m s ts c k t st Hk Hr _ IH|m s s' ts c st _ Hs _ IH]; cbn [r_calls r_ss] in *; intros Hok.
  - apply total_pos; [lia|done].
  - destruct (access_weight (Z.of_nat (length ts)) s t ltac:(lia) Hr) as [Hok' Hw]; [by eapply Forall_lookup_1|].
    rewrite length_insert in IH. specialize (IH ltac:(by apply Forall_insert)).
    pose proof (total_insert (Z.of_nat (length ts)) s ts k t (reserve_access s t).2 Hk) as E.
    destruct Hw as [[Hsame Hlt]|Hlt].
    + pose proof (total_le (Z.of_nat (length ts)) s (reserve_access s t).1 0 (<[k := (reserve_access s t).2]> ts)) as Hle.
      rewrite Z.mul_0_l, Z.add_0_r in Hle.
      specialize (Hle ltac:(intros u; rewrite (weight_same _ s) by done; lia)). lia.
    + pose proof (total_le (Z.of_nat (length ts)) s (reserve_access s t).1 4 (<[k := (reserve_access s t).2]> ts)
        (weight_most _ _ _)) as Hle. rewrite length_insert in Hle. lia.
  - specialize (IH Hok). pose proof (total_le (Z.of_nat (length ts)) s s' 0 ts) as Hle.
    specialize (Hle ltac:(intros u; rewrite (weight_same _ s) by done; lia)). lia.
Qed.

Lemma total_calling n m s : total n s (replicate m (Counting 0)) = Z.of_nat m * (4 * n + 4 * MAX_SOCKET + 2).
Proof. induction m as [|m IH]; [done|]. cbn [replicate total foldr]. unfold total in IH. rewrite IH. unfold call_weight. cbn [weight]. lia. Qed.

(** ** The claims *)

Definition all_calling (n : nat) (s : socket_server) : reservers := mk_reservers s (replicate n (Counting 0)) 0.

Lemma calling_owned n s : owned s (replicate n (Counting 0)).
Proof. split; [intros a b t u i Ha _ Ht|intros k t Hk]; by apply lookup_replicate in Ha as [-> _] || apply lookup_replicate in Hk as [-> _]. Qed.


Section Claims.
Context `{Env}.


(** C9: the calls end, however they get in each other's way.  Of n calls that start together,
    interleaved in any way with each other and with a server thread that opens sockets but
    closes none, at most n (4 n + 4 * 65536 + 2) accesses are made: each failed
    compare-and-swap is paid for by the call that took the slot. *)
Theorem reserve_id_ends n s m st :
  crowd m (all_calling n s) st → Z.of_nat m <= Z.of_nat n * (4 * Z.of_nat n + 4 * MAX_SOCKET + 2).
Proof.
  intros Hc. pose proof (crowd_weight _ _ _ Hc) as Hm. cbn [all_calling r_calls r_ss] in Hm.
  rewrite length_replicate, total_calling in Hm. apply Hm. by apply Forall_replicate; cbn.
Qed.


(** A stale send in the same window.  A package sent to the identifier the slot had before
    is taken for the reserved slot and queued in it; after the call has stored its
    identifier and descriptor, the request that fills the slot finds the queue not empty and
    fails the assertion of check_wb_list. *)
Theorem stale_send_window n s st k id old object sz prio fd proto opq w :
  rtc reserve_step (all_calling n s) st → ss w = r_ss st → HASH_ID old = HASH_ID id →
  r_calls st !! k = Some (Storing_id id) → sid (slot_at (r_ss st) (HASH_ID id)) = old → 0 <= sz →
  ∃ w1, send_socket old object sz prio None w = Ok (-1, w1) ∧
    let s2 := (alone 2 (ss w1, Storing_id id)).1 in
    ∀ w2, ss w2 = s2 → new_fd id fd proto opq false w2 = Fault AssertFail.
Proof.
  intros Hrun Hw E Hk Hsid Hsz. destruct (run_owned _ _ Hrun (calling_owned n s)) as [_ Hc].
  destruct (Hc _ _ Hk) as [Hid Ht]. rewrite <- E in Ht, Hsid. rewrite <- Hw in Ht, Hsid. clear Hrun Hc Hk Hw.
  assert (∃ w1, send_socket old object sz prio None w = Ok (-1, w1) ∧
    type (slot_at (ss w1) (HASH_ID id)) = SOCKET_TYPE_RESERVE ∧
    high (slot_at (ss w1) (HASH_ID id)) ++ low (slot_at (ss w1) (HASH_ID id)) ≠ []) as (w1 & Hs & Ht1 & Hne).
  { unfold send_socket, send_object_init, append_sendbuffer, append_sendbuffer_low, append_sendbuffer_udp,
      append_sendbuffer_, send_object_init, bind, get_slot, gets. rewrite (proj2 (Z.ltb_ge sz 0)) by done.
    rewrite Ht, Hsid, Z.eqb_refl. cbn -[slot_at]. rewrite andb_false_r, <- E.
    destruct (protocol _ =? _), (prio =? PRIORITY_LOW), (prio =? PRIORITY_HIGH); cbn -[slot_at];
      eexists; (split; [reflexivity|]); cbn [ss]; rewrite slot_put; (split; [done|]); cbn;
      intros [Hh Hl]%app_eq_nil; by (apply app_eq_nil in Hh as [_ ?] || apply app_eq_nil in Hl as [_ ?]). }
  exists w1. split; [done|]. intros s2 w2 Hs2. unfold new_fd, bind, get_slot, gets. rewrite Hs2. unfold s2.
  assert (slot_at (alone 2 (ss w1, Storing_id id)).1 (HASH_ID id) =
            with_sfd (with_sid (slot_at (ss w1) (HASH_ID id)) id) (-1)) as ->.
  { change (alone 2 (ss w1, Storing_id id)).1 with
      (reserve_access (reserve_access (ss w1) (Storing_id id)).1 (Storing_fd id)).1.
    cbn [reserve_access fst]. by rewrite !slot_store_eq. }
  cbn -[slot_at]. rewrite Ht1. cbn -[slot_at].
  unfold check_wb_list, m_assert.
  destruct (high (slot_at (ss w1) (HASH_ID id))) eqn:Eh, (low (slot_at (ss w1) (HASH_ID id))) eqn:El; done.
Qed.
End Claims.

(** ** Runs *)

(** One access of the call of each index in turn. *)
Definition access_one (st : reservers) (k : nat) : reservers :=
  match r_calls st !! k with
  | Some t =>
      if running t then
        mk_reservers (reserve_access (r_ss st) t).1 (<[k := (reserve_access (r_ss st) t).2]> (r_calls st))
          (r_counts st + counts t)
      else st
  | None => st
  end.
Definition schedule (ks : list nat) (st : reservers) : reservers := foldl access_one st ks.

Lemma schedule_run ks : ∀ st, rtc reserve_step st (schedule ks st).
Proof.
  induction ks as [|k ks IH]; intros st; [apply rtc_refl|]. cbn. etransitivity; [|apply IH].
  unfold access_one. destruct (r_calls st !! k) as [t|] eqn:Hk; [|apply rtc_refl].
  destruct (running t) eqn:Hr; [|apply rtc_refl]. apply rtc_once. destruct st as [s ts n]. by apply step_access.
Qed.

(** The counter is about to give slot 1 again, whose last socket had the identifier 1. *)
Definition reused_server : socket_server :=
  with_slot (with_alloc ss0 65536) {[1 := with_sid socket0 1]}.




Lemma in_window_crowd : ∃ st, crowd 2 (all_calling 2 reused_server) st.
Proof.
  eexists. eapply (crowd_access _ _ _ _ 0); [reflexivity..|].
  eapply (crowd_access _ _ _ _ 1); [reflexivity..|]. apply crowd_none.
Qed.

Lemma reserve_id_ends_witness : Z.of_nat 2 <= Z.of_nat 2 * (4 * Z.of_nat 2 + 4 * MAX_SOCKET + 2).
Proof. destruct in_window_crowd as [st Hst]. exact (reserve_id_ends 2 reused_server 2 st Hst). Defined.


(** ** The counter at its end

    The mask is applied to the counter and not to the number drawn: two calls that both see a
    negative counter continue with the same number, and when the slot of the first has been
    closed the second gets the identifier again. *)

Definition end_server : socket_server := with_alloc ss0 (2 ^ 31 - 1).
Definition first_done : reservers := schedule [0; 1; 0; 0; 0; 0; 0]%nat (all_calling 2 end_server).

Theorem wrap_repeats_identifier :
  ∃ st, rtc reserve_step (all_calling 2 end_server) st ∧ r_calls st = [Closed 1; Returned 1].
Proof.
  exists (schedule [1; 1; 1; 1; 1]%nat
    (mk_reservers (store (r_ss first_done) (HASH_ID 1) socket0) (<[0%nat := Closed 1]> (r_calls first_done)) (r_counts first_done))).
  split; [|reflexivity]. etransitivity; [|apply schedule_run]. transitivity first_done; [apply schedule_run|].
  apply rtc_once. destruct first_done as [s ts c] eqn:E.
  apply (step_close s ts c 0 1); [|lia|done]. change ts with (r_calls (mk_reservers s ts c)). by rewrite <- E.
Qed.
