(* ===== verification/SocketPoll.v ===== *)
(** * The socket server: the control pipe, the handlers, the event loop and the
      public interface (src/network/socket/socket_server.c)

    Callers write requests to a pipe; the server thread reads them back in
    ctrl_cmd and, between them, handles the events of epoll in
    socket_server_poll.  The pipe is a list of bytes, so a request is encoded
    and decoded as the structs of the source lay it out. *)

From S2P Require Import Prelude Unpack SocketMessage SocketState SocketSend.

Open Scope cint_scope.
Open Scope sock_scope.

(** ** Requests *)

Inductive request :=
| RqStart (id opaque : Z)
| RqBind (id fd opaque : Z)
| RqListen (id fd opaque : Z)
| RqClose (id opaque : Z)
| RqOpen (id port opaque : Z) (host : list Z)
| RqExit
| RqSend (id sz buffer : Z)
| RqSendLow (id sz buffer : Z)
| RqSendUdp (id sz buffer : Z) (address : list Z)
| RqSetUdp (id : Z) (address : list Z)
| RqSetopt (id what value : Z)
| RqUdp (id fd family opaque : Z).

Definition int_bytes : Z → list Z := le_bytes 4.
Definition ptr_bytes : Z → list Z := le_bytes 8.

(** The bytes of the struct a request is sent as, padding included: offsets and
    sizes of the x86-64 layout.  Padding bytes, which nobody reads, are zero. *)
Definition request_body (rq : request) : list Z :=
  match rq with
  | RqStart id opq | RqClose id opq => int_bytes id ++ replicate 4 0 ++ ptr_bytes opq
  | RqBind id fd opq => int_bytes id ++ int_bytes fd ++ ptr_bytes opq
  | RqListen id fd opq => int_bytes id ++ int_bytes fd ++ ptr_bytes opq ++ replicate 8 0
  | RqOpen id port opq host => int_bytes id ++ int_bytes port ++ ptr_bytes opq ++ host ++ replicate 8 0
  | RqExit => []
  | RqSend id sz buf | RqSendLow id sz buf => int_bytes id ++ int_bytes sz ++ ptr_bytes buf
  | RqSendUdp id sz buf addr => int_bytes id ++ int_bytes sz ++ ptr_bytes buf ++ addr
  | RqSetUdp id addr => int_bytes id ++ addr ++ [0]
  | RqSetopt id what value => int_bytes id ++ int_bytes what ++ int_bytes value
  | RqUdp id fd family opq => int_bytes id ++ int_bytes fd ++ int_bytes family ++ replicate 4 0 ++ ptr_bytes opq
  end.

(** The type byte. *)
Definition request_type (rq : request) : Z :=
  match rq with
  | RqStart _ _ => 83 | RqBind _ _ _ => 66 | RqListen _ _ _ => 76 | RqClose _ _ => 75
  | RqOpen _ _ _ _ => 79 | RqExit => 88 | RqSend _ _ _ => 68 | RqSendLow _ _ _ => 80
  | RqSendUdp _ _ _ _ => 65 | RqSetUdp _ _ => 67 | RqSetopt _ _ _ => 84 | RqUdp _ _ _ _ => 85
  end.

(** Reading a struct field from the buffer of ctrl_cmd: a field the pipe did not
    fill is uninitialised. *)
Definition int_at (buf : list Z) (off : nat) : res Z :=
  if (off + 4 <=? length buf)%nat then Ok (i32 (le_value (take 4 (drop off buf)))) else Fault Undefined.
Definition ptr_at (buf : list Z) (off : nat) : res Z :=
  if (off + 8 <=? length buf)%nat then Ok (le_value (take 8 (drop off buf))) else Fault Undefined.

(** A C string: the bytes before the first zero. *)
Fixpoint cstr (l : list Z) : res (list Z) :=
  match l with
  | [] => Fault Undefined
  | b :: l => if b =? 0 then Ok [] else s ← cstr l; Ok (b :: s)
  end.

(** A UDP address field; the bytes its sender did not fill are zero here. *)
Definition address_at (buf : list Z) (off : nat) : list Z := resize (Z.to_nat UDP_ADDRESS_SIZE) 0 (drop off buf).

(** The casts of ctrl_cmd; [None] for an unknown type. *)
Definition decode (ty : Z) (buf : list Z) : res (option request) :=
  if ty =? 83 then id ← int_at buf 0; o ← ptr_at buf 8; Ok (Some (RqStart id o))
  else if ty =? 66 then id ← int_at buf 0; fd ← int_at buf 4; o ← ptr_at buf 8; Ok (Some (RqBind id fd o))
  else if ty =? 76 then id ← int_at buf 0; fd ← int_at buf 4; o ← ptr_at buf 8; Ok (Some (RqListen id fd o))
  else if ty =? 75 then id ← int_at buf 0; o ← ptr_at buf 8; Ok (Some (RqClose id o))
  else if ty =? 79 then
    id ← int_at buf 0; port ← int_at buf 4; o ← ptr_at buf 8; host ← cstr (drop 16 buf);
    Ok (Some (RqOpen id port o host))
  else if ty =? 88 then Ok (Some RqExit)
  else if ty =? 68 then id ← int_at buf 0; sz ← int_at buf 4; b ← ptr_at buf 8; Ok (Some (RqSend id sz b))
  else if ty =? 80 then id ← int_at buf 0; sz ← int_at buf 4; b ← ptr_at buf 8; Ok (Some (RqSendLow id sz b))
  else if ty =? 65 then
    id ← int_at buf 0; sz ← int_at buf 4; b ← ptr_at buf 8; Ok (Some (RqSendUdp id sz b (address_at buf 16)))
  else if ty =? 67 then id ← int_at buf 0; Ok (Some (RqSetUdp id (address_at buf 4)))
  else if ty =? 84 then id ← int_at buf 0; what ← int_at buf 4; v ← int_at buf 8; Ok (Some (RqSetopt id what v))
  else if ty =? 85 then
    id ← int_at buf 0; fd ← int_at buf 4; fam ← int_at buf 8; o ← ptr_at buf 16; Ok (Some (RqUdp id fd fam o))
  else Ok None.

Definition lift {A} (r : res A) : M A := fun w =>
  match r with
  | Ok a => Ok (a, w)
  | Fault f => Fault f
  end.

(** ASCII *)
Definition str_binding : list Z := [98; 105; 110; 100; 105; 110; 103].
Definition str_start : list Z := [115; 116; 97; 114; 116].
Definition str_transfer : list Z := [116; 114; 97; 110; 115; 102; 101; 114].
Definition str_any : list Z := [48; 46; 48; 46; 48; 46; 48].

(** "%d" of a port, which has at most five digits. *)
Fixpoint decimal (fuel : nat) (z : Z) : list Z :=
  match fuel with
  | O => []
  | S fuel => if z <? 10 then [48 + z] else decimal fuel (z / 10) ++ [48 + z mod 10]
  end.

Definition IPPROTO_TCP : Z := 6.
Definition IPPROTO_UDP : Z := 17.
Definition SOCK_STREAM : Z := 1.
Definition SOCK_DGRAM : Z := 2.
Definition TCP_NODELAY : Z := 1.

Section Handlers.
Context `{Env}.

(** ** Commands *)

(** The loop over the addresses: the descriptor, the status of connect and the
    address used, or [None] when every address failed. *)
Fixpoint connect_loop (l : list addrinfo) : M (option (Z * Z * addrinfo)) :=
  match l with
  | [] => ret None
  | ai :: l =>
      let! r := sysret in
      let sock := rv r in
      if sock <? 0 then connect_loop l
      else
        socket_keepalive sock ;;;
        sp_nonblocking sock ;;;
        let! r := sysret in
        if negb (rv r =? 0) && negb (err r =? EINPROGRESS) then
          sys_close sock ;;; connect_loop l
        else ret (Some (sock, rv r, ai))
  end.

Definition open_failed (id : Z) : M Z :=
  modify_slot (HASH_ID id) (fun s => with_type s SOCKET_TYPE_INVALID) ;;;
  ret SOCKET_ERROR.

Definition open_socket (id port opq : Z) (host : list Z) : M Z :=
  set_result (mk_msg id opq 0 None) ;;;
  match getaddrinfo host port SOCK_STREAM with
  | None => open_failed id
  | Some ai_list =>
      let! c := connect_loop ai_list in
      match c with
      | None => open_failed id
      | Some (sock, status, ai) =>
          let! ns := new_fd id sock PROTOCOL_TCP opq true in
          match ns with
          | None => sys_close sock ;;; open_failed id
          | Some i =>
              if status =? 0 then
                modify_slot i (fun s => with_type s SOCKET_TYPE_CONNECTED) ;;;
                match inet_ntop (ai_family ai) (sa_addr (ai_addr ai)) with
                | Some text => set_result (mk_msg id opq 0 (Some text)) ;;; ret SOCKET_OPEN
                | None => ret SOCKET_OPEN
                end
              else
                modify_slot i (fun s => with_type s SOCKET_TYPE_CONNECTING) ;;;
                let! s := get_slot i in
                sp_write (sfd s) i true ;;;
                ret (-1)
          end
      end
  end.

Definition listen_socket (id fd opq : Z) : M Z :=
  let! s := new_fd id fd PROTOCOL_TCP opq false in
  match s with
  | Some i => modify_slot i (fun s => with_type s SOCKET_TYPE_PLISTEN) ;;; ret (-1)
  | None =>
      sys_close fd ;;;
      set_result (mk_msg id opq 0 None) ;;;
      modify_slot (HASH_ID id) (fun s => with_type s SOCKET_TYPE_INVALID) ;;;
      ret SOCKET_ERROR
  end.

Definition bind_socket (id fd opq : Z) : M Z :=
  let! r := gets result in
  set_result (mk_msg id opq 0 (msg_data r)) ;;;
  let! s := new_fd id fd PROTOCOL_TCP opq true in
  match s with
  | None => set_result (mk_msg id opq 0 None) ;;; ret SOCKET_ERROR
  | Some i =>
      sp_nonblocking fd ;;;
      modify_slot i (fun s => with_type s SOCKET_TYPE_BIND) ;;;
      set_result (mk_msg id opq 0 (Some str_binding)) ;;;
      ret SOCKET_OPEN
  end.

Definition start_socket (id opq : Z) : M Z :=
  set_result (mk_msg id opq 0 None) ;;;
  let i := HASH_ID id in
  let! s := get_slot i in
  if (type s =? SOCKET_TYPE_INVALID) || negb (sid s =? id) then ret SOCKET_ERROR
  else if (type s =? SOCKET_TYPE_PACCEPT) || (type s =? SOCKET_TYPE_PLISTEN) then
    let! failed := sp_add (sfd s) (Some i) in
    if failed : bool then
      put_slot i (with_type s SOCKET_TYPE_INVALID) ;;;
      ret SOCKET_ERROR
    else
      put_slot i (with_opaque (with_type s (if type s =? SOCKET_TYPE_PACCEPT
                                            then SOCKET_TYPE_CONNECTED else SOCKET_TYPE_LISTEN)) opq) ;;;
      set_result (mk_msg id opq 0 (Some str_start)) ;;;
      ret SOCKET_OPEN
  else if type s =? SOCKET_TYPE_CONNECTED then
    put_slot i (with_opaque s opq) ;;;
    set_result (mk_msg id opq 0 (Some str_transfer)) ;;;
    ret SOCKET_OPEN
  else ret (-1).

Definition setopt_socket (id what value : Z) : M unit :=
  let! s := get_slot (HASH_ID id) in
  if (type s =? SOCKET_TYPE_INVALID) || negb (sid s =? id) then ret tt
  else sys_setsockopt (sfd s) IPPROTO_TCP what value ;;; ret tt.

Definition add_udp_socket (id fd family opq : Z) : M unit :=
  let proto := if family =? AF_INET6 then PROTOCOL_UDPv6 else PROTOCOL_UDP in
  let! ns := new_fd id fd proto opq true in
  match ns with
  | None =>
      sys_close fd ;;;
      modify_slot (HASH_ID id) (fun s => with_type s SOCKET_TYPE_INVALID)
  | Some i =>
      modify_slot i (fun s => with_p (with_type s SOCKET_TYPE_CONNECTED)
                                (replicate (Z.to_nat UDP_ADDRESS_SIZE) 0))
  end.

Definition set_udp_address (id : Z) (address : list Z) : M Z :=
  let i := HASH_ID id in
  let! s := get_slot i in
  if (type s =? SOCKET_TYPE_INVALID) || negb (sid s =? id) then ret (-1)
  else
    let ty := address !!! 0%nat in
    if negb (ty =? protocol s) then
      set_result (mk_msg (sid s) (opaque s) 0 None) ;;;
      ret SOCKET_ERROR
    else
      put_slot i (with_p s (take (if ty =? PROTOCOL_UDP then 7 else 19) address)) ;;;
      ret (-1).

(** read of [sz] bytes from the pipe: as many as there are. *)
Fixpoint block_readpipe (retries : nat) (sz : Z) : M (list Z) :=
  match retries with
  | O => fail OutOfFuel
  | S retries =>
      let! r := sysret in
      if rv r <? 0 then
        if err r =? EINTR then block_readpipe retries sz
        else fail Undefined           (* returns with the buffer unset, which the caller reads *)
      else
        let! b := gets (fun w => pipe (ss w)) in
        let data := take (Z.to_nat sz) b in
        set_ss (fun s => with_pipe s (drop (Z.to_nat sz) b)) ;;;
        m_assert (Z.of_nat (length data) =? sz) ;;;
        ret data
  end.

(** select says whether the pipe is readable. *)
Definition has_cmd : M bool :=
  let! r := sysret in
  let! b := gets (fun w => pipe (ss w)) in
  ret (negb (rv r <? 0) && match b with [] => false | _ => true end).

(** The switch of ctrl_cmd. *)
Definition dispatch (retries : nat) (rq : request) : M Z :=
  match rq with
  | RqStart id opq => start_socket id opq
  | RqBind id fd opq => bind_socket id fd opq
  | RqListen id fd opq => listen_socket id fd opq
  | RqClose id opq => close_socket retries id opq
  | RqOpen id port opq host => open_socket id port opq host
  | RqExit => set_result (mk_msg 0 0 0 None) ;;; ret SOCKET_EXIT
  | RqSend id sz b => send_socket id b sz PRIORITY_HIGH None
  | RqSendLow id sz b => send_socket id b sz PRIORITY_LOW None
  | RqSendUdp id sz b addr => send_socket id b sz PRIORITY_HIGH (Some addr)
  | RqSetUdp id addr => set_udp_address id addr
  | RqSetopt id what v => setopt_socket id what v ;;; ret (-1)
  | RqUdp id fd family opq => add_udp_socket id fd family opq ;;; ret (-1)
  end.

(** A header of two bytes, then as many bytes as its second says. *)
Definition read_request (retries : nat) : M (option request) :=
  let! header := block_readpipe retries 2 in
  let! buffer := block_readpipe retries (header !!! 1%nat) in
  lift (decode (header !!! 0%nat) buffer).

Definition ctrl_cmd (retries : nat) : M Z :=
  let! rq := read_request retries in
  match rq with
  | Some rq => dispatch retries rq
  | None => ret (-1)
  end.

(** ** Events *)

(** int arithmetic that leaves the range is undefined. *)
Definition double_size (n : Z) : M Z := if 2 ^ 31 <=? n * 2 then fail Undefined else ret (n * 2).

(** read returns the bytes it stored, at most [sz]. *)
Definition forward_message_tcp (i : Z) : M Z :=
  let! s := get_slot i in
  let sz := p_size s in
  let! r := sysret in
  if rv r <? 0 then
    if (err r =? EINTR) || (err r =? EAGAIN) then ret (-1)
    else force_close i ;;; ret SOCKET_ERROR
  else
    let buffer := take (Z.to_nat sz) (stored r) in
    let n := Z.of_nat (length buffer) in
    if n =? 0 then force_close i ;;; ret SOCKET_CLOSE
    else if type s =? SOCKET_TYPE_HALFCLOSE then ret (-1)
    else
      (if n =? sz then
         let! d := double_size (p_size s) in
         put_slot i (with_p s (le_bytes 4 d))
       else when ((MIN_READ_BUFFER <? sz) && (n * 2 <? sz)) (put_slot i (with_p s (le_bytes 4 (sz ÷ 2))))) ;;;
      set_result (mk_msg (sid s) (opaque s) n (Some buffer)) ;;;
      ret SOCKET_DATA.

(** The address bytes: protocol, port, address, without the scope and the flow
    information of an IPv6 address; the source also returns their number. *)
Definition gen_udp_address (proto : Z) (sa : sockaddr_all) : list Z :=
  if proto =? PROTOCOL_UDP then [u8 proto] ++ sa_port sa ++ take 4 (sa_addr sa)
  else [u8 proto] ++ sa_port sa ++ take 16 (sa_addr sa).

(** The sender's address follows the datagram.  An address of AF_INET is one of
    the size of sockaddr_in. *)
Definition forward_message_udp (i : Z) : M Z :=
  let! s := get_slot i in
  let! r := sysret in
  if rv r <? 0 then
    if (err r =? EINTR) || (err r =? EAGAIN) then ret (-1)
    else force_close i ;;; ret SOCKET_ERROR
  else
    let data := take (Z.to_nat MAX_UDP_PACKAGE) (stored r) in
    let n := Z.of_nat (length data) in
    let proto := if sa_family (from r) =? AF_INET then PROTOCOL_UDP else PROTOCOL_UDPv6 in
    if negb (protocol s =? proto) then ret (-1)
    else
      set_result (mk_msg (sid s) (opaque s) n (Some (data ++ gen_udp_address proto (from r)))) ;;;
      ret SOCKET_UDP.

Definition report_connect (i : Z) : M Z :=
  let! s := get_slot i in
  let! r := sysret in
  if (rv r <? 0) || negb (stored r !!! 0%nat =? 0) then force_close i ;;; ret SOCKET_ERROR
  else
    put_slot i (with_type s SOCKET_TYPE_CONNECTED) ;;;
    when (send_buffer_empty s) (sp_write (sfd s) i false) ;;;
    let! peer := sysret in
    let data := if rv peer =? 0 then inet_ntop (sa_family (from peer)) (sa_addr (from peer)) else None in
    set_result (mk_msg (sid s) (opaque s) 0 data) ;;;
    ret SOCKET_OPEN.

(** ntohs *)
Definition ntohs (port : list Z) : Z := (port !!! 0%nat) * 256 + port !!! 1%nat.

(** False when failed. *)
Definition report_accept (i : Z) : M bool :=
  let! s := get_slot i in
  let! r := sysret in
  let client_fd := rv r in
  if client_fd <? 0 then ret false
  else
    let! id := reserve_id in
    if id <? 0 then sys_close client_fd ;;; ret false
    else
      socket_keepalive client_fd ;;;
      sp_nonblocking client_fd ;;;
      let! ns := new_fd id client_fd PROTOCOL_TCP (opaque s) false in
      match ns with
      | None => sys_close client_fd ;;; ret false
      | Some j =>
          modify_slot j (fun s => with_type s SOCKET_TYPE_PACCEPT) ;;;
          let data := match inet_ntop (sa_family (from r)) (sa_addr (from r)) with
                      | Some text => Some (text ++ [58] ++ decimal 5 (ntohs (sa_port (from r))))
                      | None => None
                      end in
          set_result (mk_msg (sid s) (opaque s) id data) ;;;
          ret true
      end.

(** The loop body: the event of a slot closed under the message's id. *)
Definition clear_event (w : world) (e : event) : event :=
  match e_s e with
  | Some i =>
      let s := slot_at (ss w) i in
      if (type s =? SOCKET_TYPE_INVALID) && (sid s =? msg_id (result w))
      then mk_event None (e_read e) (e_write e) else e
  | None => e
  end.

Definition clear_closed_event (ty : Z) : M unit :=
  when ((ty =? SOCKET_CLOSE) || (ty =? SOCKET_ERROR))
    (modify (fun w =>
       let s := ss w in
       let lo := Z.to_nat (event_index s) in
       let hi := Z.to_nat (event_n s) in
       mk_world (with_events s (event_n s) (event_index s)
                   (take lo (ev s) ++ (clear_event w <$> take (hi - lo) (drop lo (ev s))) ++ drop (Nat.max lo hi) (ev s)))
         (result w) (pos w) (log w))).

Definition set_index (f : Z → Z) : M unit :=
  set_ss (fun s => with_events s (event_n s) (f (event_index s)) (ev s)).

(** e->read = false for event [k]. *)
Definition clear_read (k : Z) : M unit :=
  set_ss (fun s => with_events s (event_n s) (event_index s)
    (alter (fun e => mk_event (e_s e) false (e_write e)) (Z.to_nat k) (ev s))).

(** A handled event: clear what it closed and return, or go on. *)
Definition finish (ty : Z) : M (option Z) :=
  if ty =? -1 then ret None else clear_closed_event ty ;;; ret (Some ty).

(** The default case of the switch, for event [k]. *)
Definition data_event (retries : nat) (k : Z) (e : event) (i : Z) : M (option Z) :=
  let! s := get_slot i in
  if e_read e then
    let! ty := (if protocol s =? PROTOCOL_TCP then forward_message_tcp i else forward_message_udp i) in
    if negb (protocol s =? PROTOCOL_TCP) && (ty =? SOCKET_UDP) then
      set_index (fun x => x - 1) ;;; ret (Some SOCKET_UDP)
    else
      when (e_write e) (clear_read k ;;; set_index (fun x => x - 1)) ;;;
      finish ty
  else if e_write e then
    let! ty := send_buffer retries i in finish ty
  else ret None.

Definition handle_event (retries : nat) (k : Z) (e : event) : M (option Z) :=
  match e_s e with
  | None => ret None
  | Some i =>
      let! s := get_slot i in
      if type s =? SOCKET_TYPE_CONNECTING then
        let! ty := report_connect i in ret (Some ty)
      else if type s =? SOCKET_TYPE_LISTEN then
        let! ok := report_accept i in
        if ok : bool then ret (Some SOCKET_ACCEPT) else ret None
      else if type s =? SOCKET_TYPE_INVALID then ret None
      else data_event retries k e i
  end.

(** The part of a round after the control commands; the second component is
    [*more], when the caller asks for it. *)
Definition poll_event (retries : nat) (more : option Z) : M (option Z * option Z) :=
  let! s := gets ss in
  let! more := (if event_index s =? event_n s then
      let! r := sp_wait MAX_EVENT in
      set_ss (fun s => with_checkctrl (with_events s (if r.1 <=? 0 then 0 else r.1) 0
                                         (r.2 ++ drop (length r.2) (ev s))) true) ;;;
      let more := (fun _ => 0) <$> more in
      ret (if r.1 <=? 0 then inl more else inr more)
    else ret (inr more)) in
  match more with
  | inl more => ret (Some (-1), more)
  | inr more =>
      let! s := gets ss in
      let k := event_index s in
      set_index (fun x => x + 1) ;;;
      match ev s !! Z.to_nat k with
      | None => fail OutOfBounds
      | Some e => let! t := handle_event retries k e in ret (t, more)
      end
  end.

(** One round of the for loop; [None] continues. *)
Definition poll_round (retries : nat) (more : option Z) : M (option Z * option Z) :=
  let! s := gets ss in
  let! c := (if checkctrl s then has_cmd else ret false) in
  if c : bool then
    let! ty := ctrl_cmd retries in
    let! t := finish ty in
    ret (t, more)
  else
    when (checkctrl s) (set_ss (fun s => with_checkctrl s false)) ;;;
    poll_event retries more.

Fixpoint socket_server_poll (fuel retries : nat) (more : option Z) : M (Z * option Z) :=
  match fuel with
  | O => fail OutOfFuel
  | S fuel =>
      let! r := poll_round retries more in
      match r.1 with
      | Some ty => ret (ty, r.2)
      | None => socket_server_poll fuel retries r.2
      end
  end.

(** ** The public interface *)

(** The write is repeated on any error; a pipe takes up to 4096 bytes at once. *)
Fixpoint send_request (retries : nat) (rq : request) : M unit :=
  match retries with
  | O => fail OutOfFuel
  | S retries' =>
      let! r := sysret in
      if rv r <? 0 then send_request retries' rq
      else
        let body := request_body rq in
        set_ss (fun s => with_pipe s (pipe s ++ [request_type rq; u8 (Z.of_nat (length body))] ++ body))
  end.

Definition sizeof_open : Z := 24.

(** The identifier, or -1; the source returns the length of the address and leaves
    the identifier in the request. *)
Definition open_request (addr : list Z) : M Z :=
  if 256 <? Z.of_nat (length addr) + sizeof_open then ret (-1)
  else
    let! id := reserve_id in
    if id <? 0 then ret (-1) else ret id.

Definition socket_server_connect (retries : nat) (opq : Z) (addr : list Z) (port : Z) : M Z :=
  let! id := open_request addr in
  if id <? 0 then ret (-1)
  else send_request retries (RqOpen id port opq addr) ;;; ret id.

(** The slot of a send: [None] when the id is stale, with the buffer freed. *)
Definition send_slot (id buffer sz : Z) : M (option socket) :=
  let! s := get_slot (HASH_ID id) in
  if negb (sid s =? id) || (type s =? SOCKET_TYPE_INVALID) then
    free_buffer buffer sz ;;; ret None
  else ret (Some s).

(** wb_size is read after the request is written. *)
Definition sent_size (id : Z) : M Z := let! s := get_slot (HASH_ID id) in ret (wb_size s).

Definition socket_server_send (retries : nat) (id buffer sz : Z) : M Z :=
  let! s := send_slot id buffer sz in
  match s with
  | None => ret (-1)
  | Some _ => send_request retries (RqSend id sz buffer) ;;; sent_size id
  end.

Definition socket_server_send_lowpriority (retries : nat) (id buffer sz : Z) : M unit :=
  let! s := send_slot id buffer sz in
  match s with
  | None => ret tt
  | Some _ => send_request retries (RqSendLow id sz buffer)
  end.

Definition socket_server_exit (retries : nat) : M unit := send_request retries RqExit.

Definition socket_server_close (retries : nat) (opq id : Z) : M unit := send_request retries (RqClose id opq).

(** The descriptor (-1 on failure) and the family. *)
Definition do_bind (host : option (list Z)) (port proto : Z) : M (Z * Z) :=
  let host := match host with None | Some [] => str_any | Some h => h end in
  m_assert ((proto =? IPPROTO_TCP) || (proto =? IPPROTO_UDP)) ;;;
  let socktype := if proto =? IPPROTO_TCP then SOCK_STREAM else SOCK_DGRAM in
  match getaddrinfo host port socktype with
  | None => ret (-1, 0)
  | Some [] => fail Undefined
  | Some (ai :: _) =>
      let family := ai_family ai in
      let! r := sysret in
      let fd := rv r in
      if fd <? 0 then ret (-1, family)
      else
        let! c := sys_setsockopt fd SOL_SOCKET SO_REUSEADDR 1 in
        if c =? -1 then sys_close fd ;;; ret (-1, family)
        else
          let! r := sysret in
          if negb (rv r =? 0) then sys_close fd ;;; ret (-1, family)
          else ret (fd, family)
  end.

Definition do_listen (host : option (list Z)) (port backlog : Z) : M Z :=
  let! b := do_bind host port IPPROTO_TCP in
  let fd := b.1 in
  if fd <? 0 then ret (-1)
  else
    let! r := sysret in
    if rv r =? -1 then sys_close fd ;;; ret (-1)
    else emit (EvListen fd backlog) ;;; ret fd.

Definition socket_server_listen (retries : nat) (opq : Z) (addr : option (list Z)) (port backlog : Z) : M Z :=
  let! fd := do_listen addr port backlog in
  if fd <? 0 then ret (-1)
  else
    let! id := reserve_id in
    if id <? 0 then sys_close fd ;;; ret id
    else send_request retries (RqListen id fd opq) ;;; ret id.

Definition socket_server_bind (retries : nat) (opq fd : Z) : M Z :=
  let! id := reserve_id in
  if id <? 0 then ret (-1)
  else send_request retries (RqBind id fd opq) ;;; ret id.

Definition socket_server_start (retries : nat) (opq id : Z) : M unit := send_request retries (RqStart id opq).

Definition socket_server_nodelay (retries : nat) (id : Z) : M unit :=
  send_request retries (RqSetopt id TCP_NODELAY 1).

Definition socket_server_userobject (o : socket_object_interface) : M unit := set_ss (fun s => with_soi s o).

Definition socket_server_udp (retries : nat) (opq : Z) (addr : option (list Z)) (port : Z) : M Z :=
  let! b := (if negb (port =? 0) || match addr with Some _ => true | None => false end
             then do_bind addr port IPPROTO_UDP
             else let! r := sysret in ret (rv r, AF_INET)) in
  let fd := b.1 in
  if fd <? 0 then ret (-1)
  else
    sp_nonblocking fd ;;;
    let! id := reserve_id in
    if id <? 0 then sys_close fd ;;; ret (-1)
    else send_request retries (RqUdp id fd b.2 opq) ;;; ret id.

(** The length of a UDP address by its first byte. *)
Definition udp_addrsz (address : list Z) : option Z :=
  if address !!! 0%nat =? PROTOCOL_UDP then Some 7
  else if address !!! 0%nat =? PROTOCOL_UDPv6 then Some 19
  else None.

Definition socket_server_udp_send (retries : nat) (id : Z) (addr : list Z) (buffer sz : Z) : M Z :=
  let! s := send_slot id buffer sz in
  match s with
  | None => ret (-1)
  | Some _ =>
      match udp_addrsz addr with
      | None => free_buffer buffer sz ;;; ret (-1)
      | Some n => send_request retries (RqSendUdp id sz buffer (take (Z.to_nat n) addr)) ;;; sent_size id
      end
  end.

Definition socket_server_udp_connect (retries : nat) (id : Z) (addr : list Z) (port : Z) : M Z :=
  match getaddrinfo addr port SOCK_DGRAM with
  | None => ret (-1)
  | Some [] => fail Undefined
  | Some (ai :: _) =>
      if (ai_family ai =? AF_INET) || (ai_family ai =? AF_INET6) then
        let proto := if ai_family ai =? AF_INET then PROTOCOL_UDP else PROTOCOL_UDPv6 in
        send_request retries (RqSetUdp id (gen_udp_address proto (ai_addr ai))) ;;; ret 0
      else ret (-1)
  end.

(** The address after the datagram of a message. *)
Definition socket_server_udp_address (data : list Z) (ud : Z) : option (list Z) :=
  let address := drop (Z.to_nat ud) data in
  match udp_addrsz address with
  | Some n => Some (take (Z.to_nat n) address)
  | None => None
  end.

Definition socket_server_init_pipe (s : socket_server) : Z * Z := (recvctrl_fd s, sendctrl_fd s).

End Handlers.

(** ** Fields round trip *)

Definition is_int (z : Z) : Prop := - 2 ^ 31 <= z < 2 ^ 31.
Definition is_ptr (z : Z) : Prop := 0 <= z < 2 ^ 64.

Lemma i32_wrap z : is_int z → i32 (z mod 2 ^ 32) = z.
Proof.
  intros Hz. transitivity (i32 z); [|by apply (swrap_small 32)].
  unfold swrap. by rewrite Z.mod_mod by lia.
Qed.

Lemma int_at_intro pre post z buf off :
  buf = pre ++ int_bytes z ++ post → length pre = off → is_int z → int_at buf off = Ok z.
Proof.
  intros -> <- Hz. unfold int_at, int_bytes. rewrite (proj2 (Nat.leb_le _ _)) by (len; rewrite length_le_bytes; lia).
  rewrite drop_app_length, take_app_length', le_value_le_bytes by (by rewrite length_le_bytes).
  f_equal. by apply i32_wrap.
Qed.

Lemma ptr_at_intro pre post z buf off :
  buf = pre ++ ptr_bytes z ++ post → length pre = off → is_ptr z → ptr_at buf off = Ok z.
Proof.
  intros -> <- Hz. unfold ptr_at, ptr_bytes. rewrite (proj2 (Nat.leb_le _ _)) by (len; rewrite length_le_bytes; lia).
  rewrite drop_app_length, take_app_length', le_value_le_bytes by (by rewrite length_le_bytes).
  f_equal. by apply Z.mod_small.
Qed.

Lemma cstr_app s post : Forall (fun b => b ≠ 0) s → cstr (s ++ 0 :: post) = Ok s.
Proof.
  induction 1 as [|b s Hb _ IH]; [done|]. cbn. rewrite (proj2 (Z.eqb_neq _ _) Hb), IH. done.
Qed.

(** What the fields of a request hold: machine integers, a UDP address of 7 or 19
    bytes, and a host name without zero bytes that leaves the request below 256
    bytes. *)
Definition request_ok (rq : request) : Prop :=
  match rq with
  | RqStart id o | RqClose id o => is_int id ∧ is_ptr o
  | RqBind id fd o | RqListen id fd o => is_int id ∧ is_int fd ∧ is_ptr o
  | RqOpen id port o host =>
      is_int id ∧ is_int port ∧ is_ptr o ∧ Forall (fun b => b ≠ 0) host ∧ (length host < 232)%nat
  | RqExit => True
  | RqSend id sz b | RqSendLow id sz b => is_int id ∧ is_int sz ∧ is_ptr b
  | RqSendUdp id sz b addr => is_int id ∧ is_int sz ∧ is_ptr b ∧ (length addr <= 19)%nat
  | RqSetUdp id addr => is_int id ∧ (length addr <= 19)%nat
  | RqSetopt id what v => is_int id ∧ is_int what ∧ is_int v
  | RqUdp id fd fam o => is_int id ∧ is_int fd ∧ is_int fam ∧ is_ptr o
  end.

(** The request as the server sees it: address fields have 19 bytes. *)
Definition received (rq : request) : request :=
  match rq with
  | RqSendUdp id sz b addr => RqSendUdp id sz b (resize 19 0 addr)
  | RqSetUdp id addr => RqSetUdp id (resize 19 0 addr)
  | rq => rq
  end.

Ltac len_bytes := unfold int_bytes, ptr_bytes; len; rewrite ?length_le_bytes; try lia.

Ltac field_side := solve [done | len_bytes | by rewrite <- ?app_assoc, ?app_nil_r].

(** Reads the field of a struct that follows the fields [pre]. *)
Ltac read_int pre post := rewrite (int_at_intro pre post) by field_side; cbn [mbind res_bind].
Ltac read_ptr pre post := rewrite (ptr_at_intro pre post) by field_side; cbn [mbind res_bind].

Ltac read_fields :=
  repeat match goal with
  | |- context [int_at (int_bytes ?x ++ ?r) 0] => rewrite (int_at_intro [] r x) by field_side
  | |- context [int_at (int_bytes ?x ++ int_bytes ?y) 4] =>
      rewrite (int_at_intro (int_bytes x) [] y) by field_side
  | |- context [int_at (int_bytes ?x ++ int_bytes ?y ++ ?r) 4] =>
      rewrite (int_at_intro (int_bytes x) r y) by field_side
  | |- context [int_at (int_bytes ?x ++ int_bytes ?y ++ int_bytes ?z) 8] =>
      rewrite (int_at_intro (int_bytes x ++ int_bytes y) [] z) by field_side
  | |- context [int_at (int_bytes ?x ++ int_bytes ?y ++ int_bytes ?z ++ ?r) 8] =>
      rewrite (int_at_intro (int_bytes x ++ int_bytes y) r z) by field_side
  | |- context [ptr_at (int_bytes ?x ++ ?y ++ ptr_bytes ?z) 8] =>
      rewrite (ptr_at_intro (int_bytes x ++ y) [] z) by field_side
  | |- context [ptr_at (int_bytes ?x ++ ?y ++ ptr_bytes ?z ++ ?r) 8] =>
      rewrite (ptr_at_intro (int_bytes x ++ y) r z) by field_side
  | |- context [ptr_at (int_bytes ?x ++ int_bytes ?y ++ int_bytes ?t ++ ?u ++ ptr_bytes ?z) 16] =>
      rewrite (ptr_at_intro (int_bytes x ++ int_bytes y ++ int_bytes t ++ u) [] z) by field_side
  end; rewrite ?bind_Ok.

Lemma drop_fields16 x y z r : drop 16 (int_bytes x ++ int_bytes y ++ ptr_bytes z ++ r) = r.
Proof.
  rewrite !app_assoc. apply drop_app_length'. len_bytes.
Qed.

Lemma resize_snoc0 (l : list Z) : (length l <= 19)%nat → resize 19 0 (l ++ [0]) = resize 19 0 l.
Proof.
  intros Hl. rewrite !resize_spec. destruct (decide (length l = 19%nat)) as [E|].
  - rewrite !take_app_le by lia. len.
    replace (19 - (length l + 1))%nat with 0%nat by lia. by replace (19 - length l)%nat with 0%nat by lia.
  - rewrite !take_ge by len. rewrite <- app_assoc. f_equal. len.
    replace (19 - length l)%nat with (S (19 - (length l + 1))) by lia. done.
Qed.

Lemma decode_request rq :
  request_ok rq → decode (request_type rq) (request_body rq) = Ok (Some (received rq)).
Proof.
  destruct rq as [id o|id fd o|id fd o|id o|id port o host| |id sz b|id sz b|id sz b addr|id addr|id what v|id fd fam o];
    cbn [request_ok]; intros Hok; destruct_and?; unfold decode; cbn [request_type request_body Z.eqb Pos.eqb];
    read_fields; try done.
  - rewrite drop_fields16. change (replicate 8 0) with (0 :: replicate 7 0). by rewrite cstr_app.
  - unfold address_at. rewrite drop_app_length' by len_bytes.
    change (Z.to_nat UDP_ADDRESS_SIZE) with 19%nat. by rewrite resize_snoc0.
Qed.

Lemma length_request_body rq : request_ok rq → (length (request_body rq) < 256)%nat.
Proof.
  destruct rq; cbn [request_ok request_body]; intros Hok; destruct_and?; len_bytes.
Qed.

Lemma length_open_body id port o host :
  length host = 232%nat → length (request_body (RqOpen id port o host)) = 256%nat.
Proof. intros. cbn [request_body]. len_bytes. Qed.

(** ** The pipe is a queue of requests *)

(** The bytes of a request in the pipe. *)
Definition frame (rq : request) : list Z :=
  [request_type rq; u8 (Z.of_nat (length (request_body rq)))] ++ request_body rq.

Inductive pipe_op :=
| PSend (rq : request)
| PRecv.

(** The queue the pipe implements; [None] when it is read empty, where the source
    does not get: has_cmd tells. *)
Fixpoint queue_run (ops : list pipe_op) (q : list request) : option (list request * list request) :=
  match ops with
  | [] => Some ([], q)
  | PSend rq :: ops => queue_run ops (q ++ [rq])
  | PRecv :: ops =>
      match q with
      | [] => None
      | rq :: q => '(out, q) ← queue_run ops q; Some (rq :: out, q)
      end
  end.

Section Pipe.
Context `{Env} (n : nat).

Fixpoint pipe_run (ops : list pipe_op) : M (list (option request)) :=
  match ops with
  | [] => ret []
  | PSend rq :: ops => send_request n rq ;;; pipe_run ops
  | PRecv :: ops =>
      let! rq := read_request n in
      let! out := pipe_run ops in
      ret (rq :: out)
  end.

(** Calls on the pipe succeed or are interrupted, the latter less than [n] times
    in a row. *)
Definition pipe_calls_ok : Prop :=
  (∀ k, rv (os k) < 0 → err (os k) = EINTR) ∧ retries_suffice n.

(** Between two states only the pipe and the number of calls differ. *)
Definition pipe_changed (b : list Z) (w w' : world) : Prop :=
  ss w' = with_pipe (ss w) b ∧ result w' = result w ∧ log w' = log w.

Lemma block_readpipe_spec m sz w b b' :
  (∀ k, rv (os k) < 0 → err (os k) = EINTR) →
  (∃ j, (j < m)%nat ∧ ¬ interrupted (os (pos w + j))) →
  pipe (ss w) = b ++ b' → Z.of_nat (length b) = sz →
  wp no_fault (block_readpipe m sz) (fun d w' => d = b ∧ pipe_changed b' w w') w.
Proof.
  intros He. revert w. induction m as [|m IH]; intros w (j & Hj & Hi) Hp Hl; [lia|].
  cbn [block_readpipe]. wp_steps. destruct (Z.ltb_spec (rv (os (pos w))) 0) as [Hn|Hn].
  - rewrite He by done. cbn. eapply wp_mono; [apply IH; try done|by intros].
    destruct j as [|j]; [destruct Hi; split; [by rewrite Nat.add_0_r | rewrite Nat.add_0_r; by apply He]|].
    exists j. cbn [pos]. rewrite Nat.add_succ_comm. split; [lia|done].
  - wp_steps. cbn [ss]. rewrite Hp. apply wp_assert.
    + apply Z.eqb_eq. rewrite take_app_length' by lia. done.
    + wp_steps. rewrite take_app_length', drop_app_length' by lia. by repeat split.
Qed.

Lemma send_request_spec rq m w :
  (∃ j, (j < m)%nat ∧ ¬ interrupted (os (pos w + j))) →
  (∀ k, rv (os k) < 0 → err (os k) = EINTR) →
  wp no_fault (send_request m rq) (fun _ w' => pipe_changed (pipe (ss w) ++ frame rq) w w') w.
Proof.
  intros Hj He. revert w Hj. induction m as [|m IH]; intros w (j & Hj & Hi); [lia|].
  cbn [send_request]. wp_steps. destruct (Z.ltb_spec (rv (os (pos w))) 0) as [Hn|Hn].
  - eapply wp_mono; [apply IH|by intros].
    destruct j as [|j]; [destruct Hi; split; [by rewrite Nat.add_0_r | rewrite Nat.add_0_r; by apply He]|].
    exists j. cbn [pos]. rewrite Nat.add_succ_comm. split; [lia|done].
  - wp_steps. by repeat split.
Qed.

Lemma read_request_spec rq w b :
  pipe_calls_ok → request_ok rq → pipe (ss w) = frame rq ++ b →
  wp no_fault (read_request n) (fun r w' => r = Some (received rq) ∧ pipe_changed b w w') w.
Proof.
  intros [He Hn] Hok Hp. unfold read_request. wp_steps.
  set (hdr := [request_type rq; u8 (Z.of_nat (length (request_body rq)))]).
  eapply wp_mono; [by apply (block_readpipe_spec _ _ _ hdr (request_body rq ++ b)); [|apply Hn|..]|].
  intros hd w1 (-> & Hss & Hr & Hlog). wp_steps.
  pose proof (length_request_body rq Hok) as Hlen.
  eapply wp_mono; [apply (block_readpipe_spec _ _ _ (request_body rq) b); [done|apply Hn|..]|].
  - by rewrite Hss.
  - symmetry. apply (wrap_small 8). lia.
  - intros d w2 (-> & Hss2 & Hr2 & Hlog2). unfold wp, lift.
    change (hdr !!! 0%nat) with (request_type rq). rewrite decode_request by done.
    split; [done|]. repeat split; [|congruence..]. rewrite Hss2, Hss. done.
Qed.

End Pipe.

Definition op_ok (op : pipe_op) : Prop := match op with PSend rq => request_ok rq | PRecv => True end.

(** What a generated address keeps of a socket address: not the flow information
    and the scope. *)
Definition reply_to (sa : sockaddr_all) : sockaddr_all := mk_sa (sa_family sa) (sa_port sa) (sa_addr sa) 0 0.

Lemma reply_to_same sa : reply_to sa = sa ↔ sa_flowinfo sa = 0 ∧ sa_scope_id sa = 0.
Proof.
  destruct sa as [fam port addr flow scope]. unfold reply_to. cbn. split; [by intros [= -> ->]|by intros [-> ->]].
Qed.

(** A port of two bytes with an IPv4 address of four or an IPv6 address of sixteen. *)
Definition sa_ok (sa : sockaddr_all) : Prop :=
  length (sa_port sa) = 2%nat ∧
  (sa_family sa = AF_INET ∧ length (sa_addr sa) = 4%nat ∨
   sa_family sa = AF_INET6 ∧ length (sa_addr sa) = 16%nat).

Definition udp_proto (sa : sockaddr_all) : Z := if sa_family sa =? AF_INET then PROTOCOL_UDP else PROTOCOL_UDPv6.

(** An address generated for a socket's protocol is found again and resolved to
    what it keeps of the socket address. *)
Lemma udp_address_roundtrip s sa :
  let addr := gen_udp_address (udp_proto sa) sa in
  sa_ok sa → protocol s = udp_proto sa →
  (∃ n, udp_addrsz addr = Some n ∧ take (Z.to_nat n) addr = addr) ∧
  (length addr <= 19)%nat ∧ udp_socket_address s (resize 19 0 addr) = Some (reply_to sa).
Proof.
  unfold udp_proto. destruct sa as [fam port addr flow scope]. cbn. intros [Hport Hfam] Hp. cbn in Hport, Hfam.
  destruct port as [|p0 [|p1 [|]]]; try done.
  unfold udp_socket_address. rewrite Hp.
  destruct Hfam as [(-> & Hl)|(-> & Hl)].
  - do 4 (destruct addr as [|? addr]; [done|]). destruct addr; [|done].
    split; [by eexists|]. split; [cbn; lia | reflexivity].
  - do 16 (destruct addr as [|? addr]; [done|]). destruct addr; [|done].
    split; [by eexists|]. split; [cbn; lia | reflexivity].
Qed.

Section PipeClaims.
Context `{Env}.

(** C20: the control pipe is a queue of requests: however sends and receives
    alternate, the server decodes the well-formed requests it is sent, in order, field by
    field, and no bytes are left over between them.  Well-formed requests have fields of
    their C types, addresses of at most 19 bytes, which arrive padded to 19, and host names
    below 232 bytes without zero bytes; one of 232 bytes is accepted by the caller and not
    decoded ([connect_long_host_undefined]).  Calls on the pipe succeed or are interrupted. *)
Theorem pipe_refines_queue n ops q out q' w :
  pipe_calls_ok n → Forall request_ok q → Forall op_ok ops →
  pipe (ss w) = mjoin (frame <$> q) → queue_run ops q = Some (out, q') →
  ∃ got w', pipe_run n ops w = Ok (got, w') ∧
    got = (fun rq => Some (received rq)) <$> out ∧ pipe (ss w') = mjoin (frame <$> q').
Proof.
  intros Hn. revert q out q' w. induction ops as [|op ops IH]; intros q out q' w Hq Hops Hp Hrun.
  { injection Hrun as <- <-. by exists [], w. }
  apply Forall_cons_1 in Hops as [Hop Hops]. destruct op as [rq|]; cbn [pipe_run queue_run] in *.
  - destruct (wp_no_fault _ _ _ (send_request_spec rq n w (proj2 Hn _) (proj1 Hn)))
      as ([] & w1 & Hs & Hss & _ & _).
    unfold bind. rewrite Hs. apply (IH (q ++ [rq])); [apply Forall_app; split; [done|]; by repeat constructor|done| |done].
    rewrite Hss. cbn [pipe with_pipe]. rewrite Hp, fmap_app, mjoin_app. f_equal. symmetry. exact (app_nil_r (frame rq)).
  - destruct q as [|rq q]; [done|]. apply Forall_cons_1 in Hq as [Hrq Hq].
    apply bind_Some in Hrun as ([out1 q1] & Hrun & [= <- <-]).
    destruct (wp_no_fault _ _ _ (read_request_spec n rq w (mjoin (frame <$> q)) Hn Hrq Hp))
      as (r & w1 & Hs & -> & Hss & _ & _).
    destruct (IH q out1 q1 w1) as (got & w2 & Hr2 & -> & Hp2); [done..|by rewrite Hss|done|].
    unfold bind. rewrite Hs, Hr2. by eexists _, w2.
Qed.

(** Connecting to a host whose name has exactly 232 bytes is accepted: an
    identifier is returned and the request sent.  But the length of the request,
    256, becomes the byte 0 of its header, and the server then decodes a struct it
    has read no byte of: undefined behaviour, with 256 stray bytes in the pipe. *)
Theorem connect_long_host_undefined n opq addr port w :
  pipe_calls_ok n → length addr = 232%nat → 0 <= alloc_id (ss w) < 2 ^ 31 →
  (∃ i, 0 <= i < MAX_SOCKET ∧ type (slot_at (ss w) i) = SOCKET_TYPE_INVALID) → pipe (ss w) = [] →
  ∃ id w', socket_server_connect n opq addr port w = Ok (id, w') ∧ 0 <= id ∧
    ctrl_cmd n w' = Fault Undefined.
Proof.
  intros Hn Hlen Ha (i & Hi & Hfree) Hp.
  destruct (wp_no_fault _ _ _ (reserve_loop_post (Z.to_nat MAX_SOCKET) w Ha))
    as (id & w1 & Hrun & _ & _ & _ & a & Hb & Hor).
  destruct Hor as [(-> & _ & Hk)|(-> & Ht & Hss)].
  { exfalso. destruct (HASH_ID_reaches (alloc_id (ss w)) i Hi) as (k & Hk1 & <-).
    apply (Hk k); [|done]. by rewrite Z2Nat.id by (vm_compute; discriminate). }
  unfold socket_server_connect, open_request, sizeof_open, bind. rewrite Hlen.
  change (256 <? Z.of_nat 232 + 24) with false. cbn iota.
  unfold reserve_id. rewrite Hrun. rewrite (proj2 (Z.ltb_ge a 0)) by lia. cbn [ret].
  rewrite (proj2 (Z.ltb_ge a 0)) by lia.
  set (rq := RqOpen a port opq addr).
  destruct (wp_no_fault _ _ _ (send_request_spec rq n w1 (proj2 Hn _) (proj1 Hn))) as ([] & w2 & Hs & Hss2 & _ & _).
  rewrite Hs. exists a, w2. split; [done|]. split; [lia|].
  assert (length (request_body rq) = 256%nat) as Hbody
    by (by apply length_open_body).
  assert (pipe (ss w2) = [79; 0] ++ request_body rq) as Hp2.
  { rewrite Hss2, Hss. cbn [pipe with_pipe with_slot with_alloc]. rewrite Hp. unfold frame. by rewrite Hbody. }
  unfold ctrl_cmd, read_request, bind.
  destruct (wp_no_fault _ _ _ (block_readpipe_spec n 2 w2 [79; 0] (request_body rq)
              (proj1 Hn) (proj2 Hn _) Hp2 eq_refl)) as (hd & w3 & -> & -> & Hss3 & _ & _).
  destruct (wp_no_fault _ _ _ (block_readpipe_spec n 0 w3 [] (request_body rq)
              (proj1 Hn) (proj2 Hn _) ltac:(by rewrite Hss3) eq_refl)) as (b & w4 & Hb4 & -> & _).
  change ([79; 0] !!! 1%nat) with 0. rewrite Hb4. done.
Qed.

(** What a datagram delivered to the server's caller holds. *)
Lemma forward_message_udp_inv i w w' :
  let s := slot_at (ss w) i in
  let r := os (pos w) in
  forward_message_udp i w = Ok (SOCKET_UDP, w') →
  let data := take (Z.to_nat MAX_UDP_PACKAGE) (stored r) in
  protocol s = udp_proto (from r) ∧ ss w' = ss w ∧
  result w' = mk_msg (sid s) (opaque s) (Z.of_nat (length data))
                (Some (data ++ gen_udp_address (udp_proto (from r)) (from r))).
Proof.
  intros s r Hrun data. unfold forward_message_udp, bind, get_slot, gets, sysret in Hrun. fold s r data in Hrun.
  destruct (rv r <? 0).
  { destruct ((err r =? EINTR) || (err r =? EAGAIN)); [done|]. unfold bind in Hrun.
    destruct (force_close i _) as [[[] w1]|]; done. }
  fold (udp_proto (from r)) in Hrun.
  destruct (Z.eqb_spec (protocol s) (udp_proto (from r))) as [Hp|]; [|done]. by injection Hrun as <-.
Qed.

(** A request for the socket, written and read back. *)
Lemma udp_send_spec n id addr k b sz w :
  pipe_calls_ok n → udp_addrsz addr = Some k →
  sid (slot_at (ss w) (HASH_ID id)) = id → type (slot_at (ss w) (HASH_ID id)) ≠ SOCKET_TYPE_INVALID →
  wp no_fault (socket_server_udp_send n id addr b sz)
    (fun _ w1 => pipe_changed (pipe (ss w) ++ frame (RqSendUdp id sz b (take (Z.to_nat k) addr))) w w1) w.
Proof.
  intros [He Hn] Hk Hid Ht. unfold socket_server_udp_send, send_slot. wp_steps.
  rewrite Hid, Z.eqb_refl, (proj2 (Z.eqb_neq _ _) Ht). cbn [negb orb]. wp_steps. rewrite Hk. wp_steps.
  eapply wp_mono; [apply send_request_spec; [apply Hn|done]|]. intros [] w1 Hw1. cbn beta. unfold sent_size. by wp_steps.
Qed.

(** A datagram for a connected UDP socket goes out at once or is queued behind the
    others, with the address it is for. *)
Lemma send_socket_udp_spec id b sz addr sa w :
  let s := slot_at (ss w) (HASH_ID id) in
  0 <= sz → sid s = id → type s = SOCKET_TYPE_CONNECTED → protocol s ≠ PROTOCOL_TCP →
  (length addr <= 19)%nat → udp_socket_address s addr = Some sa →
  wp no_fault (send_socket id b sz PRIORITY_HIGH (Some addr)) (fun t w2 => t = -1 ∧ pipe (ss w2) = pipe (ss w) ∧
    let s2 := slot_at (ss w2) (HASH_ID id) in
    ((∃ l, log w2 = log w ++ EvSendto (sfd s) (bytes_at b sz) (Some sa) :: l) ∨
     (∃ wb, high s2 = high s ++ [wb] ∧ wb_rest wb = bytes_at b sz ∧ sfd s2 = sfd s ∧
        udp_socket_address s2 (wb_udp_address wb) = Some sa))) w.
Proof.
  intros s Hsz Hid Ht Hp Hl Ha.
  assert (∀ Q : unit → world → Prop,
    (∀ w2, pipe (ss w2) = pipe (ss w) →
       (∃ wb, high (slot_at (ss w2) (HASH_ID id)) = high s ++ [wb] ∧ wb_rest wb = bytes_at b sz ∧
          sfd (slot_at (ss w2) (HASH_ID id)) = sfd s ∧
          udp_socket_address (slot_at (ss w2) (HASH_ID id)) (wb_udp_address wb) = Some sa) → Q tt w2) →
    ∀ w1, ss w1 = ss w → wp no_fault (append_sendbuffer_udp (HASH_ID id) PRIORITY_HIGH b sz addr) Q w1) as Hqueue.
  { intros Q HQ w1 Hss. unfold append_sendbuffer_udp, append_sendbuffer_, send_object_init.
    rewrite (proj2 (Z.ltb_ge sz 0)) by done. wp_steps. apply HQ; cbn [ss]; [by rewrite Hss|].
    rewrite slot_put, Hss. eexists. split; [reflexivity|]. unfold wb_rest. cbn [wb_ptr wb_sz wb_udp_address so_buffer so_sz].
    rewrite Z.add_0_r, Z.sub_0_r. split; [done|]. split; [done|].
    change (Z.to_nat UDP_ADDRESS_SIZE) with 19%nat. by rewrite take_ge. }
  unfold send_socket. wp_steps. unfold send_object_init. rewrite (proj2 (Z.ltb_ge sz 0)) by done. wp_steps.
  fold s. rewrite Ht, Hid, Z.eqb_refl, (proj2 (Z.eqb_neq _ _) Hp), Ha. cbn -[wp append_sendbuffer_udp].
  wp_steps. rewrite andb_true_r. destruct (send_buffer_empty s).
  - unfold sys_sendto. wp_steps. case_match; wp_steps; cbn [fst so_sz].
    + rewrite (proj2 (Z.eqb_neq (-1) sz)) by lia. cbn [negb]. wp_steps. apply Hqueue; [|done].
      intros w2 Hpipe Hwb. wp_steps. split; [done|]. split; [done|]. by right.
    + rewrite length_bytes_at, Z.eqb_refl by done. unfold so_free. wp_steps. split; [done|]. split; [done|].
      left. eexists. cbn [log]. by rewrite <- app_assoc.
  - wp_steps. apply Hqueue; [|done]. intros w2 Hpipe Hwb. wp_steps. split; [done|]. split; [done|]. by right.
Qed.

(** C35: replying to a datagram.  When forward_message_udp delivers a datagram of a
    connected UDP socket with an empty command pipe, socket_server_udp_address finds
    the sender's address behind the datagram; socket_server_udp_send with that address
    writes a request to the pipe, and the server's reading and handling of it leaves the
    pipe empty and sends the reply as one datagram to [reply_to] the sender, or queues
    it behind the others of high priority with an address that resolves to that.  This
    is the sender's own address exactly when its IPv6 flow information and scope are 0,
    as for every IPv4 sender: the scope of a link-local sender is lost. *)
Theorem udp_reply_reaches_sender n i w w' b sz :
  let s := slot_at (ss w) i in
  let sa := from (os (pos w)) in
  pipe_calls_ok n → sa_ok sa → forward_message_udp i w = Ok (SOCKET_UDP, w') →
  HASH_ID (sid s) = i → is_int (sid s) → type s = SOCKET_TYPE_CONNECTED → pipe (ss w) = [] →
  0 <= sz → is_int sz → is_ptr b →
  ∃ data addr r w1 w2, msg_data (result w') = Some data ∧
    take (Z.to_nat (msg_ud (result w'))) data = take (Z.to_nat MAX_UDP_PACKAGE) (stored (os (pos w))) ∧
    socket_server_udp_address data (msg_ud (result w')) = Some addr ∧
    socket_server_udp_send n (sid s) addr b sz w' = Ok (r, w1) ∧
    ctrl_cmd n w1 = Ok (-1, w2) ∧ pipe (ss w2) = [] ∧
    (let s2 := slot_at (ss w2) i in
     (∃ l, log w2 = log w1 ++ EvSendto (sfd s) (bytes_at b sz) (Some (reply_to sa)) :: l) ∨
     (∃ wb, high s2 = high s ++ [wb] ∧ wb_rest wb = bytes_at b sz ∧ sfd s2 = sfd s ∧
        udp_socket_address s2 (wb_udp_address wb) = Some (reply_to sa))) ∧
    (reply_to sa = sa ↔ sa_flowinfo sa = 0 ∧ sa_scope_id sa = 0).
Proof.
  intros s sa Hn Hsa Hrun Hi Hid Ht Hpipe Hsz Hisz Hb.
  apply forward_message_udp_inv in Hrun as (Hp & Hss & Hres). fold s sa in Hp, Hres.
  destruct (udp_address_roundtrip s sa Hsa Hp) as ((k & Hk & Htake) & Hlen & Haddr).
  set (addr := gen_udp_address (udp_proto sa) sa) in *.
  rewrite Hres. cbn [msg_data msg_ud]. set (data := take _ _) in *.
  destruct (wp_no_fault _ _ _ (udp_send_spec n (sid s) addr k b sz w' Hn Hk ltac:(by rewrite Hss, Hi)
              ltac:(rewrite Hss, Hi; fold s; by rewrite Ht))) as (r & w1 & Hsend & Hss1 & _ & _).
  rewrite Htake, Hss, Hpipe in Hss1. cbn [app] in Hss1.
  set (rq := RqSendUdp (sid s) sz b addr) in *.
  destruct (wp_no_fault _ _ _ (read_request_spec n rq w1 [] Hn ltac:(done)
              ltac:(by rewrite Hss1, app_nil_r))) as (o & w2 & Hread & -> & Hss2 & _ & Hlog2).
  assert (slot_at (ss w2) (HASH_ID (sid s)) = s) as Hslot by (by rewrite Hss2, Hss1, Hi).
  destruct (wp_no_fault _ _ _ (send_socket_udp_spec (sid s) b sz (resize 19 0 addr) (reply_to sa) w2 Hsz
              ltac:(by rewrite Hslot) ltac:(by rewrite Hslot)
              ltac:(rewrite Hslot, Hp; unfold udp_proto; by case_match)
              ltac:(by rewrite length_resize) ltac:(by rewrite Hslot)))
    as (t & w3 & Hrun & -> & Hpipe3 & Hor). rewrite Hslot, Hi in Hor.
  exists (data ++ addr), addr, r, w1, w3. unfold socket_server_udp_address.
  rewrite Nat2Z.id, take_app_length, drop_app_length, Hk, Htake.
  split; [done|]. split; [done|]. split; [done|]. split; [done|].
  split; [by unfold ctrl_cmd, bind; rewrite Hread|]. split; [by rewrite Hpipe3, Hss2|].
  split; [by rewrite <- Hlog2 | apply reply_to_same].
Qed.

End PipeClaims.

(** ** Concrete runs *)

Lemma const_env_calls_ok v e : 0 <= v → @pipe_calls_ok (const_env v e) 1.
Proof.
  intros Hv. split; [intros k Hk; cbn in Hk; lia|]. intros k. exists 0%nat. split; [lia|]. intros [Hn _]. cbn in Hn. lia.
Qed.

Definition pipe_ops : list pipe_op :=
  [PSend (RqListen 3 9 1); PSend (RqSend 5 4 1000); PRecv; PSend (RqSetUdp 5 [1; 0; 80; 127; 0; 0; 1]); PRecv; PRecv].

Lemma pipe_refines_queue_witness :
  ∃ got w', @pipe_run (const_env 1 0) 1 pipe_ops world0 = Ok (got, w') ∧ length got = 3%nat ∧ pipe (ss w') = [].
Proof.
  destruct (@pipe_refines_queue (const_env 1 0) 1 pipe_ops []
              [RqListen 3 9 1; RqSend 5 4 1000; RqSetUdp 5 [1; 0; 80; 127; 0; 0; 1]] [] world0 (const_env_calls_ok 1 0 ltac:(lia)))
    as (got & w' & Hr & -> & Hp).
  - constructor.
  - repeat constructor; cbn; unfold is_int, is_ptr; lia.
  - reflexivity.
  - reflexivity.
  - exists ((fun rq => Some (received rq)) <$>
             [RqListen 3 9 1; RqSend 5 4 1000; RqSetUdp 5 [1; 0; 80; 127; 0; 0; 1]]), w'.
    split; [exact Hr|]. split; [reflexivity | exact Hp].
Defined.

Lemma connect_long_host_undefined_witness :
  ∃ id w', @socket_server_connect (const_env 1 0) 1 1 (replicate 232 97) 80 world0 = Ok (id, w') ∧
    @ctrl_cmd (const_env 1 0) 1 w' = Fault Undefined.
Proof.
  destruct (@connect_long_host_undefined (const_env 1 0) 1 1 (replicate 232 97) 80 world0
              (const_env_calls_ok 1 0 ltac:(lia))) as (id & w' & Hc & _ & Hf).
  - reflexivity.
  - cbn. lia.
  - exists 0. split; [vm_compute; split; [discriminate | reflexivity] | reflexivity].
  - reflexivity.
  - exists id, w'. split; [exact Hc | exact Hf].
Defined.

(** An IPv4 datagram of three bytes. *)
Definition udp_env : Env :=
  Build_Env (fun _ => mk_sysres 3 0 [1; 2; 3] sa0 []) (fun a => a mod 256) (fun _ _ _ => None) (fun _ _ => None).
Definition udp_world : world :=
  mk_world (with_slot ss0 {[7 := mk_socket 1 [] [] 0 9 7 PROTOCOL_UDP SOCKET_TYPE_CONNECTED (replicate 20 0)]})
    (mk_msg 0 0 0 None) 0 [].

Lemma udp_env_calls_ok : @pipe_calls_ok udp_env 1.
Proof.
  split; [intros k Hk; cbn in Hk; lia|]. intros k. exists 0%nat. split; [lia|]. intros [Hn _]. cbn in Hn. lia.
Qed.

Lemma udp_reply_reaches_sender_witness :
  ∃ w' addr r w1 w2, @forward_message_udp udp_env 7 udp_world = Ok (SOCKET_UDP, w') ∧
    @socket_server_udp_send udp_env 1 7 addr 1000 2 w' = Ok (r, w1) ∧ @ctrl_cmd udp_env 1 w1 = Ok (-1, w2).
Proof.
  assert (∃ w', @forward_message_udp udp_env 7 udp_world = Ok (SOCKET_UDP, w')) as (w' & Hr)
    by (eexists; vm_compute; reflexivity).
  destruct (@udp_reply_reaches_sender udp_env 1 7 udp_world w' 1000 2)
    as (data & addr & r & w1 & w2 & _ & _ & _ & Hs & Hc & _);
    [exact udp_env_calls_ok | split; [reflexivity | left; split; reflexivity] | exact Hr
    | reflexivity | vm_compute; split; [discriminate | reflexivity] | reflexivity | reflexivity | lia | unfold is_int; lia | unfold is_ptr; lia |].
  exists w', addr, r, w1, w2. split; [exact Hr|]. split; [exact Hs | exact Hc].
Defined.
