(* ===== verification/SocketInv.v ===== *)
(** * The socket server: bounds of the event loop and of the read buffer
      (src/network/socket/socket_server.c, socket_server_poll and
       forward_message_tcp) *)

From S2P Require Import Prelude Unpack SocketMessage SocketState SocketSend SocketPoll.

Open Scope sock_scope.

(** ** The event array *)

(** The events not yet handled are those of positions event_index to event_n. *)
Definition events_ok (s : socket_server) : Prop :=
  length (ev s) = Z.to_nat MAX_EVENT ∧ 0 <= event_index s <= event_n s ∧ event_n s <= MAX_EVENT.

Definition events_at (idx n : Z) (s : socket_server) : Prop :=
  length (ev s) = Z.to_nat MAX_EVENT ∧ event_index s = idx ∧ event_n s = n.

Definition in_bounds (f : fault) : Prop := f ≠ OutOfBounds.

(** Operations that leave the position in the event array alone. *)
Definition keeps {A} (m : M A) : Prop :=
  ∀ idx n w, events_at idx n (ss w) → wp in_bounds m (fun _ w' => events_at idx n (ss w')) w.

Create HintDb keeps.

Section Keeps.
Context `{Env}.

Lemma keeps_ret {A} (a : A) : keeps (ret a).
Proof. by intros idx n w. Qed.

Lemma keeps_bind {A B} (m : M A) (k : A → M B) : keeps m → (∀ a, keeps (k a)) → keeps (bind m k).
Proof. intros Hm Hk idx n w Hw. apply wp_bind. eapply wp_mono; [by apply Hm|]. intros a w'. apply Hk. Qed.

Lemma keeps_fail {A} f : f ≠ OutOfBounds → keeps (@fail A f).
Proof. by intros Hf idx n w. Qed.

Lemma keeps_gets {A} (f : world → A) : keeps (gets f).
Proof. by intros idx n w. Qed.

Lemma keeps_emit e : keeps (emit e).
Proof. by intros idx n w. Qed.

Lemma keeps_set_result r : keeps (set_result r).
Proof. by intros idx n w. Qed.

Lemma keeps_sysret : keeps sysret.
Proof. by intros idx n w. Qed.

Lemma keeps_put_slot i x : keeps (put_slot i x).
Proof. by intros idx n w. Qed.

Lemma keeps_with_pipe f : keeps (set_ss (fun s => with_pipe s (f s))).
Proof. by intros idx n w. Qed.

Lemma keeps_with_alloc a : keeps (set_ss (fun s => with_alloc s a)).
Proof. by intros idx n w. Qed.

Lemma keeps_with_checkctrl b : keeps (set_ss (fun s => with_checkctrl s b)).
Proof. by intros idx n w. Qed.

Lemma keeps_assert b : keeps (m_assert b).
Proof. destruct b; [apply keeps_ret | by apply keeps_fail]. Qed.

Lemma keeps_when b m : keeps m → keeps (when b m).
Proof. destruct b; [done | intros; apply keeps_ret]. Qed.

End Keeps.

#[export] Hint Resolve keeps_ret keeps_gets keeps_emit keeps_set_result keeps_sysret keeps_put_slot
  keeps_with_pipe keeps_with_alloc keeps_with_checkctrl keeps_assert : keeps.

(** Follows the structure of a program. *)
Ltac keeps :=
  repeat first
    [ progress intros
    | solve [eauto with keeps]
    | apply keeps_bind
    | apply keeps_when
    | apply keeps_fail; discriminate
    | case_match ].

Section Operations.
Context `{Env}.

Lemma keeps_get_slot i : keeps (get_slot i). Proof. unfold get_slot. keeps. Qed.
Hint Resolve keeps_get_slot : keeps.
Lemma keeps_modify_slot i f : keeps (modify_slot i f). Proof. unfold modify_slot. keeps. Qed.
Lemma keeps_sys_write fd b : keeps (sys_write fd b). Proof. unfold sys_write. keeps. Qed.
Lemma keeps_sys_sendto fd b a : keeps (sys_sendto fd b a). Proof. unfold sys_sendto. keeps. Qed.
Lemma keeps_sys_close fd : keeps (sys_close fd). Proof. unfold sys_close. keeps. Qed.
Lemma keeps_setsockopt fd l x v : keeps (sys_setsockopt fd l x v). Proof. unfold sys_setsockopt. keeps. Qed.
Lemma keeps_sp_add fd s : keeps (sp_add fd s). Proof. unfold sp_add. keeps. Qed.
Lemma keeps_sp_del fd : keeps (sp_del fd). Proof. unfold sp_del. keeps. Qed.
Lemma keeps_sp_write fd s b : keeps (sp_write fd s b). Proof. unfold sp_write. keeps. Qed.
Lemma keeps_sp_nonblocking fd : keeps (sp_nonblocking fd). Proof. unfold sp_nonblocking. keeps. Qed.
Hint Resolve keeps_modify_slot keeps_sys_write keeps_sys_sendto keeps_sys_close keeps_setsockopt keeps_sp_add
  keeps_sp_del keeps_sp_write keeps_sp_nonblocking : keeps.

Lemma keeps_keepalive fd : keeps (socket_keepalive fd). Proof. unfold socket_keepalive. keeps. Qed.
Lemma keeps_send_object o sz : keeps (send_object_init o sz). Proof. unfold send_object_init. keeps. Qed.
Lemma keeps_so_free so o : keeps (so_free so o). Proof. unfold so_free. keeps. Qed.
Lemma keeps_wb_free wb : keeps (write_buffer_free wb). Proof. unfold write_buffer_free. keeps. Qed.
Hint Resolve keeps_keepalive keeps_send_object keeps_so_free keeps_wb_free : keeps.

Lemma keeps_free_wb_list l : keeps (free_wb_list l).
Proof. induction l; cbn [free_wb_list]; keeps. Qed.
Lemma keeps_reserve_loop k : keeps (reserve_loop k).
Proof. induction k; cbn [reserve_loop]; keeps. Qed.
Hint Resolve keeps_free_wb_list : keeps.

Lemma keeps_reserve_id : keeps reserve_id. Proof. apply keeps_reserve_loop. Qed.
Lemma keeps_force_close i : keeps (force_close i). Proof. unfold force_close. keeps. Qed.
Lemma keeps_new_fd id fd pr o b : keeps (new_fd id fd pr o b). Proof. unfold new_fd, check_wb_list. keeps. Qed.
Hint Resolve keeps_reserve_id keeps_force_close keeps_new_fd : keeps.

Lemma keeps_write_retry k fd b : keeps (write_retry k fd b).
Proof. induction k; cbn [write_retry]; keeps. Qed.
Hint Resolve keeps_write_retry : keeps.
Lemma keeps_send_list_tcp k l i hi : keeps (send_list_tcp k l i hi).
Proof. induction l; cbn [send_list_tcp]; keeps. Qed.
Lemma keeps_send_list_udp l i hi : keeps (send_list_udp l i hi).
Proof. induction l; cbn [send_list_udp]; keeps. Qed.
Hint Resolve keeps_send_list_tcp keeps_send_list_udp : keeps.
Lemma keeps_send_list k i hi : keeps (send_list k i hi). Proof. unfold send_list. keeps. Qed.
Lemma keeps_raise i : keeps (raise_uncomplete i). Proof. unfold raise_uncomplete. keeps. Qed.
Hint Resolve keeps_send_list keeps_raise : keeps.
Lemma keeps_send_buffer k i : keeps (send_buffer k i). Proof. unfold send_buffer. keeps. Qed.
Lemma keeps_append_ l o sz n a : keeps (append_sendbuffer_ l o sz n a). Proof. unfold append_sendbuffer_. keeps. Qed.
Hint Resolve keeps_send_buffer keeps_append_ : keeps.
Lemma keeps_append_udp i pr o sz a : keeps (append_sendbuffer_udp i pr o sz a).
Proof. unfold append_sendbuffer_udp. keeps. Qed.
Lemma keeps_append i o sz n : keeps (append_sendbuffer i o sz n). Proof. unfold append_sendbuffer. keeps. Qed.
Lemma keeps_append_low i o sz : keeps (append_sendbuffer_low i o sz). Proof. unfold append_sendbuffer_low. keeps. Qed.
Hint Resolve keeps_append_udp keeps_append keeps_append_low : keeps.
Lemma keeps_send_socket id o sz pr a : keeps (send_socket id o sz pr a). Proof. unfold send_socket. keeps. Qed.
Lemma keeps_close_socket k id o : keeps (close_socket k id o). Proof. unfold close_socket. keeps. Qed.
Hint Resolve keeps_send_socket keeps_close_socket : keeps.

Lemma keeps_connect_loop l : keeps (connect_loop l).
Proof. induction l; cbn [connect_loop]; keeps. Qed.
Hint Resolve keeps_connect_loop : keeps.
Lemma keeps_open_failed id : keeps (open_failed id). Proof. unfold open_failed. keeps. Qed.
Hint Resolve keeps_open_failed : keeps.
Lemma keeps_open id p o h : keeps (open_socket id p o h). Proof. unfold open_socket. keeps. Qed.
Lemma keeps_listen id fd o : keeps (listen_socket id fd o). Proof. unfold listen_socket. keeps. Qed.
Lemma keeps_bind_socket id fd o : keeps (bind_socket id fd o). Proof. unfold bind_socket. keeps. Qed.
Lemma keeps_start id o : keeps (start_socket id o). Proof. unfold start_socket. keeps. Qed.
Lemma keeps_setopt id x v : keeps (setopt_socket id x v). Proof. unfold setopt_socket. keeps. Qed.
Lemma keeps_add_udp id fd f o : keeps (add_udp_socket id fd f o). Proof. unfold add_udp_socket. keeps. Qed.
Lemma keeps_set_udp id a : keeps (set_udp_address id a). Proof. unfold set_udp_address. keeps. Qed.
Hint Resolve keeps_open keeps_listen keeps_bind_socket keeps_start keeps_setopt keeps_add_udp keeps_set_udp : keeps.
Lemma keeps_dispatch k rq : keeps (dispatch k rq). Proof. unfold dispatch. keeps. Qed.
Lemma keeps_readpipe k sz : keeps (block_readpipe k sz).
Proof. induction k; cbn [block_readpipe]; keeps. Qed.
Hint Resolve keeps_dispatch keeps_readpipe : keeps.
Lemma keeps_has_cmd : keeps has_cmd. Proof. unfold has_cmd. keeps. Qed.

Lemma bind_in_bounds {A B} (r : res A) (k : A → res B) :
  r ≠ Fault OutOfBounds → (∀ a, k a ≠ Fault OutOfBounds) → r ≫= k ≠ Fault OutOfBounds.
Proof. destruct r as [a|f]; cbn; [intros _ Hk; apply Hk | intros Hf _; congruence]. Qed.

Lemma int_at_in_bounds buf off : int_at buf off ≠ Fault OutOfBounds.
Proof. unfold int_at. by case_match. Qed.
Lemma ptr_at_in_bounds buf off : ptr_at buf off ≠ Fault OutOfBounds.
Proof. unfold ptr_at. by case_match. Qed.
Lemma cstr_in_bounds l : cstr l ≠ Fault OutOfBounds.
Proof. induction l as [|b l IH]; cbn; [done|]. destruct (b =? 0); [done|]. by apply bind_in_bounds. Qed.

Lemma decode_in_bounds ty buf : decode ty buf ≠ Fault OutOfBounds.
Proof.
  unfold decode. repeat case_match;
    repeat (apply bind_in_bounds;
            [solve [apply int_at_in_bounds | apply ptr_at_in_bounds | apply cstr_in_bounds] | intros ?]); done.
Qed.
Lemma keeps_read_request k : keeps (read_request k).
Proof.
  unfold read_request. keeps. intros idx n w Hw. unfold wp, lift.
  pose proof (decode_in_bounds (a !!! 0%nat) a0). destruct (decode _ _) as [|f]; [done|].
  intros ->. done.
Qed.
Hint Resolve keeps_has_cmd keeps_read_request : keeps.
Lemma keeps_ctrl_cmd k : keeps (ctrl_cmd k). Proof. unfold ctrl_cmd. keeps. Qed.

Lemma keeps_forward_tcp i : keeps (forward_message_tcp i).
Proof. unfold forward_message_tcp, double_size. keeps. Qed.
Lemma keeps_forward_udp i : keeps (forward_message_udp i). Proof. unfold forward_message_udp. keeps. Qed.
Lemma keeps_report_connect i : keeps (report_connect i). Proof. unfold report_connect. keeps. Qed.
Lemma keeps_report_accept i : keeps (report_accept i). Proof. unfold report_accept. keeps. Qed.
Hint Resolve keeps_ctrl_cmd keeps_forward_tcp keeps_forward_udp keeps_report_connect keeps_report_accept : keeps.


Lemma keeps_clear_closed ty : keeps (clear_closed_event ty).
Proof.
  apply keeps_when. intros idx n w (Hl & Hi & Hn). apply wp_modify.
  unfold events_at. cbn [ss ev event_index event_n with_events]. split; [|done].
  rewrite !length_app, length_fmap, !length_take, !length_drop. lia.
Qed.
Hint Resolve keeps_clear_closed : keeps.

Lemma keeps_finish ty : keeps (finish ty). Proof. unfold finish. keeps. Qed.
Lemma keeps_clear_read k : keeps (clear_read k).
Proof. intros idx n w (Hl & Hi & Hn). apply wp_modify.
  unfold events_at. cbn [ss ev event_index event_n with_events]. by rewrite length_alter. Qed.
Hint Resolve keeps_finish keeps_clear_read : keeps.

(** The event at [k] is handled, or will be handled again. *)
Definition handled (k n : Z) (s : socket_server) : Prop :=
  events_at k n s ∨ events_at (k + 1) n s.

Lemma wp_keeps {A} (m : M A) idx n w :
  keeps m → events_at idx n (ss w) → wp in_bounds m (fun _ w' => events_at idx n (ss w')) w.
Proof. auto. Qed.

Lemma step_back k n w :
  events_at (k + 1) n (ss w) → wp in_bounds (set_index (fun x => x - 1)) (fun _ w' => events_at k n (ss w')) w.
Proof. intros (Hl & Hi & Hn). apply wp_modify. split; [done|]. cbn. split; [lia | done]. Qed.

Lemma data_event_handled r k e i n w :
  events_at (k + 1) n (ss w) → wp in_bounds (data_event r k e i) (fun _ w' => handled k n (ss w')) w.
Proof.
  intros Hw. unfold data_event. wp_steps. destruct (e_read e).
  - wp_steps. eapply wp_mono; [apply wp_keeps; [keeps | exact Hw]|]; cbn beta; intros ty w1 Hw1. cbn beta.
    destruct (_ && _).
    + wp_steps. eapply wp_mono; [by eapply step_back|]; cbn beta; intros u w2 Hw2. wp_steps. by left.
    + wp_steps. apply wp_when; intros _.
      * wp_steps. eapply wp_mono; [apply wp_keeps; [keeps | exact Hw1]|]; cbn beta; intros u w2 Hw2.
        eapply wp_mono; [by eapply step_back|]; cbn beta; intros u3 w3 Hw3.
        eapply wp_mono; [apply wp_keeps; [keeps | exact Hw3]|]; cbn beta; intros u4 w4 Hw4. by left.
      * eapply wp_mono; [apply wp_keeps; [keeps | exact Hw1]|]; cbn beta; intros u4 w4 Hw4. by right.
  - eapply wp_mono; [apply wp_keeps; [keeps | exact Hw]|]; cbn beta; intros u4 w4 Hw4. by right.
Qed.

Lemma handle_event_handled r k e n w :
  events_at (k + 1) n (ss w) → wp in_bounds (handle_event r k e) (fun _ w' => handled k n (ss w')) w.
Proof.
  intros Hw. unfold handle_event. destruct (e_s e) as [i|]; [|wp_steps; by right].
  wp_steps. repeat case_match; [| | |by apply data_event_handled];
    (eapply wp_mono; [apply wp_keeps; [keeps | exact Hw]|]; cbn beta; intros u w' Hw'; by right).
Qed.

(** epoll_wait stores at most MAX_EVENT events. *)
Lemma sp_wait_spec w :
  wp in_bounds (sp_wait MAX_EVENT)
    (fun r w' => ss w' = ss w ∧ (length r.2 <= Z.to_nat MAX_EVENT)%nat ∧ (0 < r.1 → r.1 = Z.of_nat (length r.2))) w.
Proof.
  unfold sp_wait. wp_steps. destruct (Z.ltb_spec (rv (os (pos w))) 0); wp_steps.
  - split; [done|]. split; [apply Nat.le_0_l | cbn; lia].
  - cbn [fst snd ss]. split; [done|]. rewrite length_fmap, length_take. split; [lia | done].
Qed.

Lemma handled_ok k n s : handled k n s → 0 <= k < n → n <= MAX_EVENT → events_ok s.
Proof. intros [(Hl & Hi & Hn)|(Hl & Hi & Hn)] Hk Hm; (split; [done|]); lia. Qed.

(** The events after a wait. *)
Definition waited (s : socket_server) (r : Z * list event) : socket_server :=
  with_checkctrl (with_events s (if r.1 <=? 0 then 0 else r.1) 0 (r.2 ++ drop (length r.2) (ev s))) true.

Lemma waited_ok s r :
  length (ev s) = Z.to_nat MAX_EVENT → (length r.2 <= Z.to_nat MAX_EVENT)%nat →
  (0 < r.1 → r.1 = Z.of_nat (length r.2)) →
  events_ok (waited s r) ∧ event_index (waited s r) = 0 ∧ (0 < r.1 → event_n (waited s r) = r.1).
Proof.
  intros Hl Hr Hp. unfold waited, events_ok. cbn [ev event_index event_n with_checkctrl with_events].
  rewrite length_app, length_drop. change MAX_EVENT with 64 in *.
  destruct (Z.leb_spec r.1 0) as [H0|H0]; [|specialize (Hp H0)]; lia.
Qed.

(** Taking the next of the events that are left. *)
Lemma next_event r more w :
  events_ok (ss w) → event_index (ss w) < event_n (ss w) →
  wp in_bounds
    (let! s := gets ss in
     let k := event_index s in
     set_index (fun x => x + 1) ;;;
     match ev s !! Z.to_nat k with
     | None => fail OutOfBounds
     | Some e => let! t := handle_event r k e in ret (t, more : option Z)
     end) (fun _ w' => events_ok (ss w')) w.
Proof.
  intros (Hl & Hi & Hn) Hlt. wp_steps. unfold set_index. wp_steps.
  destruct (ev (ss w) !! Z.to_nat (event_index (ss w))) as [e|] eqn:E.
  - wp_steps. eapply wp_mono; [apply (handle_event_handled _ _ _ (event_n (ss w))); done|].
    cbn beta. intros t w' Hh. apply wp_ret. eapply handled_ok; [done|lia|done].
  - apply lookup_ge_None in E. rewrite Hl in E. change MAX_EVENT with 64 in *. lia.
Qed.

Lemma poll_event_ok r more w :
  events_ok (ss w) → wp in_bounds (poll_event r more) (fun _ w' => events_ok (ss w')) w.
Proof.
  intros Hok. unfold poll_event. wp_steps.
  destruct (Z.eqb_spec (event_index (ss w)) (event_n (ss w))) as [He|He].
  - wp_steps. eapply wp_mono; [apply sp_wait_spec|]; cbn beta; intros v w1 (Hss & Hv & Hp). wp_steps.
    rewrite Hss. fold (waited (ss w) v). destruct (waited_ok (ss w) v (proj1 Hok) Hv Hp) as (Hw & Hi & Hn).
    destruct (Z.leb_spec v.1 0) as [H0|H0]; [by wp_steps|].
    apply next_event; [done|]. cbn [ss]. rewrite Hi, Hn; lia.
  - wp_steps. apply next_event; [done|]. destruct Hok as (_ & ? & _). lia.
Qed.

Lemma events_ok_keeps {A} (m : M A) w :
  keeps m → events_ok (ss w) → wp in_bounds m (fun _ w' => events_ok (ss w')) w.
Proof.
  intros Hm (Hl & Hi & Hn). eapply wp_mono; [by apply Hm|]. intros a w' (Hl' & Hi' & Hn').
  unfold events_ok. rewrite Hl', Hi', Hn'. done.
Qed.

Lemma poll_round_ok r more w :
  events_ok (ss w) → wp in_bounds (poll_round r more) (fun _ w' => events_ok (ss w')) w.
Proof.
  intros Hok. unfold poll_round. wp_steps. eapply wp_mono; [apply events_ok_keeps; [keeps|done]|]; cbn beta.
  intros c w1 H1. destruct c.
  - eapply events_ok_keeps; [keeps|done].
  - wp_steps. eapply wp_mono; [apply events_ok_keeps; [keeps|done]|]; cbn beta; intros u w2 H2. by apply poll_event_ok.
Qed.

(** C33: socket_server_poll never reads outside the array of events and keeps its
    bounds, whatever epoll, the pipe and the sockets report; in particular
    stepping back to an event whose write half is still to be handled never
    leaves the array. *)
Theorem socket_server_poll_in_bounds fuel r more w :
  events_ok (ss w) →
  match socket_server_poll fuel r more w with
  | Ok (_, w') => events_ok (ss w')
  | Fault f => f ≠ OutOfBounds
  end.
Proof.
  intros Hok. change (wp in_bounds (socket_server_poll fuel r more) (fun _ w' => events_ok (ss w')) w).
  revert more w Hok. induction fuel as [|fuel IH]; intros more w Hok; [done|].
  cbn [socket_server_poll]. wp_steps. eapply wp_mono; [by apply poll_round_ok|].
  cbn beta. intros [[t|] m] w1 H1; [done | by apply IH].
Qed.

End Operations.

(** ** The read buffer *)

Lemma p_size_with_p s d :
  (4 <= length (p s))%nat → 0 <= d < 2 ^ 31 → p_size (with_p s (le_bytes 4 d)) = d.
Proof.
  intros Hl Hd. unfold p_size, with_p. cbn [p].
  assert (take 4 (splice (p s) 0 (le_bytes 4 d)) = le_bytes 4 d) as ->.
  { unfold splice. rewrite take_0. cbn [app]. apply take_app_length'. by rewrite length_le_bytes. }
  rewrite le_value_le_bytes. change (wrap (8 * Z.of_nat 4) d) with (d mod 2 ^ 32).
  apply i32_wrap. unfold is_int. lia.
Qed.

Section ReadBuffer.
Context `{Env}.

(** What the size becomes after a read of [n] bytes into a buffer of [sz]. *)
Definition next_size (sz n : Z) : Z :=
  if n =? sz then sz * 2 else if (MIN_READ_BUFFER <? sz) && (n * 2 <? sz) then sz / 2 else sz.

(** The sizes 64 * 2^k up to 2^30 are closed under [next_size], except for a full
    buffer of 2^30 bytes. *)
Lemma next_size_closed k n :
  0 <= k <= 24 → 0 < n <= 64 * 2 ^ k → n ≠ 2 ^ 30 →
  ∃ k', 0 <= k' <= 24 ∧ next_size (64 * 2 ^ k) n = 64 * 2 ^ k'.
Proof.
  intros Hk Hn Hroom. unfold next_size, MIN_READ_BUFFER.
  destruct (Z.eqb_spec n (64 * 2 ^ k)) as [Hfull|]; [|case_match].
  - exists (k + 1). rewrite Z.pow_add_r by lia.
    assert (k ≠ 24) by (intros ->; apply Hroom; rewrite Hfull; reflexivity). lia.
  - assert (k ≠ 0) by (intros ->; cbn in *; lia). exists (k - 1). split; [lia|].
    replace k with (Z.succ (k - 1)) at 1 by lia. rewrite Z.pow_succ_r by lia.
    rewrite Z.mul_assoc, (Z.mul_comm 64), <- Z.mul_assoc, Z.mul_comm. by rewrite Z.div_mul by lia.
  - exists k. split; [lia | done].
Qed.

(** C34: a successful read from a TCP socket delivers exactly the bytes read, at
    most as many as the buffer holds, under the socket's id and opaque value, and
    adapts the buffer for the next read: a full buffer doubles, one less than half
    full halves down to 64 bytes.  The sizes 64 * 2^k that an int can hold, 64 to 2^30
    bytes, are closed under this, with one exception: when 2^30 bytes are read at once
    the doubling overflows, which is undefined behaviour. *)
Theorem forward_message_tcp_delivers i k w :
  let s := slot_at (ss w) i in
  let data := take (Z.to_nat (p_size s)) (stored (os (pos w))) in
  let n := Z.of_nat (length data) in
  length (p s) = 20%nat → type s = SOCKET_TYPE_CONNECTED → 0 <= k <= 24 → p_size s = 64 * 2 ^ k →
  0 <= rv (os (pos w)) → data ≠ [] →
  if n =? 2 ^ 30 then forward_message_tcp i w = Fault Undefined
  else
  ∃ w', forward_message_tcp i w = Ok (SOCKET_DATA, w') ∧
    result w' = mk_msg (sid s) (opaque s) n (Some data) ∧ n <= p_size s ∧
    p_size (slot_at (ss w') i) = next_size (p_size s) n ∧
    ∃ k', 0 <= k' <= 24 ∧ p_size (slot_at (ss w') i) = 64 * 2 ^ k'.
Proof.
  intros s data n Hp Ht Hk Hsz Hrv Hne.
  assert (2 ^ k <= 2 ^ 24) as Hpow by (apply Z.pow_le_mono_r; lia).
  assert (0 < 2 ^ k) as Hpos by (apply Z.pow_pos_nonneg; lia).
  assert (0 < n <= p_size s) as Hn.
  { subst n. assert (length data ≠ 0%nat) by (by destruct data). unfold data in *. rewrite length_take in *. lia. }
  unfold forward_message_tcp, bind, get_slot, gets, sysret. fold s data n.
  rewrite (proj2 (Z.ltb_ge _ _) Hrv), (proj2 (Z.eqb_neq n 0)), Ht by lia.
  change (SOCKET_TYPE_CONNECTED =? SOCKET_TYPE_HALFCLOSE) with false. cbn iota.
  destruct (Z.eqb_spec n (2 ^ 30)) as [Hfull|Hroom].
  { rewrite (proj2 (Z.eqb_eq n (p_size s))) by lia. unfold double_size.
    by rewrite (proj2 (Z.leb_le (2 ^ 31) _)) by lia. }
  destruct (next_size_closed k n) as (k' & Hk' & Hnext); [done | rewrite <- Hsz; lia | done |].
  rewrite <- Hsz in Hnext. assert (2 ^ k' <= 2 ^ 24) by (apply Z.pow_le_mono_r; lia).
  assert (∃ w1, (if n =? p_size s then let! d := double_size (p_size s) in put_slot i (with_p s (le_bytes 4 d))
                 else when ((MIN_READ_BUFFER <? p_size s) && (n * 2 <? p_size s))
                        (put_slot i (with_p s (le_bytes 4 (p_size s ÷ 2)))))
                (mk_world (ss w) (result w) (S (pos w)) (log w)) = Ok (tt, w1) ∧
                p_size (slot_at (ss w1) i) = next_size (p_size s) n) as (w1 & Hstep & Hsize).
  { unfold next_size in *. destruct (n =? p_size s).
    - unfold double_size. rewrite (proj2 (Z.leb_gt (2 ^ 31) _)) by lia. eexists. split; [reflexivity|].
      cbn [ss]. rewrite slot_put. apply p_size_with_p; lia.
    - destruct (_ && _); cbn [when].
      + eexists. split; [reflexivity|]. cbn [ss]. rewrite slot_put, Z.quot_div_nonneg by lia.
        apply p_size_with_p; [lia|]. split; [apply Z.div_pos; lia|]. apply Z.div_lt_upper_bound; lia.
      + by eexists. }
  unfold bind in Hstep. rewrite Hstep. eexists. split; [reflexivity|]. cbn [ss result set_result modify].
  split; [done|]. split; [lia|]. split; [done|]. exists k'. by rewrite Hsize.
Qed.

End ReadBuffer.

(** ** Concrete runs *)

(** Descriptor 9 readable and writable with 64 bytes to read, and nothing in the
    pipe. *)
Definition ready_env : Env :=
  Build_Env (fun _ => mk_sysres 1 0 (replicate 64 7) sa0 [(Some 7, 5)]) (fun a => a mod 256)
    (fun _ _ _ => None) (fun _ _ => None).

Definition poll_world : world :=
  mk_world (with_events (with_slot ss0
      {[7 := mk_socket 1 [] [] 0 9 7 PROTOCOL_TCP SOCKET_TYPE_CONNECTED (le_bytes 4 64 ++ replicate 16 0)]})
      0 0 (replicate 64 (mk_event None false false)))
    (mk_msg 0 0 0 None) 0 [].

Lemma socket_server_poll_in_bounds_witness :
  ∃ w', @socket_server_poll ready_env 4 1 (Some 1) poll_world = Ok ((SOCKET_DATA, Some 0), w') ∧ events_ok (ss w').
Proof.
  pose proof (@socket_server_poll_in_bounds ready_env 4 1 (Some 1) poll_world) as Hok.
  eexists. split; [vm_compute; reflexivity|].
  vm_compute in Hok. apply Hok. split; [reflexivity|]. split; [split|]; discriminate.
Defined.

Lemma forward_message_tcp_delivers_witness :
  ∃ w', @forward_message_tcp ready_env 7 poll_world = Ok (SOCKET_DATA, w') ∧ p_size (slot_at (ss w') 7) = 128.
Proof.
  pose proof (@forward_message_tcp_delivers ready_env 7 0 poll_world) as H. cbv zeta in H.
  change (_ =? 2 ^ 30) with false in H. cbn iota in H.
  destruct H as (w' & Hr & _ & _ & Hs & _);
    [reflexivity | reflexivity | lia | reflexivity | vm_compute; discriminate | vm_compute; discriminate |].
  exists w'. split; [exact Hr|]. rewrite Hs. reflexivity.
Defined.
