(* ===== verification/SocketProtocol.v ===== *)
(** * The socket server: requests and the slots they are for
      (src/network/socket/socket_server.c)

    A caller that opens a socket reserves a slot, then writes a request that names
    it; the server thread later finds the slot through the request.  Between the
    two, other requests and the events of epoll are handled.  The file shows that
    the two sides never disagree about a slot: a request that opens a socket meets
    the slot reserved for it, no other request meets a reserved slot, and a slot
    that waits for its socket, or listens, holds no buffers; so the assertions of
    new_fd hold.  The assumptions are that callers pass machine integers, identifiers they
    were given and no host name of exactly 232 bytes, and that the identifiers have not
    run around 2^31.  A public call takes two steps here, one that ends with the request
    it is going to write and one that writes it; [SocketReserve] has the steps of
    reserve_id, which is part of the first. *)

From S2P Require Import Prelude Unpack SocketMessage SocketState SocketSend SocketPoll.

Open Scope cint_scope.
Open Scope sock_scope.

(** ** Quiet operations *)

(** The identifier a slot is reserved under. *)
Definition reserved_as (s : socket) : option Z :=
  if type s =? SOCKET_TYPE_RESERVE then Some (sid s) else None.

(** Slots that wait for a socket or listen have nothing to send. *)
Definition waits (t : Z) : bool :=
  (t =? SOCKET_TYPE_INVALID) || (t =? SOCKET_TYPE_RESERVE) || (t =? SOCKET_TYPE_PLISTEN)
  || (t =? SOCKET_TYPE_LISTEN) || (t =? SOCKET_TYPE_PACCEPT).
Definition lists_ok (s : socket) : Prop := waits (type s) = true → high s = [] ∧ low s = [].

(** A change of one slot that neither reserves it nor ends its reservation. *)
Definition quiet_slot (x y : socket) : Prop :=
  reserved_as y = reserved_as x ∧ (lists_ok x → lists_ok y).

Definition quiet (s s' : socket_server) : Prop :=
  pipe s' = pipe s ∧ alloc_id s' = alloc_id s ∧ ∀ i, quiet_slot (slot_at s i) (slot_at s' i).

#[export] Instance quiet_slot_preorder : PreOrder quiet_slot.
Proof.
  split; [done|]. intros x y z [H1 H2] [H3 H4]. split; [congruence|auto].
Qed.

#[export] Instance quiet_preorder : PreOrder quiet.
Proof.
  split; [intros s; split; [done|]; split; [done|]; intros i; reflexivity|].
  intros x y z (H1 & H2 & H3) (H4 & H5 & H6). split; [congruence|]. split; [congruence|].
  intros i. etrans; [apply H3|apply H6].
Qed.

Definition any_fault (_ : fault) : Prop := True.

(** [quietly m]: whatever [m] answers, it is quiet; [quiet_from i s m]: so it is where
    slot [i] is [s]; [frozen m]: it does not touch the server at all. *)
Definition quietly {A} (m : M A) : Prop := ∀ w, wp any_fault m (λ _ w', quiet (ss w) (ss w')) w.
Definition quiet_from {A} (i : Z) (s : socket) (m : M A) : Prop :=
  ∀ w, slot_at (ss w) i = s → wp any_fault m (λ _ w', quiet (ss w) (ss w')) w.
Definition frozen {A} (m : M A) : Prop := ∀ w, wp any_fault m (λ _ w', ss w' = ss w) w.

Create HintDb frozen.
Create HintDb quiet.

Section Frozen.
Context `{Env}.

Lemma frozen_ret {A} (a : A) : frozen (ret a).
Proof. by intros w. Qed.
Lemma frozen_fail {A} f : frozen (@fail A f).
Proof. by intros w. Qed.
Lemma frozen_gets {A} (f : world → A) : frozen (gets f).
Proof. by intros w. Qed.
Lemma frozen_emit e : frozen (emit e).
Proof. by intros w. Qed.
Lemma frozen_set_result r : frozen (set_result r).
Proof. by intros w. Qed.
Lemma frozen_sysret : frozen sysret.
Proof. by intros w. Qed.
Lemma frozen_assert b : frozen (m_assert b).
Proof. by destruct b; intros w. Qed.
Lemma frozen_bind {A B} (m : M A) (k : A → M B) : frozen m → (∀ a, frozen (k a)) → frozen (bind m k).
Proof.
  intros Hm Hk w. apply wp_bind. eapply wp_mono; [apply Hm|]. cbn beta. intros a w1 Hw1.
  eapply wp_mono; [apply Hk|]. cbn beta. congruence.
Qed.
Lemma frozen_when b m : frozen m → frozen (when b m).
Proof. destruct b; [done|intros; apply frozen_ret]. Qed.

End Frozen.

#[export] Hint Resolve frozen_ret frozen_fail frozen_gets frozen_emit frozen_set_result frozen_sysret
  frozen_assert : frozen.

Ltac frozen :=
  repeat first
    [ progress intros
    | solve [eauto with frozen]
    | apply frozen_bind
    | apply frozen_when
    | case_match ].

Section FrozenOps.
Context `{Env}.

Lemma frozen_sys_write fd b : frozen (sys_write fd b). Proof. unfold sys_write. frozen. Qed.
Lemma frozen_sys_sendto fd b a : frozen (sys_sendto fd b a). Proof. unfold sys_sendto. frozen. Qed.
Lemma frozen_sys_close fd : frozen (sys_close fd). Proof. unfold sys_close. frozen. Qed.
Lemma frozen_setsockopt fd l x v : frozen (sys_setsockopt fd l x v). Proof. unfold sys_setsockopt. frozen. Qed.
Lemma frozen_sp_add fd s : frozen (sp_add fd s). Proof. unfold sp_add. frozen. Qed.
Lemma frozen_sp_del fd : frozen (sp_del fd). Proof. unfold sp_del. frozen. Qed.
Lemma frozen_sp_write fd s b : frozen (sp_write fd s b). Proof. unfold sp_write. frozen. Qed.
Lemma frozen_sp_nonblocking fd : frozen (sp_nonblocking fd). Proof. unfold sp_nonblocking. frozen. Qed.
Lemma frozen_get_slot i : frozen (get_slot i). Proof. unfold get_slot. frozen. Qed.
Hint Resolve frozen_sys_write frozen_sys_sendto frozen_sys_close frozen_setsockopt frozen_sp_add
  frozen_sp_del frozen_sp_write frozen_sp_nonblocking : frozen.
Lemma frozen_keepalive fd : frozen (socket_keepalive fd). Proof. unfold socket_keepalive. frozen. Qed.
Lemma frozen_send_object o sz : frozen (send_object_init o sz). Proof. unfold send_object_init. frozen. Qed.
Lemma frozen_so_free so o : frozen (so_free so o). Proof. unfold so_free. frozen. Qed.
Lemma frozen_wb_free wb : frozen (write_buffer_free wb). Proof. unfold write_buffer_free. frozen. Qed.
Hint Resolve frozen_keepalive frozen_send_object frozen_so_free frozen_wb_free : frozen.
Lemma frozen_free_wb_list l : frozen (free_wb_list l).
Proof. induction l; cbn [free_wb_list]; frozen. Qed.
Lemma frozen_write_retry k fd b : frozen (write_retry k fd b).
Proof. induction k; cbn [write_retry]; frozen. Qed.
Lemma frozen_free_buffer b sz : frozen (free_buffer b sz). Proof. unfold free_buffer. frozen. Qed.
Lemma frozen_append l o sz n a : frozen (append_sendbuffer_ l o sz n a).
Proof. unfold append_sendbuffer_. frozen. Qed.
Lemma frozen_double n : frozen (double_size n). Proof. unfold double_size. frozen. Qed.
Lemma frozen_connect_loop l : frozen (connect_loop l).
Proof. induction l; cbn [connect_loop]; frozen. Qed.
Lemma frozen_check l : frozen (check_wb_list l). Proof. unfold check_wb_list. frozen. Qed.

End FrozenOps.

#[export] Hint Resolve frozen_sys_write frozen_sys_sendto frozen_sys_close frozen_setsockopt frozen_sp_add
  frozen_sp_del frozen_sp_write frozen_sp_nonblocking frozen_get_slot frozen_keepalive frozen_send_object
  frozen_so_free frozen_wb_free frozen_free_wb_list frozen_write_retry frozen_free_buffer frozen_append
  frozen_double frozen_connect_loop frozen_check : frozen.

Section Quiet.
Context `{Env}.

Lemma quietly_frozen {A} (m : M A) : frozen m → quietly m.
Proof. intros Hm w. eapply wp_mono; [apply Hm|]. cbn beta. by intros a w' ->. Qed.

Lemma quietly_bind {A B} (m : M A) (k : A → M B) : quietly m → (∀ a, quietly (k a)) → quietly (bind m k).
Proof.
  intros Hm Hk w. apply wp_bind. eapply wp_mono; [apply Hm|]. cbn beta. intros a w1 Hw1.
  eapply wp_mono; [apply Hk|]. cbn beta. intros b w2 Hw2. by etrans.
Qed.

Lemma quietly_get {A} i (k : socket → M A) : (∀ s, quiet_from i s (k s)) → quietly (bind (get_slot i) k).
Proof. intros Hk w. apply wp_bind, wp_gets. by apply Hk. Qed.

Lemma quiet_from_quietly {A} i s (m : M A) : quietly m → quiet_from i s m.
Proof. intros Hm w _. apply Hm. Qed.

Lemma quiet_from_frozen {A B} i s (m : M A) (k : A → M B) :
  frozen m → (∀ a, quiet_from i s (k a)) → quiet_from i s (bind m k).
Proof.
  intros Hm Hk w Hs. apply wp_bind. eapply wp_mono; [apply Hm|]. cbn beta. intros a w1 E.
  rewrite <- E. apply Hk. by rewrite E.
Qed.

Lemma quiet_from_bind {A B} i s (m : M A) (k : A → M B) :
  quiet_from i s m → (∀ a, quietly (k a)) → quiet_from i s (bind m k).
Proof.
  intros Hm Hk w Hs. apply wp_bind. eapply wp_mono; [by apply Hm|]. cbn beta. intros a w1 Hw1.
  eapply wp_mono; [apply Hk|]. cbn beta. intros b w2 Hw2. by etrans.
Qed.

Lemma quiet_from_get {A} i s (k : socket → M A) :
  quiet_from i s (k s) → quiet_from i s (bind (get_slot i) k).
Proof. intros Hk w Hs. apply wp_bind, wp_gets. rewrite Hs. by apply Hk. Qed.

Lemma quiet_from_assert {A} i s b (k : unit → M A) :
  (b = true → quiet_from i s (k tt)) → quiet_from i s (bind (m_assert b) k).
Proof. destruct b; [intros Hk w Hs; by apply Hk | by intros _ w Hs]. Qed.

Lemma quiet_put w i s x :
  slot_at (ss w) i = s → quiet_slot s x → quiet (ss w) (with_slot (ss w) (<[i := x]> (slot (ss w)))).
Proof.
  intros Hs Hq. split; [done|]. split; [done|]. intros j. rewrite slot_at_insert.
  case_decide as Hj; [subst; done|reflexivity].
Qed.

Lemma quiet_from_put i s x : quiet_slot s x → quiet_from i s (put_slot i x).
Proof. intros Hq w Hs. apply wp_modify. by apply (quiet_put w i s). Qed.

Lemma quiet_from_put_bind {A} i s x (k : unit → M A) :
  quiet_slot s x → quiet_from i x (k tt) → quiet_from i s (bind (put_slot i x) k).
Proof.
  intros Hq Hk w Hs. apply wp_bind, wp_modify. eapply wp_mono; [apply Hk|].
  - cbn [ss]. rewrite slot_at_insert. by rewrite decide_True.
  - cbn beta. intros a w1 Hw1. etrans; [by apply (quiet_put w i s)|done].
Qed.

Lemma quietly_when b m : quietly m → quietly (when b m).
Proof. destruct b; [done|intros; apply quietly_frozen, frozen_ret]. Qed.

Lemma quiet_from_when i s b m : (b = true → quiet_from i s m) → quiet_from i s (when b m).
Proof. destruct b; [by intros Hm; apply Hm|intros _; apply quiet_from_quietly, quietly_frozen, frozen_ret]. Qed.

(** Only type, identifier and lists of a slot matter. *)
Lemma quiet_slot_same x y :
  type y = type x → sid y = sid x → high y = high x → low y = low x → quiet_slot x y.
Proof. intros Ht Hi Hh Hl. unfold quiet_slot, reserved_as, lists_ok. by rewrite Ht, Hi, Hh, Hl. Qed.

(** A slot that is not reserved gets another type. *)
Lemma quiet_slot_type s t :
  type s ≠ SOCKET_TYPE_RESERVE → t ≠ SOCKET_TYPE_RESERVE → (waits t = true → waits (type s) = true) →
  quiet_slot s (with_type s t).
Proof.
  intros Hs Ht Hw. split.
  - unfold reserved_as. cbn. by rewrite !(proj2 (Z.eqb_neq _ _)).
  - intros Hl Hwt. apply Hl, Hw, Hwt.
Qed.

(** New lists in a slot that may have some. *)
Lemma quiet_slot_lists s h l n : waits (type s) = false → quiet_slot s (with_lists s h l n).
Proof. intros Hw. split; [done|]. intros _. unfold lists_ok. cbn. by rewrite Hw. Qed.

End Quiet.

#[export] Hint Resolve quietly_frozen quiet_from_quietly : quiet.
#[export] Hint Extern 1 (frozen _) => solve [eauto with frozen] : quiet.

Ltac quiet :=
  repeat first
    [ progress intros
    | solve [eauto with quiet]
    | apply quietly_get
    | apply quiet_from_get
    | apply quiet_from_assert
    | apply quiet_from_put_bind
    | apply quiet_from_put
    | apply quiet_from_frozen; [solve [frozen]|]
    | apply quiet_from_when
    | apply quietly_when
    | apply quietly_frozen; solve [frozen]
    | apply quiet_from_quietly; solve [eauto with quiet]
    | apply quiet_from_bind; [apply quiet_from_quietly; solve [eauto with quiet]|]
    | apply quietly_bind
    | apply quiet_from_bind
    | case_match ].

Section QuietOps.
Context `{Env}.

Lemma force_close_quiet i : quietly (force_close i).
Proof.
  unfold force_close. quiet. apply negb_true_iff, Z.eqb_neq in H1. split.
  - unfold reserved_as. cbn. by rewrite (proj2 (Z.eqb_neq _ _) H1).
  - by intros _ _.
Qed.
Hint Resolve force_close_quiet : quiet.

(** A slot that has a buffer to send may have others. *)
Lemma quiet_slot_relist hi s wb rest h l n :
  list_of hi s = wb :: rest → quiet_slot s (with_lists s h l n).
Proof.
  intros Hl. split; [done|]. intros Hok Hw. destruct (Hok Hw) as [Hh Hlo].
  destruct hi; cbn in Hl; congruence.
Qed.

Lemma quiet_slot_sending hi s wb rest l n :
  list_of hi s = wb :: rest → quiet_slot s (set_list hi s l n).
Proof. intros Hl. destruct hi; exact (quiet_slot_relist _ s wb rest _ _ n Hl). Qed.

Lemma send_list_tcp_quiet n i hi bufs : ∀ s,
  list_of hi s = bufs → quiet_from i s (send_list_tcp n bufs i hi).
Proof.
  induction bufs as [|wb bufs IH]; intros s Hl; cbn [send_list_tcp]; [quiet|].
  apply quiet_from_get, quiet_from_frozen; [frozen|]. intros [sz e]. cbn [fst snd].
  destruct (sz <? 0); [quiet|]. destruct (negb _).
  - apply quiet_from_put_bind; [by eapply quiet_slot_sending|quiet].
  - apply quiet_from_put_bind; [by eapply quiet_slot_sending|].
    apply quiet_from_frozen; [frozen|]. intros _. apply IH, list_of_set_list.
Qed.

Lemma send_list_udp_quiet i hi bufs : ∀ s,
  list_of hi s = bufs → quiet_from i s (send_list_udp bufs i hi).
Proof.
  induction bufs as [|wb bufs IH]; intros s Hl; cbn [send_list_udp]; [quiet|].
  apply quiet_from_get, quiet_from_frozen; [frozen|]. intros [sz e]. cbn [fst snd].
  destruct (sz <? 0); [quiet|].
  apply quiet_from_put_bind; [by eapply quiet_slot_sending|].
  apply quiet_from_frozen; [frozen|]. intros _. apply IH, list_of_set_list.
Qed.

Lemma send_list_quiet n i hi : quietly (send_list n i hi).
Proof.
  unfold send_list. apply quietly_get. intros s.
  destruct (_ =? _); [by apply send_list_tcp_quiet|by apply send_list_udp_quiet].
Qed.
Hint Resolve send_list_quiet : quiet.

Lemma raise_quiet i : quietly (raise_uncomplete i).
Proof.
  unfold raise_uncomplete. quiet; try done.
  exact (quiet_slot_relist false s _ _ _ _ _ H0).
Qed.
Hint Resolve raise_quiet : quiet.

Lemma send_buffer_quiet n i : quietly (send_buffer n i).
Proof. unfold send_buffer. quiet. Qed.
Hint Resolve send_buffer_quiet : quiet.

(** ** The handlers of requests and events *)

Lemma append_quiet i s object sz n : waits (type s) = false → quiet_from i s (append_sendbuffer i object sz n).
Proof. intros Hw. unfold append_sendbuffer. quiet. by apply quiet_slot_lists. Qed.

Lemma append_low_quiet i s object sz : waits (type s) = false → quiet_from i s (append_sendbuffer_low i object sz).
Proof. intros Hw. unfold append_sendbuffer_low. quiet. by apply quiet_slot_lists. Qed.

Lemma append_udp_quiet i s prio object sz addr :
  waits (type s) = false → quiet_from i s (append_sendbuffer_udp i prio object sz addr).
Proof.
  intros Hw. unfold append_sendbuffer_udp. quiet. destruct (prio =? PRIORITY_HIGH); by apply quiet_slot_lists.
Qed.

(** The slot of [id] is not reserved under [id]. *)
Definition not_reserved (id : Z) (s : socket) : Prop := reserved_as s ≠ Some id.

Lemma not_reserved_type id s : not_reserved id s → sid s = id → type s ≠ SOCKET_TYPE_RESERVE.
Proof.
  intros Hn Hid Ht. apply Hn. unfold reserved_as. by rewrite Ht, Hid.
Qed.

Lemma send_socket_quiet id object sz prio addr s :
  not_reserved id s → quiet_from (HASH_ID id) s (send_socket id object sz prio addr).
Proof.
  intros Hn. unfold send_socket. apply quiet_from_get, quiet_from_frozen; [frozen|]. intros so.
  destruct (_ || _) eqn:Ec; [quiet|]. apply quiet_from_assert. intros Ha.
  apply orb_false_iff in Ec as [[[Et Ei]%orb_false_iff Eh]%orb_false_iff Ep].
  apply negb_false_iff, Z.eqb_eq in Ei. pose proof (not_reserved_type id s Hn Ei) as Hr.
  apply andb_true_iff in Ha as [Hp Hl]. apply negb_true_iff in Hp, Hl.
  assert (waits (type s) = false) as Hw.
  { unfold waits. by rewrite Et, Hp, Hl, Ep, (proj2 (Z.eqb_neq _ _) Hr). }
  pose proof (append_quiet (HASH_ID id) s object sz). pose proof (append_low_quiet (HASH_ID id) s object sz).
  pose proof (append_udp_quiet (HASH_ID id) s prio object sz).
  quiet; (apply quiet_from_bind; [eauto|quiet]).
Qed.

Lemma quiet_slot_halfclose s : type s ≠ SOCKET_TYPE_RESERVE → quiet_slot s (with_type s SOCKET_TYPE_HALFCLOSE).
Proof. intros Ht. by apply quiet_slot_type. Qed.

Lemma close_socket_quiet n id opq s :
  not_reserved id s → quiet_from (HASH_ID id) s (close_socket n id opq).
Proof.
  intros Hn. unfold close_socket. apply quiet_from_get.
  destruct (_ || _) eqn:Ec; [quiet|].
  apply orb_false_iff in Ec as [Et Ei]. apply negb_false_iff, Z.eqb_eq in Ei.
  pose proof (not_reserved_type id s Hn Ei) as Hr.
  intros w Hs. apply wp_bind.
  eapply wp_mono; [eapply (quiet_from_quietly (HASH_ID id) s); [quiet|done]|]. cbn beta. intros t w1 Q1.
  assert (reserved_as (slot_at (ss w1) (HASH_ID id)) = None) as Hr1.
  { rewrite (proj1 (proj2 (proj2 Q1) _)), Hs. unfold reserved_as. by rewrite (proj2 (Z.eqb_neq _ _) Hr). }
  assert (type (slot_at (ss w1) (HASH_ID id)) ≠ SOCKET_TYPE_RESERVE) as Ht1.
  { intros Ht. unfold reserved_as in Hr1. by rewrite Ht in Hr1. }
  eapply wp_mono; [|intros t' w2 Q2; etrans; [exact Q1|exact Q2]].
  destruct (negb (t =? -1)); [by apply wp_ret|]. apply wp_bind, wp_gets.
  remember (slot_at (ss w1) (HASH_ID id)) as s1 eqn:E1. symmetry in E1. revert w1 E1 Q1 Hr1.
  intros w1 E1 _ _. revert w1 E1. change (quiet_from (HASH_ID id) s1
    (if send_buffer_empty s1 then
       force_close (HASH_ID id);;;
       let! r := gets result in
       set_result (mk_msg id opq (msg_ud r) (msg_data r));;; ret SOCKET_CLOSE
     else put_slot (HASH_ID id) (with_type s1 SOCKET_TYPE_HALFCLOSE);;; ret (-1))).
  quiet. by apply quiet_slot_halfclose.
Qed.

Lemma start_socket_quiet id opq : quietly (start_socket id opq).
Proof.
  unfold start_socket. quiet; try by apply quiet_slot_same.
  all: assert (type s = SOCKET_TYPE_PACCEPT ∨ type s = SOCKET_TYPE_PLISTEN) as Ht
    by (destruct (Z.eqb_spec (type s) SOCKET_TYPE_PACCEPT); [by left|right; by apply Z.eqb_eq]).
  2,3: etrans; [|by apply quiet_slot_same].
  all: apply quiet_slot_type; [by destruct Ht as [->| ->]|done|]; intros _; by destruct Ht as [->| ->].
Qed.

Lemma setopt_quiet id what v : quietly (setopt_socket id what v).
Proof. unfold setopt_socket. quiet. Qed.

Lemma set_udp_address_quiet id addr : quietly (set_udp_address id addr).
Proof. unfold set_udp_address. quiet; by apply quiet_slot_same. Qed.

Lemma forward_tcp_quiet i : quietly (forward_message_tcp i).
Proof. unfold forward_message_tcp. quiet; by apply quiet_slot_same. Qed.

Lemma forward_udp_quiet i : quietly (forward_message_udp i).
Proof. unfold forward_message_udp. quiet. Qed.

Lemma report_connect_quiet i s : type s = SOCKET_TYPE_CONNECTING → quiet_from i s (report_connect i).
Proof. intros Ht. unfold report_connect. quiet. apply quiet_slot_type; by rewrite ?Ht. Qed.
End QuietOps.

#[export] Hint Resolve force_close_quiet send_list_quiet raise_quiet send_buffer_quiet start_socket_quiet
  setopt_quiet set_udp_address_quiet forward_tcp_quiet forward_udp_quiet : quiet.

(** ** Opening a socket *)

(** Only slot [i] changes. *)
Definition only_slot (i : Z) (s s' : socket_server) : Prop :=
  pipe s' = pipe s ∧ alloc_id s' = alloc_id s ∧ ∀ j, j ≠ i → slot_at s' j = slot_at s j.

#[export] Instance only_slot_preorder i : PreOrder (only_slot i).
Proof.
  split; [by intros s; split; [|split]|].
  intros s1 s2 s3 (H1 & H2 & H3) (H4 & H5 & H6). split; [congruence|]. split; [congruence|].
  intros j Hj. by rewrite H6, H3.
Qed.

(** The reservation of [id] has ended. *)
Definition opens (id : Z) (s s' : socket_server) : Prop :=
  only_slot (HASH_ID id) s s' ∧
  reserved_as (slot_at s' (HASH_ID id)) = None ∧ lists_ok (slot_at s' (HASH_ID id)).

(** Programs that touch neither the server nor fail. *)
Definition total {A} (m : M A) : Prop := ∀ w, wp no_fault m (λ _ w', ss w' = ss w) w.

Create HintDb total.

Section Opening.
Context `{Env}.

Lemma total_ret {A} (a : A) : total (ret a).
Proof. by intros w. Qed.
Lemma total_emit e : total (emit e).
Proof. by intros w. Qed.
Lemma total_set_result r : total (set_result r).
Proof. by intros w. Qed.
Lemma total_sysret : total sysret.
Proof. by intros w. Qed.
Lemma total_bind {A B} (m : M A) (k : A → M B) : total m → (∀ a, total (k a)) → total (bind m k).
Proof.
  intros Hm Hk w. apply wp_bind. eapply wp_mono; [apply Hm|]. cbn beta. intros a w1 Hw1.
  eapply wp_mono; [apply Hk|]. cbn beta. congruence.
Qed.
Hint Resolve total_ret total_emit total_set_result total_sysret : total.

Ltac total := repeat first [progress intros | solve [eauto with total] | apply total_bind | case_match].

Lemma total_close fd : total (sys_close fd). Proof. unfold sys_close. total. Qed.
Lemma total_sp_add fd s : total (sp_add fd s). Proof. unfold sp_add. total. Qed.
Lemma total_nonblocking fd : total (sp_nonblocking fd). Proof. unfold sp_nonblocking. total. Qed.
Lemma total_keepalive fd : total (socket_keepalive fd).
Proof. unfold socket_keepalive, sys_setsockopt. total. Qed.
Lemma total_sp_write fd i b : total (sp_write fd i b). Proof. unfold sp_write. total. Qed.
Hint Resolve total_close total_sp_add total_nonblocking total_keepalive total_sp_write : total.
Lemma total_connect_loop l : total (connect_loop l).
Proof. induction l; cbn [connect_loop]; total. Qed.

(** After a total program. *)
Lemma wp_total {A B} (m : M A) (k : A → M B) Q w :
  total m → (∀ a w1, ss w1 = ss w → wp no_fault (k a) Q w1) → wp no_fault (bind m k) Q w.
Proof. intros Hm Hk. apply wp_bind. eapply wp_mono; [apply Hm|]. intros a w1. apply Hk. Qed.

Lemma wp_total_end {A} (m : M A) (Q : A → world → Prop) w :
  total m → (∀ a w1, ss w1 = ss w → Q a w1) → wp no_fault m Q w.
Proof. intros Hm HQ. eapply wp_mono; [apply Hm|]. cbn beta. auto. Qed.

Lemma only_put w i x : only_slot i (ss w) (with_slot (ss w) (<[i := x]> (slot (ss w)))).
Proof. split; [done|]. split; [done|]. intros j Hj. by apply slot_put_ne. Qed.

Lemma only_slot_eq i s s1 s' : s1 = s → only_slot i s1 s' → only_slot i s s'.
Proof. by intros ->. Qed.

Section Reserved.
Context (id : Z).
Abbreviation i := (HASH_ID id).

(** The slot is reserved under [id]; what new_fd asserts follows. *)
Definition waiting (w : world) : Prop :=
  type (slot_at (ss w) i) = SOCKET_TYPE_RESERVE ∧ high (slot_at (ss w) i) = [] ∧ low (slot_at (ss w) i) = [].

(** The slot still holds no buffer. *)
Definition no_buffers (w : world) : Prop := high (slot_at (ss w) i) = [] ∧ low (slot_at (ss w) i) = [].

Lemma new_fd_waiting fd proto opq add w :
  waiting w →
  wp no_fault (new_fd id fd proto opq add) (λ r w',
    only_slot i (ss w) (ss w') ∧ no_buffers w' ∧
    match r with
    | Some j => j = i
    | None => type (slot_at (ss w') i) = SOCKET_TYPE_INVALID
    end) w.
Proof.
  intros (Ht & Hh & Hl). unfold new_fd. apply wp_bind, wp_gets, wp_bind, wp_assert; [by rewrite Ht|].
  apply wp_total; [destruct add; [apply total_sp_add|apply total_ret]|]. intros failed w1 E1.
  destruct failed.
  - wp_steps. unfold no_buffers. cbn [ss]. rewrite slot_put. split; [|done].
    eapply only_slot_eq; [exact E1|]. apply only_put.
  - wp_steps. unfold check_wb_list. rewrite Hh, Hl. wp_steps. apply wp_assert; [done|]. wp_steps.
    apply wp_assert; [done|]. wp_steps. unfold no_buffers. cbn [ss]. rewrite slot_put. split; [|done].
    eapply only_slot_eq; [exact E1|]. apply only_put.
Qed.

(** A slot without buffers gets its final type. *)
Lemma opens_type w w1 f :
  only_slot i (ss w) (ss w1) → no_buffers w1 →
  (∀ s, type (f s) ≠ SOCKET_TYPE_RESERVE ∧ high (f s) = high s ∧ low (f s) = low s) →
  opens id (ss w) (with_slot (ss w1) (<[i := f (slot_at (ss w1) i)]> (slot (ss w1)))).
Proof.
  intros Ho [Hh Hl] Hf. destruct (Hf (slot_at (ss w1) i)) as (Ht & Eh & El).
  split; [etrans; [exact Ho|apply only_put]|]. rewrite slot_put. split.
  - unfold reserved_as. by rewrite (proj2 (Z.eqb_neq _ _) Ht).
  - intros _. by rewrite Eh, El.
Qed.

End Reserved.

Lemma opens_eq id w w1 w2 : ss w2 = ss w1 → opens id (ss w) (ss w1) → opens id (ss w) (ss w2).
Proof. by intros ->. Qed.

Lemma modify_opens id w w1 f :
  only_slot (HASH_ID id) (ss w) (ss w1) → no_buffers id w1 →
  (∀ s, type (f s) ≠ SOCKET_TYPE_RESERVE ∧ high (f s) = high s ∧ low (f s) = low s) →
  wp no_fault (modify_slot (HASH_ID id) f) (λ _ w', opens id (ss w) (ss w')) w1.
Proof. intros Ho Hb Hf. unfold modify_slot. wp_steps. by apply opens_type. Qed.

Ltac retype := intros s; split; [done|split; reflexivity].

Lemma waiting_no_buffers id w : waiting id w → no_buffers id w.
Proof. by intros (_ & ? & ?). Qed.

Lemma no_buffers_eq id w w1 : ss w1 = ss w → no_buffers id w → no_buffers id w1.
Proof. unfold no_buffers. by intros ->. Qed.
Lemma waiting_eq id w w1 : ss w1 = ss w → waiting id w → waiting id w1.
Proof. unfold waiting. by intros ->. Qed.
Lemma only_slot_same id w w1 : ss w1 = ss w → only_slot (HASH_ID id) (ss w) (ss w1).
Proof. by intros ->. Qed.
Lemma only_slot_trans_eq i w w1 w2 : ss w2 = ss w1 → only_slot i (ss w) (ss w1) → only_slot i (ss w) (ss w2).
Proof. by intros ->. Qed.

Lemma open_failed_opens id w w1 :
  only_slot (HASH_ID id) (ss w) (ss w1) → no_buffers id w1 →
  wp no_fault (open_failed id) (λ _ w', opens id (ss w) (ss w')) w1.
Proof.
  intros Ho Hb. unfold open_failed. apply wp_bind.
  eapply wp_mono; [apply modify_opens; [done|done|retype]|]. intros a w2 Hw2. by wp_steps.
Qed.

Lemma open_socket_opens id port opq host w :
  waiting id w → wp no_fault (open_socket id port opq host) (λ _ w', opens id (ss w) (ss w')) w.
Proof.
  intros Hw. unfold open_socket. apply wp_total; [apply total_set_result|]. intros _ w1 E1.
  destruct (getaddrinfo host port SOCK_STREAM) as [l|].
  2:{ apply open_failed_opens; [by apply only_slot_same|]. by eapply no_buffers_eq, waiting_no_buffers. }
  apply wp_total; [apply total_connect_loop|]. intros c w2 E2. rewrite E1 in E2.
  destruct c as [[[sock status] ai]|].
  2:{ apply open_failed_opens; [by apply only_slot_same|]. by eapply no_buffers_eq, waiting_no_buffers. }
  apply wp_bind. eapply wp_mono; [apply new_fd_waiting; by apply (waiting_eq id w)|]. cbn beta.
  rewrite E2. intros ns w3 (Ho & Hb & Hns). destruct ns as [j|].
  - subst j. destruct (status =? 0).
    + apply wp_bind. eapply wp_mono; [apply modify_opens; [done|done|retype]|]. cbn beta. intros _ w4 Hw4.
      destruct (inet_ntop _ _); wp_steps; done.
    + apply wp_bind. eapply wp_mono; [apply modify_opens; [done|done|retype]|]. cbn beta. intros _ w4 Hw4.
      by wp_steps.
  - wp_steps. apply open_failed_opens; [done|]. exact Hb.
Qed.

Lemma listen_socket_opens id fd opq w :
  waiting id w → wp no_fault (listen_socket id fd opq) (λ _ w', opens id (ss w) (ss w')) w.
Proof.
  intros Hw. unfold listen_socket. apply wp_bind. eapply wp_mono; [by apply new_fd_waiting|]. cbn beta.
  intros ns w1 (Ho & Hb & Hns). destruct ns as [j|].
  - subst j. apply wp_bind. eapply wp_mono; [apply modify_opens; [done|done|retype]|]. cbn beta.
    intros _ w2 Hw2. by wp_steps.
  - apply wp_total; [apply total_close|]. intros _ w2 E2.
    apply wp_total; [apply total_set_result|]. intros _ w3 E3. rewrite E2 in E3.
    apply wp_bind. eapply wp_mono; [apply modify_opens|].
    + by apply (only_slot_trans_eq _ w w1).
    + by apply (no_buffers_eq id w1).
    + retype.
    + intros u w4 Hw4. by wp_steps.
Qed.

Lemma bind_socket_opens id fd opq w :
  waiting id w → wp no_fault (bind_socket id fd opq) (λ _ w', opens id (ss w) (ss w')) w.
Proof.
  intros Hw. unfold bind_socket. apply wp_bind, wp_gets.
  apply wp_total; [apply total_set_result|]. intros _ w1 E1.
  apply wp_bind. eapply wp_mono; [apply new_fd_waiting; by apply (waiting_eq id w)|]. cbn beta.
  rewrite E1. intros ns w2 (Ho & Hb & Hns). destruct ns as [j|].
  - subst j. apply wp_total; [apply total_nonblocking|]. intros _ w3 E3.
    apply wp_bind. eapply wp_mono; [apply modify_opens|].
    + by apply (only_slot_trans_eq _ w w2).
    + by apply (no_buffers_eq id w2).
    + retype.
    + intros u w4 Hw4. by wp_steps.
  - wp_steps. cbn [ss]. split; [done|]. unfold reserved_as, lists_ok. by rewrite Hns.
Qed.

Lemma add_udp_socket_opens id fd family opq w :
  waiting id w → wp no_fault (add_udp_socket id fd family opq) (λ _ w', opens id (ss w) (ss w')) w.
Proof.
  intros Hw. unfold add_udp_socket. apply wp_bind. eapply wp_mono; [by apply new_fd_waiting|]. cbn beta.
  intros ns w1 (Ho & Hb & Hns). destruct ns as [j|].
  - subst j. apply modify_opens; [done|done|]. intros s. split; [done|split; reflexivity].
  - apply wp_total; [apply total_close|]. intros _ w2 E2. apply modify_opens; [| |retype].
    + by apply (only_slot_trans_eq _ w w1).
    + by apply (no_buffers_eq id w1).
Qed.
End Opening.

(** ** Reserving a slot *)

Section Fresh.
Context `{Env}.

(** Identifiers grow until they reach 2^31. *)
Lemma reserve_loop_fresh n : ∀ w,
  0 <= alloc_id (ss w) → alloc_id (ss w) + Z.of_nat n < 2 ^ 31 →
  wp no_fault (reserve_loop n) (λ id w',
    alloc_id (ss w) <= alloc_id (ss w') <= alloc_id (ss w) + Z.of_nat n ∧ pipe (ss w') = pipe (ss w) ∧
    ((id = -1 ∧ slot (ss w') = slot (ss w)) ∨
     (alloc_id (ss w) < id ∧ id = alloc_id (ss w') ∧
      type (slot_at (ss w) (HASH_ID id)) = SOCKET_TYPE_INVALID ∧
      slot (ss w') = <[HASH_ID id := reserved (slot_at (ss w) (HASH_ID id)) id]> (slot (ss w))))) w.
Proof.
  induction n as [|n IH]; intros w Ha Hn.
  - cbn. split; [lia|]. split; [done|]. by left.
  - unfold wp. rewrite reserve_round by lia.
    assert (next_id (alloc_id (ss w)) = alloc_id (ss w) + 1) as Hid by (unfold next_id; rewrite Z.mod_small; lia).
    rewrite Hid. destruct (Z.eqb_spec (type (slot_at (ss w) (HASH_ID (alloc_id (ss w) + 1)))) SOCKET_TYPE_INVALID)
      as [Hf|Hf].
    + cbn. split; [lia|]. split; [done|]. right. split; [lia|]. done.
    + eapply wp_mono; [apply IH; cbn; lia|]. cbn [ss alloc_id with_alloc pipe slot]. cbn beta.
      intros id w' (Hal & Hp & Hor). split; [lia|]. split; [done|].
      destruct Hor as [?|(? & ? & ? & ?)]; [by left|right]. split; [lia|]. done.
Qed.

End Fresh.

(** ** The requests in the pipe *)

(** The identifier a request names, and whether it opens that socket. *)
Definition rq_id (rq : request) : option Z :=
  match rq with
  | RqStart id _ | RqBind id _ _ | RqListen id _ _ | RqClose id _ | RqOpen id _ _ _
  | RqSend id _ _ | RqSendLow id _ _ | RqSendUdp id _ _ _ | RqSetUdp id _ | RqSetopt id _ _
  | RqUdp id _ _ _ => Some id
  | RqExit => None
  end.
Definition opened (rq : request) : option Z :=
  match rq with
  | RqBind id _ _ | RqListen id _ _ | RqOpen id _ _ _ | RqUdp id _ _ _ => Some id
  | _ => None
  end.

Lemma opened_id rq id : opened rq = Some id → rq_id rq = Some id.
Proof. by destruct rq. Qed.

(** No request stands before the one that opens its socket. *)
Fixpoint ordered (rqs : list request) : Prop :=
  match rqs with
  | [] => True
  | rq :: rqs => (∀ id, rq_id rq = Some id → id ∉ omap opened rqs) ∧ ordered rqs
  end.

Lemma ordered_snoc rqs rq :
  ordered rqs → (∀ id, opened rq = Some id → ∀ rq', rq' ∈ rqs → rq_id rq' ≠ Some id) → ordered (rqs ++ [rq]).
Proof.
  induction rqs as [|r rqs IH]; cbn [ordered app]; intros Ho Hn.
  - split; [|done]. intros id _. apply not_elem_of_nil.
  - destruct Ho as [Hr Ho]. split.
    + intros id Hid. rewrite omap_app, elem_of_app. intros [Hin|Hin]; [by apply (Hr id)|].
      apply list_elem_of_omap in Hin as (r' & Hr' & Hop). apply list_elem_of_singleton in Hr' as ->.
      apply (Hn id Hop r); [apply list_elem_of_here|done].
    + apply IH; [done|]. intros id Hop rq' Hin. apply (Hn id Hop). by apply list_elem_of_further.
Qed.

(** The server, the requests in the pipe and those of calls that have not written
    theirs yet, in no order.  A socket whose request is not written yet is named by no
    other request. *)
Record protocol_inv (s : socket_server) (rqs pend : list request) : Prop := {
  pi_pipe : pipe s = mjoin (frame <$> rqs);
  pi_ok : Forall request_ok rqs ∧ Forall request_ok pend;
  pi_alloc : 0 <= alloc_id s < 2 ^ 31;
  pi_issued : ∀ rq id, rq ∈ rqs ++ pend → rq_id rq = Some id → id <= alloc_id s;
  pi_reserved : ∀ j id, reserved_as (slot_at s j) = Some id ↔ (HASH_ID id = j ∧ id ∈ omap opened (rqs ++ pend));
  pi_ordered : ordered rqs;
  pi_pending : ∀ rq pend' id, pend ≡ₚ rq :: pend' → opened rq = Some id →
    ∀ rq', rq' ∈ rqs ++ pend' → rq_id rq' ≠ Some id;
  pi_lists : ∀ j, lists_ok (slot_at s j) }.

Lemma perm_cons_cases {A} (x y : A) l k :
  x :: l ≡ₚ y :: k → (x = y ∧ l ≡ₚ k) ∨ ∃ l', l ≡ₚ y :: l' ∧ k ≡ₚ x :: l'.
Proof.
  intros Hp. apply Permutation_cons_inv_l in Hp as (k1 & k2 & E & Hl). destruct k1 as [|y' k1].
  - injection E as -> ->. by left.
  - injection E as <- ->. right. exists (k1 ++ k2). split; [done|]. symmetry. apply Permutation_middle.
Qed.

(** What a request in the pipe names is not waiting to be written. *)
Lemma named_not_pending s rqs pend rq id :
  protocol_inv s rqs pend → rq ∈ rqs → rq_id rq = Some id → id ∉ omap opened pend.
Proof.
  intros Hinv Hin Hid Hpend. apply list_elem_of_omap in Hpend as (r & Hr & Hop).
  apply elem_of_Permutation in Hr as [pend' Hp].
  apply (pi_pending _ _ _ Hinv r pend' id Hp Hop rq); [|done]. apply elem_of_app. by left.
Qed.

(** Quiet but for identifiers that were given out and taken back. *)
Definition grows (k : Z) (s s' : socket_server) : Prop :=
  pipe s' = pipe s ∧ alloc_id s <= alloc_id s' <= alloc_id s + k ∧ ∀ i, quiet_slot (slot_at s i) (slot_at s' i).

Lemma quiet_grows s s' : quiet s s' → grows 0 s s'.
Proof. intros (H1 & H2 & H3). split; [done|]. split; [lia|done]. Qed.

Lemma grows_trans k k' s1 s2 s3 : grows k s1 s2 → grows k' s2 s3 → grows (k + k') s1 s3.
Proof.
  intros (H1 & H2 & H3) (H4 & H5 & H6). split; [congruence|]. split; [lia|].
  intros i. etrans; [apply H3|apply H6].
Qed.

Lemma grows_inv k s s' rqs pend :
  protocol_inv s rqs pend → grows k s s' → alloc_id s + k < 2 ^ 31 → protocol_inv s' rqs pend.
Proof.
  intros [Hp Hok Ha Hi Hr Ho Hpd Hl] (E1 & E2 & E3) Hk. constructor; try done.
  - by rewrite E1.
  - lia.
  - intros rq id Hin Hid. pose proof (Hi rq id Hin Hid). lia.
  - intros j id. rewrite (proj1 (E3 j)). apply Hr.
  - intros j. apply (proj2 (E3 j)), Hl.
Qed.

(** A call is about to write a request that opens nothing. *)
Lemma begin_inv s rqs pend rq :
  protocol_inv s rqs pend → request_ok rq → opened rq = None →
  (∀ id, rq_id rq = Some id → id <= alloc_id s ∧ id ∉ omap opened pend) → protocol_inv s rqs (rq :: pend).
Proof.
  intros [Hp [Hok Hok'] Ha Hi Hr Ho Hpd Hl] Hrq Hop Hid. constructor; try done.
  - split; [done|]. by constructor.
  - intros rq' id. rewrite elem_of_app, elem_of_cons. intros [Hin|[->|Hin]] Hid'.
    + by eapply Hi; [apply elem_of_app; left|].
    + by apply Hid.
    + by eapply Hi; [apply elem_of_app; right|].
  - intros j id. rewrite Hr, !omap_app. cbn. by rewrite Hop.
  - intros r pend' id Hperm Hopr rq' Hin. apply perm_cons_cases in Hperm as [[-> _]|(l & Hl1 & Hl2)]; [congruence|].
    rewrite Hl2, elem_of_app, elem_of_cons in Hin. destruct Hin as [Hin|[->|Hin]].
    + apply (Hpd r l id Hl1 Hopr). apply elem_of_app. by left.
    + intros Hid'. destruct (Hid id Hid') as [_ []]. apply list_elem_of_omap. exists r. split; [|done].
      rewrite Hl1. apply list_elem_of_here.
    + apply (Hpd r l id Hl1 Hopr). apply elem_of_app. by right.
Qed.

(** A call has reserved a slot and is about to write the request that opens it. *)
Lemma begin_open_inv s rqs pend s' rq id :
  protocol_inv s rqs pend → request_ok rq → opened rq = Some id → alloc_id s < id → id = alloc_id s' →
  id < 2 ^ 31 → type (slot_at s (HASH_ID id)) = SOCKET_TYPE_INVALID →
  slot s' = <[HASH_ID id := reserved (slot_at s (HASH_ID id)) id]> (slot s) →
  pipe s' = pipe s → protocol_inv s' rqs (rq :: pend).
Proof.
  intros [Hp [Hok Hok'] Ha Hi Hr Ho Hpd Hl] Hrq Hop Hlt Hid Hmax Ht Hs Hpipe.
  assert (Hslot : ∀ j, slot_at s' j =
    if decide (HASH_ID id = j) then reserved (slot_at s (HASH_ID id)) id else slot_at s j).
  { intros j. unfold slot_at at 1. rewrite Hs. pose proof (slot_at_insert s (HASH_ID id)
      (reserved (slot_at s (HASH_ID id)) id) j) as E. unfold slot_at at 1 in E. exact E. }
  assert (Hold : ∀ rq' id', rq' ∈ rqs ∨ rq' ∈ pend → rq_id rq' = Some id' → id' < id).
  { intros rq' id' Hin Hid'. specialize (Hi rq' id' ltac:(by apply elem_of_app) Hid'). lia. }
  constructor; [congruence|by split; [|constructor]|lia|..].
  - intros rq' id'. rewrite elem_of_app, elem_of_cons. intros [Hin|[->|Hin]] Hid'.
    + specialize (Hold rq' id' ltac:(by left) Hid'). lia.
    + rewrite (opened_id _ _ Hop) in Hid'. simplify_eq. lia.
    + specialize (Hold rq' id' ltac:(by right) Hid'). lia.
  - intros j id'. rewrite Hslot. specialize (Hr j id'). rewrite omap_app, elem_of_app in *. cbn. rewrite Hop. cbn.
    rewrite elem_of_cons. case_decide as Hj.
    + subst j. unfold reserved_as at 1. cbn. split; [intros [= <-]; auto|].
      intros [Hh Hin]. destruct (decide (id' = id)) as [->|Hne]; [done|]. exfalso.
      pose proof (proj2 Hr ltac:(tauto)) as Hres. unfold reserved_as in Hres. by rewrite Ht in Hres.
    + rewrite Hr. split; [tauto|]. intros [Hh Hin]. split; [done|]. destruct Hin as [?|[->|?]]; [by left|done|by right].
  - done.
  - intros r pend' id' Hperm Hopr rq' Hin Hid'.
    apply perm_cons_cases in Hperm as [[<- Hl1]|(l & Hl1 & Hl2)].
    + rewrite Hop in Hopr. simplify_eq. rewrite <- Hl1, elem_of_app in Hin. specialize (Hold rq' _ Hin Hid'). lia.
    + assert (id' < id) as Hlt'.
      { apply (Hold r); [right; rewrite Hl1; apply list_elem_of_here|by apply opened_id]. }
      rewrite Hl2, elem_of_app, elem_of_cons in Hin. destruct Hin as [Hin|[->|Hin]].
      * apply (Hpd r l id' Hl1 Hopr rq'); [apply elem_of_app; by left|done].
      * rewrite (opened_id _ _ Hop) in Hid'. simplify_eq. lia.
      * apply (Hpd r l id' Hl1 Hopr rq'); [apply elem_of_app; by right|done].
  - intros j. rewrite Hslot. case_decide; [|apply Hl]. intros _. cbn. apply Hl. by rewrite Ht.
Qed.

(** A call writes its request. *)
Lemma write_inv s rqs pend rq pend' :
  protocol_inv s rqs pend → pend ≡ₚ rq :: pend' →
  protocol_inv (with_pipe s (pipe s ++ frame rq)) (rqs ++ [rq]) pend'.
Proof.
  intros [Hp [Hok Hok'] Ha Hi Hr Ho Hpd Hl] Hperm.
  assert (rqs ++ pend ≡ₚ (rqs ++ [rq]) ++ pend') as Hall by (rewrite Hperm, <- app_assoc; done).
  rewrite Hperm in Hok'. apply Forall_cons_1 in Hok' as [Hrq Hok']. constructor; try done.
  - cbn. rewrite Hp, fmap_app, mjoin_app. f_equal. symmetry. exact (app_nil_r (frame rq)).
  - split; [|done]. apply Forall_app. split; [done|]. by constructor.
  - intros rq' id. rewrite <- Hall. apply Hi.
  - intros j id. rewrite <- Hall. apply Hr.
  - apply ordered_snoc; [done|]. intros id Hop rq' Hin. apply (Hpd rq pend' id Hperm Hop).
    apply elem_of_app. by left.
  - intros r l id Hl1 Hop rq' Hin. apply (Hpd r (rq :: l) id); [rewrite Hperm, Hl1; apply Permutation_swap|done|].
    by rewrite <- app_assoc in Hin.
Qed.

(** A request that opens nothing is written at once. *)
Lemma send_inv s rqs pend rq :
  protocol_inv s rqs pend → request_ok rq → opened rq = None →
  (∀ id, rq_id rq = Some id → id <= alloc_id s ∧ id ∉ omap opened pend) →
  protocol_inv (with_pipe s (pipe s ++ frame rq)) (rqs ++ [rq]) pend.
Proof. intros Hinv Hrq Hop Hid. by eapply write_inv; [apply begin_inv|]. Qed.

(** A slot is reserved and the request that opens it written at once. *)
Lemma reserve_inv s rqs pend s' rq id :
  protocol_inv s rqs pend → request_ok rq → opened rq = Some id → alloc_id s < id → id = alloc_id s' →
  id < 2 ^ 31 → type (slot_at s (HASH_ID id)) = SOCKET_TYPE_INVALID →
  slot s' = <[HASH_ID id := reserved (slot_at s (HASH_ID id)) id]> (slot s) →
  pipe s' = pipe s ++ frame rq → protocol_inv s' (rqs ++ [rq]) pend.
Proof.
  intros Hinv Hrq Hop Hlt Hid Hmax Ht Hs Hpipe.
  replace s' with (with_pipe (with_pipe s' (pipe s)) (pipe (with_pipe s' (pipe s)) ++ frame rq)).
  - eapply write_inv; [|done]. by eapply (begin_open_inv s rqs pend _ rq id).
  - destruct s'. cbn in *. by subst.
Qed.

(** ** The server takes a request *)

(** What the request at the head names is opened by no other. *)
Lemma head_named_once s rq rqs pend id :
  protocol_inv s (rq :: rqs) pend → rq_id rq = Some id → id ∉ omap opened (rqs ++ pend).
Proof.
  intros Hinv Hid. rewrite omap_app, elem_of_app. intros [Hin|Hin].
  - destruct (pi_ordered _ _ _ Hinv) as [Ho _]. by apply (Ho id Hid).
  - by eapply named_not_pending; [exact Hinv|apply list_elem_of_here|..].
Qed.

Lemma head_not_reserved s rq rqs pend id :
  protocol_inv s (rq :: rqs) pend → opened rq = None → rq_id rq = Some id → not_reserved id (slot_at s (HASH_ID id)).
Proof.
  intros Hinv Hop Hid Hres. apply (head_named_once _ _ _ _ _ Hinv Hid).
  apply (pi_reserved _ _ _ Hinv) in Hres as [_ Hin]. cbn in Hin. by rewrite Hop in Hin.
Qed.

Lemma head_reserved s rq rqs pend id :
  protocol_inv s (rq :: rqs) pend → opened rq = Some id →
  type (slot_at s (HASH_ID id)) = SOCKET_TYPE_RESERVE ∧ sid (slot_at s (HASH_ID id)) = id ∧
  high (slot_at s (HASH_ID id)) = [] ∧ low (slot_at s (HASH_ID id)) = [].
Proof.
  intros Hinv Hop.
  assert (reserved_as (slot_at s (HASH_ID id)) = Some id) as Hres.
  { apply (pi_reserved _ _ _ Hinv). split; [done|]. cbn. rewrite Hop. apply list_elem_of_here. }
  unfold reserved_as in Hres. destruct (Z.eqb_spec (type (slot_at s (HASH_ID id))) SOCKET_TYPE_RESERVE) as [Ht|];
    [|done]. split; [done|]. split; [congruence|]. apply (pi_lists _ _ _ Hinv). by rewrite Ht.
Qed.

Lemma take_inv s rq rqs pend b :
  protocol_inv s (rq :: rqs) pend → opened rq = None → b = mjoin (frame <$> rqs) →
  protocol_inv (with_pipe s b) rqs pend.
Proof.
  intros [Hp [Hok Hok'] Ha Hi Hr Ho Hpd Hl] Hop ->. constructor; try done.
  - split; [|done]. by apply Forall_cons_1 in Hok as [_ ?].
  - intros rq' id Hin. apply Hi. by apply list_elem_of_further.
  - intros j id. specialize (Hr j id). cbn in Hr. rewrite Hop in Hr. exact Hr.
  - apply Ho.
  - intros r pend' id Hperm Hopr rq' Hin. apply (Hpd r pend' id Hperm Hopr). by apply list_elem_of_further.
Qed.

Lemma take_open_inv s rq rqs pend id b s' :
  protocol_inv s (rq :: rqs) pend → opened rq = Some id → b = mjoin (frame <$> rqs) →
  opens id (with_pipe s b) s' → protocol_inv s' rqs pend.
Proof.
  intros Hinv Hop -> ((E1 & E2 & E3) & Hnone & Hlok). pose proof Hinv as [Hp [Hok Hok'] Ha Hi Hr [_ Ho] Hpd Hl].
  pose proof (head_named_once _ _ _ _ id Hinv (opened_id _ _ Hop)) as Hfirst.
  constructor.
  - by rewrite E1.
  - split; [|done]. by apply Forall_cons_1 in Hok as [_ ?].
  - by rewrite E2.
  - intros rq' id' Hin. rewrite E2. apply Hi. by apply list_elem_of_further.
  - intros j id'. destruct (decide (j = HASH_ID id)) as [->|Hj].
    + rewrite Hnone. split; [done|]. intros [Hh Hin]. exfalso.
      destruct (head_reserved s rq rqs pend id Hinv Hop) as (Ht & Hs & _).
      assert (reserved_as (slot_at s (HASH_ID id)) = Some id') as Hres.
      { apply Hr. split; [done|]. cbn. rewrite Hop. by apply list_elem_of_further. }
      unfold reserved_as in Hres. rewrite Ht in Hres. cbn in Hres. congruence.
    + rewrite E3 by done. specialize (Hr j id'). cbn in Hr. rewrite Hop in Hr.
      change (slot_at (with_pipe s (mjoin (frame <$> rqs))) j) with (slot_at s j). rewrite Hr, elem_of_cons.
      split; [intros [Hh [->|?]]; [by destruct Hj|done]|intros [? ?]; auto].
  - done.
  - intros r pend' id' Hperm Hopr rq' Hin. apply (Hpd r pend' id' Hperm Hopr). by apply list_elem_of_further.
  - intros j. destruct (decide (j = HASH_ID id)) as [->|Hj]; [done|]. rewrite E3 by done. apply Hl.
Qed.

Section Server.
Context `{Env}.

Lemma wp_any {A} E (m : M A) Q w : wp E m Q w → wp any_fault m Q w.
Proof. unfold wp. destruct (m w) as [[a w']|f]; done. Qed.

Lemma opened_received rq : opened (received rq) = opened rq.
Proof. by destruct rq. Qed.
Lemma rq_id_received rq : rq_id (received rq) = rq_id rq.
Proof. by destruct rq. Qed.

(** Handling a request that opens nothing. *)
Lemma dispatch_quiet n rq w :
  opened rq = None → (∀ id, rq_id rq = Some id → not_reserved id (slot_at (ss w) (HASH_ID id))) →
  wp any_fault (dispatch n rq) (λ _ w', quiet (ss w) (ss w')) w.
Proof.
  intros Hop Hn. destruct rq; try done; cbn [dispatch].
  - apply start_socket_quiet.
  - by apply (close_socket_quiet n id opaque _ (Hn id eq_refl)).
  - by apply (send_socket_quiet id buffer sz _ _ _ (Hn id eq_refl)).
  - by apply (send_socket_quiet id buffer sz _ _ _ (Hn id eq_refl)).
  - by apply (send_socket_quiet id buffer sz _ _ _ (Hn id eq_refl)).
  - apply set_udp_address_quiet.
  - apply quietly_bind; [apply setopt_quiet|]. intros _. apply quietly_frozen. frozen.
Qed.

(** Handling one that opens a socket never fails. *)
Lemma dispatch_opens n rq id w :
  opened rq = Some id → waiting id w →
  wp no_fault (dispatch n rq) (λ _ w', opens id (ss w) (ss w')) w.
Proof.
  intros Hop Hw. destruct rq; try done; cbn in Hop; injection Hop as ->; cbn [dispatch].
  - by apply bind_socket_opens.
  - by apply listen_socket_opens.
  - by apply open_socket_opens.
  - apply wp_bind. eapply wp_mono; [by apply add_udp_socket_opens|]. intros u w' Hw'. by wp_steps.
Qed.

(** Reading and writing the pipe, when it succeeds, whatever the calls answer. *)
Lemma block_readpipe_any n sz : ∀ w b b',
  pipe (ss w) = b ++ b' → Z.of_nat (length b) = sz →
  wp any_fault (block_readpipe n sz) (λ d w', d = b ∧ pipe_changed b' w w') w.
Proof.
  induction n as [|n IH]; intros w b b' Hp Hl; [done|]. cbn [block_readpipe]. wp_steps.
  destruct (_ <? 0).
  - destruct (_ =? _); [|done]. eapply wp_mono; [by apply (IH _ b b')|by intros].
  - wp_steps. cbn [ss]. rewrite Hp. apply wp_assert.
    + apply Z.eqb_eq. by rewrite take_app_length' by lia.
    + wp_steps. rewrite take_app_length', drop_app_length' by lia. by repeat split.
Qed.

Lemma read_request_any n rq w b :
  request_ok rq → pipe (ss w) = frame rq ++ b →
  wp any_fault (read_request n) (λ r w', r = Some (received rq) ∧ pipe_changed b w w') w.
Proof.
  intros Hok Hp. unfold read_request. wp_steps.
  set (hdr := [request_type rq; u8 (Z.of_nat (length (request_body rq)))]).
  eapply wp_mono; [by apply (block_readpipe_any n 2 w hdr (request_body rq ++ b))|]. cbn beta.
  intros hd w1 (-> & Hss & Hr & Hlog). wp_steps. pose proof (length_request_body rq Hok) as Hlen.
  eapply wp_mono; [apply (block_readpipe_any n _ w1 (request_body rq) b)|].
  - by rewrite Hss.
  - symmetry. apply (wrap_small 8). lia.
  - cbn beta. intros d w2 (-> & Hss2 & Hr2 & Hlog2). unfold wp, lift.
    change (hdr !!! 0%nat) with (request_type rq). rewrite decode_request by done.
    split; [done|]. repeat split; [|congruence..]. by rewrite Hss2, Hss.
Qed.

Lemma send_request_any n rq : ∀ w,
  wp any_fault (send_request n rq) (λ _ w', pipe_changed (pipe (ss w) ++ frame rq) w w') w.
Proof.
  induction n as [|n IH]; intros w; [done|]. cbn [send_request]. wp_steps.
  destruct (_ <? 0); [eapply wp_mono; [apply IH|by intros]|]. wp_steps. by repeat split.
Qed.

(** The request at the head of the pipe is read back. *)
Lemma ctrl_cmd_inv n rq rqs pend w :
  protocol_inv (ss w) (rq :: rqs) pend →
  wp any_fault (ctrl_cmd n) (λ _ w', protocol_inv (ss w') rqs pend ∧ alloc_id (ss w') = alloc_id (ss w)) w.
Proof.
  intros Hinv. pose proof Hinv as [Hp [Hok _] Ha _ _ _ _ _]. apply Forall_cons_1 in Hok as [Hrq _].
  unfold ctrl_cmd. apply wp_bind.
  eapply wp_mono; [apply (read_request_any n rq w (mjoin (frame <$> rqs))); [done|exact Hp]|].
  cbn beta. intros r w1 (-> & Hss & _ & _).
  destruct (opened rq) as [id|] eqn:Hop.
  - eapply wp_mono; [eapply wp_any, (dispatch_opens n (received rq) id)|].
    + by rewrite opened_received.
    + destruct (head_reserved _ _ _ _ _ Hinv Hop) as (Ht & _ & Hh & Hl).
      unfold waiting. rewrite Hss. done.
    + cbn beta. intros t w2 Hw2. rewrite Hss in Hw2. split; [by eapply take_open_inv|]. apply Hw2.
  - eapply wp_mono; [apply dispatch_quiet|].
    + by rewrite opened_received.
    + intros id. rewrite rq_id_received, Hss. exact (head_not_reserved _ _ _ _ id Hinv Hop).
    + cbn beta. intros t w2 Hw2. rewrite Hss in Hw2.
      pose proof (take_inv _ _ _ _ _ Hinv Hop eq_refl) as Hinv1. split.
      * eapply grows_inv; [exact Hinv1|by apply quiet_grows|]. cbn. lia.
      * apply Hw2.
Qed.

(** Operations on the event array. *)
Lemma quietly_events n i e : quietly (set_ss (λ s, with_events s (n s) (i s) (e s))).
Proof. intros w. apply wp_modify. split; [done|]. split; [done|]. intros j. reflexivity. Qed.
Lemma set_index_quiet f : quietly (set_index f).
Proof. apply quietly_events. Qed.
Lemma clear_read_quiet k : quietly (clear_read k).
Proof. apply quietly_events. Qed.
Lemma checkctrl_quiet b : quietly (set_ss (λ s, with_checkctrl s b)).
Proof. intros w. apply wp_modify. split; [done|]. split; [done|]. intros j. reflexivity. Qed.
Lemma clear_closed_quiet ty : quietly (clear_closed_event ty).
Proof.
  apply quietly_when. intros w. apply wp_modify. split; [done|]. split; [done|]. intros j. reflexivity.
Qed.
Hint Resolve set_index_quiet clear_read_quiet checkctrl_quiet clear_closed_quiet : quiet.

Lemma finish_quiet ty : quietly (finish ty).
Proof. unfold finish. quiet. Qed.
Hint Resolve finish_quiet : quiet.

Lemma data_event_quiet n k e i : quietly (data_event n k e i).
Proof. unfold data_event. quiet. Qed.
Hint Resolve data_event_quiet : quiet.

(** Where a program may give out at most [k] identifiers. *)
Definition growing {A} (k : Z) (w : world) (m : M A) : Prop :=
  wp any_fault m (λ _ w', grows k (ss w) (ss w')) w.

Lemma quietly_growing {A} k w (m : M A) : 0 <= k → quietly m → growing k w m.
Proof.
  intros Hk Hm. eapply wp_mono; [apply Hm|]. cbn beta. intros a w' (H1 & H2 & H3). split; [done|]. split; [lia|done].
Qed.

(** An accepted connection gets a slot of its own. *)
Lemma accepted_grows w w1 id x :
  alloc_id (ss w) <= alloc_id (ss w1) <= alloc_id (ss w) + MAX_SOCKET →
  pipe (ss w1) = pipe (ss w) → type (slot_at (ss w) (HASH_ID id)) = SOCKET_TYPE_INVALID →
  slot (ss w1) = <[HASH_ID id := x]> (slot (ss w)) →
  type x = SOCKET_TYPE_PACCEPT → high x = high (slot_at (ss w) (HASH_ID id)) →
  low x = low (slot_at (ss w) (HASH_ID id)) → grows MAX_SOCKET (ss w) (ss w1).
Proof.
  intros Ha Hp Ht Hs Hx Hh Hl. split; [done|]. split; [done|]. intros j.
  assert (slot_at (ss w1) j = if decide (HASH_ID id = j) then x else slot_at (ss w) j) as ->.
  { unfold slot_at at 1. rewrite Hs. pose proof (slot_at_insert (ss w) (HASH_ID id) x j) as E.
    unfold slot_at at 1 in E. exact E. }
  case_decide as Hj; [subst j|reflexivity]. split.
  - unfold reserved_as. by rewrite Hx, Ht.
  - intros Hok _. rewrite Hh, Hl. apply Hok. by rewrite Ht.
Qed.

Lemma slot_at_put s i x m : slot_at (with_slot s (<[i := x]> m)) i = x.
Proof. unfold slot_at. cbn. by rewrite lookup_insert_eq. Qed.

Lemma report_accept_grows i w :
  0 <= alloc_id (ss w) → alloc_id (ss w) + MAX_SOCKET < 2 ^ 31 → growing MAX_SOCKET w (report_accept i).
Proof.
  intros Ha Hmax. unfold growing, report_accept. wp_steps.
  destruct (_ <? 0).
  { wp_steps. split; [done|]. split; [cbn; change MAX_SOCKET with 65536; lia|]. intros j. reflexivity. }
  wp_steps. unfold reserve_id.
  eapply wp_mono; [eapply wp_any, reserve_loop_fresh; cbn [ss]; [done|change MAX_SOCKET with 65536 in *; lia]|].
  cbn beta. cbn [ss]. rewrite Z2Nat.id by done. intros id w1 (Hal & Hp & Hor).
  destruct (Z.ltb_spec id 0) as [Hneg|Hpos].
  { wp_steps. destruct Hor as [[-> Hs]|(? & ? & _)]; [|lia]. cbn [ss]. split; [done|]. split; [done|].
    intros j. unfold slot_at. by rewrite Hs. }
  destruct Hor as [[-> _]|(Hlt & Hid & Ht & Hs)]; [lia|].
  apply wp_bind. eapply wp_mono; [apply frozen_keepalive|]. cbn beta. intros _ w2 E2.
  apply wp_bind. eapply wp_mono; [apply frozen_sp_nonblocking|]. cbn beta. intros _ w3 E3. rewrite E2 in E3.
  unfold new_fd. wp_steps. unfold m_assert at 1. destruct (_ =? _); [|done]. wp_steps.
  unfold check_wb_list, m_assert. destruct (high _) eqn:Eh; [|done]. destruct (low _) eqn:El; [|done]. wp_steps.
  eapply (accepted_grows w _ id); [cbn [ss alloc_id with_slot]; rewrite E3; lia|by rewrite <- Hp, <- E3|done| | | |].
  - cbn [ss slot with_slot]. rewrite insert_insert_eq, E3, Hs. apply insert_insert_eq.
  - done.
  - rewrite slot_at_put. symmetry. rewrite E3 in Eh. unfold slot_at in Eh at 1.
    rewrite Hs, lookup_insert_eq in Eh. exact Eh.
  - rewrite slot_at_put. symmetry. rewrite E3 in El. unfold slot_at in El at 1.
    rewrite Hs, lookup_insert_eq in El. exact El.
Qed.

Lemma handle_event_grows n k e w :
  0 <= alloc_id (ss w) → alloc_id (ss w) + MAX_SOCKET < 2 ^ 31 → growing MAX_SOCKET w (handle_event n k e).
Proof.
  intros Ha Hmax. unfold handle_event. destruct (e_s e) as [i|]; [|apply quietly_growing; [done|quiet]].
  unfold growing. apply wp_bind, wp_gets.
  destruct (Z.eqb_spec (type (slot_at (ss w) i)) SOCKET_TYPE_CONNECTING) as [Ht|_].
  { eapply wp_mono; [eapply (quiet_from_bind i _ _ _ (report_connect_quiet i _ Ht)); [quiet|done]|].
    cbn beta. intros a w' (H1 & H2 & H3). split; [done|]. split; [change MAX_SOCKET with 65536; lia|done]. }
  destruct (_ =? SOCKET_TYPE_LISTEN).
  { apply wp_bind. eapply wp_mono; [by apply report_accept_grows|]. cbn beta. intros ok w1 Hw1.
    destruct ok; by wp_steps. }
  apply (quietly_growing MAX_SOCKET w (if type (slot_at (ss w) i) =? SOCKET_TYPE_INVALID then _ else _)); [done|].
  quiet.
Qed.

Lemma poll_event_grows n more w :
  0 <= alloc_id (ss w) → alloc_id (ss w) + MAX_SOCKET < 2 ^ 31 → growing MAX_SOCKET w (poll_event n more).
Proof.
  intros Ha Hmax. unfold growing, poll_event. apply wp_bind, wp_gets, wp_bind.
  match goal with |- wp _ ?m _ _ => assert (quietly m) as Hq end.
  { destruct (_ =? _); [|quiet]. unfold sp_wait. apply quietly_bind; [quiet|]. intros r.
    apply quietly_bind; [|quiet]. intros w1. apply wp_modify.
    split; [done|]. split; [done|]. intros j. reflexivity. }
  eapply wp_mono; [apply Hq|]. cbn beta. intros m w1 Q1. destruct m as [m|m].
  { wp_steps. split; [apply Q1|]. split; [rewrite (proj1 (proj2 Q1)); change MAX_SOCKET with 65536; lia|apply Q1]. }
  wp_steps. destruct (ev (ss w1) !! _) as [e|]; [|done]. apply wp_bind.
  eapply wp_mono; [apply handle_event_grows; cbn; rewrite (proj1 (proj2 Q1)); lia|]. cbn beta. intros t w2 G2.
  wp_steps. apply quiet_grows in Q1. eapply (grows_trans 0 MAX_SOCKET); [exact Q1|].
  destruct G2 as (H1 & H2 & H3). split; [exact H1|]. split; [exact H2|]. exact H3.
Qed.

(** The invariant, with at most [k] more identifiers given out. *)
Definition keeps_protocol {A} (k : Z) (pend : list request) (w : world) (m : M A) : Prop :=
  wp any_fault m (λ _ w', (∃ rqs', protocol_inv (ss w') rqs' pend) ∧ alloc_id (ss w') <= alloc_id (ss w) + k) w.

Lemma growing_keeps {A} k w (m : M A) rqs pend :
  protocol_inv (ss w) rqs pend → alloc_id (ss w) + k < 2 ^ 31 → growing k w m → keeps_protocol k pend w m.
Proof.
  intros Hinv Hk Hm. eapply wp_mono; [exact Hm|]. cbn beta. intros a w' Hg.
  split; [exists rqs; by eapply grows_inv|apply Hg].
Qed.

Lemma poll_round_keeps n more w rqs pend :
  protocol_inv (ss w) rqs pend → alloc_id (ss w) + MAX_SOCKET < 2 ^ 31 →
  keeps_protocol MAX_SOCKET pend w (poll_round n more).
Proof.
  intros Hinv Hmax. pose proof (pi_alloc _ _ _ Hinv). unfold keeps_protocol, poll_round. apply wp_bind, wp_gets.
  assert (wp any_fault (if checkctrl (ss w) then has_cmd else ret false) (λ c w1,
    ss w1 = ss w ∧ (c = true → pipe (ss w) ≠ [])) w) as Hc.
  { destruct (checkctrl (ss w)); [|by wp_steps]. unfold has_cmd. wp_steps. cbn [ss]. split; [done|].
    destruct (pipe (ss w)); [by rewrite andb_false_r|done]. }
  apply wp_bind. eapply wp_mono; [exact Hc|]. cbn beta. intros c w1 [E1 Hpipe]. destruct c.
  - destruct rqs as [|rq rqs].
    { exfalso. apply Hpipe; [done|]. by rewrite (pi_pipe _ _ _ Hinv). }
    apply wp_bind. eapply wp_mono; [apply (ctrl_cmd_inv n rq rqs pend); by rewrite E1|]. cbn beta.
    intros ty w2 [Hinv2 Ha2]. apply wp_bind. eapply wp_mono; [apply finish_quiet|]. cbn beta. intros t w3 Q3.
    wp_steps. rewrite E1 in Ha2. split.
    + exists rqs. eapply grows_inv; [exact Hinv2|by apply quiet_grows|]. lia.
    + rewrite (proj1 (proj2 Q3)), Ha2. change MAX_SOCKET with 65536. lia.
  - apply wp_bind. eapply wp_mono; [apply (quietly_when _ _ (checkctrl_quiet false))|]. cbn beta.
    intros u w2 Q2. rewrite E1 in Q2.
    assert (protocol_inv (ss w2) rqs pend) as Hinv2.
    { eapply grows_inv; [exact Hinv|by apply quiet_grows|]. lia. }
    rewrite <- (proj1 (proj2 Q2)) in *.
    apply (growing_keeps MAX_SOCKET w2 _ rqs pend); [done|done|]. apply poll_event_grows; lia.
Qed.

(** ** The public interface *)

Inductive call :=
| CallConnect (opq : Z) (addr : list Z) (port : Z)
| CallListen (opq : Z) (addr : option (list Z)) (port backlog : Z)
| CallBind (opq fd : Z)
| CallUdp (opq : Z) (addr : option (list Z)) (port : Z)
| CallSend (id buffer sz : Z)
| CallSendLow (id buffer sz : Z)
| CallUdpSend (id : Z) (addr : list Z) (buffer sz : Z)
| CallUdpConnect (id : Z) (addr : list Z) (port : Z)
| CallClose (opq id : Z)
| CallStart (opq id : Z)
| CallNodelay (id : Z)
| CallExit.

Definition perform_call (n : nat) (c : call) : M unit :=
  match c with
  | CallConnect opq addr port => let! _ := socket_server_connect n opq addr port in ret tt
  | CallListen opq addr port backlog => let! _ := socket_server_listen n opq addr port backlog in ret tt
  | CallBind opq fd => let! _ := socket_server_bind n opq fd in ret tt
  | CallUdp opq addr port => let! _ := socket_server_udp n opq addr port in ret tt
  | CallSend id b sz => let! _ := socket_server_send n id b sz in ret tt
  | CallSendLow id b sz => socket_server_send_lowpriority n id b sz
  | CallUdpSend id addr b sz => let! _ := socket_server_udp_send n id addr b sz in ret tt
  | CallUdpConnect id addr port => let! _ := socket_server_udp_connect n id addr port in ret tt
  | CallClose opq id => socket_server_close n opq id
  | CallStart opq id => socket_server_start n opq id
  | CallNodelay id => socket_server_nodelay n id
  | CallExit => socket_server_exit n
  end.

(** The two halves of a call, between which the server thread and other callers may
    run: what it does up to send_request, with the request it is going to write, ... *)
Definition prepare_call (c : call) : M (option request) :=
  match c with
  | CallConnect opq addr port =>
      let! id := open_request addr in
      if id <? 0 then ret None else ret (Some (RqOpen id port opq addr))
  | CallListen opq addr port backlog =>
      let! fd := do_listen addr port backlog in
      if fd <? 0 then ret None
      else
        let! id := reserve_id in
        if id <? 0 then sys_close fd ;;; ret None else ret (Some (RqListen id fd opq))
  | CallBind opq fd =>
      let! id := reserve_id in
      if id <? 0 then ret None else ret (Some (RqBind id fd opq))
  | CallUdp opq addr port =>
      let! b := (if negb (port =? 0) || match addr with Some _ => true | None => false end
                 then do_bind addr port IPPROTO_UDP
                 else let! r := sysret in ret (rv r, AF_INET)) in
      let fd := b.1 in
      if fd <? 0 then ret None
      else
        sp_nonblocking fd ;;;
        let! id := reserve_id in
        if id <? 0 then sys_close fd ;;; ret None else ret (Some (RqUdp id fd b.2 opq))
  | CallSend id b sz =>
      let! s := send_slot id b sz in
      match s with None => ret None | Some _ => ret (Some (RqSend id sz b)) end
  | CallSendLow id b sz =>
      let! s := send_slot id b sz in
      match s with None => ret None | Some _ => ret (Some (RqSendLow id sz b)) end
  | CallUdpSend id addr b sz =>
      let! s := send_slot id b sz in
      match s with
      | None => ret None
      | Some _ =>
          match udp_addrsz addr with
          | None => free_buffer b sz ;;; ret None
          | Some k => ret (Some (RqSendUdp id sz b (take (Z.to_nat k) addr)))
          end
      end
  | CallUdpConnect id addr port =>
      match getaddrinfo addr port SOCK_DGRAM with
      | None => ret None
      | Some [] => fail Undefined
      | Some (ai :: _) =>
          if (ai_family ai =? AF_INET) || (ai_family ai =? AF_INET6) then
            let proto := if ai_family ai =? AF_INET then PROTOCOL_UDP else PROTOCOL_UDPv6 in
            ret (Some (RqSetUdp id (gen_udp_address proto (ai_addr ai))))
          else ret None
      end
  | CallClose opq id => ret (Some (RqClose id opq))
  | CallStart opq id => ret (Some (RqStart id opq))
  | CallNodelay id => ret (Some (RqSetopt id TCP_NODELAY 1))
  | CallExit => ret (Some RqExit)
  end.

(** ... and the writing of the request. *)
Definition write_call (n : nat) (rq : option request) : M unit :=
  match rq with Some rq => send_request n rq | None => ret tt end.

(** Callers pass machine integers and identifiers they were given: not those of calls that
    have not written their request yet.  Host names have no zero byte, and not 232 bytes, the
    one length that is accepted and not decoded again; identifiers are left. *)
Definition issued (s : socket_server) (id : Z) : Prop := is_int id ∧ id <= alloc_id s.
Definition given (s : socket_server) (pend : list request) (id : Z) : Prop :=
  issued s id ∧ id ∉ omap opened pend.
Definition room (k : Z) (s : socket_server) : Prop := alloc_id s + k < 2 ^ 31.

Definition call_legal (s : socket_server) (pend : list request) (c : call) : Prop :=
  match c with
  | CallConnect opq addr port =>
      is_ptr opq ∧ is_int port ∧ Forall (λ b, b ≠ 0) addr ∧ length addr ≠ 232%nat ∧ room MAX_SOCKET s
  | CallListen opq _ _ _ | CallUdp opq _ _ => is_ptr opq ∧ room MAX_SOCKET s
  | CallBind opq fd => is_ptr opq ∧ is_int fd ∧ room MAX_SOCKET s
  | CallSend id b sz | CallSendLow id b sz => given s pend id ∧ is_ptr b ∧ is_int sz
  | CallUdpSend id addr b sz => given s pend id ∧ is_ptr b ∧ is_int sz
  | CallUdpConnect id _ _ => given s pend id
  | CallClose opq id | CallStart opq id => given s pend id ∧ is_ptr opq
  | CallNodelay id => given s pend id
  | CallExit => True
  end.

(** What the system answers: ints, and addresses with a port of two bytes. *)
Definition env_ok : Prop :=
  (∀ k, is_int (rv (os k))) ∧
  (∀ h p t l ai, getaddrinfo h p t = Some l → ai ∈ l →
     is_int (ai_family ai) ∧ length (sa_port (ai_addr ai)) = 2%nat).

(** A call is its two halves one after the other. *)
Lemma perform_call_halves n c w :
  perform_call n c w = (let! rq := prepare_call c in write_call n rq) w.
Proof.
  destruct c; try done; cbn [perform_call prepare_call];
    unfold socket_server_connect, socket_server_listen, socket_server_bind, socket_server_udp, socket_server_send,
      socket_server_send_lowpriority, socket_server_udp_send, socket_server_udp_connect, sent_size, get_slot, gets,
      bind, fail, ret;
    repeat (cbn beta iota zeta; cbn [write_call];
      match goal with
      | |- context [match ?x with _ => _ end] =>
          lazymatch x with context [match _ with _ => _ end] => fail | _ => destruct x end
      end); by repeat match goal with u : () |- _ => destruct u end.
Qed.

(** ** The first half of a call *)

Definition add_pending (rq : option request) (pend : list request) : list request :=
  match rq with Some rq => rq :: pend | None => pend end.

(** The second half writes the request; the first only prepares it. *)
Definition prepares (pend : list request) (w : world) (m : M (option request)) : Prop :=
  wp any_fault m (λ o w', ∃ rqs, protocol_inv (ss w') rqs (add_pending o pend)) w.

(** An operation that touches nothing and has no request to write. *)
Definition idle_end (m : M (option request)) : Prop := ∀ w, wp any_fault m (λ o w', o = None ∧ ss w' = ss w) w.

Lemma idle_ret : idle_end (ret None).
Proof. intros w. by wp_steps. Qed.

Lemma idle_then {A} (m : M A) : frozen m → idle_end (let! _ := m in ret None).
Proof. intros Hm w. apply wp_bind. eapply wp_mono; [apply Hm|]. cbn beta. intros a w1 E. by wp_steps. Qed.

Lemma idle_prepares rqs pend w m : protocol_inv (ss w) rqs pend → idle_end m → prepares pend w m.
Proof.
  intros Hinv Hm. eapply wp_mono; [apply Hm|]. cbn beta. intros o w' [-> E]. exists rqs. cbn. by rewrite E.
Qed.

Lemma request_prepares rqs pend w rq :
  protocol_inv (ss w) rqs pend → request_ok rq → opened rq = None →
  (∀ id, rq_id rq = Some id → id <= alloc_id (ss w) ∧ id ∉ omap opened pend) →
  prepares pend w (ret (Some rq)).
Proof. intros Hinv Hok Hop Hid. apply wp_ret. exists rqs. by apply begin_inv. Qed.

(** What comes before only looks at the server. *)
Lemma frozen_prepares {A} rqs pend w (m : M A) (k : A → M (option request)) (P : A → Prop) :
  protocol_inv (ss w) rqs pend → wp any_fault m (λ a w', ss w' = ss w ∧ P a) w →
  (∀ a w', P a → ss w' = ss w → protocol_inv (ss w') rqs pend → prepares pend w' (k a)) →
  prepares pend w (bind m k).
Proof.
  intros Hinv Hm Hk. apply wp_bind. eapply wp_mono; [exact Hm|]. cbn beta. intros a w1 [E Ha].
  apply Hk; [done|done|]. by rewrite E.
Qed.

(** Reserving a slot for the request that opens it. *)
Lemma reserve_prepares rqs pend w (rq : Z → request) (other : M (option request)) :
  protocol_inv (ss w) rqs pend → room MAX_SOCKET (ss w) → idle_end other →
  (∀ id, 0 <= id < 2 ^ 31 → request_ok (rq id) ∧ opened (rq id) = Some id) →
  prepares pend w (let! id := reserve_id in if id <? 0 then other else ret (Some (rq id))).
Proof.
  intros Hinv Hroom Hother Hrq. pose proof (pi_alloc _ _ _ Hinv) as Ha.
  unfold room in Hroom. apply wp_bind. unfold reserve_id.
  eapply wp_mono; [eapply wp_any, reserve_loop_fresh; [lia|change MAX_SOCKET with 65536 in *; lia]|].
  cbn beta. rewrite Z2Nat.id by done. intros id w1 (Hal & Hp & Hor).
  destruct (Z.ltb_spec id 0) as [Hneg|Hpos].
  - destruct Hor as [[-> Hs]|(? & ? & _)]; [|lia]. apply (idle_prepares rqs); [|done].
    eapply (grows_inv MAX_SOCKET); [exact Hinv| |done]. split; [done|]. split; [done|].
    intros j. unfold slot_at. by rewrite Hs.
  - destruct Hor as [[-> _]|(Hlt & Hid & Ht & Hs)]; [lia|]. destruct (Hrq id ltac:(lia)) as [Hok Hop].
    apply wp_ret. exists rqs. eapply (begin_open_inv (ss w) rqs pend _ (rq id) id); try done. lia.
Qed.

#[local] Opaque reserve_id.

Lemma do_bind_int host port proto w :
  env_ok → wp any_fault (do_bind host port proto) (λ b w', ss w' = ss w ∧ is_int b.1 ∧ is_int b.2) w.
Proof.
  intros (Hint & Hai). assert (is_int (-1) ∧ is_int 0) as [Hm1 H0] by (unfold is_int; lia).
  unfold do_bind, m_assert. destruct (_ || _); [|done]. wp_steps.
  destruct (getaddrinfo _ _ _) as [[|ai l]|] eqn:Eg; [done| |by wp_steps].
  destruct (Hai _ _ _ _ ai Eg) as [Hf _]; [apply list_elem_of_here|].
  wp_steps. pose proof (Hint (pos w)) as Hfd. destruct (_ <? 0); [by wp_steps|]. apply wp_bind.
  eapply wp_mono; [apply frozen_setsockopt|]. cbn beta. intros c w1 E1. cbn [ss] in E1.
  destruct (c =? -1); [by wp_steps|]. wp_steps. destruct (negb _); by wp_steps.
Qed.

Lemma do_listen_int host port backlog w :
  env_ok → wp any_fault (do_listen host port backlog) (λ f w', ss w' = ss w ∧ is_int f) w.
Proof.
  intros Hn. assert (is_int (-1)) as Hm1 by (unfold is_int; lia). unfold do_listen. apply wp_bind.
  eapply wp_mono; [by apply do_bind_int|]. cbn beta. intros [fd fam] w1 (E1 & Hfd & _). cbn [fst] in *.
  destruct (fd <? 0); [by wp_steps|]. wp_steps. destruct (_ =? _); by wp_steps.
Qed.

Lemma open_request_bind {A} (r : M Z) (other : M A) (k : Z → M A) w :
  (let! id := (let! id := r in if id <? 0 then ret (-1) else ret id) in if id <? 0 then other else k id) w =
  (let! id := r in if id <? 0 then other else k id) w.
Proof.
  unfold bind. destruct (r w) as [[id w1]|f]; [|done]. destruct (id <? 0) eqn:E; [done|]. unfold ret. by rewrite E.
Qed.

Ltac request_fits := intros; split; [|done]; cbn [request_ok]; unfold is_int in *; split_and!; try done; lia.

Section Prepare.
Context (Hn : env_ok) (w : world) (rqs pend : list request) (Hinv : protocol_inv (ss w) rqs pend).

Lemma connect_prepares opq addr port :
  call_legal (ss w) pend (CallConnect opq addr port) → prepares pend w (prepare_call (CallConnect opq addr port)).
Proof using Hinv.
  intros (Ho & Hp & Ha & Hl & Hroom). cbn [prepare_call]. unfold open_request, sizeof_open.
  destruct (Z.ltb_spec 256 (Z.of_nat (length addr) + 24)) as [Hlong|Hshort].
  { apply (idle_prepares rqs); [done|]. intros w1. by wp_steps. }
  unfold prepares, wp. rewrite open_request_bind.
  refine (reserve_prepares rqs pend w (λ id, RqOpen id port opq addr) _ Hinv Hroom idle_ret _). request_fits.
Qed.

Lemma listen_prepares opq addr port backlog :
  call_legal (ss w) pend (CallListen opq addr port backlog) →
  prepares pend w (prepare_call (CallListen opq addr port backlog)).
Proof using Hn Hinv.
  intros (Ho & Hroom). cbn [prepare_call].
  apply (frozen_prepares rqs _ _ _ _ is_int); [done|by apply do_listen_int|]. intros f w1 Hf E1 Hinv1.
  destruct (f <? 0); [by apply (idle_prepares rqs), idle_ret|]. rewrite <- E1 in Hroom.
  apply (reserve_prepares rqs pend w1 (λ id, RqListen id f opq)); [done..|apply idle_then; frozen|]. request_fits.
Qed.

Lemma udp_prepares opq addr port :
  call_legal (ss w) pend (CallUdp opq addr port) → prepares pend w (prepare_call (CallUdp opq addr port)).
Proof using Hn Hinv.
  intros (Ho & Hroom). cbn [prepare_call].
  apply (frozen_prepares rqs _ _ _ _ (λ b, is_int b.1 ∧ is_int b.2)); [done| |].
  { destruct (_ || _); [by apply do_bind_int|]. wp_steps. split; [done|]. split; [apply Hn|done]. }
  intros [fd fam] w1 [Hfd Hfam] E1 Hinv1. cbn [fst snd] in *.
  destruct (fd <? 0); [by apply (idle_prepares rqs), idle_ret|].
  apply (frozen_prepares rqs _ _ _ _ (λ _, True)); [done|eapply wp_mono; [apply frozen_sp_nonblocking|done]|].
  intros _ w2 _ E2 Hinv2. rewrite <- E1, <- E2 in Hroom.
  apply (reserve_prepares rqs pend w2 (λ id, RqUdp id fd fam opq)); [done..|apply idle_then; frozen|]. request_fits.
Qed.

(** A send prepares its request only when the slot is in use. *)
Lemma send_slot_frozen id b sz : frozen (send_slot id b sz).
Proof using. unfold send_slot. frozen. Qed.

Lemma send_prepares id b sz (k : option socket → M (option request)) :
  (∀ s w', ss w' = ss w → protocol_inv (ss w') rqs pend → prepares pend w' (k s)) →
  prepares pend w (let! s := send_slot id b sz in k s).
Proof using Hinv.
  intros Hk. apply (frozen_prepares rqs _ _ _ _ (λ _, True)); [done| |by intros s w' _; apply Hk].
  eapply wp_mono; [apply send_slot_frozen|done].
Qed.

Lemma length_udp_address proto sa : length (sa_port sa) = 2%nat → (length (gen_udp_address proto sa) <= 19)%nat.
Proof using. intros Hp. unfold gen_udp_address. destruct (_ =? _); rewrite !length_app, length_take, Hp; cbn [length]; lia. Qed.

Lemma udp_send_prepares id addr b sz :
  call_legal (ss w) pend (CallUdpSend id addr b sz) → prepares pend w (prepare_call (CallUdpSend id addr b sz)).
Proof using Hinv.
  intros (((Hi & Hle) & Hno) & Hb & Hsz). cbn [prepare_call]. apply send_prepares. intros s w1 E1 Hinv1.
  destruct s; [|by apply (idle_prepares rqs), idle_ret].
  destruct (udp_addrsz addr) as [m|] eqn:Em; [|apply (idle_prepares rqs); [done|apply idle_then; frozen]].
  apply (request_prepares rqs); try done.
  - cbn. split_and!; try done. unfold udp_addrsz in Em. rewrite length_take.
    destruct (_ =? _); [injection Em as <-; lia|]. destruct (_ =? _); [injection Em as <-; lia|done].
  - rewrite E1. by intros id' [= <-].
Qed.

Lemma udp_connect_prepares id addr port :
  call_legal (ss w) pend (CallUdpConnect id addr port) → prepares pend w (prepare_call (CallUdpConnect id addr port)).
Proof using Hn Hinv.
  intros ((Hi & Hle) & Hno). cbn [prepare_call].
  destruct (getaddrinfo _ _ _) as [[|ai l]|] eqn:Eg; [done| |by apply (idle_prepares rqs), idle_ret].
  destruct (proj2 Hn _ _ _ _ ai Eg) as [_ Hport]; [apply list_elem_of_here|].
  destruct (_ || _); [|by apply (idle_prepares rqs), idle_ret]. apply (request_prepares rqs); try done.
  - cbn. split; [done|]. by apply length_udp_address.
  - by intros id' [= <-].
Qed.

Lemma call_prepares c : call_legal (ss w) pend c → prepares pend w (prepare_call c).
Proof using Hn Hinv.
  intros Hc. destruct c.
  - by apply connect_prepares.
  - by apply listen_prepares.
  - destruct Hc as (Ho & Hf & Hroom).
    apply (reserve_prepares rqs pend w (λ id, RqBind id fd opq)); [done..|apply idle_ret|]. request_fits.
  - by apply udp_prepares.
  - destruct Hc as (((Hi & Hle) & Hno) & Hb & Hsz). apply send_prepares. intros s w1 E1 Hinv1.
    destruct s; [|by apply (idle_prepares rqs), idle_ret]. apply (request_prepares rqs); try done.
    rewrite E1. by intros id' [= <-].
  - destruct Hc as (((Hi & Hle) & Hno) & Hb & Hsz). apply send_prepares. intros s w1 E1 Hinv1.
    destruct s; [|by apply (idle_prepares rqs), idle_ret]. apply (request_prepares rqs); try done.
    rewrite E1. by intros id' [= <-].
  - by apply udp_send_prepares.
  - by apply udp_connect_prepares.
  - destruct Hc as (((Hi & Hle) & Hno) & Ho). apply (request_prepares rqs); try done. by intros id' [= <-].
  - destruct Hc as (((Hi & Hle) & Hno) & Ho). apply (request_prepares rqs); try done. by intros id' [= <-].
  - destruct Hc as ((Hi & Hle) & Hno). apply (request_prepares rqs); try done. by intros id' [= <-].
  - by apply (request_prepares rqs).
Qed.
End Prepare.

(** ** Every run *)

(** The states of a server that was created and then used with legal calls, with the
    requests that callers are about to write.  A step is the first half of a call, the
    writing of a request, or one round of the server thread's loop, which handles one request
    of the pipe or one event. *)
Inductive reachable (n : nat) : world → list request → Prop :=
| reach_create w w' : socket_server_create w = Ok (true, w') → reachable n w' []
| reach_prepare w pend c rq w' :
    reachable n w pend → call_legal (ss w) pend c → prepare_call c w = Ok (rq, w') →
    reachable n w' (add_pending rq pend)
| reach_write w pend rq pend' w' :
    reachable n w pend → pend ≡ₚ rq :: pend' → send_request n rq w = Ok (tt, w') → reachable n w' pend'
| reach_round w pend more r w' :
    reachable n w pend → room MAX_SOCKET (ss w) → poll_round n more w = Ok (r, w') → reachable n w' pend.

Lemma fresh_server_inv s :
  slot s = ∅ → alloc_id s = 0 → pipe s = [] → protocol_inv s [] [].
Proof.
  intros Hs Ha Hp. assert (∀ j, slot_at s j = socket0) as Hslot.
  { intros j. unfold slot_at. by rewrite Hs, lookup_empty. }
  constructor; try done.
  - rewrite Ha. lia.
  - intros rq id Hin. by apply not_elem_of_nil in Hin.
  - intros j id. rewrite Hslot. split; [done|]. intros [_ Hin]. by apply not_elem_of_nil in Hin.
  - intros rq pend' id Hperm. by apply Permutation_nil_cons in Hperm.
  - intros j. by rewrite Hslot.
Qed.

Definition protocol_holds (w : world) (pend : list request) : Prop := ∃ rqs, protocol_inv (ss w) rqs pend.

Lemma create_holds w w' : socket_server_create w = Ok (true, w') → protocol_holds w' [].
Proof.
  intros E. assert (wp any_fault socket_server_create (λ b w', b = true → protocol_holds w' []) w) as Hw.
  { unfold socket_server_create. apply wp_bind. unfold sp_create. wp_steps. destruct (sp_invalid _); [by wp_steps|].
    wp_steps. destruct (negb _); [by wp_steps|]. apply wp_bind. eapply wp_mono; [apply frozen_sp_add|].
    cbn beta. intros failed w1 _. destruct failed; [by wp_steps|]. wp_steps.
    eapply wp_mono; [apply frozen_assert|]. cbn beta. intros _ w2 E2. apply wp_ret. intros _. exists [].
    rewrite E2. by apply fresh_server_inv. }
  unfold wp in Hw. rewrite E in Hw. by apply Hw.
Qed.

Lemma reachable_holds n w pend : env_ok → reachable n w pend → protocol_holds w pend.
Proof.
  intros Hn. induction 1 as [w w' E|w pend c rq w' _ [rqs Hinv] Hc E|w pend rq pend' w' _ [rqs Hinv] Hp E
                            |w pend more r w' _ [rqs Hinv] Hroom E].
  - by eapply create_holds.
  - pose proof (call_prepares Hn w rqs pend Hinv c Hc) as Hw. unfold prepares, wp in Hw. by rewrite E in Hw.
  - pose proof (send_request_any n rq w) as Hw. unfold wp in Hw. rewrite E in Hw. destruct Hw as (Hss & _ & _).
    exists (rqs ++ [rq]). rewrite Hss. by eapply write_inv.
  - pose proof (poll_round_keeps n more w rqs pend Hinv Hroom) as Hw. unfold keeps_protocol, wp in Hw.
    rewrite E in Hw. apply Hw.
Qed.

(** Whole calls and whole polls are such steps. *)
Lemma reachable_call n w pend c w' :
  reachable n w pend → call_legal (ss w) pend c → perform_call n c w = Ok (tt, w') → reachable n w' pend.
Proof.
  intros Hr Hc E. rewrite perform_call_halves in E. unfold bind in E.
  destruct (prepare_call c w) as [[[rq|] w1]|] eqn:E1; [| |done];
    pose proof (reach_prepare n w pend c _ w1 Hr Hc E1) as Hr1; cbn in E.
  - by apply (reach_write n w1 (rq :: pend) rq pend).
  - by injection E as <-.
Qed.

Lemma reachable_poll n fuel : ∀ w pend more r w',
  env_ok → reachable n w pend → room (MAX_SOCKET * Z.of_nat fuel) (ss w) →
  socket_server_poll fuel n more w = Ok (r, w') → reachable n w' pend.
Proof.
  unfold room. change MAX_SOCKET with 65536. induction fuel as [|fuel IH]; intros w pend more r w' Hn Hr Hroom E; [done|].
  cbn [socket_server_poll] in E. unfold bind in E.
  destruct (poll_round n more w) as [[[t more'] w1]|] eqn:E1; [|done].
  assert (room MAX_SOCKET (ss w)) as Hroom1 by (unfold room; change MAX_SOCKET with 65536; lia).
  pose proof (reach_round n w pend more _ w1 Hr Hroom1 E1) as Hr1. cbn [fst snd] in E. destruct t as [ty|].
  - by injection E as <- <-.
  - destruct (reachable_holds n w pend Hn Hr) as [rqs Hinv].
    pose proof (poll_round_keeps n more w rqs pend Hinv Hroom1) as Hw. unfold keeps_protocol, wp in Hw.
    rewrite E1 in Hw. destruct Hw as [_ Ha]. change MAX_SOCKET with 65536 in Ha. eapply (IH w1); try done. lia.
Qed.

(** Each socket is opened once. *)
Lemma ordered_once rqs : ordered rqs → NoDup (omap opened rqs).
Proof.
  induction rqs as [|rq rqs IH]; cbn; intros Ho; [constructor|]. destruct Ho as [Hrq Ho].
  destruct (opened rq) as [id|] eqn:Hop; [|by apply IH]. cbn. constructor; [|by apply IH].
  by apply Hrq, opened_id.
Qed.

Lemma opened_once s rqs pend : protocol_inv s rqs pend → NoDup (omap opened (rqs ++ pend)).
Proof.
  intros Hinv. rewrite omap_app. apply list.NoDup_app. split; [apply ordered_once, Hinv|]. split.
  - intros id Hin. apply list_elem_of_omap in Hin as (rq & Hrq & Hop).
    eapply named_not_pending; [done..|by apply opened_id].
  - assert (∀ rq pend' id, pend ≡ₚ rq :: pend' → opened rq = Some id → ∀ rq', rq' ∈ pend' → rq_id rq' ≠ Some id) as Hp.
    { intros rq pend' id Hperm Hop rq' Hin. apply (pi_pending _ _ _ Hinv rq pend' id Hperm Hop).
      apply elem_of_app. by right. }
    clear Hinv. induction pend as [|rq pend IH]; [constructor|]. cbn.
    assert (NoDup (omap opened pend)) as Hnd.
    { apply IH. intros r pend' id Hperm Hop rq' Hin. apply (Hp r (rq :: pend') id); [|done|by right].
      rewrite Hperm. apply Permutation_swap. }
    destruct (opened rq) as [id|] eqn:Hop; [|done]. cbn. constructor; [|done]. intros Hin.
    apply list_elem_of_omap in Hin as (r & Hr & Hopr). by apply (Hp rq pend id (reflexivity _) Hop r Hr), opened_id.
Qed.

(** C6: callers interleave the public calls of socket_server.c with each other and with the
    rounds of the server thread's loop, each call in two steps, one up to the call of
    send_request and one that writes the request; reserve_id is part of the first.  Callers
    pass machine integers, use identifiers they were given and no host name of exactly 232
    bytes ([connect_long_host_undefined]), and the identifiers have not run around 2^31.
    Then the bytes in the control pipe are always a sequence of complete, well-formed
    requests; a slot is in state RESERVE, under an identifier, exactly while a request that
    opens that identifier is in the pipe or about to be written, and there is only one; no
    request names an identifier that was not handed out. *)
Theorem pipe_holds_requests n w pend :
  env_ok → reachable n w pend →
  ∃ rqs, pipe (ss w) = mjoin (frame <$> rqs) ∧ Forall request_ok rqs ∧
    (∀ j id, type (slot_at (ss w) j) = SOCKET_TYPE_RESERVE ∧ sid (slot_at (ss w) j) = id
             ↔ HASH_ID id = j ∧ id ∈ omap opened (rqs ++ pend)) ∧
    NoDup (omap opened (rqs ++ pend)) ∧
    (∀ rq id, rq ∈ rqs ++ pend → rq_id rq = Some id → id <= alloc_id (ss w)).
Proof.
  intros Hn Hr. destruct (reachable_holds n w pend Hn Hr) as [rqs Hinv]. pose proof (opened_once _ _ _ Hinv) as Hnd.
  destruct Hinv as [Hp [Hok _] _ Hi Hres _ _ _].
  exists rqs. split_and!; try done. intros j id. rewrite <- Hres. unfold reserved_as.
  destruct (Z.eqb_spec (type (slot_at (ss w) j)) SOCKET_TYPE_RESERVE); [|by split; [intros []|]].
  split; [by intros [_ ->]|by intros [= <-]].
Qed.

(** The pipe can be parsed in one way only. *)
Lemma pipe_head_unique n rq rq' b b' w r w1 :
  request_ok rq → request_ok rq' → read_request n w = Ok (r, w1) →
  pipe (ss w) = frame rq ++ b → pipe (ss w) = frame rq' ++ b' → received rq = received rq' ∧ b = b'.
Proof.
  intros Hok Hok' E Hp Hp'. pose proof (read_request_any n rq w b Hok Hp) as Hr.
  pose proof (read_request_any n rq' w b' Hok' Hp') as Hr'. unfold wp in *. rewrite E in Hr, Hr'.
  destruct Hr as (-> & Hs & _), Hr' as ([= Er] & Hs' & _). split; [done|].
  rewrite Hs in Hs'. by injection Hs'.
Qed.

(** C5: in such a run, with the two halves of the calls and the rounds of the server thread
    interleaved in any way, a request that opens a socket (connect, listen, bind, udp) finds,
    when the server thread takes it from the pipe, the slot that was reserved for it, still
    reserved and with empty send lists, so that handling it meets none of the assertions of
    new_fd and open_socket: once the pipe is read it always completes, whatever the system
    answers, ends the reservation and touches no other slot.  reserve_id is a single step
    here; a stale request handled inside it, between its compare-and-swap and its store to the
    identifier, is what [SocketReserve] shows to break this. *)
Theorem opening_never_fails n w pend rq rest id r w1 :
  env_ok → reachable n w pend → request_ok rq → opened rq = Some id →
  pipe (ss w) = frame rq ++ rest → read_request n w = Ok (r, w1) →
  type (slot_at (ss w) (HASH_ID id)) = SOCKET_TYPE_RESERVE ∧ sid (slot_at (ss w) (HASH_ID id)) = id ∧
  ∃ t w', ctrl_cmd n w = Ok (t, w') ∧ pipe (ss w') = rest ∧
    type (slot_at (ss w') (HASH_ID id)) ≠ SOCKET_TYPE_RESERVE ∧
    ∀ j, j ≠ HASH_ID id → slot_at (ss w') j = slot_at (ss w) j.
Proof.
  intros Hn Hr Hok Hop Hp Hread. destruct (reachable_holds n w pend Hn Hr) as [rqs Hinv].
  assert (∃ rq' rqs', rqs = rq' :: rqs' ∧ opened rq' = Some id) as (rq' & rqs' & -> & Hop').
  { destruct rqs as [|rq' rqs']; [by rewrite (pi_pipe _ _ _ Hinv) in Hp|]. exists rq', rqs'. split; [done|].
    pose proof (proj1 (pi_ok _ _ _ Hinv)) as [Hok' _]%Forall_cons_1.
    destruct (pipe_head_unique n rq rq' rest (mjoin (frame <$> rqs')) w r w1) as [E _]; try done; [apply Hinv|].
    by rewrite <- opened_received, <- E, opened_received. }
  destruct (head_reserved _ _ _ _ _ Hinv Hop') as (Ht & Hs & Hh & Hl). split; [done|]. split; [done|].
  pose proof (read_request_any n rq w rest Hok Hp) as Hrd. unfold wp in Hrd. rewrite Hread in Hrd.
  destruct Hrd as (-> & Hss & _).
  assert (wp no_fault (dispatch n (received rq)) (λ _ w', opens id (ss w1) (ss w')) w1) as Hw.
  { apply dispatch_opens; [by rewrite opened_received|]. unfold waiting. by rewrite Hss. }
  unfold ctrl_cmd, bind. rewrite Hread. unfold wp in Hw.
  destruct (dispatch n (received rq) w1) as [[t w']|f]; [|done]. rewrite Hss in Hw.
  destruct Hw as ((E1 & _ & E3) & Hnone & _). exists t, w'. split_and!; try done.
  intros Hr'. unfold reserved_as in Hnone. by rewrite Hr' in Hnone.
Qed.
End Server.

(** A server on which one descriptor was bound, and another is about to be. *)
Definition quiet_env : Env := const_env 0 0.
Definition after {A} (r : res (A * world)) : world := match r with Ok (_, w) => w | Fault _ => world0 end.
Definition created_world : world := after (@socket_server_create quiet_env world0).
Definition bound_world : world := after (@perform_call quiet_env 1 (CallBind 7 5) created_world).
Definition binding_world : world := after (@prepare_call quiet_env (CallBind 7 6) bound_world).

Lemma quiet_env_ok : @env_ok quiet_env.
Proof. split; [intros k; cbn; unfold is_int; lia|done]. Qed.

Lemma binding_world_reachable : @reachable quiet_env 1 binding_world [RqBind 2 6 7].
Proof.
  eapply (reach_prepare 1 bound_world [] (CallBind 7 6) (Some (RqBind 2 6 7))).
  - eapply (reachable_call 1 created_world [] (CallBind 7 5)).
    + apply (reach_create 1 world0). vm_compute. reflexivity.
    + cbn. unfold is_ptr, is_int, room. vm_compute. intuition congruence.
    + vm_compute. reflexivity.
  - cbn. unfold is_ptr, is_int, room. vm_compute. intuition congruence.
  - vm_compute. reflexivity.
Qed.

Lemma pipe_holds_requests_witness :
  ∃ rqs, pipe (ss binding_world) = mjoin (frame <$> rqs) ∧ Forall request_ok rqs ∧ pipe (ss binding_world) ≠ [].
Proof.
  destruct (@pipe_holds_requests quiet_env 1 binding_world [RqBind 2 6 7] quiet_env_ok binding_world_reachable)
    as (rqs & Hp & Hok & _).
  exists rqs. split; [exact Hp|]. split; [exact Hok|]. vm_compute. discriminate.
Defined.

Lemma opening_never_fails_witness :
  ∃ t w', @ctrl_cmd quiet_env 1 binding_world = Ok (t, w') ∧ pipe (ss w') = [] ∧
    type (slot_at (ss w') 1) ≠ SOCKET_TYPE_RESERVE.
Proof.
  destruct (@opening_never_fails quiet_env 1 binding_world [RqBind 2 6 7] (RqBind 1 5 7) [] 1
    (Some (RqBind 1 5 7)) (after (@read_request quiet_env 1 binding_world))
    quiet_env_ok binding_world_reachable) as (_ & _ & t & w' & Hc & Hp & Ht & _).
  - cbn. unfold is_int, is_ptr. lia.
  - reflexivity.
  - vm_compute. reflexivity.
  - vm_compute. reflexivity.
  - exists t, w'. split; [exact Hc|]. split; [exact Hp|]. exact Ht.
Defined.
