(* ===== verification/SocketTable.v ===== *)
(** * The receiving thread on top of the socket server
      (src/network/socket/server_logic.cpp with socket_server.c)

    The handlers of the receiving thread keep a table of clients by identifier, and the
    socket server a slot for every connection; the messages of socket_server_poll are all
    that ties them together.  The file composes both: rounds of the receiving thread, with
    sends of the command thread between them.  In every run the table has exactly the
    connections that were accepted and not closed, so that data never arrives for an unknown
    client; and the round in which the first of them is closed has undefined behaviour. *)

From S2P Require Import Prelude Unpack PacketPool Context SocketMessage ServerLogic SocketState SocketSend SocketPoll SocketProtocol.

(** ** One round *)

Section Round.
Context `{Env}.

(** The address of an accepted peer is a C string in the server's buffer. *)
Definition with_nul (type : Z) (m : socket_message) : socket_message :=
  if type =? SOCKET_ACCEPT then mk_msg (msg_id m) (msg_opaque m) (msg_ud m) ((λ text, text ++ [0]) <$> msg_data m) else m.

(** _ProcessOneLoop with the poll in it; the loop of the thread repeats it. *)
Definition receive_round (retries fuel mfuel : nat) (now : nat → Z) (seq : Z) (w : world) (W : server)
    : res (world * server) :=
  '(type, w) ← (let! r := socket_server_poll fuel retries None in ret r.1) w;
  '(W, start) ← _ProcessOneLoop mfuel now seq W type (with_nul type (result w));
  match start with
  | Some iClientFd =>
      '(_, w) ← socket_server_start retries NETWORK_SOCKET_SERVER_OPAQUE iClientFd w;
      Ok (w, W)
  | None => Ok (w, W)
  end.

(** SocketServer::Init after its pipe was made: the state the threads start from. *)
Definition listening_server (retries : nat) (addr : option (list Z)) (port backlog : Z) : M Z :=
  let! created := socket_server_create in
  m_assert created ;;;
  let! l := socket_server_listen retries NETWORK_SOCKET_SERVER_OPAQUE addr port backlog in
  socket_server_start retries NETWORK_SOCKET_SERVER_OPAQUE l ;;;
  ret l.

End Round.

(** ** The connections of the server *)

(** The identifier of an accepted connection. *)
Definition client_of (x : socket) : option Z :=
  if (type x =? SOCKET_TYPE_PACCEPT) || (type x =? SOCKET_TYPE_CONNECTED) then Some (sid x) else None.

Definition clients (s : socket_server) (i : Z) : option Z := client_of (slot_at s i).

(** The types of slot a listening server has, each in the place of its identifier. *)
Definition slot_ok (i : Z) (x : socket) : Prop :=
  type x ∈ [SOCKET_TYPE_INVALID; SOCKET_TYPE_RESERVE; SOCKET_TYPE_PLISTEN; SOCKET_TYPE_LISTEN;
            SOCKET_TYPE_PACCEPT; SOCKET_TYPE_CONNECTED] ∧
  (type x ≠ SOCKET_TYPE_INVALID → HASH_ID (sid x) = i).
Definition slots_ok (s : socket_server) : Prop := ∀ i, slot_ok i (slot_at s i).

(** The requests a listening server makes. *)
Definition own_request (rq : request) : Prop :=
  match rq with RqListen _ _ _ | RqStart _ _ | RqSend _ _ _ => True | _ => False end.

(** What a poll that reports [ty] with [m] has done to the connections. *)
Inductive change (c c' : Z → option Z) : Z → socket_message → Prop :=
| change_none ty m :
    ty ∉ [SOCKET_DATA; SOCKET_CLOSE; SOCKET_ACCEPT; SOCKET_ERROR] → (∀ i, c' i = c i) → change c c' ty m
| change_closed ty m :
    ty = SOCKET_CLOSE ∨ ty = SOCKET_ERROR →
    (∀ i, c' i = if decide (c i = Some (msg_id m)) then None else c i) → change c c' ty m
| change_accepted m :
    c (HASH_ID (msg_ud m)) = None →
    (∀ i, c' i = if decide (i = HASH_ID (msg_ud m)) then Some (msg_ud m) else c i) → change c c' SOCKET_ACCEPT m
| change_data m i data :
    c i = Some (msg_id m) → msg_data m = Some data → msg_ud m = Z.of_nat (length data) → 0 < msg_ud m →
    (∀ i, c' i = c i) → change c c' SOCKET_DATA m.

Lemma change_after c0 c c' ty m : (∀ i, c i = c0 i) → change c c' ty m → change c0 c' ty m.
Proof.
  intros E [ty' m' Hty Hc|ty' m' Hty Hc|m' Hf Hc|m' i data Hi Hd Hl Hp Hc].
  - apply change_none; [done|]. intros i. by rewrite Hc.
  - apply change_closed; [done|]. intros i. by rewrite Hc, E.
  - apply change_accepted; [by rewrite <- E|]. intros i. by rewrite Hc, E.
  - apply (change_data _ _ _ i data); rewrite <- ?E; try done. intros j. by rewrite Hc.
Qed.

(** ** What the operations do to a slot *)

Definition same_slot (x y : socket) : Prop := type y = type x ∧ sid y = sid x.
Definition events (s : socket_server) : Z * Z * list event := (event_n s, event_index s, ev s).
Definition same (s s' : socket_server) : Prop :=
  events s' = events s ∧ ∀ i, same_slot (slot_at s i) (slot_at s' i).

#[export] Instance same_preorder : PreOrder same.
Proof.
  split; [by intros s|]. intros x y z [E1 H1] [E2 H2]. split; [congruence|].
  intros i. destruct (H1 i), (H2 i). split; congruence.
Qed.

(** Slot [i] was closed and the message names it. *)
Definition closed (i : Z) (w w' : world) : Prop :=
  events (ss w') = events (ss w) ∧ (∀ j, j ≠ i → same_slot (slot_at (ss w) j) (slot_at (ss w') j)) ∧
  type (slot_at (ss w') i) = SOCKET_TYPE_INVALID ∧ sid (slot_at (ss w') i) = sid (slot_at (ss w) i) ∧
  msg_id (result w') = sid (slot_at (ss w) i).

Lemma same_eq s s' : s' = s → same s s'.
Proof. by intros ->. Qed.

Lemma same_closed i w w1 w2 : same (ss w) (ss w1) → closed i w1 w2 → closed i w w2.
Proof.
  intros [E Hs] (E' & Hj & Ht & Hi & Hm). pose proof (Hs i) as [Ht1 Hi1]. split; [congruence|].
  split; [|split_and!; congruence].
  intros j Hne. destruct (Hs j), (Hj j Hne). split; congruence.
Qed.

Lemma same_put s i x : same_slot (slot_at s i) x → same s (with_slot s (<[i := x]> (slot s))).
Proof. intros Hx. split; [done|]. intros j. rewrite slot_at_insert. case_decide; [by subst|done]. Qed.

Lemma clients_same s s' : same s s' → ∀ i, clients s' i = clients s i.
Proof. intros [_ Hs] i. unfold clients, client_of. destruct (Hs i) as [-> ->]. done. Qed.

Lemma slots_same s s' : same s s' → slots_ok s → slots_ok s'.
Proof. intros [_ Hs] Hok i. unfold slot_ok. destruct (Hs i) as [-> ->]. apply Hok. Qed.

Lemma client_home s i id : slots_ok s → clients s i = Some id →
  HASH_ID id = i ∧ sid (slot_at s i) = id ∧ type (slot_at s i) ≠ SOCKET_TYPE_INVALID.
Proof.
  intros Hok. unfold clients, client_of. destruct (_ || _) eqn:E; [|done]. intros [= <-].
  assert (type (slot_at s i) ≠ SOCKET_TYPE_INVALID) as Ht by (intros Ht; by rewrite Ht in E).
  split; [|done]. by apply Hok.
Qed.

Lemma no_client_invalid s i : type (slot_at s i) = SOCKET_TYPE_INVALID → clients s i = None.
Proof. unfold clients, client_of. by intros ->. Qed.

Lemma closed_change i w w' ty :
  slots_ok (ss w) → type (slot_at (ss w) i) ≠ SOCKET_TYPE_INVALID → closed i w w' →
  ty = SOCKET_CLOSE ∨ ty = SOCKET_ERROR →
  slots_ok (ss w') ∧ change (clients (ss w)) (clients (ss w')) ty (result w').
Proof.
  intros Hok Hlive (_ & Hj & Ht & Hi & Hm) Hty. split.
  - intros j. destruct (decide (j = i)) as [->|Hne].
    + unfold slot_ok. rewrite Ht. split; [apply list_elem_of_here|done].
    + unfold slot_ok. destruct (Hj j Hne) as [-> ->]. apply Hok.
  - apply change_closed; [done|]. intros j. destruct (decide (j = i)) as [->|Hne].
    + rewrite (no_client_invalid _ _ Ht). rewrite Hm.
      destruct (clients (ss w) i) as [id|] eqn:E; [|by rewrite decide_False].
      destruct (client_home _ _ _ Hok E) as (_ & -> & _). by rewrite decide_True.
    + assert (clients (ss w') j = clients (ss w) j) as ->.
      { unfold clients, client_of. destruct (Hj j Hne) as [-> ->]. done. }
      rewrite decide_False; [done|]. intros E. rewrite Hm in E.
      destruct (client_home _ _ _ Hok E) as (Hh & _). apply Hne. rewrite <- Hh. by apply Hok.
Qed.

Section Effects.
Context `{Env}.

Lemma wp_frozen {A B} (m : M A) (k : A → M B) Q w :
  frozen m → (∀ a w1, ss w1 = ss w → wp any_fault (k a) Q w1) → wp any_fault (bind m k) Q w.
Proof. intros Hm Hk. apply wp_bind. eapply wp_mono; [apply Hm|]. cbn beta. apply Hk. Qed.

Lemma force_close_closed i w : wp any_fault (force_close i) (λ _ w', closed i w w') w.
Proof.
  unfold force_close. wp_steps. destruct (Z.eqb_spec (type (slot_at (ss w) i)) SOCKET_TYPE_INVALID) as [Ht|Ht].
  { wp_steps. by split_and!. }
  set (P := λ w1 : world, ss w1 = ss w ∧ msg_id (result w1) = sid (slot_at (ss w) i)).
  assert (P (mk_world (ss w) (mk_msg (sid (slot_at (ss w) i)) (opaque (slot_at (ss w) i)) 0 None) (pos w) (log w)))
    as HP by done. revert HP.
  generalize (mk_world (ss w) (mk_msg (sid (slot_at (ss w) i)) (opaque (slot_at (ss w) i)) 0 None) (pos w) (log w)).
  intros w1 HP. unfold m_assert. destruct (negb _); [|done]. wp_steps.
  assert (Hfree : ∀ l w1, P w1 → wp any_fault (free_wb_list l) (λ _ w', P w') w1).
  { induction l as [|wb l IH]; intros w2 H2; cbn [free_wb_list]; wp_steps; [done|]. by apply IH. }
  eapply wp_mono; [by apply Hfree|]. cbn beta. intros _ w2 H2. wp_steps.
  eapply wp_mono; [by apply Hfree|]. cbn beta. intros _ w3 H3. wp_steps.
  set (x := with_type _ _).
  assert (∀ w4, P w4 → closed i w (mk_world (with_slot (ss w4) (<[i := x]> (slot (ss w4)))) (result w4) (pos w4) (log w4)))
    as Hput.
  { intros w4 [E4 Hm]. cbn. rewrite E4. split; cbn [ss result].
    - done.
    - split; [intros j Hj; by rewrite slot_at_insert, decide_False by done|].
      by rewrite slot_at_insert, decide_True by done. }
  apply wp_when; intros _; wp_steps; apply wp_when; intros _; wp_steps; apply Hput; exact H3.
Qed.

(** Sending either leaves types and identifiers alone or closes the slot. *)
Definition sent (i ty : Z) (w w' : world) : Prop :=
  ty = -1 ∧ same (ss w) (ss w') ∨ ty = SOCKET_CLOSE ∧ closed i w w'.

Lemma sent_after i ty w w1 w2 : same (ss w) (ss w1) → sent i ty w1 w2 → sent i ty w w2.
Proof.
  intros Hs [[-> H1]|[-> H1]]; [left|right]; (split; [done|]); [by etrans|by eapply same_closed].
Qed.

Lemma close_sent i w : wp any_fault (force_close i ;;; ret SOCKET_CLOSE) (λ t w', sent i t w w') w.
Proof.
  apply wp_bind. eapply wp_mono; [apply force_close_closed|]. cbn beta. intros _ w1 Hc. wp_steps. by right.
Qed.

Lemma send_list_tcp_sent n i hi bufs : ∀ w, wp any_fault (send_list_tcp n bufs i hi) (λ t w', sent i t w w') w.
Proof.
  induction bufs as [|wb bufs IH]; intros w; cbn [send_list_tcp]; [wp_steps; by left|].
  wp_steps. eapply wp_mono; [apply frozen_write_retry|]. cbn beta. intros [sz e] w1 E1. cbn [fst snd].
  apply same_eq in E1 as S1.
  destruct (sz <? 0).
  { destruct (e =? EAGAIN); [wp_steps; left; by split|].
    eapply wp_mono; [apply close_sent|]. cbn beta. intros t w2. by apply sent_after. }
  destruct (negb _); wp_steps.
  - left. split; [done|]. cbn [ss]. rewrite E1. apply same_put. by destruct hi.
  - eapply wp_mono; [apply IH|]. cbn beta. intros t w2. apply sent_after. cbn [ss]. rewrite E1. apply same_put. by destruct hi.
Qed.

Lemma send_list_udp_sent i hi bufs : ∀ w, wp any_fault (send_list_udp bufs i hi) (λ t w', sent i t w w') w.
Proof.
  induction bufs as [|wb bufs IH]; intros w; cbn [send_list_udp]; [wp_steps; by left|].
  wp_steps. eapply wp_mono; [apply frozen_sys_sendto|]. cbn beta. intros [sz e] w1 E1. cbn [fst snd].
  destruct (sz <? 0); wp_steps; [left; split; [done|by apply same_eq]|].
  eapply wp_mono; [apply IH|]. cbn beta. intros t w2. apply sent_after. cbn [ss]. rewrite E1. apply same_put. by destruct hi.
Qed.

Lemma send_list_sent n i hi w : wp any_fault (send_list n i hi) (λ t w', sent i t w w') w.
Proof.
  unfold send_list. wp_steps. destruct (_ =? _); [apply send_list_tcp_sent|apply send_list_udp_sent].
Qed.

Lemma raise_same i w : wp any_fault (raise_uncomplete i) (λ _ w', same (ss w) (ss w')) w.
Proof.
  unfold raise_uncomplete. wp_steps. destruct (low _) as [|wb l]; [done|].
  unfold m_assert. destruct (high _); [|done]. wp_steps. by apply same_put.
Qed.

Lemma send_buffer_sent n i w : wp any_fault (send_buffer n i) (λ t w', sent i t w w') w.
Proof.
  unfold send_buffer, m_assert. wp_steps. destruct (negb _); [|done]. wp_steps.
  eapply wp_mono; [apply send_list_sent|]. cbn beta. intros t w1 [[-> S1]|[-> C1]]; cbn beta iota; [|wp_steps; by right].
  change (-1 =? SOCKET_CLOSE) with false. cbn iota. wp_steps. destruct (high _); [|wp_steps; by left].
  destruct (low _) as [|wb l].
  - wp_steps. destruct (_ =? _); [|wp_steps; by left].
    eapply wp_mono; [apply close_sent|]. cbn beta. intros t w2. by apply sent_after.
  - wp_steps. eapply wp_mono; [apply send_list_sent|]. cbn beta. intros t w2 [[-> S2]|[-> C2]].
    + change (-1 =? SOCKET_CLOSE) with false. cbn iota. wp_steps.
      assert (same (ss w) (ss w2)) as S12 by by etrans.
      apply wp_when; [|wp_steps; by left]. intros _. eapply wp_mono; [apply raise_same|]. cbn beta. intros _ w3 S3.
      wp_steps. left. split; [done|by etrans].
    + wp_steps. right. split; [done|]. by eapply same_closed.
Qed.

(** A buffer is queued. *)
Lemma append_same i object sz n w : wp any_fault (append_sendbuffer i object sz n) (λ _ w', same (ss w) (ss w')) w.
Proof.
  unfold append_sendbuffer. wp_steps. eapply wp_mono; [apply frozen_append|]. cbn beta. intros r w1 E1.
  wp_steps. cbn [ss]. rewrite E1. by apply same_put.
Qed.
Lemma append_low_same i object sz w : wp any_fault (append_sendbuffer_low i object sz) (λ _ w', same (ss w) (ss w')) w.
Proof.
  unfold append_sendbuffer_low. wp_steps. eapply wp_mono; [apply frozen_append|]. cbn beta. intros r w1 E1.
  wp_steps. cbn [ss]. rewrite E1. by apply same_put.
Qed.
Lemma append_udp_same i prio object sz a w :
  wp any_fault (append_sendbuffer_udp i prio object sz a) (λ _ w', same (ss w) (ss w')) w.
Proof.
  unfold append_sendbuffer_udp. wp_steps. eapply wp_mono; [apply frozen_append|]. cbn beta. intros r w1 E1.
  wp_steps. cbn [ss]. rewrite E1. apply same_put. by destruct (_ =? _).
Qed.

(** The end of a send that changed nothing, or queued the buffer. *)
Lemma same_then_sent {A} (m : M A) (k : A → M Z) i w w1 :
  wp any_fault m (λ _ w2, same (ss w1) (ss w2)) w1 → same (ss w) (ss w1) →
  (∀ a w2, wp any_fault (k a) (λ t w3, t = -1 ∧ ss w3 = ss w2) w2) →
  wp any_fault (bind m k) (λ t w', sent i t w w') w1.
Proof.
  intros Hm S1 Hk. apply wp_bind. eapply wp_mono; [exact Hm|]. cbn beta. intros a w2 S2.
  eapply wp_mono; [apply Hk|]. cbn beta. intros t w3 [-> E3]. left. split; [done|]. rewrite E3. by etrans.
Qed.

Lemma send_socket_sent id object sz prio addr w :
  wp any_fault (send_socket id object sz prio addr) (λ t w',
    sent (HASH_ID id) t w w' ∧
    (t = SOCKET_CLOSE → type (slot_at (ss w) (HASH_ID id)) ≠ SOCKET_TYPE_INVALID)) w.
Proof.
  unfold send_socket. wp_steps. eapply wp_mono; [apply frozen_send_object|]. cbn beta. intros so w1 E1.
  apply same_eq in E1 as S1. destruct (_ || _) eqn:Eg; [wp_steps; split; [by left|done]|].
  apply orb_false_iff in Eg as [[[Hlive%Z.eqb_neq _]%orb_false_iff _]%orb_false_iff _].
  match goal with |- wp _ ?m _ _ => enough (wp any_fault m (λ t w', sent (HASH_ID id) t w w') w1) as Hs end.
  { eapply wp_mono; [exact Hs|]. cbn beta. by intros t w2 Ht. }
  unfold m_assert. destruct (negb _ && _); [|done]. wp_steps.
  assert (Hk : ∀ (u : unit) (w2 : world), wp any_fault (ret (-1)) (λ t w3, t = -1 ∧ ss w3 = ss w2) w2) by (by intros).
  assert (Hk' : ∀ (u : unit) (w2 : world),
    wp any_fault (sp_write (sfd (slot_at (ss w) (HASH_ID id))) (HASH_ID id) true ;;; ret (-1))
      (λ t w3, t = -1 ∧ ss w3 = ss w2) w2) by (by intros).
  destruct (_ && _).
  - destruct (_ =? PROTOCOL_TCP); wp_steps.
    + eapply wp_mono; [apply frozen_sys_write|]. cbn beta. intros [sz' e] w2 E2. cbn [fst snd].
      assert (same (ss w) (ss w2)) as S2 by (rewrite E2; done).
      destruct (_ && _).
      { eapply wp_mono; [apply close_sent|]. cbn beta. intros t w3. by apply sent_after. }
      destruct (_ =? so_sz so); [wp_steps; by left|]. by apply same_then_sent; [apply append_same|..].
    + eapply wp_mono; [apply frozen_sys_sendto|]. cbn beta. intros [sz' e] w2 E2. cbn [fst snd].
      assert (same (ss w) (ss w2)) as S2 by (rewrite E2; done).
      destruct (negb _); [|wp_steps; by left]. by apply same_then_sent; [apply append_udp_same|..].
  - apply (same_then_sent (if _ : bool then _ else _) (λ _, ret (-1))); [|done|done].
    destruct (_ =? _); [destruct (_ =? _); [apply append_low_same|apply append_same]|apply append_udp_same].
Qed.

(** What an event on slot [i] leads to. *)
Inductive event_result (i : Z) (w w' : world) : Z → Prop :=
| er_none ty : ty = -1 ∨ ty = SOCKET_UDP → same (ss w) (ss w') → event_result i w w' ty
| er_closed ty : ty = SOCKET_CLOSE ∨ ty = SOCKET_ERROR → closed i w w' → event_result i w w' ty
| er_data data :
    same (ss w) (ss w') → msg_id (result w') = sid (slot_at (ss w) i) → msg_data (result w') = Some data →
    msg_ud (result w') = Z.of_nat (length data) → 0 < msg_ud (result w') → event_result i w w' SOCKET_DATA.

Lemma close_event i w ty : ty = SOCKET_CLOSE ∨ ty = SOCKET_ERROR →
  wp any_fault (force_close i ;;; ret ty) (λ t w', event_result i w w' t) w.
Proof.
  intros Hty. apply wp_bind. eapply wp_mono; [apply force_close_closed|]. cbn beta. intros _ w1 Hc. wp_steps.
  by apply er_closed.
Qed.

Lemma event_after i w0 w w' ty : same (ss w0) (ss w) → event_result i w w' ty → event_result i w0 w' ty.
Proof.
  intros S [ty' Hty Hs|ty' Hty Hc|data Hs Hm Hd Hl Hp].
  - apply er_none; [done|by etrans].
  - apply er_closed; [done|by eapply same_closed].
  - apply (er_data _ _ _ data); try done; [by etrans|]. rewrite Hm. apply S.
Qed.

Lemma forward_tcp_event i w : wp any_fault (forward_message_tcp i) (λ t w', event_result i w w' t) w.
Proof.
  unfold forward_message_tcp. wp_steps. cbn [ss pos]. set (r := os (pos w)). set (x := slot_at (ss w) i).
  set (w1 := mk_world _ _ _ _). assert (same (ss w) (ss w1)) as S1 by done.
  destruct (_ <? 0).
  { destruct (_ || _); [wp_steps; by apply er_none; [left|]|].
    eapply wp_mono; [apply close_event; by right|]. cbn beta. intros t w2. by apply event_after. }
  destruct (Z.eqb_spec (Z.of_nat (length (take (Z.to_nat (p_size x)) (stored r)))) 0) as [|Hne].
  { eapply wp_mono; [apply close_event; by left|]. cbn beta. intros t w2. by apply event_after. }
  destruct (_ =? SOCKET_TYPE_HALFCLOSE); [wp_steps; by apply er_none; [left|]|]. apply wp_bind.
  match goal with |- wp _ ?m _ _ => assert (wp any_fault m (λ _ w2, same (ss w) (ss w2)) w1) as Hp end.
  { destruct (_ =? p_size x).
    - wp_steps. eapply wp_mono; [apply frozen_double|]. cbn beta. intros d w2 E2. wp_steps. cbn [ss]. rewrite E2.
      by apply same_put.
    - apply wp_when; [intros _; wp_steps; by apply same_put|done]. }
  eapply wp_mono; [exact Hp|]. cbn beta. intros _ w2 S2. wp_steps.
  eapply er_data; cbn [ss result msg_id msg_ud msg_data]; [done..|]. lia.
Qed.

Lemma forward_udp_event i w : wp any_fault (forward_message_udp i) (λ t w', event_result i w w' t) w.
Proof.
  unfold forward_message_udp. wp_steps. cbn [ss pos]. destruct (_ <? 0).
  { destruct (_ || _); [wp_steps; by apply er_none; [left|]|].
    eapply wp_mono; [apply close_event; by right|]. cbn beta. intros t w2. by apply event_after. }
  destruct (negb _); wp_steps; apply er_none; auto; done.
Qed.

(** ** Events

    epoll reports descriptors that listen or are connected. *)

Definition polled (t : Z) : Prop := t = SOCKET_TYPE_LISTEN ∨ t = SOCKET_TYPE_CONNECTED.

(** The events from [lo] on are about such slots. *)
Definition events_from (lo : Z) (s : socket_server) : Prop :=
  ∀ k e i, lo <= Z.of_nat k < event_n s → ev s !! k = Some e → e_s e = Some i → polled (type (slot_at s i)).
Definition events_ok (s : socket_server) : Prop := 0 <= event_index s <= event_n s ∧ events_from (event_index s) s.

(** No event of such a slot is lost but by closing it under [id]. *)
Definition keeps_polled (id : Z) (s s' : socket_server) : Prop :=
  ∀ j, polled (type (slot_at s j)) →
    polled (type (slot_at s' j)) ∨ type (slot_at s' j) = SOCKET_TYPE_INVALID ∧ sid (slot_at s' j) = id.

(** The server's side of a round: the slots are those of a listening server, and the
    connections changed as the message says. *)
Definition reported (w : world) (t : option Z) (w' : world) : Prop :=
  slots_ok (ss w') ∧ events_ok (ss w') ∧
  match t with
  | None => ∀ i, clients (ss w') i = clients (ss w) i
  | Some ty =>
      change (clients (ss w)) (clients (ss w')) ty (result w') ∧
      (ty = SOCKET_ACCEPT → 0 <= msg_ud (result w') <= alloc_id (ss w'))
  end.

(** From [w1] to [w2] only the events moved on, at most back to [lo]. *)
Definition touched (lo : Z) (w1 w2 : world) : Prop :=
  slot (ss w2) = slot (ss w1) ∧ result w2 = result w1 ∧ event_n (ss w2) = event_n (ss w1) ∧
  lo <= event_index (ss w2) <= event_n (ss w2) ∧
  ∀ k e, ev (ss w2) !! k = Some e → ∃ e0, ev (ss w1) !! k = Some e0 ∧ e_s e0 = e_s e.

(** The rest of a round once an operation has done [ty]. *)
Lemma finish_reported lo w w1 w2 ty :
  0 <= lo → slots_ok (ss w1) → change (clients (ss w)) (clients (ss w1)) ty (result w1) → ty ≠ SOCKET_ACCEPT →
  events_from lo (ss w) → event_n (ss w1) = event_n (ss w) → ev (ss w1) = ev (ss w) →
  keeps_polled (msg_id (result w1)) (ss w) (ss w1) →
  (ty ≠ SOCKET_CLOSE → ty ≠ SOCKET_ERROR → ∀ j, polled (type (slot_at (ss w) j)) → polled (type (slot_at (ss w1) j))) →
  touched lo w1 w2 → wp any_fault (finish ty) (reported w) w2.
Proof.
  intros H0 Hok Hch Hna Hev En Ee Hkeep Hsure (Es & Er & En2 & Hlo & Ht).
  assert (∀ j, slot_at (ss w2) j = slot_at (ss w1) j) as Hs by (intros j; unfold slot_at; by rewrite Es).
  assert (slots_ok (ss w2)) as Hok2 by (intros j; rewrite Hs; apply Hok).
  assert (∀ j, clients (ss w2) j = clients (ss w1) j) as Hcl by (intros j; unfold clients; by rewrite Hs).
  assert (change (clients (ss w)) (clients (ss w2)) ty (result w2)) as Hch2.
  { rewrite Er. destruct Hch as [ty m Hty Hc|ty m Hty Hc|m Hf Hc|m i data Hi Hd Hl Hp Hc];
      [apply change_none|apply change_closed|apply change_accepted|apply (change_data _ _ _ i data)]; try done;
      intros j; by rewrite Hcl, Hc. }
  assert (Hold : ∀ k e i, event_index (ss w2) <= Z.of_nat k < event_n (ss w2) → ev (ss w2) !! k = Some e →
    e_s e = Some i → polled (type (slot_at (ss w) i))).
  { intros k e i Hk He Hi. destruct (Ht k e He) as (e0 & He0 & E0). rewrite Ee in He0.
    apply (Hev k e0); [rewrite <- En, <- En2; lia|done|congruence]. }
  unfold finish. destruct (Z.eqb_spec ty (-1)) as [->|Hty].
  { wp_steps. split; [done|]. split.
    - split; [lia|]. intros k e i Hk He Hi. rewrite Hs. apply Hsure; [done..|]. by eapply Hold.
    - intros i. by inversion Hch2 as [? ? _ Hc|? ? [?|?] _| |]. }
  apply wp_bind. unfold clear_closed_event. apply wp_when; intros Hclose; wp_steps.
  - split; [done|]. split; [|done]. split; [cbn; lia|]. intros k e i Hk He Hi. cbn [ss event_n event_index with_events ev] in *.
    change (slot_at (with_events _ _ _ _) i) with (slot_at (ss w2) i).
    rewrite lookup_app_r, length_take in He by (rewrite length_take; lia).
    set (n := (k - Nat.min (Z.to_nat (event_index (ss w2))) (length (ev (ss w2))))%nat) in He.
    destruct (decide (k < length (ev (ss w2)))%nat) as [Hlt|Hge].
    2: { exfalso. apply lookup_lt_Some in He. rewrite length_app, length_fmap, length_take, length_drop, length_drop in He. lia. }
    assert (n = (k - Z.to_nat (event_index (ss w2)))%nat) as En' by lia.
    rewrite lookup_app_l in He by (rewrite length_fmap, length_take, length_drop; lia).
    rewrite list_lookup_fmap, lookup_take_lt, lookup_drop in He by lia.
    replace (Z.to_nat (event_index (ss w2)) + n)%nat with k in He by lia.
    destruct (ev (ss w2) !! k) as [e1|] eqn:E1; [|done]. injection He as <-.
    unfold clear_event in Hi. destruct (e_s e1) as [i1|] eqn:Ei1; [|congruence].
    destruct (_ && _) eqn:Ec; [done|]. assert (i1 = i) as -> by congruence.
    pose proof (Hold k e1 i Hk E1 Ei1) as Hpol. rewrite Hs in *.
    destruct (Hkeep i Hpol) as [?|[Hinv Hsid]]; [done|].
    exfalso. by rewrite Hinv, Hsid, Er, !Z.eqb_refl in Ec.
  - apply orb_false_iff in Hclose as [H1%Z.eqb_neq H2%Z.eqb_neq]. split; [done|]. split; [|done].
    split; [lia|]. intros k e i Hk He Hi. rewrite Hs. apply Hsure; [done..|]. by eapply Hold.
Qed.

Lemma same_keeps id s s' : same s s' → keeps_polled id s s' ∧ (∀ j, polled (type (slot_at s j)) → polled (type (slot_at s' j))).
Proof. intros [_ Hs]. split; intros j; destruct (Hs j) as [-> _]; auto. Qed.

Lemma closed_keeps i w w' : closed i w w' → keeps_polled (msg_id (result w')) (ss w) (ss w').
Proof.
  intros (_ & Hj & Ht & Hi & Hm) j. destruct (decide (j = i)) as [->|Hne].
  - right. split; [done|congruence].
  - left. by destruct (Hj j Hne) as [-> _].
Qed.

(** An event on a connection, handled and finished. *)
Lemma event_reported lo i w w1 w2 ty :
  0 <= lo → slots_ok (ss w) → events_from lo (ss w) → type (slot_at (ss w) i) = SOCKET_TYPE_CONNECTED →
  event_result i w w1 ty → touched lo w1 w2 → wp any_fault (finish ty) (reported w) w2.
Proof.
  intros H0 Hok Hev Ht Hres Htouch.
  assert (type (slot_at (ss w) i) ≠ SOCKET_TYPE_INVALID) as Hlive by by rewrite Ht.
  assert (clients (ss w) i = Some (sid (slot_at (ss w) i))) as Hcl by (unfold clients, client_of; by rewrite Ht).
  assert (Hevents : events (ss w1) = events (ss w)) by
    by destruct Hres as [? _ [? _]|? _ (? & _)|? [? _]].
  injection Hevents as En Ei Ee.
  assert (ty ≠ SOCKET_ACCEPT) as Hna by by destruct Hres as [? [-> | ->] _|? [-> | ->] _|].
  destruct Hres as [ty' Hty Hs|ty' Hty Hc|data Hs Hm Hd Hl Hp].
  - apply (finish_reported lo w w1); try done; [by eapply slots_same| |by apply same_keeps|intros _ _; by apply same_keeps].
    apply change_none; [|by apply clients_same]. by destruct Hty as [-> | ->]; apply (bool_decide_unpack _).
  - destruct (closed_change i w w1 ty' Hok Hlive Hc Hty) as [Hok1 Hch].
    apply (finish_reported lo w w1); try done; [by eapply closed_keeps|]. by destruct Hty as [-> | ->].
  - apply (finish_reported lo w w1); try done; [by eapply slots_same| |by apply same_keeps|intros _ _; by apply same_keeps].
    apply (change_data _ _ _ i data); try done; [congruence|by apply clients_same].
Qed.

Lemma touched_refl lo w : lo <= event_index (ss w) <= event_n (ss w) → touched lo w w.
Proof. intros [H1 H2]. split_and!; try done. intros k e He. by exists e. Qed.

Lemma data_event_reported n k e i w :
  0 <= k < event_n (ss w) → event_index (ss w) = k + 1 → slots_ok (ss w) → events_from k (ss w) →
  type (slot_at (ss w) i) = SOCKET_TYPE_CONNECTED → wp any_fault (data_event n k e i) (reported w) w.
Proof.
  intros H0 Hk Hok Hev Ht. unfold data_event. wp_steps.
  assert (Hidx : ∀ w1 ty, event_result i w w1 ty → event_index (ss w1) = k + 1 ∧ event_n (ss w1) = event_n (ss w)).
  { intros w1 ty Hres. rewrite <- Hk.
    assert (events (ss w1) = events (ss w)) as [= ? ? _] by by destruct Hres as [? _ [? _]|? _ (? & _)|? [? _]]. done. }
  destruct (e_read e).
  - wp_steps. match goal with |- wp _ ?m _ _ => assert (wp any_fault m (λ t w', event_result i w w' t) w) as Hm end.
    { destruct (_ =? _); [apply forward_tcp_event|apply forward_udp_event]. }
    eapply wp_mono; [exact Hm|]. cbn beta. intros ty w1 Hres. destruct (Hidx w1 ty Hres) as [Hi1 Hn1].
    destruct (_ && _) eqn:Eu.
    + apply andb_true_iff in Eu as [_ ->%Z.eqb_eq].
      pose proof (event_reported k i w w1 (mk_world (with_events (ss w1) (event_n (ss w1)) (event_index (ss w1) - 1)
        (ev (ss w1))) (result w1) (pos w1) (log w1)) _ (proj1 H0) Hok Hev Ht Hres) as Hfin. wp_steps.
      refine (Hfin _). split_and!; try done; [cbn; lia..|]. intros k' e' He. by exists e'.
    + wp_steps. apply wp_when; intros _; wp_steps; eapply (event_reported k i w w1 _ _ (proj1 H0)); try done.
      * split_and!; try done; [cbn; lia..|]. intros k' e' He. cbn in He.
        destruct (decide (k' = Z.to_nat k)) as [->|Hne].
        -- rewrite list_lookup_alter_eq in He. apply fmap_Some in He as (e0 & He0 & ->). by exists e0.
        -- rewrite list_lookup_alter_ne in He by done. by exists e'.
      * apply touched_refl. lia.
  - destruct (e_write e); wp_steps.
    + eapply wp_mono; [apply send_buffer_sent|]. cbn beta. intros t w1 Hsent.
      assert (event_result i w w1 t) as Hres.
      { destruct Hsent as [[-> Hs]|[-> Hc]]; [apply er_none; [by left|done]|apply er_closed; [by left|done]]. }
      eapply (event_reported k i w w1 _ _ (proj1 H0)); try done. apply touched_refl. destruct (Hidx w1 t Hres) as [-> ->]. lia.
    + split; [done|]. split; [|done]. split; [lia|]. intros k' e' j Hk'. apply Hev. lia.
Qed.

(** An accepted connection has a slot of its own, under the identifier of the message. *)
Definition accepted (w w' : world) : Prop :=
  events (ss w') = events (ss w) ∧ ∃ id, msg_ud (result w') = id ∧ 0 <= id <= alloc_id (ss w') ∧
    type (slot_at (ss w) (HASH_ID id)) = SOCKET_TYPE_INVALID ∧
    type (slot_at (ss w') (HASH_ID id)) = SOCKET_TYPE_PACCEPT ∧ sid (slot_at (ss w') (HASH_ID id)) = id ∧
    ∀ j, j ≠ HASH_ID id → slot_at (ss w') j = slot_at (ss w) j.

Lemma reserve_loop_events n : ∀ w, wp any_fault (reserve_loop n) (λ _ w', events (ss w') = events (ss w)) w.
Proof.
  induction n as [|n IH]; intros w; cbn [reserve_loop]; [by wp_steps|]. wp_steps.
  match goal with |- wp _ ?m _ ?w0 => assert (wp any_fault m (λ _ w', events (ss w') = events (ss w)) w0) as Hm end.
  { destruct (_ <? 0); by wp_steps. }
  eapply wp_mono; [exact Hm|]. cbn beta. intros id w1 E1. wp_steps. destruct (_ =? _); wp_steps; [exact E1|].
  eapply wp_mono; [apply IH|]. cbn beta. congruence.
Qed.

Lemma report_accept_accepted i w :
  0 <= alloc_id (ss w) → alloc_id (ss w) + MAX_SOCKET < 2 ^ 31 →
  wp any_fault (report_accept i) (λ ok w', if ok : bool then accepted w w' else same (ss w) (ss w')) w.
Proof.
  intros Ha Hmax. unfold report_accept. wp_steps. destruct (_ <? 0); [by wp_steps|]. wp_steps. unfold reserve_id.
  eapply wp_mono; [apply wp_and; [eapply wp_any, reserve_loop_fresh; cbn [ss]; [done|change MAX_SOCKET with 65536 in *; lia]|
    apply reserve_loop_events]|].
  cbn beta. cbn [ss]. intros id w1 [(Hal & _ & Hor) Ev1].
  destruct (Z.ltb_spec id 0) as [Hneg|Hpos].
  { wp_steps. destruct Hor as [[-> Hs]|(? & ? & _)]; [|lia]. cbn [ss]. split; [done|].
    intros j. unfold slot_at. by rewrite Hs. }
  destruct Hor as [[-> _]|(Hlt & Hid & Ht & Hs)]; [lia|].
  apply wp_bind. eapply wp_mono; [apply frozen_keepalive|]. cbn beta. intros _ w2 E2.
  apply wp_bind. eapply wp_mono; [apply frozen_sp_nonblocking|]. cbn beta. intros _ w3 E3. rewrite E2 in E3.
  unfold new_fd. wp_steps. unfold m_assert at 1. destruct (_ =? _); [|done]. wp_steps.
  unfold check_wb_list, m_assert. destruct (high _); [|done]. destruct (low _); [|done]. wp_steps.
  split; [cbn; rewrite E3; exact Ev1|]. exists id. cbn [result msg_ud ss].
  rewrite slot_at_put. split; [done|]. split; [cbn; rewrite E3; lia|]. split; [done|].
  rewrite slot_at_put. split; [done|]. split; [done|].
  intros j Hj. unfold slot_at. cbn [slot with_slot]. by rewrite !lookup_insert_ne, E3, Hs, lookup_insert_ne by done.
Qed.

Lemma accepted_reported lo w w' :
  0 <= lo <= event_index (ss w) → event_index (ss w) <= event_n (ss w) → slots_ok (ss w) → events_from lo (ss w) →
  accepted w w' →
  reported w (Some SOCKET_ACCEPT) w'.
Proof.
  intros H0 Hn Hok Hev ([= En Ei Ee] & id & Hm & Hid & Ht & Ht' & Hs' & Hj).
  assert (Hcases : ∀ j, j = HASH_ID id ∨ j ≠ HASH_ID id ∧ slot_at (ss w') j = slot_at (ss w) j).
  { intros j. destruct (decide (j = HASH_ID id)); [by left|right; auto]. }
  split; [|split; [split|]].
  - intros j. destruct (Hcases j) as [->|[_ E]]; [|rewrite E; apply Hok].
    unfold slot_ok. rewrite Ht', Hs'. split; [by apply (bool_decide_unpack _)|done].
  - rewrite Ei, En. lia.
  - intros k e j Hk He Hj'. rewrite En, Ei in Hk. rewrite Ee in He.
    pose proof (Hev k e j ltac:(lia) He Hj') as Hpol.
    destruct (Hcases j) as [->|[_ E]]; [|by rewrite E]. rewrite Ht in Hpol. by destruct Hpol.
  - split; [|intros _; by rewrite Hm]. apply change_accepted; rewrite Hm; [by apply no_client_invalid|]. intros j. destruct (Hcases j) as [->|[Hne E]].
    + rewrite decide_True by done. unfold clients, client_of. by rewrite Ht', Hs'.
    + rewrite decide_False by done. unfold clients. by rewrite E.
Qed.

Lemma handle_event_reported n k e w :
  0 <= k < event_n (ss w) → event_index (ss w) = k + 1 → slots_ok (ss w) → events_from k (ss w) →
  (∀ i, e_s e = Some i → polled (type (slot_at (ss w) i))) →
  0 <= alloc_id (ss w) → alloc_id (ss w) + MAX_SOCKET < 2 ^ 31 → wp any_fault (handle_event n k e) (reported w) w.
Proof.
  intros H0 Hk Hok Hev He Ha Hmax.
  assert (events_ok (ss w)) as Hevok by (split; [lia|]; intros k' e' j Hk'; apply Hev; lia).
  unfold handle_event. destruct (e_s e) as [i|]; [|by wp_steps].
  wp_steps. destruct (He i eq_refl) as [Ht|Ht]; rewrite Ht; cbn [Z.eqb Pos.eqb SOCKET_TYPE_LISTEN SOCKET_TYPE_CONNECTED
    SOCKET_TYPE_CONNECTING SOCKET_TYPE_INVALID]; [|by apply data_event_reported].
  apply wp_bind. eapply wp_mono; [by apply report_accept_accepted|]. cbn beta. intros ok w1 Hacc. destruct ok; wp_steps.
  - eapply (accepted_reported k); try done; lia.
  - split; [by eapply slots_same|]. split; [|by apply clients_same]. destruct Hacc as [[= En Ei Ee] Hs].
    split; [rewrite Ei, En; lia|]. intros k' e' j. rewrite En, Ei, Ee. destruct (Hs j) as [-> _]. apply Hevok.
Qed.

(** ** Requests *)

(** One slot got another type; [None] closes it. *)
Lemma retyped_change s s' i t id :
  slots_ok s → same_slot (with_type (slot_at s i) t) (slot_at s' i) →
  (∀ j, j ≠ i → slot_at s' j = slot_at s j) →
  t ∈ [SOCKET_TYPE_PLISTEN; SOCKET_TYPE_LISTEN; SOCKET_TYPE_PACCEPT; SOCKET_TYPE_CONNECTED] →
  sid (slot_at s i) = id → HASH_ID id = i →
  (client_of (with_type (slot_at s i) t) = client_of (slot_at s i)) →
  slots_ok s' ∧ ∀ j, clients s' j = clients s j.
Proof.
  intros Hok [Ht Hi] Hj Hin Hsid Hh Hcl. cbn in Ht, Hi. split; intros j; (destruct (decide (j = i)) as [->|Hne];
    [|by unfold clients; rewrite Hj by done]).
  - unfold slot_ok. rewrite Ht, Hi, Hsid. split; [|done]. rewrite !elem_of_cons in *. intuition.
  - unfold clients. rewrite <- Hcl. unfold client_of at 1. by rewrite Ht, Hi.
Qed.

(** The effect of a request on the connections and the events. *)
Definition handled (w : world) (ty : Z) (w1 : world) : Prop :=
  slots_ok (ss w1) ∧ change (clients (ss w)) (clients (ss w1)) ty (result w1) ∧ ty ≠ SOCKET_ACCEPT ∧
  events (ss w1) = events (ss w) ∧
  keeps_polled (msg_id (result w1)) (ss w) (ss w1) ∧
  (ty ≠ SOCKET_CLOSE → ty ≠ SOCKET_ERROR → ∀ j, polled (type (slot_at (ss w) j)) → polled (type (slot_at (ss w1) j))).

Lemma same_handled w ty w1 :
  slots_ok (ss w) → same (ss w) (ss w1) → ty ∉ [SOCKET_DATA; SOCKET_CLOSE; SOCKET_ACCEPT; SOCKET_ERROR] → handled w ty w1.
Proof.
  intros Hok Hs Hty. split_and!; [by eapply slots_same| | |apply Hs|by apply same_keeps|intros _ _; by apply same_keeps].
  - apply change_none; [done|by apply clients_same].
  - intros ->. apply Hty. by apply (bool_decide_unpack _).
Qed.

Lemma closed_handled i w ty w1 :
  slots_ok (ss w) → type (slot_at (ss w) i) ≠ SOCKET_TYPE_INVALID → closed i w w1 →
  ty = SOCKET_CLOSE ∨ ty = SOCKET_ERROR → handled w ty w1.
Proof.
  intros Hok Hlive Hc Hty. destruct (closed_change i w w1 ty Hok Hlive Hc Hty) as [Hok1 Hch].
  split_and!; [done|done|by destruct Hty as [-> | ->]|apply Hc|by eapply closed_keeps|by destruct Hty as [-> | ->]].
Qed.

Lemma start_socket_handled id opq w :
  slots_ok (ss w) → wp any_fault (start_socket id opq) (λ ty w1, handled w ty w1) w.
Proof.
  intros Hok. unfold start_socket. wp_steps. cbn [ss]. set (x := slot_at (ss w) (HASH_ID id)).
  destruct (_ || _) eqn:Eg.
  { wp_steps. split; [done|]. split; [|by split_and!; [done|done|intros j; by left|]].
    apply change_closed; [by right|]. intros j. cbn [ss result msg_id]. rewrite decide_False; [done|]. intros E.
    destruct (client_home _ _ _ Hok E) as (<- & Hsid & Hlive). fold x in Hsid, Hlive.
    apply orb_true_iff in Eg as [Eg%Z.eqb_eq|Eg%negb_true_iff%Z.eqb_neq]; done. }
  apply orb_false_iff in Eg as [Hlive%Z.eqb_neq Hsid%negb_false_iff%Z.eqb_eq].
  destruct (_ || _) eqn:Ep.
  - assert (type x = SOCKET_TYPE_PACCEPT ∨ type x = SOCKET_TYPE_PLISTEN) as Ht
      by (apply orb_true_iff in Ep as [?%Z.eqb_eq|?%Z.eqb_eq]; auto).
    unfold sp_add. wp_steps. destruct (_ =? -1); wp_steps.
    + apply (closed_handled (HASH_ID id)); [done|done| |by right]. split_and!; cbn [ss result msg_id]; try done.
      * intros j Hj. by rewrite slot_at_insert, decide_False by done.
      * by rewrite slot_at_insert, decide_True by done.
      * by rewrite slot_at_insert, decide_True by done.
    + set (t := if type x =? SOCKET_TYPE_PACCEPT then _ else _).
      destruct (retyped_change (ss w) (with_slot (ss w) (<[HASH_ID id:=with_opaque (with_type x t) opq]> (slot (ss w))))
        (HASH_ID id) t id) as [Hok1 Hcl]; try done.
      * rewrite slot_at_put. done.
      * intros j Hj. by rewrite slot_at_insert, decide_False by done.
      * unfold t. by destruct Ht as [-> | ->]; apply (bool_decide_unpack _).
      * unfold client_of. cbn. fold x. unfold t. by destruct Ht as [-> | ->].
      * assert (∀ j, polled (type (slot_at (ss w) j)) →
          polled (type (slot_at (with_slot (ss w) (<[HASH_ID id:=with_opaque (with_type x t) opq]> (slot (ss w)))) j))) as Hpol.
        { intros j. rewrite slot_at_insert. case_decide as Hj; [subst j|done]. fold x. intros [E|E]; rewrite E in Ht; by destruct Ht. }
        split_and!; cbn [ss result]; try done; [|intros j Hj; left; by apply Hpol].
        apply change_none; [by apply (bool_decide_unpack _)|done].
  - destruct (Z.eqb_spec (type x) SOCKET_TYPE_CONNECTED); wp_steps; apply same_handled; try done; cbn [ss];
      try (by apply (bool_decide_unpack _)). by apply same_put.
Qed.

Lemma listen_socket_handled id fd opq w :
  slots_ok (ss w) → type (slot_at (ss w) (HASH_ID id)) = SOCKET_TYPE_RESERVE → sid (slot_at (ss w) (HASH_ID id)) = id →
  wp any_fault (listen_socket id fd opq) (λ ty w1, handled w ty w1) w.
Proof.
  intros Hok Ht Hsid. unfold listen_socket, new_fd. wp_steps. unfold m_assert at 1. destruct (_ =? _); [|done]. wp_steps.
  unfold check_wb_list, m_assert. destruct (high _); [|done]. destruct (low _); [|done]. wp_steps.
  unfold modify_slot. wp_steps. cbn [ss].
  set (y := with_type _ SOCKET_TYPE_PLISTEN). set (s1 := with_slot (with_slot _ _) _).
  assert (Hslot : ∀ j, slot_at s1 j = if decide (HASH_ID id = j) then y else slot_at (ss w) j).
  { intros j. unfold s1, slot_at. cbn [slot with_slot]. case_decide as Hj; [subst; by rewrite lookup_insert_eq|].
    by rewrite !lookup_insert_ne by done. }
  assert (type y = SOCKET_TYPE_PLISTEN ∧ sid y = id) as [Hyt Hyi].
  { unfold y. cbn. split; [done|]. unfold slot_at. cbn. by rewrite lookup_insert_eq. }
  destruct (retyped_change (ss w) s1 (HASH_ID id) SOCKET_TYPE_PLISTEN id) as [Hok1 Hcl]; try done.
  - rewrite Hslot, decide_True by done. split; [exact Hyt|]. rewrite Hyi. symmetry. exact Hsid.
  - intros j Hj. by rewrite Hslot, decide_False by done.
  - by apply (bool_decide_unpack _).
  - unfold client_of. cbn. by rewrite Ht.
  - assert (∀ j, polled (type (slot_at (ss w) j)) → polled (type (slot_at s1 j))) as Hpol.
    { intros j. rewrite Hslot. case_decide as Hj; [subst j; rewrite Ht; by intros [?|?]|done]. }
    split_and!; cbn [ss result]; try done; [|intros j Hj; left; by apply Hpol].
    apply change_none; [by apply (bool_decide_unpack _)|done].
Qed.

Lemma dispatch_handled n rq w :
  slots_ok (ss w) → own_request rq →
  (∀ id, opened rq = Some id → type (slot_at (ss w) (HASH_ID id)) = SOCKET_TYPE_RESERVE ∧ sid (slot_at (ss w) (HASH_ID id)) = id) →
  wp any_fault (dispatch n rq) (λ ty w1, handled w ty w1) w.
Proof.
  intros Hok Hown Hop. destruct rq; try done; cbn [dispatch].
  - by apply start_socket_handled.
  - destruct (Hop id eq_refl). by apply listen_socket_handled.
  - eapply wp_mono; [apply send_socket_sent|]. cbn beta. intros t w1 [[[-> Hs]|[-> Hc]] Hlive].
    + apply same_handled; [done..|]. by apply (bool_decide_unpack _).
    + apply (closed_handled (HASH_ID id)); try done; [by apply Hlive|by left].
Qed.

(** ** The poll *)

Lemma ctrl_cmd_handled n rq rqs w :
  protocol_inv (ss w) (rq :: rqs) [] → own_request rq → slots_ok (ss w) →
  wp any_fault (ctrl_cmd n) (λ ty w1, handled w ty w1) w.
Proof.
  intros Hinv Hown Hok. pose proof (proj1 (pi_ok _ _ _ Hinv)) as [Hrq _]%Forall_cons_1. unfold ctrl_cmd. apply wp_bind.
  eapply wp_mono; [apply (read_request_any n rq w (mjoin (frame <$> rqs))); [done|apply Hinv]|].
  cbn beta. intros r w1 (-> & Hss & _ & _).
  assert (own_request (received rq)) as Hown' by by destruct rq.
  assert (slots_ok (ss w1)) as Hok1 by by rewrite Hss.
  eapply wp_mono; [apply (dispatch_handled n (received rq) w1 Hok1 Hown')|].
  - intros id. rewrite opened_received, Hss. intros Hop.
    destruct (head_reserved _ _ _ _ _ Hinv Hop) as (Ht & Hs & _). done.
  - cbn beta. intros ty w2. unfold handled. rewrite Hss. done.
Qed.

(** What epoll promises: when a round asks it, it reports descriptors that listen or are
    connected.  The round asks when it has no event left and no request to take, after the
    look at the pipe, if it takes one. *)
Definition epoll_round (w : world) : Prop :=
  event_index (ss w) = event_n (ss w) →
  checkctrl (ss w) = false ∨ rv (os (pos w)) < 0 ∨ pipe (ss w) = [] →
  ∀ i f, (Some i, f) ∈ ready (os (pos w + if checkctrl (ss w) then 1 else 0)) → polled (type (slot_at (ss w) i)).
Fixpoint epoll_honest (fuel n : nat) (more : option Z) (w : world) : Prop :=
  match fuel with
  | O => True
  | S fuel =>
      epoll_round w ∧
      match poll_round n more w with Ok ((None, more), w') => epoll_honest fuel n more w' | _ => True end
  end.

Lemma next_event_reported n (more : option Z) w :
  slots_ok (ss w) → events_ok (ss w) → event_index (ss w) < event_n (ss w) →
  0 <= alloc_id (ss w) → alloc_id (ss w) + MAX_SOCKET < 2 ^ 31 →
  wp any_fault
    match ev (ss w) !! Z.to_nat (event_index (ss w)) with
    | None => fail OutOfBounds
    | Some e => let! t := handle_event n (event_index (ss w)) e in ret (t, more)
    end (λ r w', reported w r.1 w')
    (mk_world (with_events (ss w) (event_n (ss w)) (event_index (ss w) + 1) (ev (ss w))) (result w) (pos w) (log w)).
Proof.
  intros Hok [H0 Hev] Hlt Ha Hmax. destruct (ev (ss w) !! _) as [e|] eqn:He; [|done]. apply wp_bind.
  eapply wp_mono; [apply (handle_event_reported n (event_index (ss w)) e); cbn; try done; try lia|].
  - intros i Hi. apply (Hev (Z.to_nat (event_index (ss w))) e i); [lia|done|done].
  - cbn beta. intros t w1 Hr. wp_steps. exact Hr.
Qed.

Lemma reported_after w0 w t w' : (∀ i, clients (ss w) i = clients (ss w0) i) → reported w t w' → reported w0 t w'.
Proof.
  intros E (H1 & H2 & H3). split; [done|]. split; [done|]. destruct t as [ty|].
  - split; [|apply H3]. eapply change_after; [done|apply H3].
  - intros i. by rewrite H3.
Qed.

Lemma poll_event_reported n more w :
  slots_ok (ss w) → events_ok (ss w) → 0 <= alloc_id (ss w) → alloc_id (ss w) + MAX_SOCKET < 2 ^ 31 →
  (event_index (ss w) = event_n (ss w) →
   ∀ i f, (Some i, f) ∈ ready (os (pos w)) → polled (type (slot_at (ss w) i))) →
  wp any_fault (poll_event n more) (λ r w', reported w r.1 w') w.
Proof.
  intros Hok Hev Ha Hmax Hepoll. unfold poll_event. wp_steps.
  destruct (Z.eqb_spec (event_index (ss w)) (event_n (ss w))) as [Heq|Hne].
  2: { wp_steps. apply wp_modify, next_event_reported; try done. destruct Hev as [? _]. lia. }
  specialize (Hepoll Heq). unfold sp_wait. wp_steps.
  match goal with |- wp _ (if _ then ret (?r0, _) else _) _ ?w1 => set (r := os (pos w)) in *; set (w0 := w1) end.
  assert (Hnone : ∀ e m, reported w (Some (-1)) (mk_world (with_checkctrl (with_events (ss w) 0 0 e) true) (result w) m (log w))).
  { intros e m. split; [done|]. split; [split; [done|]; intros k e' i Hk; cbn in Hk; lia|].
    split; [|done]. apply change_none; [by apply (bool_decide_unpack _)|done]. }
  destruct (Z.ltb_spec (rv r) 0) as [Hneg|Hpos]; wp_steps; cbn [fst snd].
  { rewrite (proj2 (Z.leb_le (rv r) 0)) by lia. wp_steps. apply Hnone. }
  set (evs := take (Z.to_nat MAX_EVENT) (ready r)).
  destruct (Z.leb_spec (Z.of_nat (length evs)) 0) as [Hz|Hnz]; wp_steps; [apply Hnone|].
  apply wp_modify. match goal with |- context [ev (ss ?w1)] =>
    eapply wp_mono; [apply (next_event_reported n ((λ _, 0) <$> more) w1); cbn [ss alloc_id event_index event_n
      with_checkctrl with_events]; try done|]
  end.
  - split; cbn; [lia|]. intros k e i Hk He Hi. cbn [ev event_n ss with_checkctrl with_events] in Hk, He.
    rewrite lookup_app_l in He by (rewrite length_fmap; lia). rewrite list_lookup_fmap in He.
    apply fmap_Some in He as (p & Hp & ->). destruct p as [q f]. cbn in Hi. subst q.
    apply (Hepoll i f). apply lookup_take_Some in Hp as [Hp _]. by apply list_elem_of_lookup_2 in Hp.
  - cbn beta. intros r' w2. by apply reported_after.
Qed.

(** The invariant of the server's side. *)
Record server_side (s : socket_server) (rqs : list request) : Prop := {
  ss_protocol : protocol_inv s rqs [];
  ss_own : Forall own_request rqs;
  ss_slots : slots_ok s;
  ss_events : events_ok s }.

(** One poll round keeps it, and its result tells what happened. *)
Definition poll_post {A} (k : Z) (w : world) (t : A → option Z) (r : A) (w' : world) : Prop :=
  (∃ rqs, server_side (ss w') rqs) ∧ alloc_id (ss w') <= alloc_id (ss w) + k ∧ reported w (t r) w'.

Lemma poll_round_post n more w rqs :
  server_side (ss w) rqs → alloc_id (ss w) + MAX_SOCKET < 2 ^ 31 → epoll_round w →
  wp any_fault (poll_round n more) (poll_post MAX_SOCKET w fst) w.
Proof.
  intros [Hinv Hown Hok Hev] Hmax Hepoll. pose proof (pi_alloc _ _ _ Hinv) as Ha. unfold poll_round. apply wp_bind, wp_gets.
  assert (wp any_fault (if checkctrl (ss w) then has_cmd else ret false) (λ c w1,
    ss w1 = ss w ∧ (c = true → pipe (ss w) ≠ []) ∧
    (c = false → checkctrl (ss w) = false ∨ rv (os (pos w)) < 0 ∨ pipe (ss w) = []) ∧ pos w1 = (pos w + if checkctrl (ss w) then 1 else 0)%nat) w) as Hc.
  { destruct (checkctrl (ss w)); [|wp_steps; split_and!; try done; by auto || lia]. unfold has_cmd. wp_steps. cbn [ss pos].
    split; [done|]. split; [|split; [|lia]].
    - destruct (pipe (ss w)); [by rewrite andb_false_r|done].
    - destruct (Z.ltb_spec (rv (os (pos w))) 0); [by auto|]. destruct (pipe (ss w)); [by auto|done]. }
  apply wp_bind. eapply wp_mono; [exact Hc|]. cbn beta. intros c w1 (E1 & Hpipe & Hasks & Hpos). destruct c.
  - destruct rqs as [|rq rqs].
    { exfalso. apply Hpipe; [done|]. by rewrite (pi_pipe _ _ _ Hinv). }
    apply Forall_cons_1 in Hown as [Hrq Hown]. apply wp_bind.
    eapply wp_mono; [apply wp_and; [apply (ctrl_cmd_inv n rq rqs []); by rewrite E1|
      apply (ctrl_cmd_handled n rq rqs); by rewrite ?E1]|]. cbn beta.
    intros ty w2 [[Hinv2 Ha2] (Hok2 & Hch & Hna & [= En Ei Ee] & Hkeep & Hsure)]. rewrite E1 in *. apply wp_bind.
    destruct Hev as [H0 Hev].
    assert (touched (event_index (ss w)) w2 w2) as Htouch by (apply touched_refl; rewrite Ei, En; lia).
    eapply wp_mono; [apply wp_and; [apply finish_quiet|
      by apply (finish_reported (event_index (ss w)) w w2 w2 ty (proj1 H0))]|]. cbn beta.
    intros t w3 [Q3 Hrep]. wp_steps. split; [|split; [|exact Hrep]].
    + exists rqs. split; [|done|apply Hrep|apply Hrep]. eapply grows_inv; [exact Hinv2|by apply quiet_grows|]. lia.
    + rewrite (proj1 (proj2 Q3)), Ha2. change MAX_SOCKET with 65536. lia.
  - apply wp_bind.
    assert (wp any_fault (when (checkctrl (ss w)) (set_ss (λ s, with_checkctrl s false))) (λ _ w2,
      pos w2 = pos w1 ∧ (ss w2 = ss w ∨ ss w2 = with_checkctrl (ss w) false)) w1) as Hw.
    { rewrite <- E1. apply wp_when; intros _; wp_steps; cbn; auto. }
    eapply wp_mono; [exact Hw|]. cbn beta. intros u w2 [Hpos2 Hss2].
    assert (grows 0 (ss w) (ss w2)) as Hg.
    { destruct Hss2 as [-> | ->]; (split; [done|]); (split; [cbn; lia|]); intros i; reflexivity. }
    assert (protocol_inv (ss w2) rqs []) as Hinv2 by (eapply grows_inv; [exact Hinv|exact Hg|lia]).
    assert (slots_ok (ss w2) ∧ events_ok (ss w2) ∧ alloc_id (ss w2) = alloc_id (ss w) ∧
      (∀ i, slot_at (ss w2) i = slot_at (ss w) i) ∧ event_index (ss w2) = event_index (ss w) ∧
      event_n (ss w2) = event_n (ss w)) as (Hok2 & Hev2 & Ha2 & Hs2 & Ei2 & En2).
    { by destruct Hss2 as [-> | ->]. }
    eapply wp_mono; [apply wp_and; [apply (poll_event_grows n more w2); rewrite Ha2; lia|
      apply (poll_event_reported n more w2); try done; rewrite ?Ha2; try lia]|].
    + rewrite Ei2, En2, Hpos2, Hpos. intros Heq i f Hin. rewrite Hs2. by apply (Hepoll Heq (Hasks eq_refl) i f).
    + cbn beta. intros r w3 [Hg3 Hrep]. split; [|split].
      * exists rqs. split; [eapply grows_inv; [exact Hinv2|exact Hg3|lia]|done|apply Hrep|apply Hrep].
      * destruct Hg3 as (_ & Hal & _). lia.
      * eapply reported_after; [|exact Hrep]. intros i. unfold clients. by rewrite Hs2.
Qed.

Lemma poll_server_side n fuel : ∀ w rqs more,
  server_side (ss w) rqs → alloc_id (ss w) + MAX_SOCKET * Z.of_nat fuel < 2 ^ 31 → epoll_honest fuel n more w →
  wp any_fault (socket_server_poll fuel n more)
    (poll_post (MAX_SOCKET * Z.of_nat fuel) w (λ r : Z * option Z, Some r.1)) w.
Proof.
  induction fuel as [|fuel IH]; intros w rqs more Hside Hmax Hepoll; [done|].
  cbn [socket_server_poll epoll_honest] in *. destruct Hepoll as [Hround Hrest]. change MAX_SOCKET with 65536 in *.
  pose proof (poll_round_post n more w rqs Hside ltac:(change MAX_SOCKET with 65536; lia) Hround) as Hr.
  unfold wp, bind in *. destruct (poll_round n more w) as [[[t more'] w1]|f]; [|done].
  destruct Hr as ([rqs1 Hside1] & Ha1 & Hrep). cbn [fst snd] in *. change MAX_SOCKET with 65536 in *.
  destruct t as [ty|].
  - split; [by exists rqs1|]. split; [lia|exact Hrep].
  - pose proof (IH w1 rqs1 more' Hside1 ltac:(lia) Hrest) as Hp.
    destruct (socket_server_poll fuel n more' w1) as [[r w2]|f]; [|done]. destruct Hp as (Hside2 & Ha2 & Hrep2).
    split; [done|]. split; [lia|]. eapply reported_after; [|exact Hrep2]. apply Hrep.
Qed.

End Effects.

(** ** The client table *)

(** The pointers of both maps lead to clients that are in the table. *)
Record table_ok (W : server) : Prop := {
  tb_fd : ∀ id p, m_stClientFdPool (sv_pool W) !! id = Some p →
    ∃ c, sv_clients W !! p = Some c ∧ GetClientFd c = id ∧ is_Some (m_stClientSeqPool (sv_pool W) !! GetClientSeq c);
  tb_seq : ∀ seq q, m_stClientSeqPool (sv_pool W) !! seq = Some q →
    ∃ c, sv_clients W !! q = Some c ∧ is_Some (m_stClientFdPool (sv_pool W) !! GetClientFd c);
  tb_next : ∀ p, is_Some (sv_clients W !! p) → (p < sv_next W)%nat }.

(** A client object changes, but not its numbers. *)
Lemma table_update W p c c' N P :
  table_ok W → sv_clients W !! p = Some c → GetClientFd c' = GetClientFd c → GetClientSeq c' = GetClientSeq c →
  table_ok (set_net (set_client W p c') N P).
Proof.
  intros [Hfd Hseq Hnext] Hp Efd Eseq. constructor; cbn [sv_pool sv_clients sv_next set_net set_client].
  - intros id q Hq. destruct (Hfd id q Hq) as (d & Hd & Hid & Hs). destruct (decide (p = q)) as [->|Hne].
    + exists c'. rewrite lookup_insert_eq. replace d with c in * by congruence. rewrite Efd, Eseq. done.
    + exists d. by rewrite lookup_insert_ne.
  - intros seq q Hq. destruct (Hseq seq q Hq) as (d & Hd & Hs). destruct (decide (p = q)) as [->|Hne].
    + exists c'. rewrite lookup_insert_eq. replace d with c in * by congruence. rewrite Efd. done.
    + exists d. by rewrite lookup_insert_ne.
  - intros q. rewrite lookup_insert_is_Some. intros [->|[_ Hq]]; apply Hnext; [by exists c|done].
Qed.

Lemma set_net_same (W : server) : set_net W (sv_net W) (sv_mem W) = W.
Proof. by destruct W. Qed.

Lemma table_set_client W p c c' :
  table_ok W → sv_clients W !! p = Some c → GetClientFd c' = GetClientFd c → GetClientSeq c' = GetClientSeq c →
  table_ok (set_client W p c').
Proof.
  intros Hok Hp E1 E2. rewrite <- (set_net_same (set_client W p c')). by apply (table_update W p c).
Qed.

(** Closing a client of the table reads an erased element; others are let be. *)
Lemma close_known W id p : table_ok W → GetClientByFd (sv_pool W) id = Some p → _ProcessCloseClient W id = Fault UseAfterFree.
Proof.
  intros [Hfd Hseq _] Hp. unfold _ProcessCloseClient, client. rewrite Hp.
  destruct (Hfd id p Hp) as (c & Hc & Hid & [q Hq]). rewrite Hc. cbn [mbind res_bind].
  unfold RemoveClient. rewrite Hq. cbn beta.
  destruct (Hseq _ q Hq) as (d & Hd & [r Hr]). rewrite Hd. cbn [mbind res_bind].
  unfold RemoveClientByFd. by rewrite Hr.
Qed.

Lemma close_unknown W id : GetClientByFd (sv_pool W) id = None → _ProcessCloseClient W id = Ok (false, W).
Proof. intros Hp. unfold _ProcessCloseClient. by rewrite Hp. Qed.

(** Accepting. *)
Lemma SetClientIP_numbers c data n c' :
  SetClientIP c data n = Ok c' → GetClientFd c' = GetClientFd c ∧ GetClientSeq c' = GetClientSeq c.
Proof. unfold SetClientIP. intros E. inv_res. done. Qed.

Lemma client_inv {C} `{ClientContext C} (W : ServerContext C) p c : client W p = Ok c → sv_clients W !! p = Some c.
Proof. unfold client. destruct (sv_clients W !! p); [|done]. by intros [= ->]. Qed.

(** A new client object under its two numbers. *)
Definition with_client (W : server) (c : SocketClientCtx) : server :=
  mk_server (sv_net W) (AddClient (sv_pool W) (GetClientSeq c) (GetClientFd c) (sv_next W))
    (<[sv_next W := c]> (sv_clients W)) (S (sv_next W)) (sv_mem W).

Lemma map_insert_new_Some {V} (k j : Z) (v : V) m : is_Some (map_insert_new k v m !! j) ↔ j = k ∨ is_Some (m !! j).
Proof.
  unfold map_insert_new. destruct (m !! k) eqn:E.
  - split; [by right|]. intros [->|?]; [by rewrite E|done].
  - rewrite lookup_insert_is_Some. destruct (decide (k = j)) as [->|]; intuition congruence.
Qed.

Lemma add_client_table W c :
  table_ok W → m_stClientFdPool (sv_pool W) !! GetClientFd c = None →
  table_ok (with_client W c) ∧
  m_stClientFdPool (sv_pool (with_client W c)) = <[GetClientFd c := sv_next W]> (m_stClientFdPool (sv_pool W)).
Proof.
  intros [Hfd Hseq Hnext] Hnone.
  assert (m_stClientFdPool (sv_pool (with_client W c)) = <[GetClientFd c := sv_next W]> (m_stClientFdPool (sv_pool W)))
    as Hpool by (cbn -[GetClientFd GetClientSeq]; unfold map_insert_new; by rewrite Hnone).
  assert (Hold : ∀ p d, sv_clients W !! p = Some d → sv_clients (with_client W c) !! p = Some d).
  { intros p d Hp. cbn -[GetClientFd GetClientSeq]. rewrite lookup_insert_ne; [done|].
    intros <-. specialize (Hnext (sv_next W) (ex_intro _ d Hp)). lia. }
  assert (Hnew : sv_clients (with_client W c) !! sv_next W = Some c) by apply lookup_insert_eq.
  split; [|done]. constructor.
  - rewrite Hpool. intros id p [[<- <-]|[Hne Hp]]%lookup_insert_Some.
    + exists c. split_and!; [done..|]. apply map_insert_new_Some. by left.
    + destruct (Hfd id p Hp) as (d & Hd & Hid & Hs). exists d. split_and!; [by apply Hold|done|].
      apply map_insert_new_Some. by right.
  - rewrite Hpool. intros seq p Hp.
    assert (p = sv_next W ∨ m_stClientSeqPool (sv_pool W) !! seq = Some p) as [->|Ho].
    { revert Hp. cbn -[GetClientFd GetClientSeq]. unfold map_insert_new. destruct (_ !! GetClientSeq c); [by right|].
      intros [[_ <-]|[_ ?]]%lookup_insert_Some; [by left|by right]. }
    + exists c. split; [done|]. rewrite lookup_insert_eq. by eexists.
    + destruct (Hseq seq p Ho) as (d & Hd & Hs). exists d. split; [by apply Hold|].
      rewrite lookup_insert_is_Some. destruct (decide (GetClientFd c = GetClientFd d)); auto.
  - intros p Hp. cbn -[GetClientFd GetClientSeq] in *. revert Hp. rewrite lookup_insert_is_Some.
    intros [<-|[_ Hp]]; [lia|]. specialize (Hnext p Hp). lia.
Qed.

Lemma new_client_table W seq id m W' :
  table_ok W → GetClientByFd (sv_pool W) id = None → _ProcessNewClient W seq id m = Ok W' →
  table_ok W' ∧ m_stClientFdPool (sv_pool W') = <[id := sv_next W]> (m_stClientFdPool (sv_pool W)).
Proof.
  intros Hok Hnone E. unfold _ProcessNewClient in E. destruct (msg_data m) as [data|]; [|done].
  rewrite Hnone in E. apply bind_Ok_iff in E as (n & _ & E). cbn beta in E.
  apply bind_Ok_iff in E as ([W1 q] & E1 & E). apply bind_Ok_iff in E1 as (c & Ec & E1).
  injection E1 as <- <-. apply bind_Ok_iff in E as (d & Hd & E). apply bind_Ok_iff in E as (c' & Ec' & E).
  injection E as <-. apply client_inv in Hd. pose proof (SetClientIP_numbers _ _ _ _ Ec) as [Fc _].
  pose proof (SetClientIP_numbers _ _ _ _ Ec') as [Fc' Sc']. change (GetClientFd c = id) in Fc.
  rewrite <- Fc in Hnone. destruct (add_client_table W c Hok Hnone) as [Hok1 Hpool]. rewrite Fc in Hpool.
  split; [|exact Hpool]. by apply (table_set_client (with_client W c) (sv_next W) d).
Qed.

(** *** Data *)

Lemma MoveBufferPtr_fd b ptr n b' : MoveBufferPtr b ptr n = Ok b' → cb_iClientFd b' = cb_iClientFd b.
Proof. unfold MoveBufferPtr. destruct (n <=? 0); intros E; inv_res; done. Qed.

Lemma Unpack_fd now P N b r b' N' P' :
  UnpackPacketToRecvQueue now P N b = Ok (r, b', N', P') → cb_iClientFd b' = cb_iClientFd b.
Proof.
  unfold UnpackPacketToRecvQueue. intros E. apply bind_Ok_iff in E as ([[exit q] P1] & _ & E). destruct exit.
  - apply bind_Ok_iff in E as (b1 & Hb & E). apply bind_Ok_iff in E as ([? ?] & _ & E).
    apply bind_Ok_iff in E as (N1 & _ & E). injection E as <- <- <- <-. by eapply MoveBufferPtr_fd.
  - by injection E as <- <- <- <-.
Qed.

Lemma PacketBufferRead_fd b data n r b' : PacketBufferRead b data n = Ok (r, b') → cb_iClientFd b' = cb_iClientFd b.
Proof. unfold PacketBufferRead. destruct (_ <? n); intros E; inv_res; done. Qed.

(** While data is taken the table stays; a malformed stream ends in the close above. *)
Lemma message_loop_table fuel now id p : ∀ W data n W',
  table_ok W → GetClientByFd (sv_pool W) id = Some p → message_loop fuel now W id p data n = Ok W' →
  table_ok W' ∧ sv_pool W' = sv_pool W.
Proof.
  induction fuel as [|fuel IH]; intros W data n W' Hok Hp E; [done|]. cbn [message_loop] in E.
  apply bind_Ok_iff in E as (c & Hc%client_inv & E). apply bind_Ok_iff in E as ([len b] & Hb & E).
  apply PacketBufferRead_fd in Hb.
  assert (table_ok (set_client W p (SetContextBuffer c b))) as Hok1 by by apply (table_set_client W p c).
  destruct (if 0 <? len then _ else _) as [data' n']. apply bind_Ok_iff in E as ([r W2] & Hr & E).
  unfold ExecuteCmdRecvAllPacket in Hr. apply bind_Ok_iff in Hr as (c1 & Hc1%client_inv & Hr).
  apply bind_Ok_iff in Hr as ([[[r1 b1] N1] P1] & Hu & Hr). injection Hr as <- <-. apply Unpack_fd in Hu.
  assert (table_ok (set_net (set_client (set_client W p (SetContextBuffer c b)) p (SetContextBuffer c1 b1)) N1 P1)) as Hok2
    by by apply (table_update _ p c1).
  destruct (negb _).
  - apply bind_Ok_iff in E as (r2 & Hclose & _). pose proof (close_known _ id p Hok2 Hp) as Hf.
    cbn in Hf, Hclose. congruence.
  - destruct (0 <? n'); [|by injection E as <-]. by destruct (IH _ _ _ _ Hok2 Hp E).
Qed.

Lemma message_data_table fuel now W id m W' :
  table_ok W → _ProcessMessageData fuel now W id m = Ok W' → table_ok W' ∧ sv_pool W' = sv_pool W.
Proof.
  intros Hok. unfold _ProcessMessageData. destruct (GetClientByFd _ _) as [p|] eqn:Hp; [|by intros [= <-]].
  destruct (msg_data m) as [data|]; [|by intros [= <-]]. destruct (_ <=? 0); [by intros [= <-]|].
  by apply message_loop_table.
Qed.

(** ** Both sides together *)

(** The table has the accepted connections. *)
Definition agree (W : server) (s : socket_server) : Prop :=
  ∀ id, is_Some (GetClientByFd (sv_pool W) id) ↔ clients s (HASH_ID id) = Some id.

Section Together.
Context `{Env}.

(** The handler does to the table what the poll did to the slots. *)
Lemma handler_agrees mfuel now seq W s s' ty m W' start :
  table_ok W → agree W s → slots_ok s → change (clients s) (clients s') ty m →
  _ProcessOneLoop mfuel now seq W ty (with_nul ty m) = Ok (W', start) →
  table_ok W' ∧ agree W' s' ∧ start = if ty =? SOCKET_ACCEPT then Some (msg_ud m) else None.
Proof.
  intros Hok Hag Hslots Hch E. destruct Hch as [ty m Hty Hc|ty m Hty Hc|m Hf Hc|m i data Hi Hd Hl Hp Hc].
  - assert ((ty =? SOCKET_ACCEPT) = false ∧ (ty =? SOCKET_CLOSE) = false ∧ (ty =? SOCKET_ERROR) = false ∧
      (ty =? SOCKET_DATA) = false) as (E1 & E2 & E3 & E4).
    { rewrite !Z.eqb_neq. split_and!; intros ->; apply Hty; by apply (bool_decide_unpack _). }
    unfold _ProcessOneLoop in E. rewrite E1, E2, E3, E4 in E. cbn [orb] in E. injection E as <- <-. rewrite E1.
    split_and!; [done| |done]. intros id. rewrite Hc. apply Hag.
  - assert ((ty =? SOCKET_ACCEPT) = false ∧ (ty =? SOCKET_CLOSE) || (ty =? SOCKET_ERROR) = true) as [E1 E2]
      by by destruct Hty as [-> | ->].
    unfold _ProcessOneLoop, with_nul in E. rewrite E1, E2 in E. rewrite E1. destruct (GetClientByFd (sv_pool W) (msg_id m)) as [p|] eqn:Hp.
    + by rewrite (close_known W _ p Hok Hp) in E.
    + rewrite (close_unknown W _ Hp) in E. injection E as <- <-. split_and!; [done| |done].
      intros id. rewrite Hc, decide_False; [apply Hag|]. intros Hi.
      destruct (client_home _ _ _ Hslots Hi) as (Hh & _ & _). rewrite <- Hh in Hi. apply Hag in Hi as [q Hq]. congruence.
  - unfold _ProcessOneLoop, with_nul in E. change (SOCKET_ACCEPT =? SOCKET_ACCEPT) with true in *. cbn iota in E.
    cbn [msg_ud] in E. apply bind_Ok_iff in E as (W1 & HW1 & E). injection E as <- <-.
    assert (GetClientByFd (sv_pool W) (msg_ud m) = None) as Hnone.
    { apply eq_None_not_Some. intros Hs. apply Hag in Hs. congruence. }
    destruct (new_client_table W seq (msg_ud m) _ W1 Hok Hnone HW1) as [Hok1 Hpool]. split_and!; [done| |done].
    intros id. unfold GetClientByFd. rewrite Hpool, Hc, lookup_insert_is_Some. destruct (decide (HASH_ID id = HASH_ID (msg_ud m))) as [Hh|Hh].
    + split; [|intros Hs; left; congruence]. intros [<-|[_ Hs]]; [done|]. apply Hag in Hs. congruence.
    + split; [|intros Hs; right; split; [by intros <-|by apply Hag]]. intros [<-|[_ Hs]]; [done|]. by apply Hag.
  - unfold _ProcessOneLoop, with_nul in E. change (SOCKET_DATA =? SOCKET_ACCEPT) with false in *.
    change ((SOCKET_DATA =? SOCKET_CLOSE) || (SOCKET_DATA =? SOCKET_ERROR)) with false in E.
    change (SOCKET_DATA =? SOCKET_DATA) with true in E. cbn iota in E.
    apply bind_Ok_iff in E as (W1 & HW1 & E). injection E as <- <-.
    destruct (message_data_table _ _ _ _ _ _ Hok HW1) as [Hok1 Hpool]. split_and!; [done| |done].
    intros id. rewrite Hpool, Hc. apply Hag.
Qed.

(** Starting the accepted socket writes a request and nothing else. *)
Lemma start_server_side n id w rqs :
  server_side (ss w) rqs → is_int id → id <= alloc_id (ss w) →
  wp any_fault (socket_server_start n NETWORK_SOCKET_SERVER_OPAQUE id)
    (λ _ w', (∃ rqs', server_side (ss w') rqs') ∧ (∀ i, clients (ss w') i = clients (ss w) i)) w.
Proof.
  intros [Hinv Hown Hok Hev] Hid Hle. unfold socket_server_start.
  eapply wp_mono; [apply send_request_any|]. cbn beta. intros u w1 (Hss & _ & _). rewrite Hss. split; [|done].
  exists (rqs ++ [RqStart id NETWORK_SOCKET_SERVER_OPAQUE]). split; [|by apply Forall_app_2; [|by repeat constructor]|done|done].
  apply send_inv; [done|cbn; unfold is_ptr, is_int in *; by change NETWORK_SOCKET_SERVER_OPAQUE with 1001; lia|done|].
  intros id' [= <-]. split; [done|]. apply not_elem_of_nil.
Qed.
(** The poll of a round. *)
Lemma poll_of_round n fuel w ty w1 :
  (let! r := socket_server_poll fuel n None in ret r.1) w = Ok (ty, w1) →
  ∃ more, socket_server_poll fuel n None w = Ok ((ty, more), w1).
Proof.
  unfold bind, ret. destruct (socket_server_poll fuel n None w) as [[[t more] w2]|f]; [|done].
  intros [= <- <-]. by exists more.
Qed.

(** The states of both sides that belong together. *)
Definition together (w : world) (W : server) : Prop :=
  (∃ rqs, server_side (ss w) rqs) ∧ table_ok W ∧ agree W (ss w).

Lemma round_keeps n fuel mfuel now seq w W w' W' :
  together w W → room (MAX_SOCKET * Z.of_nat fuel) (ss w) → epoll_honest fuel n None w →
  receive_round n fuel mfuel now seq w W = Ok (w', W') → together w' W'.
Proof.
  intros ([rqs Hside] & Hok & Hag) Hroom Hepoll E. unfold receive_round in E.
  apply bind_Ok_iff in E as ([ty w1] & Hpoll & E). apply poll_of_round in Hpoll as [more Hpoll].
  pose proof (poll_server_side n fuel w rqs None Hside Hroom Hepoll) as Hp. unfold wp in Hp. rewrite Hpoll in Hp.
  destruct Hp as ([rqs1 Hside1] & Halloc & _ & _ & Hch & Hacc). cbn [fst] in *.
  apply bind_Ok_iff in E as ([W1 start] & HW1 & E).
  destruct (handler_agrees mfuel now seq W (ss w) (ss w1) ty (result w1) W1 start Hok Hag (ss_slots _ _ Hside) Hch HW1)
    as (Hok1 & Hag1 & ->).
  destruct (Z.eqb_spec ty SOCKET_ACCEPT) as [Hty|_]; [|by injection E as <- <-; split; [exists rqs1|]].
  apply bind_Ok_iff in E as ([u w2] & Hstart & E). injection E as <- <-. destruct (Hacc Hty) as [Hge Hle].
  pose proof (pi_alloc _ _ _ (ss_protocol _ _ Hside1)) as Ha.
  pose proof (start_server_side n (msg_ud (result w1)) w1 rqs1 Hside1 ltac:(unfold is_int; lia) Hle) as Hs.
  unfold wp in Hs. rewrite Hstart in Hs. destruct Hs as [Hside2 Hcl]. split; [done|]. split; [done|].
  intros id. rewrite Hcl. apply Hag1.
Qed.

(** *** Sends of the command thread *)

Lemma send_keeps_together n id b sz w W r w' :
  together w W → issued (ss w) id → is_ptr b → is_int sz → socket_server_send n id b sz w = Ok (r, w') → together w' W.
Proof.
  intros ([rqs [Hinv Hown Hslots Hev]] & Hok & Hag) [Hi Hle] Hb Hsz E.
  assert (wp any_fault (socket_server_send n id b sz) (λ _ w1,
    ss w1 = ss w ∨ ss w1 = with_pipe (ss w) (pipe (ss w) ++ frame (RqSend id sz b))) w) as Hw.
  { unfold socket_server_send. apply wp_bind. eapply wp_mono; [apply send_slot_frozen|]. cbn beta. intros s w1 E1.
    destruct s; [|wp_steps; by left]. apply wp_bind. eapply wp_mono; [apply send_request_any|]. cbn beta.
    intros u w2 (Hss & _ & _). unfold sent_size. wp_steps. right. by rewrite Hss, E1. }
  unfold wp in Hw. rewrite E in Hw. split; [|split; [done|by destruct Hw as [-> | ->]]].
  destruct Hw as [-> | ->]; [by exists rqs|]. exists (rqs ++ [RqSend id sz b]).
  split; [|by apply Forall_app_2; [|by repeat constructor]|done|done].
  apply send_inv; [done|cbn; by split_and!|done|]. intros id' [= <-]. split; [done|]. apply not_elem_of_nil.
Qed.

(** *** The start *)

Lemma create_server_side w :
  wp any_fault socket_server_create (λ b w', b = true → server_side (ss w') [] ∧ alloc_id (ss w') = 0 ∧
    ∀ i, clients (ss w') i = None) w.
Proof.
  unfold socket_server_create. apply wp_bind. unfold sp_create. wp_steps. destruct (sp_invalid _); [by wp_steps|].
  wp_steps. destruct (negb _); [by wp_steps|]. apply wp_bind. eapply wp_mono; [apply frozen_sp_add|].
  cbn beta. intros failed w1 _. destruct failed; [by wp_steps|]. wp_steps.
  eapply wp_mono; [apply frozen_assert|]. cbn beta. intros _ w2 E2. apply wp_ret. intros _. rewrite E2.
  split; [|done]. split; [by apply fresh_server_inv|done| |].
  - intros i. split; [|done]. by apply (bool_decide_unpack _).
  - split; [done|]. intros k e i Hk. cbn in Hk. lia.
Qed.

(** A slot is reserved and the request that makes it listen written. *)
Lemma reserve_server_side s s' rqs id fd opq :
  server_side s rqs → request_ok (RqListen id fd opq) → alloc_id s < id → id = alloc_id s' → id < 2 ^ 31 →
  type (slot_at s (HASH_ID id)) = SOCKET_TYPE_INVALID → events s' = events s →
  slot s' = <[HASH_ID id := reserved (slot_at s (HASH_ID id)) id]> (slot s) →
  pipe s' = pipe s ++ frame (RqListen id fd opq) →
  server_side s' (rqs ++ [RqListen id fd opq]) ∧ ∀ i, clients s' i = clients s i.
Proof.
  intros [Hinv Hown Hok Hev] Hrq Hlt Hid Hmax Ht [= En Ei Ee] Hs Hp.
  assert (Hslot : ∀ j, slot_at s' j = if decide (HASH_ID id = j) then reserved (slot_at s (HASH_ID id)) id else slot_at s j).
  { intros j. rewrite <- slot_at_insert. unfold slot_at. by rewrite Hs. }
  split; [split|].
  - by apply (reserve_inv s rqs [] s' (RqListen id fd opq) id).
  - by apply Forall_app_2; [|by repeat constructor].
  - intros j. rewrite Hslot. case_decide; [|apply Hok]. split; [by apply (bool_decide_unpack _)|done].
  - destruct Hev as [Hb Hev]. split; [by rewrite Ei, En|]. intros k e j. rewrite En, Ei, Ee, Hslot. intros Hk He Hj.
    pose proof (Hev k e j Hk He Hj) as Hpol. case_decide; [subst j; rewrite Ht in Hpol; by destruct Hpol|done].
  - intros j. unfold clients. rewrite Hslot. case_decide; [subst j|done]. unfold client_of. by rewrite Ht.
Qed.

Lemma listen_server_side n opq addr port backlog w rqs :
  env_ok → server_side (ss w) rqs → is_ptr opq → room MAX_SOCKET (ss w) →
  wp any_fault (socket_server_listen n opq addr port backlog) (λ l w',
    (∃ rqs', server_side (ss w') rqs') ∧ is_int l ∧ l <= alloc_id (ss w') ∧ ∀ i, clients (ss w') i = clients (ss w) i) w.
Proof.
  intros Hn Hside Hopq Hroom. pose proof (pi_alloc _ _ _ (ss_protocol _ _ Hside)) as Ha.
  assert (is_int (-1)) as Hm1 by (unfold is_int; lia). unfold socket_server_listen. apply wp_bind.
  eapply wp_mono; [by apply do_listen_int|]. cbn beta. intros f w1 [E1 Hf]. destruct (f <? 0).
  { wp_steps. rewrite E1. split_and!; [by exists rqs|done|lia|done]. }
  rewrite <- E1 in Hside, Hroom, Ha |- *. unfold room in Hroom. apply wp_bind. unfold reserve_id.
  eapply wp_mono; [apply wp_and; [eapply wp_any, reserve_loop_fresh; [lia|change MAX_SOCKET with 65536 in *; lia]|
    apply reserve_loop_events]|].
  cbn beta. rewrite Z2Nat.id by done. intros id w2 [(Hal & Hp & Hor) Ev2].
  destruct (Z.ltb_spec id 0) as [Hneg|Hpos].
  - destruct Hor as [[-> Hs]|(? & ? & _)]; [|lia]. wp_steps. cbn [ss].
    assert (same (ss w1) (ss w2)) as Hsame by (split; [done|]; intros j; unfold slot_at; by rewrite Hs).
    destruct Hside as [Hinv Hown Hok Hev]. split_and!; [|done|lia|by apply clients_same]. exists rqs.
    split; [|done|by eapply slots_same|].
    + eapply (grows_inv MAX_SOCKET); [exact Hinv| |done]. split; [done|]. split; [done|].
      intros j. unfold slot_at. by rewrite Hs.
    + injection Ev2 as En Ei Ee. destruct Hev as [Hb Hev]. split; [by rewrite Ei, En|]. intros k e j. rewrite En, Ei, Ee.
      destruct Hsame as [_ Hsame]. destruct (Hsame j) as [-> _]. apply Hev.
  - destruct Hor as [[-> _]|(Hlt & Hid & Ht & Hs)]; [lia|].
    apply wp_bind. eapply wp_mono; [apply send_request_any|]. cbn beta. intros u w3 (Hss & _ & _). wp_steps. rewrite Hss.
    destruct (reserve_server_side (ss w1) (with_pipe (ss w2) (pipe (ss w2) ++ frame (RqListen id f opq))) rqs id f opq) as [Hside3 Hcl];
      try done; [cbn; unfold is_int in *; split_and!; done || lia|lia|cbn; by rewrite Hp|].
    split_and!; [by eexists|unfold is_int; lia|cbn; lia|done].
Qed.

(** SocketServer::Init leads to such a state, with no client. *)
Lemma listening_together n addr port backlog w l w' W :
  env_ok → listening_server n addr port backlog w = Ok (l, w') →
  m_stClientFdPool (sv_pool W) = ∅ → m_stClientSeqPool (sv_pool W) = ∅ → sv_clients W = ∅ → together w' W.
Proof.
  intros Hn E Hfd Hseq Hcl.
  assert (wp any_fault (listening_server n addr port backlog)
    (λ _ w', (∃ rqs, server_side (ss w') rqs) ∧ ∀ i, clients (ss w') i = None) w) as Hw.
  { unfold listening_server. apply wp_bind. eapply wp_mono; [apply create_server_side|]. cbn beta. intros created w1 Hc.
    unfold m_assert. destruct created; [|done]. destruct (Hc eq_refl) as (Hside & Ha & Hnone). wp_steps.
    eapply wp_mono; [eapply listen_server_side; [done|exact Hside|by unfold is_ptr; change NETWORK_SOCKET_SERVER_OPAQUE with 1001; lia|
      by unfold room; rewrite Ha]|]. cbn beta. intros l' w2 ([rqs2 Hside2] & Hl & Hle & Hcl2). wp_steps.
    eapply wp_mono; [by apply (start_server_side n l' w2 rqs2)|]. cbn beta. intros u w3 [Hside3 Hcl3]. wp_steps.
    split; [done|]. intros i. by rewrite Hcl3, Hcl2. }
  unfold wp in Hw. rewrite E in Hw. destruct Hw as [Hside Hnone]. split; [done|]. split.
  - constructor; rewrite ?Hfd, ?Hseq, ?Hcl; [by intros ? ? ?%lookup_empty_Some..|]. intros p. rewrite lookup_empty. by intros [? ?].
  - intros id. unfold GetClientByFd. rewrite Hfd, lookup_empty, Hnone. split; [by intros [? ?]|done].
Qed.

(** ** Every run *)

(** The receiving thread and the command thread of a socket server, in any order: the first
    polls and handles messages, the second sends. *)
Inductive server_run (n : nat) : world → server → Prop :=
| run_start w addr port backlog l w' W :
    listening_server n addr port backlog w = Ok (l, w') →
    m_stClientFdPool (sv_pool W) = ∅ → m_stClientSeqPool (sv_pool W) = ∅ → sv_clients W = ∅ → server_run n w' W
| run_send w W id b sz r w' :
    server_run n w W → issued (ss w) id → is_ptr b → is_int sz →
    socket_server_send n id b sz w = Ok (r, w') → server_run n w' W
| run_round w W fuel mfuel now seq w' W' :
    server_run n w W → room (MAX_SOCKET * Z.of_nat fuel) (ss w) → epoll_honest fuel n None w →
    receive_round n fuel mfuel now seq w W = Ok (w', W') → server_run n w' W'.

Lemma run_together n w W : env_ok → server_run n w W → together w W.
Proof.
  intros Hn. induction 1 as [w addr port backlog l w' W E H1 H2 H3|w W id b sz r w' _ IH Hid Hb Hsz E
    |w W fuel mfuel now seq w' W' _ IH Hroom Hepoll E].
  - by eapply listening_together.
  - by eapply send_keeps_together.
  - by eapply round_keeps.
Qed.

(** C7: the client table of the receiving thread is the set of accepted connections.  In every
    run of the socket server, however polls, handlers and sends interleave and whatever the
    system answers: the table has a client under an identifier exactly when the slot of that
    identifier is an accepted connection; the next poll reports an accepted connection only
    under an identifier the table does not have, and data only for a client of the table; and
    when it reports that a connection of the table was closed, or failed, the round ends in
    undefined behaviour, because RemoveClientByFd reads the element it has erased. *)
Theorem client_table_agrees n w W :
  env_ok → server_run n w W →
  (∀ id, is_Some (GetClientByFd (sv_pool W) id) ↔
     sid (slot_at (ss w) (HASH_ID id)) = id ∧
     type (slot_at (ss w) (HASH_ID id)) ∈ [SOCKET_TYPE_PACCEPT; SOCKET_TYPE_CONNECTED]) ∧
  ∀ fuel ty more w', room (MAX_SOCKET * Z.of_nat fuel) (ss w) → epoll_honest fuel n None w →
    socket_server_poll fuel n None w = Ok ((ty, more), w') →
    (ty = SOCKET_ACCEPT → GetClientByFd (sv_pool W) (msg_ud (result w')) = None) ∧
    (ty = SOCKET_DATA → is_Some (GetClientByFd (sv_pool W) (msg_id (result w'))) ∧
       ∃ data, msg_data (result w') = Some data ∧ data ≠ []) ∧
    (ty = SOCKET_CLOSE ∨ ty = SOCKET_ERROR → is_Some (GetClientByFd (sv_pool W) (msg_id (result w'))) →
       ∀ mfuel now seq, receive_round n fuel mfuel now seq w W = Fault UseAfterFree).
Proof.
  intros Hn Hrun. destruct (run_together n w W Hn Hrun) as ([rqs Hside] & Hok & Hag). split.
  { intros id. rewrite (Hag id). unfold clients, client_of. rewrite !elem_of_cons.
    destruct (Z.eqb_spec (type (slot_at (ss w) (HASH_ID id))) SOCKET_TYPE_PACCEPT) as [->|Hn1]; cbn [orb].
    - split; [intros [= ->]; auto|by intros [-> _]].
    - destruct (Z.eqb_spec (type (slot_at (ss w) (HASH_ID id))) SOCKET_TYPE_CONNECTED) as [->|Hn2]; cbn [orb].
      + split; [intros [= ->]; auto|by intros [-> _]].
      + split; [done|]. intros [_ [?|[?|Hnil]]]; try done. by apply not_elem_of_nil in Hnil. }
  intros fuel ty more w' Hroom Hepoll Hpoll.
  pose proof (poll_server_side n fuel w rqs None Hside Hroom Hepoll) as Hp. unfold wp in Hp. rewrite Hpoll in Hp.
  destruct Hp as (_ & _ & _ & _ & Hch & _). cbn [fst] in Hch. split_and!.
  - intros ->. apply eq_None_not_Some. intros Hs. apply Hag in Hs.
    inversion Hch as [? ? Hty|? ? [Hty|Hty]|? Hf|]; [|done|done|congruence].
    by destruct (Hty ltac:(by apply (bool_decide_unpack _))).
  - intros ->. inversion Hch as [? ? Hty|? ? [Hty|Hty]| |? i data Hi Hd Hl Hpos]; [|done|done|].
    { by destruct (Hty ltac:(by apply (bool_decide_unpack _))). }
    split; [|exists data; split; [done|by intros ->; cbn in Hl; lia]]. apply Hag.
    destruct (client_home _ _ _ (ss_slots _ _ Hside) Hi) as (-> & _). done.
  - intros Hty [p Hp] mfuel now seq. unfold receive_round, bind. rewrite Hpoll. cbn [ret fst mbind res_bind].
    assert ((ty =? SOCKET_ACCEPT) = false ∧ (ty =? SOCKET_CLOSE) || (ty =? SOCKET_ERROR) = true) as [E1 E2]
      by by destruct Hty as [-> | ->].
    unfold _ProcessOneLoop, with_nul. rewrite E1, E2. by rewrite (close_known W _ p Hok Hp).
Qed.
End Together.

(** A server to which one peer has connected: every call succeeds, epoll reports the listening
    slot. *)
Definition peer_address : sockaddr_all := mk_sa AF_INET [0; 80] [127; 0; 0; 1] 0 0.
Definition peer_env : Env :=
  Build_Env (λ _, mk_sysres 0 0 [65] peer_address [(Some 1, EPOLLIN)]) (λ a, a mod 256)
    (λ _ _ _, Some [mk_ai AF_INET SOCK_STREAM peer_address]) (λ _ _, Some [120]).
Definition no_clients : server := mk_server net_new (mk_cpool ∅ ∅) ∅ 0 pool_new.

Definition peer_start : world :=
  match @listening_server peer_env 1 (Some [49]) 80 5 world0 with Ok (_, w) => w | Fault _ => world0 end.
Definition peer_round (fuel : nat) (seq : Z) (st : world * server) : world * server :=
  match @receive_round peer_env 1 fuel 1 (λ _, 0) seq st.1 st.2 with Ok st => st | Fault _ => st end.
Definition peer_listening : world * server := peer_round 2 7 (peer_start, no_clients).
Definition peer_accepted : world * server := peer_round 1 7 peer_listening.

Lemma peer_env_ok : @env_ok peer_env.
Proof.
  split; [intros k; cbn; unfold is_int; lia|]. intros h port t l ai. cbn. intros [= <-] ->%list_elem_of_singleton.
  split; [by vm_compute|done].
Qed.

(** What has to be known of a state before a round. *)
Definition peer_asks (w : world) : bool :=
  negb (event_index (ss w) =? event_n (ss w)) || (checkctrl (ss w) && bool_decide (pipe (ss w) ≠ []))
  || (type (slot_at (ss w) 1) =? SOCKET_TYPE_LISTEN).

Lemma peer_epoll w : peer_asks w = true → @epoll_round peer_env w.
Proof.
  intros Hb Hidx Hask i f Hin. apply list_elem_of_singleton in Hin as [= -> ->]. left.
  unfold peer_asks in Hb. rewrite Hidx, Z.eqb_refl in Hb. cbn [negb orb] in Hb.
  apply orb_true_iff in Hb as [[Hc Hp%bool_decide_eq_true]%andb_true_iff|Ht%Z.eqb_eq]; [|done].
  exfalso. rewrite Hc in Hask. destruct Hask as [?|[Hr|?]]; [done| |done]. cbn in Hr. lia.
Qed.

Definition is_Ok {A} (r : res A) : bool := match r with Ok _ => true | Fault _ => false end.

Lemma peer_run_round fuel seq st :
  @server_run peer_env 1 st.1 st.2 → room (MAX_SOCKET * Z.of_nat fuel) (ss st.1) → @epoll_honest peer_env fuel 1 None st.1 →
  is_Ok (@receive_round peer_env 1 fuel 1 (λ _, 0) seq st.1 st.2) = true →
  @server_run peer_env 1 (peer_round fuel seq st).1 (peer_round fuel seq st).2.
Proof.
  intros Hrun Hroom Hepoll E. eapply (@run_round peer_env 1 st.1 st.2 fuel 1 (λ _, 0) seq); [done..|].
  unfold peer_round. by destruct (receive_round _ _ _ _ _ _ _) as [[? ?]|].
Qed.

Lemma peer_start_run : @server_run peer_env 1 peer_start no_clients.
Proof.
  eapply (@run_start peer_env 1 world0 (Some [49]) 80 5 1); [vm_compute; reflexivity|reflexivity..].
Qed.

Lemma peer_listening_run : @server_run peer_env 1 peer_listening.1 peer_listening.2.
Proof.
  apply peer_run_round.
  - exact peer_start_run.
  - vm_compute. reflexivity.
  - split; [apply peer_epoll; vm_compute; reflexivity|]. cbn [fst].
    assert (∃ w, @poll_round peer_env 1 None peer_start = Ok (None, None, w) ∧ peer_asks w = true) as (w & E & Hw)
      by (eexists; split; vm_compute; reflexivity).
    rewrite E. split; [by apply peer_epoll|]. by destruct (poll_round 1 None w) as [[[[] ?] ?]|].
  - vm_compute. reflexivity.
Qed.

Lemma peer_honest w : peer_asks w = true → @epoll_honest peer_env 1 1 None w.
Proof. intros Hw. split; [by apply peer_epoll|]. by destruct (poll_round _ _ _) as [[[[] ?] ?]|]. Qed.

Lemma peer_accepted_run : @server_run peer_env 1 peer_accepted.1 peer_accepted.2.
Proof.
  apply peer_run_round; [exact peer_listening_run|vm_compute; reflexivity| |vm_compute; reflexivity].
  apply peer_honest. vm_compute. reflexivity.
Qed.

Lemma client_table_agrees_witness :
  is_Some (GetClientByFd (sv_pool peer_accepted.2) 2) ∧ sid (slot_at (ss peer_accepted.1) 2) = 2 ∧
  GetClientByFd (sv_pool peer_listening.2) 2 = None.
Proof.
  destruct (@client_table_agrees peer_env 1 _ _ peer_env_ok peer_accepted_run) as [Hacc _].
  destruct (@client_table_agrees peer_env 1 _ _ peer_env_ok peer_listening_run) as [_ Hnext].
  assert (is_Some (GetClientByFd (sv_pool peer_accepted.2) 2)) as Hs by (vm_compute; by eexists).
  split; [exact Hs|]. split; [exact (proj1 (proj1 (Hacc 2) Hs))|].
  assert (∃ more w', @socket_server_poll peer_env 1 1 None peer_listening.1 = Ok ((SOCKET_ACCEPT, more), w') ∧ msg_ud (result w') = 2)
    as (more & w' & Hpoll & Hid) by (eexists _, _; split; vm_compute; reflexivity).
  destruct (Hnext 1%nat SOCKET_ACCEPT more w') as [Hnone _]; [vm_compute; reflexivity| |exact Hpoll|].
  - apply peer_honest. vm_compute. reflexivity.
  - rewrite <- Hid. exact (Hnone eq_refl).
Defined.
