(* ===== verification/Uuid.v ===== *)
(** * Unique identifiers (src/common/utils/uuid.h, src/common/utils/time.h)

    SnowFlakeUUID builds a 47-bit number from a time stamp of 25 bits, a host of 5
    bits, a server of 5 bits and a sequence number of 12 bits.  The clock is the
    sequence of answers of clock_gettime; a call reads it once, and again in a loop
    when the 4096 sequence numbers of a microsecond are used up. *)

From stdpp Require Import sorting.
From S2P Require Import Prelude.

Record timespec := mkTimespec { tv_sec : Z; tv_nsec : Z }.

(** size_t arithmetic: 64 bits. *)
Definition GetMilliSecond (ti : timespec) : Z :=
  let t := u64 (u64 (tv_sec ti) * 1000) in
  u64 (t + Z.quot (tv_nsec ti) 1000000).

Definition GetMicroSecond (ti : timespec) : Z :=
  let t := u64 (u64 (tv_sec ti) * 1000000) in
  u64 (t + Z.quot (tv_nsec ti) 1000).

(** The constructor leaves the two identifiers indeterminate; Init sets them. *)
Record SnowFlakeUUID := mkUUID {
  m_dwHostID : option Z;
  m_dwGameSvrID : option Z;
  m_ulSequenceID : Z;
  m_ulLastTimestamp : Z }.

Definition SnowFlakeUUID_new : SnowFlakeUUID := mkUUID None None 0 0.

Definition uuid_Init (g : SnowFlakeUUID) (dwHostID dwGameSvrID : Z) : SnowFlakeUUID :=
  mkUUID (Some (u32 dwHostID)) (Some (u32 dwGameSvrID)) (m_ulSequenceID g) (m_ulLastTimestamp g).

Definition initialised (v : option Z) : res Z :=
  match v with Some x => Ok x | None => Fault Undefined end.

Section Generate.
(** The [i]-th answer of clock_gettime. *)
Context (clock : nat → timespec).

(** The clock read for the [i]-th time. *)
Definition now (i : nat) : Z := GetMicroSecond (clock i).

Fixpoint wait_loop (fuel : nat) (ulLastTimestamp ulNowTimestamp : Z) (i : nat) : res (Z * nat) :=
  if ulNowTimestamp <=? ulLastTimestamp then
    match fuel with
    | O => Fault OutOfFuel
    | S fuel => wait_loop fuel ulLastTimestamp (now i) (S i)
    end
  else Ok (ulNowTimestamp, i).

Definition _WaitNextTimestamp (fuel : nat) (ulLastTimestamp : Z) (i : nat) : res (Z * nat) :=
  wait_loop fuel ulLastTimestamp (now i) (S i).

Definition uuid_pack (ts host svr seq : Z) : Z :=
  (((u64 ((ts .& 0x1FFFFFF) .<< 22)) .|
    (u32 ((host .& 0x1F) .<< 17))) .|
    (u32 ((svr .& 0x1F) .<< 12)) .|
    (seq .& 0xFFF))%cint.

Definition GenerateSeqID (fuel : nat) (g : SnowFlakeUUID) (i : nat)
    : res (Z * SnowFlakeUUID * nat) :=
  let ulNowTimestamp := now i in
  '(ulNowTimestamp, seq, i) ←
    (if m_ulLastTimestamp g =? ulNowTimestamp then
       let seq := Z.land (u64 (m_ulSequenceID g + 1)) 0xFFF in
       if seq =? 0 then
         '(ts, i) ← _WaitNextTimestamp fuel (m_ulLastTimestamp g) (S i);
         Ok (ts, seq, i)
       else Ok (ulNowTimestamp, seq, S i)
     else Ok (ulNowTimestamp, 0, S i));
  host ← initialised (m_dwHostID g);
  svr ← initialised (m_dwGameSvrID g);
  Ok (uuid_pack ulNowTimestamp host svr seq,
      mkUUID (m_dwHostID g) (m_dwGameSvrID g) seq ulNowTimestamp, i).

(** [n] calls one after the other. *)
Fixpoint generate_n (fuel n : nat) (g : SnowFlakeUUID) (i : nat)
    : res (list Z * SnowFlakeUUID * nat) :=
  match n with
  | O => Ok ([], g, i)
  | S n =>
      '(id, g, i) ← GenerateSeqID fuel g i;
      '(ids, g, i) ← generate_n fuel n g i;
      Ok (id :: ids, g, i)
  end.

End Generate.

Example generate_5 :
  generate_n (fun i => mkTimespec 7 (Z.of_nat i * 400)) 1 5
    (uuid_Init SnowFlakeUUID_new 3 2) 0
  = Ok ([29360128401408; 29360128401409; 29360128401410; 29360132595712; 29360132595713],
        mkUUID (Some 3) (Some 2) 1 7000001, 5%nat).
Proof. vm_compute. reflexivity. Qed.

(** ** The fields of an identifier *)

Lemma lor_shiftl_add a b k : 0 <= k → 0 <= b < 2 ^ k → Z.lor (Z.shiftl a k) b = a * 2 ^ k + b.
Proof.
  intros Hk Hb. rewrite <- Z.shiftl_mul_pow2 by done.
  assert (Z.land (Z.shiftl a k) b = 0) as Hland.
  { apply Z.bits_inj'. intros n Hn. rewrite Z.land_spec, Z.bits_0.
    destruct (decide (n < k)).
    - by rewrite Z.shiftl_spec_low.
    - rewrite <- (Z.mod_small b (2 ^ k)) by done.
      rewrite Z.mod_pow2_bits_high by lia. apply andb_false_r. }
  rewrite Z.add_nocarry_lxor by done. symmetry. by apply Z.lxor_lor.
Qed.

Lemma uuid_pack_fields ts host svr seq :
  uuid_pack ts host svr seq =
  ((ts mod 2 ^ 25 * 32 + host mod 32) * 32 + svr mod 32) * 4096 + seq mod 4096.
Proof.
  unfold uuid_pack.
  change 0x1FFFFFF with (2 ^ 25 - 1). change 0x1F with (2 ^ 5 - 1). change 0xFFF with (2 ^ 12 - 1).
  rewrite !land_mask by lia.
  change (2 ^ 5) with 32 in *. change (2 ^ 12) with 4096.
  pose proof (Z.mod_pos_bound ts (2 ^ 25) ltac:(lia)) as Ht.
  pose proof (Z.mod_pos_bound host 32 ltac:(lia)) as Hh.
  pose proof (Z.mod_pos_bound svr 32 ltac:(lia)) as Hs.
  pose proof (Z.mod_pos_bound seq 4096 ltac:(lia)) as Hq.
  set (t := ts mod 2 ^ 25) in *. set (h := host mod 32) in *.
  set (s := svr mod 32) in *. set (q := seq mod 4096) in *.
  clearbody t h s q. change (2 ^ 25) with 33554432 in *.
  rewrite !wrap_small.
  2-4: rewrite Z.shiftl_mul_pow2 by lia;
       change (2 ^ 12) with 4096; change (2 ^ 17) with 131072; change (2 ^ 22) with 4194304;
       change (2 ^ 32) with 4294967296; change (2 ^ 64) with 18446744073709551616; lia.
  rewrite <- !Z.lor_assoc.
  rewrite (lor_shiftl_add s q 12) by lia.
  rewrite (lor_shiftl_add h _ 17) by lia.
  rewrite (lor_shiftl_add t _ 22) by lia. lia.
Qed.

Lemma uuid_pack_bounds ts host svr seq : 0 <= uuid_pack ts host svr seq < 2 ^ 47.
Proof.
  rewrite uuid_pack_fields. change (2 ^ 25) with 33554432. Z.div_mod_to_equations. lia.
Qed.

Lemma uuid_pack_inj t1 h1 s1 q1 t2 h2 s2 q2 :
  0 <= q1 < 4096 → 0 <= q2 < 4096 →
  uuid_pack t1 h1 s1 q1 = uuid_pack t2 h2 s2 q2 →
  t1 mod 2 ^ 25 = t2 mod 2 ^ 25 ∧ h1 mod 32 = h2 mod 32 ∧ s1 mod 32 = s2 mod 32 ∧ q1 = q2.
Proof.
  intros H1 H2. rewrite !uuid_pack_fields. change (2 ^ 25) with 33554432.
  Z.div_mod_to_equations. lia.
Qed.

(** ** Runs on a clock that does not go back *)

Section Unique.
Context (clock : nat → timespec).

(** CLOCK_MONOTONIC. *)
Definition monotone : Prop := ∀ i j, (i <= j)%nat → now clock i <= now clock j.

(** The stamp and the sequence number of an identifier, in generation order. *)
Definition later (p q : Z * Z) : Prop := p.1 < q.1 ∨ (p.1 = q.1 ∧ p.2 < q.2).

Lemma later_trans p q r : later p q → later q r → later p r.
Proof. unfold later. lia. Qed.

(** Reading [fuel] times while the clock advances within them ends the wait. *)
Lemma wait_loop_ok fuel last ts i :
  (ts <= last → ∃ d, (d < fuel)%nat ∧ last < now clock (i + d)) →
  ∃ ts' i', wait_loop clock fuel last ts i = Ok (ts', i') ∧
    (i <= i' <= i + fuel)%nat ∧ last < ts' ∧
    (ts' = ts ∨ ∃ j, (i <= j < i')%nat ∧ ts' = now clock j).
Proof.
  revert ts i. induction fuel as [|fuel IH]; intros ts i Hd; cbn [wait_loop].
  - destruct (Z.leb_spec ts last) as [Hle|Hlt].
    + destruct (Hd Hle) as (d & ? & _). lia.
    + exists ts, i. split_and!; auto; lia.
  - destruct (Z.leb_spec ts last) as [Hle|Hlt].
    + destruct (IH (now clock i) (S i)) as (ts' & i' & Hrun & Hi & Hlast & Hts).
      { intros Hni. destruct (Hd Hle) as ([|d] & Hd1 & Hd2).
        - rewrite Nat.add_0_r in Hd2. lia.
        - exists d. split; [lia|]. by rewrite Nat.add_succ_comm. }
      exists ts', i'. split_and!; [done|lia|lia|done|].
      right. destruct Hts as [->|(j & ? & ->)]; [exists i|exists j]; split; auto; lia.
    + exists ts, i. split_and!; auto; lia.
Qed.

(** One call: the new stamp is one of the readings, and stamp and sequence number
    grow. *)
Lemma GenerateSeqID_ok fuel g i host svr :
  m_dwHostID g = Some host → m_dwGameSvrID g = Some svr →
  0 <= m_ulSequenceID g < 4096 → m_ulLastTimestamp g <= now clock i →
  (∃ d, (d < fuel)%nat ∧ now clock i < now clock (S i + S d)) → monotone →
  ∃ ts seq i' j,
    GenerateSeqID clock fuel g i =
      Ok (uuid_pack ts host svr seq, mkUUID (Some host) (Some svr) seq ts, i') ∧
    later (m_ulLastTimestamp g, m_ulSequenceID g) (ts, seq) ∧ 0 <= seq < 4096 ∧
    (i <= j < i')%nat ∧ ts = now clock j ∧ (i' <= i + S (S fuel))%nat.
Proof.
  intros Hh Hs Hseq Hlast Hadv Hmono. unfold GenerateSeqID. cbv zeta.
  destruct (Z.eqb_spec (m_ulLastTimestamp g) (now clock i)) as [Heq|Hne].
  - replace (Z.land (u64 (m_ulSequenceID g + 1)) 0xFFF) with ((m_ulSequenceID g + 1) mod 4096).
    2:{ rewrite wrap_small by lia. symmetry. apply (land_mask _ 12). lia. }
    destruct (Z.eqb_spec ((m_ulSequenceID g + 1) mod 4096) 0) as [Hz|Hnz].
    + rewrite Hz. unfold _WaitNextTimestamp.
      destruct (wait_loop_ok fuel (m_ulLastTimestamp g) (now clock (S i)) (S (S i)))
        as (ts & i' & -> & Hi & Hts & Hor).
      { intros _. destruct Hadv as (d & ? & Hd). exists d. split; [done|].
        rewrite Heq. by replace (S (S i) + d)%nat with (S i + S d)%nat by lia. }
      cbn. rewrite Hh, Hs. cbn.
      destruct Hor as [->|(j & Hj & ->)]; eexists _, 0, i', _;
        (split; [reflexivity|]); (split; [by left|]); (split; [lia|]);
        (split; [|split; [reflexivity|]]); lia.
    + cbn. rewrite Hh, Hs. cbn. eexists _, _, (S i), i. split; [reflexivity|].
      split; [right; cbn; Z.div_mod_to_equations; lia|].
      split; [Z.div_mod_to_equations; lia|]. split; [lia|split; [done|lia]].
  - cbn. rewrite Hh, Hs. cbn. eexists _, _, (S i), i. split; [reflexivity|].
    split; [left; cbn; lia|]. split; [lia|]. split; [lia|split; [done|lia]].
Qed.

(** The stamps and sequence numbers of a run. *)
Lemma generate_n_ok fuel n g i host svr :
  m_dwHostID g = Some host → m_dwGameSvrID g = Some svr →
  0 <= m_ulSequenceID g < 4096 → m_ulLastTimestamp g <= now clock i → monotone →
  (∀ k, (i <= k < i + n * S (S fuel))%nat → ∃ d, (d < fuel)%nat ∧ now clock k < now clock (S k + S d)) →
  ∃ keys g' i',
    generate_n clock fuel n g i =
      Ok ((λ p, uuid_pack p.1 host svr p.2) <$> keys, g', i') ∧
    length keys = n ∧ (i <= i' <= i + n * S (S fuel))%nat ∧ (n ≠ 0 → i < i')%nat ∧
    StronglySorted later ((m_ulLastTimestamp g, m_ulSequenceID g) :: keys) ∧
    Forall (λ p, 0 <= p.2 < 4096 ∧ ∃ j, (i <= j < i')%nat ∧ p.1 = now clock j) keys.
Proof.
  revert g i. induction n as [|n IH]; intros g i Hh Hs Hseq Hlast Hmono Hadv; cbn [generate_n].
  { exists [], g, i. repeat (split; [done || lia|]). split; repeat constructor. }
  destruct (GenerateSeqID_ok fuel g i host svr Hh Hs Hseq Hlast) as
    (ts & seq & i1 & j & -> & Hlater & Hseq1 & Hj & Hts & Hi1); [|done|].
  { apply Hadv. lia. }
  cbn. destruct (IH (mkUUID (Some host) (Some svr) seq ts) i1) as
    (keys & g' & i' & -> & Hlen & Hi' & _ & Hsorted & Hall); cbn; auto.
  { rewrite Hts. apply Hmono. lia. }
  { intros k Hk. apply Hadv. lia. }
  cbn. exists ((ts, seq) :: keys), g', i'. split; [done|].
  split; [cbn; by rewrite Hlen|]. split; [lia|]. split; [lia|]. split.
  - constructor; [done|]. constructor; [done|].
    apply StronglySorted_inv in Hsorted as [_ Hsorted].
    eapply list.Forall_impl; [exact Hsorted|]. intros p Hp. by eapply later_trans.
  - constructor; cbn.
    + split; [lia|]. exists j. split; [lia|done].
    + eapply list.Forall_impl; [exact Hall|]. intros p (? & k & ? & ?).
      split; [done|]. exists k. split; [lia|done].
Qed.

(** Keys in order within a span of 2^25 microseconds give different identifiers. *)
Lemma uuid_pack_NoDup host svr (lo hi : Z) keys :
  hi - lo < 2 ^ 25 → StronglySorted later keys →
  Forall (λ p, 0 <= p.2 < 4096 ∧ lo <= p.1 <= hi) keys →
  NoDup ((λ p, uuid_pack p.1 host svr p.2) <$> keys).
Proof.
  intros Hspan. induction 1 as [|p keys Hsorted IH Hp]; intros Hall.
  { constructor. }
  apply Forall_cons_1 in Hall as [[Hp1 Hp2] Hall]. cbn. constructor; [|by apply IH].
  intros (q & Heq & Hq)%list_elem_of_fmap.
  rewrite list.Forall_forall in Hp. rewrite list.Forall_forall in Hall.
  specialize (Hp q Hq). destruct (Hall q Hq) as [Hq1 Hq2].
  apply uuid_pack_inj in Heq as (Hts & _ & _ & Hseq); [|done|done].
  assert (q.1 = p.1) as Hqp; [|unfold later in Hp; lia].
  change (2 ^ 25) with 33554432 in *.
  unfold later in Hp. Z.div_mod_to_equations. lia.
Qed.

End Unique.

(** C27: on a clock that does not go back and that advances within [fuel + 2]
    readings, [n] calls of GenerateSeqID return, the wait for the next microsecond
    included; the identifiers are below 2^47 and carry the host and the server, so
    that two servers never share one; and they are pairwise different as long as the
    readings span less than 2^25 microseconds. *)
Theorem uuid_unique (clock : nat → timespec) (fuel n : nat) (host svr : Z) :
  monotone clock →
  (∀ k, (k < n * (fuel + 3))%nat → now clock k < now clock (k + (fuel + 2))) →
  ∃ ids g' m,
    generate_n clock (S fuel) n (uuid_Init SnowFlakeUUID_new host svr) 0 = Ok (ids, g', m) ∧
    length ids = n ∧ (m <= n * (fuel + 3))%nat ∧
    Forall (λ id, 0 <= id < 2 ^ 47 ∧
                  (id / 2 ^ 17) mod 32 = host mod 32 ∧ (id / 2 ^ 12) mod 32 = svr mod 32) ids ∧
    (now clock (m - 1) - now clock 0 < 2 ^ 25 → NoDup ids).
Proof.
  intros Hmono Hadv.
  destruct (generate_n_ok clock (S fuel) n (uuid_Init SnowFlakeUUID_new host svr) 0 (u32 host) (u32 svr))
    as (keys & g' & m & Hrun & Hlen & Hm & _ & Hsorted & Hall); auto.
  { cbn. lia. }
  { apply (wrap_bound 64). lia. }
  { intros k Hk. exists fuel. split; [lia|].
    replace (S k + S fuel)%nat with (k + (fuel + 2))%nat by lia. apply Hadv. lia. }
  eexists _, g', m. split; [exact Hrun|]. split; [by rewrite length_fmap|]. split; [lia|].
  assert (∀ x, u32 x mod 32 = x mod 32) as Hmod.
  { intros x. apply (u32_eq_mod x 5). lia. }
  split.
  - rewrite list.Forall_fmap. apply list.Forall_true. intros [ts seq]. cbn.
    split; [apply uuid_pack_bounds|]. rewrite uuid_pack_fields, !Hmod.
    change (2 ^ 17) with 131072. change (2 ^ 12) with 4096. change (2 ^ 25) with 33554432.
    Z.div_mod_to_equations. lia.
  - intros Hspan. apply (uuid_pack_NoDup _ _ (now clock 0) (now clock (m - 1))); [done| |].
    { by apply StronglySorted_inv in Hsorted as [? _]. }
    eapply list.Forall_impl; [exact Hall|]. intros p [Hp (j & Hj & ->)].
    split; [done|]. split; apply Hmono; lia.
Qed.

(** A clock read every 400 nanoseconds for a second. *)
Definition clock_400ns (i : nat) : timespec := mkTimespec 7 (Z.min (Z.of_nat i * 400) 999999999).

Lemma now_400ns i : now clock_400ns i = 7000000 + Z.min (Z.of_nat i * 400) 999999999 / 1000.
Proof.
  unfold now, GetMicroSecond, clock_400ns. cbn [tv_sec tv_nsec].
  rewrite (wrap_small 64 7) by lia. rewrite (wrap_small 64 (7 * 1000000)) by lia.
  rewrite Z.quot_div_nonneg by lia. apply wrap_small.
  change (2 ^ 64) with 18446744073709551616. Z.div_mod_to_equations. lia.
Qed.

Lemma uuid_unique_witness :
  ∃ ids g' m,
    generate_n clock_400ns 2 5 (uuid_Init SnowFlakeUUID_new 3 2) 0 = Ok (ids, g', m) ∧
    length ids = 5%nat ∧ (m <= 5 * (1 + 3))%nat ∧
    Forall (λ id, 0 <= id < 2 ^ 47 ∧
                  (id / 2 ^ 17) mod 32 = 3 mod 32 ∧ (id / 2 ^ 12) mod 32 = 2 mod 32) ids ∧
    (now clock_400ns (m - 1) - now clock_400ns 0 < 2 ^ 25 → NoDup ids).
Proof.
  apply (uuid_unique clock_400ns 1 5 3 2).
  - intros i j Hij. rewrite !now_400ns. apply Z.add_le_mono_l, Z.div_le_mono; lia.
  - intros k Hk. rewrite !now_400ns. Z.div_mod_to_equations. lia.
Defined.

(** Two calls whose stamps are 2^25 microseconds (33.6 seconds) apart return the same
    identifier. *)
Theorem uuid_repeats (clock : nat → timespec) (fuel : nat) (host svr : Z) :
  0 < now clock 0 → now clock 1 = now clock 0 + 2 ^ 25 →
  ∃ id g', generate_n clock fuel 2 (uuid_Init SnowFlakeUUID_new host svr) 0 = Ok ([id; id], g', 2%nat).
Proof.
  intros H0 H1. cbn [generate_n]. unfold GenerateSeqID. cbn [m_ulLastTimestamp uuid_Init SnowFlakeUUID_new].
  destruct (Z.eqb_spec 0 (now clock 0)); [lia|]. cbn. rewrite H1.
  destruct (Z.eqb_spec (now clock 0) (now clock 0 + 2 ^ 25)); [lia|]. cbn.
  eexists (uuid_pack (now clock 0) (u32 host) (u32 svr) 0), _.
  replace (uuid_pack (now clock 0 + 2 ^ 25) (u32 host) (u32 svr) 0)
    with (uuid_pack (now clock 0) (u32 host) (u32 svr) 0); [done|].
  rewrite !uuid_pack_fields. change (2 ^ 25) with 33554432. Z.div_mod_to_equations. lia.
Qed.
