(* ===== verification/Config.v ===== *)
(** * Configuration (src/common/conf/config.cpp, config.h, src/service/gamesvr/gameconf.h)

    The INI parser of GameConf with its line scanner, the typed lookups, and the
    values the game server reads at start.  A [char *] into a line is the list of the
    characters before the terminating NUL. *)

From Stdlib Require Import Ascii.
From S2P Require Import Prelude PacketPool Uuid.

Abbreviation str := (list ascii).
Abbreviation chars := String.list_ascii_of_string.

Definition NUL : ascii := "000"%char.
Definition NL : ascii := "010"%char.

(** ** Characters in the C locale *)

Definition code (c : ascii) : Z := Z.of_N (N_of_ascii c).

Definition isspace (c : ascii) : bool :=
  ((9 <=? code c) && (code c <=? 13)) || (code c =? 32).

Definition tolower (c : ascii) : ascii :=
  if (65 <=? code c) && (code c <=? 90) then ascii_of_N (Z.to_N (code c + 32)) else c.

Definition eqc (a b : ascii) : bool := bool_decide (a = b).

(** strtol with base 0: blanks, a sign, a prefix that chooses the base, digits; the
    value is clamped to long, and the flag says whether there was a digit. *)
Definition digit (c : ascii) : Z :=
  let n := code c in
  if (48 <=? n) && (n <=? 57) then n - 48
  else if (65 <=? n) && (n <=? 90) then n - 55
  else if (97 <=? n) && (n <=? 122) then n - 87
  else 99.

Fixpoint digits (base acc : Z) (l : str) : Z * nat :=
  match l with
  | [] => (acc, O)
  | c :: l' =>
      if digit c <? base then
        let '(v, n) := digits base (acc * base + digit c) l' in (v, S n)
      else (acc, O)
  end.

Definition clamp_long (v : Z) : Z := Z.max (- 2 ^ 63) (Z.min v (2 ^ 63 - 1)).

Definition strtol (value : str) : Z * bool :=
  let s := drop_while isspace value in
  let '(neg, s) :=
    match s with
    | c :: s' => if eqc c "-" then (true, s') else if eqc c "+" then (false, s') else (false, s)
    | [] => (false, s)
    end in
  let '(v, n) :=
    match s with
    | z :: x :: d :: _ =>
        if eqc z "0" && eqc (tolower x) "x" && (digit d <? 16) then digits 16 0 (drop 2 s)
        else if eqc z "0" then digits 8 0 s else digits 10 0 s
    | z :: _ => if eqc z "0" then digits 8 0 s else digits 10 0 s
    | [] => (0, O)
    end in
  (clamp_long (if neg : bool then - v else v), negb (n =? 0)%nat).

(** ** Lookups *)

Abbreviation conf_values := (gmap str (list str)).

Definition makeKey (section name : str) : str := tolower <$> (section ++ "."%char :: name).

(** A list under a key is never empty (lemma [eval_lines_nonempty]), so [back] has an
    element. *)
Definition get (values_ : conf_values) (section name default_value : str) : str :=
  match values_ !! makeKey section name with
  | None => default_value
  | Some l => default [] (list.last l)
  end.

Definition getStrings (values_ : conf_values) (section name : str) : list str :=
  match values_ !! makeKey section name with
  | None => []
  | Some l => l
  end.

Definition getInteger (values_ : conf_values) (section name : str) (default_value : Z) : Z :=
  let '(n, found) := strtol (get values_ section name []) in
  if found : bool then n else default_value.

Definition getBoolean (values_ : conf_values) (section name : str) (default_value : bool) : bool :=
  let valstr := tolower <$> get values_ section name [] in
  if bool_decide (valstr ∈ [chars "true"; chars "yes"; chars "on"; chars "1"]) then true
  else if bool_decide (valstr ∈ [chars "false"; chars "no"; chars "off"; chars "0"]) then false
  else default_value.

(** ** The line scanner *)

Record LineScanner := mkScanner { p : str; err : bool }.

Definition scanner_new (ln : str) : LineScanner := mkScanner ln false.

(** [*p] *)
Definition deref (s : str) : ascii := match s with [] => NUL | c :: _ => c end.

Definition skipSpaces (ls : LineScanner) : LineScanner :=
  if err ls then ls else mkScanner (drop_while isspace (p ls)) false.

Definition rstrip (s : str) : str := reverse (drop_while isspace (reverse s)).

Definition peekChar (ls : LineScanner) : ascii * LineScanner :=
  let ls := skipSpaces ls in (deref (p ls), ls).

Definition skip (i : nat) (ls : LineScanner) : LineScanner := mkScanner (drop i (p ls)) (err ls).

Definition match_char (c : ascii) (ls : LineScanner) : LineScanner :=
  let ls := skipSpaces ls in
  mkScanner (drop 1 (p ls)) (negb (eqc (deref (p ls)) c)).

Definition consumeTill (c : ascii) (ls : LineScanner) : str * LineScanner :=
  let ls := skipSpaces ls in
  let s := if err ls then [] else take_while (λ x, negb (eqc x c)) (p ls) in
  let e := drop (length s) (p ls) in
  if negb (eqc (deref e) c) then ([], mkScanner (p ls) true)
  else (rstrip s, mkScanner e (err ls)).

Fixpoint till_end (wasspace : bool) (l : str) : str :=
  match l with
  | [] => []
  | x :: l' =>
      if eqc x ";" || eqc x "#" then []
      else if wasspace then []
      else x :: till_end (isspace x) l'
  end.

Definition consumeTillEnd (ls : LineScanner) : str * LineScanner :=
  let ls := skipSpaces ls in
  let s := if err ls then [] else till_end false (p ls) in
  (rstrip s, mkScanner (drop (length s) (p ls)) (err ls)).

(** ** parse *)

Definition MAX_LINE : Z := 16 * 1024.

(** fgets: at most [n] characters, up to and with a newline. *)
Fixpoint fgets (n : Z) (file : str) : str * str :=
  match file with
  | [] => ([], [])
  | x :: rest =>
      if n <=? 0 then ([], file)
      else if eqc x NL then ([x], rest)
      else let '(ln, rest) := fgets (n - 1) rest in (x :: ln, rest)
  end.

(** The line as a C string. *)
Definition c_str (ln : str) : str := c_string NUL ln.

Record parse_state := mkParse {
  values_ : conf_values;
  section : str;
  key : str;
  lineno : Z;
  parse_err : bool }.

Definition push_back (values_ : conf_values) (k v : str) : conf_values :=
  <[k := default [] (values_ !! k) ++ [v]]> values_.

(** A line [name = value] or [name: value]. *)
Definition parse_pair (ls : LineScanner) (st : parse_state) : parse_state :=
  let lsc := ls in
  let '(key, ls) := consumeTill "=" ls in
  let '(c, ls) := peekChar ls in
  let '(key, ls, err) :=
    if eqc c "=" then (key, skip 1 ls, false)
    else
      let '(key, ls) := consumeTill ":" lsc in
      let ls := match_char ":" ls in (key, ls, err ls) in
  let '(value, _) := consumeTillEnd ls in
  mkParse (push_back (values_ st) (makeKey (section st) key) value) (section st) key
    (lineno st + 1) err.

(** The body of the loop of parse. *)
Definition parse_line (ln : str) (st : parse_state) : parse_state :=
  let lineno := lineno st + 1 in
  let '(c, ls) := peekChar (scanner_new ln) in
  if eqc c ";" || eqc c "#" || eqc c NUL then
    mkParse (values_ st) (section st) (key st) lineno false
  else if eqc c "[" then
    let '(section, ls) := consumeTill "]" (skip 1 ls) in
    mkParse (values_ st) section [] lineno (err (match_char "]" ls))
  else if isspace (deref ln) then
    if negb (bool_decide (key st = [])) then
      let '(v, _) := consumeTill NUL ls in
      mkParse (push_back (values_ st) (makeKey (section st) (key st)) v)
        (section st) (key st) lineno false
    else mkParse (values_ st) (section st) (key st) lineno true
  else parse_pair ls st.

Fixpoint parse_loop (fuel : nat) (file : str) (st : parse_state) : res parse_state :=
  if parse_err st then Ok st
  else match file with
  | [] => Ok st
  | _ =>
      match fuel with
      | O => Fault OutOfFuel
      | S fuel =>
          let '(ln, rest) := fgets (MAX_LINE - 1) file in
          parse_loop fuel rest (parse_line (c_str ln) st)
      end
  end.

(** What a path names. *)
Inductive file := Missing | Unreadable | Content (text : str).

Definition parse (conf : conf_values) (f : file) : res (Z * conf_values) :=
  match f with
  | Content text =>
      st ← parse_loop (length text) text (mkParse conf [] [] 0 false);
      Ok (if parse_err st then lineno st else 0, values_ st)
  | _ => Ok (-1, conf)
  end.

Example parse_example :
  parse ∅ (Content (chars "; a comment
[Main]
Host = 127.0.0.1  ; local
Port:0x1F90
 and more text
[log]
console=Yes
"))
  = Ok (0, <[chars "log.console" := [chars "Yes"]]>
           (<[chars "main.port" := [chars "0x1F90"; chars "and more text"]]>
           {[chars "main.host" := [chars "127.0.0.1"]]})).
Proof. refine (bool_decide_unpack _ _). vm_compute. exact I. Qed.

Example strtol_example :
  strtol <$> [chars "  -12x"; chars "0x1F90"; chars "010"; chars "0x"; chars "none"; chars "99999999999999999999"]
  = [(-12, true); (8080, true); (8, true); (0, true); (0, false); (9223372036854775807, true)].
Proof. vm_compute. reflexivity. Qed.

(** ** Loading the configuration of the game server

    LOGCRITICAL ends the process with status 2 in every thread but the one that is
    bound to the log; the configuration is loaded before that thread exists. *)

Inductive proc (A : Type) := Done (a : A) | Exit (status : Z) | Crash (f : fault).
Arguments Done {A} a.
Arguments Exit {A} status.
Arguments Crash {A} f.

#[export] Instance proc_ret : MRet proc := fun A => Done.
#[export] Instance proc_bind : MBind proc := fun A B k m =>
  match m with
  | Done a => k a
  | Exit status => Exit status
  | Crash f => Crash f
  end.

Definition LOGCRITICAL : proc unit := Exit 2.

Record GameConf := mkConf { conf_filename : str; conf_values_ : conf_values }.

Definition of_res {A} (m : res A) : proc A :=
  match m with Ok a => Done a | Fault f => Crash f end.

Definition conf_Init (fs : str → file) (conf : GameConf) (sFilePath : str) : proc (bool * GameConf) :=
  match fs sFilePath with
  | Missing => LOGCRITICAL;; Done (false, conf)
  | f =>
      '(iError, v) ← of_res (parse (conf_values_ conf) f);
      let conf := mkConf sFilePath v in
      if 0 <? iError then LOGCRITICAL;; Done (false, conf) else Done (true, conf)
  end.

Definition E_NETWORK_SERVER_IP_PORT_RANGE_INVALID : Z := 1000.
Definition E_NETWORK_SERVER_IP_PORT_RANGE_MAX : Z := 65536.

Record ST_ServerIPInfo := mkIPInfo { m_wServerPort : Z; m_achServerIP : str }.

Definition ST_ServerIPInfo_new : ST_ServerIPInfo :=
  mkIPInfo 0 (replicate (Z.to_nat NETWORK_SERVER_IP_ADDRESS_LEN) NUL).

Definition IPInfo_Init (info : ST_ServerIPInfo) (m_wPort : Z) (pchServerIP : option str)
    : proc (bool * ST_ServerIPInfo) :=
  match pchServerIP with
  | None => LOGCRITICAL;; Done (false, info)
  | Some ip =>
      if (m_wPort <=? E_NETWORK_SERVER_IP_PORT_RANGE_INVALID)
         || (E_NETWORK_SERVER_IP_PORT_RANGE_MAX <=? m_wPort)
      then LOGCRITICAL;; Done (false, info)
      else Done (true, mkIPInfo m_wPort (strncpy NUL (Z.to_nat NETWORK_SERVER_IP_ADDRESS_LEN) ip))
  end.

Record GameSvrConf := mkSvrConf {
  svr_conf : GameConf;
  m_stServerIPInfo : ST_ServerIPInfo;
  m_stProxyServerIPInfo : ST_ServerIPInfo;
  m_stProxyConnectIPInfo : ST_ServerIPInfo;
  svr_dwHostID : option Z;
  svr_dwGameSvrID : option Z;
  svr_uuid : SnowFlakeUUID;          (** the singleton *)
  svr_logger : option (str * str * bool) (** arguments of InitGameLogger *) }.

Definition GameSvrConf_new : GameSvrConf :=
  mkSvrConf (mkConf [] ∅) ST_ServerIPInfo_new ST_ServerIPInfo_new ST_ServerIPInfo_new
    None None SnowFlakeUUID_new None.

Definition conf_path : str := chars "./conf/gamesvr.cfg".

(** One address: the port is read into a [short]. *)
Definition load_address (v : conf_values) (name : str) (info : ST_ServerIPInfo) : proc ST_ServerIPInfo :=
  let wPort := i16 (getInteger v name (chars "port") 0) in
  let sServerIP := get v name (chars "host") [] in
  '(_, info) ← IPInfo_Init info wPort (Some sServerIP);
  Done info.

Definition InitGameSvrConf (fs : str → file) (g : GameSvrConf) : proc GameSvrConf :=
  '(ok, conf) ← conf_Init fs (svr_conf g) conf_path;
  if negb ok then
    LOGCRITICAL;;
    Done (mkSvrConf conf (m_stServerIPInfo g) (m_stProxyServerIPInfo g) (m_stProxyConnectIPInfo g)
            (svr_dwHostID g) (svr_dwGameSvrID g) (svr_uuid g) (svr_logger g))
  else
    let v := conf_values_ conf in
    let dwHostID := u32 (getInteger v (chars "main") (chars "host_id") 0) in
    let dwGameSvrID := u32 (getInteger v (chars "main") (chars "gamesvr_id") 0) in
    let uuid := uuid_Init (svr_uuid g) dwHostID dwGameSvrID in
    server ← load_address v (chars "main_server") (m_stServerIPInfo g);
    proxy ← load_address v (chars "proxy_server") (m_stProxyServerIPInfo g);
    connect ← load_address v (chars "proxy_connect") (m_stProxyConnectIPInfo g);
    let sLoggerLevel := get v (chars "log") (chars "level") [] in
    let bConsole := getBoolean v (chars "log") (chars "console") false in
    Done (mkSvrConf conf server proxy connect (Some dwHostID) (Some dwGameSvrID) uuid
            (Some (chars "gamesvr", sLoggerLevel, bConsole))).

(** ** Files as lists of lines

    The lines a configuration file is written with; [print_lines] is the file and
    [eval_lines] what it means. *)

Inductive line :=
| LSection (s : str)
| LPair (equal : bool) (k v : str)
| LCont (v : str)
| LComment (semicolon : bool) (text : str)
| LBlank.

Definition print_line (l : line) : str :=
  match l with
  | LSection s => "["%char :: s ++ ["]"%char]
  | LPair equal k v => k ++ (if equal then "="%char else ":"%char) :: v
  | LCont v => " "%char :: v
  | LComment semicolon text => (if semicolon then ";"%char else "#"%char) :: text
  | LBlank => []
  end.

Definition print_lines (ls : list line) : str := ls ≫= λ l, print_line l ++ [NL].

Definition eval_line (l : line) (st : parse_state) : parse_state :=
  let n := lineno st + 1 in
  match l with
  | LSection s => mkParse (values_ st) s [] n false
  | LPair _ k v => mkParse (push_back (values_ st) (makeKey (section st) k) v) (section st) k n false
  | LCont v =>
      if bool_decide (key st = []) then mkParse (values_ st) (section st) (key st) n true
      else mkParse (push_back (values_ st) (makeKey (section st) (key st)) v)
             (section st) (key st) n false
  | LComment _ _ | LBlank => mkParse (values_ st) (section st) (key st) n false
  end.

(** Nothing after a line in error counts. *)
Fixpoint eval_lines (ls : list line) (st : parse_state) : parse_state :=
  match ls with
  | [] => st
  | l :: ls => if parse_err st then st else eval_lines ls (eval_line l st)
  end.

(** Texts without blanks at their ends, and texts that do not start like a section or
    a comment. *)
Definition no_space (o : option ascii) : Prop := match o with Some c => isspace c = false | None => True end.
Definition trimmed (s : str) : Prop := no_space (head s) ∧ no_space (list.last s).
Definition no_mark (s : str) : Prop :=
  match s with [] => True | c :: _ => c ∉ [";"%char; "#"%char; "["%char] end.
Definition plain (s : str) : Prop := (NL ∉ s) ∧ NUL ∉ s.
Definition word (s : str) : Prop :=
  Forall (λ c, isspace c = false ∧ c ≠ ";"%char ∧ c ≠ "#"%char) s.

Definition wf_line (l : line) : Prop :=
  plain (print_line l) ∧ Z.of_nat (length (print_line l)) < MAX_LINE - 1 ∧
  match l with
  | LSection s => trimmed s ∧ "]"%char ∉ s
  | LPair true k v => trimmed k ∧ no_mark k ∧ word v ∧ "="%char ∉ k
  | LPair false k v => trimmed k ∧ no_mark k ∧ word v ∧ ("="%char ∉ k ++ v) ∧ ":"%char ∉ k
  | LCont v => trimmed v ∧ no_mark v ∧ v ≠ []
  | LComment _ _ | LBlank => True
  end.

#[export] Instance no_space_dec o : Decision (no_space o).
Proof. destruct o; apply _. Defined.
#[export] Instance no_mark_dec s : Decision (no_mark s).
Proof. destruct s; apply _. Defined.
#[export] Instance wf_line_dec l : Decision (wf_line l).
Proof. destruct l as [|[]| | |]; apply _. Defined.

(** ** Lemmas on the scanner *)

Lemma eqc_refl c : eqc c c = true.
Proof. by apply bool_decide_true. Qed.

Lemma eqc_ne a b : a ≠ b → eqc a b = false.
Proof. intros. by apply bool_decide_false. Qed.

Lemma negb_eqc_ne a b : a ≠ b → negb (eqc a b) = true.
Proof. intros. by rewrite eqc_ne. Qed.

Lemma not_in_eqc c l : c ∉ l → Forall (λ x, negb (eqc x c) = true) l.
Proof.
  intros Hc. apply list.Forall_forall. intros x Hx. apply negb_eqc_ne. by intros ->.
Qed.

Lemma c_str_plain l : NUL ∉ l → c_str l = l.
Proof. apply c_string_id. Qed.

Lemma rstrip_id s : no_space (list.last s) → rstrip s = s.
Proof.
  intros Hs. unfold rstrip. rewrite drop_while_head; [apply reverse_involutive|].
  destruct s as [|c s _] using rev_ind; [done|].
  rewrite last_snoc in Hs. by rewrite reverse_snoc.
Qed.

Lemma rstrip_space s c : isspace c = true → no_space (list.last s) → rstrip (s ++ [c]) = s.
Proof.
  intros Hc Hs. unfold rstrip. rewrite reverse_snoc. cbn. rewrite Hc. by apply rstrip_id.
Qed.

Lemma fgets_line n a rest :
  NL ∉ a → Z.of_nat (length a) < n → fgets n (a ++ NL :: rest) = (a ++ [NL], rest).
Proof.
  revert n. induction a as [|c a IH]; intros n Hnl Hn; cbn in *.
  - destruct (Z.leb_spec n 0); [lia|]. done.
  - destruct (Z.leb_spec n 0); [lia|].
    apply not_elem_of_cons in Hnl as [Hc Hnl]. rewrite eqc_ne by congruence.
    rewrite IH by (done || lia). done.
Qed.

Lemma skipSpaces_head s : no_space (head s) → skipSpaces (mkScanner s false) = mkScanner s false.
Proof. intros Hs. unfold skipSpaces. cbn. rewrite drop_while_head; [done|by destruct s]. Qed.

Lemma consumeTill_found c s rest :
  no_space (head (s ++ c :: rest)) → c ∉ s → no_space (list.last s) →
  consumeTill c (mkScanner (s ++ c :: rest) false) = (s, mkScanner (c :: rest) false).
Proof.
  intros Hh Hc Hl. unfold consumeTill. rewrite skipSpaces_head by done. cbn [err p].
  rewrite take_while_stop by (by apply not_in_eqc || rewrite eqc_refl).
  rewrite drop_app_length. cbn. rewrite eqc_refl. cbn. by rewrite rstrip_id.
Qed.

Lemma consumeTill_missing c s :
  no_space (head s) → c ≠ NUL → c ∉ s →
  consumeTill c (mkScanner s false) = ([], mkScanner s true).
Proof.
  intros Hh Hc Hs. unfold consumeTill. rewrite skipSpaces_head by done. cbn [err p].
  rewrite take_while_all by (by apply not_in_eqc). rewrite drop_all. cbn.
  by rewrite eqc_ne by congruence.
Qed.

Lemma till_end_word v : word v → till_end false (v ++ [NL]) = v ++ [NL].
Proof.
  induction 1 as [|c v (Hs & H1 & H2) _ IH]; [done|]. cbn.
  rewrite !eqc_ne by done. cbn. by rewrite Hs, IH.
Qed.

Lemma last_word v : word v → no_space (list.last v).
Proof.
  intros Hv. destruct (list.last v) as [c|] eqn:Hl; [|done].
  apply last_Some_elem_of in Hl. unfold word in Hv. rewrite list.Forall_forall in Hv.
  by apply Hv.
Qed.

Lemma consumeTillEnd_word v : word v → (consumeTillEnd (mkScanner (v ++ [NL]) false)).1 = v.
Proof.
  intros Hv. unfold consumeTillEnd. destruct v as [|c v]; [done|].
  assert (isspace c = false) as Hc by (by apply Forall_cons_1 in Hv as [[? _] _]).
  rewrite skipSpaces_head by done. cbn [err p]. rewrite till_end_word by done. cbn [fst].
  apply rstrip_space; [done|by apply last_word].
Qed.

(** ** What parse does with each kind of line *)

Lemma skip_cons c s : skip 1 (mkScanner (c :: s) false) = mkScanner s false.
Proof. done. Qed.

Lemma match_char_found c s :
  isspace c = false → match_char c (mkScanner (c :: s) false) = mkScanner s false.
Proof. intros. unfold match_char. rewrite skipSpaces_head by done. cbn. by rewrite eqc_refl. Qed.

Lemma no_space_app s c rest : no_space (head s) → isspace c = false → no_space (head (s ++ c :: rest)).
Proof. by destruct s. Qed.

Lemma peekChar_head s : no_space (head s) → peekChar (scanner_new s) = (deref s, mkScanner s false).
Proof. intros. unfold peekChar, scanner_new. by rewrite skipSpaces_head. Qed.

Lemma plain_NUL s : plain s → NUL ∉ s ++ [NL].
Proof. intros [_ ?]. rewrite elem_of_app, list_elem_of_singleton. by intros [?|[=]]. Qed.

(** The first character tells a section and a comment from the rest. *)
Lemma no_mark_eqc s : no_mark s → NUL ∉ s → s ≠ [] →
  eqc (deref s) ";" || eqc (deref s) "#" || eqc (deref s) NUL = false ∧ eqc (deref s) "[" = false.
Proof.
  destruct s as [|c s]; [done|]. cbn. rewrite !not_elem_of_cons. intros (? & ? & ? & _) [? _] _.
  rewrite !eqc_ne by congruence. done.
Qed.

Lemma parse_section s st :
  trimmed s → "]"%char ∉ s →
  parse_line (print_line (LSection s) ++ [NL]) st = eval_line (LSection s) st.
Proof.
  intros [Hh Hl] Hs. unfold parse_line. cbn [print_line app].
  rewrite <- (assoc_L (++)). cbn [app].
  rewrite peekChar_head by done. rewrite skip_cons. cbn [deref].
  rewrite consumeTill_found by (done || by apply no_space_app). done.
Qed.

Lemma parse_cont v st :
  trimmed v → no_mark v → v ≠ [] → NUL ∉ v →
  parse_line (print_line (LCont v) ++ [NL]) st = eval_line (LCont v) st.
Proof.
  intros [Hh Hl] Hm Hne Hnul. unfold parse_line. cbn [print_line app].
  assert (peekChar (scanner_new (" "%char :: v ++ [NL])) = (deref v, mkScanner (v ++ [NL]) false)) as ->.
  { unfold peekChar, scanner_new, skipSpaces. cbn.
    rewrite drop_while_head by (by destruct v). by destruct v. }
  destruct (no_mark_eqc v) as [-> ->]; [done..|]. cbn [deref isspace eval_line].
  change (isspace " ") with true. cbn [andb].
  destruct (bool_decide (key st = [])) eqn:Hk; [done|]. cbn [negb].
  replace (consumeTill NUL (mkScanner (v ++ [NL]) false)) with (v, mkScanner ([] : str) false); [done|].
  unfold consumeTill. rewrite skipSpaces_head by (by destruct v). cbn [p err].
  rewrite take_while_all.
  - rewrite drop_all. cbn. by rewrite rstrip_space.
  - apply not_in_eqc. rewrite elem_of_app, list_elem_of_singleton. by intros [?|[=]].
Qed.

(** A line that is neither a section, a comment nor a continuation. *)
Lemma parse_line_pair s st :
  no_space (head s) → no_mark s → NUL ∉ s → s ≠ [] →
  parse_line s st = parse_pair (mkScanner s false) st.
Proof.
  intros Hh Hm Hnul Hne. unfold parse_line. rewrite peekChar_head by done.
  destruct (no_mark_eqc s) as [-> ->]; [done..|].
  by replace (isspace (deref s)) with false by (by destruct s).
Qed.

Lemma parse_pair_equal k v st :
  trimmed k → word v → "="%char ∉ k →
  parse_pair (mkScanner (k ++ "="%char :: v ++ [NL]) false) st = eval_line (LPair true k v) st.
Proof.
  intros [Hh Hl] Hv Hk. unfold parse_pair.
  rewrite consumeTill_found by (done || by apply no_space_app).
  unfold peekChar. rewrite skipSpaces_head by done. cbn [p deref]. rewrite eqc_refl.
  rewrite skip_cons.
  rewrite (surjective_pairing (consumeTillEnd _)), consumeTillEnd_word by done. done.
Qed.

Lemma parse_pair_colon k v st :
  trimmed k → word v → "="%char ∉ k ++ v → ":"%char ∉ k →
  parse_pair (mkScanner (k ++ ":"%char :: v ++ [NL]) false) st = eval_line (LPair false k v) st.
Proof.
  intros [Hh Hl] Hv [Hk Hv']%not_elem_of_app Hc. unfold parse_pair.
  assert (no_space (head (k ++ ":"%char :: v ++ [NL]))) as Hhead by (by apply no_space_app).
  rewrite consumeTill_missing; [|done..|].
  2:{ rewrite elem_of_app, elem_of_cons, elem_of_app, list_elem_of_singleton.
      by intros [?|[[=]|[?|[=]]]]. }
  unfold peekChar at 1. unfold skipSpaces at 1. cbn [err p].
  rewrite (eqc_ne (deref _) "=").
  2:{ destruct k as [|c k]; [done|]. cbn. intros ->. apply Hk. left. }
  rewrite consumeTill_found by done. rewrite match_char_found by done. cbn [err].
  rewrite (surjective_pairing (consumeTillEnd _)), consumeTillEnd_word by done. done.
Qed.

Lemma parse_printed_line l st :
  wf_line l → parse_err st = false →
  parse_line (print_line l ++ [NL]) st = eval_line l st.
Proof.
  intros (Hplain & _ & Hl) Herr. pose proof (plain_NUL _ Hplain) as Hnul.
  destruct l as [s|[] k v|v|b text|]; cbn [print_line] in *.
  - destruct Hl. by apply parse_section.
  - destruct Hl as (Ht & Hm & Hv & Hk). rewrite <- (assoc_L (++)) in Hnul |- *.
    rewrite parse_line_pair; [by apply parse_pair_equal|..].
    + apply no_space_app; [by destruct Ht|done].
    + destruct k; [|done]. cbn. by rewrite !not_elem_of_cons.
    + done.
    + by destruct k.
  - destruct Hl as (Ht & Hm & Hv & Hk & Hc). rewrite <- (assoc_L (++)) in Hnul |- *.
    rewrite parse_line_pair; [by apply parse_pair_colon|..].
    + apply no_space_app; [by destruct Ht|done].
    + destruct k; [|done]. cbn. by rewrite !not_elem_of_cons.
    + done.
    + by destruct k.
  - destruct Hl as (Ht & Hm & Hne). apply parse_cont; [done..|].
    intros Hin. apply Hnul. cbn. right. apply elem_of_app. by left.
  - unfold parse_line. rewrite peekChar_head by (by destruct b). by destruct b.
  - done.
Qed.

(** ** Whole files *)

Lemma parse_loop_stop fuel file st : parse_err st = true → parse_loop fuel file st = Ok st.
Proof. intros H. destruct fuel; cbn; by rewrite H. Qed.

Lemma eval_lines_stop ls st : parse_err st = true → eval_lines ls st = st.
Proof. intros H. destruct ls; cbn; by rewrite ?H. Qed.

Lemma parse_loop_step fuel file st :
  parse_err st = false → file ≠ [] →
  parse_loop (S fuel) file st =
  parse_loop fuel (fgets (MAX_LINE - 1) file).2 (parse_line (c_str (fgets (MAX_LINE - 1) file).1) st).
Proof.
  intros Herr Hf. cbn [parse_loop]. rewrite Herr. destruct file; [done|]. by destruct (fgets _ _).
Qed.

Lemma parse_loop_printed fuel ls st :
  Forall wf_line ls → (length (print_lines ls) <= fuel)%nat →
  parse_loop fuel (print_lines ls) st = Ok (eval_lines ls st).
Proof.
  revert fuel st. induction ls as [|l ls IH]; intros fuel st Hwf Hfuel.
  { cbn. destruct fuel; cbn; by destruct (parse_err st). }
  apply Forall_cons_1 in Hwf as [Hl Hwf].
  destruct (parse_err st) eqn:Herr; [by rewrite parse_loop_stop, eval_lines_stop|].
  change (print_lines (l :: ls)) with ((print_line l ++ [NL]) ++ print_lines ls) in *.
  rewrite <- (assoc_L (++)) in Hfuel |- *. cbn [app] in *.
  pose proof Hl as (Hplain & Hlen & _).
  destruct fuel as [|fuel]; [rewrite length_app in Hfuel; cbn in Hfuel; lia|].
  rewrite parse_loop_step by (done || by destruct (print_line l)).
  rewrite fgets_line by (done || by destruct Hplain). cbn [fst snd eval_lines]. rewrite Herr.
  rewrite c_str_plain by (by apply plain_NUL).
  rewrite parse_printed_line by done. apply IH; [done|].
  rewrite length_app in Hfuel. cbn in Hfuel. lia.
Qed.

Lemma fgets_shorter n file :
  0 < n → file ≠ [] → (length (fgets n file).2 < length file)%nat.
Proof.
  revert n. induction file as [|x file IH]; intros n Hn Hf; [done|]. cbn.
  destruct (Z.leb_spec n 0); [lia|]. destruct (eqc x NL); [cbn; lia|].
  destruct (decide (0 < n - 1 ∧ file ≠ [])) as [[H1 H2]|Hno].
  - specialize (IH _ H1 H2). destruct (fgets (n - 1) file). cbn in *. lia.
  - destruct file as [|y file]; [cbn; lia|]. cbn.
    destruct (Z.leb_spec (n - 1) 0); [cbn; lia|]. exfalso. apply Hno. split; [lia|done].
Qed.

(** parse ends on every file. *)
Lemma parse_loop_total fuel file st :
  (length file <= fuel)%nat → ∃ st', parse_loop fuel file st = Ok st'.
Proof.
  revert file st. induction fuel as [|fuel IH]; intros file st Hf; cbn [parse_loop].
  - destruct (parse_err st); [eauto|]. destruct file; [eauto|cbn in Hf; lia].
  - destruct (parse_err st); [eauto|]. destruct file as [|x file]; [eauto|].
    pose proof (fgets_shorter (MAX_LINE - 1) (x :: file) eq_refl ltac:(done)) as Hs.
    destruct (fgets _ (x :: file)) as [ln rest]. apply IH. cbn in *. lia.
Qed.

Lemma parse_total conf f : ∃ r, parse conf f = Ok r.
Proof.
  destruct f as [| |text]; cbn; eauto.
  destruct (parse_loop_total (length text) text (mkParse conf [] [] 0 false)) as [st ->]; [done|].
  cbn. eauto.
Qed.

(** The values a file gives to each key, in the order of its lines, up to the first
    line in error. *)
Fixpoint bindings (sec key : str) (ls : list line) : list (str * str) :=
  match ls with
  | [] => []
  | LSection s :: ls => bindings s [] ls
  | LPair _ k v :: ls => (makeKey sec k, v) :: bindings sec k ls
  | LCont v :: ls =>
      if bool_decide (key = []) then [] else (makeKey sec key, v) :: bindings sec key ls
  | LComment _ _ :: ls | LBlank :: ls => bindings sec key ls
  end.

Definition values_of (k : str) (b : list (str * str)) : list str :=
  snd <$> filter (λ kv, kv.1 = k) b.

Lemma push_back_lookup (m : conf_values) k v k' :
  default [] (push_back m k v !! k') =
  default [] (m !! k') ++ (if bool_decide (k = k') then [v] else []).
Proof.
  unfold push_back. case_bool_decide as Hk.
  - subst. by rewrite lookup_insert_eq.
  - rewrite lookup_insert_ne by done. by rewrite app_nil_r.
Qed.

Lemma values_of_cons k k0 v b :
  values_of k ((k0, v) :: b) = (if bool_decide (k0 = k) then [v] else []) ++ values_of k b.
Proof.
  unfold values_of. rewrite filter_cons. cbn. case_bool_decide; case_decide; done.
Qed.

Lemma eval_lines_values ls st k :
  parse_err st = false →
  default [] (values_ (eval_lines ls st) !! k) =
  default [] (values_ st !! k) ++ values_of k (bindings (section st) (key st) ls).
Proof.
  revert st. induction ls as [|l ls IH]; intros st Herr; cbn [eval_lines].
  { cbn. by rewrite app_nil_r. }
  rewrite Herr. destruct l as [s|eq k0 v|v|b text|]; cbn [eval_line bindings].
  - by rewrite IH.
  - rewrite IH by done. cbn [values_ section key]. by rewrite push_back_lookup, values_of_cons, (assoc_L (++)).
  - case_bool_decide as Hk.
    + rewrite eval_lines_stop by done. cbn. by rewrite app_nil_r.
    + rewrite IH by done. cbn [values_ section key]. by rewrite push_back_lookup, values_of_cons, (assoc_L (++)).
  - by rewrite IH.
  - by rewrite IH.
Qed.

Definition nonempty_lists (m : conf_values) : Prop := ∀ k, m !! k ≠ Some [].

Lemma push_back_nonempty m k v : nonempty_lists m → nonempty_lists (push_back m k v).
Proof.
  intros Hm k' Hk'. unfold push_back in Hk'.
  apply lookup_insert_Some in Hk' as [[_ H]|[_ H]]; [|by apply (Hm k')].
  by apply app_eq_nil in H as [_ ?].
Qed.

Lemma eval_lines_nonempty ls st :
  nonempty_lists (values_ st) → nonempty_lists (values_ (eval_lines ls st)).
Proof.
  revert st. induction ls as [|l ls IH]; intros st Hst; cbn [eval_lines]; [done|].
  destruct (parse_err st); [done|]. apply IH.
  destruct l as [s|eq k0 v|v|b text|]; cbn [eval_line values_]; try done.
  - by apply push_back_nonempty.
  - case_bool_decide; [done|]. by apply push_back_nonempty.
Qed.

(** C26: every file written from well-formed lines (sections, pairs with = or with a
    colon, continuations, comments, blank lines) is parsed to what the lines mean:
    getStrings returns exactly the values given to the key, in order, whatever the
    case of section and name; get the last of them; and the result is 0, or the number
    of the first continuation without a name. *)
Theorem conf_parse_printed (ls : list line) :
  Forall wf_line ls →
  let st := eval_lines ls (mkParse ∅ [] [] 0 false) in
  parse ∅ (Content (print_lines ls)) = Ok (if parse_err st then lineno st else 0, values_ st) ∧
  (∀ sec name, getStrings (values_ st) sec name = values_of (makeKey sec name) (bindings [] [] ls)) ∧
  (∀ sec name d, get (values_ st) sec name d =
     default d (list.last (values_of (makeKey sec name) (bindings [] [] ls)))).
Proof.
  intros Hwf st.
  assert (∀ k, default [] (values_ st !! k) = values_of k (bindings [] [] ls)) as Hval.
  { intros k. unfold st. by rewrite eval_lines_values. }
  split; [|split].
  - unfold parse. rewrite parse_loop_printed by done. done.
  - intros sec name. rewrite <- Hval. unfold getStrings. by destruct (values_ st !! _).
  - intros sec name d. rewrite <- Hval. unfold get.
    destruct (values_ st !! _) as [l|] eqn:Hl; [|done]. cbn.
    destruct l as [|x l _] using rev_ind; [|by rewrite last_snoc].
    exfalso. by apply (eval_lines_nonempty ls (mkParse ∅ [] [] 0 false)) in Hl.
Qed.

Definition conf_example : list line :=
  [LComment true (chars " game server"); LSection (chars "Main_Server"); LBlank;
   LPair true (chars "port") (chars "7000"); LPair false (chars "host") (chars "127.0.0.1");
   LCont (chars "two words"); LPair true (chars "PORT") (chars "0x1F90")].

Lemma conf_parse_printed_witness :
  let st := eval_lines conf_example (mkParse ∅ [] [] 0 false) in
  parse ∅ (Content (print_lines conf_example)) = Ok (0, values_ st) ∧
  getInteger (values_ st) (chars "main_server") (chars "Port") 0 = 8080.
Proof.
  destruct (conf_parse_printed conf_example) as (Hparse & _ & Hget).
  { refine (bool_decide_unpack _ _). vm_compute. exact I. }
  split; [exact Hparse|]. unfold getInteger. rewrite Hget. vm_compute. reflexivity.
Defined.

(** ** Ports *)

Lemma load_address_ok v name info :
  1000 < getInteger v name (chars "port") 0 < 32768 →
  load_address v name info =
  Done (mkIPInfo (getInteger v name (chars "port") 0)
          (strncpy NUL (Z.to_nat NETWORK_SERVER_IP_ADDRESS_LEN) (get v name (chars "host") []))).
Proof.
  intros Hp. unfold load_address, IPInfo_Init. rewrite (swrap_small 16) by lia.
  unfold E_NETWORK_SERVER_IP_PORT_RANGE_INVALID, E_NETWORK_SERVER_IP_PORT_RANGE_MAX.
  destruct (Z.leb_spec (getInteger v name (chars "port") 0) 1000); [lia|].
  destruct (Z.leb_spec 65536 (getInteger v name (chars "port") 0)); [lia|]. done.
Qed.

(** A port is refused, or it is the one configured modulo 2^16. *)
Lemma load_address_cases v name info :
  load_address v name info = Exit 2 ∨
  ∃ info', load_address v name info = Done info' ∧
    1000 < m_wServerPort info' < 32768 ∧
    m_wServerPort info' = i16 (getInteger v name (chars "port") 0).
Proof.
  unfold load_address, IPInfo_Init.
  set (w := i16 (getInteger v name (chars "port") 0)).
  assert (w < 32768) as Hw.
  { unfold w, swrap. change (2 ^ 16) with 65536. change (2 ^ (16 - 1)) with 32768.
    pose proof (Z.mod_pos_bound (getInteger v name (chars "port") 0) 65536 ltac:(lia)).
    destruct (Z.ltb_spec (getInteger v name (chars "port") 0 mod 65536) 32768); lia. }
  unfold E_NETWORK_SERVER_IP_PORT_RANGE_INVALID, E_NETWORK_SERVER_IP_PORT_RANGE_MAX.
  destruct (Z.leb_spec w 1000); [by left|].
  destruct (Z.leb_spec 65536 w); [lia|]. right. eexists. split; [reflexivity|]. cbn. lia.
Qed.

Lemma load_address_high v name :
  32768 <= getInteger v name (chars "port") 0 <= 65535 → ∀ info, load_address v name info = Exit 2.
Proof.
  intros Hp info. destruct (load_address_cases v name info) as [?|(info' & _ & Hr & Hw)]; [done|].
  exfalso. revert Hr. rewrite Hw. unfold swrap. change (2 ^ 16) with 65536.
  rewrite Z.mod_small by lia. change (2 ^ (16 - 1)) with 32768.
  destruct (Z.ltb_spec (getInteger v name (chars "port") 0) 32768); lia.
Qed.

Definition section_names : list str := [chars "main_server"; chars "proxy_server"; chars "proxy_connect"].

(** What is loaded from a file with valid ports. *)
Definition conf_loaded (v : conf_values) (g : GameSvrConf) : Prop :=
  m_wServerPort (m_stServerIPInfo g) = getInteger v (chars "main_server") (chars "port") 0 ∧
  m_wServerPort (m_stProxyServerIPInfo g) = getInteger v (chars "proxy_server") (chars "port") 0 ∧
  m_wServerPort (m_stProxyConnectIPInfo g) = getInteger v (chars "proxy_connect") (chars "port") 0 ∧
  svr_uuid g = uuid_Init SnowFlakeUUID_new
                 (u32 (getInteger v (chars "main") (chars "host_id") 0))
                 (u32 (getInteger v (chars "main") (chars "gamesvr_id") 0)) ∧
  svr_logger g = Some (chars "gamesvr", get v (chars "log") (chars "level") [],
                       getBoolean v (chars "log") (chars "console") false).

Lemma conf_Init_ok fs text v :
  fs conf_path = Content text → parse ∅ (Content text) = Ok (0, v) →
  conf_Init fs (svr_conf GameSvrConf_new) conf_path = Done (true, mkConf conf_path v).
Proof.
  intros Hfs Hparse. unfold conf_Init. rewrite Hfs.
  change (conf_values_ (svr_conf GameSvrConf_new)) with (∅ : conf_values). by rewrite Hparse.
Qed.

Lemma InitGameSvrConf_loads fs text v :
  fs conf_path = Content text → parse ∅ (Content text) = Ok (0, v) →
  Forall (λ name, 1000 < getInteger v name (chars "port") 0 < 32768) section_names →
  ∃ g, InitGameSvrConf fs GameSvrConf_new = Done g ∧ conf_loaded v g.
Proof.
  intros Hfs Hparse (H1 & (H2 & (H3 & _)%Forall_cons_1)%Forall_cons_1)%Forall_cons_1.
  unfold InitGameSvrConf. rewrite (conf_Init_ok fs text v Hfs Hparse).
  cbn [mbind proc_bind negb conf_values_ svr_uuid].
  rewrite !load_address_ok by done. eexists. split; [reflexivity|]. done.
Qed.

(** With a file that parses, ports from 1001 to 32767 are loaded for all three
    addresses, with the identifiers and the arguments of the logger; but a port from
    32768 to 65535 in one of them, which the checks mean to accept, becomes negative in
    the short and ends the process. *)
Theorem InitGameSvrConf_ports (fs : str → file) (text : str) (v : conf_values) :
  fs conf_path = Content text → parse ∅ (Content text) = Ok (0, v) →
  let port name := getInteger v name (chars "port") 0 in
  (Forall (λ name, 1000 < port name < 32768) section_names →
   ∃ g, InitGameSvrConf fs GameSvrConf_new = Done g ∧ conf_loaded v g) ∧
  (Exists (λ name, 32768 <= port name <= 65535) section_names →
   InitGameSvrConf fs GameSvrConf_new = Exit 2).
Proof.
  intros Hfs Hparse port. split.
  - apply (InitGameSvrConf_loads fs text v Hfs Hparse).
  - unfold InitGameSvrConf. rewrite (conf_Init_ok fs text v Hfs Hparse).
    cbn [mbind proc_bind negb conf_values_ svr_uuid].
    intros Hex. unfold section_names in Hex. rewrite !Exists_cons, Exists_nil in Hex.
    destruct (load_address_cases v (chars "main_server") (m_stServerIPInfo GameSvrConf_new))
      as [->|(i1 & E1 & _)]; [done|]. rewrite E1. cbn [mbind proc_bind].
    destruct (load_address_cases v (chars "proxy_server") (m_stProxyServerIPInfo GameSvrConf_new))
      as [->|(i2 & E2 & _)]; [done|]. rewrite E2. cbn [mbind proc_bind].
    destruct Hex as [H|[H|[H|[]]]]; pose proof (load_address_high _ _ H) as E.
    + by rewrite E in E1.
    + by rewrite E in E2.
    + by rewrite E.
Qed.

Definition ports_example (port : str) : str :=
  chars "[main_server]
host = 0.0.0.0
port = " ++ port ++ chars "
[proxy_server]
port = 7001
[proxy_connect]
port = 7002
".

Definition ports_values (port : str) : conf_values :=
  <[chars "proxy_connect.port" := [chars "7002"]]> (<[chars "proxy_server.port" := [chars "7001"]]>
  (<[chars "main_server.port" := [port]]> {[chars "main_server.host" := [chars "0.0.0.0"]]})).

Lemma InitGameSvrConf_ports_witness :
  InitGameSvrConf (λ _, Content (ports_example (chars "40000"))) GameSvrConf_new = Exit 2 ∧
  ∃ g, InitGameSvrConf (λ _, Content (ports_example (chars "7000"))) GameSvrConf_new = Done g ∧
       m_wServerPort (m_stServerIPInfo g) = 7000.
Proof.
  split.
  - assert (parse ∅ (Content (ports_example (chars "40000"))) = Ok (0, ports_values (chars "40000"))) as Hp
      by (refine (bool_decide_unpack _ _); vm_compute; exact I).
    apply (InitGameSvrConf_ports (λ _, Content (ports_example (chars "40000"))) _ _ eq_refl Hp).
    refine (bool_decide_unpack _ _). vm_compute. exact I.
  - assert (parse ∅ (Content (ports_example (chars "7000"))) = Ok (0, ports_values (chars "7000"))) as Hp
      by (refine (bool_decide_unpack _ _); vm_compute; exact I).
    destruct (InitGameSvrConf_ports (λ _, Content (ports_example (chars "7000"))) _ _ eq_refl Hp)
      as [Hok _].
    destruct Hok as (g & Hg & Hport & _).
    + refine (bool_decide_unpack _ _). vm_compute. exact I.
    + exists g. split; [exact Hg|]. rewrite Hport. vm_compute. reflexivity.
Defined.

(** A value ends at its first blank: the words after it are dropped. *)
Theorem value_cut_at_blank (v rest : str) (c : ascii) :
  word v → v ≠ [] → isspace c = true →
  (consumeTillEnd (scanner_new (v ++ c :: rest))).1 = v.
Proof.
  intros Hv Hne Hc. unfold consumeTillEnd, scanner_new.
  assert (no_space (head (v ++ c :: rest))) as Hh.
  { destruct v as [|x v]; [done|]. by apply Forall_cons_1 in Hv as [[? _] _]. }
  rewrite skipSpaces_head by done. cbn [err p].
  assert (till_end false (v ++ c :: rest) = v ++ [c]) as ->.
  { clear Hh Hne. induction Hv as [|x v (Hx & H1 & H2) _ IH]; cbn.
    - rewrite !eqc_ne by (intros ->; done). cbn. rewrite Hc. destruct rest as [|y rest]; [done|].
      cbn. by destruct (eqc y ";" || eqc y "#").
    - rewrite !eqc_ne by done. cbn. by rewrite Hx, IH. }
  cbn [fst]. apply rstrip_space; [done|by apply last_word].
Qed.
