(* ===== verification/BufferLog.v ===== *)
(** * The log buffer (src/common/log/bufferlog.h, bufferlog.cpp)

    The bound thread formats its messages and pushes them, each behind a block that
    describes it, into a ring buffer of bytes; the log thread pops them and hands them
    to spdlog.  Formatting is not modelled: a message is its formatted text.  What
    spdlog is given is an event. *)

From S2P Require Import Prelude KFifo Unpack.

Definition BUFFER_LOG_BLOCK_MAX_SIZE : Z := 1024 * 1024.
Definition BUFFER_LOG_SPACE_SIZE : Z := 256 * 1024 * 1024.
Definition BUFFER_LOG_FILE_FUNC_MAX_LENGTH : Z := 128.

Definition E_BUFFER_LOG_CMD_NULL : Z := 0.
Definition E_BUFFER_LOG_CMD_LOG : Z := 1.
Definition E_BUFFER_LOG_TOKEN_START : Z := 0x123456789.
Definition E_BUFFER_LOG_TOKEN_END : Z := 0xfedcba987.

(** The levels of spdlog, and one more that ends the process. *)
Definition E_BUFFER_LOG_TYPE_TRACE : Z := 0.
Definition E_BUFFER_LOG_TYPE_DEBUG : Z := 1.
Definition E_BUFFER_LOG_TYPE_INFO : Z := 2.
Definition E_BUFFER_LOG_TYPE_WARN : Z := 3.
Definition E_BUFFER_LOG_TYPE_ERROR : Z := 4.
Definition E_BUFFER_LOG_TYPE_FATAL : Z := 5.
Definition E_BUFFER_LOG_TYPE_CRITICAL : Z := 6.

(** NULL is [None]. *)
Record ST_SrcLocation := mkLocation {
  loc_iLine : Z;
  loc_pchFileName : option (list Z);
  loc_pchFuncName : option (list Z) }.

Record timeval := mkTimeval { tv_sec : Z; tv_usec : Z }.

Record ST_BufferLogBlock := mkBlock {
  m_iLogCmd : Z;
  m_iLogType : Z;
  m_iMsgLen : Z;
  m_ullStartToken : Z;
  m_ullEndToken : Z;
  m_stLogTime : timeval;
  m_iLine : Z;
  m_chFileName : list Z;
  m_chFuncName : list Z }.

Definition NAME_LEN : nat := Z.to_nat BUFFER_LOG_FILE_FUNC_MAX_LENGTH.

Definition ST_BufferLogBlock_new : ST_BufferLogBlock :=
  mkBlock 0 0 0 0 0 (mkTimeval 0 0) 0 (replicate NAME_LEN 0) (replicate NAME_LEN 0).

(** The bytes of the struct on x86-64: the two enumerations take 8 bytes, 4 bytes of
    padding before them and 4 at the end stay as the constructor cleared them. *)
Definition sizeof_block : Z := 312.

Definition block_bytes (b : ST_BufferLogBlock) : list Z :=
  le_bytes 4 (m_iLogCmd b) ++ le_bytes 4 (m_iLogType b) ++ le_bytes 4 (m_iMsgLen b) ++
  replicate 4 0 ++
  le_bytes 8 (m_ullStartToken b) ++ le_bytes 8 (m_ullEndToken b) ++
  le_bytes 8 (tv_sec (m_stLogTime b)) ++ le_bytes 8 (tv_usec (m_stLogTime b)) ++
  le_bytes 4 (m_iLine b) ++ m_chFileName b ++ m_chFuncName b ++ replicate 4 0.

Arguments block_bytes : simpl never.

Definition field (l : list Z) (off n : nat) : list Z := take n (drop off l).

Definition block_of_bytes (l : list Z) : ST_BufferLogBlock :=
  mkBlock
    (i32 (le_value (field l 0 4))) (i32 (le_value (field l 4 4))) (i32 (le_value (field l 8 4)))
    (le_value (field l 16 8)) (le_value (field l 24 8))
    (mkTimeval (i64 (le_value (field l 32 8))) (i64 (le_value (field l 40 8))))
    (i32 (le_value (field l 48 4))) (field l 52 NAME_LEN) (field l 180 NAME_LEN).

(** COPY_STRING_TO_ARRAY *)
Definition COPY_STRING_TO_ARRAY (dest : list Z) (src : option (list Z)) : res (list Z) :=
  match src with
  | None => Fault AssertFail
  | Some src =>
      let iStrLen := i32 (Z.of_nat (length (c_string 0 src))) in
      let iStrLen :=
        if BUFFER_LOG_FILE_FUNC_MAX_LENGTH <=? u32 iStrLen
        then BUFFER_LOG_FILE_FUNC_MAX_LENGTH - 1 else iStrLen in
      dest ← mem_write dest 0 (strncpy 0 (Z.to_nat iStrLen) src);
      mem_write dest iStrLen [0]
  end.

(** [now] is what gettimeofday answers. *)
Definition construct (b : ST_BufferLogBlock) (rstSrcLocation : ST_SrcLocation)
    (iLogCmd iLogType iMsgLen : Z) (now : timeval) : res ST_BufferLogBlock :=
  file ← COPY_STRING_TO_ARRAY (m_chFileName b) (loc_pchFileName rstSrcLocation);
  func ← COPY_STRING_TO_ARRAY (m_chFuncName b) (loc_pchFuncName rstSrcLocation);
  Ok (mkBlock iLogCmd iLogType iMsgLen E_BUFFER_LOG_TOKEN_START E_BUFFER_LOG_TOKEN_END now
        (loc_iLine rstSrcLocation) file func).

(** What spdlog is given; the texts are C strings. *)
Inductive log_event :=
| Logged (iLogType iLine : Z) (file func text : list Z)
| LoggedDirect (iLogType : Z) (text : list Z)
| QueueFull
| TokenInvalid
| PopError
| InvalidCmd (cmd : Z).

(** The singleton with its static buffers and the global ring buffer. *)
Record BufferLogKFiFo := mkBufferLog {
  m_stThreadID : Z;
  m_bInited : bool;
  g_stKFiFo : __kfifo;
  log_chTempBuffer : list Z;
  log_stBufferLogBlock : ST_BufferLogBlock;
  dump_chTempRecvBuffer : list Z;
  dump_stBufferLogBlock : ST_BufferLogBlock;
  iThreadIdleCnt : Z }.

Definition set_fifo (s : BufferLogKFiFo) (f : __kfifo) : BufferLogKFiFo :=
  mkBufferLog (m_stThreadID s) (m_bInited s) f (log_chTempBuffer s) (log_stBufferLogBlock s)
    (dump_chTempRecvBuffer s) (dump_stBufferLogBlock s) (iThreadIdleCnt s).

(** _DoLog with a location: the level CRITICAL ends the process with status 2. *)
Definition _DoLog (iLogType iLine : Z) (file func text : list Z) : log_event * bool :=
  (Logged iLogType iLine (c_string 0 file) (c_string 0 func) (c_string 0 text),
   iLogType =? E_BUFFER_LOG_TYPE_CRITICAL).

Definition _DoLog_direct (iLogType : Z) (text : list Z) : log_event :=
  LoggedDirect iLogType (c_string 0 text).

Definition _DoKFiFoPushMsg (s : BufferLogKFiFo) (block : ST_BufferLogBlock) (chBufferArray : list Z)
    : res (BufferLogKFiFo * list log_event) :=
  if negb (m_bInited s) then Ok (s, [_DoLog_direct (m_iLogType block) chBufferArray])
  else if 0 <? m_iMsgLen block then
    if u64 (m_iMsgLen block + sizeof_block) <? kfifo_avail 0 (g_stKFiFo s) then
      '(f, _) ← kfifo_in 0 (g_stKFiFo s) (block_bytes block) sizeof_block;
      '(f, _) ← kfifo_in 0 f chBufferArray (m_iMsgLen block);
      Ok (set_fifo s f, [])
    else Ok (s, [QueueFull])
  else Ok (s, []).

(** The part of Log before the push: the static buffer and the static block are filled;
    [sLog] is the formatted text. *)
Definition Log_message (chTempBuffer : list Z) (block : ST_BufferLogBlock)
    (stLocation : ST_SrcLocation) (iLogType : Z) (sLog : list Z) (now : timeval)
    : res (list Z * ST_BufferLogBlock) :=
  let iSize := i32 (Z.of_nat (length sLog)) in
  let iSize :=
    if BUFFER_LOG_BLOCK_MAX_SIZE <=? u64 iSize then BUFFER_LOG_BLOCK_MAX_SIZE - 1 else iSize in
  buf ← mem_write chTempBuffer 0 (strncpy 0 (Z.to_nat iSize) sLog);
  buf ← mem_write buf iSize [0];
  block ← construct block stLocation E_BUFFER_LOG_CMD_LOG iLogType iSize now;
  Ok (buf, block).

Definition Log (s : BufferLogKFiFo) (stLocation : ST_SrcLocation) (iLogType : Z) (sLog : list Z)
    (now : timeval) : res (BufferLogKFiFo * list log_event) :=
  '(buf, block) ←
    Log_message (log_chTempBuffer s) (log_stBufferLogBlock s) stLocation iLogType sLog now;
  let s := mkBufferLog (m_stThreadID s) (m_bInited s) (g_stKFiFo s) buf block
             (dump_chTempRecvBuffer s) (dump_stBufferLogBlock s) (iThreadIdleCnt s) in
  _DoKFiFoPushMsg s block buf.

(** The block and the receive buffer are the caller's; the result is what the function
    returns. *)
Definition _DoKFiFoPopMsg (f : __kfifo) (block : ST_BufferLogBlock) (chTempRecvBuffer : list Z)
    : res (__kfifo * ST_BufferLogBlock * list Z * list log_event * Z) :=
  if kfifo_len f <? sizeof_block then Ok (f, block, chTempRecvBuffer, [], 0)
  else
    '(bytes, _) ← kfifo_out_peek 0 f (block_bytes block) sizeof_block;
    let block := block_of_bytes bytes in
    if negb (m_ullStartToken block =? E_BUFFER_LOG_TOKEN_START)
       || negb (m_ullEndToken block =? E_BUFFER_LOG_TOKEN_END)
       || (u32 (m_iMsgLen block) <? 0)
       || (BUFFER_LOG_BLOCK_MAX_SIZE <=? m_iMsgLen block)
    then Ok (kfifo_reset_out f, block, chTempRecvBuffer, [TokenInvalid], -1)
    else if kfifo_len f <? u32 (m_iMsgLen block + sizeof_block)
    then Ok (f, block, chTempRecvBuffer, [], 0)
    else
      let f := kfifo_skip_n f sizeof_block in
      if m_iLogCmd block =? E_BUFFER_LOG_CMD_LOG then
        '(f, buf, _) ← kfifo_out 0 f chTempRecvBuffer (u32 (m_iMsgLen block));
        buf ← mem_write buf (m_iMsgLen block) [0];
        Ok (f, block, buf, [], m_iMsgLen block)
      else Ok (f, block, chTempRecvBuffer, [], m_iMsgLen block).

(** One round of the loop of DoDumpLogToDisk; the flag says that the process ends. *)
Definition dump_round (s : BufferLogKFiFo) : res (BufferLogKFiFo * list log_event * bool) :=
  '(f, block, buf, ev, iRet) ←
    _DoKFiFoPopMsg (g_stKFiFo s) (dump_stBufferLogBlock s) (dump_chTempRecvBuffer s);
  let upd idle := mkBufferLog (m_stThreadID s) (m_bInited s) f (log_chTempBuffer s)
                    (log_stBufferLogBlock s) buf block idle in
  if iRet <? 0 then Ok (upd (iThreadIdleCnt s), ev ++ [PopError], false)
  else if iRet =? 0 then
    let idle := iThreadIdleCnt s + 1 in
    Ok (upd (if 10 <? idle then 0 else idle), ev, false)
  else if m_iLogCmd block =? E_BUFFER_LOG_CMD_LOG then
    let '(e, stop) := _DoLog (m_iLogType block) (m_iLine block) (m_chFileName block)
                        (m_chFuncName block) buf in
    Ok (upd (iThreadIdleCnt s), ev ++ [e], stop)
  else Ok (upd (iThreadIdleCnt s), ev ++ [InvalidCmd (m_iLogCmd block)], false).

(** DoDumpLogToDisk for [n] rounds: the loop has no end of its own. *)
Fixpoint DoDumpLogToDisk (n : nat) (s : BufferLogKFiFo)
    : res (BufferLogKFiFo * list log_event * bool) :=
  match n with
  | O => Ok (s, [], false)
  | S n =>
      '(s, ev, stop) ← dump_round s;
      if stop : bool then Ok (s, ev, true)
      else
        '(s, ev', stop) ← DoDumpLogToDisk n s;
        Ok (s, ev ++ ev', stop)
  end.

Definition BindMainThread (s : BufferLogKFiFo) (this_thread : Z) : BufferLogKFiFo :=
  mkBufferLog this_thread true (g_stKFiFo s) (log_chTempBuffer s) (log_stBufferLogBlock s)
    (dump_chTempRecvBuffer s) (dump_stBufferLogBlock s) (iThreadIdleCnt s).

Definition IsMainThread (s : BufferLogKFiFo) (this_thread : Z) : bool := m_stThreadID s =? this_thread.

(** BUFFERLOG_LOGGER_CALL: other threads call spdlog themselves. *)
Definition BUFFERLOG_LOGGER_CALL (s : BufferLogKFiFo) (this_thread : Z) (loc : ST_SrcLocation)
    (level : Z) (text : list Z) (now : timeval) : res (BufferLogKFiFo * list log_event * bool) :=
  if negb (IsMainThread s this_thread) then
    let '(e, stop) := _DoLog level (loc_iLine loc) (default [] (loc_pchFileName loc))
                        (default [] (loc_pchFuncName loc)) text in
    Ok (s, [e], stop)
  else
    '(s, ev) ← Log s loc level text now;
    Ok (s, ev, false).

(** The state at the start: static memory is zero, DECLARE_KFIFO and INIT_KFIFO give an
    empty ring over [ring]. *)
Definition BufferLog_new (ring : list Z) : BufferLogKFiFo :=
  mkBufferLog 0 false (INIT_KFIFO ring (Z.of_nat (length ring)) 1)
    (replicate (Z.to_nat BUFFER_LOG_BLOCK_MAX_SIZE) 0) ST_BufferLogBlock_new
    (replicate (Z.to_nat BUFFER_LOG_BLOCK_MAX_SIZE) 0) ST_BufferLogBlock_new 0.

(** ** A block and its bytes *)

Definition int32 (z : Z) : Prop := - 2 ^ 31 <= z < 2 ^ 31.
Definition int64 (z : Z) : Prop := - 2 ^ 63 <= z < 2 ^ 63.

Record wf_block (b : ST_BufferLogBlock) : Prop := {
  wf_cmd : int32 (m_iLogCmd b);
  wf_type : int32 (m_iLogType b);
  wf_len : int32 (m_iMsgLen b);
  wf_line : int32 (m_iLine b);
  wf_start : 0 <= m_ullStartToken b < 2 ^ 64;
  wf_end : 0 <= m_ullEndToken b < 2 ^ 64;
  wf_sec : int64 (tv_sec (m_stLogTime b));
  wf_usec : int64 (tv_usec (m_stLogTime b));
  wf_file : length (m_chFileName b) = NAME_LEN;
  wf_func : length (m_chFuncName b) = NAME_LEN }.

Lemma length_block_bytes b :
  length (m_chFileName b) = NAME_LEN → length (m_chFuncName b) = NAME_LEN →
  length (block_bytes b) = Z.to_nat sizeof_block.
Proof.
  intros H1 H2. unfold block_bytes. rewrite !length_app, !length_le_bytes, H1, H2. reflexivity.
Qed.

Lemma field_skip a l off n :
  (length a <= off)%nat → field (a ++ l) off n = field l (off - length a) n.
Proof. intros. unfold field. by rewrite drop_app_ge. Qed.

Lemma field_here a l n : length a = n → field (a ++ l) 0 n = a.
Proof. intros. unfold field. rewrite drop_0. by rewrite take_app_length'. Qed.

(** Step over the fields before the one at the offset; the lengths of the parts are
    hypotheses. *)
Ltac find_field :=
  repeat (rewrite field_skip by lia);
  match goal with |- context [field _ ?off _] => replace off with 0%nat by lia end;
  rewrite field_here by done.

Lemma swrap_le_bytes w n z :
  w = 8 * Z.of_nat n → 0 < w → - 2 ^ (w - 1) <= z < 2 ^ (w - 1) →
  swrap w (le_value (le_bytes n z)) = z.
Proof.
  intros -> Hn Hz. rewrite le_value_le_bytes.
  rewrite <- (swrap_small (8 * Z.of_nat n) z) at 2 by done.
  unfold swrap, wrap. by rewrite Z.mod_mod by lia.
Qed.

Lemma block_roundtrip b : wf_block b → block_of_bytes (block_bytes b) = b.
Proof.
  intros Hwf. destruct b as [cmd type n start stop [sec usec] line file func].
  destruct Hwf as [Hcmd Htype Hlen Hline Hs He Hsec Husec Hfile Hfunc].
  cbn in Hcmd, Htype, Hlen, Hline, Hs, He, Hsec, Husec, Hfile, Hfunc.
  unfold block_of_bytes, block_bytes. cbn [m_iLogCmd m_iLogType m_iMsgLen m_ullStartToken
    m_ullEndToken m_stLogTime m_iLine m_chFileName m_chFuncName tv_sec tv_usec].
  assert (∀ z, int32 z → ∃ l, le_bytes 4 z = l ∧ length l = 4%nat ∧ i32 (le_value l) = z) as E32.
  { intros z Hz. eexists. split; [reflexivity|]. split; [apply length_le_bytes|by apply swrap_le_bytes]. }
  assert (∀ z, int64 z → ∃ l, le_bytes 8 z = l ∧ length l = 8%nat ∧ i64 (le_value l) = z) as E64.
  { intros z Hz. eexists. split; [reflexivity|]. split; [apply length_le_bytes|by apply swrap_le_bytes]. }
  assert (∀ z, 0 <= z < 2 ^ 64 → ∃ l, le_bytes 8 z = l ∧ length l = 8%nat ∧ le_value l = z) as EU.
  { intros z Hz. eexists. split; [reflexivity|]. split; [apply length_le_bytes|].
    rewrite le_value_le_bytes. by apply wrap_small. }
  destruct (E32 _ Hcmd) as (l0 & -> & ? & ?), (E32 _ Htype) as (l1 & -> & ? & ?),
    (E32 _ Hlen) as (l2 & -> & ? & ?), (E32 _ Hline) as (l3 & -> & ? & ?),
    (EU _ Hs) as (l4 & -> & ? & ?), (EU _ He) as (l5 & -> & ? & ?),
    (E64 _ Hsec) as (l6 & -> & ? & ?), (E64 _ Husec) as (l7 & -> & ? & ?).
  assert (length (replicate 4 0) = 4%nat) by done.
  assert (NAME_LEN = 128%nat) as HN by done. rewrite HN in *. clear HN.
  generalize dependent (replicate 4 0). intros pad Hpad.
  f_equal; [| | | | |f_equal| | |]; find_field; done.
Qed.

(** ** The ring holds whole messages *)

Abbreviation msg := (ST_BufferLogBlock * list Z)%type.

Definition msg_bytes (m : msg) : list Z := block_bytes m.1 ++ m.2.

Arguments msg_bytes : simpl never.

Record wf_msg (m : msg) : Prop := {
  wf_msg_block : wf_block m.1;
  wf_msg_cmd : m_iLogCmd m.1 = E_BUFFER_LOG_CMD_LOG;
  wf_msg_start : m_ullStartToken m.1 = E_BUFFER_LOG_TOKEN_START;
  wf_msg_end : m_ullEndToken m.1 = E_BUFFER_LOG_TOKEN_END;
  wf_msg_len : m_iMsgLen m.1 = Z.of_nat (length m.2);
  wf_msg_size : 0 < m_iMsgLen m.1 < BUFFER_LOG_BLOCK_MAX_SIZE }.

Definition msgs_size (q : list msg) : Z := foldr (λ m n, m_iMsgLen m.1 + sizeof_block + n) 0 q.

Record holds (cap : Z) (f : __kfifo) (q : list msg) : Prop := {
  holds_wf : wf_kfifo f;
  holds_cap : capacity f = cap;
  holds_esize : kf_esize f = 1;
  holds_contents : contents f = q ≫= msg_bytes;
  holds_msgs : Forall wf_msg q }.

Lemma length_msg_bytes m :
  wf_msg m → Z.of_nat (length (msg_bytes m)) = m_iMsgLen m.1 + sizeof_block.
Proof.
  intros Hm. pose proof (wf_msg_block m Hm) as Hb. unfold msg_bytes.
  rewrite length_app, length_block_bytes by (by destruct Hb). rewrite (wf_msg_len m Hm).
  unfold sizeof_block. lia.
Qed.

Lemma msgs_size_cons m q : msgs_size (m :: q) = m_iMsgLen m.1 + sizeof_block + msgs_size q.
Proof. done. Qed.

Lemma msgs_size_nonneg q : Forall wf_msg q → 0 <= msgs_size q.
Proof.
  induction 1 as [|m q Hm _ IH]; [done|]. rewrite msgs_size_cons.
  pose proof (wf_msg_size m Hm). unfold sizeof_block. lia.
Qed.

Lemma holds_used cap f q : holds cap f q → used f = msgs_size q.
Proof.
  intros [Hwf _ Hes Hc Hq]. pose proof (used_of_length f Hwf) as Hu.
  rewrite Hes, Z.div_1_r, Hc in Hu. rewrite <- Hu. clear - Hq.
  induction Hq as [|m q Hm _ IH]; [done|]. rewrite bind_cons.
  rewrite length_app, Nat2Z.inj_add, IH, length_msg_bytes by done.
  rewrite msgs_size_cons. lia.
Qed.

Lemma kfifo_in_bytes f (src : list Z) n :
  wf_kfifo f → kf_esize f = 1 → 0 <= n <= capacity f - used f → n <= Z.of_nat (length src) →
  ∃ f', kfifo_in 0 f src n = Ok (f', n) ∧ wf_kfifo f' ∧
    contents f' = contents f ++ take (Z.to_nat n) src ∧
    used f' = used f + n ∧ capacity f' = capacity f ∧ kf_esize f' = 1.
Proof.
  intros Hwf Hes Hn Hsrc. pose proof (capacity_le f Hwf). pose proof (used_bound f).
  unfold kfifo_in. cbn [Z.eqb negb]. rewrite u32_small by lia.
  destruct (kfifo_in_ok f src n) as (f' & E & Hwf' & Hc & Hu & Hcap & He);
    [done|lia|rewrite Hes, Z.min_l by lia; lia|].
  rewrite Hes, Z.min_l, Z.mul_1_r in * by lia. exists f'. by rewrite E.
Qed.

Lemma push_ok cap s q (b : ST_BufferLogBlock) (body buf : list Z) :
  m_bInited s = true → holds cap (g_stKFiFo s) q → wf_msg (b, body) →
  take (length body) buf = body →
  if decide (m_iMsgLen b + sizeof_block < cap - msgs_size q)
  then ∃ f', _DoKFiFoPushMsg s b buf = Ok (set_fifo s f', []) ∧ holds cap f' (q ++ [(b, body)])
  else _DoKFiFoPushMsg s b buf = Ok (s, [QueueFull]).
Proof.
  intros Hinit Hh Hm Hbuf. pose proof (holds_used _ _ _ Hh) as Hused.
  pose proof Hm as [Hb _ _ _ Hlen Hsize]. cbn in Hb, Hlen, Hsize.
  pose proof Hh as [Hwf Hcap Hes Hc Hq]. pose proof (capacity_le _ Hwf).
  assert (Z.of_nat (length body) <= Z.of_nat (length buf)).
  { rewrite <- Hbuf, length_take. lia. }
  unfold _DoKFiFoPushMsg. rewrite Hinit. cbn [negb].
  rewrite (proj2 (Z.ltb_lt 0 _)) by lia.
  rewrite kfifo_avail_plain, Hused, Hcap by done.
  unfold BUFFER_LOG_BLOCK_MAX_SIZE in Hsize. unfold sizeof_block in *.
  rewrite (wrap_small 64) by lia. case_decide as Hroom.
  - rewrite (proj2 (Z.ltb_lt _ _)) by lia.
    assert (length (block_bytes b) = 312%nat) as Hbl by (apply length_block_bytes; by destruct Hb).
    destruct (kfifo_in_bytes (g_stKFiFo s) (block_bytes b) 312) as (f1 & -> & W1 & C1 & U1 & K1 & E1);
      [done..|lia|lia|]. cbn [mbind res_bind].
    destruct (kfifo_in_bytes f1 buf (m_iMsgLen b)) as (f2 & -> & W2 & C2 & _ & K2 & E2);
      [done..|lia|lia|]. cbn [mbind res_bind].
    exists f2. split; [done|]. constructor; [done|congruence|done| |].
    + rewrite C2, C1, Hc, bind_app. cbn. rewrite app_nil_r. unfold msg_bytes. cbn [fst snd].
      rewrite (take_ge (block_bytes b)) by lia. rewrite Hlen, Nat2Z.id, Hbuf. by rewrite (assoc_L (++)).
    + apply Forall_app. split; [done|]. by apply list.Forall_singleton.
  - by rewrite (proj2 (Z.ltb_ge _ _)) by lia.
Qed.

(** Reads of a fifo of bytes that holds [a] in front of [rest]. *)
Section ReadBytes.
Context (f : __kfifo) (a rest : list Z) (n : Z).
Context (Hwf : wf_kfifo f) (Hes : kf_esize f = 1) (Hc : contents f = a ++ rest).
Context (Hn : n = Z.of_nat (length a)).

Lemma front_used : 0 <= n <= used f ∧ n < 4294967296.
Proof using All.
  pose proof (used_of_length f Hwf) as Hu. rewrite Hes, Z.div_1_r, Hc, length_app in Hu.
  pose proof (wf_used f Hwf). pose proof (capacity_le f Hwf). lia.
Qed.

Lemma kfifo_peek_bytes buf :
  length buf = length a → kfifo_out_peek 0 f buf n = Ok (a, n).
Proof using All.
  intros Hbuf. destruct front_used. unfold kfifo_out_peek. cbn [Z.eqb negb].
  rewrite u32_small, kfifo_out_peek_ok by (done || lia || (rewrite Hes; lia)).
  rewrite Hes, Z.min_l, Z.mul_1_r, Hc by lia. rewrite Hn, Nat2Z.id, take_app_length.
  by rewrite drop_ge, app_nil_r by lia.
Qed.

Lemma kfifo_skip_bytes :
  wf_kfifo (kfifo_skip_n f n) ∧ contents (kfifo_skip_n f n) = rest.
Proof using All.
  destruct (consume_spec f n) as (W & C & _); [done|apply front_used|].
  split; [done|]. unfold kfifo_skip_n. rewrite C, Hes, Hc, Z.mul_1_r, Hn, Nat2Z.id.
  apply drop_app_length.
Qed.

Lemma kfifo_out_bytes buf :
  n <= Z.of_nat (length buf) →
  ∃ f', kfifo_out 0 f buf n = Ok (f', a ++ drop (length a) buf, n) ∧
    wf_kfifo f' ∧ contents f' = rest ∧ capacity f' = capacity f ∧ kf_esize f' = 1.
Proof using All.
  intros Hbuf. destruct front_used. unfold kfifo_out. cbn [Z.eqb negb]. rewrite u32_small by lia.
  destruct (kfifo_out_ok f buf n) as (f' & -> & W & C & _ & K & E);
    [done|lia|rewrite Hes; lia|].
  rewrite Hes, Hc, Z.min_l, Z.mul_1_r, Hn, Nat2Z.id in * by lia.
  rewrite take_app_length. rewrite drop_app_length in C. eauto 10.
Qed.

End ReadBytes.

Lemma pop_empty cap f b buf :
  holds cap f [] → _DoKFiFoPopMsg f b buf = Ok (f, b, buf, [], 0).
Proof.
  intros Hh. unfold _DoKFiFoPopMsg. change (kfifo_len f) with (used f).
  by rewrite (holds_used _ _ _ Hh).
Qed.

(** The terminator behind a received text. *)
Lemma terminate_text (body buf : list Z) :
  (length body < length buf)%nat →
  ∃ rest, mem_write (body ++ drop (length body) buf) (Z.of_nat (length body)) [0]
          = Ok (body ++ 0 :: rest) ∧ length (body ++ 0 :: rest) = length buf.
Proof.
  intros Hl. destruct (drop (length body) buf) as [|x rest] eqn:Ed.
  { apply (f_equal length) in Ed. rewrite length_drop in Ed. cbn in Ed. lia. }
  apply (f_equal length) in Ed. rewrite length_drop in Ed. cbn in Ed.
  exists rest. rewrite mem_write_Ok by (rewrite ?length_app; cbn; lia). rewrite Nat2Z.id.
  unfold splice. rewrite take_app_length, <- drop_drop, drop_app_length.
  split; [done|]. rewrite length_app. cbn. lia.
Qed.

Lemma pop_ok cap f m q b buf :
  holds cap f (m :: q) → length (m_chFileName b) = NAME_LEN → length (m_chFuncName b) = NAME_LEN →
  Z.of_nat (length buf) = BUFFER_LOG_BLOCK_MAX_SIZE →
  ∃ f' buf', _DoKFiFoPopMsg f b buf = Ok (f', m.1, buf', [], m_iMsgLen m.1) ∧
    holds cap f' q ∧ length buf' = length buf ∧ ∃ rest, buf' = m.2 ++ 0 :: rest.
Proof.
  intros Hh Hfile Hfunc Hbuf. pose proof (holds_used _ _ _ Hh) as Hused.
  pose proof Hh as [Hwf Hcap Hes Hc Hq]. apply Forall_cons_1 in Hq as [Hm Hq].
  pose proof Hm as [Hb Hcmd Hst Hen Hlen Hsize]. rewrite bind_cons in Hc.
  pose proof (msgs_size_nonneg q Hq) as Hpos. rewrite msgs_size_cons in Hused.
  assert (length (block_bytes m.1) = 312%nat) as Hbl by (apply length_block_bytes; by destruct Hb).
  assert (length (block_bytes b) = 312%nat) as Hbl' by (by apply length_block_bytes).
  unfold BUFFER_LOG_BLOCK_MAX_SIZE, sizeof_block in *.
  pose proof (wf_used f Hwf). pose proof (capacity_le f Hwf).
  unfold msg_bytes at 1 in Hc. rewrite <- (assoc_L (++)) in Hc.
  unfold _DoKFiFoPopMsg, sizeof_block, BUFFER_LOG_BLOCK_MAX_SIZE.
  change (kfifo_len f) with (used f). rewrite (proj2 (Z.ltb_ge (used f) 312)) by lia.
  rewrite (kfifo_peek_bytes f (block_bytes m.1) _ 312 Hwf Hes Hc) by lia. cbn [mbind res_bind].
  rewrite block_roundtrip by done. rewrite Hst, Hen, !Z.eqb_refl. cbn [negb orb].
  rewrite (proj2 (Z.ltb_ge (u32 _) 0)) by apply u32_bound.
  rewrite (proj2 (Z.leb_gt (1024 * 1024) _)) by lia. cbn [orb].
  rewrite u32_small by lia. rewrite (proj2 (Z.ltb_ge (used f) _)) by lia.
  rewrite Hcmd, Z.eqb_refl. rewrite (u32_small (m_iMsgLen m.1)) by lia.
  destruct (kfifo_skip_bytes f (block_bytes m.1) _ 312 Hwf Hes Hc) as [W1 C1]; [lia|].
  destruct (kfifo_out_bytes (kfifo_skip_n f 312) m.2 _ (m_iMsgLen m.1) W1 Hes C1 Hlen buf)
    as (f2 & -> & W2 & C2 & K2 & E2); [lia|]. cbn [mbind res_bind].
  rewrite Hlen. destruct (terminate_text m.2 buf) as (rest & -> & Hrest); [lia|]. cbn [mbind res_bind].
  exists f2, (m.2 ++ 0 :: rest). split; [done|].
  split; [by constructor; [|rewrite K2| | |]|]. eauto.
Qed.

(** ** Logging a message *)

Lemma copy_terminated (buf src : list Z) (n : nat) :
  (n < length buf)%nat →
  ∃ d rest, mem_write buf 0 (strncpy 0 n src) = Ok d ∧
    mem_write d (Z.of_nat n) [0] = Ok (strncpy 0 n src ++ 0 :: rest) ∧
    length (strncpy 0 n src ++ 0 :: rest) = length buf.
Proof.
  intros Hn. pose proof (length_strncpy 0 n src) as Hlen.
  rewrite mem_write_Ok by (rewrite ?Hlen; lia). unfold splice. cbn [take Z.to_nat].
  destruct (terminate_text (strncpy 0 n src) buf) as (rest & Hw & Hl); [lia|].
  rewrite Hlen in Hw. exists (strncpy 0 n src ++ drop n buf), rest.
  cbn [app]. rewrite Nat.add_0_l, Hlen. done.
Qed.

Lemma COPY_STRING_ok (dest src : list Z) :
  length dest = NAME_LEN → Z.of_nat (length (c_string 0 src)) < 2 ^ 31 →
  ∃ d, COPY_STRING_TO_ARRAY dest (Some src) = Ok d ∧ length d = NAME_LEN ∧
       c_string 0 d = take 127 (c_string 0 src).
Proof.
  intros Hd Hsrc. unfold COPY_STRING_TO_ARRAY. rewrite (swrap_small 32) by lia.
  rewrite (u32_small (Z.of_nat _)) by lia.
  unfold NAME_LEN, BUFFER_LOG_FILE_FUNC_MAX_LENGTH in *.
  set (n := Nat.min (length (c_string 0 src)) 127).
  replace (if 128 <=? _ then 128 - 1 else _) with (Z.of_nat n)
    by (unfold n; destruct (Z.leb_spec 128 (Z.of_nat (length (c_string 0 src)))); lia).
  destruct (copy_terminated dest src n) as (d & rest & E1 & E2 & El); [unfold n; lia|].
  rewrite Nat2Z.id, E1. cbn [mbind res_bind]. rewrite E2. eexists. split; [reflexivity|].
  split; [by rewrite El|]. rewrite c_string_strncpy. unfold n.
  destruct (decide (length (c_string 0%Z src) <= 127)%nat).
  - rewrite !take_ge by lia. done.
  - f_equal. lia.
Qed.

(** What the queue of messages is for its users: sizes and events. *)
Record log_call := mkCall {
  call_type : Z; call_line : Z; call_file : list Z; call_func : list Z; call_text : list Z;
  call_time : timeval }.

Definition call_location (c : log_call) : ST_SrcLocation :=
  mkLocation (call_line c) (Some (call_file c)) (Some (call_func c)).

Definition call_size (c : log_call) : Z :=
  Z.min (Z.of_nat (length (call_text c))) (BUFFER_LOG_BLOCK_MAX_SIZE - 1).

Definition call_event (c : log_call) : log_event :=
  Logged (call_type c) (call_line c) (take 127 (c_string 0 (call_file c)))
    (take 127 (c_string 0 (call_func c))) (take (Z.to_nat (call_size c)) (c_string 0 (call_text c))).

Record wf_call (c : log_call) : Prop := {
  wf_call_type : int32 (call_type c);
  wf_call_line : int32 (call_line c);
  wf_call_sec : int64 (tv_sec (call_time c));
  wf_call_usec : int64 (tv_usec (call_time c));
  wf_call_file : Z.of_nat (length (c_string 0 (call_file c))) < 2 ^ 31;
  wf_call_func : Z.of_nat (length (c_string 0 (call_func c))) < 2 ^ 31;
  wf_call_text : Z.of_nat (length (call_text c)) < 2 ^ 31 }.

(** A message in the ring stands for a call. *)
Definition msg_of_call (m : msg) (c : log_call) : Prop :=
  m_iMsgLen m.1 = call_size c ∧ m_iLogType m.1 = call_type c ∧ m_iLine m.1 = call_line c ∧
  c_string 0 (m_chFileName m.1) = take 127 (c_string 0 (call_file c)) ∧
  c_string 0 (m_chFuncName m.1) = take 127 (c_string 0 (call_func c)) ∧
  ∀ rest, c_string 0 (m.2 ++ 0 :: rest) = take (Z.to_nat (call_size c)) (c_string 0 (call_text c)).

Record log_inv (cap : Z) (s : BufferLogKFiFo) (cs : list log_call) : Prop := {
  inv_inited : m_bInited s = true;
  inv_holds : ∃ q, holds cap (g_stKFiFo s) q ∧ Forall2 msg_of_call q cs;
  inv_temp : Z.of_nat (length (log_chTempBuffer s)) = BUFFER_LOG_BLOCK_MAX_SIZE;
  inv_recv : Z.of_nat (length (dump_chTempRecvBuffer s)) = BUFFER_LOG_BLOCK_MAX_SIZE;
  inv_file : length (m_chFileName (log_stBufferLogBlock s)) = NAME_LEN;
  inv_func : length (m_chFuncName (log_stBufferLogBlock s)) = NAME_LEN;
  inv_dfile : length (m_chFileName (dump_stBufferLogBlock s)) = NAME_LEN;
  inv_dfunc : length (m_chFuncName (dump_stBufferLogBlock s)) = NAME_LEN }.

(** ** The abstract queue of messages *)

Definition calls_size (cs : list log_call) : Z :=
  foldr (λ c n, call_size c + sizeof_block + n) 0 cs.

Inductive log_op := OpLog (c : log_call) | OpDump.

Definition q_log_step (cap : Z) (cs : list log_call) (op : log_op)
    : list log_call * list log_event * bool :=
  match op with
  | OpLog c =>
      if decide (call_size c = 0) then (cs, [], false)
      else if decide (call_size c + sizeof_block < cap - calls_size cs) then (cs ++ [c], [], false)
      else (cs, [QueueFull], false)
  | OpDump =>
      match cs with
      | [] => ([], [], false)
      | c :: cs => (cs, [call_event c], call_type c =? E_BUFFER_LOG_TYPE_CRITICAL)
      end
  end.

Definition k_log_step (s : BufferLogKFiFo) (op : log_op) : res (BufferLogKFiFo * list log_event * bool) :=
  match op with
  | OpLog c =>
      '(s, ev) ← Log s (call_location c) (call_type c) (call_text c) (call_time c);
      Ok (s, ev, false)
  | OpDump => dump_round s
  end.

Lemma msgs_calls_size q cs : Forall2 msg_of_call q cs → msgs_size q = calls_size cs.
Proof.
  induction 1 as [|m c q cs (Hlen & _) _ IH]; [done|]. rewrite msgs_size_cons, IH, Hlen. done.
Qed.

(** The message Log pushes. *)
Lemma Log_message_ok (buf : list Z) (b : ST_BufferLogBlock) c :
  Z.of_nat (length buf) = BUFFER_LOG_BLOCK_MAX_SIZE →
  length (m_chFileName b) = NAME_LEN → length (m_chFuncName b) = NAME_LEN → wf_call c →
  ∃ block body rest,
    Log_message buf b (call_location c) (call_type c) (call_text c) (call_time c)
      = Ok (body ++ 0 :: rest, block) ∧
    length (body ++ 0 :: rest) = length buf ∧
    length (m_chFileName block) = NAME_LEN ∧ length (m_chFuncName block) = NAME_LEN ∧
    msg_of_call (block, body) c ∧ m_iMsgLen block = Z.of_nat (length body) ∧
    (call_size c ≠ 0 → wf_msg (block, body)).
Proof.
  intros Htemp Hfile Hfunc Hc. destruct Hc as [Ht Hl H1 H2 H3 H4 H5].
  unfold Log_message. rewrite (swrap_small 32) by lia. rewrite (wrap_small 64) by lia.
  replace (if BUFFER_LOG_BLOCK_MAX_SIZE <=? _ then _ else _) with (call_size c).
  2:{ unfold call_size.
      destruct (Z.leb_spec BUFFER_LOG_BLOCK_MAX_SIZE (Z.of_nat (length (call_text c)))); lia. }
  assert (0 <= call_size c < BUFFER_LOG_BLOCK_MAX_SIZE) as Hsize.
  { unfold call_size, BUFFER_LOG_BLOCK_MAX_SIZE. lia. }
  set (n := Z.to_nat (call_size c)). assert (call_size c = Z.of_nat n) as En by (unfold n; lia).
  destruct (copy_terminated buf (call_text c) n) as (d & rest & E1 & E2 & El); [lia|].
  rewrite E1. cbn [mbind res_bind]. rewrite En, E2. cbn [mbind res_bind]. unfold construct.
  cbn [loc_pchFileName loc_pchFuncName call_location].
  destruct (COPY_STRING_ok _ _ Hfile H3) as (file & -> & Lf & Cf). cbn [mbind res_bind].
  destruct (COPY_STRING_ok _ _ Hfunc H4) as (func & -> & Lg & Cg). cbn [mbind res_bind].
  eexists _, (strncpy 0 n (call_text c)), rest. split; [reflexivity|]. split; [done|].
  split; [done|]. split; [done|]. unfold BUFFER_LOG_BLOCK_MAX_SIZE in *.
  split; [|split].
  - split_and!; cbn; try done. intros rest'. apply c_string_strncpy.
  - cbn. by rewrite length_strncpy.
  - intros Hne. constructor; cbn; rewrite ?length_strncpy; try done; [|unfold BUFFER_LOG_BLOCK_MAX_SIZE; lia].
    constructor; cbn; try done. split; lia.
Qed.

(** Log copies the text and the location and pushes the message. *)
Lemma Log_prepares cap s cs c :
  log_inv cap s cs → wf_call c →
  ∃ s' block body rest,
    Log s (call_location c) (call_type c) (call_text c) (call_time c)
      = _DoKFiFoPushMsg s' block (body ++ 0 :: rest) ∧
    g_stKFiFo s' = g_stKFiFo s ∧ log_inv cap s' cs ∧ msg_of_call (block, body) c ∧
    m_iMsgLen block = Z.of_nat (length body) ∧
    (call_size c ≠ 0 → wf_msg (block, body)).
Proof.
  intros [Hinit Hq Htemp Hrecv Hfile Hfunc Hdf1 Hdf2] Hc.
  destruct (Log_message_ok _ _ c Htemp Hfile Hfunc Hc)
    as (block & body & rest & E & El & Lf & Lg & Hm & Hlen & Hwf).
  unfold Log. rewrite E. cbn [mbind res_bind]. eexists _, block, body, rest.
  split; [reflexivity|]. split; [done|]. split; [|done]. constructor; cbn; try done. by rewrite El.
Qed.

Lemma log_inv_set_fifo cap s cs cs' f q :
  log_inv cap s cs → holds cap f q → Forall2 msg_of_call q cs' → log_inv cap (set_fifo s f) cs'.
Proof. intros [] ? ?. constructor; eauto. Qed.

Lemma Log_step cap s cs c :
  log_inv cap s cs → wf_call c →
  ∃ s', k_log_step s (OpLog c) = Ok (s', snd (fst (q_log_step cap cs (OpLog c))), false) ∧
        log_inv cap s' (fst (fst (q_log_step cap cs (OpLog c)))).
Proof.
  intros Hinv Hc.
  destruct (Log_prepares cap s cs c Hinv Hc) as (s' & block & body & rest & E & _ & Hinv' & Hm & Hlen & Hwf).
  cbn [k_log_step q_log_step]. rewrite E. clear E.
  destruct (inv_holds _ _ _ Hinv') as (q & Hq & Hqc).
  pose proof (proj1 Hm) as Hsize. cbn in Hsize.
  case_decide as Hz.
  { unfold _DoKFiFoPushMsg. rewrite (inv_inited _ _ _ Hinv'). cbn [negb].
    rewrite Hsize, Hz. cbn. eauto. }
  specialize (Hwf Hz).
  pose proof (push_ok cap s' q block body (body ++ 0 :: rest) (inv_inited _ _ _ Hinv') Hq Hwf
    (take_app_length _ _)) as Hpush.
  rewrite (msgs_calls_size _ _ Hqc), Hsize in Hpush. case_decide.
  - destruct Hpush as (f' & -> & Hh). cbn. eexists. split; [reflexivity|].
    eapply log_inv_set_fifo; [done|done|]. apply Forall2_app; [done|].
    constructor; [exact Hm|constructor].
  - rewrite Hpush. cbn. eauto.
Qed.

Lemma Dump_step cap s cs :
  log_inv cap s cs →
  ∃ s', k_log_step s OpDump = Ok (s', snd (fst (q_log_step cap cs OpDump)),
                                  snd (q_log_step cap cs OpDump)) ∧
        log_inv cap s' (fst (fst (q_log_step cap cs OpDump))).
Proof.
  intros [Hinit (q & Hq & Hqc) Htemp Hrecv Hfile Hfunc Hdf1 Hdf2].
  cbn [k_log_step q_log_step]. unfold dump_round.
  destruct Hqc as [|m c q cs Hm Hqc].
  - rewrite (pop_empty cap) by done. cbn. eexists. split; [reflexivity|]. constructor; eauto.
  - pose proof (holds_msgs _ _ _ Hq) as Hms. apply Forall_cons_1 in Hms as [Hmwf _].
    destruct (pop_ok cap _ m q (dump_stBufferLogBlock s) (dump_chTempRecvBuffer s) Hq Hdf1 Hdf2 Hrecv)
      as (f' & buf' & -> & Hh & Hl & rest & ->).
    cbn [mbind res_bind]. pose proof (wf_msg_size m Hmwf) as Hpos. unfold BUFFER_LOG_BLOCK_MAX_SIZE in Hpos.
    rewrite (proj2 (Z.ltb_ge _ 0)), (proj2 (Z.eqb_neq _ 0)) by lia.
    rewrite (wf_msg_cmd m Hmwf), Z.eqb_refl. destruct Hm as (_ & Ht & Hli & Hf & Hg & Htext).
    unfold _DoLog. rewrite Ht, Hli, Hf, Hg, Htext. cbn. eexists. split; [reflexivity|].
    pose proof (wf_msg_block m Hmwf) as []. constructor; cbn; eauto. by rewrite Hl.
Qed.

(** A run of calls; a critical message that is dumped ends it. *)
Fixpoint k_log_run (s : BufferLogKFiFo) (ops : list log_op)
    : res (BufferLogKFiFo * list log_event * bool) :=
  match ops with
  | [] => Ok (s, [], false)
  | op :: ops =>
      '(s, ev, stop) ← k_log_step s op;
      if stop : bool then Ok (s, ev, true)
      else
        '(s, ev', stop) ← k_log_run s ops;
        Ok (s, ev ++ ev', stop)
  end.

Fixpoint q_log_run (cap : Z) (cs : list log_call) (ops : list log_op)
    : list log_call * list log_event * bool :=
  match ops with
  | [] => (cs, [], false)
  | op :: ops =>
      let '(cs, ev, stop) := q_log_step cap cs op in
      if stop : bool then (cs, ev, true)
      else let '(cs, ev', stop) := q_log_run cap cs ops in (cs, ev ++ ev', stop)
  end.

Definition wf_op (op : log_op) : Prop := match op with OpLog c => wf_call c | OpDump => True end.

Lemma log_step_refines cap s cs op :
  log_inv cap s cs → wf_op op →
  let '(cs', ev, stop) := q_log_step cap cs op in
  ∃ s', k_log_step s op = Ok (s', ev, stop) ∧ log_inv cap s' cs'.
Proof.
  intros Hinv Hop. destruct op as [c|].
  - destruct (Log_step cap s cs c Hinv Hop) as (s' & E & Hinv').
    assert (snd (q_log_step cap cs (OpLog c)) = false) as Hstop.
    { cbn. repeat case_decide; done. }
    destruct (q_log_step cap cs (OpLog c)) as [[cs' ev] stop]. cbn in *. subst. eauto.
  - destruct (Dump_step cap s cs Hinv) as (s' & E & Hinv').
    destruct (q_log_step cap cs OpDump) as [[cs' ev] stop]. cbn in *. eauto.
Qed.

Lemma length_static_buffer :
  Z.of_nat (length (replicate (Z.to_nat BUFFER_LOG_BLOCK_MAX_SIZE) (0 : Z))) = BUFFER_LOG_BLOCK_MAX_SIZE.
Proof. rewrite length_replicate. apply Z2Nat.id. unfold BUFFER_LOG_BLOCK_MAX_SIZE. lia. Qed.

(** The state after InitGameLogger and BindMainThread is an empty queue. *)
Lemma BufferLog_new_inv (ring : list Z) (k thread : Z) :
  1 <= k <= 31 → Z.of_nat (length ring) = 2 ^ k →
  log_inv (2 ^ k) (BindMainThread (BufferLog_new ring) thread) [].
Proof.
  intros Hk Hring.
  assert (2 ^ k <= 2 ^ 31) as Hpow by (apply Z.pow_le_mono_r; lia).
  assert (2 ^ 1 <= 2 ^ k) as Hpow1 by (apply Z.pow_le_mono_r; lia).
  assert (capacity (INIT_KFIFO ring (Z.of_nat (length ring)) 1) = 2 ^ k) as Hcap.
  { unfold capacity, INIT_KFIFO. cbn [kf_mask]. rewrite u32_small by lia. lia. }
  assert (holds (2 ^ k) (INIT_KFIFO ring (Z.of_nat (length ring)) 1) []) as Hh.
  { constructor; try done. constructor; try done.
    - exists k. split; [lia|done].
    - rewrite Hcap. change (kf_esize _) with 1. lia.
    - rewrite Hcap. change (kf_esize _) with 1. change (kf_data _) with ring. lia.
    - rewrite Hcap. change (used _) with 0. lia. }
  constructor.
  - done.
  - exists []. split; [exact Hh|constructor].
  - apply length_static_buffer.
  - apply length_static_buffer.
  - apply length_replicate.
  - apply length_replicate.
  - apply length_replicate.
  - apply length_replicate.
Qed.

(** C21: logging from the bound thread and dumping by the log thread, in any order of
    calls, are a bounded queue of messages: every message that fits is handed to spdlog
    once, in order, with its level, its line, its file and function (cut at 127 bytes) and
    its text (cut at the first zero byte and at 2^20 - 1 bytes); a message is refused exactly when less than its size
    and 313 bytes are free; an empty message is skipped; and the dump of a critical
    message ends the process.  No copy leaves its buffer. *)
Theorem buffer_log_refines_queue (ring : list Z) (k thread : Z) (ops : list log_op) :
  1 <= k <= 31 → Z.of_nat (length ring) = 2 ^ k → Forall wf_op ops →
  ∃ s', k_log_run (BindMainThread (BufferLog_new ring) thread) ops =
        Ok (s', snd (fst (q_log_run (2 ^ k) [] ops)), snd (q_log_run (2 ^ k) [] ops)) ∧
        log_inv (2 ^ k) s' (fst (fst (q_log_run (2 ^ k) [] ops))).
Proof.
  intros Hk Hring. pose proof (BufferLog_new_inv ring k thread Hk Hring) as Hinv.
  generalize dependent (BindMainThread (BufferLog_new ring) thread). generalize (@nil log_call).
  intros cs s Hinv Hops. revert cs s Hinv.
  induction Hops as [|op ops Hop _ IH]; intros cs s Hinv; cbn [k_log_run q_log_run]; [eauto|].
  pose proof (log_step_refines _ s cs op Hinv Hop) as Hstep.
  destruct (q_log_step (2 ^ k) cs op) as [[cs1 ev] stop]. destruct Hstep as (s1 & -> & Hinv1).
  cbn [mbind res_bind]. destruct stop; [eauto|].
  destruct (IH cs1 s1 Hinv1) as (s2 & -> & Hinv2).
  destruct (q_log_run (2 ^ k) cs1 ops) as [[cs2 ev2] stop2]. cbn in *. eauto.
Qed.

Definition call_example (level : Z) (text : list Z) : log_call :=
  mkCall level 42 [97; 46; 99] [109; 97; 105; 110] text (mkTimeval 1700000000 5).

Lemma buffer_log_witness :
  ∃ s', k_log_run (BindMainThread (BufferLog_new (replicate 512 0)) 7)
          [OpDump; OpLog (call_example 2 [104; 105]); OpLog (call_example 2 [111; 107]); OpDump;
           OpLog (call_example 6 [98; 121; 101]); OpDump; OpDump]
        = Ok (s', [QueueFull;
                   Logged 2 42 [97; 46; 99] [109; 97; 105; 110] [104; 105];
                   Logged 6 42 [97; 46; 99] [109; 97; 105; 110] [98; 121; 101]], true).
Proof.
  destruct (buffer_log_refines_queue (replicate 512 0) 9 7
    [OpDump; OpLog (call_example 2 [104; 105]); OpLog (call_example 2 [111; 107]); OpDump;
     OpLog (call_example 6 [98; 121; 101]); OpDump; OpDump]) as (s' & E & _).
  - lia.
  - reflexivity.
  - repeat constructor; vm_compute; done.
  - exists s'. exact E.
Defined.
