(* ===== verification/BufferLogThreads.v ===== *)
(** * The log between the main thread and the log thread
      (src/common/log/bufferlog.cpp, bufferlog.h)

    The bound thread logs while the log thread dumps, with nothing but the ring
    buffer between them.  The functions of BufferLog.v are written over the shared
    accesses of KFifoThreads.v; everything else they touch (the two static buffers
    and blocks, the idle counter) is used by one thread only.  The theorem shows
    that under every schedule the log thread stays in step with the stream: it
    hands spdlog the messages that were accepted, whole and in order. *)

From S2P Require Import Prelude KFifo Unpack BufferLog Threads KFifoThreads.

Open Scope cint_scope.

Section LogThreads.
Context (mask : Z).
Abbreviation thread := (prog (ring_access log_event)).

(** ** The bound thread *)

(** [m_bInited] is written and read by the bound thread only. *)
Definition t_DoKFiFoPushMsg (m_bInited : bool) (block : ST_BufferLogBlock) (chBufferArray : list Z)
    : thread unit :=
  if negb m_bInited then access (Say (_DoLog_direct (m_iLogType block) chBufferArray))
  else if 0 <? m_iMsgLen block then
    avail ← t_kfifo_avail mask 1;
    if u64 (m_iMsgLen block + sizeof_block) <? avail then
      t_kfifo_in mask 1 (block_bytes block) (u32 sizeof_block);;
      t_kfifo_in mask 1 chBufferArray (u32 (m_iMsgLen block));;
      mret tt
    else access (Say QueueFull)
  else mret tt.

(** Log with its two static variables. *)
Definition t_Log (st : list Z * ST_BufferLogBlock) (c : log_call) : thread (list Z * ST_BufferLogBlock) :=
  '(buf, block) ←
    lift (Log_message st.1 st.2 (call_location c) (call_type c) (call_text c) (call_time c));
  t_DoKFiFoPushMsg true block buf;;
  mret (buf, block).

Fixpoint t_log_all (st : list Z * ST_BufferLogBlock) (cs : list log_call) : thread unit :=
  match cs with
  | [] => mret tt
  | c :: cs => st ← t_Log st c; t_log_all st cs
  end.

(** ** The log thread *)

Definition t_DoKFiFoPopMsg (block : ST_BufferLogBlock) (chTempRecvBuffer : list Z)
    : thread (ST_BufferLogBlock * list Z * Z) :=
  len ← t_kfifo_len mask 1;
  if len <? sizeof_block then mret (block, chTempRecvBuffer, 0)
  else
    '(bytes, _) ← t_kfifo_out_peek mask 1 (block_bytes block) (u32 sizeof_block);
    let block := block_of_bytes bytes in
    if negb (m_ullStartToken block =? E_BUFFER_LOG_TOKEN_START)
       || negb (m_ullEndToken block =? E_BUFFER_LOG_TOKEN_END)
       || (u32 (m_iMsgLen block) <? 0)
       || (BUFFER_LOG_BLOCK_MAX_SIZE <=? m_iMsgLen block)
    then
      t_kfifo_reset_out;;
      access (Say TokenInvalid);;
      mret (block, chTempRecvBuffer, -1)
    else
      len ← t_kfifo_len mask 1;
      if len <? u32 (m_iMsgLen block + sizeof_block)
      then mret (block, chTempRecvBuffer, 0)
      else
        t_kfifo_skip_n sizeof_block;;
        if m_iLogCmd block =? E_BUFFER_LOG_CMD_LOG then
          '(buf, _) ← t_kfifo_out mask 1 chTempRecvBuffer (u32 (m_iMsgLen block));
          buf ← lift (mem_write buf (m_iMsgLen block) [0]);
          mret (block, buf, m_iMsgLen block)
        else mret (block, chTempRecvBuffer, m_iMsgLen block).

Record dump_vars := mkDump {
  d_block : ST_BufferLogBlock;
  d_chTempRecvBuffer : list Z;
  d_iThreadIdleCnt : Z }.

(** One round of DoDumpLogToDisk; the flag says that the process has ended. *)
Definition t_dump_round (d : dump_vars) : thread (dump_vars * bool) :=
  '(block, buf, iRet) ← t_DoKFiFoPopMsg (d_block d) (d_chTempRecvBuffer d);
  if iRet <? 0 then access (Say PopError);; mret (mkDump block buf (d_iThreadIdleCnt d), false)
  else if iRet =? 0 then
    let idle := d_iThreadIdleCnt d + 1 in
    mret (mkDump block buf (if 10 <? idle then 0 else idle), false)
  else if m_iLogCmd block =? E_BUFFER_LOG_CMD_LOG then
    let '(e, stop) := _DoLog (m_iLogType block) (m_iLine block) (m_chFileName block)
                        (m_chFuncName block) buf in
    access (Say e);;
    (if stop : bool then access Quit else mret tt);;
    mret (mkDump block buf (d_iThreadIdleCnt d), stop)
  else
    access (Say (InvalidCmd (m_iLogCmd block)));;
    mret (mkDump block buf (d_iThreadIdleCnt d), false).

Fixpoint t_DoDumpLogToDisk (n : nat) (d : dump_vars) : thread unit :=
  match n with
  | O => mret tt
  | S n =>
      '(d, stop) ← t_dump_round d;
      if stop : bool then mret tt else t_DoDumpLogToDisk n d
  end.

End LogThreads.

(** The state after InitGameLogger and BindMainThread. *)
Definition log_start (data : list Z) : shared log_event :=
  mk_shared (INIT_KFIFO data (Z.of_nat (length data)) 1) [] false [] [].

Definition log_statics : list Z * ST_BufferLogBlock :=
  (replicate (Z.to_nat BUFFER_LOG_BLOCK_MAX_SIZE) 0, ST_BufferLogBlock_new).

Definition dump_start : dump_vars :=
  mkDump ST_BufferLogBlock_new (replicate (Z.to_nat BUFFER_LOG_BLOCK_MAX_SIZE) 0) 0.

(** ** The stream of messages *)

Definition msg_event (m : msg) : log_event :=
  Logged (m_iLogType m.1) (m_iLine m.1) (c_string 0 (m_chFileName m.1))
    (c_string 0 (m_chFuncName m.1)) (c_string 0 (m.2 ++ [0])).

Definition is_logged (e : log_event) : bool := match e with Logged _ _ _ _ _ => true | _ => false end.
Definition is_full (e : log_event) : bool := match e with QueueFull => true | _ => false end.

Definition logged (es : list log_event) : list log_event := List.filter is_logged es.
Definition refusals (es : list log_event) : nat := length (List.filter is_full es).

(** The header of a message whose body is not there yet. *)
Definition partial (t : list Z) : Prop := t = [] ∨ ∃ m, wf_msg m ∧ t = block_bytes m.1.

(** Equal streams start with equal messages. *)
Lemma stream_prefix ds : ∀ ms t,
  Forall wf_msg ds → Forall wf_msg ms → partial t →
  (ds ≫= msg_bytes) `prefix_of` (ms ≫= msg_bytes) ++ t → ds `prefix_of` ms.
Proof.
  induction ds as [|d ds IH]; intros ms t Hds Hms Ht Hpre; [by exists ms|].
  apply Forall_cons_1 in Hds as [Hd Hds]. rewrite bind_cons in Hpre.
  pose proof (length_msg_bytes d Hd) as Ld. pose proof (wf_msg_size d Hd) as Sd.
  assert (Hlen : ∀ m, wf_msg m → length (block_bytes m.1) = 312%nat).
  { intros m Hm. apply length_block_bytes; apply Hm. }
  destruct ms as [|m ms].
  - exfalso. apply prefix_length in Hpre. rewrite length_app in Hpre. cbn in Hpre.
    assert (length t <= 312)%nat; [|unfold sizeof_block in *; lia].
    destruct Ht as [->|(m & Hm & ->)]; [cbn; lia|]. by rewrite Hlen.
  - apply Forall_cons_1 in Hms as [Hm Hms]. rewrite bind_cons in Hpre.
    destruct Hpre as [e He]. unfold msg_bytes at 1 3 in He. rewrite <- !(assoc_L (++)) in He.
    apply app_inj_1 in He as [Hb He]; [|by rewrite !Hlen].
    assert (d.1 = m.1) as E1.
    { rewrite <- (block_roundtrip d.1), <- (block_roundtrip m.1) by (by apply wf_msg_block). by rewrite Hb. }
    apply app_inj_1 in He as [Hbody He].
    2:{ apply Nat2Z.inj. rewrite <- (wf_msg_len d Hd), <- (wf_msg_len m Hm), E1. done. }
    assert (d = m) as ->. { destruct d, m. cbn in *. congruence. }
    apply prefix_cons, (IH ms t); try done. by exists e.
Qed.

(** ** The invariant of the two threads *)

Section LogInvariant.
Context (mask : Z) (calls : list log_call).
Implicit Types (s : shared log_event).

(** The calls that leave a message. *)
Definition nonempty (cs : list log_call) : list log_call := List.filter (λ c, negb (call_size c =? 0)) cs.

(** The stream holds the messages of calls that were accepted, in order. *)
Definition stream (ms : list msg) (acc : list log_call) : Prop :=
  Forall wf_msg ms ∧ Forall2 msg_of_call ms acc ∧ acc `sublist_of` nonempty calls.

Definition log_K (pub con : list Z) (es : list log_event) : Prop :=
  (∃ ms acc t, stream ms acc ∧ partial t ∧ pub = (ms ≫= msg_bytes) ++ t) ∧
  (∃ ds, Forall wf_msg ds ∧ logged es = msg_event <$> ds ∧ (ds ≫= msg_bytes) `prefix_of` con) ∧
  Forall (λ e, is_logged e = true ∨ e = QueueFull) es.

(** Each thread says lines the other one does not count. *)
Definition same_refusals (es es' : list log_event) : Prop := refusals es' = refusals es.
Definition same_logged (es es' : list log_event) : Prop := logged es' = logged es.

#[export] Instance same_refusals_preorder : PreOrder same_refusals.
Proof. split; [done|]. intros ???. unfold same_refusals. congruence. Qed.
#[export] Instance same_logged_preorder : PreOrder same_logged.
Proof. split; [done|]. intros ???. unfold same_logged. congruence. Qed.

Abbreviation linv := (ring_inv mask 1 log_K).
Abbreviation wrely := (writer_rely (E := log_event) same_refusals).
Abbreviation rrely := (reader_rely (E := log_event) same_logged).
Abbreviation safe_main := (safe (checked_perform log_event) linv wrely rrely).
Abbreviation safe_dump := (safe (checked_perform log_event) linv rrely wrely).

(** *** The bound thread *)

(** What the bound thread knows between two calls: the calls [acc] were accepted, and with
    the refusals they are the calls [done] so far. *)
Record main_knows (done acc : list log_call) (s : shared log_event) : Prop := {
  mk_stream : ∃ ms, stream ms acc ∧ published s = ms ≫= msg_bytes;
  mk_sub : acc `sublist_of` nonempty done;
  mk_count : (length acc + refusals (said s) = length (nonempty done))%nat;
  mk_all : calls_size (nonempty done) <= mask → acc = nonempty done }.

Lemma logged_app es es' : logged (es ++ es') = logged es ++ logged es'.
Proof. apply List.filter_app. Qed.
Lemma refusals_app es es' : refusals (es ++ es') = (refusals es + refusals es')%nat.
Proof. unfold refusals. by rewrite List.filter_app, length_app. Qed.

Lemma log_K_publish pub con es ms acc t :
  stream ms acc → partial t → log_K pub con es → log_K ((ms ≫= msg_bytes) ++ t) con es.
Proof. intros Hst Ht (_ & Hc & He). split; [|done]. eauto 10. Qed.

Lemma log_K_full pub con es : log_K pub con es → log_K pub con (es ++ [QueueFull]).
Proof.
  intros (Hp & (ds & Hds & Hl & Hc) & He). split; [done|]. split.
  - exists ds. split; [done|]. split; [|done]. by rewrite logged_app, app_nil_r.
  - apply Forall_app. split; [done|]. constructor; [by right|constructor].
Qed.

Lemma nonempty_app cs cs' : nonempty (cs ++ cs') = nonempty cs ++ nonempty cs'.
Proof. apply List.filter_app. Qed.

Lemma calls_size_app cs cs' : calls_size (cs ++ cs') = calls_size cs + calls_size cs'.
Proof.
  induction cs as [|c cs IH]; [done|]. change (calls_size ((c :: cs) ++ cs'))
    with (call_size c + sizeof_block + calls_size (cs ++ cs')).
  rewrite IH. change (calls_size (c :: cs)) with (call_size c + sizeof_block + calls_size cs). lia.
Qed.

Lemma calls_size_nonneg cs : 0 <= calls_size cs.
Proof.
  induction cs as [|c cs IH]; [done|].
  change (calls_size (c :: cs)) with (call_size c + sizeof_block + calls_size cs).
  assert (0 <= call_size c); [unfold call_size, BUFFER_LOG_BLOCK_MAX_SIZE; lia|]. unfold sizeof_block. lia.
Qed.

Lemma length_stream ms : Forall wf_msg ms → Z.of_nat (length (ms ≫= msg_bytes)) = msgs_size ms.
Proof.
  induction 1 as [|m ms Hm _ IH]; [done|]. rewrite bind_cons, msgs_size_cons, length_app, Nat2Z.inj_add, IH.
  by rewrite length_msg_bytes.
Qed.

(** What the bound thread knows survives what the log thread does. *)
Lemma main_knows_rely done acc s s' :
  main_knows done acc s → published s' = published s → same_refusals (said s) (said s') →
  main_knows done acc s'.
Proof. intros [Hst Hsub Hc Ha] Hp Hs. constructor; [by rewrite Hp|done|by rewrite Hs|done]. Qed.

(** The message of one more call. *)
Lemma stream_snoc ms acc done c todo (b : ST_BufferLogBlock) body :
  calls = done ++ c :: todo → call_size c ≠ 0 → acc `sublist_of` nonempty done →
  stream ms acc → wf_msg (b, body) → msg_of_call (b, body) c →
  stream (ms ++ [(b, body)]) (acc ++ [c]).
Proof.
  intros Hcalls Hne Hsub (Hwf & H2 & _) Hm Hmc. split; [|split].
  - apply Forall_app. split; [done|]. by constructor.
  - apply Forall2_app; [done|]. by constructor.
  - rewrite Hcalls, nonempty_app. apply sublist_app; [done|].
    cbn [nonempty List.filter]. rewrite (proj2 (Z.eqb_neq _ _) Hne). cbn.
    apply sublist_skip, sublist_nil_l.
Qed.

Lemma main_used done acc s s' :
  linv s → linv s' → main_knows done acc s → published s' = published s →
  used (ring s') <= calls_size acc.
Proof.
  intros Hs Hs' [(ms & (Hwf & H2 & _) & Hp) _ _ _] Hp'.
  rewrite <- (msgs_calls_size _ _ H2), <- (length_stream ms Hwf), <- Hp, <- Hp'.
  pose proof (length_held _ _ _ s' Hs') as Hh. rewrite (inv_bytes _ _ _ s' Hs'), length_app. lia.
Qed.

Lemma nonempty_snoc done c : call_size c ≠ 0 → nonempty (done ++ [c]) = nonempty done ++ [c].
Proof.
  intros Hne. rewrite nonempty_app. cbn [nonempty List.filter]. by rewrite (proj2 (Z.eqb_neq _ _) Hne).
Qed.

Lemma calls_size_single c : calls_size [c] = call_size c + sizeof_block.
Proof. unfold calls_size. cbn [foldr]. lia. Qed.

(** An empty message is skipped. *)
Lemma main_knows_skip done acc c s :
  main_knows done acc s → call_size c = 0 → main_knows (done ++ [c]) acc s.
Proof.
  intros Hk Hz. assert (nonempty (done ++ [c]) = nonempty done) as E.
  { rewrite nonempty_app. cbn [nonempty List.filter]. rewrite Hz. cbn. by rewrite app_nil_r. }
  destruct Hk. by constructor; rewrite ?E.
Qed.

(** A message is refused when less than its size and 313 bytes are free. *)
Lemma main_knows_full done acc c s s1 s2 :
  main_knows done acc s → call_size c ≠ 0 → linv s → linv s1 → published s1 = published s →
  mask + 1 - used (ring s1) <= call_size c + sizeof_block →
  published s2 = published s → refusals (said s2) = S (refusals (said s)) →
  main_knows (done ++ [c]) acc s2.
Proof.
  intros Hk Hne Hs Hs1 Hp1 Hfull Hp2 Hr2.
  pose proof (main_used done acc s s1 Hs Hs1 Hk Hp1) as Hu.
  destruct Hk as [Hst Hsub Hc Ha]. constructor; rewrite ?nonempty_snoc by done.
  - by rewrite Hp2.
  - by apply sublist_inserts_r.
  - rewrite Hr2, length_app. cbn. lia.
  - rewrite calls_size_app, calls_size_single. intros Hle.
    assert (acc = nonempty done) as Eacc.
    { apply Ha. assert (0 <= call_size c) by (unfold call_size, BUFFER_LOG_BLOCK_MAX_SIZE; lia).
      unfold sizeof_block in *. lia. }
    rewrite <- Eacc in Hle. lia.
Qed.

(** The two writes of a message that fits. *)
Lemma push_room done c todo acc s (block : ST_BufferLogBlock) (body rest : list Z) (Q : unit → shared log_event → Prop) :
  calls = done ++ c :: todo → linv s → main_knows done acc s → call_size c ≠ 0 →
  msg_of_call (block, body) c → wf_msg (block, body) →
  m_iMsgLen block + sizeof_block < mask + 1 - used (ring s) →
  (∀ s', linv s' → main_knows (done ++ [c]) (acc ++ [c]) s' → Q tt s') →
  safe_main (t_kfifo_in mask 1 (block_bytes block) (u32 sizeof_block);;
             t_kfifo_in mask 1 (body ++ 0 :: rest) (u32 (m_iMsgLen block));; mret tt) Q s.
Proof.
  intros Hcalls Hs Hk Hne Hmc Hm Hroom HQ.
  pose proof Hk as [(ms & Hst & Hp) Hsub Hc Ha]. pose proof (inv_capacity _ _ _ s Hs) as Hcap.
  pose proof Hm as [Hb _ _ _ Hlen Hsize]. cbn in Hb, Hlen, Hsize.
  pose proof (stream_snoc ms acc done c todo block body Hcalls Hne Hsub Hst Hm Hmc) as Hst'.
  assert (length (block_bytes block) = 312%nat) as Hbl by (apply length_block_bytes; apply Hb).
  pose proof (capacity_le _ (inv_wf _ _ _ s Hs)). pose proof (used_bound (ring s)).
  unfold BUFFER_LOG_BLOCK_MAX_SIZE in Hsize. unfold sizeof_block in *.
  change (u32 312) with 312. rewrite (u32_small (m_iMsgLen block)) by lia.
  apply safe_bind, (kfifo_in_safe mask 1 log_K same_refusals same_logged); [apply _|done|lia|lia| |].
  { intros n con sd Hn HK. replace n with 312 by lia. rewrite take_ge by lia. rewrite Hp.
    apply (log_K_publish (published s) con sd ms acc); [done| |done].
    right. by exists (block, body). }
  intros n s1 Hn J1 P1 C1 S1. replace n with 312 in P1 by lia. rewrite take_ge in P1 by lia.
  pose proof (inv_capacity _ _ _ s1 J1) as Hcap1.
  assert (used (ring s1) <= used (ring s) + 312) as Hu1.
  { pose proof (length_held _ _ _ s Hs). pose proof (length_held _ _ _ s1 J1).
    pose proof (inv_bytes _ _ _ s Hs) as B0. pose proof (inv_bytes _ _ _ s1 J1) as B1.
    apply (f_equal length) in B0, B1, P1. apply prefix_length in C1.
    rewrite length_app in B0, B1, P1. lia. }
  apply safe_bind, (kfifo_in_safe mask 1 log_K same_refusals same_logged);
    [apply _|done|lia|rewrite length_app; lia| |].
  { intros n1 con sd Hn1 HK. replace n1 with (m_iMsgLen block) by lia.
    rewrite Z.mul_1_r, Hlen, Nat2Z.id, take_app_length, P1, Hp, <- (assoc_L (++)).
    rewrite <- (app_nil_r (_ ++ block_bytes _ ++ _)).
    replace (_ ++ block_bytes block ++ body) with ((ms ++ [(block, body)]) ≫= msg_bytes).
    - eapply log_K_publish; [done|by left|done].
    - rewrite bind_app. cbn. by rewrite app_nil_r. }
  intros n1 s2 Hn1 J2 P2 C2 S2. replace n1 with (m_iMsgLen block) in P2 by lia.
  rewrite Z.mul_1_r, Hlen, Nat2Z.id, take_app_length, P1, Hp, <- (assoc_L (++)) in P2.
  apply safe_ret. intros s3 [_ _ P3 C3 S3] J3. apply HQ; [done|].
  constructor; rewrite ?nonempty_snoc by done.
  - exists (ms ++ [(block, body)]). split; [done|]. rewrite P3, P2, bind_app. cbn. by rewrite app_nil_r.
  - by apply sublist_app.
  - unfold same_refusals in *. rewrite S3, S2, S1, !length_app. cbn. lia.
  - rewrite calls_size_app, calls_size_single. intros Hle. f_equal. apply Ha.
    assert (0 <= call_size c) by (unfold call_size, BUFFER_LOG_BLOCK_MAX_SIZE; lia).
    unfold sizeof_block in *. lia.
Qed.

Lemma push_safe done c todo acc s (block : ST_BufferLogBlock) (body rest : list Z) (Q : unit → shared log_event → Prop) :
  calls = done ++ c :: todo → linv s → main_knows done acc s →
  msg_of_call (block, body) c → (call_size c ≠ 0 → wf_msg (block, body)) →
  (∀ acc' s', linv s' → main_knows (done ++ [c]) acc' s' → Q tt s') →
  safe_main (t_DoKFiFoPushMsg mask true block (body ++ 0 :: rest)) Q s.
Proof.
  intros Hcalls Hs Hk Hmc Hwf HQ. pose proof (proj1 Hmc) as Hsize. cbn in Hsize.
  assert (0 <= call_size c < 1024 * 1024) as Hb by (unfold call_size, BUFFER_LOG_BLOCK_MAX_SIZE; lia).
  unfold t_DoKFiFoPushMsg. cbn [negb]. rewrite Hsize. destruct (Z.ltb_spec 0 (call_size c)) as [Hpos|Hz].
  - apply safe_bind, kfifo_avail_safe; [apply _..|]. intros s1 s2 R1 J1 R2 J2.
    rewrite (inv_capacity _ _ _ s1 J1). rewrite (wrap_small 64) by (unfold sizeof_block; lia).
    assert (wrely s s2) as [_ _ P2 C2 S2] by (by etrans). pose proof R1 as [_ _ P1 C1 S1].
    destruct (Z.ltb_spec (call_size c + sizeof_block) (mask + 1 - used (ring s1))) as [Hlt|Hge].
    + rewrite <- Hsize. eapply push_room; [done|done|by eapply main_knows_rely|lia|done|apply Hwf; lia| |].
      * rewrite Hsize. pose proof (writer_used _ _ _ s1 s2 J1 J2 (wr_published _ _ _ R2) (wr_consumed _ _ _ R2)).
        lia.
      * intros s3 J3. by apply HQ.
    + apply writer_say. intros s3 R3 J3. assert (wrely s s3) as [_ _ P3 C3 S3].
      { etrans; [done|]. by etrans. }
      split; [apply log_K_full, J3|]. split; [unfold same_logged; by rewrite logged_app, app_nil_r|].
      intros s4 J4 P4 C4 S4. apply (HQ acc); [done|].
      apply (main_knows_full done acc c s s1 s4); try done; [lia|congruence|].
      unfold same_refusals in *. rewrite S4, refusals_app, S3. cbn. lia.
  - apply safe_ret. intros s1 [_ _ P1 C1 S1] J1. apply (HQ acc); [done|].
    apply main_knows_skip; [by eapply main_knows_rely|lia].
Qed.

(** The static variables keep their sizes. *)
Definition statics_ok (st : list Z * ST_BufferLogBlock) : Prop :=
  Z.of_nat (length st.1) = BUFFER_LOG_BLOCK_MAX_SIZE ∧
  length (m_chFileName st.2) = NAME_LEN ∧ length (m_chFuncName st.2) = NAME_LEN.

Lemma log_all_safe todo : ∀ done acc st s,
  calls = done ++ todo → Forall wf_call todo → statics_ok st → linv s → main_knows done acc s →
  safe_main (t_log_all mask st todo) (λ _ s', ∃ acc', main_knows calls acc' s') s.
Proof.
  induction todo as [|c todo IH]; intros done acc st s Hcalls Hwf (Hbuf & Hf & Hg) Hs Hk; cbn [t_log_all].
  - apply safe_ret. intros s1 [_ _ P1 _ S1] J1. exists acc.
    rewrite Hcalls, app_nil_r. by eapply main_knows_rely.
  - apply Forall_cons_1 in Hwf as [Hc Hwf].
    destruct (Log_message_ok st.1 st.2 c Hbuf Hf Hg Hc)
      as (block & body & rest & E & El & Lf & Lg & Hm & Hlen & Hwfm).
    unfold t_Log. rewrite E. cbn [lift].
    apply safe_bind, safe_bind, safe_ret; [apply _..|]. intros s1 [_ _ P1 _ S1] J1.
    apply safe_bind; [apply _|]. eapply push_safe; [done|done|by eapply main_knows_rely|done|done|].
    intros acc' s2 J2 Hk2. apply safe_ret. intros s3 [_ _ P3 _ S3] J3.
    apply (IH (done ++ [c]) acc'); [by rewrite <- (assoc_L (++))|done| |done|by eapply main_knows_rely].
    split; [cbn [fst]; by rewrite El|done].
Qed.

(** *** The log thread *)

(** Between two rounds: the messages [ds] were consumed and handed to spdlog. *)
Record dump_knows (ds : list msg) (s : shared log_event) : Prop := {
  dk_wf : Forall wf_msg ds;
  dk_consumed : consumed s = ds ≫= msg_bytes;
  dk_logged : logged (said s) = msg_event <$> ds }.

Lemma dump_knows_rely ds s s' :
  dump_knows ds s → consumed s' = consumed s → same_logged (said s) (said s') → dump_knows ds s'.
Proof. intros [? Hc Hl] H1 H2. constructor; [done|by rewrite H1|by rewrite H2]. Qed.

(** What the ring holds, seen from the log thread. *)
Lemma dump_sees ds s :
  linv s → dump_knows ds s →
  ∃ ms t, Forall wf_msg ms ∧ partial t ∧ contents (ring s) = (ms ≫= msg_bytes) ++ t.
Proof.
  intros Hs [Hds Hc Hl]. destruct (inv_K _ _ _ s Hs) as ((all & acc & t & (Hwf & _ & _) & Ht & Hp) & _).
  pose proof (inv_bytes _ _ _ s Hs) as Hb. rewrite Hc, Hp in Hb.
  destruct (stream_prefix ds all t Hds Hwf Ht) as [ms ->]; [by exists (contents (ring s))|].
  apply Forall_app in Hwf as [_ Hms]. exists ms, t. split; [done|]. split; [done|].
  rewrite bind_app, <- (assoc_L (++)) in Hb. by apply (inj (app _)) in Hb.
Qed.

Lemma log_K_consume pub con es bs : log_K pub con es → log_K pub (con ++ bs) es.
Proof.
  intros (Hp & (ds & Hds & Hl & Hc) & He). split; [done|]. split; [|done].
  exists ds. split; [done|]. split; [done|]. by apply prefix_app_r.
Qed.

Lemma length_header m : wf_msg m → length (block_bytes m.1) = 312%nat.
Proof. intros Hm. apply length_block_bytes; apply Hm. Qed.

(** A ring with a header's worth of bytes starts with a header. *)
Lemma header_in_front ms t :
  Forall wf_msg ms → partial t → (312 <= length ((ms ≫= msg_bytes) ++ t))%nat →
  ∃ m, wf_msg m ∧ block_bytes m.1 `prefix_of` (ms ≫= msg_bytes) ++ t.
Proof.
  intros Hms Ht Hl. destruct ms as [|m ms].
  - destruct Ht as [->|(m & Hm & ->)]; [cbn in Hl; lia|]. by exists m.
  - apply Forall_cons_1 in Hms as [Hm _]. exists m. split; [done|].
    rewrite bind_cons. unfold msg_bytes at 1. rewrite <- !(assoc_L (++)). by eexists.
Qed.

(** With the body's bytes behind the header the whole message is there. *)
Lemma message_in_front ms t m :
  Forall wf_msg ms → partial t → wf_msg m → block_bytes m.1 `prefix_of` (ms ≫= msg_bytes) ++ t →
  m_iMsgLen m.1 + sizeof_block <= Z.of_nat (length ((ms ≫= msg_bytes) ++ t)) →
  ∃ m', wf_msg m' ∧ m'.1 = m.1 ∧ msg_bytes m' `prefix_of` (ms ≫= msg_bytes) ++ t.
Proof.
  intros Hms Ht Hm Hpre Hl. pose proof (wf_msg_size m Hm). unfold sizeof_block in Hl.
  destruct ms as [|m' ms].
  - exfalso. cbn in Hl. destruct Ht as [->|(m' & Hm' & ->)]; [cbn in Hl; lia|].
    rewrite length_header in Hl by done. lia.
  - apply Forall_cons_1 in Hms as [Hm' _]. exists m'. split; [done|]. rewrite bind_cons in *. split.
    + destruct Hpre as [e He]. unfold msg_bytes at 1 in He. rewrite <- !(assoc_L (++)) in He.
      apply app_inj_1 in He as [Hb _]; [|by rewrite !length_header].
      rewrite <- (block_roundtrip m'.1), <- (block_roundtrip m.1) by (by apply wf_msg_block). by rewrite Hb.
    + rewrite <- (assoc_L (++)). by eexists.
Qed.

(** The log thread has read a header and knows that the body is there. *)
Lemma pop_body ds m s (buf : list Z) (Q : ST_BufferLogBlock * list Z * Z → shared log_event → Prop) :
  linv s → dump_knows ds s → wf_msg m → msg_bytes m `prefix_of` contents (ring s) →
  Z.of_nat (length buf) = BUFFER_LOG_BLOCK_MAX_SIZE →
  (∀ rest s', linv s' → consumed s' = (ds ++ [m]) ≫= msg_bytes → same_logged (said s) (said s') →
     length (m.2 ++ 0 :: rest) = length buf → Q (m.1, m.2 ++ 0 :: rest, m_iMsgLen m.1) s') →
  safe_dump (t_kfifo_skip_n sizeof_block;;
    if m_iLogCmd m.1 =? E_BUFFER_LOG_CMD_LOG then
      '(buf, _) ← t_kfifo_out mask 1 buf (u32 (m_iMsgLen m.1));
      buf ← lift (mem_write buf (m_iMsgLen m.1) [0]);
      mret (m.1, buf, m_iMsgLen m.1)
    else mret (m.1, buf, m_iMsgLen m.1)) Q s.
Proof.
  intros Hs [Hds Hcon Hlog] Hm [e He] Hbuf HQ.
  pose proof Hm as [Hb Hcmd _ _ Hlen Hsize]. pose proof (length_header m Hm) as Hbl.
  pose proof (length_held _ _ _ s Hs) as Hheld. rewrite He, length_app in Hheld.
  pose proof (length_msg_bytes m Hm) as Hml.
  unfold msg_bytes in He. rewrite <- (assoc_L (++)) in He.
  unfold BUFFER_LOG_BLOCK_MAX_SIZE in *. unfold sizeof_block in *.
  apply safe_bind, (kfifo_skip_safe mask 1 log_K same_refusals same_logged s 312 (block_bytes m.1));
    [apply _|done|lia| | |].
  { rewrite He. change (Z.to_nat (312 * 1)) with 312%nat. by rewrite take_app_length'. }
  { intros pub sd _ _. apply log_K_consume. }
  intros s1 J1 P1 C1 S1. rewrite Hcmd, Z.eqb_refl. rewrite u32_small by lia.
  assert (∃ e1, contents (ring s1) = m.2 ++ e1) as [e1 He1].
  { destruct P1 as [d Hd]. rewrite (inv_bytes _ _ _ s Hs), (inv_bytes _ _ _ s1 J1), C1, He in Hd.
    rewrite <- !(assoc_L (++)) in Hd. do 2 apply (inj (app _)) in Hd. eauto. }
  pose proof (length_held _ _ _ s1 J1) as Hheld1. rewrite He1, length_app in Hheld1.
  apply safe_bind, (kfifo_out_safe mask 1 log_K same_refusals same_logged); [apply _|done|lia|lia| |].
  { intros. by apply log_K_consume. }
  intros n s2 bs Hn J2 P2 S2 Hbs Hbsl C2. replace n with (m_iMsgLen m.1) in * by lia.
  assert (bs = m.2) as ->.
  { destruct P2 as [d Hd]. rewrite Hbs, Hd, (inv_bytes _ _ _ s1 J1), He1, <- !(assoc_L (++)).
    rewrite drop_app_length, Z.mul_1_r, Hlen, Nat2Z.id. apply take_app_length. }
  rewrite Z.mul_1_r, Hlen, Nat2Z.id. destruct (terminate_text m.2 buf) as (rest & -> & Hrest); [lia|].
  cbn [lift]. apply safe_bind, safe_ret; [apply _|]. intros s3 R3 J3. apply safe_ret. intros s4 R4 J4.
  assert (rrely s2 s4) as [_ _ C4 S4] by (by etrans). rewrite <- Hlen. apply HQ; [done| |by do 2 etrans|done].
  rewrite C4, C2, C1, Hcon, bind_app. cbn. rewrite app_nil_r. unfold msg_bytes. by rewrite (assoc_L (++)).
Qed.

Definition names_ok (b : ST_BufferLogBlock) : Prop :=
  length (m_chFileName b) = NAME_LEN ∧ length (m_chFuncName b) = NAME_LEN.

Lemma contents_grow s s' (bs : list Z) :
  linv s → linv s' → rrely s s' → bs `prefix_of` contents (ring s) → bs `prefix_of` contents (ring s').
Proof. intros Hs Hs' HR Hb. etrans; [done|]. by apply (reader_contents mask 1 log_K same_logged s s'). Qed.

Lemma pop_safe ds s block (buf : list Z) (Q : ST_BufferLogBlock * list Z * Z → shared log_event → Prop) :
  linv s → dump_knows ds s → names_ok block → Z.of_nat (length buf) = BUFFER_LOG_BLOCK_MAX_SIZE →
  (∀ block' s', linv s' → dump_knows ds s' → names_ok block' → Q (block', buf, 0) s') →
  (∀ m rest s', linv s' → wf_msg m → consumed s' = (ds ++ [m]) ≫= msg_bytes →
     logged (said s') = msg_event <$> ds → length (m.2 ++ 0 :: rest) = length buf →
     Q (m.1, m.2 ++ 0 :: rest, m_iMsgLen m.1) s') →
  safe_dump (t_DoKFiFoPopMsg mask block buf) Q s.
Proof.
  intros Hs Hk [Hf Hg] Hbuf HQ0 HQ1. unfold t_DoKFiFoPopMsg.
  apply safe_bind, kfifo_len_safe; [apply _..|]. intros s1 s2 R1 J1 R2 J2.
  assert (rrely s s2) as R02 by (by etrans).
  destruct (Z.ltb_spec (used (ring s1)) sizeof_block) as [Hlt|Hge].
  { apply safe_ret. intros s3 R3 J3. assert (rrely s s3) as [_ _ C3 S3] by (by etrans).
    apply HQ0; [done| |done]. by eapply dump_knows_rely. }
  assert (dump_knows ds s1) as Hk1 by (destruct R1; by eapply dump_knows_rely).
  destruct (dump_sees ds s1 J1 Hk1) as (ms & t & Hms & Ht & Hc1).
  pose proof (length_held _ _ _ s1 J1) as Hh1. rewrite Hc1 in Hh1.
  destruct (header_in_front ms t Hms Ht) as (m & Hm & Hhead); [unfold sizeof_block in Hge; lia|].
  rewrite <- Hc1 in Hhead. pose proof (length_header m Hm) as Hbl.
  assert (length (block_bytes block) = 312%nat) as Hbl' by (by apply length_block_bytes).
  change (u32 sizeof_block) with 312.
  apply safe_bind, (kfifo_out_peek_safe mask 1 log_K same_refusals same_logged); [apply _|done|lia|lia|].
  intros n s3 bs Hn Hn3 J3 R3 Hbs.
  pose proof (reader_used _ _ _ _ s1 s2 J1 J2 R2). unfold sizeof_block in Hge. replace n with 312 in * by lia.
  assert (rrely s1 s3) as R13 by (by etrans).
  destruct (contents_grow s1 s3 _ J1 J3 R13 Hhead) as [e3 He3].
  change (Z.to_nat (312 * 1)) with 312%nat in *. rewrite He3, take_app_length' in Hbs by done.
  rewrite drop_ge, app_nil_r, Hbs, block_roundtrip by (apply wf_msg_block || lia; done).
  pose proof Hm as [Hb Hcmd Hst Hen Hlen Hsize].
  rewrite Hst, Hen, !Z.eqb_refl. cbn [negb orb].
  rewrite (proj2 (Z.ltb_ge (u32 _) 0)) by apply u32_bound.
  rewrite (proj2 (Z.leb_gt BUFFER_LOG_BLOCK_MAX_SIZE _)) by lia. cbn [orb].
  apply safe_bind, kfifo_len_safe; [apply _..|]. intros s4 s5 R4 J4 R5 J5.
  unfold BUFFER_LOG_BLOCK_MAX_SIZE in Hsize. rewrite (u32_small (_ + sizeof_block)) by (unfold sizeof_block; lia).
  assert (rrely s s5) as R05 by (etrans; [exact R02|]; etrans; [exact R3|]; by etrans).
  assert (dump_knows ds s5) as Hk5 by (destruct R05; by apply (dump_knows_rely ds s)).
  destruct (Z.ltb_spec (used (ring s4)) (m_iMsgLen m.1 + sizeof_block)) as [Hlt|Hge4].
  { apply safe_ret. intros s6 [_ _ C6 S6] J6. apply HQ0; [done|by apply (dump_knows_rely ds s5)|].
    split; apply Hb. }
  assert (rrely s1 s4) as R14 by (by etrans).
  assert (dump_knows ds s4) as Hk4 by (destruct R14; by apply (dump_knows_rely ds s1)).
  destruct (dump_sees ds s4 J4 Hk4) as (ms4 & t4 & Hms4 & Ht4 & Hc4).
  pose proof (contents_grow s1 s4 _ J1 J4 R14 Hhead) as Hhead4. rewrite Hc4 in Hhead4.
  destruct (message_in_front ms4 t4 m Hms4 Ht4 Hm Hhead4) as (m' & Hm' & Em & Hmsg).
  { pose proof (length_held _ _ _ s4 J4) as Hh4. rewrite Hc4 in Hh4. lia. }
  rewrite <- Em, <- Hc4 in *. apply (pop_body ds m' s5); [done..| |done|].
  - by apply (contents_grow s4 s5).
  - intros rest s6 J6 C6 S6 Hl. apply HQ1; try done. rewrite S6. apply Hk5.
Qed.

(** Only what is before the terminator is text. *)
Lemma c_string_tail (l rest : list Z) : c_string 0 (l ++ 0 :: rest) = c_string 0 (l ++ [0]).
Proof.
  unfold c_string. induction l as [|x l IH]; [done|]. cbn. case_decide; [done|]. by rewrite IH.
Qed.

Definition dump_ok (d : dump_vars) : Prop :=
  names_ok (d_block d) ∧ Z.of_nat (length (d_chTempRecvBuffer d)) = BUFFER_LOG_BLOCK_MAX_SIZE.

Lemma dump_round_safe ds d s (Q : dump_vars * bool → shared log_event → Prop) :
  linv s → dump_knows ds s → dump_ok d →
  (∀ ds' d' stop s', linv s' → dump_knows ds' s' → dump_ok d' → Q (d', stop) s') →
  safe_dump (t_dump_round mask d) Q s.
Proof.
  intros Hs Hk [Hn Hbuf] HQ. unfold t_dump_round.
  apply safe_bind, (pop_safe ds); [apply _|done..| |].
  - intros block s1 J1 Hk1 Hn1. cbn. intros s2 [_ _ C2 S2] J2.
    apply (HQ ds); [done|by apply (dump_knows_rely ds s1)|done].
  - intros m rest s1 J1 Hm C1 L1 Hl. pose proof Hm as [Hb Hcmd _ _ Hlen Hsize].
    unfold BUFFER_LOG_BLOCK_MAX_SIZE in Hsize.
    rewrite (proj2 (Z.ltb_ge _ 0)), (proj2 (Z.eqb_neq _ 0)) by lia. rewrite Hcmd, Z.eqb_refl.
    cbn [_DoLog]. rewrite c_string_tail.
    change (Logged (m_iLogType m.1) _ _ _ _) with (msg_event m).
    assert (dump_ok (mkDump m.1 (m.2 ++ 0 :: rest) (d_iThreadIdleCnt d))) as Hd'.
    { split; [split; apply Hb|]. cbn [d_chTempRecvBuffer]. by rewrite Hl. }
    assert (Hds : Forall wf_msg (ds ++ [m])).
    { apply Forall_app. split; [apply Hk|]. by constructor. }
    apply safe_bind, reader_say; [apply _|]. intros s2 [_ P2 C2 S2] J2.
    assert (logged (said s2 ++ [msg_event m]) = msg_event <$> ds ++ [m]) as L2.
    { rewrite logged_app, S2, L1, fmap_app. done. }
    split; [|split].
    + destruct (inv_K _ _ _ s2 J2) as (Hp & _ & He). split; [done|]. split.
      * exists (ds ++ [m]). split; [done|]. split; [done|]. by rewrite C2, C1.
      * apply Forall_app. split; [done|]. constructor; [by left|constructor].
    + unfold same_refusals. rewrite refusals_app. cbn. lia.
    + intros s3 J3 P3 C3 S3.
      assert (dump_knows (ds ++ [m]) s3) as Hk3.
      { constructor; [done|by rewrite C3, C2, C1|]. unfold same_logged in S3. by rewrite S3. }
      apply safe_bind; [apply _|].
      destruct (m_iLogType m.1 =? E_BUFFER_LOG_TYPE_CRITICAL);
        [apply reader_quit; [apply _..|]|apply safe_ret]; intros s4 [_ _ C4 S4] J4; apply safe_ret;
        intros s5 [_ _ C5 S5] J5; apply (HQ (ds ++ [m])); try done;
        apply (dump_knows_rely _ s4); try done; by apply (dump_knows_rely _ s3).
Qed.

Lemma dump_all_safe n : ∀ ds d s,
  linv s → dump_knows ds s → dump_ok d →
  safe_dump (t_DoDumpLogToDisk mask n d) (λ _ s', ∃ ds', dump_knows ds' s') s.
Proof.
  induction n as [|n IH]; intros ds d s Hs Hk Hd; cbn [t_DoDumpLogToDisk].
  - apply safe_ret. intros s1 [_ _ C1 S1] J1. exists ds. by apply (dump_knows_rely ds s).
  - apply safe_bind, (dump_round_safe ds); [apply _|done..|]. intros ds' d' stop s1 J1 Hk1 Hd1.
    destruct stop; [|by apply (IH ds')].
    apply safe_ret. intros s2 [_ _ C2 S2] J2. exists ds'. by apply (dump_knows_rely ds' s1).
Qed.
End LogInvariant.

(** ** Both threads end their work *)

Section Ends.
Context (mask : Z).

Lemma push_ends inited block buf : ends_within 16 (t_DoKFiFoPushMsg mask inited block buf).
Proof.
  unfold t_DoKFiFoPushMsg. destruct inited; cbn [negb]; [|done].
  destruct (0 <? m_iMsgLen block); [|done].
  refine (ends_bind _ _ 14 _ 2 _); [intros avail|done]. destruct (_ <? avail); [|done].
  refine (ends_bind _ _ 7 _ 7 _); [intros n|apply kfifo_in_ends].
  refine (ends_bind _ _ 0 _ 7 _); [done|apply kfifo_in_ends].
Qed.

Lemma log_all_ends cs : ∀ st, ends_within (16 * length cs) (t_log_all mask st cs).
Proof.
  induction cs as [|c cs IH]; intros st; [done|]. cbn [t_log_all].
  replace (16 * length (c :: cs))%nat with (16 + 16 * length cs)%nat by (cbn; lia).
  apply ends_bind; [done|]. unfold t_Log.
  refine (ends_bind _ _ 16 _ 0 _); [intros [buf block]|apply ends_lift].
  refine (ends_bind _ _ 0 _ 16 _); [done|apply push_ends].
Qed.

Lemma pop_ends block buf : ends_within 18 (t_DoKFiFoPopMsg mask block buf).
Proof.
  unfold t_DoKFiFoPopMsg. refine (ends_bind _ _ 16 _ 2 _); [intros len|done].
  destruct (len <? sizeof_block); [done|]. refine (ends_bind _ _ 11 _ 5 _); [intros [bytes n]|apply kfifo_out_peek_ends].
  destruct (_ || _); [done|]. refine (ends_bind _ _ 9 _ 2 _); [intros len2|done].
  destruct (len2 <? _); [done|]. refine (ends_bind _ _ 7 _ 2 _); [intros _|done].
  destruct (_ =? _); [|done]. refine (ends_bind _ _ 0 _ 7 _); [intros [buf' n']|apply kfifo_out_ends].
  by destruct (mem_write _ _ _).
Qed.

Lemma dump_all_ends n : ∀ d, ends_within (20 * n) (t_DoDumpLogToDisk mask n d).
Proof.
  induction n as [|n IH]; intros d; [done|]. cbn [t_DoDumpLogToDisk].
  replace (20 * S n)%nat with (20 + 20 * n)%nat by lia.
  apply ends_bind; [intros [d' stop]; destruct stop; [apply ends_ret|apply IH]|].
  unfold t_dump_round. refine (ends_bind _ _ 2 _ 18 _); [intros [[block buf] iRet]|apply pop_ends].
  destruct (iRet <? 0); [done|]. destruct (iRet =? 0); [done|].
  destruct (m_iLogCmd block =? _); [|done]. cbn [_DoLog].
  destruct (m_iLogType block =? _); done.
Qed.

End Ends.

(** ** Every schedule *)

Lemma events_of_calls ms acc : Forall2 msg_of_call ms acc → msg_event <$> ms = call_event <$> acc.
Proof.
  induction 1 as [|m c ms acc Hm _ IH]; [done|]. rewrite !fmap_cons, IH. f_equal.
  destruct Hm as (Hlen & Ht & Hl & Hf & Hg & Htext). unfold msg_event, call_event.
  by rewrite Ht, Hl, Hf, Hg, Htext.
Qed.

Lemma log_start_inv data k calls :
  1 <= k <= 31 → Z.of_nat (length data) = 2 ^ k →
  ring_inv (2 ^ k - 1) 1 (log_K calls) (log_start data) ∧
  main_knows (2 ^ k - 1) calls [] [] (log_start data) ∧ dump_knows [] (log_start data).
Proof.
  intros Hk Hdata. destruct (BufferLog_new_inv data k 0 Hk Hdata) as [_ (q & Hq & Hcs) _ _ _ _ _ _].
  apply Forall2_nil_inv_r in Hcs as ->. destruct Hq as [Hwf Hcap Hes Hc _].
  change (g_stKFiFo _) with (ring (log_start data)) in *.
  assert (stream calls [] []) as Hst by (split_and!; [done|done|apply sublist_nil_l]).
  split; [|split].
  - constructor; [done| |done| |]; [unfold capacity in Hcap; lia|by rewrite Hc|].
    split; [exists [], [], []; split; [done|]; split; [by left|done]|].
    split; [|constructor]. exists []. split; [done|]. split; [done|]. by exists [].
  - constructor; [by exists []|done|done|done].
  - by constructor.
Qed.

Lemma statics_start : statics_ok log_statics ∧ dump_ok dump_start.
Proof.
  split; split; [exact length_static_buffer| | |exact length_static_buffer]; split; apply length_replicate.
Qed.

(** C3: the bound thread logs [cs] while the log thread runs [n] rounds, their accesses to
    the ring interleaved by any schedule.  Nothing faults and no access races; the lines
    that reach spdlog are those of the accepted calls, whole, in order and once each,
    besides the notices of refused calls, and never a corrupt message; every call is
    accepted or refused, and none is refused when all fit in the ring; both threads end
    their work whatever the other one does, unless a critical message ends the process. *)
Theorem buffer_log_two_threads (data : list Z) (k : Z) (cs : list log_call) (n : nat) (sched : list bool) :
  1 <= k <= 31 → Z.of_nat (length data) = 2 ^ k → Forall wf_call cs →
  ∃ p q s,
    run (checked_perform log_event) exited sched
      (t_log_all (2 ^ k - 1) log_statics cs) (t_DoDumpLogToDisk (2 ^ k - 1) n dump_start)
      (log_start data) = Ok (p, q, s) ∧
    (∃ acc j,
      acc `sublist_of` nonempty cs ∧ logged (said s) = call_event <$> take j acc ∧
      Forall (λ e, is_logged e = true ∨ e = QueueFull) (said s) ∧
      (p = Ret tt → (length acc + refusals (said s) = length (nonempty cs))%nat ∧
         (calls_size (nonempty cs) < 2 ^ k → acc = nonempty cs))) ∧
    (exited s = true ∨ ((16 * length cs <= turns true sched)%nat → p = Ret tt)) ∧
    (exited s = true ∨ ((20 * n <= turns false sched)%nat → q = Ret tt)).
Proof.
  intros Hk Hdata Hcs. destruct (log_start_inv data k cs Hk Hdata) as (J0 & Hmain & Hdump).
  destruct statics_start as [Hst Hd].
  destruct (run_safe (checked_perform log_event) exited _ _ _ _ _ _ _ sched (λ s s' H, H) (λ s s' H, H)
    _ _ _ J0 (log_all_safe _ cs cs [] [] log_statics _ eq_refl Hcs Hst J0 Hmain)
    (dump_all_safe _ cs n [] dump_start _ J0 Hdump Hd)) as (p & q & s & Hrun & J & Hp & Hq).
  destruct (run_ends _ _ _ _ _ _ _ _ _ _ _ Hrun (log_all_ends _ cs _) (dump_all_ends _ n _)) as [Ep Eq].
  exists p, q, s. split; [done|]. split; [|split].
  - assert (∃ ms acc t, stream cs ms acc ∧ partial t ∧ published s = (ms ≫= msg_bytes) ++ t ∧
      (p = Ret tt → (length acc + refusals (said s) = length (nonempty cs))%nat ∧
         (calls_size (nonempty cs) < 2 ^ k → acc = nonempty cs))) as (ms & acc & t & Hs & Ht & HP & Hend).
    { destruct p as [[]| |].
      - destruct (Hp s) as (acc & [(ms & Hs & HP) Hsub Hc Ha]); [done..|].
        exists ms, acc, []. rewrite app_nil_r. split; [done|]. split; [by left|]. split; [done|].
        intros _. split; [done|]. intros Hle. apply Ha. lia.
      - by destruct (Hp s).
      - destruct (inv_K _ _ _ s J) as ((ms & acc & t & Hs & Ht & HP) & _). by exists ms, acc, t. }
    exists acc. destruct (inv_K _ _ _ s J) as (_ & (ds & Hds & Hl & Hc) & He).
    destruct Hs as (Hwf & H2 & Hsub).
    destruct (stream_prefix ds ms t) as [rest ->]; [done..| |].
    { rewrite <- HP, (inv_bytes _ _ _ s J). by apply prefix_app_r. }
    exists (length ds). split; [done|]. split; [|done].
    rewrite Hl. apply Forall2_app_inv_l in H2 as (a1 & a2 & H1 & _ & ->).
    rewrite (Forall2_length H1), take_app_length. by apply events_of_calls.
  - destruct Ep as [|Ep]; [by left|right]. intros Hturns.
    by destruct (safe_ended _ _ _ _ _ _ _ J Hp (Ep Hturns)) as ([] & -> & _).
  - destruct Eq as [|Eq]; [by left|right]. intros Hturns.
    by destruct (safe_ended _ _ _ _ _ _ _ J Hq (Eq Hturns)) as ([] & -> & _).
Qed.

Lemma buffer_log_two_threads_witness :
  ∃ p q s,
    run (checked_perform log_event) exited (concat (replicate 40 [true; false]))
      (t_log_all (2 ^ 9 - 1) log_statics [call_example 2 [104; 105]; call_example 2 [111; 107]])
      (t_DoDumpLogToDisk (2 ^ 9 - 1) 2 dump_start)
      (log_start (replicate 512 0)) = Ok (p, q, s) ∧
    (exited s = true ∨ p = Ret tt).
Proof.
  destruct (buffer_log_two_threads (replicate 512 0) 9
    [call_example 2 [104; 105]; call_example 2 [111; 107]] 2 (concat (replicate 40 [true; false])))
    as (p & q & s & Hrun & _ & Hp & _).
  - lia.
  - reflexivity.
  - repeat constructor; vm_compute; done.
  - exists p, q, s. split; [exact Hrun|]. destruct Hp as [Hp|Hp]; [by left|right].
    apply Hp. vm_compute. lia.
Defined.
