(* ===== verification/Libevent.v ===== *)
(** * The libevent server's callbacks (src/network/libevent/libevent_handle.cpp)

    libevent is not modelled: what its functions return is an argument of the callbacks,
    and the calls that change its state are left in a log.  bufferevent_read hands out
    the bytes that wait for the client, in order. *)

From S2P Require Import Prelude Spinlock Unpack PacketPool Context SocketMessage ServerLogic.

Abbreviation lev_server := (ServerContext LibeventClientCtx).

(** Calls into libevent. *)
Inductive lev_call :=
| BuffereventSocketNew (bev : nat) (fd : Z)
| BuffereventSetcb (bev : nat)
| BuffereventEnable (bev : nat)
| BuffereventFree (bev : nat)
| EventBaseLoopbreak
| EventBaseLoopexit
| EventBaseFree
| EvconnlistenerFree.

(** ** Objects of libevent

    Named by numbers; freeing one that is not live is the fault [UseAfterFree]. *)

Record lev_objects := mk_lev {
  live_base : gset nat;
  live_bev : gset nat;
  live_event : gset nat;
  lev_next : nat
}.

Definition lev_empty : lev_objects := mk_lev ∅ ∅ ∅ 0.

Definition event_base_new (L : lev_objects) : nat * lev_objects :=
  let n := lev_next L in (n, mk_lev ({[n]} ∪ live_base L) (live_bev L) (live_event L) (S n)).
Definition bufferevent_socket_new (L : lev_objects) : nat * lev_objects :=
  let n := lev_next L in (n, mk_lev (live_base L) ({[n]} ∪ live_bev L) (live_event L) (S n)).
Definition event_new (L : lev_objects) : nat * lev_objects :=
  let n := lev_next L in (n, mk_lev (live_base L) (live_bev L) ({[n]} ∪ live_event L) (S n)).

Definition event_base_free (n : nat) (L : lev_objects) : res lev_objects :=
  if decide (n ∈ live_base L) then Ok (mk_lev (live_base L ∖ {[n]}) (live_bev L) (live_event L) (lev_next L))
  else Fault UseAfterFree.
Definition bufferevent_free (n : nat) (L : lev_objects) : res lev_objects :=
  if decide (n ∈ live_bev L) then Ok (mk_lev (live_base L) (live_bev L ∖ {[n]}) (live_event L) (lev_next L))
  else Fault UseAfterFree.
Definition event_free (n : nat) (L : lev_objects) : res lev_objects :=
  if decide (n ∈ live_event L) then Ok (mk_lev (live_base L) (live_bev L) (live_event L ∖ {[n]}) (lev_next L))
  else Fault UseAfterFree.

(** if(NULL != ptr) free(ptr) *)
Definition free_if (free : nat → lev_objects → res lev_objects) (ptr : option nat) (L : lev_objects)
    : res lev_objects :=
  match ptr with Some n => free n L | None => Ok L end.

(** ** Callbacks *)

(** Flags of an event callback (event2/bufferevent.h). *)
Definition BEV_EVENT_EOF : Z := 0x10.
Definition BEV_EVENT_ERROR : Z := 0x20.
Definition BEV_EVENT_TIMEOUT : Z := 0x40.

(** The two results of setsockopt: SO_LINGER, and SO_KEEPALIVE if the first is 0. *)
Definition _SetSocketOpt (linger keepalive : Z) : Z :=
  if negb (linger =? 0) then linger
  else if negb (keepalive =? 0) then keepalive
  else keepalive.

Definition get_fd (W : lev_server) (p : nat) : res Z := c ← client W p; Ok (GetClientFd c).

(** RemoveClient, then delete, whose destructor frees the bufferevent. *)
Definition CloseClient (W : lev_server) (pstClientCtx : nat) : res (lev_server * list lev_call) :=
  c ← client W pstClientCtx;
  '(_, cp) ← RemoveClient (sv_pool W) (get_fd W) (GetClientSeq c);
  Ok (mk_server (sv_net W) cp (delete pstClientCtx (sv_clients W)) (sv_next W) (sv_mem W),
      match lc_pstBufferEvent c with Some bev => [BuffereventFree bev] | None => [] end).

(** [bev] is what bufferevent_socket_new returns, [linger] and [keepalive] what setsockopt
    returns, [seq] the number SnowFlakeUUID generates, [ip] the address of the peer. *)
Definition OnListenerAcceptConnect (W : lev_server) (iClientFd : Z) (bev : option nat)
    (linger keepalive seq : Z) (ip : list Z) : res (lev_server * list lev_call) :=
  '(W, log) ←
    match GetClientByFd (sv_pool W) iClientFd with
    | Some pstLastClientCtx => CloseClient W pstLastClientCtx
    | None => Ok (W, [])
    end;
  match bev with
  | None => Ok (W, log ++ [EventBaseLoopbreak])
  | Some pstEvtObj =>
      let log := log ++ [BuffereventSocketNew pstEvtObj iClientFd] in
      if negb (_SetSocketOpt linger keepalive =? 0) then Ok (W, log)
      else
        let p := sv_next W in
        let c := LibeventClientCtx_new seq iClientFd pstEvtObj ip in
        Ok (mk_server (sv_net W) (AddClient (sv_pool W) (GetClientSeq c) (GetClientFd c) p)
              (<[p := c]> (sv_clients W)) (S p) (sv_mem W),
            log ++ [BuffereventSetcb pstEvtObj; BuffereventEnable pstEvtObj])
  end.

Definition OnListenerAcceptError : list lev_call := [EventBaseLoopexit].

(** pstClientCtx->PacketBufferRead *)
Definition client_read (W : lev_server) (p : nat) (avail : list Z)
    : res (Z * lev_server * list Z) :=
  c ← client W p;
  '(iReadLen, b, avail) ← libevent_PacketBufferRead (GetContextBuffer c) avail;
  Ok (iReadLen, set_client W p (SetContextBuffer c b), avail).

(** The do-while loop of the read callbacks; [avail] are the bytes that wait, [on_error]
    is what is done when a packet is refused. *)
Fixpoint read_loop (on_error : lev_server → res (lev_server * list lev_call)) (fuel : nat)
    (now : nat → Z) (W : lev_server) (pstClientCtx : nat) (avail : list Z)
    : res (lev_server * list Z * list lev_call) :=
  match fuel with
  | O => Fault OutOfFuel
  | S fuel =>
      '(_, W, avail) ← client_read W pstClientCtx avail;
      '(iRet, W) ← ExecuteCmdRecvAllPacket now W pstClientCtx;
      if negb (iRet =? 0) then
        '(W, log) ← on_error W;
        Ok (W, avail, log)
      else
        '(iReadLen, W, avail) ← client_read W pstClientCtx avail;
        if 0 <? iReadLen then read_loop on_error fuel now W pstClientCtx avail
        else Ok (W, avail, [])
  end.

(** Every round but the last reads at least one byte. *)
Definition OnBufferEventRead (now : nat → Z) (W : lev_server) (iClientFd : Z) (avail : list Z)
    : res (lev_server * list Z * list lev_call) :=
  match GetClientByFd (sv_pool W) iClientFd with
  | None => Ok (W, avail, [])
  | Some pstClientCtx =>
      read_loop (fun W => CloseClient W pstClientCtx) (S (length avail)) now W pstClientCtx avail
  end.

Definition OnBufferEventTrigger (W : lev_server) (iClientFd wEvent : Z)
    : res (lev_server * list lev_call) :=
  match GetClientByFd (sv_pool W) iClientFd with
  | None => Ok (W, [])
  | Some pstClientCtx =>
      let bEventFree := negb ((wEvent .& BEV_EVENT_TIMEOUT)%cint =? 0)
                        || negb ((wEvent .& BEV_EVENT_EOF)%cint =? 0)
                        || negb ((wEvent .& BEV_EVENT_ERROR)%cint =? 0) in
      if bEventFree then CloseClient W pstClientCtx else Ok (W, [])
  end.

(** ** Reading until nothing waits *)

(** A read takes what fits. *)
Lemma libevent_PacketBufferRead_spec b t (avail : list Z) :
  holds_stream b t → ∃ n r b',
    Z.of_nat n = Z.min (BUFFER_BYTES - Z.of_nat (length t)) (Z.of_nat (length avail)) ∧
    libevent_PacketBufferRead b avail = Ok (r, b', drop n avail) ∧
    holds_stream b' (t ++ take n avail) ∧ same_client b b' ∧ (0 < r ↔ n ≠ 0%nat).
Proof.
  intros Hs. pose proof (holds_stream_length _ _ Hs) as Hlen. pose proof Hs as (Hl & Hsz & junk & Hb).
  unfold libevent_PacketBufferRead. rewrite Hl, Hsz.
  assert (BUFFER_BYTES = 102400) as EB by done. rewrite EB in *.
  rewrite swrap_small by (simpl; lia).
  destruct (Z.leb_spec (102400 - Z.of_nat (length t)) 0).
  - exists 0%nat, (-1), b. rewrite take_0, app_nil_r, drop_0. split_and!; try done; lia.
  - set (n := Z.to_nat (Z.min (102400 - Z.of_nat (length t)) (Z.of_nat (length avail)))).
    assert (length (take n avail) = n) as Hn by (rewrite length_take; lia).
    rewrite mem_write_Ok by lia. rewrite bind_Ok, swrap_small by (simpl; lia).
    eexists n, _, _. split; [lia|]. split; [done|]. split; [|split; [done|lia]].
    split_and!; cbn [m_chBuffer cb_iBufferSize].
    + rewrite length_splice by lia. lia.
    + rewrite length_app. lia.
    + rewrite Hb, Nat2Z.id. rewrite (splice_app t junk _) by done. eexists. by rewrite app_assoc.
Qed.

Lemma client_read_spec (W : lev_server) p fd seq O pks t (avail : list Z) :
  receiving W p fd seq O pks t → ∃ n r W',
    Z.of_nat n = Z.min (BUFFER_BYTES - Z.of_nat (length t)) (Z.of_nat (length avail)) ∧
    client_read W p avail = Ok (r, W', drop n avail) ∧ only_received W W' ∧ sv_net W' = sv_net W ∧
    receiving W' p fd seq O pks (t ++ take n avail) ∧ (0 < r ↔ n ≠ 0%nat).
Proof.
  intros Hrcv. pose proof Hrcv as (_ & _ & c & Hc & Hs & _).
  destruct (libevent_PacketBufferRead_spec _ t avail Hs) as (n & r & b & Hn & E & Hb & Hsame & Hr).
  exists n, r, (set_client W p (SetContextBuffer c b)). split; [done|].
  unfold client_read, client. rewrite Hc, bind_Ok, E, bind_Ok. split; [done|].
  split; [apply set_client_only_received|]. split; [done|]. split; [|done]. by apply (receiving_set_buffer W p fd seq O pks t c b).
Qed.

(** The loop delivers the stream and leaves nothing behind. *)
Lemma read_loop_spec on_error now p fd seq : ∀ fuel (W : lev_server) O pks t avail ms tail,
  receiving W p fd seq O pks t → (length avail < fuel)%nat →
  t ++ avail = frames ms ++ tail → Forall msg_ok ms → partial tail →
  Z.of_nat (length pks + length ms) < 2147483648 →
  ∃ W' O', read_loop on_error fuel now W p avail = Ok (W', [], []) ∧
    receiving W' p fd seq O' (pks ++ delivered seq fd ms) tail ∧ only_received W W' ∧
    m_stNetPacketRecvPrepareQueue (sv_net W') = queue_Init ∧
    (ms ≠ [] ∨ m_bHasSignal (m_stSignalExec (sv_net W)) = true →
     m_bHasSignal (m_stSignalExec (sv_net W')) = true).
Proof.
  induction fuel as [|fuel IH]; intros W O pks t avail ms tail Hrcv Hfuel E Hok Ht Hlen; [lia|].
  cbn [read_loop].
  destruct (client_read_spec W p fd seq O pks t avail Hrcv) as (n & r & W1 & _ & -> & Hf1 & Hnet1 & Hrcv1 & _).
  rewrite bind_Ok.
  rewrite <- (take_drop n avail), app_assoc in E.
  destruct (stream_split ms tail _ _ Hok Ht E) as (ms1 & ms2 & tail1 & -> & Hu & Ht1 & Hv).
  rewrite Hu in Hrcv1. apply Forall_app in Hok as [Hok1 Hok2]. rewrite length_app in Hlen.
  destruct (ExecuteCmdRecvAllPacket_spec now W1 p fd seq O pks ms1 tail1 Hrcv1 Hok1 Ht1)
    as (W2 & O2 & -> & Hf2 & Hrcv2 & Hprep2 & Hsig2); [lia|].
  rewrite bind_Ok. cbn [negb Z.eqb]. rewrite Hnet1 in Hsig2.
  destruct (client_read_spec W2 p fd seq O2 _ tail1 (drop n avail) Hrcv2)
    as (n3 & r3 & W3 & Hn3 & -> & Hf3 & Hnet3 & Hrcv3 & Hr3).
  pose proof (only_received_trans _ _ _ Hf1 (only_received_trans _ _ _ Hf2 Hf3)) as Hf.
  rewrite bind_Ok. unfold delivered in *. rewrite fmap_app, app_assoc.
  pose proof (partial_length tail1 Ht1) as Htl.
  assert (BUFFER_BYTES = 102400) as EB by done. rewrite EB in *.
  destruct (decide (drop n avail = [])) as [Hnil|Hne].
  - rewrite Hnil in *. assert (n3 = 0%nat) as -> by (rewrite length_nil in Hn3; lia).
    rewrite (proj2 (Z.ltb_ge 0 r3)) by lia. rewrite app_nil_r in *. subst tail1.
    destruct ms2 as [|m ms2].
    + exists W3, O2. split; [done|]. cbn [fmap list_fmap frames concat app] in *.
      rewrite !app_nil_r in *. split; [done|]. split; [done|]. rewrite Hnet3, Hsig2. split; [done|].
      intros [?|?]; apply orb_true_iff; [left; by apply bool_decide_true|by right].
    + exfalso. rewrite frames_cons, <- app_assoc in Ht1. apply Forall_cons_1 in Hok2 as [Hm _].
      by apply (partial_no_frame m (frames ms2 ++ tail)).
  - assert (0 < length (drop n avail))%nat by (destruct (drop n avail); [done|cbn; lia]).
    assert (n3 ≠ 0%nat) as Hn0 by lia.
    rewrite (proj2 (Z.ltb_lt 0 r3)) by (by apply Hr3).
    assert (length (drop n3 (drop n avail)) < fuel)%nat as Hfu3.
    { rewrite length_drop in *. rewrite length_drop. clear - Hfuel Hn0 H. lia. }
    assert (Z.of_nat (length (pks ++ delivered seq fd ms1) + length ms2) < 2147483648) as Hl3.
    { unfold delivered. rewrite length_app, length_fmap. clear - Hlen. lia. }
    rewrite <- (take_drop n3 (drop n avail)), app_assoc in Hv.
    destruct (IH W3 O2 _ _ _ ms2 tail Hrcv3 Hfu3 Hv Hok2 Ht Hl3)
      as (W4 & O4 & -> & Hrcv4 & Hf4 & Hprep4 & Hsig4).
    exists W4, O4. split; [done|]. split; [done|]. split; [by eapply only_received_trans|].
    split; [done|]. intros Hor. apply Hsig4. rewrite Hnet3, Hsig2.
    destruct ms1 as [|m ms1]; [|by right; apply orb_true_iff; left; apply bool_decide_true].
    cbn [app] in Hor. destruct Hor as [?|Hs]; [by left|]. right. rewrite Hs. apply orb_true_r.
Qed.

(** The read callbacks of one connection: [avails] are the bytes that arrive before each
    of them, [rest] those left over. *)
Fixpoint lev_feed (now : nat → Z) (W : lev_server) (fd : Z) (rest : list Z) (avails : list (list Z))
    : res (lev_server * list Z) :=
  match avails with
  | [] => Ok (W, rest)
  | avail :: avails =>
      '(W, rest, _) ← OnBufferEventRead now W fd (rest ++ avail);
      lev_feed now W fd rest avails
  end.

Lemma OnBufferEventRead_spec now (W : lev_server) p fd seq O pks t avail ms tail :
  receiving W p fd seq O pks t → t ++ avail = frames ms ++ tail → Forall msg_ok ms → partial tail →
  Z.of_nat (length pks + length ms) < 2147483648 →
  ∃ W' O', OnBufferEventRead now W fd avail = Ok (W', [], []) ∧
    receiving W' p fd seq O' (pks ++ delivered seq fd ms) tail ∧ only_received W W' ∧
    m_stNetPacketRecvPrepareQueue (sv_net W') = queue_Init ∧
    (ms ≠ [] ∨ m_bHasSignal (m_stSignalExec (sv_net W)) = true →
     m_bHasSignal (m_stSignalExec (sv_net W')) = true).
Proof.
  intros Hrcv E Hok Ht Hlen. unfold OnBufferEventRead. rewrite (proj1 Hrcv).
  apply (read_loop_spec _ now p fd seq _ W O pks t avail ms tail); auto with lia.
Qed.

Lemma lev_feed_spec now p fd seq avails : ∀ (W : lev_server) O pks t ms tail,
  receiving W p fd seq O pks t →
  t ++ concat avails = frames ms ++ tail → Forall msg_ok ms → partial t → partial tail →
  Z.of_nat (length pks + length ms) < 2147483648 →
  ∃ W' O', lev_feed now W fd [] avails = Ok (W', []) ∧
    receiving W' p fd seq O' (pks ++ delivered seq fd ms) tail.
Proof.
  induction avails as [|avail avails IH]; intros W O pks t ms tail Hrcv E Hok Hpt Hpl Hlen.
  - cbn [concat] in E. rewrite app_nil_r in E. subst t. destruct ms as [|m ms].
    + exists W, O. split; [done|]. unfold delivered. cbn. by rewrite app_nil_r.
    + exfalso. rewrite frames_cons, <- app_assoc in Hpt. apply Forall_cons_1 in Hok as [Hm _].
      by apply (partial_no_frame m (frames ms ++ tail)).
  - cbn [concat] in E. rewrite app_assoc in E.
    destruct (stream_split ms tail (t ++ avail) (concat avails) Hok Hpl E)
      as (ms1 & ms2 & tail1 & -> & Hu & Hp1 & Hv).
    apply Forall_app in Hok as [Hok1 Hok2]. rewrite length_app in Hlen.
    destruct (OnBufferEventRead_spec now W p fd seq O pks t avail ms1 tail1 Hrcv Hu Hok1 Hp1)
      as (W1 & O1 & E1 & HR1 & _); [lia|].
    destruct (IH W1 O1 _ tail1 ms2 tail HR1 Hv Hok2 Hp1 Hpl) as (W2 & O2 & E2 & HR2).
    { unfold delivered. rewrite length_app, length_fmap. lia. }
    exists W2, O2. cbn [lev_feed]. rewrite app_nil_l, E1, bind_Ok. split; [done|].
    unfold delivered in *. by rewrite fmap_app, app_assoc.
Qed.

(** What a packet carries, without its client. *)
Definition payload (pk : packet) : Z * list Z := (pk_proto pk, pk_body pk).

Lemma payload_delivered seq fd ms : payload <$> delivered seq fd ms = ms.
Proof.
  unfold delivered. rewrite <- list_fmap_compose. rewrite <- (list_fmap_id ms) at 2.
  apply list_fmap_ext. by intros _ [] _.
Qed.

(** C19: the two servers read alike.  Let one well-formed byte stream, packets and the
    beginning of another, arrive at a client of the socket server in chunks of 1 to 92156
    bytes and at a client of the libevent server in the portions its read callbacks find, of
    any size; both clients start with empty buffers and queues.  Then the
    handlers of both end normally and their receive queues and buffers get the same
    packets, in order and intact, and the same incomplete rest; the loop of the read
    callback leaves no byte unread. *)
Theorem libevent_equals_socket now1 now2 (W1 : server) (W2 : lev_server) p1 p2 fd1 fd2 seq1 seq2
    O1 O2 chunks avails ms tail :
  receiving W1 p1 fd1 seq1 O1 [] [] → receiving W2 p2 fd2 seq2 O2 [] [] →
  Forall chunk_ok chunks → concat chunks = concat avails → concat avails = frames ms ++ tail →
  Forall msg_ok ms → partial tail → Z.of_nat (length ms) < 2147483648 →
  ∃ W1' W2' O1' O2' pks1 pks2,
    feed now1 W1 fd1 chunks = Ok W1' ∧ lev_feed now2 W2 fd2 [] avails = Ok (W2', []) ∧
    receiving W1' p1 fd1 seq1 O1' pks1 tail ∧ receiving W2' p2 fd2 seq2 O2' pks2 tail ∧
    payload <$> pks1 = payload <$> pks2 ∧ payload <$> pks2 = ms.
Proof.
  intros H1 H2 Hck Hcc Hav Hok Ht Hlen.
  destruct (feed_spec now1 p1 fd1 seq1 chunks W1 O1 [] [] ms tail) as (W1' & O1' & E1 & R1); auto.
  { cbn [app]. by rewrite Hcc. }
  { apply partial_nil. }
  destruct (lev_feed_spec now2 p2 fd2 seq2 avails W2 O2 [] [] ms tail) as (W2' & O2' & E2 & R2); auto.
  { apply partial_nil. }
  exists W1', W2', O1', O2', (delivered seq1 fd1 ms), (delivered seq2 fd2 ms).
  rewrite !payload_delivered. auto 10.
Qed.

(** ** Accepting a connection *)

(** A server without clients. *)
Definition lev_server_new : lev_server := mk_server net_new (mk_cpool ∅ ∅) ∅ 0 pool_new.

Lemma LibeventClientCtx_new_holds seq fd bev ip :
  holds_stream (GetContextBuffer (LibeventClientCtx_new seq fd bev ip)) [].
Proof.
  split; [|split; [done|by eexists]].
  change (m_chBuffer _) with (replicate (Z.to_nat BUFFER_BYTES) 0).
  by rewrite length_replicate, Z2Nat.id.
Qed.

(** A connection on a descriptor and with a number that are not in use. *)
Lemma OnListenerAcceptConnect_spec (W : lev_server) O pks fd bev seq ip :
  recv_inv (sv_mem W) O (sv_net W) pks →
  GetClientByFd (sv_pool W) fd = None → GetClient (sv_pool W) seq = None →
  ∃ W', OnListenerAcceptConnect W fd (Some bev) 0 0 seq ip =
      Ok (W', [BuffereventSocketNew bev fd; BuffereventSetcb bev; BuffereventEnable bev]) ∧
    sv_net W' = sv_net W ∧ sv_mem W' = sv_mem W ∧
    GetClient (sv_pool W') seq = Some (sv_next W) ∧
    receiving W' (sv_next W) fd seq O pks [] ∧ (clients_live W → clients_live W').
Proof.
  intros HR Hfd Hseq. unfold OnListenerAcceptConnect. rewrite Hfd, bind_Ok. cbn [_SetSocketOpt negb Z.eqb].
  eexists. split; [done|]. split; [done|]. split; [done|].
  cbn [sv_pool sv_net sv_mem]. change (GetClientSeq _) with seq. change (GetClientFd _) with fd.
  unfold GetClient, GetClientByFd, AddClient, map_insert_new in *. rewrite Hseq, Hfd.
  cbn [m_stClientSeqPool m_stClientFdPool]. split; [by rewrite lookup_insert_eq|].
  split.
  - split; [unfold GetClientByFd; cbn; by rewrite lookup_insert_eq|]. split; [done|].
    eexists. cbn [sv_clients]. rewrite lookup_insert_eq. split; [done|].
    split; [apply LibeventClientCtx_new_holds|done].
  - intros Hlive q p Hq. unfold GetClient in Hq. cbn [sv_pool m_stClientSeqPool sv_clients] in *.
    destruct (decide (sv_next W = p)) as [->|Hne]; [rewrite lookup_insert_eq; by eexists|].
    rewrite lookup_insert_ne by done. apply (Hlive q). unfold GetClient.
    by apply lookup_insert_Some in Hq as [[_ ?]|[_ ?]].
Qed.

(** When setsockopt fails the new bufferevent is neither registered nor freed. *)
Theorem failed_setsockopt_leaks (W : lev_server) fd bev linger keepalive seq ip :
  GetClientByFd (sv_pool W) fd = None → _SetSocketOpt linger keepalive ≠ 0 →
  OnListenerAcceptConnect W fd (Some bev) linger keepalive seq ip = Ok (W, [BuffereventSocketNew bev fd]).
Proof.
  intros Hfd Hopt. unfold OnListenerAcceptConnect. rewrite Hfd, bind_Ok.
  by rewrite (proj2 (Z.eqb_neq _ _) Hopt).
Qed.

Lemma receiving_lev_new fd bev seq ip :
  ∃ W, OnListenerAcceptConnect lev_server_new fd (Some bev) 0 0 seq ip =
      Ok (W, [BuffereventSocketNew bev fd; BuffereventSetcb bev; BuffereventEnable bev]) ∧
    receiving W 0 fd seq ∅ [] [].
Proof.
  destruct (OnListenerAcceptConnect_spec lev_server_new ∅ [] fd bev seq ip) as (W & E & _ & _ & _ & HR & _);
    [|done|done|eauto].
  apply (receiving_new 0 0).
Qed.

Lemma libevent_equals_socket_witness :
  let ms := [(7, [1; 2; 3]); (-1, [9])] in
  ∃ W, OnListenerAcceptConnect lev_server_new 6 (Some 0%nat) 0 0 88 [49] =
      Ok (W, [BuffereventSocketNew 0 6; BuffereventSetcb 0; BuffereventEnable 0]) ∧
  ∃ W1' W2' O1' O2' pks1 pks2,
    feed (fun _ => 0) (server_with 77 5) 5 [[0; 7; 0]; [7; 1; 2; 3; 0; 5]; [255; 255; 9; 0]] = Ok W1' ∧
    lev_feed (fun _ => 0) W 6 [] [[0; 7; 0; 7]; [1; 2; 3; 0; 5; 255; 255; 9; 0]] = Ok (W2', []) ∧
    receiving W1' 0 5 0 O1' pks1 [0] ∧ receiving W2' 0 6 88 O2' pks2 [0] ∧
    payload <$> pks1 = payload <$> pks2 ∧ payload <$> pks2 = ms.
Proof.
  destruct (receiving_lev_new 6 0 88 [49]) as (W & E & HW). exists W. split; [exact E|].
  apply (libevent_equals_socket (fun _ => 0) (fun _ => 0) (server_with 77 5) W 0 0 5 6 0 88 ∅ ∅).
  - apply receiving_new.
  - exact HW.
  - repeat constructor; done.
  - reflexivity.
  - reflexivity.
  - repeat constructor; vm_compute; done.
  - exists (1, [1]), [5; 0; 1; 1]. repeat split; vm_compute; done.
  - cbn. lia.
Defined.
