(* ===== verification/NetCmd.v ===== *)
(** * Commands to the network thread and the two servers
      (src/network/defines.h, server.cpp, server.h, libevent/libevent_server.cpp,
       socket/server_logic.cpp; the class NertworkServer of src/network/context.h)

    The logic thread asks the network thread to send by a command of 32 bytes in a pipe.
    Both servers implement the class [NertworkServer].  What the system and libevent
    return is an argument; calls that change their state are left in a log. *)

From S2P Require Import Prelude Spinlock Unpack PacketPool Context SocketMessage ServerLogic Libevent.
From S2P Require Import Config.

(** ** The command *)

Definition ST_NETWORK_CMD_REQUEST_MAX_SIZE : Z := 32.
Definition NETWORK_CMD_REQUEST_SEND_ALL_PACKET : Z := 83.
Definition NETWORK_CMD_REQUEST_CLOSE_SERVER : Z := 67.

(** The bytes of ST_NETWORK_CMD_REQUEST: the command, and zeroes. *)
Definition ST_NETWORK_CMD_REQUEST (chCmd : Z) : list Z :=
  <[0%nat := u8 chCmd]> (replicate (Z.to_nat ST_NETWORK_CMD_REQUEST_MAX_SIZE) 0).

Definition GetCmd (request : list Z) : Z := u8 (request !!! 0%nat).

(** ** The pipe

    A write returns an error or the number of bytes it took. *)

Inductive write_answer := WErr (errno : Z) | WOk (n : Z).

(** The loop of SendNetworkCmd: errors are logged and the write is repeated; a short
    write is logged only.  [os j] is the answer to the [j]-th write. *)
Fixpoint write_cmd (fuel : nat) (os : nat → write_answer) (j : nat) (pipe cmd : list Z)
    : res (list Z * nat) :=
  match fuel with
  | O => Fault OutOfFuel
  | S fuel =>
      match os j with
      | WErr _ => write_cmd fuel os (S j) pipe cmd
      | WOk n => Ok (pipe ++ take (Z.to_nat n) cmd, S j)
      end
  end.

(** ** The interface of a server *)

Class NertworkServer (C : Type) `{ClientContext C} (S : Type) := {
  server_pipe : S → list Z;
  server_ctx : S → ServerContext C;
  set_server_ctx : S → ServerContext C → S;
  (** m_pstServerCtx and the handle of the library are set. *)
  server_ready : S → Prop;
  SendNetworkCmd : nat → (nat → write_answer) → nat → S → list Z → res (S * nat);
  (** The second result is what was written to clients. *)
  RecvNetworkCmd : (nat → Z) → S → list Z → res (S * list (Z * list Z));
  (** The network thread's step when the pipe can be read. *)
  ReceiveCmd : (nat → Z) → S → res (S * list (Z * list Z));
  ctx_set_ctx : ∀ s W, server_ctx (set_server_ctx s W) = W;
  pipe_set_ctx : ∀ s W, server_pipe (set_server_ctx s W) = server_pipe s;
  ready_set_ctx : ∀ s W, server_ready s → server_ready (set_server_ctx s W);
  (** A command that is written is appended to the pipe. *)
  send_appends : ∀ fuel os j s cmd pipe' j',
    write_cmd fuel os j (server_pipe s) cmd = Ok (pipe', j') → ∃ s',
    SendNetworkCmd fuel os j s cmd = Ok (s', j') ∧ server_pipe s' = pipe' ∧
    server_ctx s' = server_ctx s ∧ (server_ready s → server_ready s');
  (** A command to send that is read is executed. *)
  recv_executes : ∀ now s rest W out r, server_ready s →
    server_pipe s = ST_NETWORK_CMD_REQUEST NETWORK_CMD_REQUEST_SEND_ALL_PACKET ++ rest →
    server_ExecuteCmdSendAllPacket now (server_ctx s) = Ok (r, out, W) → ∃ s',
    ReceiveCmd now s = Ok (s', out) ∧ server_pipe s' = rest ∧ server_ctx s' = W ∧ server_ready s'
}.

(** ** LibeventServer *)

Record LibeventServer := mk_lserver {
  lv_pipe : list Z;               (** from m_iSendCtrlFd to m_iRecvCtrlFd *)
  lv_base : bool;                 (** m_pstEventBase is not NULL *)
  lv_listener : bool;
  lv_has_ctx : bool;              (** m_pstServerCtx is set, to: *)
  lv_ctx : ServerContext LibeventClientCtx;
  lv_calls : list lev_call
}.

Definition _InitEventMgr (s : LibeventServer) : LibeventServer :=
  mk_lserver (lv_pipe s) false false (lv_has_ctx s) (lv_ctx s) (lv_calls s).

Definition _ReleaseEventMgr (s : LibeventServer) : LibeventServer :=
  _InitEventMgr (mk_lserver (lv_pipe s) (lv_base s) (lv_listener s) (lv_has_ctx s) (lv_ctx s)
    (lv_calls s ++ (if lv_base s then [EventBaseFree] else []) ++
     (if lv_listener s then [EvconnlistenerFree] else []))).

Definition LibeventServer_new (W : ServerContext LibeventClientCtx) : LibeventServer :=
  mk_lserver [] false false false W [].

(** [config], [base], [event] and [added] say whether event_config_new,
    event_base_new_with_config, event_new and event_add succeeded. *)
Definition _InitEventBase (s : LibeventServer) (config base event added : bool)
    : proc (bool * LibeventServer) :=
  if negb config then LOGCRITICAL;; Done (false, s)
  else if negb base then LOGCRITICAL;; Done (false, s)
  else
    let s := mk_lserver (lv_pipe s) (lv_base s) (lv_listener s) true (lv_ctx s) (lv_calls s) in
    if negb event then LOGCRITICAL;; Done (false, s)
    else if negb added then LOGCRITICAL;; Done (false, s)
    else Done (true, mk_lserver (lv_pipe s) true (lv_listener s) (lv_has_ctx s) (lv_ctx s) (lv_calls s)).

(** [bound] says whether evconnlistener_new_bind succeeded; the port it binds is the
    configured short as an unsigned short. *)
Definition _InitListener (s : LibeventServer) (rstServerIPInfo : ST_ServerIPInfo) (bound : Z → bool)
    : bool * LibeventServer :=
  if negb (bound (u16 (m_wServerPort rstServerIPInfo))) then (false, s)
  else (true, mk_lserver (lv_pipe s) (lv_base s) true (lv_has_ctx s) (lv_ctx s) (lv_calls s)).

Definition LibeventServer_Init (s : LibeventServer) (rstServerIPInfo : ST_ServerIPInfo)
    (pipe config base event added : bool) (bound : Z → bool) : proc LibeventServer :=
  if negb pipe then LOGCRITICAL;; Done s
  else
    '(ok, s) ← _InitEventBase s config base event added;
    if negb ok then LOGCRITICAL;; Done s
    else
      let '(ok, s) := _InitListener s rstServerIPInfo bound in
      if negb ok then LOGCRITICAL;; Done s else Done s.

Definition libevent_SendNetworkCmd (fuel : nat) (os : nat → write_answer) (j : nat) (s : LibeventServer)
    (rstNetCmd : list Z) : res (LibeventServer * nat) :=
  '(pipe, j) ← write_cmd fuel os j (lv_pipe s) rstNetCmd;
  Ok (mk_lserver pipe (lv_base s) (lv_listener s) (lv_has_ctx s) (lv_ctx s) (lv_calls s), j).

Definition libevent_RecvNetworkCmd (now : nat → Z) (s : LibeventServer) (rstNetCmd : list Z)
    : res (LibeventServer * list (Z * list Z)) :=
  _ ← c_assert (lv_base s);
  _ ← c_assert (lv_has_ctx s);
  let bchNetCmd := GetCmd rstNetCmd in
  if bchNetCmd =? NETWORK_CMD_REQUEST_SEND_ALL_PACKET then
    '(_, out, W) ← server_ExecuteCmdSendAllPacket now (lv_ctx s);
    Ok (mk_lserver (lv_pipe s) (lv_base s) (lv_listener s) (lv_has_ctx s) W (lv_calls s), out)
  else if bchNetCmd =? NETWORK_CMD_REQUEST_CLOSE_SERVER then
    Ok (mk_lserver (lv_pipe s) (lv_base s) (lv_listener s) (lv_has_ctx s) (lv_ctx s)
          (lv_calls s ++ [EventBaseLoopbreak]), [])
  else Ok (s, []).

(** The callback of the pipe: [ok] says whether read succeeded; what it does not fill of
    the buffer is zero. *)
Definition OnRecvNetCmdCtrl (now : nat → Z) (ok : bool) (s : LibeventServer)
    : res (LibeventServer * list (Z * list Z)) :=
  let size := Z.to_nat ST_NETWORK_CMD_REQUEST_MAX_SIZE in
  if negb ok then Ok (s, [])
  else
    let got := take size (lv_pipe s) in
    let buf := splice (replicate size 0) 0 got in
    let s := mk_lserver (drop size (lv_pipe s)) (lv_base s) (lv_listener s) (lv_has_ctx s) (lv_ctx s)
               (lv_calls s) in
    libevent_RecvNetworkCmd now s buf.

(** ** SocketServer *)

(** Calls into socket_server.c other than those of the handlers. *)
Inductive sock_call :=
| SocketServerListen (opaque : Z) (ip : str) (port backlog : Z)
| SocketServerStart (opaque id : Z)
| SocketServerSend (id : Z) (bytes : list Z)
| SocketServerExit
| SocketServerRelease.

Record SocketServer := mk_sserver {
  sk_pipe : list Z;
  sk_server : bool;               (** m_pstSocketServer is not NULL *)
  sk_has_ctx : bool;
  sk_ctx : ServerContext SocketClientCtx;
  sk_calls : list sock_call
}.

Definition SocketServer_construct (W : ServerContext SocketClientCtx) : SocketServer :=
  mk_sserver [] false false W [].

Definition NETWORK_SERVER_LISTEN_QUEUE_LEN : Z := 512.

(** [created] says whether socket_server_create succeeded; [l] is the id that
    socket_server_listen returns. *)
Definition SocketServer_Init (s : SocketServer) (rstServerIPInfo : ST_ServerIPInfo) (pipe created : bool)
    (l : Z) : proc SocketServer :=
  if negb pipe then LOGCRITICAL;; Done s
  else
    _ ← of_res (c_assert created);
    Done (mk_sserver (sk_pipe s) true true (sk_ctx s)
      (sk_calls s ++
       [SocketServerListen NETWORK_SOCKET_SERVER_OPAQUE (m_achServerIP rstServerIPInfo)
          (m_wServerPort rstServerIPInfo) NETWORK_SERVER_LISTEN_QUEUE_LEN;
        SocketServerStart NETWORK_SOCKET_SERVER_OPAQUE l])).

Definition socket_SendNetworkCmd (fuel : nat) (os : nat → write_answer) (j : nat) (s : SocketServer)
    (rstNetCmd : list Z) : res (SocketServer * nat) :=
  '(pipe, j) ← write_cmd fuel os j (sk_pipe s) rstNetCmd;
  Ok (mk_sserver pipe (sk_server s) (sk_has_ctx s) (sk_ctx s) (sk_calls s), j).

Definition socket_RecvNetworkCmd (now : nat → Z) (s : SocketServer) (rstNetCmd : list Z)
    : res (SocketServer * list (Z * list Z)) :=
  _ ← c_assert (sk_server s);
  _ ← c_assert (sk_has_ctx s);
  let bchNetCmd := GetCmd rstNetCmd in
  if bchNetCmd =? NETWORK_CMD_REQUEST_SEND_ALL_PACKET then
    '(_, out, W) ← server_ExecuteCmdSendAllPacket now (sk_ctx s);
    Ok (mk_sserver (sk_pipe s) (sk_server s) (sk_has_ctx s) W
          (sk_calls s ++ ((λ o, SocketServerSend o.1 o.2) <$> out)), out)
  else if bchNetCmd =? NETWORK_CMD_REQUEST_CLOSE_SERVER then
    Ok (mk_sserver (sk_pipe s) (sk_server s) (sk_has_ctx s) (sk_ctx s)
          (sk_calls s ++ [SocketServerExit; SocketServerRelease]), [])
  else Ok (s, []).

(** What read answers: an error, or bytes of the pipe. *)
Inductive read_answer := RErr (errno : Z) | ROk.
Definition EINTR : Z := 4.

(** One round of StartThreadCmdLoop; the buffer lives across rounds, so a short read
    leaves bytes of the command before.  [None] for the buffer: the thread has ended. *)
Definition cmd_round (now : nat → Z) (a : read_answer) (s : SocketServer) (chBuffer : list Z)
    : res (SocketServer * option (list Z) * list (Z * list Z)) :=
  match a with
  | RErr e => if e =? EINTR then Ok (s, Some chBuffer, []) else Ok (s, None, [])
  | ROk =>
      let got := take (Z.to_nat ST_NETWORK_CMD_REQUEST_MAX_SIZE) (sk_pipe s) in
      chBuffer ← mem_write chBuffer 0 got;
      let s := mk_sserver (drop (length got) (sk_pipe s)) (sk_server s) (sk_has_ctx s) (sk_ctx s) (sk_calls s) in
      '(s, out) ← socket_RecvNetworkCmd now s chBuffer;
      Ok (s, Some chBuffer, out)
  end.

Fixpoint cmd_rounds (now : nat → Z) (answers : list read_answer) (s : SocketServer) (chBuffer : list Z)
    : res (SocketServer * list (Z * list Z)) :=
  match answers with
  | [] => Ok (s, [])
  | a :: answers =>
      '(s, buf, out) ← cmd_round now a s chBuffer;
      match buf with
      | None => Ok (s, out)
      | Some chBuffer =>
          '(s, out') ← cmd_rounds now answers s chBuffer;
          Ok (s, out ++ out')
      end
  end.

(** StartThreadCmdLoop for the given answers of read; the loop has no end of its own. *)
Definition StartThreadCmdLoop (now : nat → Z) (answers : list read_answer) (s : SocketServer)
    : res (SocketServer * list (Z * list Z)) :=
  _ ← c_assert (sk_server s);
  _ ← c_assert (sk_has_ctx s);
  cmd_rounds now answers s (replicate (Z.to_nat ST_NETWORK_CMD_REQUEST_MAX_SIZE) 0).

(** StartEventLoop returns when the loop is broken or left. *)
Definition libevent_StartEventLoop (s : LibeventServer) : res LibeventServer :=
  _ ← c_assert (lv_base s);
  Ok (_ReleaseEventMgr s).

(** ** Both servers implement the interface *)

Lemma GetCmd_request ch : GetCmd (ST_NETWORK_CMD_REQUEST ch) = u8 ch.
Proof.
  unfold GetCmd, ST_NETWORK_CMD_REQUEST. rewrite list_lookup_total_insert_eq by
    (rewrite length_replicate; unfold ST_NETWORK_CMD_REQUEST_MAX_SIZE; lia).
  unfold wrap. by rewrite Z.mod_mod by lia.
Qed.

Lemma length_request ch : length (ST_NETWORK_CMD_REQUEST ch) = 32%nat.
Proof. unfold ST_NETWORK_CMD_REQUEST. by rewrite length_insert, length_replicate. Qed.

(** A whole command read into a buffer of its size replaces it. *)
Lemma read_cmd_request (buf rest : list Z) ch :
  length buf = 32%nat →
  take 32 (ST_NETWORK_CMD_REQUEST ch ++ rest) = ST_NETWORK_CMD_REQUEST ch ∧
  drop 32 (ST_NETWORK_CMD_REQUEST ch ++ rest) = rest ∧
  splice buf 0 (ST_NETWORK_CMD_REQUEST ch) = ST_NETWORK_CMD_REQUEST ch.
Proof.
  intros Hb. pose proof (length_request ch) as Hl. split_and!.
  - by rewrite take_app_length'.
  - by rewrite drop_app_length'.
  - unfold splice. rewrite take_0, Hl. rewrite drop_ge by lia. by rewrite app_nil_r.
Qed.

#[export, refine] Instance libevent_network_server : NertworkServer LibeventClientCtx LibeventServer := {|
  server_pipe := lv_pipe;
  server_ctx := lv_ctx;
  set_server_ctx := fun s W => mk_lserver (lv_pipe s) (lv_base s) (lv_listener s) (lv_has_ctx s) W (lv_calls s);
  server_ready := fun s => lv_base s = true ∧ lv_has_ctx s = true;
  SendNetworkCmd := libevent_SendNetworkCmd;
  RecvNetworkCmd := libevent_RecvNetworkCmd;
  ReceiveCmd := fun now => OnRecvNetCmdCtrl now true
|}.
Proof.
  - done.
  - done.
  - done.
  - intros fuel os j s cmd pipe' j' E. unfold libevent_SendNetworkCmd. rewrite E, bind_Ok.
    eexists. split; [done|]. done.
  - intros now s rest W out r [Hb Hc] Hp E. unfold OnRecvNetCmdCtrl. cbn [negb]. rewrite Hp.
    change (Z.to_nat ST_NETWORK_CMD_REQUEST_MAX_SIZE) with 32%nat.
    destruct (read_cmd_request (replicate 32 0) rest NETWORK_CMD_REQUEST_SEND_ALL_PACKET) as (-> & -> & ->);
      [done|].
    unfold libevent_RecvNetworkCmd. cbn [lv_base lv_has_ctx lv_ctx]. rewrite Hb, Hc. cbn [c_assert].
    rewrite !bind_Ok, GetCmd_request. change (u8 NETWORK_CMD_REQUEST_SEND_ALL_PACKET) with 83.
    cbn [Z.eqb Pos.eqb]. change (83 =? NETWORK_CMD_REQUEST_SEND_ALL_PACKET) with true. cbv iota.
    rewrite E, bind_Ok. eexists. split; [done|]. done.
Defined.

(** The buffer of the thread that reads commands is overwritten by a whole command, so
    its contents do not matter here. *)
#[export, refine] Instance socket_network_server : NertworkServer SocketClientCtx SocketServer := {|
  server_pipe := sk_pipe;
  server_ctx := sk_ctx;
  set_server_ctx := fun s W => mk_sserver (sk_pipe s) (sk_server s) (sk_has_ctx s) W (sk_calls s);
  server_ready := fun s => sk_server s = true ∧ sk_has_ctx s = true;
  SendNetworkCmd := socket_SendNetworkCmd;
  RecvNetworkCmd := socket_RecvNetworkCmd;
  ReceiveCmd := fun now s => '(s, _, out) ← cmd_round now ROk s (replicate 32 0); Ok (s, out)
|}.
Proof.
  - done.
  - done.
  - done.
  - intros fuel os j s cmd pipe' j' E. unfold socket_SendNetworkCmd. rewrite E, bind_Ok.
    eexists. split; [done|]. done.
  - intros now s rest W out r [Hb Hc] Hp E. unfold cmd_round. rewrite Hp.
    change (Z.to_nat ST_NETWORK_CMD_REQUEST_MAX_SIZE) with 32%nat.
    destruct (read_cmd_request (replicate 32 0) rest NETWORK_CMD_REQUEST_SEND_ALL_PACKET) as (-> & Hd & Hs);
      [done|].
    rewrite mem_write_Ok by (rewrite ?length_request, ?length_replicate; lia). rewrite bind_Ok.
    change (Z.to_nat 0) with 0%nat. rewrite Hs, length_request, Hd.
    unfold socket_RecvNetworkCmd. cbn [sk_server sk_has_ctx sk_ctx]. rewrite Hb, Hc. cbn [c_assert].
    rewrite !bind_Ok, GetCmd_request. change (u8 NETWORK_CMD_REQUEST_SEND_ALL_PACKET) with 83.
    change (83 =? NETWORK_CMD_REQUEST_SEND_ALL_PACKET) with true. cbv iota.
    rewrite E, !bind_Ok. eexists. split; [done|]. done.
Defined.

(** ** Server::SendNetworkPackets *)

Section SendNetworkPackets.
Context {C S : Type} `{NertworkServer C S}.

(** [m_pstServer] is the server of either kind; its context is the one of Server. *)
Definition SendNetworkPackets (fuel : nat) (os : nat → write_answer) (j : nat) (m_pstServer : option S)
    : res (option S * nat) :=
  match m_pstServer with
  | None => Fault AssertFail
  | Some s =>
      '(_, N) ← PacketSendPrepare (sv_net (server_ctx s));
      let s := set_server_ctx s (set_net (server_ctx s) N (sv_mem (server_ctx s))) in
      '(s, j) ← SendNetworkCmd fuel os j s (ST_NETWORK_CMD_REQUEST NETWORK_CMD_REQUEST_SEND_ALL_PACKET);
      Ok (Some s, j)
  end.

(** pipe(7): a write of 32 bytes is atomic, so it takes all of them or fails; less than
    [fuel] failures come in a row. *)
Definition pipe_answers (fuel : nat) (os : nat → write_answer) : Prop :=
  ∀ j, ∃ d, (d < fuel)%nat ∧ os (j + d)%nat = WOk 32 ∧ ∀ e, (e < d)%nat → ∃ errno, os (j + e)%nat = WErr errno.

Lemma write_cmd_ok fuel os j pipe cmd :
  pipe_answers fuel os → length cmd = 32%nat → ∃ j', write_cmd fuel os j pipe cmd = Ok (pipe ++ cmd, j').
Proof using.
  intros Hos Hlen. destruct (Hos j) as (d & Hd & Hok & Herr). clear Hos.
  revert j fuel Hd Hok Herr. induction d as [|d IH]; intros j [|fuel] Hd Hok Herr; try lia; cbn [write_cmd].
  - rewrite Nat.add_0_r in Hok. rewrite Hok. exists (Datatypes.S j). by rewrite take_ge by (rewrite Hlen; done).
  - destruct (Herr 0%nat ltac:(lia)) as [e He]. rewrite Nat.add_0_r in He. rewrite He.
    apply IH; [lia| |].
    + by rewrite Nat.add_succ_comm.
    + intros e' He'. destruct (Herr (Datatypes.S e') ltac:(lia)) as [x Hx]. exists x. by rewrite Nat.add_succ_comm.
Qed.

Lemma SendNetworkPackets_spec fuel os j s n N :
  pipe_answers fuel os → PacketSendPrepare (sv_net (server_ctx s)) = Ok (n, N) →
  ∃ s' j', SendNetworkPackets fuel os j (Some s) = Ok (Some s', j') ∧
    server_pipe s' = server_pipe s ++ ST_NETWORK_CMD_REQUEST NETWORK_CMD_REQUEST_SEND_ALL_PACKET ∧
    server_ctx s' = set_net (server_ctx s) N (sv_mem (server_ctx s)) ∧
    (server_ready s → server_ready s').
Proof.
  intros Hos E. unfold SendNetworkPackets. rewrite E, bind_Ok.
  set (s1 := set_server_ctx s _).
  destruct (write_cmd_ok fuel os j (server_pipe s1)
    (ST_NETWORK_CMD_REQUEST NETWORK_CMD_REQUEST_SEND_ALL_PACKET) Hos (length_request _)) as (j' & Ew).
  destruct (send_appends fuel os j s1 _ _ _ Ew) as (s' & -> & Hp & Hc & Hr). rewrite bind_Ok.
  exists s', j'. split; [done|]. rewrite Hp, Hc. unfold s1. rewrite pipe_set_ctx, ctx_set_ctx.
  split; [done|]. split; [done|]. intros Hs. by apply Hr, ready_set_ctx.
Qed.

End SendNetworkPackets.

(** ** The owner of a network context

    What the logic thread needs of a server or a connector: its context, and that asking it
    to send moves the prepared packets to the send queue and puts one command into the
    pipe. *)

Abbreviation send_cmd := (ST_NETWORK_CMD_REQUEST NETWORK_CMD_REQUEST_SEND_ALL_PACKET).

Class PacketOwner (C S : Type) `{ClientContext C} := {
  owner_pipe : S → list Z;
  owner_ctx : S → ServerContext C;
  set_owner_ctx : S → ServerContext C → S;
  owner_ready : S → Prop;
  OwnerSend : nat → (nat → write_answer) → nat → S → res (S * nat);
  ctx_set_owner : ∀ s W, owner_ctx (set_owner_ctx s W) = W;
  pipe_set_owner : ∀ s W, owner_pipe (set_owner_ctx s W) = owner_pipe s;
  ready_set_owner : ∀ s W, owner_ready s → owner_ready (set_owner_ctx s W);
  owner_sends : ∀ fuel os j s n N, pipe_answers fuel os → owner_ready s →
    PacketSendPrepare (sv_net (owner_ctx s)) = Ok (n, N) →
    ∃ s' j', OwnerSend fuel os j s = Ok (s', j') ∧ owner_pipe s' = owner_pipe s ++ send_cmd ∧
      owner_ctx s' = set_net (owner_ctx s) N (sv_mem (owner_ctx s)) ∧ owner_ready s'
}.

#[export, refine] Instance server_owner {C S} `{NertworkServer C S} : PacketOwner C S := {|
  owner_pipe := server_pipe;
  owner_ctx := server_ctx;
  set_owner_ctx := set_server_ctx;
  owner_ready := server_ready;
  OwnerSend := fun fuel os j s =>
    '(s', j) ← SendNetworkPackets fuel os j (Some s);
    match s' with Some s => Ok (s, j) | None => Fault AssertFail end
|}.
Proof.
  - apply ctx_set_ctx.
  - apply pipe_set_ctx.
  - apply ready_set_ctx.
  - intros fuel os j s n N Hos Hr E.
    destruct (SendNetworkPackets_spec fuel os j s n N Hos E) as (s' & j' & -> & Hp & Hc & Hr').
    rewrite bind_Ok. exists s', j'. auto.
Defined.
