(* ===== verification/Codec.v ===== *)
(** * An instance of the interface of protobuf

    [Protobuf] is a parameter of the theorems on messages.  This file shows that its laws
    can hold for messages with numbers and strings: a self-delimiting code of bytes.  It
    is not the encoding of protobuf. *)

From S2P Require Import Prelude Unpack.

Class Codec (A : Type) := {
  enc : A → list Z;
  dec : list Z → option (A * list Z);
  enc_bytes : ∀ a, Forall is_byte (enc a);
  dec_enc : ∀ a rest, dec (enc a ++ rest) = Some (a, rest)
}.

(** Digits, least significant first, each behind a 1; a 0 stands for the last one. *)
Fixpoint enc_pos (p : positive) : list Z :=
  match p with
  | xH => [0]
  | xO p => 1 :: 0 :: enc_pos p
  | xI p => 1 :: 1 :: enc_pos p
  end.

Fixpoint dec_pos (l : list Z) : option (positive * list Z) :=
  match l with
  | 0 :: l => Some (xH, l)
  | 1 :: d :: l =>
      match dec_pos l with
      | Some (p, l) => Some (if d =? 0 then xO p else xI p, l)
      | None => None
      end
  | _ => None
  end.

Lemma enc_pos_bytes p : Forall is_byte (enc_pos p).
Proof. induction p; cbn; repeat (constructor; [done|]); auto. Qed.

Lemma dec_enc_pos p rest : dec_pos (enc_pos p ++ rest) = Some (p, rest).
Proof. induction p as [p IH|p IH|]; cbn; by rewrite ?IH. Qed.

Lemma length_enc_pos p k : Z.pos p < 2 ^ Z.of_nat k → (length (enc_pos p) <= 2 * k + 1)%nat.
Proof.
  revert k. induction p as [p IH|p IH|]; intros [|k] Hk; cbn; try (cbn in Hk; lia).
  - specialize (IH k). rewrite Nat2Z.inj_succ, Z.pow_succ_r in Hk by lia. lia.
  - specialize (IH k). rewrite Nat2Z.inj_succ, Z.pow_succ_r in Hk by lia. lia.
Qed.

#[export, refine] Instance Z_codec : Codec Z := {|
  enc := fun z => match z with Z0 => [0] | Zpos p => 1 :: enc_pos p | Zneg p => 2 :: enc_pos p end;
  dec := fun l => match l with
    | 0 :: l => Some (0, l)
    | 1 :: l => '(p, l) ← dec_pos l; Some (Z.pos p, l)
    | 2 :: l => '(p, l) ← dec_pos l; Some (Z.neg p, l)
    | _ => None
    end
|}.
Proof.
  - intros [|p|p]; (constructor; [done|]); [constructor|apply enc_pos_bytes..].
  - intros [|p|p] rest; cbn; by rewrite ?dec_enc_pos.
Defined.

Lemma length_enc_u64 z : (length (enc (u64 z)) <= 130)%nat.
Proof.
  pose proof (wrap_bound 64 z ltac:(lia)) as Hz. destruct (u64 z) as [|p|p]; [cbn; lia| |lia].
  change (enc (Z.pos p)) with (1 :: enc_pos p). cbn [length].
  pose proof (length_enc_pos p 64). change (2 ^ Z.of_nat 64) with (2 ^ 64) in *. lia.
Qed.

#[export, refine] Instance prod_codec {A B} `{Codec A, Codec B} : Codec (A * B) := {|
  enc := fun '(a, b) => enc a ++ enc b;
  dec := fun l => '(a, l) ← dec l; '(b, l) ← dec l; Some ((a, b), l)
|}.
Proof.
  - intros [a b]. apply Forall_app_2; apply enc_bytes.
  - intros [a b] rest. rewrite <- (assoc_L (++)), dec_enc. cbn. by rewrite dec_enc.
Defined.

Fixpoint enc_list (l : list Z) : list Z :=
  match l with [] => [0] | x :: l => 1 :: enc x ++ enc_list l end.

(** An element takes at least one byte, so the length of the input is enough fuel. *)
Fixpoint dec_list (fuel : nat) (l : list Z) : option (list Z * list Z) :=
  match fuel with
  | O => None
  | S fuel =>
      match l with
      | 0 :: l => Some ([], l)
      | 1 :: l => '(x, l) ← dec l; '(xs, l) ← dec_list fuel l; Some (x :: xs, l)
      | _ => None
      end
  end.

Lemma dec_enc_list l rest fuel :
  (length l < fuel)%nat → dec_list fuel (enc_list l ++ rest) = Some (l, rest).
Proof.
  revert fuel. induction l as [|x l IH]; intros [|fuel] Hf; cbn [length] in Hf; try lia; [done|].
  cbn [enc_list dec_list app]. rewrite <- (assoc_L (++)), dec_enc. cbn [mbind option_bind].
  rewrite IH by lia. done.
Qed.

Lemma length_enc_list l : (length l < length (enc_list l))%nat.
Proof. induction l as [|x l IH]; cbn [enc_list length]; [lia|]. rewrite length_app. lia. Qed.

#[export, refine] Instance list_codec : Codec (list Z) := {|
  enc := enc_list;
  dec := fun l => dec_list (length l) l
|}.
Proof.
  - induction a as [|x l IH]; cbn [enc_list]; [by repeat constructor|].
    constructor; [done|]. apply Forall_app_2; [apply enc_bytes|done].
  - intros l rest. apply dec_enc_list. rewrite length_app. pose proof (length_enc_list l). lia.
Defined.

(** Texts: a byte from 3 on stands for itself. *)
Definition enc_char (x : Z) : list Z := if (3 <=? x) && (x <? 256) then [x] else 1 :: enc x.

Fixpoint enc_text (l : list Z) : list Z :=
  match l with [] => [0] | x :: l => enc_char x ++ enc_text l end.

Fixpoint dec_text (fuel : nat) (l : list Z) : option (list Z * list Z) :=
  match fuel with
  | O => None
  | S fuel =>
      match l with
      | 0 :: l => Some ([], l)
      | 1 :: l => '(x, l) ← dec l; '(xs, l) ← dec_text fuel l; Some (x :: xs, l)
      | x :: l => '(xs, l) ← dec_text fuel l; Some (x :: xs, l)
      | [] => None
      end
  end.

Lemma enc_char_bytes x : Forall is_byte (enc_char x).
Proof.
  unfold enc_char. destruct (Z.leb_spec 3 x), (Z.ltb_spec x 256); cbn [andb];
    (constructor; [unfold is_byte; lia|]); first [apply (enc_bytes x)|constructor].
Qed.

Lemma dec_text_char fuel x l :
  dec_text (S fuel) (enc_char x ++ l) = '(xs, l) ← dec_text fuel l; Some (x :: xs, l).
Proof.
  unfold enc_char. destruct (Z.leb_spec 3 x) as [H3|], (Z.ltb_spec x 256) as [H256|]; cbn [andb];
    try (cbn [app dec_text]; by rewrite dec_enc).
  destruct x as [|[[?|?|]|?|]|?]; done || lia.
Qed.

Lemma dec_enc_text l rest fuel :
  (length l < fuel)%nat → dec_text fuel (enc_text l ++ rest) = Some (l, rest).
Proof.
  revert fuel. induction l as [|x l IH]; intros [|fuel] Hf; cbn [length] in Hf; try lia; [done|].
  cbn [enc_text]. rewrite <- (assoc_L (++)), dec_text_char, IH by lia. done.
Qed.

Lemma length_enc_text l : (length l < length (enc_text l))%nat.
Proof.
  induction l as [|x l IH]; cbn [enc_text length]; [lia|]. rewrite length_app.
  assert (1 <= length (enc_char x))%nat; [|lia]. unfold enc_char. destruct (_ && _); cbn [length]; lia.
Qed.

Definition text_codec : Codec (list Z).
Proof.
  refine {| enc := enc_text; dec := fun l => dec_text (length l) l |}.
  - induction a as [|x l IH]; cbn [enc_text]; [by repeat constructor|]. apply Forall_app_2; [apply enc_char_bytes|done].
  - intros l rest. apply dec_enc_text. rewrite length_app. pose proof (length_enc_text l). lia.
Defined.

(** A message type that is a tuple of such fields up to a bijection has an instance. *)
Section Message.
Context {A M : Type} `{Codec A} (to : A → M) (from : M → A) (to_from : ∀ m, to (from m) = m) (dflt : M).

Definition codec_size (m : M) : Z := Z.of_nat (length (enc (from m))).

#[refine] Instance codec_protobuf : Protobuf M := {|
  ByteSizeLong := codec_size;
  SerializeToArray := fun m n => if n <? codec_size m then None else Some (enc (from m));
  ParseFromArray := fun l => match dec l with
    | Some (a, _) => (to a, true)
    | None => (dflt, false)
    end
|}.
Proof.
  - intros m. unfold codec_size. lia.
  - intros m n Hn. destruct (Z.ltb_spec n (codec_size m)); [lia|]. eexists. split; [done|].
    split; [done|]. split; [apply enc_bytes|].
    rewrite <- (app_nil_r (enc (from m))), dec_enc. by rewrite to_from.
  - intros m n Hn. destruct (Z.ltb_spec n (codec_size m)); [done|lia].
Defined.

End Message.
