(* ===== verification/GameLogic.v ===== *)
(** * Game logic and protocol handlers
      (src/service/gamesvr/gamelogic.cpp, src/service/gamesvr/net/handle.cpp,
       src/proto/proto.h, the messages of src/proto/src/hello.proto)

    The logic thread takes the received packets, hands each to the handler of its
    protocol number and asks the network thread to send the replies.  How protobuf
    writes the messages is a parameter: the class [Protobuf] with its laws. *)

From S2P Require Import Prelude Spinlock Unpack PacketPool Context SocketMessage ServerLogic Libevent NetCmd Codec.

(** ** Messages *)

Definition CS_PROTOCOL_MESSAGE_ID_HELLO : Z := 1.
Definition SS_PROTOCOL_MESSAGE_ID_HELLO : Z := 20001.
Definition SS_PROTOCOL_MESSAGE_ID_HELLO_RSP : Z := 20002.

Record CSHello := mkCSHello { hello_id : Z; hello_content : list Z }.
Record CSHelloRsp := mkCSHelloRsp {
  rsp_id : Z; rsp_content : list Z; unpack_timestamp : Z; logic_timestamp : Z }.
Record SSHello := mkSSHello { ss_timestamp : Z }.
Record SSHelloRsp := mkSSHelloRsp { ss_rsp_timestamp : Z }.

Section Handlers.
Context `{Protobuf CSHello} `{Protobuf CSHelloRsp} `{Protobuf SSHello} `{Protobuf SSHelloRsp}.

(** [now k] is the [k]-th reading of GetMilliSecond; a handler returns the index of the
    next one. *)
Abbreviation handler :=
  ((nat → Z) → nat → CPacketMemoryPool → NetworkContext → NetPacketBuffer →
   res (NetworkContext * CPacketMemoryPool * nat))%type.

Definition HandleCSProtoHello : handler := fun now k P N rstPacket =>
  let dwLogicTime := now k in
  let ulClientSeq := m_ulClientSeq rstPacket in
  let iClientFd := m_iSockFd rstPacket in
  buffer ← GetBuffer P rstPacket;
  stHello ← UnpackProtobufStruct (M := CSHello) buffer (m_iBufferSize rstPacket);
  let stHelloRsp := mkCSHelloRsp (hello_id stHello) (hello_content stHello)
                      (u64 (m_dwCreateTime rstPacket)) (u64 dwLogicTime) in
  '(N, P) ← PacketProduceProtobufPacket P N (now (S k)) ulClientSeq iClientFd
              CS_PROTOCOL_MESSAGE_ID_HELLO stHelloRsp;
  Ok (N, P, S (S k)).

Definition HandleSSProtoHello : handler := fun now k P N rstPacket =>
  let ulClientSeq := m_ulClientSeq rstPacket in
  let iClientFd := m_iSockFd rstPacket in
  buffer ← GetBuffer P rstPacket;
  _ ← UnpackProtobufStruct (M := SSHello) buffer (m_iBufferSize rstPacket);
  let stHelloRsp := mkSSHelloRsp (u64 (now k)) in
  '(N, P) ← PacketProduceProtobufPacket P N (now (S k)) ulClientSeq iClientFd
              SS_PROTOCOL_MESSAGE_ID_HELLO_RSP stHelloRsp;
  Ok (N, P, S (S k)).

(** Logs the difference of times only. *)
Definition HandleSSProtoHelloRsp : handler := fun now k P N rstPacket =>
  buffer ← GetBuffer P rstPacket;
  _ ← UnpackProtobufStruct (M := SSHelloRsp) buffer (m_iBufferSize rstPacket);
  Ok (N, P, S k).

Definition _HandleSSProtoExecute : handler := fun now k P N rstPacket =>
  if m_iProtoNo rstPacket =? SS_PROTOCOL_MESSAGE_ID_HELLO then HandleSSProtoHello now k P N rstPacket
  else if m_iProtoNo rstPacket =? SS_PROTOCOL_MESSAGE_ID_HELLO_RSP then
    HandleSSProtoHelloRsp now k P N rstPacket
  else Ok (N, P, k).

(** For servers and for connectors. *)
Definition HandleSSProto : handler := _HandleSSProtoExecute.

Definition HandleCSProto : handler := fun now k P N rstPacket =>
  if m_iProtoNo rstPacket =? CS_PROTOCOL_MESSAGE_ID_HELLO then HandleCSProtoHello now k P N rstPacket
  else Ok (N, P, k).

(** ** The logic thread *)

Section Logic.
Context {C S : Type} `{PacketOwner C S}.

(** The context of the owner with new queues and packet memory. *)
Definition update_net (s : S) (N : NetworkContext) (P : CPacketMemoryPool) : S :=
  set_owner_ctx s (set_net (owner_ctx s) N P).

(** The for loop over the logic queue: packet [i] of [n] is read by its index; [batch i]
    says whether the packets are sent after it.  [fuel] bounds the repeats of a write,
    [k] counts readings of the clock and [j] writes. *)
Fixpoint packet_loop (handle : handler) (batch : Z → bool) (now : nat → Z) (fuel : nat)
    (os : nat → write_answer) (v : list NetPacketBuffer) (n : nat) (i : Z) (k j : nat) (s : S)
    : res (S * nat * nat) :=
  match n with
  | O => Ok (s, k, j)
  | Datatypes.S n =>
      match v with
      | [] => Fault OutOfBounds
      | rstPacket :: v =>
          '(N, P, k) ← handle now k (sv_mem (owner_ctx s)) (sv_net (owner_ctx s)) rstPacket;
          let s := update_net s N P in
          if batch i then
            '(s, j) ← OwnerSend fuel os j s;
            packet_loop handle batch now fuel os v n (i + 1) k j s
          else packet_loop handle batch now fuel os v n (i + 1) k j s
      end
  end.

(** Both kinds of packets: assert, loop, send, release. *)
Definition process_packets (handle : handler) (batch : Z → bool) (now : nat → Z) (fuel : nat)
    (os : nat → write_answer) (iPacketNum : Z) (k j : nat) (s : S) : res (S * nat * nat) :=
  let q := m_stNetPacketLogicQueue (sv_net (owner_ctx s)) in
  _ ← c_assert (iPacketNum =? m_iPacketNum q);
  '(s, k, j) ← packet_loop handle batch now fuel os (m_vecPacketPool q) (Z.to_nat iPacketNum) 0 k j s;
  '(s, j) ← OwnerSend fuel os j s;
  let N := sv_net (owner_ctx s) in
  '(q, P) ← ReleaseAllPackets (sv_mem (owner_ctx s)) (m_stNetPacketLogicQueue N);
  Ok (update_net s (set_recv N (m_stNetPacketRecvPrepareQueue N) (m_stNetPacketRecvQueue N) q) P, k, j).

(** Replies to clients are sent every thousand packets and at the end. *)
Definition cs_batch (i : Z) : bool := (0 <? i) && (Z.rem i 1000 =? 0).

Definition _ProcessCSNetworkPacketHandle := process_packets HandleCSProto cs_batch.

Definition _ProcessSSNetworkPacketHandle := process_packets HandleSSProto (fun _ => false).

(** The signal is taken, the packets are copied and handled; the first result is the
    number of packets. *)
Definition process_signalled
    (process : (nat → Z) → nat → (nat → write_answer) → Z → nat → nat → S → res (S * nat * nat))
    (now : nat → Z) (fuel : nat) (os : nat → write_answer) (k j : nat) (s : S) : res (Z * S * nat * nat) :=
  let W := owner_ctx s in
  '(active, signal) ← CheckAndSetSignalActived (m_stSignalExec (sv_net W));
  let N := set_signal (sv_net W) signal in
  if negb active then Ok (0, update_net s N (sv_mem W), k, j)
  else
    '(iPacketNum, N) ← CopyPacketsFromNetToLogic N;
    '(s, k, j) ← process now fuel os iPacketNum k j (update_net s N (sv_mem W));
    Ok (iPacketNum, s, k, j).

Definition _ProcessCSNetworkPacket := process_signalled _ProcessCSNetworkPacketHandle.

(** The part of _ProcessSSNetworkPacket for the proxy server, or for one connector. *)
Definition _ProcessSSNetworkPacket_owner := process_signalled _ProcessSSNetworkPacketHandle.

End Logic.
End Handlers.

(** ** What the handlers answer *)

Section Answers.
Context `{Protobuf CSHello} `{Protobuf CSHelloRsp} `{Protobuf SSHello} `{Protobuf SSHelloRsp}.

(** A reply goes to the client of the packet. *)
Definition same_peer (pk rp : packet) : Prop := pk_seq rp = pk_seq pk ∧ pk_fd rp = pk_fd pk.

(** The bytes [bs] are a message as protobuf writes it. *)
Definition encodes {M} `{Protobuf M} (m : M) (bs : list Z) : Prop :=
  ParseFromArray bs = (m, true) ∧ Z.of_nat (length bs) = ByteSizeLong m ∧ Forall is_byte bs.

(** [rp] answers the hello [pk] of a client: the identifier and the content it was
    parsed to, and two time stamps. *)
Definition answers_hello (pk rp : packet) : Prop :=
  same_peer pk rp ∧ pk_proto rp = CS_PROTOCOL_MESSAGE_ID_HELLO ∧ Z.of_nat (length (pk_body rp)) <= 10240 ∧
  ∃ t1 t2, let h : CSHello := fst (ParseFromArray (pk_body pk)) in
    encodes (mkCSHelloRsp (hello_id h) (hello_content h) (u64 t1) (u64 t2)) (pk_body rp).

Definition answers_ss_hello (pk rp : packet) : Prop :=
  same_peer pk rp ∧ pk_proto rp = SS_PROTOCOL_MESSAGE_ID_HELLO_RSP ∧ Z.of_nat (length (pk_body rp)) <= 10240 ∧
  ∃ t, ParseFromArray (pk_body rp) = (mkSSHelloRsp t, true).

(** The reply to a hello fits into a packet. *)
Definition hello_fits (pk : packet) : Prop :=
  let h : CSHello := fst (ParseFromArray (pk_body pk)) in
  ∀ t1 t2, ByteSizeLong (mkCSHelloRsp (hello_id h) (hello_content h) (u64 t1) (u64 t2)) <= 10240.

Definition ss_hello_fits : Prop := ∀ t, ByteSizeLong (mkSSHelloRsp (u64 t)) <= 10240.

(** What a packet adds to the send prepare queue. *)
Definition produces (P : CPacketMemoryPool) (N : NetworkContext) (rp : packet)
    (N' : NetworkContext) (P' : CPacketMemoryPool) : Prop :=
  ∃ now n src q, Z.of_nat (length (pk_body rp)) <= 10240 ∧ n <= 10240 ∧
    mem_read src 0 n = Ok (pk_body rp) ∧
    AddPacket P (m_stNetPacketSendPrepareQueue N) now (pk_seq rp) (pk_fd rp) (pk_proto rp) n src
      = Ok (i32 (m_iPacketNum (m_stNetPacketSendPrepareQueue N) + 1), q, P') ∧
    N' = set_send N q (m_stNetPacketSendQueue N) (m_stNetPacketSendCache N).

Lemma PacketProduceProtobufPacket_spec {M} `{Protobuf M} P O N now seq fd proto (m : M) :
  pool_inv P O → ByteSizeLong m <= 10240 →
  ∃ rp N' P', PacketProduceProtobufPacket P N now seq fd proto m = Ok (N', P') ∧
    pk_seq rp = seq ∧ pk_fd rp = fd ∧ pk_proto rp = proto ∧
    encodes m (pk_body rp) ∧ produces P N rp N' P'.
Proof.
  intros HI Hm. pose proof (size_nonneg m) as Hpos. unfold PacketProduceProtobufPacket.
  rewrite swrap_small by (simpl; lia). unfold PackProtobufStruct. rewrite Z.ltb_irrefl.
  destruct (serialize_fits m (ByteSizeLong m)) as (bs & -> & Hbs & Hbytes & Hparse); [lia|].
  rewrite mem_write_Ok by (rewrite ?length_replicate; lia). rewrite !bind_Ok.
  assert (splice (replicate (Z.to_nat (ByteSizeLong m)) 0) (Z.to_nat 0) bs = bs) as ->.
  { unfold splice. change (Z.to_nat 0) with 0%nat. rewrite take_0, drop_ge; [by rewrite app_nil_r|].
    rewrite length_replicate. lia. }
  assert (mem_read bs 0 (ByteSizeLong m) = Ok bs) as Hr.
  { rewrite mem_read_Ok by lia. change (Z.to_nat 0) with 0%nat. by rewrite drop_0, take_ge by lia. }
  destruct (AddPacket_spec P O (m_stNetPacketSendPrepareQueue N) now seq fd proto (ByteSizeLong m) bs bs HI Hm Hr)
    as (p & P' & b & E & _). rewrite E, bind_Ok.
  eexists (mk_pkt seq fd proto bs), _, _. do 4 (split; [done|]). split; [done|].
  exists now, (ByteSizeLong m), bs. eexists. cbn [pk_body pk_seq pk_fd pk_proto].
  split; [lia|]. split; [done|]. split; [done|]. split; [exact E|done].
Qed.

(** A handler's promise: a packet it [wants] is answered by one packet, others by none. *)
Definition handler_promise
    (handle : (nat → Z) → nat → CPacketMemoryPool → NetworkContext → NetPacketBuffer →
              res (NetworkContext * CPacketMemoryPool * nat))
    (wants fits : packet → Prop) (answers : packet → packet → Prop) : Prop :=
  ∀ now k P O N b pk, pool_inv P O → packet_of P b = Ok pk → fits pk →
  (¬ wants pk → ∃ k', handle now k P N b = Ok (N, P, k')) ∧
  (wants pk → ∃ rp N' P' k', handle now k P N b = Ok (N', P', k') ∧ answers pk rp ∧ produces P N rp N' P').

Definition is_hello (pk : packet) : Prop := pk_proto pk = CS_PROTOCOL_MESSAGE_ID_HELLO.
Definition is_ss_hello (pk : packet) : Prop := pk_proto pk = SS_PROTOCOL_MESSAGE_ID_HELLO.

Lemma read_message {M} `{Protobuf M} P b pk :
  packet_of P b = Ok pk →
  pk_proto pk = m_iProtoNo b ∧ pk_seq pk = m_ulClientSeq b ∧ pk_fd pk = m_iSockFd b ∧
  ∃ buf, GetBuffer P b = Ok buf ∧
    UnpackProtobufStruct (M := M) buf (m_iBufferSize b) = Ok (fst (ParseFromArray (pk_body pk))).
Proof.
  intros Hpk. destruct (packet_of_inv P b pk Hpk) as (buf & Hb & Hr & Hp & _).
  split; [done|]. split; [by rewrite (packet_of_seq P b pk Hpk)|]. split.
  { revert Hpk. unfold packet_of. intros E. inv_res. done. }
  exists buf. split; [done|]. unfold UnpackProtobufStruct. by rewrite Hr, bind_Ok.
Qed.

Lemma HandleCSProto_promise : handler_promise HandleCSProto is_hello hello_fits answers_hello.
Proof.
  intros now k P O N b pk HI Hpk Hfits.
  destruct (read_message (M := CSHello) P b pk Hpk) as (Hproto & Hseq & Hfd & buf & Hb & Hu).
  unfold HandleCSProto, is_hello. rewrite Hproto. split.
  - intros Hne. rewrite (proj2 (Z.eqb_neq _ _) Hne). eauto.
  - intros ->. rewrite Z.eqb_refl. unfold HandleCSProtoHello. rewrite Hb, bind_Ok, Hu, bind_Ok.
    destruct (PacketProduceProtobufPacket_spec P O N (now (S k)) (m_ulClientSeq b) (m_iSockFd b)
      CS_PROTOCOL_MESSAGE_ID_HELLO _ HI (Hfits (m_dwCreateTime b) (now k)))
      as (rp & N' & P' & -> & Hr1 & Hr2 & Hr3 & Hr4 & Hr5).
    rewrite bind_Ok. eexists rp, N', P', _. split; [done|]. split; [|done].
    split; [split; congruence|]. split; [done|]. split; [|by eauto].
    by destruct Hr5 as (? & ? & ? & ? & ? & _).
Qed.

Lemma HandleSSProto_promise :
  handler_promise HandleSSProto is_ss_hello (fun _ => ss_hello_fits) answers_ss_hello.
Proof.
  intros now k P O N b pk HI Hpk Hfits.
  destruct (read_message (M := SSHello) P b pk Hpk) as (Hproto & Hseq & Hfd & buf & Hb & Hu).
  destruct (read_message (M := SSHelloRsp) P b pk Hpk) as (_ & _ & _ & buf' & Hb' & Hu').
  unfold HandleSSProto, _HandleSSProtoExecute, is_ss_hello. rewrite Hproto. split.
  - intros Hne. rewrite (proj2 (Z.eqb_neq _ _) Hne). destruct (Z.eqb_spec (m_iProtoNo b) SS_PROTOCOL_MESSAGE_ID_HELLO_RSP).
    + unfold HandleSSProtoHelloRsp. rewrite Hb', bind_Ok, Hu', bind_Ok. eauto.
    + eauto.
  - intros ->. rewrite Z.eqb_refl. unfold HandleSSProtoHello. rewrite Hb, bind_Ok, Hu, bind_Ok.
    destruct (PacketProduceProtobufPacket_spec P O N (now (S k)) (m_ulClientSeq b) (m_iSockFd b)
      SS_PROTOCOL_MESSAGE_ID_HELLO_RSP _ HI (Hfits (now k)))
      as (rp & N' & P' & -> & Hr1 & Hr2 & Hr3 & [Hr4 _] & Hr5).
    rewrite bind_Ok. eexists rp, N', P', _. split; [done|]. split; [|done].
    split; [split; congruence|]. split; [done|]. split; [|by eauto].
    by destruct Hr5 as (? & ? & ? & ? & ? & _).
Qed.

End Answers.

(** ** A round of the logic thread *)

(** The logic queue holds [pks]; the send queue and the prepare queue hold [replies];
    nothing else is in a queue. *)
Record logic_inv (P : CPacketMemoryPool) (O : gset mem_ptr) (N : NetworkContext)
    (pks replies : list packet) : Prop := {
  li_pool : pool_inv P O;
  li_write : unlocked (m_stWriteLock N);
  li_read : unlocked (m_stReadLock N);
  li_signal : unlocked (s_lock (m_stSignalExec N));
  li_recv : m_vecPacketPool (m_stNetPacketRecvQueue N) = [] ∧
            m_vecPacketPool (m_stNetPacketRecvPrepareQueue N) = [];
  li_cache : m_vecPacketPool (m_stNetPacketSendCache N) = [];
  li_count : m_vecPacketPool (m_stNetPacketSendQueue N) = [] ∨ 0 < m_iPacketNum (m_stNetPacketSendQueue N);
  li_backed : backed (m_vecPacketPool (m_stNetPacketLogicQueue N) ++
    m_vecPacketPool (m_stNetPacketSendQueue N) ++ m_vecPacketPool (m_stNetPacketSendPrepareQueue N));
  li_nodup : NoDup (ptrs (m_vecPacketPool (m_stNetPacketLogicQueue N) ++
    m_vecPacketPool (m_stNetPacketSendQueue N) ++ m_vecPacketPool (m_stNetPacketSendPrepareQueue N)));
  li_owned : ∀ p, p ∈ ptrs (m_vecPacketPool (m_stNetPacketLogicQueue N) ++
    m_vecPacketPool (m_stNetPacketSendQueue N) ++ m_vecPacketPool (m_stNetPacketSendPrepareQueue N)) → p ∈ O;
  li_logic : queue_holds P (m_vecPacketPool (m_stNetPacketLogicQueue N)) pks;
  li_send : queue_holds P (m_vecPacketPool (m_stNetPacketSendQueue N) ++
                           m_vecPacketPool (m_stNetPacketSendPrepareQueue N)) replies
}.

Lemma produces_step P O N pks replies rp N' P' :
  logic_inv P O N pks replies → produces P N rp N' P' →
  ∃ O', logic_inv P' O' N' pks (replies ++ [rp]) ∧
    m_stNetPacketLogicQueue N' = m_stNetPacketLogicQueue N.
Proof.
  intros [L1 L2 L3 L4 L5 L6 L7 L8 L9 L10 L11 L12] (now & n & src & q & _ & Hn & Hr & E & ->).
  destruct (AddPacket_spec P O (m_stNetPacketSendPrepareQueue N) now (pk_seq rp) (pk_fd rp) (pk_proto rp)
    n src (pk_body rp) L1 Hn Hr) as (p & P1 & b & E' & Hb & Hp & HI & Hf & Hpk).
  rewrite E in E'. injection E' as -> <-. exists ({[p]} ∪ O). split; [|done].
  set (lv := m_vecPacketPool (m_stNetPacketLogicQueue N)) in *.
  set (sv := m_vecPacketPool (m_stNetPacketSendQueue N)) in *.
  set (pv := m_vecPacketPool (m_stNetPacketSendPrepareQueue N)) in *.
  assert (ptrs (lv ++ sv ++ pv ++ [b]) = ptrs (lv ++ sv ++ pv) ++ [p]) as Hptrs.
  { rewrite !ptrs_app, <- !app_assoc. unfold ptrs at 4. cbn. by rewrite Hb. }
  constructor; cbn [set_send m_stWriteLock m_stReadLock m_stSignalExec m_stNetPacketRecvQueue
    m_stNetPacketRecvPrepareQueue m_stNetPacketLogicQueue m_stNetPacketSendQueue
    m_stNetPacketSendPrepareQueue m_stNetPacketSendCache m_vecPacketPool]; try done; fold lv sv pv.
  - rewrite !app_assoc. apply Forall_app_2; [by rewrite <- app_assoc|]. constructor; [by eexists|constructor].
  - rewrite Hptrs. apply list.NoDup_app. split_and!; [done| |apply NoDup_singleton].
    intros q Hq ->%list_elem_of_singleton. by apply Hp, L10.
  - intros q. rewrite Hptrs, elem_of_app, list_elem_of_singleton, elem_of_union, elem_of_singleton.
    intros [Hq| ->]; [right; by apply L10|by left].
  - apply (queue_holds_frame P P' lv pks O); [done| | |done].
    + intros q Hq. apply L10. rewrite ptrs_app. apply elem_of_app. by left.
    + by apply Forall_app in L8 as [? _].
  - rewrite app_assoc. apply Forall2_app; [|constructor; [|constructor]].
    + apply (queue_holds_frame P P' _ replies O); [done| | |done].
      * intros q Hq. apply L10. rewrite ptrs_app. apply elem_of_app. by right.
      * by apply Forall_app in L8 as [_ ?].
    + rewrite Hpk. by destruct rp.
Qed.

(** PacketSendPrepare moves the replies to the send queue. *)
Lemma send_prepare_step P O N pks replies :
  logic_inv P O N pks replies → Z.of_nat (length replies) < 2147483648 →
  ∃ n N', PacketSendPrepare N = Ok (n, N') ∧ logic_inv P O N' pks replies ∧
    m_stNetPacketLogicQueue N' = m_stNetPacketLogicQueue N ∧
    m_vecPacketPool (m_stNetPacketSendPrepareQueue N') = [].
Proof.
  intros [L1 L2 L3 L4 L5 L6 L7 L8 L9 L10 L11 L12] Hlen. unfold PacketSendPrepare.
  rewrite (spinlock_lock_free _ L2), bind_Ok, CopyFrom_spec by done. cbv zeta.
  eexists _, _. split; [done|]. split; [|done].
  constructor; cbn [set_send set_write_lock m_stWriteLock m_stReadLock m_stSignalExec
    m_stNetPacketRecvQueue m_stNetPacketRecvPrepareQueue m_stNetPacketLogicQueue m_stNetPacketSendQueue
    m_stNetPacketSendPrepareQueue m_stNetPacketSendCache m_vecPacketPool m_iPacketNum queue_Init];
    rewrite ?app_nil_r; try done.
  pose proof (Forall2_length L12) as Hl. rewrite Hl, swrap_small by (simpl; lia).
  destruct (length replies) eqn:Er; [left|right; lia]. by apply nil_length_inv.
Qed.

Section Rounds.
Context {C S : Type} `{PacketOwner C S}.
Context (handle : (nat → Z) → nat → CPacketMemoryPool → NetworkContext → NetPacketBuffer →
                  res (NetworkContext * CPacketMemoryPool * nat)).
Context (wants fits : packet → Prop) `{∀ pk, Decision (wants pk)} (answers : packet → packet → Prop).
Context (promise : handler_promise handle wants fits answers).
Context (batch : Z → bool) (now : nat → Z) (fuel : nat) (os : nat → write_answer).
Context (Hos : pipe_answers fuel os).

(** The server between two steps: clients stay, commands to send are added. *)
Definition steps_to (s s' : S) : Prop :=
  sv_pool (owner_ctx s') = sv_pool (owner_ctx s) ∧ sv_clients (owner_ctx s') = sv_clients (owner_ctx s) ∧
  sv_next (owner_ctx s') = sv_next (owner_ctx s) ∧
  (owner_ready s → owner_ready s') ∧ ∃ c, owner_pipe s' = owner_pipe s ++ concat (replicate c send_cmd).

Lemma steps_to_refl s : steps_to s s.
Proof using. repeat (split; [done|]). exists 0%nat. by rewrite app_nil_r. Qed.

Lemma steps_to_trans s1 s2 s3 : steps_to s1 s2 → steps_to s2 s3 → steps_to s1 s3.
Proof using.
  intros (A1 & A2 & A3 & A4 & c1 & A5) (B1 & B2 & B3 & B4 & c2 & B5).
  split; [congruence|]. split; [congruence|]. split; [congruence|]. split; [auto|].
  exists (c1 + c2)%nat. by rewrite B5, A5, replicate_add, concat_app, app_assoc.
Qed.

Lemma update_net_steps s N P : steps_to s (update_net s N P).
Proof using.
  unfold update_net, steps_to. rewrite ctx_set_owner, pipe_set_owner. cbn [set_net sv_pool sv_clients sv_next].
  repeat (split; [done|]). split; [apply ready_set_owner|]. exists 0%nat. by rewrite app_nil_r.
Qed.

Definition holds_logic (s : S) (O : gset mem_ptr) (v : list NetPacketBuffer) (pks replies : list packet) : Prop :=
  logic_inv (sv_mem (owner_ctx s)) O (sv_net (owner_ctx s)) pks replies ∧
  m_vecPacketPool (m_stNetPacketLogicQueue (sv_net (owner_ctx s))) = v.

Lemma send_packets_step s O v pks replies j :
  holds_logic s O v pks replies → owner_ready s → Z.of_nat (length replies) < 2147483648 →
  ∃ s' j', OwnerSend fuel os j s = Ok (s', j') ∧ steps_to s s' ∧
    holds_logic s' O v pks replies ∧
    m_vecPacketPool (m_stNetPacketSendPrepareQueue (sv_net (owner_ctx s'))) = [] ∧
    owner_pipe s' = owner_pipe s ++ send_cmd.
Proof using Hos.
  intros [Hinv Hv] Hrdy Hlen.
  destruct (send_prepare_step _ _ _ _ _ Hinv Hlen) as (n & N' & E & Hinv' & Hl & Hprep).
  destruct (owner_sends fuel os j s n N' Hos Hrdy E) as (s' & j' & Es & Hp & Hc & Hr).
  exists s', j'. split; [done|]. split; [|split; [|split; [|done]]].
  - unfold steps_to. rewrite Hc. cbn [set_net sv_pool sv_clients sv_next].
    repeat (split; [done|]). exists 1%nat. rewrite Hp. cbn [replicate concat]. by rewrite app_nil_r.
  - unfold holds_logic. rewrite Hc. cbn [set_net sv_mem sv_net]. by rewrite Hl.
  - by rewrite Hc.
Qed.

(** One packet: the replies grow by its answer, if it wants one. *)
Lemma handle_step s O v pks1 pk pks2 replies b k :
  holds_logic s O v (pks1 ++ pk :: pks2) replies → fits pk →
  packet_of (sv_mem (owner_ctx s)) b = Ok pk →
  Forall2 answers (filter wants pks1) replies →
  ∃ N P k' O' replies', handle now k (sv_mem (owner_ctx s)) (sv_net (owner_ctx s)) b = Ok (N, P, k') ∧
    holds_logic (update_net s N P) O' v (pks1 ++ pk :: pks2) replies' ∧
    Forall2 answers (filter wants (pks1 ++ [pk])) replies'.
Proof using promise.
  intros [Hinv Hv] Hfit Hpk Hans.
  destruct (promise now k _ O (sv_net (owner_ctx s)) b pk (li_pool _ _ _ _ _ Hinv) Hpk Hfit) as [Hno Hyes].
  rewrite list.filter_app. rewrite (filter_cons wants). destruct (decide (wants pk)) as [Hw|Hw].
  - destruct (Hyes Hw) as (rp & N & P & k' & E & Ha & Hprod).
    destruct (produces_step _ _ _ _ _ _ _ _ Hinv Hprod) as (O' & Hinv' & Hl).
    exists N, P, k', O', (replies ++ [rp]). split; [done|]. split.
    + unfold holds_logic, update_net. rewrite ctx_set_owner. cbn [set_net sv_mem sv_net]. by rewrite Hl.
    + apply Forall2_app; [done|]. constructor; [done|constructor].
  - destruct (Hno Hw) as (k' & E). eexists _, _, k', O, replies. split; [done|]. split.
    + unfold holds_logic, update_net. rewrite ctx_set_owner. done.
    + rewrite filter_nil, app_nil_r. done.
Qed.

Lemma answers_length pks replies :
  Forall2 answers (filter wants pks) replies → (length replies <= length pks)%nat.
Proof using. intros Ha%Forall2_length. rewrite <- Ha. apply length_filter. Qed.

Lemma packet_loop_spec pks2 : ∀ v1 v2 pks1 s O replies i k j,
  holds_logic s O (v1 ++ v2) (pks1 ++ pks2) replies → length v1 = length pks1 →
  Forall fits pks2 → Forall2 answers (filter wants pks1) replies →
  owner_ready s → Z.of_nat (length (pks1 ++ pks2)) < 2147483648 →
  ∃ s' O' k' j' replies', packet_loop handle batch now fuel os v2 (length v2) i k j s = Ok (s', k', j') ∧
    steps_to s s' ∧ holds_logic s' O' (v1 ++ v2) (pks1 ++ pks2) replies' ∧
    Forall2 answers (filter wants (pks1 ++ pks2)) replies'.
Proof using promise Hos.
  induction pks2 as [|pk pks2 IH]; intros v1 v2 pks1 s O replies i k j Hh Hlen Hfits Hans Hrdy Hmax.
  - pose proof (li_logic _ _ _ _ _ (proj1 Hh)) as Hq. rewrite (proj2 Hh), app_nil_r in Hq.
    apply Forall2_length in Hq. rewrite length_app in Hq. destruct v2; [|cbn in Hq; lia].
    exists s, O, k, j, replies. split; [done|]. split; [apply steps_to_refl|].
    split; [exact Hh|]. by rewrite app_nil_r.
  - apply Forall_cons_1 in Hfits as [Hfit Hfits].
    pose proof (li_logic _ _ _ _ _ (proj1 Hh)) as Hq. rewrite (proj2 Hh) in Hq.
    apply Forall2_app_inv in Hq as [_ Hq]; [|done].
    inversion Hq as [|b ? v2' ? Hpk Hq' Ev Epk]; subst. cbn [packet_loop length].
    destruct (handle_step s O _ pks1 pk pks2 replies b k Hh Hfit Hpk Hans)
      as (N & P & k1 & O1 & replies1 & E & Hh1 & Hans1). rewrite E, bind_Ok.
    rewrite (cons_middle b), app_assoc, (cons_middle pk), app_assoc in Hh1 |- *.
    rewrite (cons_middle pk), app_assoc in Hmax.
    assert (length (v1 ++ [b]) = length (pks1 ++ [pk])) as Hlen1 by (rewrite !length_app; cbn; lia).
    pose proof (update_net_steps s N P) as Hst. pose proof Hst as (_ & _ & _ & Hrdy1 & _). specialize (Hrdy1 Hrdy).
    destruct (batch i).
    + destruct (send_packets_step (update_net s N P) O1 _ _ replies1 j Hh1 Hrdy1) as (s2 & j2 & -> & Hst2 & Hh2 & _).
      { pose proof (answers_length _ _ Hans1) as Hl. rewrite !length_app in *. lia. }
      rewrite bind_Ok. pose proof Hst2 as (_ & _ & _ & Hrdy2 & _).
      destruct (IH (v1 ++ [b]) v2' (pks1 ++ [pk]) s2 O1 replies1 (i + 1) k1 j2 Hh2 Hlen1 Hfits Hans1 (Hrdy2 Hrdy1) Hmax)
        as (s3 & O3 & k3 & j3 & replies3 & -> & Hst3 & Hh3 & Hans3).
      exists s3, O3, k3, j3, replies3. split; [done|]. split; [|done].
      by eapply steps_to_trans, steps_to_trans.
    + destruct (IH (v1 ++ [b]) v2' (pks1 ++ [pk]) (update_net s N P) O1 replies1 (i + 1) k1 j Hh1 Hlen1 Hfits Hans1 Hrdy1 Hmax)
        as (s3 & O3 & k3 & j3 & replies3 & -> & Hst3 & Hh3 & Hans3).
      exists s3, O3, k3, j3, replies3. split; [done|]. split; [|done]. by eapply steps_to_trans.
Qed.

(** What a round needs: packets in the receive queue, and the queues of the logic thread
    empty. *)
Record round_pre (s : S) (O : gset mem_ptr) (pks : list packet) : Prop := {
  rp_recv : recv_inv (sv_mem (owner_ctx s)) O (sv_net (owner_ctx s)) pks;
  rp_prepare : m_vecPacketPool (m_stNetPacketRecvPrepareQueue (sv_net (owner_ctx s))) = [];
  rp_write : unlocked (m_stWriteLock (sv_net (owner_ctx s)));
  rp_sendprep : m_vecPacketPool (m_stNetPacketSendPrepareQueue (sv_net (owner_ctx s))) = [];
  rp_send : m_vecPacketPool (m_stNetPacketSendQueue (sv_net (owner_ctx s))) = [];
  rp_cache : m_vecPacketPool (m_stNetPacketSendCache (sv_net (owner_ctx s))) = []
}.

(** Copying the packets to the logic queue. *)
Lemma copy_to_logic s O pks signal :
  round_pre s O pks → unlocked (s_lock signal) → Z.of_nat (length pks) < 2147483648 →
  ∃ N, CopyPacketsFromNetToLogic (set_signal (sv_net (owner_ctx s)) signal)
         = Ok (Z.of_nat (length pks), N) ∧
    logic_inv (sv_mem (owner_ctx s)) O N pks [] ∧
    m_stNetPacketLogicQueue N = mk_net_queue (Z.of_nat (length pks))
      (m_vecPacketPool (m_stNetPacketRecvQueue (sv_net (owner_ctx s)))).
Proof using.
  intros [[R1 R2 R3 R4 R5 R6 R7 R8] Hprep Hw H1' H2' H3'] Hsig Hlen.
  rewrite Hprep, app_nil_r in *. pose proof (Forall2_length R8) as Hl.
  unfold CopyPacketsFromNetToLogic. cbn [set_signal m_stReadLock].
  rewrite (spinlock_lock_free _ R2), bind_Ok, CopyFrom_spec by (by left). cbv zeta.
  cbn [set_signal m_stNetPacketRecvQueue queue_Init m_vecPacketPool app]. rewrite Hl.
  rewrite swrap_small by (simpl; lia). eexists. split; [done|].
  split; [|done].
  constructor; cbn [set_signal set_recv set_read_lock m_stReadLock m_stWriteLock m_stSignalExec
    m_stNetPacketRecvQueue m_stNetPacketRecvPrepareQueue m_stNetPacketLogicQueue m_stNetPacketSendQueue
    m_stNetPacketSendPrepareQueue m_stNetPacketSendCache m_vecPacketPool queue_Init];
    rewrite ?H1', ?H2', ?app_nil_r; try done.
  - by left.
  - constructor.
Qed.

(** Releasing the logic queue leaves the replies in the send queue. *)
Lemma release_logic s O v pks replies :
  holds_logic s O v pks replies →
  m_vecPacketPool (m_stNetPacketSendPrepareQueue (sv_net (owner_ctx s))) = [] →
  ∃ P' O', let N := sv_net (owner_ctx s) in
    ReleaseAllPackets (sv_mem (owner_ctx s)) (m_stNetPacketLogicQueue N)
      = Ok (mk_net_queue (m_iPacketNum (m_stNetPacketLogicQueue N)) [], P') ∧
    ∀ q, m_vecPacketPool q = [] → let N' := set_recv N (m_stNetPacketRecvPrepareQueue N) (m_stNetPacketRecvQueue N) q in
    send_inv P' O' N' replies ∧ recv_inv P' O' N' [].
Proof using.
  intros [[L1 L2 L3 L4 [L5 L5'] L6 L7 L8 L9 L10 L11 L12] Hv] Hprep. cbv zeta. rewrite Hprep, app_nil_r in *.
  set (N := sv_net (owner_ctx s)) in *. set (P := sv_mem (owner_ctx s)) in *.
  set (lv := m_vecPacketPool (m_stNetPacketLogicQueue N)) in *.
  set (sv := m_vecPacketPool (m_stNetPacketSendQueue N)) in *.
  apply Forall_app in L8 as [B1 B2]. rewrite ptrs_app in L9, L10.
  apply list.NoDup_app in L9 as (D1 & D2 & D3).
  destruct (release_packets_spec lv P O L1 B1 D1) as (P' & E & HI & Hf).
  { intros q Hq. apply L10, elem_of_app. by left. }
  assert (∀ q, q ∈ ptrs sv → q ∈ O ∖ list_to_set (ptrs lv)) as Hown.
  { intros q Hq. apply elem_of_difference. split; [apply L10, elem_of_app; by right|].
    rewrite elem_of_list_to_set. intros Hq'. by apply (D2 q). }
  exists P', (O ∖ list_to_set (ptrs lv)). unfold ReleaseAllPackets. fold lv. rewrite E, bind_Ok.
  split; [done|]. intros q Hq.
  split; constructor; cbn [set_recv m_stReadLock m_stWriteLock m_stSignalExec m_stNetPacketRecvQueue
    m_stNetPacketRecvPrepareQueue m_stNetPacketSendQueue m_stNetPacketSendCache];
    rewrite ?L5, ?L5', ?L6; cbn [app]; fold sv; try done; auto.
  - by apply (queue_holds_frame P P' sv replies (O ∖ list_to_set (ptrs lv))).
  - constructor.
  - apply NoDup_nil_2.
  - intros p Hp. by apply not_elem_of_nil in Hp.
  - constructor.
Qed.

(** What a round leaves: every packet that wants an answer has one, in order, in the send
    queue; at least one command to send is in the pipe; the memory of the packets is
    returned. *)
Definition round_post (s s' : S) (O' : gset mem_ptr) (pks replies : list packet) : Prop :=
  steps_to s s' ∧
  (∃ c, owner_pipe s' = owner_pipe s ++ concat (replicate (Datatypes.S c) send_cmd)) ∧
  Forall2 answers (filter wants pks) replies ∧
  send_inv (sv_mem (owner_ctx s')) O' (sv_net (owner_ctx s')) replies ∧
  recv_inv (sv_mem (owner_ctx s')) O' (sv_net (owner_ctx s')) [].

Lemma process_packets_spec s O pks k j :
  logic_inv (sv_mem (owner_ctx s)) O (sv_net (owner_ctx s)) pks [] →
  m_iPacketNum (m_stNetPacketLogicQueue (sv_net (owner_ctx s))) = Z.of_nat (length pks) →
  Forall fits pks → owner_ready s → Z.of_nat (length pks) < 2147483648 →
  ∃ s' O' k' j' replies,
    process_packets handle batch now fuel os (Z.of_nat (length pks)) k j s = Ok (s', k', j') ∧
    round_post s s' O' pks replies.
Proof using promise Hos.
  intros Hinv Hnum Hfits Hrdy Hlen. unfold process_packets.
  rewrite Hnum, Z.eqb_refl. cbn [c_assert]. rewrite bind_Ok.
  set (v := m_vecPacketPool (m_stNetPacketLogicQueue (sv_net (owner_ctx s)))).
  rewrite Nat2Z.id, <- (Forall2_length (li_logic _ _ _ _ _ Hinv)). fold v.
  destruct (packet_loop_spec pks [] v [] s O [] 0 k j (conj Hinv eq_refl) eq_refl Hfits (Forall2_nil_2 _ _ _) Hrdy Hlen)
    as (s1 & O1 & k1 & j1 & replies & -> & Hst1 & Hh1 & Hans). rewrite bind_Ok. cbn [app] in Hans.
  pose proof Hst1 as (_ & _ & _ & Hrdy1 & _).
  destruct (send_packets_step s1 O1 _ _ replies j1 Hh1 (Hrdy1 Hrdy)) as (s2 & j2 & -> & Hst2 & Hh2 & Hprep & Hpipe).
  { pose proof (answers_length _ _ Hans). lia. }
  rewrite bind_Ok. destruct (release_logic s2 O1 _ _ _ Hh2 Hprep) as (P' & O' & Er & Hrel).
  rewrite Er, !bind_Ok.
  specialize (Hrel (mk_net_queue (m_iPacketNum (m_stNetPacketLogicQueue (sv_net (owner_ctx s2)))) []) eq_refl).
  pose proof Hst1 as (_ & _ & _ & _ & c & Hc).
  eexists _, O', k1, j2, replies. split; [done|]. split; [|split; [|split; [done|]]].
  - eapply steps_to_trans; [eapply steps_to_trans; [exact Hst1|exact Hst2]|apply update_net_steps].
  - exists c. unfold update_net at 1. rewrite pipe_set_owner, Hpipe, Hc, <- app_assoc. f_equal.
    rewrite replicate_S_end, concat_app. cbn. by rewrite app_nil_r.
  - unfold update_net. rewrite ctx_set_owner. exact Hrel.
Qed.

Lemma process_signalled_spec s O pks k j :
  round_pre s O pks → Forall fits pks → owner_ready s → Z.of_nat (length pks) < 2147483648 →
  m_bHasSignal (m_stSignalExec (sv_net (owner_ctx s))) = true →
  ∃ s' O' k' j' replies,
    process_signalled (process_packets handle batch) now fuel os k j s
      = Ok (Z.of_nat (length pks), s', k', j') ∧ round_post s s' O' pks replies.
Proof using promise Hos.
  intros Hpre Hfits Hrdy Hlen Hsig. unfold process_signalled, CheckAndSetSignalActived.
  rewrite (spinlock_lock_free _ (ri_signal _ _ _ _ (rp_recv _ _ _ Hpre))), !bind_Ok, Hsig. cbn [negb].
  destruct (copy_to_logic s O pks (mk_signal (spinlock_unlock (mk_spinlock 1)) false) Hpre eq_refl Hlen)
    as (N & -> & Hinv & Hq). rewrite bind_Ok.
  set (s0 := update_net s N (sv_mem (owner_ctx s))).
  assert (owner_ctx s0 = set_net (owner_ctx s) N (sv_mem (owner_ctx s))) as Hc0 by apply ctx_set_owner.
  destruct (process_packets_spec s0 O pks k j) as (s' & O' & k' & j' & replies & -> & Hst & (c & Hp) & Hpost);
    [by rewrite Hc0|by rewrite Hc0; cbn; rewrite Hq|done|by apply ready_set_owner|done|].
  rewrite bind_Ok. exists s', O', k', j', replies. split; [done|]. split; [|split; [|done]].
  - eapply steps_to_trans; [apply update_net_steps|exact Hst].
  - exists c. by rewrite Hp; unfold s0, update_net; rewrite pipe_set_owner.
Qed.

End Rounds.

(** ** From the receive queue to the clients *)

(** Nothing waits to be sent. *)
Definition send_idle (N : NetworkContext) : Prop :=
  unlocked (m_stWriteLock N) ∧ m_vecPacketPool (m_stNetPacketSendPrepareQueue N) = [] ∧
  m_vecPacketPool (m_stNetPacketSendQueue N) = [] ∧ m_vecPacketPool (m_stNetPacketSendCache N) = [].

Lemma send_idle_same N N' : send_same N N' → send_idle N → send_idle N'.
Proof. intros (H0 & H1 & H2 & H3). unfold send_idle. by rewrite H0, H1, H2, H3. Qed.

Section AnswerRound.
Context {C S : Type} `{NertworkServer C S}.
Context (handle : (nat → Z) → nat → CPacketMemoryPool → NetworkContext → NetPacketBuffer →
                  res (NetworkContext * CPacketMemoryPool * nat)).
Context (wants fits : packet → Prop) `{∀ pk, Decision (wants pk)} (answers : packet → packet → Prop).
Context (promise : handler_promise handle wants fits answers).
Context (answers_sendable : ∀ pk rp, answers pk rp → sendable rp).
Context (batch : Z → bool).

Definition by_seq (W : ServerContext C) (pk : packet) : option nat := GetClient (sv_pool W) (pk_seq pk).

(** One round of the logic thread on [pks] and one command of the network thread. *)
Lemma answer_round now now' fuel os k j (s : S) O pks :
  pipe_answers fuel os → server_ready s → server_pipe s = [] → clients_live (server_ctx s) →
  recv_inv (sv_mem (server_ctx s)) O (sv_net (server_ctx s)) pks →
  m_stNetPacketRecvPrepareQueue (sv_net (server_ctx s)) = queue_Init → send_idle (sv_net (server_ctx s)) →
  m_bHasSignal (m_stSignalExec (sv_net (server_ctx s))) = true →
  Forall fits pks → Z.of_nat (length pks) < 2147483648 →
  ∃ s1 s2 k' j' replies out,
    process_signalled (process_packets handle batch) now fuel os k j s = Ok (Z.of_nat (length pks), s1, k', j') ∧
    ReceiveCmd now' s1 = Ok (s2, out) ∧
    Forall2 answers (filter wants pks) replies ∧
    concat (snd <$> out) =
      frames (stamped now' 1 (filter (fun rp => is_Some (by_seq (server_ctx s) rp)) replies)) ∧
    fst <$> out = omap (dest_fd (server_ctx s) (by_seq (server_ctx s))) replies.
Proof.
  intros Hos Hready Hpipe Hlive HR Hprep (Hw & Hi1 & Hi2 & Hi3) Hsig Hfits Hlen.
  destruct (process_signalled_spec handle wants fits answers promise batch now fuel os Hos s O pks k j)
    as (s1 & O1 & k1 & j1 & replies & E1 & Hst & (c & Hc) & Hans & Hsend & _); try done.
  { constructor; cbn [owner_ctx server_owner]; try done. by rewrite Hprep. }
  destruct Hst as (Hpool & Hcl & _ & Hr & _). cbn [owner_ctx owner_pipe owner_ready server_owner] in *.
  assert (Forall sendable replies) as Hsendable.
  { clear - Hans answers_sendable. induction Hans as [|pk rp l replies Ha _ IH]; constructor; eauto. }
  destruct (server_send_spec now' (server_ctx s1) O1 replies Hsend Hsendable) as (out & W' & E2 & Ho & Hfd & _).
  { intros seq p. rewrite Hpool, Hcl. apply Hlive. }
  rewrite Hpipe in Hc. cbn [replicate concat app] in Hc.
  destruct (recv_executes now' s1 _ W' out 0 (Hr Hready) Hc E2) as (s2 & E3 & _).
  exists s1, s2, k1, j1, replies, out. split; [done|]. split; [done|]. split; [done|].
  unfold by_seq. rewrite Hpool in Ho. split; [done|]. rewrite Hfd.
  apply list_omap_ext. apply list.Forall2_same_length_lookup. split; [done|].
  intros i x y Hx Hy. rewrite Hx in Hy. injection Hy as ->. unfold dest_fd. by rewrite Hpool, Hcl.
Qed.

End AnswerRound.

(** ** End to end *)

Section Peers.
Context (wants : packet → Prop) `{∀ pk, Decision (wants pk)} (answers : packet → packet → Prop).
Context (answers_peer : ∀ pk rp, answers pk rp → same_peer pk rp).

Lemma answers_seq pks replies :
  Forall2 answers (filter wants pks) replies →
  ∀ seq, Forall (fun pk => pk_seq pk = seq) pks → Forall (fun rp => pk_seq rp = seq) replies.
Proof using answers_peer.
  intros Hans seq Hseq. assert (Forall (fun pk => pk_seq pk = seq) (filter wants pks)) as Hf.
  { apply list.Forall_forall. intros pk [_ Hpk]%list_elem_of_filter. rewrite list.Forall_forall in Hseq. auto. }
  clear Hseq. induction Hans as [|pk rp l replies Ha _ IH]; [constructor|].
  apply Forall_cons_1 in Hf as [Hpk Hf]. apply answers_peer in Ha as [Hs _]. constructor; [congruence|auto].
Qed.

Lemma delivered_seq seq fd ms : Forall (fun pk => pk_seq pk = seq) (delivered seq fd ms).
Proof using. apply list.Forall_fmap, list.Forall_true. done. Qed.

Context (handle : (nat → Z) → nat → CPacketMemoryPool → NetworkContext → NetPacketBuffer →
                  res (NetworkContext * CPacketMemoryPool * nat)) (fits : packet → Prop).
Context (promise : handler_promise handle wants fits answers).
Context (answers_sendable : ∀ pk rp, answers pk rp → sendable rp) (batch : Z → bool).

(** What a handler promises for a packet, the libevent server does for a stream: the read
    callback, one round of the logic thread and one command of the network thread. *)
Lemma libevent_answers now now' now'' fuel os k j (s : LibeventServer) p fd seq O t avail ms tail :
  pipe_answers fuel os → server_ready s → lv_pipe s = [] →
  clients_live (lv_ctx s) → send_idle (sv_net (lv_ctx s)) →
  receiving (lv_ctx s) p fd seq O [] t → GetClient (sv_pool (lv_ctx s)) seq = Some p →
  t ++ avail = frames ms ++ tail → Forall msg_ok ms → partial tail → ms ≠ [] →
  Forall fits (delivered seq fd ms) → Z.of_nat (length ms) < 2147483648 →
  ∃ W1 s1 s2 k' j' replies out,
    OnBufferEventRead now (lv_ctx s) fd avail = Ok (W1, [], []) ∧
    process_signalled (process_packets handle batch) now' fuel os k j (set_server_ctx s W1)
      = Ok (Z.of_nat (length ms), s1, k', j') ∧
    ReceiveCmd now'' s1 = Ok (s2, out) ∧
    Forall2 answers (filter wants (delivered seq fd ms)) replies ∧
    concat (snd <$> out) = frames (stamped now'' 1 replies) ∧
    fst <$> out = replicate (length replies) fd.
Proof.
  intros Hos Hready Hpipe Hlive Hidle Hrcv Hseq E Hok Ht Hne Hfits Hlen.
  destruct (OnBufferEventRead_spec now (lv_ctx s) p fd seq O [] t avail ms tail Hrcv E Hok Ht Hlen)
    as (W1 & O1 & E1 & (_ & HR1 & c & Hc & _ & _ & Hcfd) & (Hpool & Hsame & Hcl) & Hprep & Hsig).
  destruct (answer_round handle wants fits answers promise answers_sendable
    batch now' now'' fuel os k j (set_server_ctx s W1) O1 (delivered seq fd ms))
    as (s1 & s2 & k' & j' & replies & out & E2 & E3 & Hans & Ho & Hfd); auto.
  { intros q q' Hq. cbn in Hq |- *. rewrite Hpool in Hq. by apply Hcl, (Hlive q). }
  { by apply (send_idle_same (sv_net (lv_ctx s))). }
  { unfold delivered. by rewrite length_fmap. }
  exists W1, s1, s2, k', j', replies, out. split; [done|]. split; [etrans; [exact E2|]; unfold delivered; by rewrite length_fmap|].
  split; [done|]. split; [done|].
  pose proof (answers_seq _ _ Hans seq (delivered_seq seq fd ms)) as Hrs. rewrite list.Forall_forall in Hrs.
  assert (∀ rp, rp ∈ replies → by_seq W1 rp = Some p) as Hby.
  { intros rp Hrp. unfold by_seq. by rewrite (Hrs rp Hrp), Hpool. }
  cbn [server_ctx libevent_network_server set_server_ctx lv_ctx] in Ho, Hfd. split.
  - rewrite Ho. f_equal. f_equal. apply filter_all. intros rp Hrp. rewrite Hby by done. by eexists.
  - rewrite Hfd. clear - Hby Hc Hcfd. induction replies as [|rp replies IH]; [done|].
    cbn [omap list_omap length replicate]. unfold dest_fd at 1. rewrite Hby by left. cbn [mbind option_bind].
    rewrite Hc. cbn [send_fd libevent_client mbind option_bind].
    change (GetContextBuffer c) with (lc_stContextBuffer c) in Hcfd. rewrite Hcfd. f_equal. apply IH.
    intros rp' Hrp'. apply Hby. by right.
Qed.

End Peers.

Section EndToEnd.
Context `{Protobuf CSHello} `{Protobuf CSHelloRsp} `{Protobuf SSHello} `{Protobuf SSHelloRsp}.

Lemma hello_peer pk rp : answers_hello pk rp → same_peer pk rp.
Proof. by intros [? _]. Qed.

Lemma hello_sendable pk rp : answers_hello pk rp → sendable rp.
Proof. intros (_ & Hp & Hl & _). split; [by rewrite Hp|done]. Qed.

Lemma ss_hello_peer pk rp : answers_ss_hello pk rp → same_peer pk rp.
Proof. by intros [? _]. Qed.

Lemma ss_hello_sendable pk rp : answers_ss_hello pk rp → sendable rp.
Proof. intros (_ & Hp & Hl & _). split; [by rewrite Hp|done]. Qed.

(** C17: the libevent server answers.  Let the server be idle but for an incomplete packet of
    the client (empty command pipe, nothing to be sent, empty receive queue), and let the
    replies to the hellos fit into 10240 bytes ([hello_fits]; an oversized reply stops the
    server).  When the bytes that wait on a registered connection complete well-formed packets,
    the read callback, one round of the logic thread and one command of
    the network thread, in this order, take them off the connection and write back, to the
    descriptor of this client, exactly one reply for each hello among them, in order, each
    framed with a time stamp; a reply is the encoding of a message with the identifier and the
    content of the hello as protobuf parsed it; packets with other protocol numbers are ignored. *)
Theorem hello_is_answered now now' now'' fuel os k j (s : LibeventServer) p fd seq O t avail ms tail :
  pipe_answers fuel os → server_ready s → lv_pipe s = [] →
  clients_live (lv_ctx s) → send_idle (sv_net (lv_ctx s)) →
  receiving (lv_ctx s) p fd seq O [] t → GetClient (sv_pool (lv_ctx s)) seq = Some p →
  t ++ avail = frames ms ++ tail → Forall msg_ok ms → partial tail → ms ≠ [] →
  Forall hello_fits (delivered seq fd ms) → Z.of_nat (length ms) < 2147483648 →
  ∃ W1 s1 s2 k' j' replies out,
    OnBufferEventRead now (lv_ctx s) fd avail = Ok (W1, [], []) ∧
    _ProcessCSNetworkPacket now' fuel os k j (set_server_ctx s W1)
      = Ok (Z.of_nat (length ms), s1, k', j') ∧
    ReceiveCmd now'' s1 = Ok (s2, out) ∧
    Forall2 answers_hello (filter is_hello (delivered seq fd ms)) replies ∧
    concat (snd <$> out) = frames (stamped now'' 1 replies) ∧
    fst <$> out = replicate (length replies) fd.
Proof.
  apply (libevent_answers is_hello answers_hello hello_peer HandleCSProto hello_fits HandleCSProto_promise
    hello_sendable cs_batch).
Qed.

(** C39: the socket server does not answer.  A client that was accepted by the socket server
    has the number 0 in its buffer, so its packets carry it; whatever hellos it sends, the
    handlers and the logic thread take them, but the command to send writes nothing, as
    long as no client is registered under 0. *)
Theorem socket_hello_unanswered now now' now'' fuel os k j (s : SocketServer) p fd O t (chunk : list Z) ms tail :
  pipe_answers fuel os → server_ready s → sk_pipe s = [] →
  clients_live (sk_ctx s) → send_idle (sv_net (sk_ctx s)) →
  receiving (sk_ctx s) p fd 0 O [] t → GetClient (sv_pool (sk_ctx s)) 0 = None →
  t ++ chunk = frames ms ++ tail → chunk ≠ [] → Z.of_nat (length t + length chunk) <= BUFFER_BYTES →
  Forall msg_ok ms → partial tail → ms ≠ [] →
  Forall hello_fits (delivered 0 fd ms) → Z.of_nat (length ms) < 2147483648 →
  ∃ W1 s1 s2 k' j',
    _ProcessMessageData 1 now (sk_ctx s) fd (mk_message fd (Z.of_nat (length chunk)) (Some chunk)) = Ok W1 ∧
    _ProcessCSNetworkPacket now' fuel os k j (set_server_ctx s W1)
      = Ok (Z.of_nat (length ms), s1, k', j') ∧
    ReceiveCmd now'' s1 = Ok (s2, []).
Proof.
  intros Hos Hready Hpipe Hlive Hidle Hrcv Hnone E Hch Hfit Hok Ht Hne Hfits Hlen.
  destruct (_ProcessMessageData_spec 0 now (sk_ctx s) p fd 0 O [] t fd chunk ms tail Hrcv Hch E Hok Ht Hfit Hlen)
    as (W1 & O1 & E1 & (_ & HR1 & _) & (Hpool & Hsame & Hcl) & Hprep & Hsig).
  destruct (answer_round HandleCSProto is_hello hello_fits answers_hello HandleCSProto_promise hello_sendable
    cs_batch now' now'' fuel os k j (set_server_ctx s W1) O1 (delivered 0 fd ms))
    as (s1 & s2 & k' & j' & replies & out & E2 & E3 & Hans & Ho & Hfd); auto.
  { intros q q' Hq. cbn in Hq |- *. rewrite Hpool in Hq. by apply Hcl, (Hlive q). }
  { by apply (send_idle_same (sv_net (sk_ctx s))). }
  { unfold delivered. by rewrite length_fmap. }
  assert (out = []) as ->.
  { pose proof (answers_seq is_hello answers_hello hello_peer _ _ Hans 0 (delivered_seq 0 fd ms)) as Hrs.
    enough (fst <$> out = []) by (by destruct out). rewrite Hfd. clear - Hrs Hnone Hpool.
    cbn [server_ctx socket_network_server set_server_ctx sk_ctx].
    induction Hrs as [|rp replies Hrp _ IH]; [done|]. cbn [omap list_omap]. unfold dest_fd at 1, by_seq at 1.
    rewrite Hrp. by rewrite Hpool, Hnone. }
  exists W1, s1, s2, k', j'. split; [done|]. split; [|done].
  etrans; [exact E2|]; unfold delivered; by rewrite length_fmap.
Qed.

End EndToEnd.

(** ** Witnesses *)

#[local] Instance demo_hello : Protobuf CSHello :=
  codec_protobuf (fun a : Z * list Z => mkCSHello a.1 a.2) (fun m => (hello_id m, hello_content m))
    (fun m => match m with mkCSHello _ _ => eq_refl end) (mkCSHello 0 []).
#[local] Instance demo_hello_rsp : Protobuf CSHelloRsp :=
  codec_protobuf (fun a : (Z * list Z) * (Z * Z) => mkCSHelloRsp a.1.1 a.1.2 a.2.1 a.2.2)
    (fun m => ((rsp_id m, rsp_content m), (unpack_timestamp m, logic_timestamp m)))
    (fun m => match m with mkCSHelloRsp _ _ _ _ => eq_refl end) (mkCSHelloRsp 0 [] 0 0).
#[local] Instance demo_ss : Protobuf SSHello :=
  codec_protobuf mkSSHello ss_timestamp (fun m => match m with mkSSHello _ => eq_refl end) (mkSSHello 0).
#[local] Instance demo_ss_rsp : Protobuf SSHelloRsp :=
  codec_protobuf mkSSHelloRsp ss_rsp_timestamp (fun m => match m with mkSSHelloRsp _ => eq_refl end)
    (mkSSHelloRsp 0).

(** A hello with the identifier 5 and the content 104 105, stamped; and another packet. *)
Definition demo_msgs : list (Z * list Z) :=
  [(CS_PROTOCOL_MESSAGE_ID_HELLO, enc (5, [104; 105]) ++ be_bytes 8 258); (3, [9])].

Lemma demo_fits seq fd : Forall hello_fits (delivered seq fd demo_msgs).
Proof.
  assert (∀ (h : Z * list Z), (length (enc h) <= 100)%nat →
    ∀ t1 t2, ByteSizeLong (mkCSHelloRsp h.1 h.2 (u64 t1) (u64 t2)) <= 10240) as Hsize.
  { intros [i c] Hh t1 t2. cbn [fst snd].
    change (ByteSizeLong (mkCSHelloRsp i c (u64 t1) (u64 t2)))
      with (Z.of_nat (length (enc (i, c) ++ enc (u64 t1) ++ enc (u64 t2)))).
    rewrite !length_app. pose proof (length_enc_u64 t1). pose proof (length_enc_u64 t2). lia. }
  repeat constructor; intros t1 t2.
  - apply (Hsize (5, [104; 105])). vm_compute. lia.
  - apply (Hsize (0, [])). vm_compute. lia.
Qed.

Lemma demo_pipe : pipe_answers 1 (fun _ => WOk 32).
Proof. intros j. exists 0%nat. split; [lia|]. split; [done|]. lia. Qed.

Lemma hello_is_answered_witness :
  ∃ W, OnListenerAcceptConnect lev_server_new 6 (Some 0%nat) 0 0 88 [49] =
      Ok (W, [BuffereventSocketNew 0 6; BuffereventSetcb 0; BuffereventEnable 0]) ∧
  ∃ W1 s1 s2 k' j' replies out,
    OnBufferEventRead (fun _ => 1) W 6 (frames demo_msgs) = Ok (W1, [], []) ∧
    _ProcessCSNetworkPacket (fun _ => 2) 1 (fun _ => WOk 32) 0 0 (mk_lserver [] true true true W1 [])
      = Ok (2, s1, k', j') ∧
    ReceiveCmd (fun _ => 3) s1 = Ok (s2, out) ∧
    Forall2 answers_hello (filter is_hello (delivered 88 6 demo_msgs)) replies ∧
    concat (snd <$> out) = frames (stamped (fun _ => 3) 1 replies) ∧
    fst <$> out = replicate (length replies) 6.
Proof.
  destruct (OnListenerAcceptConnect_spec lev_server_new ∅ [] 6 0 88 [49]) as (W & E & En & _ & Hseq & HR & Hlive);
    [apply (receiving_new 0 0)|done|done|].
  exists W. split; [exact E|].
  apply (hello_is_answered (fun _ => 1) (fun _ => 2) (fun _ => 3) 1 (fun _ => WOk 32) 0 0
    (mk_lserver [] true true true W []) 0 6 88 ∅ [] (frames demo_msgs) demo_msgs []).
  - apply demo_pipe.
  - done.
  - done.
  - apply Hlive. intros seq p Hp. vm_compute in Hp. discriminate Hp.
  - cbn [lv_ctx]. rewrite En. done.
  - exact HR.
  - exact Hseq.
  - by rewrite app_nil_r.
  - repeat constructor; vm_compute; done.
  - apply partial_nil.
  - done.
  - apply demo_fits.
  - cbn. lia.
Defined.

Lemma socket_hello_unanswered_witness :
  ∃ W1 s1 s2 k' j',
    _ProcessMessageData 1 (fun _ => 1) (server_with 77 5) 5
      (mk_message 5 (Z.of_nat (length (frames demo_msgs))) (Some (frames demo_msgs))) = Ok W1 ∧
    _ProcessCSNetworkPacket (fun _ => 2) 1 (fun _ => WOk 32) 0 0 (mk_sserver [] true true W1 [])
      = Ok (2, s1, k', j') ∧
    ReceiveCmd (fun _ => 3) s1 = Ok (s2, []).
Proof.
  apply (socket_hello_unanswered (fun _ => 1) (fun _ => 2) (fun _ => 3) 1 (fun _ => WOk 32) 0 0
    (mk_sserver [] true true (server_with 77 5) []) 0 5 ∅ [] (frames demo_msgs) demo_msgs []).
  - apply demo_pipe.
  - done.
  - done.
  - intros seq p. unfold GetClient. cbn. intros [_ <-]%lookup_singleton_Some. rewrite lookup_singleton_eq. by eexists.
  - done.
  - apply receiving_new.
  - done.
  - by rewrite app_nil_r.
  - done.
  - vm_compute. done.
  - repeat constructor; vm_compute; done.
  - apply partial_nil.
  - done.
  - apply demo_fits.
  - cbn. lia.
Defined.
