(* ===== verification/Connector.v ===== *)
(** * Connectors to other servers (src/network/connector.cpp, src/network/connector.h)

    A connector owns objects of libevent, a client context and a network context.  The
    objects of libevent are named by numbers, and freeing one twice is the fault
    [UseAfterFree].  What the system and libevent return is an argument, callbacks run in
    any order the argument of the loop gives. *)

From S2P Require Import Prelude Spinlock Unpack PacketPool Context SocketMessage ServerLogic Libevent.
From S2P Require Import Config NetCmd Codec GameLogic.

(** ** The class *)

Definition NEWTOWK_CONNECTOR_STATUS_UNCONNECT : Z := 0.
Definition NEWTOWK_CONNECTOR_STATUS_ALIVE : Z := 1.
Definition NEWTOWK_CONNECTOR_STATUS_DEAD : Z := 2.
Definition NEWTOWK_CONNECTOR_STATUS_CLOSED : Z := 3.

(** ConnectorContext, whose network context is in [cn_ctx]. *)
Record ConnectorContext := mk_cctx { cc_ulClientSeq : Z; cc_pstClientCtx : option nat }.

Record Connector := mk_conn {
  cn_stServerIPInfo : ST_ServerIPInfo;
  cn_pstEventBase : option nat;
  cn_pstBufferEvt : option nat;
  cn_pstWriteEvent : option nat;
  cn_pstClientCtx : option nat;
  cn_pstConnectorCtx : option ConnectorContext;
  (** The network context of *m_pstConnectorCtx, the client objects and the packet memory;
      a connector has no client table. *)
  cn_ctx : lev_server;
  cn_ulClientSeq : Z;
  cn_iSockFd : Z;
  cn_iStatus : Z;
  cn_pipe : list Z;               (** from m_iSendCtrlFd to m_iRecvCtrlFd *)
  cn_active : bool;               (** the write event is active *)
  cn_iHeartBeatCnt : Z
}.

Definition Connector_new (stServerIPInfo : ST_ServerIPInfo) (P : CPacketMemoryPool) : Connector :=
  mk_conn stServerIPInfo None None None None None (mk_server net_new (mk_cpool ∅ ∅) ∅ 0 P) 0 0
    NEWTOWK_CONNECTOR_STATUS_UNCONNECT [] false 0.

Definition set_status (c : Connector) (st : Z) : Connector :=
  mk_conn (cn_stServerIPInfo c) (cn_pstEventBase c) (cn_pstBufferEvt c) (cn_pstWriteEvent c)
    (cn_pstClientCtx c) (cn_pstConnectorCtx c) (cn_ctx c) (cn_ulClientSeq c) (cn_iSockFd c) st
    (cn_pipe c) (cn_active c) (cn_iHeartBeatCnt c).
Definition set_ctx (c : Connector) (W : lev_server) : Connector :=
  mk_conn (cn_stServerIPInfo c) (cn_pstEventBase c) (cn_pstBufferEvt c) (cn_pstWriteEvent c)
    (cn_pstClientCtx c) (cn_pstConnectorCtx c) W (cn_ulClientSeq c) (cn_iSockFd c) (cn_iStatus c)
    (cn_pipe c) (cn_active c) (cn_iHeartBeatCnt c).
Definition set_pipe (c : Connector) (pipe : list Z) (active : bool) : Connector :=
  mk_conn (cn_stServerIPInfo c) (cn_pstEventBase c) (cn_pstBufferEvt c) (cn_pstWriteEvent c)
    (cn_pstClientCtx c) (cn_pstConnectorCtx c) (cn_ctx c) (cn_ulClientSeq c) (cn_iSockFd c) (cn_iStatus c)
    pipe active (cn_iHeartBeatCnt c).
Definition set_beat (c : Connector) (n : Z) : Connector :=
  mk_conn (cn_stServerIPInfo c) (cn_pstEventBase c) (cn_pstBufferEvt c) (cn_pstWriteEvent c)
    (cn_pstClientCtx c) (cn_pstConnectorCtx c) (cn_ctx c) (cn_ulClientSeq c) (cn_iSockFd c) (cn_iStatus c)
    (cn_pipe c) (cn_active c) n.
Definition set_ptrs (c : Connector) (base bev write client : option nat) (ctx : option ConnectorContext)
    (W : lev_server) : Connector :=
  mk_conn (cn_stServerIPInfo c) base bev write client ctx W (cn_ulClientSeq c) (cn_iSockFd c) (cn_iStatus c)
    (cn_pipe c) (cn_active c) (cn_iHeartBeatCnt c).

Definition SetAlive (c : Connector) : Connector := set_status c NEWTOWK_CONNECTOR_STATUS_ALIVE.
Definition SetDead (c : Connector) : Connector := set_status c NEWTOWK_CONNECTOR_STATUS_DEAD.
Definition SetClosed (c : Connector) : Connector := set_status c NEWTOWK_CONNECTOR_STATUS_CLOSED.
Definition IsAlive (c : Connector) : bool := cn_iStatus c =? NEWTOWK_CONNECTOR_STATUS_ALIVE.
Definition IsDead (c : Connector) : bool := cn_iStatus c =? NEWTOWK_CONNECTOR_STATUS_DEAD.
Definition IsClosed (c : Connector) : bool := cn_iStatus c =? NEWTOWK_CONNECTOR_STATUS_CLOSED.

Definition ClientCtx (c : Connector) : res nat :=
  match cn_pstClientCtx c with Some p => Ok p | None => Fault AssertFail end.
Definition ConnectorCtx (c : Connector) : res ConnectorContext :=
  match cn_pstConnectorCtx c with Some x => Ok x | None => Fault AssertFail end.

(** [fd] is what socket returns, [seq] what SnowFlakeUUID generates, [bev] says whether
    bufferevent_socket_new succeeds. *)
Definition Create (c : Connector) (L : lev_objects) (fd seq : Z) (bev : bool)
    : bool * Connector * lev_objects :=
  let '(base, L) := event_base_new L in
  let c := mk_conn (cn_stServerIPInfo c) (Some base) (cn_pstBufferEvt c) (cn_pstWriteEvent c)
             (cn_pstClientCtx c) (cn_pstConnectorCtx c) (cn_ctx c) (cn_ulClientSeq c) fd (cn_iStatus c)
             (cn_pipe c) (cn_active c) (cn_iHeartBeatCnt c) in
  if fd <? 0 then (false, c, L)
  else
    let c := mk_conn (cn_stServerIPInfo c) (cn_pstEventBase c) (cn_pstBufferEvt c) (cn_pstWriteEvent c)
               (cn_pstClientCtx c) (cn_pstConnectorCtx c) (cn_ctx c) seq (cn_iSockFd c) (cn_iStatus c)
               (cn_pipe c) (cn_active c) (cn_iHeartBeatCnt c) in
    if negb bev then (false, c, L)
    else
      let '(b, L) := bufferevent_socket_new L in
      (true, set_ptrs c (cn_pstEventBase c) (Some b) (cn_pstWriteEvent c) (cn_pstClientCtx c)
               (cn_pstConnectorCtx c) (cn_ctx c), L).

(** [rc] is what bufferevent_socket_connect returns, [seq] the number of the new client,
    [ip] the text of the server's address. *)
Definition Connect (c : Connector) (L : lev_objects) (rc seq : Z) (ip : list Z)
    : res (bool * Connector * lev_objects) :=
  match cn_pstEventBase c, cn_pstBufferEvt c with
  | Some base, Some bev =>
      let '(w, L) := event_new L in
      let c := set_ptrs c (cn_pstEventBase c) (cn_pstBufferEvt c) (Some w) (cn_pstClientCtx c)
                 (cn_pstConnectorCtx c) (cn_ctx c) in
      if rc <? 0 then Ok (false, c, L)
      else
        let W := cn_ctx c in
        let p := sv_next W in
        let W := mk_server net_new (sv_pool W)
                   (<[p := LibeventClientCtx_new seq (cn_iSockFd c) bev ip]> (sv_clients W)) (S p) (sv_mem W) in
        Ok (true, set_ptrs c (cn_pstEventBase c) (cn_pstBufferEvt c) (cn_pstWriteEvent c) (Some p)
                    (Some (mk_cctx (cn_ulClientSeq c) (Some p))) W, L)
  | _, _ => Fault AssertFail
  end.

(** delete of a LibeventClientCtx: its destructor frees its bufferevent. *)
Definition delete_client (p : nat) (W : lev_server) (L : lev_objects) : res (lev_server * lev_objects) :=
  k ← client W p;
  L ← free_if bufferevent_free (lc_pstBufferEvent k) L;
  Ok (mk_server (sv_net W) (sv_pool W) (delete p (sv_clients W)) (sv_next W) (sv_mem W), L).

Definition Close (c : Connector) (L : lev_objects) : res (Connector * lev_objects) :=
  let c := SetClosed c in
  L ← free_if bufferevent_free (cn_pstBufferEvt c) L;
  L ← free_if event_base_free (cn_pstEventBase c) L;
  L ← free_if event_free (cn_pstWriteEvent c) L;
  '(W, L) ← match cn_pstClientCtx c with
            | Some p => delete_client p (cn_ctx c) L
            | None => Ok (cn_ctx c, L)
            end;
  Ok (set_ptrs c None None None None None W, L).

(** ** Callbacks *)

(** A refused packet is logged only. *)
Definition _OnConnectorBufferEventRead (now : nat → Z) (c : Connector) (avail : list Z)
    : res (Connector * list Z) :=
  _ ← ConnectorCtx c;
  p ← ClientCtx c;
  '(W, avail, _) ← read_loop (fun W => Ok (W, [])) (S (length avail)) now (cn_ctx c) p avail;
  Ok (set_ctx c W, avail).

Definition _OnConnectorBufferEventTrigger (c : Connector) (wEvent : Z) : Connector :=
  let c := if negb ((wEvent .& BEV_EVENT_TIMEOUT)%cint =? 0) then SetDead c else c in
  let c := if negb ((wEvent .& BEV_EVENT_EOF)%cint =? 0) then SetDead c else c in
  if negb ((wEvent .& BEV_EVENT_ERROR)%cint =? 0) then SetDead c else c.

(** ** Sending *)

(** The loop of SendNetworkPackets, as [write_cmd]; it stops when the connector is not
    alive, and makes the write event active after a write. *)
Fixpoint conn_write (fuel : nat) (os : nat → write_answer) (j : nat) (c : Connector) (cmd : list Z)
    : res (Connector * nat) :=
  match fuel with
  | O => Fault OutOfFuel
  | S fuel =>
      if negb (IsAlive c) then Ok (c, j)
      else
        match os j with
        | WErr _ => conn_write fuel os (S j) c cmd
        | WOk n => Ok (set_pipe c (cn_pipe c ++ take (Z.to_nat n) cmd) true, S j)
        end
  end.

Definition conn_SendNetworkPackets (fuel : nat) (os : nat → write_answer) (j : nat) (c : Connector)
    : res (Connector * nat) :=
  if negb (IsAlive c) then Ok (c, j)
  else
    let W := cn_ctx c in
    '(_, N) ← PacketSendPrepare (sv_net W);
    conn_write fuel os j (set_ctx c (set_net W N (sv_mem W)))
      (ST_NETWORK_CMD_REQUEST NETWORK_CMD_REQUEST_SEND_ALL_PACKET).

(** What a round of the select loop sees.  A read that returns 0 or less is [RErr]. *)
Inductive select_answer := SelError | SelTimeout | SelReady (a : read_answer).

(** One command of the pipe. *)
Definition conn_command (now : nat → Z) (c : Connector) (chBuffer : list Z)
    : res (Connector * list (Z * list Z)) :=
  let bchNetCmd := GetCmd chBuffer in
  if bchNetCmd =? NETWORK_CMD_REQUEST_SEND_ALL_PACKET then
    x ← ConnectorCtx c;
    '(_, out, W) ← connector_ExecuteCmdSendAllPacket now (cn_ctx c) (cc_pstClientCtx x);
    Ok (set_ctx c W, out)
  else if bchNetCmd =? NETWORK_CMD_REQUEST_CLOSE_SERVER then Ok (SetDead c, [])
  else Ok (c, []).

(** The select loop of ProcessSendNetworkPackets, one answer per round; [clock r] are the
    readings of the clock in round [r].  A read of an empty pipe blocks. *)
Fixpoint select_loop (clock : nat → nat → Z) (answers : list select_answer) (c : Connector) (chBuffer : list Z)
    : res (Connector * list (Z * list Z)) :=
  match answers with
  | [] => Fault OutOfFuel
  | SelError :: _ => Ok (SetDead c, [])
  | SelTimeout :: _ => Ok (c, [])
  | SelReady (RErr e) :: answers =>
      if e =? EINTR then select_loop (fun r => clock (S r)) answers c chBuffer else Ok (SetDead c, [])
  | SelReady ROk :: answers =>
      let got := take (Z.to_nat ST_NETWORK_CMD_REQUEST_MAX_SIZE) (cn_pipe c) in
      if decide (got = []) then Fault Deadlock
      else
        chBuffer ← mem_write chBuffer 0 got;
        let c := set_pipe c (drop (length got) (cn_pipe c)) (cn_active c) in
        if negb (IsAlive c) then Ok (c, [])
        else
          '(c, out) ← conn_command (clock 0%nat) c chBuffer;
          '(c, out') ← select_loop (fun r => clock (S r)) answers c chBuffer;
          Ok (c, out ++ out')
  end.

Definition ProcessSendNetworkPackets (clock : nat → nat → Z) (answers : list select_answer) (c : Connector)
    : res (Connector * list (Z * list Z)) :=
  _ ← ConnectorCtx c;
  if negb (IsAlive c) then Ok (c, [])
  else select_loop clock answers c (replicate (Z.to_nat ST_NETWORK_CMD_REQUEST_MAX_SIZE) 0).

(** The callback of the write event, which is then no longer active. *)
Definition _OnConnectorBufferEventWrite (clock : nat → nat → Z) (answers : list select_answer)
    (c : Connector) : res (Connector * list (Z * list Z)) :=
  ProcessSendNetworkPackets clock answers (set_pipe c (cn_pipe c) false).

Section HeartBeat.
Context `{Protobuf SSHello}.

(** [now 0] is the time of the message, [now 1] of its packet. *)
Definition HeartBeat (fuel : nat) (os : nat → write_answer) (j : nat) (now : nat → Z) (c : Connector)
    : res (Connector * nat) :=
  let c := set_beat c (i32 (cn_iHeartBeatCnt c + 1)) in
  if Z.rem (cn_iHeartBeatCnt c) 10000 =? 0 then
    let c := set_beat c 0 in
    match cn_pstConnectorCtx c with
    | None => Fault Undefined
    | Some _ =>
        let W := cn_ctx c in
        let stHello := mkSSHello (u64 (now 0%nat)) in
        '(N, P) ← PacketProduceProtobufPacket (sv_mem W) (sv_net W) (now 1%nat) (cn_ulClientSeq c) (cn_iSockFd c)
          SS_PROTOCOL_MESSAGE_ID_HELLO stHello;
        conn_SendNetworkPackets fuel os j (set_ctx c (set_net W N P))
    end
  else Ok (c, j).

(** ** The thread of a connector *)

(** Callbacks that event_base_loop runs, with the clock they read. *)
Inductive conn_event :=
| EvRead (now : nat → Z) (avail : list Z)
| EvTrigger (wEvent : Z)
| EvWrite (clock : nat → nat → Z) (answers : list select_answer).

Definition run_event (e : conn_event) (c : Connector) : res Connector :=
  match e with
  | EvRead now avail => '(c, _) ← _OnConnectorBufferEventRead now c avail; Ok c
  | EvTrigger wEvent => Ok (_OnConnectorBufferEventTrigger c wEvent)
  | EvWrite clock answers => '(c, _) ← _OnConnectorBufferEventWrite clock answers c; Ok c
  end.

Fixpoint run_events (es : list conn_event) (c : Connector) : res Connector :=
  match es with
  | [] => Ok c
  | e :: es => c ← run_event e c; run_events es c
  end.

(** while(IsAlive()): a heart beat, with its clock, and the callbacks of one turn. *)
Fixpoint main_loop (fuel : nat) (os : nat → write_answer) (j : nat)
    (turns : list ((nat → Z) * list conn_event)) (c : Connector) : res Connector :=
  if negb (IsAlive c) then Ok c
  else
    match turns with
    | [] => Fault OutOfFuel
    | (now, es) :: turns =>
        '(c, j) ← HeartBeat fuel os j now c;
        c ← run_events es c;
        main_loop fuel os j turns c
    end.

Definition conn_StartMainLoop (fuel : nat) (os : nat → write_answer)
    (turns : list ((nat → Z) * list conn_event)) (c : Connector) : res Connector :=
  match cn_pstEventBase c with
  | None => Fault AssertFail
  | Some _ => main_loop fuel os 0 turns c
  end.

(** The for loop of the attempts; [rc i] is what bufferevent_socket_connect returns to
    attempt [i]. *)
Fixpoint attempt_loop (n : nat) (i : nat) (rc : nat → Z) (seq : Z) (ip : list Z) (c : Connector)
    (L : lev_objects) : res (Connector * lev_objects) :=
  match n with
  | O => Ok (c, L)
  | S n =>
      '(ok, c, L) ← Connect c L (rc i) seq ip;
      if negb ok then attempt_loop n (S i) rc seq ip (SetDead c) L
      else Ok (SetAlive c, L)
  end.

Definition CONNECT_ATTEMPTS : nat := 30.

Definition ConnectorMainThread (fuel : nat) (os : nat → write_answer) (rc : nat → Z)
    (seq : Z) (ip : list Z) (turns : list ((nat → Z) * list conn_event)) (c : Connector) (L : lev_objects)
    : res (Connector * lev_objects) :=
  '(c, L) ← attempt_loop CONNECT_ATTEMPTS 0 rc seq ip c L;
  c ← conn_StartMainLoop fuel os turns c;
  '(c, L) ← Close c L;
  Ok (SetClosed c, L).

End HeartBeat.

(** [pipe] says whether CreatePipe succeeded. *)
Definition StartMainThread (pipe : bool) (c : Connector) : proc Connector :=
  if negb pipe then LOGCRITICAL;; Done c else Done (set_pipe c [] (cn_active c)).

(** ** The pool of connectors *)

(** std::map<uint64_t, Connector*>: the entries in the order of their keys. *)
Abbreviation conn_map := (list (Z * nat)).

Definition map_find (key : Z) (m : conn_map) : option nat := snd <$> find (fun e => e.1 =? key) m.

(** insert does nothing when the key is present. *)
Fixpoint map_insert (key : Z) (p : nat) (m : conn_map) : conn_map :=
  match m with
  | [] => [(key, p)]
  | (k, q) :: m' =>
      if key <? k then (key, p) :: m
      else if key =? k then m
      else (k, q) :: map_insert key p m'
  end.

Definition map_erase (key : Z) (m : conn_map) : conn_map := filter (fun e => e.1 ≠ key) m.

(** The pool, the connectors its entries point to and the objects of libevent. *)
Record ConnectorPool := mk_pool {
  m_stConnectorPool : conn_map;
  cp_connectors : gmap nat Connector;
  cp_lev : lev_objects
}.

Definition connector (S : ConnectorPool) (p : nat) : res Connector :=
  match cp_connectors S !! p with Some c => Ok c | None => Fault UseAfterFree end.

(** The element is built as a std::pair<int32_t, Connector*> and converted to the type of
    the map. *)
Definition AddConnector (S : ConnectorPool) (pstConnector : nat) : res (bool * ConnectorPool) :=
  c ← connector S pstConnector;
  let iClientSeq := cn_ulClientSeq c in
  match map_find iClientSeq (m_stConnectorPool S) with
  | Some _ => Ok (false, S)
  | None =>
      Ok (true, mk_pool (map_insert (u64 (i32 iClientSeq)) pstConnector (m_stConnectorPool S))
                  (cp_connectors S) (cp_lev S))
  end.

(** delete of a connector: its destructor closes it. *)
Definition delete_connector (S : ConnectorPool) (p : nat) : res ConnectorPool :=
  c ← connector S p;
  '(_, L) ← Close c (cp_lev S);
  Ok (mk_pool (m_stConnectorPool S) (delete p (cp_connectors S)) L).

Definition CloseConnector (S : ConnectorPool) (iClientSeq : Z) : res (bool * ConnectorPool) :=
  match map_find iClientSeq (m_stConnectorPool S) with
  | None => Ok (false, S)
  | Some p =>
      S ← delete_connector (mk_pool (map_erase iClientSeq (m_stConnectorPool S)) (cp_connectors S) (cp_lev S)) p;
      Ok (true, S)
  end.

Fixpoint alive_loop (S : ConnectorPool) (m : conn_map) (rvecContexQueue : list nat) : res (list nat) :=
  match m with
  | [] => Ok rvecContexQueue
  | (_, p) :: m =>
      c ← connector S p;
      alive_loop S m (if negb (IsAlive c) then rvecContexQueue else rvecContexQueue ++ [p])
  end.

Definition ProcessAliveConnectors (S : ConnectorPool) (rvecContexQueue : list nat) : res (list nat) :=
  alive_loop S (m_stConnectorPool S) rvecContexQueue.

(** After erase the loop goes on with the erased iterator. *)
Fixpoint closed_loop (S : ConnectorPool) (m : conn_map) : res ConnectorPool :=
  match m with
  | [] => Ok S
  | (k, p) :: m =>
      c ← connector S p;
      if IsClosed c then
        _ ← delete_connector (mk_pool (map_erase k (m_stConnectorPool S)) (cp_connectors S) (cp_lev S)) p;
        Fault UseAfterFree
      else closed_loop S m
  end.

Definition ProcessClosedConnectors (S : ConnectorPool) : res ConnectorPool :=
  closed_loop S (m_stConnectorPool S).

(** [p] is the address of the new object; [fd], [seq] and [bev] are as in [Create]. *)
Definition NewConnector (S : ConnectorPool) (p : nat) (rstServerIPInfo : ST_ServerIPInfo)
    (P : CPacketMemoryPool) (fd seq : Z) (bev : bool) : res (option nat * ConnectorPool) :=
  let '(ok, c, L) := Create (Connector_new rstServerIPInfo P) (cp_lev S) fd seq bev in
  let S := mk_pool (m_stConnectorPool S) (<[p := c]> (cp_connectors S)) L in
  if negb ok then
    S ← delete_connector S p;
    Ok (None, S)
  else
    '(_, S) ← AddConnector S p;
    Ok (Some p, S).

(** ** The objects of libevent during the life of a connector *)

(** [inv_res], through the patterns of pairs and the conditions. *)
Ltac inv_run :=
  repeat (progress inv_res || match goal with
  | H : match ?a with (_, _) => _ end = Ok _ |- _ => destruct a eqn:?
  | H : (if ?b then _ else _) = Ok _ |- _ => destruct b eqn:?
  | H : match ?o with Some _ => _ | None => _ end = Ok _ |- _ => destruct o eqn:?
  end).

(** The bufferevents of the client objects. *)
Definition bevs (W : lev_server) : gmap nat (option nat) := lc_pstBufferEvent <$> sv_clients W.

(** What [Close] frees. *)
Definition owned (c : Connector) :=
  (cn_pstEventBase c, cn_pstBufferEvt c, cn_pstWriteEvent c, cn_pstClientCtx c, bevs (cn_ctx c)).

Lemma client_Ok (W : lev_server) p k : client W p = Ok k → sv_clients W !! p = Some k.
Proof. unfold client. destruct (sv_clients W !! p); by intros [= ->]. Qed.

Lemma bevs_set_client (W : lev_server) p k b :
  client W p = Ok k → bevs (set_client W p (SetContextBuffer k b)) = bevs W.
Proof.
  intros Hk%client_Ok. unfold bevs. cbn [set_client sv_clients]. rewrite fmap_insert. apply insert_id.
  by rewrite lookup_fmap, Hk.
Qed.

Lemma bevs_client_read W p avail r W' avail' :
  client_read W p avail = Ok (r, W', avail') → bevs W' = bevs W.
Proof. unfold client_read. intros E. inv_run. by apply bevs_set_client. Qed.

Lemma bevs_recv now W p r W' : ExecuteCmdRecvAllPacket now W p = Ok (r, W') → bevs W' = bevs W.
Proof. unfold ExecuteCmdRecvAllPacket. intros E. inv_run. by apply (bevs_set_client W p a). Qed.

Lemma bevs_read_loop fuel now p : ∀ W avail W' avail' log,
  read_loop (fun W => Ok (W, [])) fuel now W p avail = Ok (W', avail', log) → bevs W' = bevs W.
Proof.
  induction fuel as [|fuel IH]; intros W avail W' avail' log E; [done|]. cbn [read_loop] in E. inv_run;
    repeat match goal with
    | H : client_read _ _ _ = Ok _ |- _ => apply bevs_client_read in H
    | H : ExecuteCmdRecvAllPacket _ _ _ = Ok _ |- _ => apply bevs_recv in H
    | H : read_loop _ _ _ _ _ _ = Ok _ |- _ => apply IH in H
    end; congruence.
Qed.

(** Sending keeps the clients and what is not ready to be sent. *)
Lemma send_loop_frame {now target} : ∀ fuel k (W : lev_server) r out W',
  send_loop fuel now k W target = Ok (r, out, W') →
  sv_clients W' = sv_clients W ∧
  m_stNetPacketSendPrepareQueue (sv_net W') = m_stNetPacketSendPrepareQueue (sv_net W).
Proof.
  induction fuel as [|fuel IH]; intros k W r out W' E; [done|]. cbn [send_loop] in E.
  unfold PacketSendPrepareCache in E. inv_run; [|done].
  match goal with H : send_loop _ _ _ _ _ = Ok _ |- _ => by apply IH in H end.
Qed.

Lemma connector_send_frame now (W : lev_server) p r out W' :
  connector_ExecuteCmdSendAllPacket now W p = Ok (r, out, W') →
  sv_clients W' = sv_clients W ∧
  m_stNetPacketSendPrepareQueue (sv_net W') = m_stNetPacketSendPrepareQueue (sv_net W).
Proof.
  unfold connector_ExecuteCmdSendAllPacket, PacketSendPrepareCache. intros E. inv_run; [|done].
  match goal with H : send_loop _ _ _ _ _ = Ok _ |- _ => by apply send_loop_frame in H end.
Qed.

Lemma bevs_send now (W : lev_server) p r out W' :
  connector_ExecuteCmdSendAllPacket now W p = Ok (r, out, W') → bevs W' = bevs W.
Proof. intros [E _]%connector_send_frame. unfold bevs. by rewrite E. Qed.

Lemma owned_set_ctx c W : bevs W = bevs (cn_ctx c) → owned (set_ctx c W) = owned c.
Proof. intros E. unfold owned. cbn. by rewrite E. Qed.

Lemma owned_command now c buf c' out : conn_command now c buf = Ok (c', out) → owned c' = owned c.
Proof.
  unfold conn_command. intros E. inv_run; try done. apply owned_set_ctx. by eapply bevs_send.
Qed.

Lemma owned_select : ∀ answers clock c buf c' out,
  select_loop clock answers c buf = Ok (c', out) → owned c' = owned c.
Proof.
  induction answers as [|a answers IH]; intros clock c buf c' out E; [done|]. cbn [select_loop] in E.
  destruct a as [| |[e|]].
  - by injection E as <- _.
  - by injection E as <- _.
  - inv_run; [by eapply IH|done].
  - inv_run; [done|].
    repeat match goal with
    | H : select_loop _ _ _ _ = Ok _ |- _ => apply IH in H
    | H : conn_command _ _ _ = Ok _ |- _ => apply owned_command in H
    end. etrans; [eassumption|]. etrans; [eassumption|]. done.
Qed.

Lemma owned_process clock answers c c' out :
  ProcessSendNetworkPackets clock answers c = Ok (c', out) → owned c' = owned c.
Proof. unfold ProcessSendNetworkPackets. intros E. inv_run; [done|]. by eapply owned_select. Qed.

Lemma owned_event e c c' : run_event e c = Ok c' → owned c' = owned c.
Proof.
  destruct e; cbn [run_event]; intros E.
  - unfold _OnConnectorBufferEventRead in E. inv_run. apply owned_set_ctx. by eapply bevs_read_loop.
  - injection E as <-. unfold _OnConnectorBufferEventTrigger. by repeat case_match.
  - inv_run. by apply owned_process in Ha.
Qed.

Lemma owned_events es : ∀ c c', run_events es c = Ok c' → owned c' = owned c.
Proof.
  induction es as [|e es IH]; intros c c' E; cbn [run_events] in E; inv_run; [done|].
  apply owned_event in Ha. apply IH in E. congruence.
Qed.

Lemma owned_write fuel os cmd : ∀ j c c' j',
  conn_write fuel os j c cmd = Ok (c', j') → owned c' = owned c.
Proof.
  induction fuel as [|fuel IH]; intros j c c' j' E; [done|]. cbn [conn_write] in E.
  destruct (IsAlive c); cbn [negb] in E; [|by inv_res]. destruct (os j); [by eapply IH|by inv_res].
Qed.

Lemma owned_send fuel os j c c' j' :
  conn_SendNetworkPackets fuel os j c = Ok (c', j') → owned c' = owned c.
Proof.
  unfold conn_SendNetworkPackets. intros E. inv_run; [done|]. apply owned_write in E. by rewrite E.
Qed.

Section Life.
Context `{Protobuf SSHello}.

Lemma owned_beat fuel os j now c c' j' : HeartBeat fuel os j now c = Ok (c', j') → owned c' = owned c.
Proof. unfold HeartBeat. intros E. inv_run; [|done]. apply owned_send in E. by rewrite E. Qed.

Lemma owned_loop fuel os turns : ∀ j c c',
  main_loop fuel os j turns c = Ok c' → owned c' = owned c.
Proof.
  induction turns as [|[now es] turns IH]; intros j c c' E; cbn [main_loop] in E; inv_run; try done.
  match goal with H : HeartBeat _ _ _ _ _ = Ok _ |- _ => apply owned_beat in H end.
  match goal with H : run_events _ _ = Ok _ |- _ => apply owned_events in H end.
  apply IH in E. congruence.
Qed.

(** A connector that is connected: its bufferevent is also its client's. *)
Record connected (c : Connector) (L : lev_objects) : Prop := {
  cd_base : ∃ n, cn_pstEventBase c = Some n ∧ n ∈ live_base L;
  cd_write : ∃ n, cn_pstWriteEvent c = Some n ∧ n ∈ live_event L;
  cd_bev : ∃ b p, cn_pstBufferEvt c = Some b ∧ b ∈ live_bev L ∧ cn_pstClientCtx c = Some p ∧
             bevs (cn_ctx c) !! p = Some (Some b)
}.

Lemma connected_owned c c' L : owned c' = owned c → connected c L → connected c' L.
Proof using.
  intros E [Hb Hw Hv]. unfold owned in E. injection E as E1 E2 E3 E4 E5.
  constructor; rewrite ?E1, ?E2, ?E3, ?E4, ?E5; done.
Qed.

(** [Close] frees the bufferevent, and the destructor of the client frees it again. *)
Lemma Close_connected c L : connected c L → Close c L = Fault UseAfterFree.
Proof using.
  intros [(n & Hb & Hn) (w & Hw & Hwl) (b & p & Hv & Hbl & Hp & Hbev)].
  unfold Close. cbn [SetClosed set_status cn_pstEventBase cn_pstBufferEvt cn_pstWriteEvent cn_pstClientCtx cn_ctx].
  rewrite Hb, Hv, Hw, Hp. cbn [free_if]. unfold bufferevent_free at 1. rewrite decide_True, bind_Ok by done.
  unfold event_base_free. rewrite decide_True, bind_Ok by done.
  unfold event_free. rewrite decide_True, bind_Ok by done.
  unfold delete_client, client. unfold bevs in Hbev. rewrite lookup_fmap in Hbev.
  destruct (sv_clients (cn_ctx c) !! p) as [k|] eqn:Hk; [|done]. injection Hbev as Hkb.
  rewrite bind_Ok, Hkb. cbn [free_if]. unfold bufferevent_free. cbn [live_bev].
  rewrite decide_False; [done|]. by rewrite elem_of_difference, elem_of_singleton; intros [_ ?].
Qed.

(** A connector before [Connect]. *)
Record created (c : Connector) (L : lev_objects) : Prop := {
  cr_base : ∃ n, cn_pstEventBase c = Some n ∧ n ∈ live_base L;
  cr_bev : ∃ b, cn_pstBufferEvt c = Some b ∧ b ∈ live_bev L
}.

Lemma Connect_created c L rc seq ip : created c L →
  ∃ c' L', Connect c L rc seq ip = Ok (negb (rc <? 0), c', L') ∧ created c' L' ∧
    (0 <= rc → connected c' L').
Proof using.
  intros [(n & Hb & Hn) (b & Hv & Hbl)]. unfold Connect. rewrite Hb, Hv. unfold event_new.
  destruct (Z.ltb_spec rc 0) as [Hrc|Hrc]; cbn [negb]; eexists _, _; (split; [done|]); (split; [by split; eauto|]).
  - lia.
  - intros _. constructor; cbn.
    + eauto.
    + eexists. split; [done|]. set_solver.
    + eexists _, _. split; [done|]. split; [done|]. split; [done|].
      unfold bevs. cbn [sv_clients]. by rewrite fmap_insert, lookup_insert_eq.
Qed.

Lemma attempt_loop_connected rc seq ip n : ∀ i c L,
  created c L → (∃ d, (d < n)%nat ∧ 0 <= rc (i + d)%nat) →
  ∃ c' L', attempt_loop n i rc seq ip c L = Ok (c', L') ∧ IsAlive c' = true ∧ connected c' L'.
Proof using.
  induction n as [|n IH]; intros i c L Hc (d & Hd & Hrc); [lia|]. cbn [attempt_loop].
  destruct (Connect_created c L (rc i) seq ip Hc) as (c1 & L1 & -> & Hc1 & Hcon). rewrite bind_Ok.
  destruct (Z.ltb_spec (rc i) 0) as [Hlt|Hge]; cbn [negb].
  - destruct d as [|d]; [rewrite Nat.add_0_r in Hrc; lia|].
    apply (IH (S i) (SetDead c1) L1); [destruct Hc1; by split|]. exists d. split; [lia|].
    by rewrite Nat.add_succ_comm.
  - exists (SetAlive c1), L1. split; [done|]. split; [done|].
    apply (connected_owned c1); [done|]. by apply Hcon.
Qed.

Lemma Create_created info P L fd seq : 0 <= fd →
  ∃ c L', Create (Connector_new info P) L fd seq true = (true, c, L') ∧ created c L'.
Proof using.
  intros Hfd. unfold Create. cbn [event_base_new bufferevent_socket_new].
  rewrite (proj2 (Z.ltb_ge _ _) Hfd). cbn [negb]. eexists _, _. split; [done|].
  split; cbn; eexists; (split; [done|]); set_solver.
Qed.

(** C38: the thread of a connector that was connected frees its bufferevent twice.  When one
    of the thirty attempts to connect succeeds, the connector becomes alive, and however its
    main loop ends (the peer closes, an error, a command), whatever packets came and went,
    [Close] then frees the bufferevent and deletes the client, whose destructor frees the
    same bufferevent again. *)
Theorem connector_frees_bufferevent_twice fuel os rc cseq seq ip turns info P L fd :
  0 <= fd → (∃ i, (i < CONNECT_ATTEMPTS)%nat ∧ 0 <= rc i) →
  ∃ c0 L0 c1 L1, Create (Connector_new info P) L fd cseq true = (true, c0, L0) ∧
    attempt_loop CONNECT_ATTEMPTS 0 rc seq ip c0 L0 = Ok (c1, L1) ∧ IsAlive c1 = true ∧
    ∀ c2, conn_StartMainLoop fuel os turns c1 = Ok c2 →
      ConnectorMainThread fuel os rc seq ip turns c0 L0 = Fault UseAfterFree.
Proof.
  intros Hfd (i & Hi & Hrc). destruct (Create_created info P L fd cseq Hfd) as (c0 & L0 & E0 & Hc0).
  destruct (attempt_loop_connected rc seq ip CONNECT_ATTEMPTS 0 c0 L0 Hc0) as (c1 & L1 & E1 & Ha & Hcon).
  { by exists i. }
  exists c0, L0, c1, L1. split; [done|]. split; [done|]. split; [done|]. intros c2 E2.
  unfold ConnectorMainThread. rewrite E1, bind_Ok, E2, bind_Ok.
  rewrite (Close_connected c2 L1); [done|]. apply (connected_owned c1); [|done].
  unfold conn_StartMainLoop in E2. inv_run. by eapply owned_loop.
Qed.

(** [n] failed attempts leave one more event each; only the last is remembered. *)
Lemma attempt_loop_fails rc seq ip n : ∀ i c L,
  created c L → (∀ d, (d < n)%nat → rc (i + d)%nat < 0) →
  ∃ c' L', attempt_loop n i rc seq ip c L = Ok (c', L') ∧
    cn_pstEventBase c' = cn_pstEventBase c ∧ cn_pstBufferEvt c' = cn_pstBufferEvt c ∧
    cn_pstClientCtx c' = cn_pstClientCtx c ∧
    live_base L' = live_base L ∧ live_bev L' = live_bev L ∧
    live_event L' = live_event L ∪ list_to_set (List.seq (lev_next L) n) ∧
    (n = 0%nat ∧ c' = c ∨ IsAlive c' = false ∧ cn_pstWriteEvent c' = Some (lev_next L + n - 1)%nat).
Proof using.
  induction n as [|n IH]; intros i c L Hc Hrc.
  - exists c, L. cbn. rewrite union_empty_r_L. auto 10.
  - pose proof (Hrc 0%nat ltac:(lia)) as H0. rewrite Nat.add_0_r in H0. cbn [attempt_loop].
    destruct Hc as [(nb & Hb & Hn) (b & Hv & Hbl)]. unfold Connect. rewrite Hb, Hv. cbn [event_new].
    rewrite (proj2 (Z.ltb_lt _ _) H0), bind_Ok. cbn [negb].
    match goal with |- context [attempt_loop n _ _ _ _ ?c1 ?L1] =>
      destruct (IH (S i) c1 L1) as (c' & L' & -> & E1 & E2 & E3 & E4 & E5 & E6 & E7) end.
    + split; cbn; rewrite ?Hb, ?Hv; eauto.
    + intros d Hd. rewrite Nat.add_succ_comm. apply Hrc. lia.
    + exists c', L'. cbn [SetDead set_status set_ptrs cn_pstEventBase cn_pstBufferEvt cn_pstClientCtx
        cn_pstWriteEvent live_base live_bev live_event lev_next] in *.
      do 6 (split; [congruence|]). split.
      * rewrite E6. cbn [List.seq list_to_set]. by rewrite (union_comm_L {[_]}), union_assoc_L.
      * right. destruct E7 as [[-> ->]|[Ha Hw]]; [|split; [done|]; rewrite Hw; f_equal; lia].
        split; [done|]. cbn. f_equal. lia.
Qed.

Lemma union_difference_fresh `{Countable A} (x : A) (X : gset A) : x ∉ X → ({[x]} ∪ X) ∖ {[x]} = X.
Proof using.
  intros Hx. rewrite difference_union_distr_l_L, difference_diag_L, union_empty_l_L.
  by apply difference_disjoint_L, disjoint_singleton_r.
Qed.

Lemma union_difference_middle (x : nat) (X Y : gset nat) :
  x ∉ X → x ∉ Y → (X ∪ ({[x]} ∪ Y)) ∖ {[x]} = X ∪ Y.
Proof using.
  intros HX HY. rewrite union_assoc_L, (union_comm_L X), <- union_assoc_L.
  apply union_difference_fresh. by rewrite not_elem_of_union.
Qed.

Lemma main_loop_dead fuel os j turns c : IsAlive c = false → main_loop fuel os j turns c = Ok c.
Proof. intros Ha. destruct turns as [|[? ?] ?]; cbn [main_loop]; by rewrite Ha. Qed.

(** Objects have numbers below the next one. *)
Definition lev_fresh (L : lev_objects) : Prop :=
  ∀ n, n ∈ live_base L ∪ live_bev L ∪ live_event L → (n < lev_next L)%nat.

(** Closing a connector that has no client frees what it has. *)
Lemma Close_unconnected c L b n w :
  cn_pstEventBase c = Some b → cn_pstBufferEvt c = Some n → cn_pstWriteEvent c = Some w →
  cn_pstClientCtx c = None → b ∈ live_base L → n ∈ live_bev L → w ∈ live_event L →
  ∃ c', Close c L = Ok (c', mk_lev (live_base L ∖ {[b]}) (live_bev L ∖ {[n]}) (live_event L ∖ {[w]}) (lev_next L)) ∧
    IsClosed c' = true.
Proof using.
  intros Hb Hn Hw Hk Hbl Hnl Hwl. unfold Close.
  cbn [SetClosed set_status cn_pstEventBase cn_pstBufferEvt cn_pstWriteEvent cn_pstClientCtx cn_ctx].
  rewrite Hb, Hn, Hw, Hk. cbn [free_if].
  unfold bufferevent_free. rewrite decide_True, bind_Ok by done.
  unfold event_base_free. rewrite decide_True, bind_Ok by done.
  unfold event_free. rewrite decide_True, !bind_Ok by done. by eexists.
Qed.

Lemma seq_set_S a n :
  list_to_set (C := gset nat) (List.seq a (S n)) = {[(a + n)%nat]} ∪ list_to_set (List.seq a n).
Proof using.
  rewrite seq_S, list_to_set_app_L. cbn [list_to_set]. by rewrite union_empty_r_L, union_comm_L.
Qed.

(** When no attempt succeeds the thread ends with the connector closed: its base and its
    bufferevent are freed, and the events of all attempts but the last remain. *)
Theorem unreachable_server_leaks_events fuel os rc cseq seq ip turns info P L fd :
  0 <= fd → (∀ i, rc i < 0) → lev_fresh L →
  ∃ c0 L0 c1 L1, Create (Connector_new info P) L fd cseq true = (true, c0, L0) ∧
    ConnectorMainThread fuel os rc seq ip turns c0 L0 = Ok (c1, L1) ∧ IsClosed c1 = true ∧
    live_base L1 = live_base L ∧ live_bev L1 = live_bev L ∧
    live_event L1 = live_event L ∪ list_to_set (List.seq (lev_next L + 2) 29).
Proof.
  intros Hfd Hrc Hf. unfold Create. cbn [event_base_new bufferevent_socket_new].
  rewrite (proj2 (Z.ltb_ge _ _) Hfd). cbn [negb].
  match goal with |- context [(true, ?c, ?L)] => set (c0 := c); set (L0 := L) end.
  destruct (attempt_loop_fails rc seq ip CONNECT_ATTEMPTS 0 c0 L0) as
    (c' & L' & E & Eb & Ev & Ek & EL1 & EL2 & EL3 & [[? _]|[Ha Hw]]); [|done|done|].
  { split; cbn; eexists; (split; [done|]); by apply elem_of_union_l, elem_of_singleton. }
  change (List.seq (lev_next L0) CONNECT_ATTEMPTS) with (List.seq (S (S (lev_next L))) (S 29)) in EL3.
  rewrite seq_set_S in EL3.
  assert (cn_pstWriteEvent c' = Some (S (S (lev_next L)) + 29)%nat) as Hw'.
  { rewrite Hw. f_equal. unfold CONNECT_ATTEMPTS. subst L0. cbn [lev_next]. lia. }
  destruct (Close_unconnected c' L' _ _ _ Eb Ev Hw' Ek) as (c2 & Ec & Hcl).
  { rewrite EL1. by apply elem_of_union_l, elem_of_singleton. }
  { rewrite EL2. by apply elem_of_union_l, elem_of_singleton. }
  { rewrite EL3. by apply elem_of_union_r, elem_of_union_l, elem_of_singleton. }
  exists c0, L0. unfold ConnectorMainThread. rewrite E, bind_Ok. unfold conn_StartMainLoop. rewrite Eb.
  cbn [c0 set_ptrs cn_pstEventBase]. rewrite main_loop_dead, bind_Ok, Ec, bind_Ok by done.
  eexists _, _. split; [done|]. split; [done|]. split; [done|]. cbn [live_base live_bev live_event].
  rewrite EL1, EL2, EL3. cbn [L0 live_base live_bev live_event].
  assert (∀ k, (lev_next L + k)%nat ∉ live_base L ∪ live_bev L ∪ live_event L) as Hnew.
  { intros k Hk. apply Hf in Hk. lia. }
  split; [|split].
  - apply union_difference_fresh. specialize (Hnew 0%nat). rewrite Nat.add_0_r, !not_elem_of_union in Hnew. tauto.
  - apply union_difference_fresh. specialize (Hnew 1%nat). rewrite Nat.add_1_r, !not_elem_of_union in Hnew. tauto.
  - rewrite union_difference_middle.
    + by rewrite (Nat.add_comm (lev_next L)).
    + specialize (Hnew 31%nat). replace (lev_next L + 31)%nat with (S (S (lev_next L)) + 29)%nat in Hnew by lia.
      rewrite !not_elem_of_union in Hnew. tauto.
    + rewrite elem_of_list_to_set, list_elem_of_In, in_seq. lia.
Qed.

End Life.

(** ** Heart beats *)

Lemma conn_write_ok fuel os j c cmd :
  pipe_answers fuel os → IsAlive c = true → length cmd = 32%nat →
  ∃ j', conn_write fuel os j c cmd = Ok (set_pipe c (cn_pipe c ++ cmd) true, j').
Proof.
  intros Hos Ha Hlen. destruct (write_cmd_ok fuel os j (cn_pipe c) cmd Hos Hlen) as (j' & E). exists j'.
  clear Hos. revert j E. induction fuel as [|fuel IH]; intros j E; [done|]. cbn [write_cmd conn_write] in *.
  rewrite Ha. cbn [negb]. destruct (os j); [by apply IH|]. injection E as E <-. by rewrite E.
Qed.

(** To the logic thread a connector that is alive is the owner of its context. *)
#[export, refine] Instance connector_owner : PacketOwner LibeventClientCtx Connector := {|
  owner_pipe := cn_pipe;
  owner_ctx := cn_ctx;
  set_owner_ctx := set_ctx;
  owner_ready := fun c => IsAlive c = true;
  OwnerSend := conn_SendNetworkPackets
|}.
Proof.
  - done.
  - done.
  - done.
  - intros fuel os j c n N Hos Ha E. unfold conn_SendNetworkPackets. rewrite Ha, E. cbn [negb]. rewrite bind_Ok.
    destruct (conn_write_ok fuel os j (set_ctx c (set_net (cn_ctx c) N (sv_mem (cn_ctx c)))) send_cmd Hos Ha
      (length_request _)) as (j' & ->). by eexists _, j'.
Defined.

(** One packet, produced when nothing waits, is ready to be sent. *)
Lemma send_one P O N rp N1 P1 :
  pool_inv P O → send_idle N → produces P N rp N1 P1 →
  ∃ n N2 q b, PacketSendPrepare N1 = Ok (n, N2) ∧ m_pstMemory b = Some q ∧ (q ∉ O) ∧
    m_vecPacketPool (m_stNetPacketSendCache N2) = [] ∧ m_vecPacketPool (m_stNetPacketSendQueue N2) = [b] ∧
    m_vecPacketPool (m_stNetPacketSendPrepareQueue N2) = [] ∧ send_inv P1 ({[q]} ∪ O) N2 [rp].
Proof.
  intros HI (Hw & Hprep & Hq & Hcache) (now & n & src & q' & _ & Hn & Hr & E & ->).
  destruct (AddPacket_spec P O (m_stNetPacketSendPrepareQueue N) now (pk_seq rp) (pk_fd rp) (pk_proto rp)
    n src (pk_body rp) HI Hn Hr) as (q & P2 & b & E' & Hb & Hp & HI' & _ & Hpk).
  rewrite E in E'. injection E' as -> <-. unfold PacketSendPrepare.
  cbn [set_send m_stWriteLock]. rewrite (spinlock_lock_free _ Hw), bind_Ok.
  rewrite CopyFrom_spec by (left; exact Hq). cbv zeta.
  cbn [set_send m_stNetPacketSendQueue m_stNetPacketSendPrepareQueue m_vecPacketPool]. rewrite Hq, Hprep.
  cbn [app]. eexists _, _, q, b. split; [done|]. split; [done|]. split; [done|].
  cbn [set_write_lock set_send m_stNetPacketSendCache m_stNetPacketSendQueue m_stNetPacketSendPrepareQueue
       m_vecPacketPool queue_Init]. split; [done|]. split; [done|]. split; [done|].
  assert (ptrs [b] = [q]) as Hptrs by (unfold ptrs; cbn; by rewrite Hb).
  constructor; cbn [set_write_lock set_send m_stNetPacketSendCache m_stNetPacketSendQueue
    m_stNetPacketSendPrepareQueue m_stWriteLock m_vecPacketPool queue_Init]; rewrite ?Hcache; cbn [app];
    rewrite ?Hptrs.
  - done.
  - done.
  - by left.
  - constructor; [by eexists|constructor].
  - apply NoDup_singleton.
  - intros x ->%list_elem_of_singleton. by apply elem_of_union_l, elem_of_singleton.
  - constructor; [|constructor]. rewrite Hpk. by destruct rp.
Qed.

Section Beats.
Context `{Protobuf SSHello}.

(** [n] heart beats; [clock t] is the clock of beat [t]. *)
Fixpoint beats (fuel : nat) (os : nat → write_answer) (j : nat) (clock : nat → nat → Z) (n : nat)
    (c : Connector) : res (Connector * nat) :=
  match n with
  | O => Ok (c, j)
  | S n =>
      '(c, j) ← HeartBeat fuel os j (clock 0%nat) c;
      beats fuel os j (fun t => clock (S t)) n c
  end.

Definition beat_fits : Prop := ∀ t, ByteSizeLong (mkSSHello (u64 t)) <= 10240.

(** A connector that is alive and has nothing to send; [k] is its client. *)
Record conn_idle (c : Connector) (O : gset mem_ptr) (p : nat) (k : LibeventClientCtx) : Prop := {
  ci_alive : IsAlive c = true;
  ci_ctx : ∃ x, cn_pstConnectorCtx c = Some x ∧ cc_pstClientCtx x = Some p;
  ci_client : sv_clients (cn_ctx c) !! p = Some k;
  ci_send : send_idle (sv_net (cn_ctx c));
  ci_pool : pool_inv (sv_mem (cn_ctx c)) O;
  ci_pipe : cn_pipe c = []
}.

(** Beats before the last of a period only count. *)
Lemma beats_quiet fuel os n : ∀ j clock c,
  0 <= cn_iHeartBeatCnt c → cn_iHeartBeatCnt c + Z.of_nat n < 10000 →
  beats fuel os j clock n c = Ok (set_beat c (cn_iHeartBeatCnt c + Z.of_nat n), j).
Proof.
  induction n as [|n IH]; intros j clock c H0 Hn; cbn [beats].
  - rewrite Z.add_0_r. by destruct c.
  - unfold HeartBeat. cbn [set_beat cn_iHeartBeatCnt]. rewrite swrap_small by (simpl; lia).
    rewrite Z.rem_small by lia. rewrite (proj2 (Z.eqb_neq _ _)) by lia. rewrite bind_Ok.
    rewrite IH by (cbn; lia). cbn [set_beat cn_iHeartBeatCnt].
    by replace (cn_iHeartBeatCnt c + Z.of_nat (S n)) with (cn_iHeartBeatCnt c + 1 + Z.of_nat n) by lia.
Qed.

(** What the last beat of a period leaves: one hello to send and the command to send it. *)
Lemma HeartBeat_sends fuel os j now c O p k :
  pipe_answers fuel os → beat_fits → conn_idle c O p k → cn_iHeartBeatCnt c = 9999 →
  ∃ c' j' rp q b, HeartBeat fuel os j now c = Ok (c', j') ∧
    IsAlive c' = true ∧ cn_pstConnectorCtx c' = cn_pstConnectorCtx c ∧
    sv_clients (cn_ctx c') = sv_clients (cn_ctx c) ∧
    cn_pipe c' = ST_NETWORK_CMD_REQUEST NETWORK_CMD_REQUEST_SEND_ALL_PACKET ∧
    cn_iHeartBeatCnt c' = 0 ∧
    pk_proto rp = SS_PROTOCOL_MESSAGE_ID_HELLO ∧ sendable rp ∧
    ParseFromArray (pk_body rp) = (mkSSHello (u64 (now 0%nat)), true) ∧
    Z.of_nat (length (pk_body rp)) = ByteSizeLong (mkSSHello (u64 (now 0%nat))) ∧
    let N := sv_net (cn_ctx c') in
    m_pstMemory b = Some q ∧ (q ∉ O) ∧ m_vecPacketPool (m_stNetPacketSendCache N) = [] ∧
    m_vecPacketPool (m_stNetPacketSendQueue N) = [b] ∧
    m_vecPacketPool (m_stNetPacketSendPrepareQueue N) = [] ∧
    send_inv (sv_mem (cn_ctx c')) ({[q]} ∪ O) N [rp].
Proof.
  intros Hos Hfits [Ha (x & Hx & Hxp) Hk Hs HI Hp] Hcnt.
  unfold HeartBeat. cbn [set_beat cn_iHeartBeatCnt]. rewrite Hcnt. change (i32 (9999 + 1)) with 10000.
  change (Z.rem 10000 10000 =? 0) with true. cbv iota.
  cbn [set_beat cn_pstConnectorCtx cn_ctx cn_ulClientSeq cn_iSockFd]. rewrite Hx.
  destruct (PacketProduceProtobufPacket_spec (sv_mem (cn_ctx c)) O (sv_net (cn_ctx c)) (now 1%nat)
    (cn_ulClientSeq c) (cn_iSockFd c) SS_PROTOCOL_MESSAGE_ID_HELLO _ HI (Hfits (now 0%nat)))
    as (rp & N1 & P1 & -> & _ & _ & Hpr & (Hparse & Hsize & _) & Hprod). rewrite bind_Ok.
  destruct (send_one _ _ _ _ _ _ HI Hs Hprod) as (n & N2 & q & b & E & Hq).
  unfold conn_SendNetworkPackets. change (IsAlive (set_ctx _ _)) with (IsAlive c). rewrite Ha. cbn [negb].
  cbn [set_ctx cn_ctx set_net sv_net sv_mem]. rewrite E, bind_Ok.
  match goal with |- context [conn_write _ _ _ ?c1 ?cmd] =>
    destruct (conn_write_ok fuel os j c1 cmd Hos Ha (length_request _)) as (j' & ->) end.
  cbn [set_ctx cn_pipe set_beat]. rewrite Hp. cbn [app].
  eexists _, j', rp, q, b. split; [done|]. split; [exact Ha|]. split; [done|]. split; [done|].
  split; [done|]. split; [done|]. split; [done|]. split; [|split; [done|split; [done|exact Hq]]].
  split; [by rewrite Hpr|]. by destruct Hprod as (? & ? & ? & ? & ? & _).
Qed.

(** The write event then runs the command. *)
Lemma write_event_sends clock c p x k O rp q b :
  IsAlive c = true → cn_pstConnectorCtx c = Some x → cc_pstClientCtx x = Some p →
  sv_clients (cn_ctx c) !! p = Some k → sendable rp →
  cn_pipe c = ST_NETWORK_CMD_REQUEST NETWORK_CMD_REQUEST_SEND_ALL_PACKET →
  m_pstMemory b = Some q → q ∉ O → m_vecPacketPool (m_stNetPacketSendCache (sv_net (cn_ctx c))) = [] →
  m_vecPacketPool (m_stNetPacketSendQueue (sv_net (cn_ctx c))) = [b] →
  m_vecPacketPool (m_stNetPacketSendPrepareQueue (sv_net (cn_ctx c))) = [] →
  send_inv (sv_mem (cn_ctx c)) ({[q]} ∪ O) (sv_net (cn_ctx c)) [rp] →
  ∃ c', _OnConnectorBufferEventWrite clock [SelReady ROk; SelTimeout] c
      = Ok (c', [(cb_iClientFd (lc_stContextBuffer k),
                  frame (pk_proto rp) (pk_body rp ++ be_bytes 8 (clock 0%nat 1%nat)))]) ∧
    conn_idle c' O p k ∧ cn_iHeartBeatCnt c' = cn_iHeartBeatCnt c.
Proof.
  intros Ha Hx Hxp Hk Hsend Hpipe Hb Hq Hcache Hqueue Hprep Hinv.
  destruct (connector_send_spec (clock 0%nat) (cn_ctx c) _ [rp] p Hinv) as (out & W' & E & Hs & Ho & Hfd);
    [by eexists|by constructor|].
  pose proof (connector_send_frame _ _ _ _ _ _ E) as [Hcl Hpq].
  unfold _OnConnectorBufferEventWrite, ProcessSendNetworkPackets, ConnectorCtx. cbn [set_pipe cn_pstConnectorCtx].
  rewrite Hx, bind_Ok. change (IsAlive (set_pipe _ _ _)) with (IsAlive c). rewrite Ha. cbn [negb select_loop].
  cbn [set_pipe cn_pipe cn_active]. rewrite Hpipe.
  change (Z.to_nat ST_NETWORK_CMD_REQUEST_MAX_SIZE) with 32%nat.
  destruct (read_cmd_request (replicate 32 0) [] NETWORK_CMD_REQUEST_SEND_ALL_PACKET) as (Ht & Hd & Hsp); [done|].
  rewrite app_nil_r in Ht, Hd. rewrite Ht, length_request, Hd.
  rewrite decide_False by (intros Hnil; by apply (f_equal length) in Hnil).
  rewrite mem_write_Ok by (rewrite ?length_request, ?length_replicate; lia). rewrite bind_Ok.
  change (Z.to_nat 0) with 0%nat. rewrite Hsp.
  change (IsAlive (set_pipe _ _ _)) with (IsAlive c). rewrite Ha. cbn [negb].
  unfold conn_command. rewrite GetCmd_request. change (u8 NETWORK_CMD_REQUEST_SEND_ALL_PACKET) with 83.
  change (83 =? NETWORK_CMD_REQUEST_SEND_ALL_PACKET) with true. cbv iota.
  unfold ConnectorCtx. cbn [set_pipe cn_pstConnectorCtx cn_ctx]. rewrite Hx, bind_Ok, Hxp, E, !bind_Ok.
  rewrite app_nil_r.
  assert (out = [(cb_iClientFd (lc_stContextBuffer k),
                  frame (pk_proto rp) (pk_body rp ++ be_bytes 8 (clock 0%nat 1%nat)))]) as ->.
  { cbn in Hfd. unfold dest_fd in Hfd. cbn in Hfd. rewrite Hk in Hfd. cbn in Hfd.
    destruct out as [|[fd bytes] [|]]; try done. injection Hfd as ->. cbn [fmap list_fmap concat snd] in Ho.
    rewrite app_nil_r in Ho. rewrite Ho. unfold frames, stamped. cbn. by rewrite app_nil_r. }
  eexists. split; [done|]. split; [|done]. constructor; cbn [set_pipe set_ctx cn_ctx cn_pipe cn_pstConnectorCtx].
  - exact Ha.
  - by exists x.
  - by rewrite Hcl.
  - destruct Hs as [_ S2 _ _ _ _ S7]. apply Forall2_nil_inv_r, app_eq_nil in S7 as [S7 S8].
    split; [done|]. rewrite Hpq. done.
  - destruct Hs as [S1 _ _ _ _ _ _]. revert S1. rewrite Hcache, Hqueue. cbn [app]. unfold ptrs. cbn. rewrite Hb.
    cbn. rewrite union_empty_r_L. intros S1. by rewrite union_difference_fresh in S1.
  - done.
Qed.

Lemma beats_add fuel os n m : ∀ j clock c,
  beats fuel os j clock (n + m) c =
  '(c, j) ← beats fuel os j clock n c; beats fuel os j (fun t => clock (n + t)%nat) m c.
Proof.
  induction n as [|n IH]; intros j clock c; cbn [beats Nat.add]; [done|].
  destruct (HeartBeat fuel os j (clock 0%nat) c) as [[c1 j1]|]; [|done]. rewrite !bind_Ok. apply IH.
Qed.

(** One period of heart beats. *)
Lemma heartbeat_period fuel os j clock wclock c O p k n :
  pipe_answers fuel os → beat_fits → conn_idle c O p k →
  0 <= cn_iHeartBeatCnt c → cn_iHeartBeatCnt c + Z.of_nat n = 9999 →
  ∃ c1 j1 c2 body, beats fuel os j clock (n + 1) c = Ok (c1, j1) ∧
    _OnConnectorBufferEventWrite wclock [SelReady ROk; SelTimeout] c1
      = Ok (c2, [(cb_iClientFd (lc_stContextBuffer k),
                  frame SS_PROTOCOL_MESSAGE_ID_HELLO (body ++ be_bytes 8 (wclock 0%nat 1%nat)))]) ∧
    ParseFromArray body = (mkSSHello (u64 (clock n 0%nat)), true) ∧
    Z.of_nat (length body) = ByteSizeLong (mkSSHello (u64 (clock n 0%nat))) ∧
    conn_idle c2 O p k ∧ cn_iHeartBeatCnt c2 = 0.
Proof.
  intros Hos Hfits Hidle H0 Hn. rewrite beats_add, beats_quiet by lia. rewrite bind_Ok. cbn [beats].
  replace (n + 0)%nat with n by lia.
  destruct (HeartBeat_sends fuel os j (clock n) (set_beat c (cn_iHeartBeatCnt c + Z.of_nat n)) O p k Hos Hfits)
    as (c1 & j1 & rp & q & b & -> & Ha & Hx & Hcl & Hp & Hc0 & Hproto & Hs & Hparse & Hsize & Hb & Hq & Hrest).
  { destruct Hidle. by constructor. }
  { cbn. lia. }
  rewrite bind_Ok. destruct Hidle as [_ (x & Hx' & Hxp) Hk _ _ _]. destruct Hrest as (R1 & R2 & R3 & R4).
  destruct (write_event_sends wclock c1 p x k O rp q b Ha) as (c2 & E & Hi & Hc2); try done.
  { by rewrite Hx. }
  { by rewrite Hcl. }
  exists c1, j1, c2, (pk_body rp). rewrite E, Hproto, Hc2. done.
Qed.

(** A connector that has nothing else to send greets its peer at every ten thousandth
    heart beat.  The beats before it only count; the one that completes the ten thousand
    queues a hello with the time and a command to send, and the write event it makes active
    then writes exactly one frame to the descriptor of the connection, which holds this
    hello and a time stamp.  Afterwards the connector is idle again with the counter at 0,
    so the greetings repeat; the packet memory is returned. *)
Theorem heartbeat_greets_peer fuel os j clock wclock c O p k n :
  pipe_answers fuel os → beat_fits → conn_idle c O p k →
  0 <= cn_iHeartBeatCnt c → cn_iHeartBeatCnt c + Z.of_nat n = 9999 →
  (∀ m, (m <= n)%nat → beats fuel os j clock m c = Ok (set_beat c (cn_iHeartBeatCnt c + Z.of_nat m), j)) ∧
  ∃ c1 j1 c2 body, beats fuel os j clock (n + 1) c = Ok (c1, j1) ∧
    _OnConnectorBufferEventWrite wclock [SelReady ROk; SelTimeout] c1
      = Ok (c2, [(cb_iClientFd (lc_stContextBuffer k),
                  frame SS_PROTOCOL_MESSAGE_ID_HELLO (body ++ be_bytes 8 (wclock 0%nat 1%nat)))]) ∧
    ParseFromArray body = (mkSSHello (u64 (clock n 0%nat)), true) ∧
    conn_idle c2 O p k ∧ cn_iHeartBeatCnt c2 = 0.
Proof.
  intros Hos Hfits Hidle H0 Hn. split; [intros m Hm; apply beats_quiet; lia|].
  destruct (heartbeat_period fuel os j clock wclock c O p k n Hos Hfits Hidle H0 Hn)
    as (c1 & j1 & c2 & body & E1 & E2 & Hp & _ & Hi & Hc). exists c1, j1, c2, body. done.
Qed.

End Beats.

(** ** The pool *)

(** A closed connector in the pool: the loop goes on with an erased iterator, or the
    deletion itself fails; without one the pool stays as it is. *)
Theorem ProcessClosedConnectors_spec (S : ConnectorPool) :
  Forall (fun e => is_Some (cp_connectors S !! e.2)) (m_stConnectorPool S) →
  (Exists (fun e => ∃ c, cp_connectors S !! e.2 = Some c ∧ IsClosed c = true) (m_stConnectorPool S) →
   ∃ f, ProcessClosedConnectors S = Fault f) ∧
  (Forall (fun e => ∀ c, cp_connectors S !! e.2 = Some c → IsClosed c = false) (m_stConnectorPool S) →
   ProcessClosedConnectors S = Ok S).
Proof.
  unfold ProcessClosedConnectors. generalize (m_stConnectorPool S) at 1 2 3 4 5. intros m Hm.
  induction Hm as [|[key q] m [c Hc] _ [IH1 IH2]]; cbn [closed_loop].
  { split; [by intros ?%Exists_nil|done]. }
  cbn [snd] in Hc. unfold connector. rewrite Hc, bind_Ok. split.
  - intros Hex. destruct (IsClosed c) eqn:Hcl.
    + destruct (delete_connector _ q) as [?|f]; [by eexists|by exists f].
    + apply Exists_cons in Hex as [(c' & Hc' & Hcl')|Hex]; [|by apply IH1].
      cbn in Hc'. rewrite Hc in Hc'. injection Hc' as <-. by rewrite Hcl in Hcl'.
  - intros [Hcl Hall]%Forall_cons_1. rewrite (Hcl c Hc). by apply IH2.
Qed.

Lemma map_find_cons key k q m :
  map_find key ((k, q) :: m) = if k =? key then Some q else map_find key m.
Proof. unfold map_find. cbn. by destruct (k =? key). Qed.

Lemma map_find_insert key key' p m : map_find key m = None →
  map_find key' (map_insert key p m) = if key =? key' then Some p else map_find key' m.
Proof.
  induction m as [|[k q] m IH]; intros Hm; cbn [map_insert]; [by rewrite map_find_cons|].
  rewrite map_find_cons in Hm. destruct (Z.eqb_spec k key) as [->|Hk]; [done|].
  destruct (key <? k); [by rewrite map_find_cons|].
  rewrite (proj2 (Z.eqb_neq key k)), !map_find_cons, IH by done.
  destruct (Z.eqb_spec k key') as [->|]; [|done]. by rewrite (proj2 (Z.eqb_neq key key')).
Qed.

Lemma i32_range z : - 2 ^ 31 <= i32 z < 2 ^ 31.
Proof.
  unfold swrap. pose proof (Z.mod_pos_bound z (2 ^ 32) ltac:(lia)). cbn [Z.sub] in *.
  destruct (Z.ltb_spec (z mod 2 ^ 32) (2 ^ (32 - 1))); lia.
Qed.

(** The key of a connector is its number through a signed 32-bit integer.  A number below
    2^31 is found again; one from there on, as nearly all generated numbers are, is not:
    the connector cannot be closed by its number. *)
Theorem AddConnector_spec (S : ConnectorPool) p c :
  cp_connectors S !! p = Some c → let seq := cn_ulClientSeq c in 0 <= seq →
  map_find seq (m_stConnectorPool S) = None → map_find (u64 (i32 seq)) (m_stConnectorPool S) = None →
  ∃ S', AddConnector S p = Ok (true, S') ∧
    (seq < 2 ^ 31 → map_find seq (m_stConnectorPool S') = Some p) ∧
    (2 ^ 31 <= seq < 2 ^ 64 - 2 ^ 31 → CloseConnector S' seq = Ok (false, S')).
Proof.
  intros Hc seq H0 Hf Hf'. unfold AddConnector, connector. rewrite Hc, bind_Ok. fold seq. rewrite Hf.
  eexists. split; [done|]. cbn [m_stConnectorPool]. split.
  - intros Hs. rewrite swrap_small by (simpl; lia). rewrite wrap_small by lia.
    rewrite map_find_insert by done. by rewrite Z.eqb_refl.
  - intros Hs. unfold CloseConnector. cbn [m_stConnectorPool]. rewrite map_find_insert, Hf by done.
    rewrite (proj2 (Z.eqb_neq _ _)); [done|]. pose proof (i32_range seq) as Hr.
    unfold wrap. Z.div_mod_to_equations. lia.
Qed.

(** ** Witnesses *)

Lemma attempt_loop_counter rc seq ip n : ∀ i c L c' L',
  attempt_loop n i rc seq ip c L = Ok (c', L') →
  cn_iHeartBeatCnt c' = cn_iHeartBeatCnt c ∧ cn_pstEventBase c' = cn_pstEventBase c.
Proof.
  induction n as [|n IH]; intros i c L c' L' E; cbn [attempt_loop] in E; [by inv_res|].
  unfold Connect in E. destruct (cn_pstEventBase c), (cn_pstBufferEvt c); try done. cbn [event_new] in E.
  destruct (rc i <? 0); rewrite bind_Ok in E; cbn [negb] in E; [|by inv_res].
  apply IH in E as [-> ->]. done.
Qed.

(** The peer closes the connection in the first turn. *)
Lemma one_turn_ends `{Protobuf SSHello} fuel os now c b :
  cn_pstEventBase c = Some b → cn_iHeartBeatCnt c = 0 → IsAlive c = true →
  conn_StartMainLoop fuel os [(now, [EvTrigger BEV_EVENT_EOF])] c = Ok (SetDead (set_beat c 1)).
Proof.
  intros Hb Hc Ha. unfold conn_StartMainLoop. rewrite Hb. cbn [main_loop]. rewrite Ha. cbn [negb].
  unfold HeartBeat. rewrite Hc. cbn [set_beat cn_iHeartBeatCnt]. change (i32 (0 + 1)) with 1.
  change (Z.rem 1 10000 =? 0) with false. cbv iota. rewrite !bind_Ok. cbn [run_events run_event].
  rewrite !bind_Ok. reflexivity.
Qed.

Definition demo_rc (i : nat) : Z := if (i <? 2)%nat then -1 else 0.
Definition demo_turns : list ((nat → Z) * list conn_event) := [(fun _ => 0, [EvTrigger BEV_EVENT_EOF])].
Definition demo_address : ST_ServerIPInfo := mkIPInfo 8001 (chars "127.0.0.1").

Lemma connector_frees_bufferevent_twice_witness :
  ∃ c0 L0, Create (Connector_new demo_address pool_new) lev_empty 7 5 true = (true, c0, L0) ∧
    ConnectorMainThread (H := demo_ss) 1 (fun _ => WOk 32) demo_rc 88 [49] demo_turns c0 L0 = Fault UseAfterFree.
Proof.
  destruct (connector_frees_bufferevent_twice (H := demo_ss) 1 (fun _ => WOk 32) demo_rc 5 88 [49] demo_turns demo_address
    pool_new lev_empty 7) as (c0 & L0 & c1 & L1 & E0 & E1 & Ha & Hend).
  - lia.
  - exists 2%nat. split; [unfold CONNECT_ATTEMPTS; lia|]. cbn. lia.
  - exists c0, L0. split; [exact E0|]. apply (Hend (SetDead (set_beat c1 1))).
    destruct (attempt_loop_counter _ _ _ _ _ _ _ _ _ E1) as [Hc Hb].
    unfold Create in E0. cbn [event_base_new bufferevent_socket_new lev_empty lev_next] in E0.
    change (7 <? 0) with false in E0. cbv iota in E0. cbn [negb] in E0. injection E0 as <- <-.
    by apply (one_turn_ends (H := demo_ss) 1 (fun _ => WOk 32) _ c1 0%nat).
Defined.

(** A connector that is alive, with 9998 beats counted. *)
Definition demo_client : LibeventClientCtx := LibeventClientCtx_new 88 7 1 [49].
Definition demo_connector : Connector :=
  mk_conn demo_address (Some 0%nat) (Some 1%nat) (Some 2%nat) (Some 0%nat) (Some (mk_cctx 5 (Some 0%nat)))
    (mk_server net_new (mk_cpool ∅ ∅) {[0%nat := demo_client]} 1 pool_new) 5 7
    NEWTOWK_CONNECTOR_STATUS_ALIVE [] false 9998.

Lemma demo_idle : conn_idle demo_connector ∅ 0 demo_client.
Proof.
  constructor.
  - done.
  - by eexists.
  - apply (lookup_singleton_eq (M := gmap nat)).
  - done.
  - apply pool_inv_new.
  - done.
Qed.

Lemma demo_beat_fits : beat_fits (H := demo_ss).
Proof.
  intros t. change (ByteSizeLong (mkSSHello (u64 t))) with (Z.of_nat (length (enc (u64 t)))).
  pose proof (length_enc_u64 t). lia.
Qed.

Lemma heartbeat_greets_peer_witness :
  (∀ m, (m <= 1)%nat → beats (H := demo_ss) 1 (fun _ => WOk 32) 0 (fun _ _ => 700) m demo_connector
    = Ok (set_beat demo_connector (9998 + Z.of_nat m), 0%nat)) ∧
  ∃ c1 j1 c2 body,
    beats (H := demo_ss) 1 (fun _ => WOk 32) 0 (fun _ _ => 700) 2 demo_connector = Ok (c1, j1) ∧
    _OnConnectorBufferEventWrite (fun _ _ => 258) [SelReady ROk; SelTimeout] c1
      = Ok (c2, [(7, frame 20001 (body ++ [0; 0; 0; 0; 0; 0; 1; 2]))]) ∧
    @ParseFromArray SSHello demo_ss body = (mkSSHello 700, true) ∧
    conn_idle c2 ∅ 0 demo_client ∧ cn_iHeartBeatCnt c2 = 0.
Proof.
  apply (heartbeat_greets_peer (H := demo_ss) 1 (fun _ => WOk 32) 0 (fun _ _ => 700) (fun _ _ => 258)
    demo_connector ∅ 0 demo_client 1).
  - apply demo_pipe.
  - apply demo_beat_fits.
  - apply demo_idle.
  - cbn. lia.
  - done.
Defined.

(** [pstConnector->StartMainThread()] follows NewConnector in GameLogic::StartProxyConnector
    (src/service/gamesvr/gamelogic.cpp), which takes the address of the proxy server. *)
Definition StartProxyConnector (S : ConnectorPool) (conf : GameSvrConf) (p : nat) (P : CPacketMemoryPool)
    (fd seq : Z) (bev pipe : bool) : proc ConnectorPool :=
  '(pstConnector, S) ← of_res (NewConnector S p (m_stProxyServerIPInfo conf) P fd seq bev);
  match pstConnector with
  | None => LOGCRITICAL;; Done S
  | Some p =>
      c ← of_res (connector S p);
      c ← StartMainThread pipe c;
      Done (mk_pool (m_stConnectorPool S) (<[p := c]> (cp_connectors S)) (cp_lev S))
  end.
