(* ===== verification/Client.v ===== *)
(** * The test client (src/service/example/socket_client/client.cpp, connector.h)

    A client that sends two hundred hellos from one thread and checks the replies of a
    server in another.  The two threads share the table of packets, behind a mutex, and the
    connection.  The file models both threads, shows that no assertion of the client fails
    however they and the server interleave, and closes the loop with the libevent server. *)

From stdpp Require Import sorting.
From S2P Require Import Prelude Unpack PacketPool Context SocketMessage ServerLogic Libevent NetCmd Codec GameLogic.

(** ** Data *)

Definition MAX_TEST_PACKET_NUMBER : Z := 1 * 100.
Definition PROTO_HEADER_SIZE : Z := 2 * 2.
Definition PROTO_TAIL_SIZE : Z := 8.

(** A member that was not written yet is [None]. *)
Record ST_STATISTICS := mk_statistics {
  m_iTotalTTL : option Z;
  m_iTotalSvrTTL : option Z;
  m_iTotalSrvRecvTime : option Z;
  m_iTotalClientRecvTime : option Z;
  m_iTotalSrvLogicInternalCost : option Z;
  m_iTotalSrvNetInternalCost : option Z;
  m_iTotalPacketNum : option Z;
  m_iTotalSlowNum : option Z;
  m_iTotalFastNum : option Z }.

Record ST_PACKET := mk_packet {
  m_iPacketNo : Z;
  p_iProtoNo : Z;
  m_iClientSendTime : option Z;
  m_iClientRecvTime : option Z;
  m_bRecvTTLSucc : option bool;
  m_SendData : option (list Z);
  m_RecvData : option (list Z);
  m_statistics : ST_STATISTICS }.

Record ST_CLIENT := mk_client {
  c_iSockFd : Z;
  m_RecvedSize : Z;
  m_Buffer : list Z;
  m_stPacketPool : gmap Z ST_PACKET }.

(** The constructors write only some of the members. *)
Definition ST_PACKET_new (iProtoNo iPacketNum : Z) : ST_PACKET :=
  mk_packet iPacketNum iProtoNo None None None None None
    (mk_statistics None None None None None None None None None).

Definition BUFFER_SIZE : Z := 1024.

Definition ST_CLIENT_new (iSockFd : Z) : ST_CLIENT :=
  mk_client iSockFd 0 (replicate (Z.to_nat BUFFER_SIZE) 0) ∅.

(** ** Reading memory *)

(** A member that is read must have been written. *)
Definition written_value {A} (o : option A) : res A :=
  match o with Some a => Ok a | None => Fault Undefined end.

(** ** Statistics *)

(** What the system answers to fopen and to the two calls of fcntl. *)
Record file_answers := mk_file { fopen_ok : bool; lock_ok : bool; unlock_ok : bool }.

(** The lines written, and whether exit was called.  A line has nine numbers; one that was
    never written is indeterminate. *)
Abbreviation output := (list (list (option Z)) * bool)%type.

Definition lock_file (f : file_answers) : bool := lock_ok f.
Definition unlock_file (f : file_answers) : bool := unlock_ok f.

Definition CalcStatistics (f : file_answers) (s : ST_STATISTICS) : output :=
  if negb (fopen_ok f) then ([], true)
  else if negb (lock_file f) then ([], true)
  else
    ([[m_iTotalTTL s; m_iTotalSvrTTL s; m_iTotalSrvRecvTime s; m_iTotalClientRecvTime s;
       m_iTotalSrvLogicInternalCost s; m_iTotalSrvNetInternalCost s; m_iTotalPacketNum s;
       m_iTotalSlowNum s; m_iTotalFastNum s]], negb (unlock_file f)).

Definition PrintTTL (f : file_answers) (p : ST_PACKET) : res output :=
  b ← written_value (m_bRecvTTLSucc p);
  _ ← c_assert b;
  Ok (CalcStatistics f (m_statistics p)).

Definition incremented (o : option Z) : option Z := (λ v, u64 (v + 1)) <$> o.

Definition CalcTTL (p : ST_PACKET) (rstHelloRsp : CSHelloRsp) (iServerInternalTimestamp : Z) : res ST_PACKET :=
  recv ← written_value (m_iClientRecvTime p);
  if recv <=? 0 then
    Ok (mk_packet (m_iPacketNo p) (p_iProtoNo p) (m_iClientSendTime p) (m_iClientRecvTime p) (Some false)
          (m_SendData p) (m_RecvData p) (m_statistics p))
  else
    sent ← written_value (m_iClientSendTime p);
    let s := m_statistics p in
    let ttl := u64 (recv - sent) in
    Ok (mk_packet (m_iPacketNo p) (p_iProtoNo p) (m_iClientSendTime p) (m_iClientRecvTime p) (Some true)
          (m_SendData p) (m_RecvData p)
          (mk_statistics
             (Some ttl)
             (Some (u64 (iServerInternalTimestamp - unpack_timestamp rstHelloRsp)))
             (Some (u64 (unpack_timestamp rstHelloRsp - sent)))
             (Some (u64 (recv - iServerInternalTimestamp)))
             (Some (u64 (logic_timestamp rstHelloRsp - unpack_timestamp rstHelloRsp)))
             (Some (u64 (iServerInternalTimestamp - logic_timestamp rstHelloRsp)))
             (Some 1)
             (if 100 <=? ttl then incremented (m_iTotalSlowNum s) else m_iTotalSlowNum s)
             (if 100 <=? ttl then m_iTotalFastNum s
              else if ttl <? 50 then incremented (m_iTotalFastNum s) else m_iTotalFastNum s))).

Definition set_pool (c : ST_CLIENT) (m : gmap Z ST_PACKET) : ST_CLIENT :=
  mk_client (c_iSockFd c) (m_RecvedSize c) (m_Buffer c) m.
Definition set_buffer (c : ST_CLIENT) (b : list Z) (n : Z) : ST_CLIENT :=
  mk_client (c_iSockFd c) n b (m_stPacketPool c).

Definition client_AddPacket (c : ST_CLIENT) (p : ST_PACKET) : ST_CLIENT :=
  set_pool c (map_insert_new (m_iPacketNo p) p (m_stPacketPool c)).

(** The packets in the order of the map. *)
Definition packets_in_order (m : gmap Z ST_PACKET) : list ST_PACKET :=
  omap (λ k, m !! k) (merge_sort Z.le (map_to_list m).*1).

Fixpoint statistics_loop (f : file_answers) (ps : list ST_PACKET) : res output :=
  match ps with
  | [] => Ok ([], false)
  | p :: ps =>
      '(lines, stop) ← PrintTTL f p;
      if stop : bool then Ok (lines, true)
      else '(rest, stop) ← statistics_loop f ps; Ok (lines ++ rest, stop)
  end.

Definition Statistics (f : file_answers) (c : ST_CLIENT) : res output :=
  statistics_loop f (packets_in_order (m_stPacketPool c)).

(** ** The sending thread *)

(** The for loop of do_send_msg; the results are [content] and [idx]. *)
Fixpoint fill_loop (n : nat) (j : Z) (content : list Z) (idx : Z) : res (list Z * Z) :=
  match n with
  | O => Ok (content, idx)
  | S n => content ← mem_write content j [65]; fill_loop n (j + 1) content j
  end.

Section Client.
Context `{Protobuf CSHello} `{Protobuf CSHelloRsp}.

(** do_send_msg up to AddPacket, for packet [i]: the packet and the buffer to send. *)
Definition prepare_msg (now i size : Z) : res (ST_PACKET * list Z) :=
  let wProtoNo := CS_PROTOCOL_MESSAGE_ID_HELLO in
  let content := replicate (Z.to_nat size) 0 in
  '(content, idx) ← fill_loop (Z.to_nat (size - 10)) 0 content 0;
  content ← mem_write content idx (decimal i ++ [0]);
  text ← block_string content;
  let stHello := mkCSHello i text in
  let wPacketSize := i16 (i16 (ByteSizeLong stHello) + PROTO_HEADER_SIZE) in
  if wPacketSize <=? 0 then Fault Undefined
  else
    let buffer := replicate (Z.to_nat wPacketSize) 0 in
    buffer ← mem_write buffer 0 (le_bytes 2 (i16 (bswap 2 (u16 wPacketSize))));
    buffer ← mem_write buffer 2 (le_bytes 2 (i16 (bswap 2 (u16 wProtoNo))));
    buffer ← match SerializeToArray stHello (i16 (ByteSizeLong stHello)) with
             | Some bs => mem_write buffer PROTO_HEADER_SIZE bs
             | None => Ok buffer
             end;
    data ← mem_write (replicate 1024 0) 0 text;
    let p := ST_PACKET_new wProtoNo i in
    Ok (mk_packet (m_iPacketNo p) (p_iProtoNo p) (Some now) (m_iClientRecvTime p) (m_bRecvTTLSucc p)
          (Some data) (m_RecvData p) (m_statistics p), buffer).

(** [sent] is the answer of send: the number of bytes taken, or -1. *)
Definition do_send_msg (now sent : Z) (c : ST_CLIENT) (i size : Z) : res (ST_CLIENT * Z * list Z) :=
  '(stPacket, buffer) ← prepare_msg now i size;
  Ok (client_AddPacket c stPacket, i32 sent, take (Z.to_nat sent) buffer).

(** The size send_msg asks for in its [i]-th call. *)
Definition msg_size (i : Z) : Z := if i <? MAX_TEST_PACKET_NUMBER then 250 else 512.

(** One of the two for loops of send_msg: [n] calls from [i] on; [answers] are those of send,
    the result collects what was taken. *)
Fixpoint send_msg_loop (clock answers : nat → Z) (n : nat) (i size : Z) (c : ST_CLIENT) (total : Z) (out : list (list Z))
    : res (ST_CLIENT * Z * list (list Z)) :=
  match n with
  | O => Ok (c, total, out)
  | S n =>
      '(c, ret, bytes) ← do_send_msg (clock (Z.to_nat i)) (answers (Z.to_nat i)) c i size;
      send_msg_loop clock answers n (i + 1) size c (i32 (total + ret)) (out ++ [bytes])
  end.

Definition send_msg (clock answers : nat → Z) (c : ST_CLIENT) : res (ST_CLIENT * Z * list (list Z)) :=
  '(c, total, out) ← send_msg_loop clock answers (Z.to_nat MAX_TEST_PACKET_NUMBER) 0 250 c 0 [];
  send_msg_loop clock answers (Z.to_nat MAX_TEST_PACKET_NUMBER) MAX_TEST_PACKET_NUMBER 512 c total out.

(** ** The receiving thread *)

(** The body of the do loop of recv_msg, from the protocol number on. *)
Definition handle_reply (now : Z) (c : ST_CLIENT) (wPacketSize : Z) : res ST_CLIENT :=
  hd ← mem_read (m_Buffer c) 2 2;
  let wPortoNo := bswap 2 (le_value hd) in
  _ ← c_assert (wPortoNo =? CS_PROTOCOL_MESSAGE_ID_HELLO);
  let iBufferSize := i32 (u64 (wPacketSize - PROTO_HEADER_SIZE - PROTO_TAIL_SIZE)) in
  data ← mem_read (m_Buffer c) PROTO_HEADER_SIZE iBufferSize;
  let stHelloRsp : CSHelloRsp := fst (ParseFromArray data) in
  stamp ← mem_read (m_Buffer c) (PROTO_HEADER_SIZE + iBufferSize) PROTO_TAIL_SIZE;
  let iServerInternalTimestamp := bswap 8 (le_value stamp) in
  moved ← mem_read (m_Buffer c) wPacketSize (m_RecvedSize c - wPacketSize);
  buffer ← mem_write (m_Buffer c) 0 moved;
  let c := set_buffer c buffer (i32 (m_RecvedSize c - wPacketSize)) in
  let iPacketID := i32 (rsp_id stHelloRsp) in
  match m_stPacketPool c !! iPacketID with
  | None => Fault AssertFail
  | Some p =>
      data ← mem_write (replicate 1024 0) 0 (c_string 0 (rsp_content stHelloRsp));
      received ← block_string data;
      sent ← written_value (m_SendData p);
      sent ← block_string sent;
      _ ← c_assert (bool_decide (received = sent));
      p ← CalcTTL (mk_packet (m_iPacketNo p) (p_iProtoNo p) (m_iClientSendTime p) (Some (u64 now))
                     (m_bRecvTTLSucc p) (m_SendData p) (Some data) (m_statistics p))
            stHelloRsp iServerInternalTimestamp;
      Ok (set_pool c (<[iPacketID := p]> (m_stPacketPool c)))
  end.

(** The do loop; [clock k] is the [k]-th reading of GetMilliSecond. *)
Fixpoint reply_loop (fuel : nat) (clock : nat → Z) (c : ST_CLIENT) (total : Z) (k : nat)
    : res (ST_CLIENT * Z * nat) :=
  match fuel with
  | O => Fault OutOfFuel
  | S fuel =>
      hd ← mem_read (m_Buffer c) 0 2;
      let wPacketSize := bswap 2 (le_value hd) in
      if m_RecvedSize c <? wPacketSize then Ok (c, total, k)
      else
        c ← handle_reply (clock k) c wPacketSize;
        let total := i32 (total + 1) in
        if wPacketSize <=? m_RecvedSize c then reply_loop fuel clock c total (S k)
        else Ok (c, total, S k)
  end.

(** The length recv_msg passes to read. *)
Definition read_length (c : ST_CLIENT) : Z :=
  let iReadLen := 10240 in
  let left := u64 (BUFFER_SIZE - u64 (m_RecvedSize c)) in
  let iReadLen := if left <? iReadLen then i32 left else iReadLen in
  if 0 <? iReadLen then iReadLen else 0.

(** One round of the while loop; [None] is a failed read, else the bytes read stores. *)
Definition recv_round (clock : nat → Z) (answer : option (list Z)) (c : ST_CLIENT) (total : Z) (k : nat)
    : res (ST_CLIENT * Z * nat) :=
  c ← match answer with
      | None => Ok (set_buffer c (m_Buffer c) (i32 (m_RecvedSize c + u64 (-1))))
      | Some bytes =>
          buffer ← match bytes with
                   | [] => Ok (m_Buffer c)
                   | _ => mem_write (m_Buffer c) (m_RecvedSize c) bytes
                   end;
          Ok (set_buffer c buffer (i32 (m_RecvedSize c + Z.of_nat (length bytes))))
      end;
  reply_loop (S (Z.to_nat BUFFER_SIZE)) clock c total k.

(** ** The two threads, the connection and the server *)

(** [cl_pending] is the buffer between AddPacket and send, [cl_sent] what was sent,
    [cl_in] what waits on the connection, [cl_replies] what the server wrote. *)
Record run_state := mk_run {
  cl : ST_CLIENT;
  cl_next : Z;
  cl_pending : option (list Z);
  cl_sent : list (list Z);
  cl_total : Z;
  cl_reads : nat;
  cl_in : list Z;
  cl_replies : list (list Z * Z) }.

Definition run_start (fd : Z) : run_state := mk_run (ST_CLIENT_new fd) 0 None [] 0 0 [] [].

(** What the server writes for one reply: its body and a time stamp. *)
Definition reply_frame (r : list Z * Z) : list Z :=
  frame CS_PROTOCOL_MESSAGE_ID_HELLO (r.1 ++ be_bytes 8 r.2).

Inductive event :=
| EvAdd (now : Z)                (* the sender: a packet is built and put into the table *)
| EvSend                         (* the sender: its buffer is sent *)
| EvReply (r : list Z * Z)       (* the server writes a reply *)
| EvRead (n : nat).              (* the receiver: a round in which read returns at most [n] bytes *)

Definition perform (clock : nat → Z) (e : event) (s : run_state) : res run_state :=
  match e with
  | EvAdd now =>
      '(p, buffer) ← prepare_msg now (cl_next s) (msg_size (cl_next s));
      Ok (mk_run (client_AddPacket (cl s) p) (cl_next s + 1) (Some buffer) (cl_sent s) (cl_total s)
            (cl_reads s) (cl_in s) (cl_replies s))
  | EvSend =>
      Ok (mk_run (cl s) (cl_next s) None
            (cl_sent s ++ match cl_pending s with Some b => [b] | None => [] end)
            (cl_total s) (cl_reads s) (cl_in s) (cl_replies s))
  | EvReply r =>
      Ok (mk_run (cl s) (cl_next s) (cl_pending s) (cl_sent s) (cl_total s) (cl_reads s)
            (cl_in s ++ reply_frame r) (cl_replies s ++ [r]))
  | EvRead n =>
      if cl_total s <? MAX_TEST_PACKET_NUMBER * 2 then
        let m := Nat.min n (Z.to_nat (read_length (cl s))) in
        '(c, total, k) ← recv_round clock (Some (take m (cl_in s))) (cl s) (cl_total s) (cl_reads s);
        Ok (mk_run c (cl_next s) (cl_pending s) (cl_sent s) total k (drop m (cl_in s)) (cl_replies s))
      else Ok s
  end.

Fixpoint run_events (clock : nat → Z) (es : list event) (s : run_state) : res run_state :=
  match es with
  | [] => Ok s
  | e :: es => s ← perform clock e s; run_events clock es s
  end.

(** ** Connecting *)

(** What the system answers: the port of getservbyname, the address of gethostbyname, the
    results of inet_addr, socket and connect. *)
Record connect_answers := mk_connect {
  ca_serv_port : option Z;
  ca_host : option (list Z);
  ca_inet_addr : Z;
  ca_socket : Z;
  ca_connect : Z }.

Definition INADDR_NONE : Z := 4294967295.

(** The port in network order. *)
Definition remote_port (port : Z) (a : connect_answers) : res Z :=
  match ca_serv_port a with
  | Some p => Ok p
  | None => let p := bswap 2 (u16 port) in if p =? 0 then Fault Undefined else Ok p
  end.

(** The descriptor, the port and the 12 bytes from sin_addr on; [None] when
    errexit ends the process.  errexit with %s for a port reads memory at the port's value. *)
Definition connect_remote (port : Z) (a : connect_answers) : res (option (Z * Z * list Z)) :=
  sin_port ← remote_port port a;
  sin_addr ← match ca_host a with
             | Some h => b ← mem_write (replicate 12 0) 0 h; Ok (Some b)
             | None =>
                 if ca_inet_addr a =? INADDR_NONE then Ok None
                 else Ok (Some (le_bytes 4 (ca_inet_addr a) ++ replicate 8 0))
             end;
  match sin_addr with
  | None => Ok None
  | Some addr =>
      if ca_socket a <? 0 then Ok None
      else if ca_connect a <? 0 then Fault Undefined
      else Ok (Some (ca_socket a, sin_port, addr))
  end.

(** ** What is sent *)

Definition hello_text (i size : Z) : list Z := replicate (Z.to_nat (size - 11)) 65 ++ decimal i.
Definition hello (i : Z) : CSHello := mkCSHello i (hello_text i (msg_size i)).

Lemma fill_loop_spec n m : ∀ j idx,
  fill_loop n (Z.of_nat j) (replicate j 65 ++ replicate (n + m) 0) idx =
    Ok (replicate (j + n) 65 ++ replicate m 0, if decide (n = O) then idx else Z.of_nat (j + n) - 1).
Proof.
  induction n as [|n IH]; intros j idx; cbn [fill_loop].
  - by rewrite Nat.add_0_r.
  - rewrite mem_write_Ok by (len; lia). rewrite bind_Ok.
    assert (splice (replicate j 65 ++ replicate (S n + m) 0) (Z.to_nat (Z.of_nat j)) [65] =
      replicate (S j) 65 ++ replicate (n + m) 0) as ->.
    { unfold splice. rewrite Nat2Z.id, take_app_length' by (by rewrite length_replicate).
      cbn [length]. rewrite <- drop_drop, drop_app_length' by (by rewrite length_replicate). cbn [Nat.add replicate drop].
      change (65 :: replicate j 65) with (replicate (S j) 65). by rewrite replicate_S_end, <- (assoc_L (++)). }
    replace (Z.of_nat j + 1) with (Z.of_nat (S j)) by lia. rewrite IH.
    rewrite (decide_False (P := S n = O)) by done. replace (S j + n)%nat with (j + S n)%nat by lia.
    do 2 f_equal. case_decide; lia.
Qed.

Lemma hello_text_zero i size : 0 <= i → 0 ∉ hello_text i size.
Proof.
  intros Hi. unfold hello_text. rewrite not_elem_of_app. split; [|by apply decimal_spec].
  by intros [? _]%elem_of_replicate.
Qed.

Lemma length_hello_text i size : 0 <= i → 11 <= size → Z.of_nat (length (hello_text i size)) < size.
Proof. intros Hi Hs. unfold hello_text. rewrite length_app, length_replicate. pose proof (decimal_spec i Hi). lia. Qed.

(** The 1024 bytes of a data member that holds a string. *)
Definition data_of (s : list Z) : list Z := s ++ replicate (1024 - length s) 0.

Lemma write_data s : (length s <= 1024)%nat → mem_write (replicate 1024 0) 0 s = Ok (data_of s).
Proof.
  intros Hs. rewrite mem_write_Ok by (rewrite ?length_replicate; lia). unfold splice, data_of.
  cbn [Z.to_nat take]. by rewrite drop_replicate.
Qed.

Lemma block_string_data s : 0 ∉ s → (length s < 1024)%nat → block_string (data_of s) = Ok s.
Proof.
  intros Hz Hs. unfold data_of. replace (1024 - length s)%nat with (S (1023 - length s)) by lia.
  by apply block_string_spec.
Qed.

(** htons, stored in memory. *)
Lemma htons_bytes z : le_bytes 2 (i16 (bswap 2 (u16 z))) = be_bytes 2 z.
Proof.
  rewrite <- (le_bytes_wrap 2 (swrap 16 _)). change (8 * Z.of_nat 2) with 16. rewrite wrap_swrap by lia.
  rewrite (le_bytes_wrap 2 (bswap 2 _)), le_bytes_bswap. unfold be_bytes. f_equal. apply (le_bytes_wrap 2).
Qed.

(** The header and the message behind it. *)
Lemma write_frame size proto bs :
  size = 4 + Z.of_nat (length bs) →
  (b ← mem_write (replicate (Z.to_nat size) 0) 0 (le_bytes 2 (i16 (bswap 2 (u16 size))));
   b ← mem_write b 2 (le_bytes 2 (i16 (bswap 2 (u16 proto))));
   mem_write b PROTO_HEADER_SIZE bs) = Ok (frame proto bs).
Proof.
  intros Hs. rewrite !htons_bytes. replace (Z.to_nat size) with (2 + (2 + length bs))%nat by lia.
  rewrite !replicate_add.
  rewrite mem_write_Ok by len. rewrite bind_Ok. change (Z.to_nat 0) with (length (@nil Z)).
  rewrite <- (app_nil_l (replicate 2 0 ++ _)), (splice_app []) by done. cbn [app].
  rewrite drop_app_length' by len. rewrite mem_write_Ok by len. rewrite bind_Ok.
  rewrite splice_app by len. rewrite drop_app_length' by len. unfold PROTO_HEADER_SIZE.
  rewrite (assoc_L (++)). rewrite mem_write_Ok by len. rewrite splice_app by len.
  rewrite drop_ge by len. rewrite app_nil_r. unfold frame, wire_header. do 4 f_equal. lia.
Qed.

(** Packet [i] with nothing received yet. *)
Definition new_packet (now i : Z) (text : list Z) : ST_PACKET :=
  mk_packet i CS_PROTOCOL_MESSAGE_ID_HELLO (Some now) None None (Some (data_of text)) None
    (mk_statistics None None None None None None None None None).

Lemma prepare_msg_spec now i size :
  0 <= i → 11 <= size <= 1024 →
  ByteSizeLong (mkCSHello i (hello_text i size)) <= 10240 →
  ∃ bs, prepare_msg now i size = Ok (new_packet now i (hello_text i size), frame CS_PROTOCOL_MESSAGE_ID_HELLO bs) ∧
    encodes (mkCSHello i (hello_text i size)) bs.
Proof.
  intros Hi Hs Hb. set (text := hello_text i size) in *.
  destruct (serialize_fits (mkCSHello i text) (ByteSizeLong (mkCSHello i text))) as (bs & Eb & Hl & Hbytes & Hp); [done|].
  exists bs. split; [|done]. unfold prepare_msg.
  pose proof (fill_loop_spec (Z.to_nat (size - 10)) 10 0 0) as Ef.
  replace (Z.to_nat (size - 10) + 10)%nat with (Z.to_nat size) in Ef by lia.
  change (Z.of_nat 0) with 0 in Ef. cbn [replicate app] in Ef. rewrite Ef, bind_Ok. clear Ef. rewrite decide_False by lia.
  pose proof (decimal_spec i Hi) as [Hdl Hdz].
  replace (0 + Z.to_nat (size - 10))%nat with (Z.to_nat (size - 11) + 1)%nat by lia.
  rewrite replicate_add, <- (assoc_L (++)). rewrite mem_write_Ok by (rewrite ?length_app, ?length_replicate; cbn [length]; lia).
  rewrite splice_app by (rewrite length_replicate; lia). rewrite bind_Ok.
  set (rest := drop _ _). replace (replicate (Z.to_nat (size - 11)) 65 ++ (decimal i ++ [0]) ++ rest)
    with (text ++ 0 :: rest) by (unfold text, hello_text; by rewrite <- !(assoc_L (++))).
  rewrite block_string_spec by (by apply hello_text_zero). rewrite bind_Ok.
  pose proof (size_nonneg (mkCSHello i text)). unfold PROTO_HEADER_SIZE.
  rewrite (swrap_small 16 (ByteSizeLong _)) by lia. rewrite swrap_small by lia.
  destruct (Z.leb_spec (ByteSizeLong (mkCSHello i text) + 2 * 2) 0); [lia|]. rewrite Eb.
  assert (ByteSizeLong (mkCSHello i text) + 2 * 2 = 4 + Z.of_nat (length bs)) as Hsize by lia.
  pose proof (write_frame _ CS_PROTOCOL_MESSAGE_ID_HELLO bs Hsize) as Ew.
  unfold PROTO_HEADER_SIZE in Ew.
  apply bind_Ok_iff in Ew as (b1 & -> & Ew). cbn beta in Ew. rewrite bind_Ok.
  apply bind_Ok_iff in Ew as (b2 & -> & Ew). cbn beta in Ew. rewrite bind_Ok, Ew, bind_Ok.
  pose proof (length_hello_text i size Hi ltac:(lia)) as Ht. fold text in Ht. rewrite write_data by lia. done.
Qed.

(** ** What is received *)

(** Reading between two parts of a block. *)
Lemma mem_read_mid (a b c : list Z) off n :
  off = Z.of_nat (length a) → n = Z.of_nat (length b) → mem_read (a ++ b ++ c) off n = Ok b.
Proof.
  intros -> ->. rewrite mem_read_Ok by (rewrite ?length_app; lia).
  by rewrite !Nat2Z.id, drop_app_length, take_app_length.
Qed.

Lemma swapped_value n l : Forall is_byte l → length l = n → bswap n (le_value l) = le_value (rev l).
Proof. intros Hl <-. unfold bswap. by rewrite le_bytes_le_value. Qed.

Lemma swapped_be n z : bswap n (le_value (be_bytes n z)) = wrap (8 * Z.of_nat n) z.
Proof.
  rewrite swapped_value by (apply be_bytes_byte || apply length_be_bytes). unfold be_bytes.
  by rewrite rev_involutive, le_value_le_bytes.
Qed.

(** A header of which only the first byte has arrived, and that is not zero. *)
Lemma first_byte_value hi lo : is_byte hi → is_byte lo → hi ≠ 0 → 256 <= bswap 2 (le_value [hi; lo]).
Proof.
  intros Hh Hl Hne. rewrite swapped_value by (repeat constructor; apply Hh || apply Hl || done).
  cbn [rev app]. rewrite !le_value_cons by done. change (le_value []) with 0. unfold is_byte in *. lia.
Qed.

(** Body [r.1] answers hello [i] and fits into the buffer of the client; its size needs
    both bytes of the header. *)
Definition reply_ok (i : Z) (r : list Z * Z) : Prop :=
  (∃ t1 t2, ParseFromArray r.1 = (mkCSHelloRsp i (hello_content (hello i)) t1 t2, true)) ∧
  Forall is_byte r.1 ∧ 244 <= Z.of_nat (length r.1) <= 1012.

Definition reply_size (r : list Z * Z) : Z := Z.of_nat (length r.1) + 12.

Lemma length_reply r : Z.of_nat (length (reply_frame r)) = reply_size r.
Proof. unfold reply_frame, reply_size. rewrite length_frame, length_app, length_be_bytes. lia. Qed.

Lemma reply_parts r :
  reply_frame r = be_bytes 2 (reply_size r) ++ be_bytes 2 CS_PROTOCOL_MESSAGE_ID_HELLO ++ r.1 ++ be_bytes 8 r.2.
Proof.
  unfold reply_frame, frame, wire_header, reply_size. rewrite length_app, length_be_bytes, <- (assoc_L (++)).
  replace (Z.of_nat (length r.1 + 8) + 4) with (Z.of_nat (length r.1) + 12) by lia. done.
Qed.

Lemma reply_bytes i r : reply_ok i r → Forall is_byte (reply_frame r).
Proof.
  intros (_ & Hb & _). rewrite reply_parts. repeat (apply Forall_app_2; [apply be_bytes_byte|]).
  apply Forall_app_2; [done|apply be_bytes_byte].
Qed.

(** What the table holds for hello [i]. *)
Definition packet_sent (i : Z) (p : ST_PACKET) : Prop :=
  m_SendData p = Some (data_of (hello_content (hello i))) ∧ is_Some (m_iClientSendTime p) ∧
  m_iTotalSlowNum (m_statistics p) = None ∧ m_iTotalFastNum (m_statistics p) = None.

Definition packet_answered (i : Z) (p : ST_PACKET) : Prop :=
  packet_sent i p ∧ m_bRecvTTLSucc p = Some true ∧ m_RecvData p = m_SendData p.

Lemma CalcTTL_answers i p rsp ts :
  packet_sent i p → (∃ t, m_iClientRecvTime p = Some t ∧ 0 < t) → m_RecvData p = m_SendData p →
  ∃ p', CalcTTL p rsp ts = Ok p' ∧ packet_answered i p'.
Proof.
  intros (Hd & (st & Hst) & Hs & Hf) (t & Ht & Hpos) Hr. unfold CalcTTL. rewrite Ht. cbn [written_value].
  rewrite bind_Ok. destruct (Z.leb_spec t 0); [lia|]. rewrite Hst. cbn [written_value]. rewrite bind_Ok.
  eexists. split; [done|]. unfold packet_answered, packet_sent. cbn. rewrite Hs, Hf.
  split_and!; try done; by repeat case_match.
Qed.

Lemma hello_size i : 0 <= i → (0 ∉ hello_content (hello i)) ∧ (length (hello_content (hello i)) < 1024)%nat.
Proof.
  intros Hi. cbn [hello hello_content]. split; [by apply hello_text_zero|].
  pose proof (length_hello_text i (msg_size i) Hi) as Hl. unfold msg_size in *. destruct (_ <? _); lia.
Qed.

Lemma handle_reply_spec now c i r rest junk p :
  0 <= i < 2147483648 → 0 < now < 2 ^ 64 → reply_ok i r →
  m_Buffer c = reply_frame r ++ rest ++ junk → length (m_Buffer c) = 1024%nat →
  m_RecvedSize c = Z.of_nat (length (reply_frame r ++ rest)) →
  m_stPacketPool c !! i = Some p → packet_sent i p →
  ∃ p', packet_answered i p' ∧
    handle_reply now c (reply_size r) =
      Ok (set_pool (set_buffer c (rest ++ drop (length rest) (m_Buffer c)) (Z.of_nat (length rest)))
            (<[i := p']> (m_stPacketPool c))).
Proof.
  intros Hi Hnow ((t1 & t2 & Hparse) & Hbytes & Hlen) Hbuf Hl HR Hp Hps. unfold handle_reply.
  pose proof (length_reply r) as Hlr. rewrite reply_parts in Hbuf. rewrite <- !(assoc_L (++)) in Hbuf.
  assert (mem_read (m_Buffer c) 2 2 = Ok (be_bytes 2 CS_PROTOCOL_MESSAGE_ID_HELLO)) as ->.
  { rewrite Hbuf. by apply mem_read_mid; rewrite length_be_bytes. }
  assert (mem_read (m_Buffer c) (2 * 2) (Z.of_nat (length r.1)) = Ok r.1) as Ebody.
  { rewrite Hbuf, (assoc_L (++)). apply mem_read_mid; rewrite ?length_app, ?length_be_bytes; lia. }
  assert (mem_read (m_Buffer c) (2 * 2 + Z.of_nat (length r.1)) 8 = Ok (be_bytes 8 r.2)) as Etail.
  { rewrite Hbuf. do 2 rewrite (assoc_L (++)). apply mem_read_mid; rewrite ?length_app, ?length_be_bytes; lia. }
  rewrite bind_Ok, swapped_be.
  change (wrap _ CS_PROTOCOL_MESSAGE_ID_HELLO =? CS_PROTOCOL_MESSAGE_ID_HELLO) with true.
  cbn [c_assert]. rewrite bind_Ok. unfold PROTO_HEADER_SIZE, PROTO_TAIL_SIZE.
  assert (i32 (u64 (reply_size r - 2 * 2 - 8)) = Z.of_nat (length r.1)) as ->.
  { unfold reply_size. rewrite wrap_small by lia. rewrite swrap_small by lia. lia. }
  rewrite Ebody, bind_Ok, Hparse, Etail, bind_Ok. cbn [fst rsp_id rsp_content].
  rewrite HR. rewrite length_app, Nat2Z.inj_add, Hlr.
  replace (reply_size r + Z.of_nat (length rest) - reply_size r) with (Z.of_nat (length rest)) by lia.
  assert (mem_read (m_Buffer c) (reply_size r) (Z.of_nat (length rest)) = Ok rest) as ->.
  { rewrite Hbuf. do 3 rewrite (assoc_L (++)). apply mem_read_mid; [|done].
    rewrite !length_app, !length_be_bytes. unfold reply_size. lia. }
  rewrite bind_Ok. assert (length rest <= 1024)%nat.
  { rewrite Hbuf, !length_app in Hl. lia. }
  rewrite (mem_write_Ok (m_Buffer c)) by lia. rewrite bind_Ok. rewrite swrap_small by lia. unfold splice.
  change (Z.to_nat 0) with 0%nat. cbn [take app Nat.add]. cbn [set_buffer m_stPacketPool].
  rewrite swrap_small by lia. rewrite Hp. destruct (hello_size i ltac:(lia)) as [Hz Hh].
  rewrite c_string_id by done. rewrite write_data by lia. rewrite bind_Ok, block_string_data by done.
  rewrite bind_Ok. rewrite (proj1 Hps). cbn [written_value]. rewrite bind_Ok, block_string_data by done.
  rewrite bind_Ok, bool_decide_true by done. cbn [c_assert]. rewrite bind_Ok, (wrap_small 64 now) by lia.
  match goal with |- context [CalcTTL ?q ?rsp ?ts] => destruct (CalcTTL_answers i q rsp ts) as (p' & E & Ha) end.
  - by destruct Hps as (_ & ? & ? & ?).
  - exists now. split; [done|lia].
  - done.
  - rewrite E, bind_Ok. by exists p'.
Qed.

(** *** The do loop *)

Definition received (c : ST_CLIENT) : list Z := take (Z.to_nat (m_RecvedSize c)) (m_Buffer c).
Definition buffer_ok (c : ST_CLIENT) : Prop :=
  length (m_Buffer c) = 1024%nat ∧ Forall is_byte (m_Buffer c) ∧ 0 <= m_RecvedSize c <= 1024.

Definition replies (rs : list (list Z * Z)) : list Z := concat (reply_frame <$> rs).
Definition replies_ok (i : Z) (rs : list (list Z * Z)) : Prop :=
  ∀ n r, rs !! n = Some r → reply_ok (i + Z.of_nat n) r.
Definition sizes_grow (rs : list (list Z * Z)) : Prop :=
  ∀ i j x y, (i <= j)%nat → rs !! i = Some x → rs !! j = Some y → reply_size x <= reply_size y.

(** The table after [next] hellos were added and [total] replies handled. *)
Definition pool_ok (next total : Z) (m : gmap Z ST_PACKET) : Prop :=
  (∀ j, 0 <= j < next → ∃ p, m !! j = Some p ∧ packet_sent j p ∧ (j < total → packet_answered j p)) ∧
  (∀ j p, m !! j = Some p → 0 <= j < next).

Lemma pool_answer next total m p :
  pool_ok next total m → 0 <= total < next → packet_answered total p → pool_ok next (total + 1) (<[total := p]> m).
Proof.
  intros [Hm Hd] Ht Hp. split.
  - intros j Hj. destruct (decide (j = total)) as [->|Hne].
    + exists p. rewrite lookup_insert_eq. split; [done|]. split; [apply Hp|done].
    + destruct (Hm j Hj) as (q & Hq & Hs & Ha). exists q. rewrite lookup_insert_ne by done.
      split; [done|]. split; [done|]. intros Hlt. apply Ha. lia.
  - intros j q. destruct (decide (j = total)) as [->|Hne]; [done|]. rewrite lookup_insert_ne by done. apply Hd.
Qed.

Lemma replies_ok_tail i r rs : replies_ok i (r :: rs) → replies_ok (i + 1) rs.
Proof. intros Hrs n x Hx. replace (i + 1 + Z.of_nat n) with (i + Z.of_nat (S n)) by lia. by apply (Hrs (S n)). Qed.

Lemma sizes_grow_tail r rs : sizes_grow (r :: rs) → sizes_grow rs.
Proof. intros Hg i j x y Hij Hx Hy. apply (Hg (S i) (S j)); [lia|done..]. Qed.

Lemma length_received c : buffer_ok c → Z.of_nat (length (received c)) = m_RecvedSize c.
Proof. intros (Hl & _ & HR). unfold received. rewrite length_take, Hl. lia. Qed.

(** The length the loop reads, also when the header is not complete. *)
Lemma loop_header c i r more rest :
  buffer_ok c → 1 <= m_RecvedSize c → reply_ok i r →
  received c ++ more = reply_frame r ++ rest →
  ∃ hd, mem_read (m_Buffer c) 0 2 = Ok hd ∧
    ((m_RecvedSize c < bswap 2 (le_value hd) ∧ m_RecvedSize c < reply_size r) ∨
     (bswap 2 (le_value hd) = reply_size r ∧ reply_size r <= m_RecvedSize c)).
Proof.
  intros Hb HR1 Hr Hs. pose proof (length_received c Hb) as Hlen. destruct Hb as (Hl & Hbytes & HR).
  destruct Hr as (_ & _ & Hsize).
  rewrite mem_read_Ok by lia. eexists. split; [done|]. cbn [Z.to_nat drop]. change (Z.to_nat 0) with 0%nat. rewrite drop_0.
  rewrite <- (take_drop (Z.to_nat (m_RecvedSize c)) (m_Buffer c)) in Hl, Hbytes |- *. fold (received c) in *.
  rewrite reply_parts, <- !(assoc_L (++)) in Hs.
  destruct (decide (m_RecvedSize c = 1)) as [E1|Hne].
  - left. destruct (received c) as [|hi [|]]; cbn [length] in Hlen; [lia| |lia].
    destruct (drop _ (m_Buffer c)) as [|lo junk]; cbn [app length] in Hl; [lia|].
    cbn [app Pos.to_nat Pos.iter_op take]. change (Z.to_nat 2) with 2%nat. cbn [take].
    assert (hi = reply_size r / 256) as Ehi.
    { cbn in Hs. injection Hs as -> _. change 255 with (2 ^ 8 - 1). rewrite land_mask by lia.
      rewrite Z.shiftr_div_pow2 by lia. change (2 ^ 8) with 256. apply Z.mod_small. unfold reply_size.
      split; [apply Z.div_pos; lia|]. apply Z.div_lt_upper_bound; lia. }
    assert (256 <= bswap 2 (le_value [hi; lo])).
    { apply Forall_cons_1 in Hbytes as [Hhi Hbytes]. apply Forall_cons_1 in Hbytes as [Hlo _].
      apply first_byte_value; [done..|]. rewrite Ehi. assert (1 <= reply_size r / 256); [|lia].
      apply Z.div_le_lower_bound; [lia|]. unfold reply_size. lia. }
    rewrite take_0. unfold reply_size. lia.
  - assert (take (Z.to_nat 2) (received c ++ drop (Z.to_nat (m_RecvedSize c)) (m_Buffer c)) = be_bytes 2 (reply_size r)) as ->.
    { rewrite take_app_le by lia. rewrite <- (take_app_le (received c) more) by lia. rewrite Hs.
      apply take_app_length'. by rewrite length_be_bytes. }
    rewrite swapped_be. change (8 * Z.of_nat 2) with 16. rewrite wrap_small by (unfold reply_size; lia).
    destruct (decide (m_RecvedSize c < reply_size r)); [by left|right; lia].
Qed.

Section Receiver.
Context (clock : nat → Z) (clock_ok : ∀ k, 0 < clock k < 2 ^ 64).

(** One reply is taken off the buffer. *)
Lemma take_reply c next total k r rest more :
  buffer_ok c → 0 <= total < next → next < 2147483648 → pool_ok next total (m_stPacketPool c) →
  reply_ok total r → reply_size r <= m_RecvedSize c → received c ++ more = reply_frame r ++ rest →
  ∃ c', handle_reply (clock k) c (reply_size r) = Ok c' ∧ buffer_ok c' ∧
    received c = reply_frame r ++ received c' ∧ received c' ++ more = rest ∧
    m_RecvedSize c' = m_RecvedSize c - reply_size r ∧
    pool_ok next (total + 1) (m_stPacketPool c').
Proof.
  intros Hb Ht Hn Hpool Hr Hsize Hs. pose proof (length_received c Hb) as Hlen. pose proof (length_reply r) as Hlr.
  assert (∃ t, received c = reply_frame r ++ t ∧ t ++ more = rest) as (t & Et & Erest).
  { exists (drop (length (reply_frame r)) (received c)). split.
    - rewrite <- (take_drop (length (reply_frame r)) (received c)) at 1. f_equal.
      rewrite <- (take_app_le (received c) more) by lia. rewrite Hs. apply take_app_length.
    - rewrite <- drop_app_le by lia. rewrite Hs. apply drop_app_length. }
  rewrite Et, length_app in Hlen. destruct Hb as (Hl & Hbytes & HR).
  destruct (proj1 Hpool total Ht) as (p & Hp & Hps & _).
  pose proof (take_drop (Z.to_nat (m_RecvedSize c)) (m_Buffer c)) as Hbuf. fold (received c) in Hbuf.
  rewrite Et, <- (assoc_L (++)) in Hbuf.
  destruct (handle_reply_spec (clock k) c total r t _ p ltac:(lia) (clock_ok k) Hr (eq_sym Hbuf) Hl) as (p' & Hp' & E);
    [by rewrite length_app, Hlen|done|done|].
  eexists. split; [exact E|].
  assert (received (set_pool (set_buffer c (t ++ drop (length t) (m_Buffer c)) (Z.of_nat (length t)))
    (<[total := p']> (m_stPacketPool c))) = t) as Er.
  { unfold received. cbn. by rewrite Nat2Z.id, take_app_length. }
  rewrite Er. cbn [set_pool set_buffer m_Buffer m_RecvedSize m_stPacketPool]. split_and!; try done.
  - split; [|split].
    + cbn. rewrite length_app, length_drop. lia.
    + cbn. apply Forall_app_2; [|by apply Forall_drop]. rewrite <- Hbuf in Hbytes.
      apply Forall_app in Hbytes as [_ Hbytes]. by apply Forall_app in Hbytes as [Hbytes _].
    + cbn. lia.
  - lia.
  - by apply pool_answer.
Qed.

Lemma reply_loop_spec next fuel : ∀ c total k rs more,
  buffer_ok c → 1 <= m_RecvedSize c < Z.of_nat fuel →
  0 <= total → total + Z.of_nat (length rs) <= next → next < 2147483648 →
  pool_ok next total (m_stPacketPool c) → replies_ok total rs → received c ++ more = replies rs →
  ∃ m c' k', reply_loop fuel clock c total k = Ok (c', total + Z.of_nat m, k') ∧
    (m <= length rs)%nat ∧ buffer_ok c' ∧ m_RecvedSize c' < 1024 ∧
    received c' ++ more = replies (drop m rs) ∧
    pool_ok next (total + Z.of_nat m) (m_stPacketPool c') ∧
    (sizes_grow rs → ∀ r, rs !! m = Some r → m_RecvedSize c' < reply_size r).
Proof.
  induction fuel as [|fuel IH]; intros c total k rs more Hb HR Ht Hn Hmax Hpool Hok Hs; [lia|].
  destruct rs as [|r rs].
  { pose proof (length_received c Hb) as Hlen. apply app_nil in Hs as [Hs _]. rewrite Hs in Hlen. cbn in Hlen. lia. }
  pose proof (Hok 0%nat r eq_refl) as Hr. rewrite Z.add_0_r in Hr. pose proof (proj2 (proj2 Hr)) as Hsize.
  change (replies (r :: rs)) with (reply_frame r ++ replies rs) in Hs. cbn [length] in Hn.
  destruct (loop_header c total r more (replies rs) Hb ltac:(lia) Hr Hs) as (hd & Ehd & Hcase).
  cbn [reply_loop]. rewrite Ehd, bind_Ok.
  destruct Hcase as [[Hlt Hlt']|[Ev Hge]].
  - destruct (Z.ltb_spec (m_RecvedSize c) (bswap 2 (le_value hd))); [|lia].
    exists 0%nat, c, k. rewrite Z.add_0_r. split_and!; try done; try lia.
    + unfold reply_size in Hlt'. lia.
    + intros _ r' [= <-]. done.
  - rewrite Ev. destruct (Z.ltb_spec (m_RecvedSize c) (reply_size r)); [lia|].
    destruct (take_reply c next total k r (replies rs) more) as (c1 & E1 & Hb1 & _ & Hs1 & HR1 & Hp1); try done; [lia|].
    rewrite E1, bind_Ok. rewrite swrap_small by lia.
    destruct (Z.leb_spec (reply_size r) (m_RecvedSize c1)).
    + destruct (IH c1 (total + 1) (S k) rs more) as (m & c2 & k2 & E2 & Hm & Hb2 & HR2 & Hs2 & Hp2 & Hg2); try done;
        try (unfold reply_size in *; lia). { by eapply replies_ok_tail. }
      exists (S m), c2, k2. rewrite E2. replace (total + Z.of_nat (S m)) with (total + 1 + Z.of_nat m) by lia.
      split_and!; try done; [cbn; lia|]. intros Hg x Hx. apply Hg2; [by eapply sizes_grow_tail|done].
    + exists 1%nat, c1, (S k). split_and!; try done; try (unfold reply_size in *; cbn; lia).
      intros Hg x Hx. enough (reply_size r <= reply_size x) by lia. by apply (Hg 0%nat 1%nat); [lia|..].
Qed.

End Receiver.

(** *** Both threads *)

Definition pending (s : run_state) : list (list Z) := match cl_pending s with Some b => [b] | None => [] end.

(** When an event can happen: the sender alternates AddPacket and send; the server answers
    the hellos in order, each once and after it was sent; read blocks until there is a byte. *)
Definition event_ok (e : event) (s : run_state) : Prop :=
  match e with
  | EvAdd _ => cl_next s < MAX_TEST_PACKET_NUMBER * 2 ∧ cl_pending s = None
  | EvSend => cl_pending s ≠ None
  | EvReply r => (length (cl_replies s) < length (cl_sent s))%nat ∧ reply_ok (Z.of_nat (length (cl_replies s))) r
  | EvRead n => n ≠ O ∧ cl_in s ≠ []
  end.

Fixpoint events_ok (clock : nat → Z) (es : list event) (s : run_state) : Prop :=
  match es with
  | [] => True
  | e :: es => event_ok e s ∧ ∀ s', perform clock e s = Ok s' → events_ok clock es s'
  end.

Definition is_hello_frame (n : nat) (b : list Z) : Prop :=
  ∃ bs, b = frame CS_PROTOCOL_MESSAGE_ID_HELLO bs ∧ encodes (hello (Z.of_nat n)) bs.

Record run_inv (s : run_state) : Prop := {
  ri_next : 0 <= cl_next s <= MAX_TEST_PACKET_NUMBER * 2;
  ri_pool : pool_ok (cl_next s) (cl_total s) (m_stPacketPool (cl s));
  ri_count : Z.of_nat (length (cl_sent s ++ pending s)) = cl_next s;
  ri_sent : ∀ n b, (cl_sent s ++ pending s) !! n = Some b → is_hello_frame n b;
  ri_answers : (length (cl_replies s) <= length (cl_sent s))%nat;
  ri_replies : replies_ok 0 (cl_replies s);
  ri_total : 0 <= cl_total s <= Z.of_nat (length (cl_replies s));
  ri_buffer : buffer_ok (cl s);
  ri_room : m_RecvedSize (cl s) < 1024;
  ri_stream : received (cl s) ++ cl_in s = replies (drop (Z.to_nat (cl_total s)) (cl_replies s));
  ri_tight : sizes_grow (cl_replies s) →
    ∀ r, cl_replies s !! Z.to_nat (cl_total s) = Some r → m_RecvedSize (cl s) < reply_size r }.

Lemma start_inv fd : run_inv (run_start fd).
Proof.
  constructor; cbn [run_start cl_next cl_total cl_sent cl_replies cl cl_in]; try done.
  - split; intros j; [lia|]. intros p. cbn [ST_CLIENT_new m_stPacketPool]. by rewrite lookup_empty.
  - split; [done|]. split; [by apply Forall_replicate|cbn; lia].
Qed.

Lemma replies_drop_snoc n rs r : (n <= length rs)%nat → replies (drop n (rs ++ [r])) = replies (drop n rs) ++ reply_frame r.
Proof.
  intros Hn. unfold replies. rewrite drop_app_le, fmap_app, concat_app by done. cbn. by rewrite app_nil_r.
Qed.

Lemma reply_inv s r : run_inv s → event_ok (EvReply r) s →
  run_inv (mk_run (cl s) (cl_next s) (cl_pending s) (cl_sent s) (cl_total s) (cl_reads s)
             (cl_in s ++ reply_frame r) (cl_replies s ++ [r])).
Proof.
  intros [Hn Hp Hc Hs Ha Hr Ht Hb Hroom Hst Htight] [Hlt Hok].
  constructor; cbn [cl_next cl_total cl_sent cl_replies cl cl_in]; try done.
  - rewrite length_app. cbn. lia.
  - intros n x [Hx|[Hn' Hx]]%lookup_app_Some; [by apply Hr|].
    apply list_lookup_singleton_Some in Hx as [Hx ->]. replace n with (length (cl_replies s)) by lia. done.
  - rewrite length_app. cbn. lia.
  - rewrite (assoc_L (++)), Hst, replies_drop_snoc by lia. done.
  - intros Hg x [Hx|[Hge Hx]]%lookup_app_Some.
    + apply Htight; [|done]. intros i j y z Hij Hy Hz. apply (Hg i j); [done|by apply lookup_app_l_Some..].
    + rewrite drop_ge in Hst by done. apply app_nil in Hst as [Hst _].
      pose proof (length_received _ Hb) as Hlen. rewrite Hst in Hlen. cbn in Hlen.
      unfold reply_size. lia.
Qed.

Lemma add_inv s now bs :
  run_inv s → event_ok (EvAdd now) s → encodes (hello (cl_next s)) bs →
  run_inv (mk_run (client_AddPacket (cl s) (new_packet now (cl_next s) (hello_content (hello (cl_next s)))))
             (cl_next s + 1) (Some (frame CS_PROTOCOL_MESSAGE_ID_HELLO bs)) (cl_sent s) (cl_total s)
             (cl_reads s) (cl_in s) (cl_replies s)).
Proof.
  intros [Hn Hp Hc Hs Ha Hr Ht Hb Hroom Hst Htight] [Hlt Hpend] Hbs.
  unfold pending in Hc, Hs. rewrite Hpend, app_nil_r in Hc, Hs.
  constructor; cbn [cl_next cl_total cl_sent cl_replies cl cl_in]; try done.
  - lia.
  - destruct Hp as [Hp Hd]. unfold client_AddPacket, map_insert_new. cbn [set_pool m_stPacketPool new_packet m_iPacketNo].
    destruct (m_stPacketPool (cl s) !! cl_next s) as [q|] eqn:Eq; [apply Hd in Eq; lia|]. split.
    + intros j Hj. destruct (decide (j = cl_next s)) as [->|Hne].
      * rewrite lookup_insert_eq. eexists. split; [done|]. split; [|lia].
        split_and!; [done|by eexists|done|done].
      * rewrite lookup_insert_ne by done. apply Hp. lia.
    + intros j q. destruct (decide (j = cl_next s)) as [->|Hne]; [lia|]. rewrite lookup_insert_ne by done.
      intros Hq%Hd. lia.
  - unfold pending. cbn. rewrite length_app. cbn. lia.
  - unfold pending. cbn. intros n b [Hx|[Hge Hx]]%lookup_app_Some; [by apply Hs|].
    apply list_lookup_singleton_Some in Hx as [Hx <-]. exists bs. split; [done|].
    by replace (Z.of_nat n) with (cl_next s) by lia.
Qed.

Lemma finish_send_inv s :
  run_inv s → run_inv (mk_run (cl s) (cl_next s) None (cl_sent s ++ pending s) (cl_total s) (cl_reads s)
                         (cl_in s) (cl_replies s)).
Proof.
  intros [Hn Hp Hc Hs Ha Hr Ht Hb Hroom Hst Htight].
  constructor; cbn [cl_next cl_total cl_sent cl_replies cl cl_in]; try done.
  - unfold pending at 2. cbn. by rewrite app_nil_r.
  - unfold pending at 2. cbn. by rewrite app_nil_r.
  - rewrite length_app. lia.
Qed.

Lemma read_length_room c : 0 <= m_RecvedSize c < 1024 → read_length c = 1024 - m_RecvedSize c.
Proof.
  intros HR. unfold read_length, BUFFER_SIZE. rewrite (wrap_small 64 (m_RecvedSize c)) by lia.
  rewrite wrap_small by lia. destruct (Z.ltb_spec (1024 - m_RecvedSize c) 10240); [|lia].
  rewrite swrap_small by lia. destruct (Z.ltb_spec 0 (1024 - m_RecvedSize c)); lia.
Qed.

(** What read stores behind what is there. *)
Lemma store_read c bytes :
  buffer_ok c → Forall is_byte bytes → m_RecvedSize c + Z.of_nat (length bytes) <= 1024 →
  ∃ b, mem_write (m_Buffer c) (m_RecvedSize c) bytes = Ok b ∧
    buffer_ok (set_buffer c b (i32 (m_RecvedSize c + Z.of_nat (length bytes)))) ∧
    received (set_buffer c b (i32 (m_RecvedSize c + Z.of_nat (length bytes)))) = received c ++ bytes ∧
    i32 (m_RecvedSize c + Z.of_nat (length bytes)) = m_RecvedSize c + Z.of_nat (length bytes).
Proof.
  intros (Hl & Hbytes & HR) Hb Hfit. rewrite mem_write_Ok by lia. eexists. split; [done|].
  rewrite swrap_small by lia. split_and!; [| |done].
  - split; [|split]; cbn [set_buffer m_Buffer m_RecvedSize]; [rewrite length_splice; [done|lia]| |lia].
    unfold splice. repeat apply Forall_app_2; [by apply Forall_take|done|by apply Forall_drop].
  - unfold received. cbn [set_buffer m_Buffer m_RecvedSize]. unfold splice.
    rewrite (assoc_L (++)). apply take_app_length'. rewrite length_app, length_take. lia.
Qed.

Lemma replies_bytes i rs : replies_ok i rs → Forall is_byte (replies rs).
Proof.
  revert i. induction rs as [|r rs IH]; intros i Hrs; [constructor|]. apply Forall_app_2.
  - apply (reply_bytes i). pose proof (Hrs 0%nat r eq_refl) as Hr. by rewrite Z.add_0_r in Hr.
  - by eapply IH, replies_ok_tail.
Qed.

Lemma replies_ok_drop n rs : replies_ok 0 rs → replies_ok (Z.of_nat n) (drop n rs).
Proof. intros Hrs k r. rewrite lookup_drop. intros Hr%Hrs. by replace (Z.of_nat n + Z.of_nat k) with (0 + Z.of_nat (n + k)) by lia. Qed.

Lemma sizes_grow_drop n rs : sizes_grow rs → sizes_grow (drop n rs).
Proof. intros Hg i j x y Hij. rewrite !lookup_drop. apply Hg. lia. Qed.

Lemma read_keeps clock n s :
  (∀ k, 0 < clock k < 2 ^ 64) → run_inv s → event_ok (EvRead n) s →
  ∃ s', perform clock (EvRead n) s = Ok s' ∧ run_inv s'.
Proof.
  intros Hclock Hinv [Hn0 Hin]. cbn [perform]. destruct (Z.ltb_spec (cl_total s) (MAX_TEST_PACKET_NUMBER * 2)); [|by exists s].
  destruct Hinv as [Hn Hp Hc Hs Ha Hr Ht Hb Hroom Hst Htight].
  rewrite read_length_room by (split; [apply Hb|done]).
  set (m := Nat.min n _). pose proof (length_received _ Hb) as Hlen.
  assert (0 < length (cl_in s))%nat by (destruct (cl_in s); [done|cbn; lia]).
  assert (Forall is_byte (cl_in s)) as Hbytes.
  { apply (proj2 (A := Forall is_byte (received (cl s)))), Forall_app. rewrite Hst.
    eapply replies_bytes, replies_ok_drop, Hr. }
  destruct (store_read (cl s) (take m (cl_in s)) Hb) as (b & Eb & Hb1 & Hr1 & Er);
    [by apply Forall_take|rewrite length_take; lia|].
  unfold recv_round.
  assert (∀ x y : res (list Z), match take m (cl_in s) with [] => x | _ => y end = y) as ->.
  { intros x y. destruct (take m (cl_in s)) eqn:Em; [|done]. apply (f_equal length) in Em.
    rewrite length_take in Em. cbn in Em. lia. }
  rewrite Eb, bind_Ok. cbv zeta. set (c1 := set_buffer _ _ _) in *.
  destruct (reply_loop_spec clock Hclock (cl_next s) (S (Z.to_nat BUFFER_SIZE)) c1 (cl_total s) (cl_reads s)
    (drop (Z.to_nat (cl_total s)) (cl_replies s)) (drop m (cl_in s)))
    as (j & c2 & k2 & E & Hj & Hb2 & Hroom2 & Hs2 & Hp2 & Hg2); try done.
  { change (m_RecvedSize c1) with (i32 (m_RecvedSize (cl s) + Z.of_nat (length (take m (cl_in s))))).
    rewrite Er, length_take. unfold BUFFER_SIZE. pose proof (proj2 (proj2 Hb)). lia. }
  { lia. }
  { rewrite length_drop. rewrite length_app in Hc. lia. }
  { unfold MAX_TEST_PACKET_NUMBER in Hn. lia. }
  { pose proof (replies_ok_drop (Z.to_nat (cl_total s)) _ Hr) as Hd. by rewrite Z2Nat.id in Hd by lia. }
  { by rewrite Hr1, <- (assoc_L (++)), take_drop. }
  rewrite bind_Ok, E, bind_Ok. eexists. split; [done|]. rewrite length_drop in Hj.
  assert (Z.to_nat (cl_total s + Z.of_nat j) = (Z.to_nat (cl_total s) + j)%nat) as Etot by lia.
  constructor; cbn [cl_next cl_total cl_sent cl_replies cl cl_in]; try done; [lia| |].
  - by rewrite Hs2, drop_drop, Etot.
  - intros Hg r Hx. apply Hg2; [by apply sizes_grow_drop|]. by rewrite lookup_drop, <- Etot.
Qed.

Lemma perform_keeps clock e s :
  (∀ k, 0 < clock k < 2 ^ 64) → (∀ i, 0 <= i < MAX_TEST_PACKET_NUMBER * 2 → ByteSizeLong (hello i) <= 10240) →
  run_inv s → event_ok e s → ∃ s', perform clock e s = Ok s' ∧ run_inv s'.
Proof.
  intros Hclock Hfit Hinv He. destruct e as [now| |r|n]; cbn [perform].
  - pose proof Hinv as [Hn Hp Hc Hs Ha Hr Ht Hb Hroom Hst Htight]. destruct He as [Hlt Hpend].
    destruct (prepare_msg_spec now (cl_next s) (msg_size (cl_next s))) as (bs & E & Hbs);
      [lia|unfold msg_size; destruct (_ <? _); lia|apply (Hfit (cl_next s)); lia|].
    rewrite E, bind_Ok. eexists. split; [done|]. by apply add_inv.
  - eexists. split; [done|]. by apply finish_send_inv.
  - eexists. split; [done|]. by apply reply_inv.
  - by apply read_keeps.
Qed.

(** *** The statistics at the end *)

Lemma statistics_loop_spec f ps :
  fopen_ok f = true → lock_ok f = true → unlock_ok f = true →
  Forall (λ p, m_bRecvTTLSucc p = Some true) ps →
  ∃ lines, statistics_loop f ps = Ok (lines, false) ∧ length lines = length ps.
Proof.
  intros H1 H2 H3. induction 1 as [|p ps Hp _ (lines & E & Hl)]; [by exists []|]. cbn [statistics_loop].
  unfold PrintTTL. rewrite Hp. cbn [written_value]. rewrite bind_Ok. cbn [c_assert]. rewrite bind_Ok.
  unfold CalcStatistics, lock_file, unlock_file. rewrite H1, H2, H3. cbn [negb]. rewrite bind_Ok, E, bind_Ok.
  eexists. split; [done|]. cbn. by rewrite Hl.
Qed.

Lemma length_packets m : length (packets_in_order m) = size m.
Proof.
  unfold packets_in_order. rewrite <- (length_map_to_list m), <- (length_fmap fst (map_to_list m)).
  rewrite <- (Permutation_length (merge_sort_Permutation Z.le (map_to_list m).*1)).
  assert (∀ k, k ∈ merge_sort Z.le (map_to_list m).*1 → is_Some (m !! k)) as Hin.
  { intros k. rewrite (merge_sort_Permutation Z.le (map_to_list m).*1). intros ([k' p] & -> & Hp)%list_elem_of_fmap.
    apply elem_of_map_to_list in Hp. by exists p. }
  induction (merge_sort _ _) as [|k l IH]; [done|]. cbn.
  destruct (Hin k) as [p Hp]; [left|]. rewrite Hp. cbn. f_equal. apply IH. intros k' Hk'. apply Hin. by right.
Qed.

Lemma packets_in_pool m : Forall (λ p, ∃ j, m !! j = Some p) (packets_in_order m).
Proof.
  apply list.Forall_forall. intros p Hp. apply list_elem_of_omap in Hp as (k & _ & Hk). by exists k.
Qed.

Lemma pool_size next total m : 0 <= next → pool_ok next total m → size m = Z.to_nat next.
Proof.
  intros Hn [Hp Hd]. rewrite <- size_dom.
  assert (dom m = list_to_set (seqZ 0 next)) as ->.
  { apply set_eq. intros j. rewrite elem_of_dom, elem_of_list_to_set, elem_of_seqZ. split.
    - intros [p Hj%Hd]. lia.
    - intros Hj. destruct (Hp j) as (p & Hm & _); [lia|]. by exists p. }
  rewrite size_list_to_set by apply NoDup_seqZ. by rewrite length_seqZ.
Qed.

(** ** The sending thread alone *)

Lemma AddPacket_keeps c p j :
  is_Some (m_stPacketPool c !! j) ∨ j = m_iPacketNo p → is_Some (m_stPacketPool (client_AddPacket c p) !! j).
Proof.
  unfold client_AddPacket, map_insert_new. cbn [set_pool m_stPacketPool].
  destruct (decide (j = m_iPacketNo p)) as [->|Hne].
  - intros _. destruct (m_stPacketPool c !! m_iPacketNo p) eqn:E; [by rewrite E|]. rewrite lookup_insert_eq. by eexists.
  - intros [Hj|?]; [|done]. destruct (m_stPacketPool c !! m_iPacketNo p); [done|]. by rewrite lookup_insert_ne.
Qed.

Lemma send_msg_loop_spec clock answers n size : ∀ i c total out,
  0 <= i → (∀ j, i <= j < i + Z.of_nat n → msg_size j = size ∧ ByteSizeLong (hello j) <= 10240) →
  (∀ k, 20000 <= answers k) → length out = Z.to_nat i → (∀ k b, out !! k = Some b → is_hello_frame k b) →
  ∃ c' total' out', send_msg_loop clock answers n i size c total out = Ok (c', total', out') ∧
    length out' = Z.to_nat (i + Z.of_nat n) ∧ (∀ k b, out' !! k = Some b → is_hello_frame k b) ∧
    (∀ j, is_Some (m_stPacketPool c !! j) ∨ i <= j < i + Z.of_nat n → is_Some (m_stPacketPool c' !! j)).
Proof.
  induction n as [|n IH]; intros i c total out Hi Hsize Hans Hl Hout.
  - exists c, total, out. rewrite Z.add_0_r. split_and!; try done. intros j [?|?]; [done|lia].
  - cbn [send_msg_loop]. unfold do_send_msg. destruct (Hsize i) as [Es Hfit]; [lia|].
    destruct (prepare_msg_spec (clock (Z.to_nat i)) i size) as (bs & E & Hbs);
      [lia|subst size; unfold msg_size; destruct (_ <? _); lia|by subst size|].
    rewrite E, !bind_Ok. rewrite take_ge.
    2:{ rewrite length_frame, <- Es in *. change (mkCSHello i _) with (hello i) in Hbs.
        destruct Hbs as (_ & Hlen & _). specialize (Hans (Z.to_nat i)). lia. }
    set (c1 := client_AddPacket c _). rewrite <- Es in Hbs.
    destruct (IH (i + 1) c1 (i32 (total + i32 (answers (Z.to_nat i)))) (out ++ [frame CS_PROTOCOL_MESSAGE_ID_HELLO bs]))
      as (c' & total' & out' & E' & Hl' & Hout' & Hp'); try done.
    + lia.
    + intros j Hj. apply Hsize. lia.
    + rewrite length_app. cbn. lia.
    + intros k b [Hk|[Hk Hb]]%lookup_app_Some; [by apply Hout|].
      apply list_lookup_singleton_Some in Hb as [Hk' <-]. exists bs. split; [done|]. by replace (Z.of_nat k) with i by lia.
    + exists c', total', out'. split; [exact E'|]. split; [rewrite Hl'; f_equal; lia|]. split; [done|].
      intros j Hj. apply Hp'. destruct (decide (i + 1 <= j < i + 1 + Z.of_nat n)); [by right|left].
      apply AddPacket_keeps. cbn. destruct Hj; [by left|right; lia].
Qed.

(** send_msg sends the two hundred hellos in order, each after its packet is in the table. *)
Theorem send_msg_sends_hellos clock answers c :
  (∀ i, 0 <= i < MAX_TEST_PACKET_NUMBER * 2 → ByteSizeLong (hello i) <= 10240) → (∀ k, 20000 <= answers k) →
  ∃ c' total out, send_msg clock answers c = Ok (c', total, out) ∧ length out = 200%nat ∧
    (∀ n b, out !! n = Some b → is_hello_frame n b) ∧
    (∀ i, 0 <= i < 200 → is_Some (m_stPacketPool c' !! i)).
Proof.
  intros Hfit Hans. unfold send_msg, MAX_TEST_PACKET_NUMBER in *.
  destruct (send_msg_loop_spec clock answers (Z.to_nat (1 * 100)) 250 0 c 0 []) as (c1 & t1 & o1 & E1 & Hl1 & Ho1 & Hp1);
    [lia| |exact Hans|reflexivity|by intros [|?] ?|].
  { intros j Hj. split; [|apply Hfit; lia]. unfold msg_size, MAX_TEST_PACKET_NUMBER.
    destruct (Z.ltb_spec j (1 * 100)); [done|lia]. }
  rewrite E1, bind_Ok.
  destruct (send_msg_loop_spec clock answers (Z.to_nat (1 * 100)) 512 (1 * 100) c1 t1 o1) as (c2 & t2 & o2 & E2 & Hl2 & Ho2 & Hp2);
    [lia| |exact Hans|exact Hl1|exact Ho1|].
  { intros j Hj. split; [|apply Hfit; lia]. unfold msg_size, MAX_TEST_PACKET_NUMBER.
    destruct (Z.ltb_spec j (1 * 100)); [lia|done]. }
  exists c2, t2, o2. split; [exact E2|]. split; [exact Hl2|]. split; [done|]. intros i Hi. apply Hp2.
  destruct (decide (i < 100)); [left; apply Hp1; right; lia|right; lia].
Qed.

(** ** The client *)

Lemma events_keep clock es : ∀ s,
  (∀ k, 0 < clock k < 2 ^ 64) → (∀ i, 0 <= i < MAX_TEST_PACKET_NUMBER * 2 → ByteSizeLong (hello i) <= 10240) →
  run_inv s → events_ok clock es s → ∃ s', run_events clock es s = Ok s' ∧ run_inv s'.
Proof.
  induction es as [|e es IH]; intros s Hclock Hfit Hinv Hok; cbn [run_events]; [by exists s|].
  destruct Hok as [He Hok]. destruct (perform_keeps clock e s Hclock Hfit Hinv He) as (s1 & E & Hinv1).
  rewrite E, bind_Ok. by apply IH, Hok.
Qed.

(** C13: the test client accepts what the server promises.  However its sending thread, its
    receiving thread and a server that answers the hellos in order interleave, and whatever
    the portions in which the replies arrive (framed sizes from 256 to 1024 bytes): no access
    leaves a buffer and no assertion fails; every buffer sent is the frame of the next hello;
    the buffer and the connection hold exactly the replies not handled yet; each handled
    reply is recorded with the content that was sent.  When the sizes of the replies do not
    decrease, none is left waiting once the connection is empty, and after two hundred
    replies the statistics of all packets are printed. *)
Theorem client_accepts_replies clock fd es :
  (∀ k, 0 < clock k < 2 ^ 64) → (∀ i, 0 <= i < MAX_TEST_PACKET_NUMBER * 2 → ByteSizeLong (hello i) <= 10240) →
  events_ok clock es (run_start fd) →
  ∃ s, run_events clock es (run_start fd) = Ok s ∧
    (∀ n b, cl_sent s !! n = Some b → is_hello_frame n b) ∧
    received (cl s) ++ cl_in s = replies (drop (Z.to_nat (cl_total s)) (cl_replies s)) ∧
    (∀ i, 0 <= i < cl_total s → ∃ p, m_stPacketPool (cl s) !! i = Some p ∧ packet_answered i p) ∧
    (sizes_grow (cl_replies s) → cl_in s = [] → cl_total s = Z.of_nat (length (cl_replies s))) ∧
    (cl_total s = MAX_TEST_PACKET_NUMBER * 2 → ∀ f, fopen_ok f = true → lock_ok f = true → unlock_ok f = true →
      ∃ lines, Statistics f (cl s) = Ok (lines, false) ∧ length lines = 200%nat).
Proof.
  intros Hclock Hfit Hok. destruct (events_keep clock es _ Hclock Hfit (start_inv fd) Hok) as (s & E & Hinv).
  exists s. split; [done|]. destruct Hinv as [Hn Hp Hc Hs Ha Hr Ht Hb Hroom Hst Htight].
  assert (Z.of_nat (length (cl_replies s)) <= cl_next s) as Hcount by (rewrite length_app in Hc; lia).
  split; [intros n b Hx; apply Hs; by apply lookup_app_l_Some|]. split; [done|]. split; [|split].
  - intros i Hi. destruct (proj1 Hp i ltac:(lia)) as (p & Hm & _ & Hans). exists p. split; [done|]. apply Hans. lia.
  - intros Hg Hin. rewrite Hin, app_nil_r in Hst.
    destruct (decide (cl_total s < Z.of_nat (length (cl_replies s)))) as [Hlt|]; [|lia]. exfalso.
    destruct (lookup_lt_is_Some_2 (cl_replies s) (Z.to_nat (cl_total s))) as [r Hx]; [lia|].
    pose proof (Htight Hg r Hx) as Hsize. rewrite <- (length_received _ Hb), Hst in Hsize.
    rewrite (drop_S _ _ _ Hx) in Hsize. unfold replies in Hsize. rewrite fmap_cons in Hsize.
    cbn [concat] in Hsize. rewrite length_app in Hsize. pose proof (length_reply r). lia.
  - intros Et f H1 H2 H3. unfold MAX_TEST_PACKET_NUMBER in *.
    destruct (statistics_loop_spec f (packets_in_order (m_stPacketPool (cl s))) H1 H2 H3) as (lines & El & Hl).
    + eapply list.Forall_impl; [apply packets_in_pool|]. intros p [j Hj]. pose proof (proj2 Hp j p Hj) as Hjn.
      destruct (proj1 Hp j Hjn) as (q & Hq & _ & Hans). rewrite Hj in Hq. injection Hq as <-. apply Hans. lia.
    + exists lines. split; [exact El|]. rewrite Hl, length_packets, (pool_size _ _ _ (proj1 Hn) Hp). lia.
Qed.

(** *** What goes wrong otherwise *)

(** A complete reply that is smaller than the one before it stays in the buffer: the loop
    compares what is left with the size of the reply it has just handled, and the next read
    waits for more bytes. *)
Theorem smaller_reply_waits clock c next total k r1 r2 :
  (∀ k, 0 < clock k < 2 ^ 64) → buffer_ok c → 0 <= total < next → next < 2147483648 →
  pool_ok next total (m_stPacketPool c) → reply_ok total r1 →
  received c = reply_frame r1 ++ reply_frame r2 → reply_size r2 < reply_size r1 →
  ∃ c', reply_loop 2 clock c total k = Ok (c', total + 1, S k) ∧ received c' = reply_frame r2.
Proof.
  intros Hclock Hb Ht Hn Hp Hr Hs Hlt. pose proof (length_received c Hb) as Hlen.
  rewrite Hs, length_app in Hlen. pose proof (length_reply r1). pose proof (length_reply r2).
  pose proof (proj2 (proj2 Hr)) as Hsize. unfold reply_size in *.
  destruct (loop_header c total r1 [] (reply_frame r2)) as (hd & Ehd & Hcase); try done;
    [lia|by rewrite app_nil_r|]. unfold reply_size in Hcase. cbn [reply_loop]. rewrite Ehd, bind_Ok.
  destruct Hcase as [Hbad|[Ev _]]; [lia|]. rewrite Ev. destruct (Z.ltb_spec (m_RecvedSize c) (Z.of_nat (length r1.1) + 12)); [lia|].
  destruct (take_reply clock Hclock c next total k r1 (reply_frame r2) []) as (c1 & E1 & _ & _ & Hs1 & HR1 & _);
    try done; try (unfold reply_size; lia); [by rewrite app_nil_r|]. unfold reply_size in E1, HR1.
  rewrite E1, bind_Ok, swrap_small by lia. destruct (Z.leb_spec (Z.of_nat (length r1.1) + 12) (m_RecvedSize c1)); [lia|].
  exists c1. split; [done|]. by rewrite app_nil_r in Hs1.
Qed.

(** A failed read is counted as -1 byte: when nothing was buffered, the next read stores in
    front of the buffer. *)
Theorem failed_read_moves_back clock c total k bytes :
  length (m_Buffer c) = 1024%nat → Forall is_byte (m_Buffer c) → m_RecvedSize c = 0 → bytes ≠ [] →
  ∃ c', recv_round clock None c total k = Ok (c', total, k) ∧
    recv_round clock (Some bytes) c' total k = Fault OutOfBounds.
Proof.
  intros Hl Hb HR Hne. unfold recv_round. rewrite bind_Ok, HR. change (i32 (0 + u64 (-1))) with (-1).
  exists (set_buffer c (m_Buffer c) (-1)). split; [|by destruct bytes].
  remember (Z.to_nat BUFFER_SIZE) as n. cbn [reply_loop set_buffer m_Buffer m_RecvedSize].
  rewrite mem_read_Ok by lia. rewrite bind_Ok.
  assert (0 <= bswap 2 (le_value (take (Z.to_nat 2) (drop (Z.to_nat 0) (m_Buffer c))))).
  { unfold bswap. apply le_value_bound, Forall_rev, le_bytes_byte. }
  destruct (Z.ltb_spec (-1) (bswap 2 (le_value (take (Z.to_nat 2) (drop (Z.to_nat 0) (m_Buffer c)))))); [done|lia].
Qed.

(** When the connection is refused, the message of the client is formatted with its port as
    a pointer. *)
Theorem refused_connection_undefined port a addr :
  ca_host a = Some addr → (length addr <= 12)%nat → 0 < port < 32768 → 0 <= ca_socket a → ca_connect a < 0 →
  connect_remote port a = Fault Undefined.
Proof.
  intros Hh Hl Hp Hs Hc. unfold connect_remote. rewrite Hh.
  assert (∃ p, remote_port port a = Ok p) as (p & ->).
  { unfold remote_port. destruct (ca_serv_port a) as [p|]; [by exists p|]. cbv zeta. destruct (Z.eqb_spec (bswap 2 (u16 port)) 0) as [E|]; [|by eexists].
    exfalso. assert (le_bytes 2 (bswap 2 (u16 port)) = [0; 0]) as E2 by by rewrite E.
    rewrite le_bytes_bswap in E2. pose proof (swapped_be 2 (u16 port)) as Ev. rewrite E2 in Ev.
    change (8 * Z.of_nat 2) with 16 in Ev. rewrite !wrap_small in Ev by (rewrite ?wrap_small; lia).
    change (bswap 2 (le_value [0; 0])) with 0 in Ev. lia. }
  rewrite bind_Ok, mem_write_Ok by (rewrite ?length_replicate; lia). rewrite !bind_Ok.
  destruct (Z.ltb_spec (ca_socket a) 0); [lia|]. by destruct (Z.ltb_spec (ca_connect a) 0); [|lia].
Qed.

(** The numbers of slow and fast packets are printed but never initialised. *)
Theorem slow_and_fast_indeterminate f p i lines :
  packet_answered i p → PrintTTL f p = Ok (lines, false) → Forall (λ line, drop 7 line = [None; None]) lines.
Proof.
  intros ((_ & _ & Hs & Hf) & Hb & _). unfold PrintTTL. rewrite Hb. cbn [written_value]. rewrite bind_Ok.
  cbn [c_assert]. rewrite bind_Ok. intros [= E]. unfold CalcStatistics in E.
  destruct (negb (fopen_ok f)); [done|]. destruct (negb (lock_file f)); [done|]. injection E as <- _.
  repeat constructor. cbn. by rewrite Hs, Hf.
Qed.

(** ** The client and the libevent server *)

(** Replies that may be written in a state. *)
Lemma replies_legal clock rs : ∀ s,
  (length (cl_replies s) + length rs <= length (cl_sent s))%nat →
  replies_ok (Z.of_nat (length (cl_replies s))) rs →
  events_ok clock (EvReply <$> rs) s ∧
  ∃ s', run_events clock (EvReply <$> rs) s = Ok s' ∧ cl_in s' = cl_in s ++ replies rs.
Proof.
  induction rs as [|r rs IH]; intros s Hl Hok.
  - split; [done|]. exists s. split; [done|]. by rewrite app_nil_r.
  - cbn [length] in Hl. rewrite fmap_cons. cbn [events_ok run_events perform]. rewrite bind_Ok.
    pose proof (Hok 0%nat r eq_refl) as Hr. rewrite Z.add_0_r in Hr. apply replies_ok_tail in Hok.
    set (s1 := mk_run _ _ _ _ _ _ _ _). destruct (IH s1) as (Hev & s' & E & Hin).
    { cbn. rewrite length_app. cbn. lia. }
    { cbn. rewrite length_app. cbn. by replace (Z.of_nat (length (cl_replies s) + 1)) with (Z.of_nat (length (cl_replies s)) + 1) by lia. }
    split.
    + split; [split; [lia|done]|]. intros s2 [= <-]. exact Hev.
    + exists s'. split; [exact E|]. rewrite Hin. cbn. by rewrite <- (assoc_L (++)).
Qed.

(** Buffers that were sent, as the messages of a stream. *)
Lemma sent_messages (bufs : list (list Z)) i :
  (∀ n b, bufs !! n = Some b → is_hello_frame (i + n) b) →
  ∃ bss, bufs = frame CS_PROTOCOL_MESSAGE_ID_HELLO <$> bss ∧
    ∀ n bs, bss !! n = Some bs → encodes (hello (Z.of_nat (i + n))) bs.
Proof.
  revert i. induction bufs as [|b bufs IH]; intros i Hb; [by exists []|].
  destruct (Hb 0%nat b eq_refl) as (bs & -> & Hbs). rewrite Nat.add_0_r in Hbs.
  destruct (IH (S i)) as (bss & -> & Hbss).
  { intros n b' Hb'. replace (S i + n)%nat with (i + S n)%nat by lia. by apply Hb. }
  exists (bs :: bss). split; [done|]. intros [|n] x Hx; cbn in Hx.
  - injection Hx as <-. by rewrite Nat.add_0_r.
  - replace (i + S n)%nat with (S i + n)%nat by lia. by apply Hbss.
Qed.

(** The replies of the server with the times at which they were written. *)
Fixpoint timed (now : nat → Z) (k : nat) (rps : list packet) : list (list Z * Z) :=
  match rps with
  | [] => []
  | rp :: rps => (pk_body rp, now k) :: timed now (S k) rps
  end.

Lemma timed_frames now k rps :
  Forall (λ rp, pk_proto rp = CS_PROTOCOL_MESSAGE_ID_HELLO) rps → frames (stamped now k rps) = replies (timed now k rps).
Proof.
  intros Hp. revert k. induction Hp as [|rp rps Hrp _ IH]; intros k; [done|].
  cbn [stamped timed]. rewrite frames_cons. cbn [fst snd]. rewrite Hrp, IH. done.
Qed.

Lemma timed_lookup now k rps n r :
  timed now k rps !! n = Some r → ∃ rp, rps !! n = Some rp ∧ r.1 = pk_body rp.
Proof.
  revert k n. induction rps as [|rp rps IH]; intros k [|n] Hr; cbn in Hr; try done.
  - injection Hr as <-. by exists rp.
  - by apply (IH (S k)).
Qed.

Lemma length_timed now k rps : length (timed now k rps) = length rps.
Proof. revert k. induction rps as [|rp rps IH]; intros k; cbn; [done|by rewrite IH]. Qed.

(** A reply of the server to hello [i], when the client can take its size. *)
Lemma answer_reply i bs seq fd rp ts :
  encodes (hello i) bs → answers_hello (mk_pkt seq fd CS_PROTOCOL_MESSAGE_ID_HELLO bs) rp →
  244 <= Z.of_nat (length (pk_body rp)) <= 1012 → reply_ok i (pk_body rp, ts).
Proof.
  intros (Hparse & _) (_ & _ & _ & t1 & t2 & Hans) Hsize. cbn [pk_body] in Hans. rewrite Hparse in Hans.
  destruct Hans as (Hp & _ & Hb). split; [|split; done]. exists (u64 t1), (u64 t2). exact Hp.
Qed.

(** The states of a client that runs with a server that keeps its promise. *)
Definition client_reached (clock : nat → Z) (s : run_state) : Prop :=
  ∃ fd es, events_ok clock es (run_start fd) ∧ run_events clock es (run_start fd) = Ok s.

(** The hellos that were sent and not answered. *)
Definition unanswered (s : run_state) : list (list Z) := drop (length (cl_replies s)) (cl_sent s).

Lemma reached_messages clock s :
  (∀ k, 0 < clock k < 2 ^ 64) →
  (∀ i, 0 <= i < MAX_TEST_PACKET_NUMBER * 2 → 0 < ByteSizeLong (hello i) <= 10240) →
  client_reached clock s →
  ∃ bss, unanswered s = frame CS_PROTOCOL_MESSAGE_ID_HELLO <$> bss ∧
    (length (cl_replies s) + length bss = length (cl_sent s))%nat ∧ (length (cl_sent s) <= 200)%nat ∧
    ∀ n bs, bss !! n = Some bs →
      encodes (hello (Z.of_nat (length (cl_replies s) + n))) bs ∧ 0 < Z.of_nat (length bs) <= 10240.
Proof.
  intros Hclock Hfit (fd & es & Hok & E).
  destruct (events_keep clock es (run_start fd)) as (s' & E' & Hinv); [done| |apply start_inv|done|].
  { intros i Hi. by apply Hfit. }
  rewrite E in E'. injection E' as <-. destruct Hinv as [Hn _ Hc Hs Ha _ _ _ _ _ _].
  destruct (sent_messages (unanswered s) (length (cl_replies s))) as (bss & Eb & Hb).
  { intros n b. unfold unanswered. rewrite lookup_drop. intros Hx. apply Hs. by apply lookup_app_l_Some. }
  assert (length (unanswered s) = (length (cl_sent s) - length (cl_replies s))%nat) as Hl by apply length_drop.
  rewrite Eb, length_fmap in Hl. rewrite length_app in Hc. unfold MAX_TEST_PACKET_NUMBER in *.
  exists bss. split; [done|]. split; [lia|]. split; [lia|]. intros n bs Hx. pose proof (Hb n bs Hx) as Hbs. split; [done|].
  rewrite (proj1 (proj2 Hbs)). apply Hfit. apply lookup_lt_Some in Hx. lia.
Qed.

(** C12: the libevent server keeps the promise the client relies on.  In any state the client
    can reach, let the hellos it has sent and that were not answered, whose replies fit into a
    packet, arrive at a server that has the client registered and is idle: its command pipe is
    empty, nothing waits to be sent, nothing is in its receive queue, and the client's buffer
    is empty.  Then the read callback, one round of the logic thread and one command of the
    network thread take them and write one reply for each, in order, to the descriptor of the
    client; and when the replies have a size the client can take (244 to 1012 bytes), these
    bytes are a continuation the client accepts. *)
Theorem server_answers_client clock now now' now'' fuel os k j (sv : LibeventServer) p fd seq O (s : run_state) :
  pipe_answers fuel os → server_ready sv → lv_pipe sv = [] →
  clients_live (lv_ctx sv) → send_idle (sv_net (lv_ctx sv)) →
  receiving (lv_ctx sv) p fd seq O [] [] → GetClient (sv_pool (lv_ctx sv)) seq = Some p →
  (∀ k, 0 < clock k < 2 ^ 64) →
  (∀ i, 0 <= i < MAX_TEST_PACKET_NUMBER * 2 → 0 < ByteSizeLong (hello i) <= 10240) →
  (∀ i t1 t2, 0 <= i < MAX_TEST_PACKET_NUMBER * 2 →
     ByteSizeLong (mkCSHelloRsp i (hello_content (hello i)) (u64 t1) (u64 t2)) <= 10240) →
  client_reached clock s → unanswered s ≠ [] →
  ∃ W1 s1 s2 k' j' out rs,
    OnBufferEventRead now (lv_ctx sv) fd (concat (unanswered s)) = Ok (W1, [], []) ∧
    _ProcessCSNetworkPacket now' fuel os k j (set_server_ctx sv W1)
      = Ok (Z.of_nat (length (unanswered s)), s1, k', j') ∧
    ReceiveCmd now'' s1 = Ok (s2, out) ∧
    concat (snd <$> out) = replies rs ∧ fst <$> out = replicate (length (unanswered s)) fd ∧
    length rs = length (unanswered s) ∧
    (Forall (λ r, 244 <= Z.of_nat (length r.1) <= 1012) rs →
       events_ok clock (EvReply <$> rs) s ∧
       ∃ s', run_events clock (EvReply <$> rs) s = Ok s' ∧ cl_in s' = cl_in s ++ concat (snd <$> out)).
Proof.
  intros Hos Hready Hpipe Hlive Hidle Hrcv Hseq Hclock Hfit Hrsp Hreach Hne.
  destruct (reached_messages clock s Hclock Hfit Hreach) as (bss & Eb & Hcount & Hmax & Hb). rewrite Eb in *.
  set (ms := (λ bs, (CS_PROTOCOL_MESSAGE_ID_HELLO, bs)) <$> bss).
  assert (concat (frame CS_PROTOCOL_MESSAGE_ID_HELLO <$> bss) = frames ms ++ []) as Ems.
  { rewrite app_nil_r. unfold frames, ms. by rewrite <- list_fmap_compose. }
  assert (filter is_hello (delivered seq fd ms) = delivered seq fd ms) as Hall.
  { apply filter_all. intros pk. unfold delivered, ms. rewrite <- list_fmap_compose.
    by intros (bs & -> & _)%list_elem_of_fmap. }
  destruct (libevent_answers is_hello answers_hello hello_peer HandleCSProto hello_fits HandleCSProto_promise
    hello_sendable cs_batch now now' now'' fuel os k j sv p fd seq O [] (frames ms ++ []) ms [])
    as (W1 & s1 & s2 & k' & j' & rps & out & E1 & E2 & E3 & Hans & Eout & Efd); try done.
  { apply Forall_fmap, Forall_lookup. intros n bs Hx. destruct (Hb n bs Hx) as [_ Hl]. split; [done|exact Hl]. }
  { apply partial_nil. }
  { intros Em. apply Hne. unfold ms in Em. by apply fmap_nil_inv in Em as ->. }
  { unfold delivered, ms. rewrite <- list_fmap_compose. apply Forall_fmap, Forall_lookup. intros n bs Hx t1 t2.
    destruct (Hb n bs Hx) as [(Hp & _) _]. cbn. rewrite Hp. cbn. apply (Hrsp (Z.of_nat (length (cl_replies s) + n))).
    apply lookup_lt_Some in Hx. unfold MAX_TEST_PACKET_NUMBER. lia. }
  { unfold ms. rewrite length_fmap. lia. }
  rewrite Hall in Hans. assert (length rps = length bss) as Hlr.
  { apply Forall2_length in Hans. unfold delivered, ms in Hans. by rewrite !length_fmap in Hans. }
  rewrite timed_frames in Eout.
  2:{ apply Forall_lookup. intros n rp Hx. destruct (Forall2_lookup_r _ _ _ _ _ Hans Hx) as (pk & _ & Ha). apply Ha. }
  exists W1, s1, s2, k', j', out, (timed now'' 1 rps). rewrite Ems. split; [exact E1|].
  assert (length ms = length bss) as Hlm by (unfold ms; by rewrite length_fmap).
  rewrite Hlm in E2. rewrite length_fmap, length_timed, Efd, Eout, Hlr. split_and!; try done.
  intros Hsizes. apply (replies_legal clock (timed now'' 1 rps) s).
  - rewrite length_timed. lia.
  - intros n r Hr. rewrite Forall_lookup in Hsizes. pose proof (Hsizes n r Hr) as Hsize.
    destruct (timed_lookup _ _ _ _ _ Hr) as (rp & Hrp & Er). destruct r as [body ts]. cbn [fst] in Er, Hsize. subst body.
    destruct (Forall2_lookup_r _ _ _ _ _ Hans Hrp) as (pk & Hpk & Ha).
    unfold delivered, ms in Hpk. rewrite <- list_fmap_compose, list_lookup_fmap in Hpk.
    destruct (bss !! n) as [bs|] eqn:Hx; [|done]. injection Hpk as <-. rewrite <- Nat2Z.inj_add.
    by eapply answer_reply; [apply (Hb n bs Hx)|exact Ha|].
Qed.
End Client.

(** ** Witnesses *)

#[local] Existing Instance text_codec | 0.

#[local] Instance text_hello : Protobuf CSHello :=
  codec_protobuf (fun a : Z * list Z => mkCSHello a.1 a.2) (fun m => (hello_id m, hello_content m))
    (fun m => match m with mkCSHello _ _ => eq_refl end) (mkCSHello 0 []).
#[local] Instance text_hello_rsp : Protobuf CSHelloRsp :=
  codec_protobuf (fun a : (Z * list Z) * (Z * Z) => mkCSHelloRsp a.1.1 a.1.2 a.2.1 a.2.2)
    (fun m => ((rsp_id m, rsp_content m), (unpack_timestamp m, logic_timestamp m)))
    (fun m => match m with mkCSHelloRsp _ _ _ _ => eq_refl end) (mkCSHelloRsp 0 [] 0 0).

Lemma text_sizes : ∀ i, 0 <= i < 200 → 0 < Z.of_nat (length (enc (i, hello_content (hello i)))) <= 9000.
Proof.
  assert (Forall (λ i, 0 < Z.of_nat (length (enc (i, hello_content (hello i)))) <= 9000) (seqZ 0 200)) as Hall.
  { refine (bool_decide_unpack _ _). vm_compute. exact I. }
  rewrite list.Forall_forall in Hall. intros i Hi. apply Hall, elem_of_seqZ. lia.
Qed.

Lemma events_ok_cons `{Protobuf CSHello, Protobuf CSHelloRsp} clock e es s s' :
  perform clock e s = Ok s' → event_ok e s → events_ok clock es s' → events_ok clock (e :: es) s.
Proof. intros E He Hes. split; [done|]. intros s1 E1. rewrite E in E1. by injection E1 as <-. Qed.

Definition demo_clock (k : nat) : Z := 1000.
Definition demo_reply (i : Z) : list Z * Z := (enc ((i, hello_content (hello i)), (400, 500)), 600).

Lemma demo_reply_ok i : i = 0 ∨ i = 1 → reply_ok i (demo_reply i).
Proof.
  intros [-> | ->]; (split; [exists 400, 500; vm_compute; reflexivity|]);
    (split; [apply enc_bytes|vm_compute; split; discriminate]).
Qed.

(** Two hellos are answered; the replies arrive in portions. *)
Definition demo_events : list event :=
  [EvAdd 5; EvSend; EvReply (demo_reply 0); EvAdd 6; EvRead 1; EvSend; EvRead 200; EvReply (demo_reply 1); EvRead 1000].

(** The state after the first [k] events. *)
Definition demo_state (k : nat) : run_state :=
  match run_events demo_clock (take k demo_events) (run_start 3) with Ok s => s | Fault _ => run_start 3 end.

Lemma demo_reply_legal k i :
  (length (cl_replies (demo_state k)) <? length (cl_sent (demo_state k)))%nat = true →
  Z.of_nat (length (cl_replies (demo_state k))) = i → i = 0 ∨ i = 1 → event_ok (EvReply (demo_reply i)) (demo_state k).
Proof. intros Hl Hi H01. split; [by apply Nat.ltb_lt|]. rewrite Hi. by apply demo_reply_ok. Qed.

Ltac demo_step k := apply (events_ok_cons _ _ _ (demo_state k) (demo_state (S k))); [vm_compute; reflexivity| |].

Lemma demo_events_ok : events_ok demo_clock demo_events (demo_state 0).
Proof.
  unfold demo_events.
  demo_step 0%nat; [split; vm_compute; reflexivity|].
  demo_step 1%nat; [vm_compute; discriminate|].
  demo_step 2%nat; [apply (demo_reply_legal 2 0); [vm_compute; reflexivity..|by left]|].
  demo_step 3%nat; [split; vm_compute; reflexivity|].
  demo_step 4%nat; [split; [discriminate|vm_compute; discriminate]|].
  demo_step 5%nat; [vm_compute; discriminate|].
  demo_step 6%nat; [split; [discriminate|vm_compute; discriminate]|].
  demo_step 7%nat; [apply (demo_reply_legal 7 1); [vm_compute; reflexivity..|by right]|].
  demo_step 8%nat; [split; [discriminate|vm_compute; discriminate]|].
  exact I.
Qed.

Lemma demo_clock_ok k : 0 < demo_clock k < 2 ^ 64.
Proof. unfold demo_clock. lia. Qed.

Lemma text_hello_fits i : 0 <= i < MAX_TEST_PACKET_NUMBER * 2 → 0 < ByteSizeLong (hello i) <= 10240.
Proof.
  intros Hi. pose proof (text_sizes i Hi) as Hs.
  change (ByteSizeLong (hello i)) with (Z.of_nat (length (enc (i, hello_content (hello i))))). lia.
Qed.

Lemma client_accepts_replies_witness :
  ∃ s, run_events demo_clock demo_events (run_start 3) = Ok s ∧
    received (cl s) ++ cl_in s = replies (drop (Z.to_nat (cl_total s)) (cl_replies s)).
Proof.
  destruct (client_accepts_replies demo_clock 3 demo_events demo_clock_ok) as (s & E & _ & Hs & _).
  - intros i Hi. apply text_hello_fits, Hi.
  - exact demo_events_ok.
  - exists s. split; [exact E|exact Hs].
Defined.

#[local] Instance text_ss : Protobuf SSHello :=
  codec_protobuf mkSSHello ss_timestamp (fun m => match m with mkSSHello _ => eq_refl end) (mkSSHello 0).
#[local] Instance text_ss_rsp : Protobuf SSHelloRsp :=
  codec_protobuf mkSSHelloRsp ss_rsp_timestamp (fun m => match m with mkSSHelloRsp _ => eq_refl end)
    (mkSSHelloRsp 0).

Lemma text_rsp_fits i t1 t2 :
  0 <= i < MAX_TEST_PACKET_NUMBER * 2 →
  ByteSizeLong (mkCSHelloRsp i (hello_content (hello i)) (u64 t1) (u64 t2)) <= 10240.
Proof.
  intros Hi. pose proof (text_sizes i Hi) as Hs.
  change (ByteSizeLong (mkCSHelloRsp i (hello_content (hello i)) (u64 t1) (u64 t2)))
    with (Z.of_nat (length (enc (i, hello_content (hello i)) ++ enc (u64 t1) ++ enc (u64 t2)))).
  rewrite !length_app. pose proof (length_enc_u64 t1). pose proof (length_enc_u64 t2). lia.
Qed.

Lemma demo_reached : client_reached demo_clock (demo_state 2).
Proof.
  exists 3, (take 2 demo_events). split; [|vm_compute; reflexivity].
  change (run_start 3) with (demo_state 0). unfold demo_events. cbn [take].
  demo_step 0%nat; [split; vm_compute; reflexivity|].
  demo_step 1%nat; [vm_compute; discriminate|]. exact I.
Qed.

Lemma server_answers_client_witness :
  ∃ W, OnListenerAcceptConnect lev_server_new 6 (Some 0%nat) 0 0 88 [49] =
      Ok (W, [BuffereventSocketNew 0 6; BuffereventSetcb 0; BuffereventEnable 0]) ∧
  ∃ W1 s1 s2 k' j' out rs,
    OnBufferEventRead (fun _ => 1) W 6 (concat (unanswered (demo_state 2))) = Ok (W1, [], []) ∧
    _ProcessCSNetworkPacket (fun _ => 2) 1 (fun _ => WOk 32) 0 0 (mk_lserver [] true true true W1 [])
      = Ok (1, s1, k', j') ∧
    ReceiveCmd (fun _ => 3) s1 = Ok (s2, out) ∧ concat (snd <$> out) = replies rs ∧ length rs = 1%nat.
Proof.
  destruct (OnListenerAcceptConnect_spec lev_server_new ∅ [] 6 0 88 [49]) as (W & E & En & _ & Hseq & HR & Hlive);
    [apply (receiving_new 0 0)|done|done|].
  exists W. split; [exact E|].
  destruct (server_answers_client demo_clock (fun _ => 1) (fun _ => 2) (fun _ => 3) 1 (fun _ => WOk 32) 0 0
    (mk_lserver [] true true true W []) 0 6 88 ∅ (demo_state 2)) as (W1 & s1 & s2 & k' & j' & out & rs & E1 & E2 & E3 & E4 & _ & E5 & _).
  - apply demo_pipe.
  - done.
  - done.
  - apply Hlive. intros seq p Hp. vm_compute in Hp. discriminate Hp.
  - cbn [lv_ctx]. rewrite En. done.
  - exact HR.
  - exact Hseq.
  - exact demo_clock_ok.
  - exact text_hello_fits.
  - exact text_rsp_fits.
  - exact demo_reached.
  - vm_compute. discriminate.
  - exists W1, s1, s2, k', j', out, rs. split; [exact E1|]. split; [exact E2|]. split; [exact E3|]. split; [exact E4|exact E5].
Defined.
