(* ===== verification/Startup.v ===== *)
(** * Starting the process (src/service/gamesvr/gamesvr.cpp, gamenet.cpp, gamelogic.cpp,
      src/common/log/log.hpp, bufferlog.cpp, src/common/signal.cpp, src/network/server.cpp)

    The logger, the signal handlers and the order in which main brings up the
    configuration, the timers and the two servers.  spdlog keeps a registry of loggers by
    name: creating a second one with a name throws. *)

From S2P Require Import Prelude KFifo Spinlock TimerWheel GameTimer Unpack PacketPool Context SocketMessage ServerLogic.
From S2P Require Import Uuid Config BufferLog Libevent NetCmd Codec GameLogic.

(** ** The logger *)

Inductive spd_level := LvTrace | LvDebug | LvInfo | LvErr | LvCritical | LvOff.

(** A logger writes to the console, or to a rotating file of this name. *)
Record spd_logger := mk_logger {
  lg_name : str;
  lg_file : option str;
  lg_level : spd_level;
  lg_flush_on : spd_level }.

Record GameLogger := mk_game_logger {
  m_sLoggerPrefix : str;
  m_bOutputToConsole : bool;
  m_sLevel : str;
  m_sLoggerName : str;
  m_pstLogger : option spd_logger }.

Definition m_sLogDir : str := chars "log".

(** What the chain of comparisons sets; [None] prints a complaint. *)
Definition level_named (s : str) : option spd_level :=
  if bool_decide (s = chars "trace") then Some LvTrace
  else if bool_decide (s = chars "debug") then Some LvDebug
  else if bool_decide (s = chars "info") then Some LvInfo
  else if bool_decide (s = chars "error") then Some LvErr
  else if bool_decide (s = chars "critical") then Some LvCritical
  else None.

(** [names] is the registry of spdlog, [opened] whether a log file could be opened.  A new
    logger has the level info and does not flush. *)
Definition InitLogger (g : GameLogger) (names : gset str) (opened : bool) (sNamePrefix sLogLevel : str)
    (bConsole : bool) : bool * GameLogger * gset str :=
  let name := sNamePrefix ++ chars "_" ++ sLogLevel in
  let file := m_sLogDir ++ chars "/" ++ name ++ chars ".log" in
  let g := mk_game_logger sNamePrefix bConsole sLogLevel name (m_pstLogger g) in
  if bool_decide (name ∈ names) || (negb bConsole && negb opened) then (false, g, names)
  else
    let target := if bConsole then None else Some file in
    let lg := match level_named sLogLevel with
              | Some l => mk_logger name target l l
              | None => mk_logger name target LvInfo LvOff
              end in
    (true, mk_game_logger sNamePrefix bConsole sLogLevel name (Some lg), {[name]} ∪ names).

(** The constructor of the singleton. *)
Definition GameLogger_new : GameLogger * gset str :=
  let '(_, g, names) := InitLogger (mk_game_logger [] true (chars "trace") (chars "logger") None) ∅ true
                          [] (chars "trace") true in
  (g, names).

(** The destructor: spdlog::drop_all. *)
Definition GameLogger_delete (names : gset str) : gset str := ∅.

(** InitGameLogger: the ring is initialised first; the log thread is started last. *)
Record log_system := mk_log_system {
  ls_logger : GameLogger;
  ls_names : gset str;
  ls_buffer : BufferLogKFiFo;
  ls_thread : bool }.

Definition InitGameLogger (s : log_system) (opened : bool) (sNamePrefix sLogLevel : str) (bConsole : bool)
    : bool * log_system :=
  let ring := kf_data (g_stKFiFo (ls_buffer s)) in
  let B := set_fifo (ls_buffer s) (INIT_KFIFO ring (Z.of_nat (length ring)) 1) in
  let '(bRet, g, names) := InitLogger (ls_logger s) (ls_names s) opened sNamePrefix sLogLevel bConsole in
  if negb bRet then (bRet, mk_log_system g names B (ls_thread s))
  else (bRet, mk_log_system g names B true).

(** ** Signals *)

Inductive sig_handler := SignalQuit | OnMainSignalQuit.
Inductive sig_action := SigDefault | SigIgnore | SigCall (h : sig_handler).

Definition SIGINT : Z := 2.
Definition SIGPIPE : Z := 13.
Definition SIGTERM : Z := 15.

(** [ok] says whether signal accepts the handler of a signal. *)
Definition InitSignalHandle (ok : Z → bool) (func : option sig_handler) (m : gmap Z sig_action) : gmap Z sig_action :=
  let func := default SignalQuit func in
  let m := <[SIGPIPE := SigIgnore]> m in
  let m := if ok SIGINT then <[SIGINT := SigCall func]> m else m in
  if ok SIGTERM then <[SIGTERM := SigCall func]> m else m.

(** Both handlers leave with status 0. *)
Definition run_handler (h : sig_handler) : proc unit := Exit 0.

(** ** The servers *)

(** What the system answers when a server is initialised. *)
Record server_answers := mk_answers {
  an_pipe : bool; an_config : bool; an_base : bool; an_event : bool; an_added : bool; an_bound : Z → bool }.

(** Up to the event loop; the flag is that of ServerMonitor. *)
Definition StartLibeventServer (W : lev_server) (info : ST_ServerIPInfo) (a : server_answers)
    : proc (LibeventServer * bool) :=
  s ← LibeventServer_Init (LibeventServer_new W) info (an_pipe a) (an_config a) (an_base a) (an_event a) (an_added a)
        (an_bound a);
  Done (s, true).

Definition StartSocketServer (W : ServerContext SocketClientCtx) (info : ST_ServerIPInfo) (pipe created : bool) (l : Z)
    : proc (SocketServer * bool) :=
  s ← SocketServer_Init (SocketServer_construct W) info pipe created l;
  Done (s, true).

(** Without the macro for the socket server. *)
Definition StartServer := StartLibeventServer.

(** ** main *)

Record process := mk_process {
  ps_signals : gmap Z sig_action;
  ps_log : log_system;
  ps_conf : GameSvrConf;
  ps_timer : GameTimer;
  ps_main : LibeventServer;
  ps_proxy : LibeventServer;
  ps_monitor : bool }.

(** What the system answers. *)
Record boot_answers := mk_boot {
  ba_signal : Z → bool;
  ba_files : str → file;
  ba_opened : bool;
  ba_realtime : Z * Z;
  ba_monotonic : Z * Z;
  ba_main : server_answers;
  ba_proxy : server_answers }.

(** GameNetwork::StartMainLoop: one thread for each server, up to their event loops. *)
Definition network_StartMainLoop (conf : GameSvrConf) (a : boot_answers) : proc (LibeventServer * LibeventServer * bool) :=
  '(main, _) ← StartServer lev_server_new (m_stServerIPInfo conf) (ba_main a);
  '(proxy, monitor) ← StartServer lev_server_new (m_stProxyServerIPInfo conf) (ba_proxy a);
  Done (main, proxy, monitor).

(** The logger singleton is made by the first line that is logged; [ring] is the memory of
    the log queue and [qs] the timer queues of the process.  The result of InitGameLogger is
    not looked at. *)
Definition main_init (ring : list Z) (qs : gmap nat TimerQueue) (a : boot_answers) : proc process :=
  let '(g, names) := GameLogger_new in
  let log := mk_log_system g names (BufferLog_new ring) false in
  let signals := InitSignalHandle (ba_signal a) (Some OnMainSignalQuit) ∅ in
  conf ← InitGameSvrConf (ba_files a) GameSvrConf_new;
  let log := match svr_logger conf with
             | Some (prefix, level, console) => (InitGameLogger log (ba_opened a) prefix level console).2
             | None => log
             end in
  let timer := TimerInit (GameTimer_new qs) (ba_realtime a) (ba_monotonic a) in
  '(main, proxy, monitor) ← network_StartMainLoop conf a;
  Done (mk_process signals log conf timer main proxy monitor).

(** ** The logger *)

(** A logger is made under the name of its prefix and level, with that level when it is one
    of the five known ones; a second one under the same name is refused and the first kept. *)
Theorem InitLogger_spec g names opened prefix level console :
  let name := prefix ++ chars "_" ++ level in
  (name ∈ names → ∃ g', InitLogger g names opened prefix level console = (false, g', names) ∧
     m_pstLogger g' = m_pstLogger g) ∧
  (name ∉ names → console = true ∨ opened = true →
   ∃ g' lg, InitLogger g names opened prefix level console = (true, g', {[name]} ∪ names) ∧
     m_pstLogger g' = Some lg ∧ lg_name lg = name ∧ (lg_file lg = None ↔ console = true) ∧
     ∀ l, level_named level = Some l → lg_level lg = l ∧ lg_flush_on lg = l).
Proof.
  intros name. unfold InitLogger. fold name. split.
  - intros Hin. rewrite bool_decide_true by done. cbn [orb]. by eexists.
  - intros Hnin Hopen. rewrite bool_decide_false by done. cbn [orb].
    assert (negb console && negb opened = false) as -> by (destruct Hopen as [-> | ->]; [done|by destruct console]).
    eexists _, _. split; [done|]. split; [done|].
    destruct (level_named level) as [l|]; (split; [done|]); (split; [by destruct console|]); [|done].
    by intros l' [= <-].
Qed.

(** The singleton's own logger. *)
Lemma first_logger : GameLogger_new.2 = {[chars "_trace"]} ∪ ∅.
Proof. vm_compute. reflexivity. Qed.

(** ** The process after main has started its threads *)

Definition answers_ok (a : server_answers) (port : Z) : Prop :=
  an_pipe a = true ∧ an_config a = true ∧ an_base a = true ∧ an_event a = true ∧ an_added a = true ∧
  an_bound a port = true.

Lemma StartServer_ready W info a :
  0 <= m_wServerPort info < 65536 → answers_ok a (m_wServerPort info) →
  StartServer W info a = Done (mk_lserver [] true true true W [], true).
Proof.
  intros Hp (H1 & H2 & H3 & H4 & H5 & H6). unfold StartServer, StartLibeventServer, LibeventServer_Init, _InitEventBase.
  rewrite H1, H2, H3, H4, H5. cbn [negb mbind proc_bind]. unfold _InitListener.
  rewrite (wrap_small 16) by lia. by rewrite H6.
Qed.

Lemma new_server_receives : recv_inv (sv_mem lev_server_new) ∅ (sv_net lev_server_new) [].
Proof. apply (receiving_new 0 0). Qed.

(** C29: main brings the process up.  With a configuration file that parses and has ports from
    1001 to 32767, and a system that grants what the servers ask for, main ends its
    initialisation with: the configuration loaded; the unique ids set; a logger of its own, at
    the configured level when that is a known one, with the log thread; the timers empty at
    the current time; and both servers ready, with nothing in their command pipes.  On the
    main server the first connection that is accepted is in the state from which its packets
    are received and answered. *)
Theorem main_brings_up_servers ring qs a text v level :
  ba_files a conf_path = Content text → parse ∅ (Content text) = Ok (0, v) →
  Forall (λ name, 1000 < getInteger v name (chars "port") 0 < 32768) section_names →
  level_named (get v (chars "log") (chars "level") []) = Some level →
  getBoolean v (chars "log") (chars "console") false = true ∨ ba_opened a = true →
  answers_ok (ba_main a) (getInteger v (chars "main_server") (chars "port") 0) →
  answers_ok (ba_proxy a) (getInteger v (chars "proxy_server") (chars "port") 0) →
  (∀ q Q, qs !! q = Some Q → unlocked (q_lock Q)) →
  ∃ ps lg, main_init ring qs a = Done ps ∧ conf_loaded v (ps_conf ps) ∧ ps_monitor ps = true ∧
    m_pstLogger (ls_logger (ps_log ps)) = Some lg ∧ lg_level lg = level ∧ ls_thread (ps_log ps) = true ∧
    implements (ps_timer ps)
      (mk_alarm_table 0 (gettime (ba_monotonic a).1 (ba_monotonic a).2) 0 [] (m_vecQueue <$> qs)) ∧
    server_ready (ps_main ps) ∧ server_ready (ps_proxy ps) ∧ lv_pipe (ps_main ps) = [] ∧ lv_pipe (ps_proxy ps) = [] ∧
    ∀ fd bev seq ip, ∃ W,
      OnListenerAcceptConnect (lv_ctx (ps_main ps)) fd (Some bev) 0 0 seq ip =
        Ok (W, [BuffereventSocketNew bev fd; BuffereventSetcb bev; BuffereventEnable bev]) ∧
      clients_live W ∧ send_idle (sv_net W) ∧ receiving W 0 fd seq ∅ [] [] ∧ GetClient (sv_pool W) seq = Some 0%nat.
Proof.
  intros Hfs Hparse Hports Hlevel Hopen Hmain Hproxy Hqs.
  destruct (InitGameSvrConf_loads (ba_files a) text v Hfs Hparse Hports) as (g & Eg & Hload).
  pose proof Hload as (P1 & P2 & _ & _ & Hlog).
  unfold section_names in Hports. apply Forall_cons_1 in Hports as [R1 Hports]. apply Forall_cons_1 in Hports as [R2 _].
  unfold main_init. destruct GameLogger_new as [g0 names] eqn:E0.
  rewrite Eg. cbn [mbind proc_bind]. unfold network_StartMainLoop.
  rewrite <- P1 in R1, Hmain. rewrite <- P2 in R2, Hproxy.
  rewrite !StartServer_ready by (done || lia). cbn [mbind proc_bind]. rewrite Hlog.
  destruct (proj2 (InitLogger_spec g0 names (ba_opened a) (chars "gamesvr") (get v (chars "log") (chars "level") [])
    (getBoolean v (chars "log") (chars "console") false))) as (g' & lg & El & Hlg & _ & _ & Hlv).
  { pose proof first_logger as En. rewrite E0 in En. cbn [snd] in En. rewrite En, elem_of_union, elem_of_singleton.
    by intros [[=]|?%not_elem_of_empty]. }
  { destruct Hopen; auto. }
  eexists _, lg. split; [reflexivity|]. cbn [ps_conf ps_monitor ps_log ps_timer ps_main ps_proxy].
  unfold InitGameLogger. cbn [ls_logger ls_names]. rewrite El. cbn [negb snd ls_logger ls_thread].
  split; [done|]. split; [done|]. split; [done|]. split; [by apply Hlv|]. split; [done|].
  split; [by apply implements_init|]. do 4 (split; [done|]). intros fd bev seq ip.
  destruct (OnListenerAcceptConnect_spec lev_server_new ∅ [] fd bev seq ip new_server_receives) as (W & E & En & _ & Hseq & HR & Hlive);
    [done|done|].
  exists W. split; [exact E|]. split; [|split; [by rewrite En|done]]. apply Hlive. intros s p Hp. unfold GetClient in Hp. cbn in Hp. by rewrite lookup_empty in Hp.
Qed.

Definition demo_server_answers : server_answers := mk_answers true true true true true (λ _, true).
Definition demo_conf : str := chars "[log]
level = debug
console = yes
" ++ ports_example (chars "7000").
Definition demo_boot : boot_answers :=
  mk_boot (λ _, true) (λ _, Content demo_conf) false (0, 0) (10, 0) demo_server_answers demo_server_answers.
Definition demo_values : conf_values :=
  <[chars "log.level" := [chars "debug"]]> (<[chars "log.console" := [chars "yes"]]> (ports_values (chars "7000"))).

Lemma main_brings_up_servers_witness :
  ∃ ps lg, main_init (replicate 512 0) ∅ demo_boot = Done ps ∧ ps_monitor ps = true ∧
    m_pstLogger (ls_logger (ps_log ps)) = Some lg ∧ lg_level lg = LvDebug ∧ server_ready (ps_main ps).
Proof.
  assert (parse ∅ (Content demo_conf) = Ok (0, demo_values)) as Hp
    by (refine (bool_decide_unpack _ _); vm_compute; exact I).
  destruct (main_brings_up_servers (replicate 512 0) ∅ demo_boot demo_conf demo_values LvDebug eq_refl Hp)
    as (ps & lg & E & _ & Hm & Hlg & Hlv & _ & _ & Hr & _).
  - refine (bool_decide_unpack _ _). vm_compute. exact I.
  - vm_compute. reflexivity.
  - left. vm_compute. reflexivity.
  - repeat split.
  - repeat split.
  - intros q Q Hq. by rewrite lookup_empty in Hq.
  - exists ps, lg. split; [exact E|]. split; [exact Hm|]. split; [exact Hlg|]. split; [exact Hlv|exact Hr].
Defined.
