(* ===== verification/Events.v ===== *)
(** * Events of the logic thread (src/common/event/event.hpp, src/common/event/listener.hpp)

    A listener keeps one event of libevent per type.  What libevent returns is an
    argument; a failure ends the process, as LOGCRITICAL does. *)

From S2P Require Import Prelude Config Libevent.

(** ** GameEvent *)

Record GameEvent := mk_gevent {
  ge_iEventType : Z;
  ge_iSocketFd : Z;
  ge_iTimeout : Z;
  ge_pstEvent : option nat
}.

(** The base of the events, the map, the objects it points to, the objects of libevent and
    the events that were made active. *)
Record GameEventListener := mk_listener {
  gl_pstEventBase : option nat;
  m_stEventMap : gmap Z nat;
  gl_events : gmap nat GameEvent;
  gl_next : nat;
  gl_lev : lev_objects;
  gl_active : list nat
}.

Definition set_lev (G : GameEventListener) (L : lev_objects) : GameEventListener :=
  mk_listener (gl_pstEventBase G) (m_stEventMap G) (gl_events G) (gl_next G) L (gl_active G).

(** new GameEvent: [created] and [added] say whether event_new and event_add succeed.
    event_add is called before the pointer is compared with NULL. *)
Definition GameEvent_new (G : GameEventListener) (iEventType iSocketFd iTimeout : Z) (created added : bool)
    : proc (nat * GameEventListener) :=
  match gl_pstEventBase G with
  | None => Crash AssertFail
  | Some _ =>
      if negb created then Crash Undefined
      else
        let '(n, L) := event_new (gl_lev G) in
        let p := gl_next G in
        let G := mk_listener (gl_pstEventBase G) (m_stEventMap G)
                   (<[p := mk_gevent iEventType iSocketFd iTimeout (Some n)]> (gl_events G)) (S p) L (gl_active G) in
        if negb added then LOGCRITICAL;; Done (p, G) else Done (p, G)
  end.

Definition game_event (G : GameEventListener) (p : nat) : res GameEvent :=
  match gl_events G !! p with Some e => Ok e | None => Fault UseAfterFree end.

(** delete: the destructor frees the event, and event_free of an active event also takes
    it out of the active ones. *)
Definition GameEvent_delete (G : GameEventListener) (p : nat) : res GameEventListener :=
  e ← game_event G p;
  L ← free_if event_free (ge_pstEvent e) (gl_lev G);
  Ok (mk_listener (gl_pstEventBase G) (m_stEventMap G) (delete p (gl_events G)) (gl_next G) L
        (filter (fun n => ge_pstEvent e ≠ Some n) (gl_active G))).

(** event_active of a live event. *)
Definition GameEvent_Emit (G : GameEventListener) (p : nat) : res GameEventListener :=
  e ← game_event G p;
  match ge_pstEvent e with
  | None => Fault AssertFail
  | Some n =>
      if decide (n ∈ live_event (gl_lev G)) then
        Ok (mk_listener (gl_pstEventBase G) (m_stEventMap G) (gl_events G) (gl_next G) (gl_lev G)
              (gl_active G ++ [n]))
      else Fault UseAfterFree
  end.

(** ** GameEventListener *)

(** [config] and [base] say whether event_config_new and event_base_new_with_config succeed. *)
Definition GameEventListener_new (L : lev_objects) (config base : bool) : proc GameEventListener :=
  if negb config then LOGCRITICAL;; Done (mk_listener None ∅ ∅ 0 L [])
  else if negb base then LOGCRITICAL;; Done (mk_listener None ∅ ∅ 0 L [])
  else let '(b, L) := event_base_new L in Done (mk_listener (Some b) ∅ ∅ 0 L []).

(** The events of a list, each at its first place: an event that is already active is not
    made active again. *)
Fixpoint once (l : list nat) : list nat :=
  match l with [] => [] | n :: l => n :: filter (fun m => m ≠ n) (once l) end.

(** The callbacks of the active events run, each once, and none is active afterwards. *)
Definition ProcessOnceLoop (G : GameEventListener) : list nat * GameEventListener :=
  (once (gl_active G), mk_listener (gl_pstEventBase G) (m_stEventMap G) (gl_events G) (gl_next G) (gl_lev G) []).

Definition TriggerEvent (G : GameEventListener) (iEventType : Z) : res (bool * GameEventListener) :=
  match m_stEventMap G !! iEventType with
  | Some p => G ← GameEvent_Emit G p; Ok (true, G)
  | None => Ok (false, G)
  end.

Definition AddEvent (G : GameEventListener) (pstEvent : nat) : res (bool * GameEventListener) :=
  e ← game_event G pstEvent;
  match m_stEventMap G !! ge_iEventType e with
  | Some _ => Ok (false, G)
  | None =>
      Ok (true, mk_listener (gl_pstEventBase G) (<[ge_iEventType e := pstEvent]> (m_stEventMap G))
                  (gl_events G) (gl_next G) (gl_lev G) (gl_active G))
  end.

Definition RegistEvent (G : GameEventListener) (iEventType iSocketFd iTimeout : Z) (created added : bool)
    : proc (bool * GameEventListener) :=
  '(p, G) ← GameEvent_new G iEventType iSocketFd iTimeout created added;
  '(ok, G) ← of_res (AddEvent G p);
  if negb ok then
    G ← of_res (GameEvent_delete G p);
    Done (false, G)
  else Done (true, G).

Definition RemoveEvent (G : GameEventListener) (iEventType : Z) : res (bool * GameEventListener) :=
  match m_stEventMap G !! iEventType with
  | Some p =>
      G ← GameEvent_delete (mk_listener (gl_pstEventBase G) (delete iEventType (m_stEventMap G))
            (gl_events G) (gl_next G) (gl_lev G) (gl_active G)) p;
      Ok (true, G)
  | None => Ok (false, G)
  end.

(** ** A registry of types *)

Abbreviation registry := (gmap Z (Z * Z)).

Inductive event_op :=
| Regist (iEventType iSocketFd iTimeout : Z)
| Trigger (iEventType : Z)
| Remove (iEventType : Z).

(** The first registration of a type counts.  The result is the returned truth value and
    the descriptor and time-out of the event that becomes active. *)
Definition q_event_step (R : registry) (op : event_op) : registry * (bool * option (Z * Z)) :=
  match op with
  | Regist t fd timeout =>
      match R !! t with
      | Some _ => (R, (false, None))
      | None => (<[t := (fd, timeout)]> R, (true, None))
      end
  | Trigger t => (R, (bool_decide (is_Some (R !! t)), R !! t))
  | Remove t => (delete t R, (bool_decide (is_Some (R !! t)), None))
  end.

Fixpoint q_event_run (R : registry) (ops : list event_op) : registry * list (bool * option (Z * Z)) :=
  match ops with
  | [] => (R, [])
  | op :: ops =>
      let '(R, o) := q_event_step R op in
      let '(R, os) := q_event_run R ops in (R, o :: os)
  end.

(** The object of an event of libevent. *)
Definition active_of (G : GameEventListener) (n : nat) : list (Z * Z) :=
  omap (fun e => if decide (ge_pstEvent e = Some n) then Some (ge_iSocketFd e, ge_iTimeout e) else None)
    (snd <$> map_to_list (gl_events G)).

(** One call; when it makes an event active, the object of that event is looked up. *)
Definition k_event_step (G : GameEventListener) (op : event_op)
    : proc (GameEventListener * (bool * option (Z * Z))) :=
  match op with
  | Regist t fd timeout => '(b, G) ← RegistEvent G t fd timeout true true; Done (G, (b, None))
  | Trigger t =>
      '(b, G') ← of_res (TriggerEvent G t);
      Done (G', (b, if b : bool then list.last (gl_active G') ≫= (fun n => head (active_of G n)) else None))
  | Remove t => '(b, G) ← of_res (RemoveEvent G t); Done (G, (b, None))
  end.

Fixpoint k_event_run (G : GameEventListener) (ops : list event_op)
    : proc (GameEventListener * list (bool * option (Z * Z))) :=
  match ops with
  | [] => Done (G, [])
  | op :: ops =>
      '(G, o) ← k_event_step G op;
      '(G, os) ← k_event_run G ops;
      Done (G, o :: os)
  end.

(** The map and the objects agree; every live event of libevent belongs to one object, and
    every active event is live. *)
Record listener_inv (G : GameEventListener) (R : registry) : Prop := {
  gi_base : is_Some (gl_pstEventBase G);
  gi_map : ∀ t p, m_stEventMap G !! t = Some p ↔ ∃ e, gl_events G !! p = Some e ∧ ge_iEventType e = t;
  gi_reg : ∀ t, R !! t = (p ← m_stEventMap G !! t; e ← gl_events G !! p; Some (ge_iSocketFd e, ge_iTimeout e));
  gi_live : ∀ n, n ∈ live_event (gl_lev G) ↔ ∃ p e, gl_events G !! p = Some e ∧ ge_pstEvent e = Some n;
  gi_some : ∀ p e, gl_events G !! p = Some e → is_Some (ge_pstEvent e);
  gi_uniq : ∀ p q e f, gl_events G !! p = Some e → gl_events G !! q = Some f →
              ge_pstEvent e = ge_pstEvent f → p = q;
  gi_next : ∀ p, is_Some (gl_events G !! p) → (p < gl_next G)%nat;
  gi_fresh : ∀ n, n ∈ live_event (gl_lev G) → (n < lev_next (gl_lev G))%nat;
  gi_active : ∀ n, n ∈ gl_active G → n ∈ live_event (gl_lev G)
}.

Lemma head_omap {A B} (f : A → option B) (l : list A) (x : A) (y : B) :
  x ∈ l → f x = Some y → (∀ z, z ∈ l → f z = None ∨ f z = Some y) → head (omap f l) = Some y.
Proof.
  intros Hx Hfx Hall. induction l as [|z l IH]; [by apply not_elem_of_nil in Hx|]. cbn [omap list_omap].
  destruct (Hall z ltac:(left)) as [E|E]; rewrite E; [|done].
  apply IH; [|by intros w Hw; apply Hall; right].
  apply elem_of_cons in Hx as [<-|?]; [congruence|done].
Qed.

(** The object of an event is the one that holds it. *)
Lemma active_of_spec G R p e n :
  listener_inv G R → gl_events G !! p = Some e → ge_pstEvent e = Some n →
  head (active_of G n) = Some (ge_iSocketFd e, ge_iTimeout e).
Proof.
  intros Hinv Hp Hn. apply (head_omap _ _ e).
  - apply list_elem_of_fmap. exists (p, e). split; [done|]. by apply elem_of_map_to_list.
  - by rewrite decide_True.
  - intros f Hf. apply list_elem_of_fmap in Hf as ([q f'] & -> & Hq). apply elem_of_map_to_list in Hq. cbn [snd].
    destruct (decide (ge_pstEvent f' = Some n)) as [E|]; [right|by left].
    assert (q = p) as -> by (by apply (gi_uniq G R Hinv q p f' e); congruence). congruence.
Qed.

(** The entry of a registered type. *)
Lemma registered_lookup G R t p :
  listener_inv G R → m_stEventMap G !! t = Some p →
  ∃ e n, gl_events G !! p = Some e ∧ ge_iEventType e = t ∧ ge_pstEvent e = Some n ∧
    n ∈ live_event (gl_lev G) ∧ R !! t = Some (ge_iSocketFd e, ge_iTimeout e).
Proof.
  intros Hinv Hp. destruct (proj1 (gi_map G R Hinv t p) Hp) as (e & He & Ht).
  destruct (gi_some G R Hinv p e He) as [n Hn]. exists e, n. split_and!; try done.
  - apply (gi_live G R Hinv). eauto.
  - rewrite (gi_reg G R Hinv), Hp. cbn. by rewrite He.
Qed.

Lemma unregistered_lookup G R t : listener_inv G R → m_stEventMap G !! t = None → R !! t = None.
Proof. intros Hinv Ht. by rewrite (gi_reg G R Hinv), Ht. Qed.

Lemma trigger_step G R t : listener_inv G R →
  ∃ G', k_event_step G (Trigger t) = Done (G', (bool_decide (is_Some (R !! t)), R !! t)) ∧ listener_inv G' R.
Proof.
  intros Hinv. cbn [k_event_step]. unfold TriggerEvent. destruct (m_stEventMap G !! t) as [p|] eqn:Ht.
  - destruct (registered_lookup G R t p Hinv Ht) as (e & n & He & _ & Hn & Hl & HR).
    unfold GameEvent_Emit, game_event. rewrite He, bind_Ok, Hn, decide_True, bind_Ok by done.
    cbn [of_res mbind proc_bind gl_active]. rewrite last_snoc. cbn [mbind option_bind].
    rewrite (active_of_spec G R p e n Hinv He Hn), HR. eexists. split; [done|].
    destruct Hinv. constructor; try done. cbn [gl_active gl_lev].
    intros m [Hm| ->%list_elem_of_singleton]%elem_of_app; auto.
  - cbn [of_res mbind proc_bind]. rewrite (unregistered_lookup G R t Hinv Ht). by exists G.
Qed.

(** Deleting an object that no entry points to. *)
Lemma delete_spec G p e n :
  gl_events G !! p = Some e → ge_pstEvent e = Some n → n ∈ live_event (gl_lev G) →
  GameEvent_delete G p = Ok (mk_listener (gl_pstEventBase G) (m_stEventMap G) (delete p (gl_events G)) (gl_next G)
    (mk_lev (live_base (gl_lev G)) (live_bev (gl_lev G)) (live_event (gl_lev G) ∖ {[n]}) (lev_next (gl_lev G)))
    (filter (fun m => Some n ≠ Some m) (gl_active G))).
Proof.
  intros Hp Hn Hl. unfold GameEvent_delete, game_event. rewrite Hp, bind_Ok, Hn. cbn [free_if].
  unfold event_free. by rewrite decide_True, bind_Ok by done.
Qed.

(** A registered type and its object are removed. *)
Lemma erase_inv G R t p e n :
  listener_inv G R → m_stEventMap G !! t = Some p → gl_events G !! p = Some e → ge_iEventType e = t →
  ge_pstEvent e = Some n →
  listener_inv (mk_listener (gl_pstEventBase G) (delete t (m_stEventMap G)) (delete p (gl_events G)) (gl_next G)
    (mk_lev (live_base (gl_lev G)) (live_bev (gl_lev G)) (live_event (gl_lev G) ∖ {[n]}) (lev_next (gl_lev G)))
    (filter (fun m => Some n ≠ Some m) (gl_active G))) (delete t R).
Proof.
  intros [B M RG LV SM UQ NX FR AC] Ht He Het Hn.
  assert (∀ q f, delete p (gl_events G) !! q = Some f ↔ q ≠ p ∧ gl_events G !! q = Some f) as Hdel.
  { intros q f. rewrite lookup_delete_Some. split; intros [? ?]; auto. }
  constructor; cbn [gl_pstEventBase m_stEventMap gl_events gl_next gl_lev gl_active live_event lev_next].
  - done.
  - intros t' q. rewrite lookup_delete_Some, M. setoid_rewrite Hdel. split.
    * intros (Hne & f & Hf & Hft). exists f. split; [|done]. split; [|done]. intros ->. congruence.
    * intros (f & [Hne Hf] & Hft). split; [|by exists f]. intros <-.
      assert (m_stEventMap G !! t = Some q) by (apply M; eauto). congruence.
  - intros t'. destruct (decide (t = t')) as [<-|Hne].
    * by rewrite !lookup_delete_eq.
    * rewrite !lookup_delete_ne, RG by done. destruct (m_stEventMap G !! t') as [q|] eqn:Hq; [|done]. cbn.
      rewrite lookup_delete_ne; [done|]. intros <-. apply M in Hq as (f & Hf & <-). congruence.
  - intros m. rewrite elem_of_difference, elem_of_singleton, LV. setoid_rewrite Hdel. split.
    * intros [(q & f & Hf & Hm) Hne]. exists q, f. split; [|done]. split; [|done]. intros ->. congruence.
    * intros (q & f & [Hne Hf] & Hm). split; [eauto|]. intros ->. apply Hne, (UQ q p f e); congruence.
  - intros q f [_ Hf]%Hdel. eauto.
  - intros q q' f f' [_ Hf]%Hdel [_ Hf']%Hdel. eauto.
  - intros q [f [_ Hf]%Hdel]. eauto.
  - intros m [Hm _]%elem_of_difference. eauto.
  - intros m [Hne Hm]%list_elem_of_filter. apply elem_of_difference. split; [by apply AC|].
    intros ->%elem_of_singleton. by apply Hne.
Qed.

Lemma remove_step G R t : listener_inv G R →
  ∃ G', k_event_step G (Remove t) = Done (G', (bool_decide (is_Some (R !! t)), None)) ∧
    listener_inv G' (delete t R).
Proof.
  intros Hinv. cbn [k_event_step]. unfold RemoveEvent. destruct (m_stEventMap G !! t) as [p|] eqn:Ht.
  - destruct (registered_lookup G R t p Hinv Ht) as (e & n & He & Het & Hn & Hl & HR).
    rewrite (delete_spec _ p e n) by done. rewrite bind_Ok, HR. cbn [of_res mbind proc_bind].
    eexists. split; [done|]. by apply (erase_inv G R t p e n).
  - cbn [of_res mbind proc_bind]. rewrite (unregistered_lookup G R t Hinv Ht). exists G. split; [done|].
    by rewrite delete_id by (by apply (unregistered_lookup G R t)).
Qed.

(** An object of a new type is registered. *)
Lemma insert_inv G R t fd timeout :
  let p := gl_next G in let n := lev_next (gl_lev G) in
  listener_inv G R → m_stEventMap G !! t = None → gl_events G !! p = None → (n ∉ live_event (gl_lev G)) →
  listener_inv (mk_listener (gl_pstEventBase G) (<[t := p]> (m_stEventMap G))
    (<[p := mk_gevent t fd timeout (Some n)]> (gl_events G)) (S p)
    (mk_lev (live_base (gl_lev G)) (live_bev (gl_lev G)) ({[n]} ∪ live_event (gl_lev G)) (S n)) (gl_active G))
    (<[t := (fd, timeout)]> R).
Proof.
  intros p n [B M RG LV SM UQ NX FR AC] Ht Hp Hn. set (e := mk_gevent t fd timeout (Some n)).
  assert (∀ q f, <[p := e]> (gl_events G) !! q = Some f ↔ (q = p ∧ f = e) ∨ (q ≠ p ∧ gl_events G !! q = Some f)) as Hins.
  { intros q f. rewrite lookup_insert_Some. split; intros [[? ?]|[? ?]]; auto. }
  constructor; cbn [gl_pstEventBase m_stEventMap gl_events gl_next gl_lev gl_active live_event lev_next].
  - done.
  - intros t' q. rewrite lookup_insert_Some. setoid_rewrite Hins. rewrite M. split.
    * intros [[<- <-]|[Hne (f & Hf & Hft)]]; [by eauto|]. exists f. split; [|done]. right. split; [|done].
      intros ->. congruence.
    * intros (f & [[-> ->]|[Hne Hf]] & Hft); [by left|]. right. split; [|by eauto].
      intros <-. assert (m_stEventMap G !! t = Some q) by (apply M; eauto). congruence.
  - intros t'. destruct (decide (t = t')) as [<-|Hne].
    * rewrite !lookup_insert_eq. cbn. by rewrite lookup_insert_eq.
    * rewrite !lookup_insert_ne, RG by done. destruct (m_stEventMap G !! t') as [q|] eqn:Hq; [|done]. cbn.
      rewrite lookup_insert_ne; [done|]. intros <-. apply M in Hq as (f & Hf & _). congruence.
  - intros m. rewrite elem_of_union, elem_of_singleton, LV. setoid_rewrite Hins. split.
    * intros [->|(q & f & Hf & Hm)]; [by eauto 10|]. exists q, f. split; [|done]. right. split; [|done].
      intros ->. congruence.
    * intros (q & f & [[-> ->]|[Hne Hf]] & Hm); [left; by injection Hm as <-|right; eauto].
  - intros q f [[-> ->]|[_ Hf]]%Hins; [by eexists|eauto].
  - assert (∀ q f, gl_events G !! q = Some f → ge_pstEvent f ≠ Some n) as Hold.
    { intros q f Hf E. apply Hn, LV. eauto. }
    intros q q' f f' [[-> ->]|[_ Hf]]%Hins [[-> ->]|[_ Hf']]%Hins E; eauto; exfalso.
    * by apply (Hold q' f').
    * by apply (Hold q f).
  - intros q [f [[-> _]|[_ Hf]]%Hins]; [lia|]. assert (q < p)%nat by (apply NX; eauto). lia.
  - intros m [->%elem_of_singleton|Hm]%elem_of_union; [lia|]. apply FR in Hm. fold n in Hm. lia.
  - intros m Hm. by apply elem_of_union_r, AC.
Qed.

Lemma regist_step G R t fd timeout : listener_inv G R →
  ∃ G', k_event_step G (Regist t fd timeout) =
      Done (G', (bool_decide (R !! t = None), None)) ∧
    listener_inv G' (q_event_step R (Regist t fd timeout)).1.
Proof.
  intros Hinv. cbn [k_event_step q_event_step]. unfold RegistEvent, GameEvent_new.
  destruct (gi_base G R Hinv) as [base Hbase]. rewrite Hbase. cbn [negb]. unfold event_new.
  cbn [mbind proc_bind]. unfold AddEvent, game_event. cbn [gl_events m_stEventMap]. rewrite lookup_insert_eq, bind_Ok.
  cbn [ge_iEventType].
  set (p := gl_next G). set (n := lev_next (gl_lev G)). set (e := mk_gevent t fd timeout (Some n)).
  assert (gl_events G !! p = None) as Hp.
  { destruct (gl_events G !! p) eqn:E; [|done]. assert (p < p)%nat by (by apply (gi_next G R Hinv)). lia. }
  assert (n ∉ live_event (gl_lev G)) as Hn.
  { intros Hn. apply (gi_fresh G R Hinv) in Hn. unfold n in Hn. lia. }
  destruct (m_stEventMap G !! t) as [q|] eqn:Ht.
  - destruct (registered_lookup G R t q Hinv Ht) as (e' & n' & _ & _ & _ & _ & ->).
    cbn [of_res mbind proc_bind negb]. rewrite (delete_spec _ p e n);
      [|by cbn; rewrite lookup_insert_eq|done|cbn; by apply elem_of_union_l, elem_of_singleton].
    cbn [of_res mbind proc_bind]. eexists. split; [done|].
    cbn [fst gl_pstEventBase m_stEventMap gl_events gl_next gl_lev live_event live_base live_bev lev_next].
    rewrite delete_insert_id by done.
    replace (({[n]} ∪ live_event (gl_lev G)) ∖ {[n]}) with (live_event (gl_lev G)).
    2:{ rewrite difference_union_distr_l_L, difference_diag_L, union_empty_l_L. symmetry.
        by apply difference_disjoint_L, disjoint_singleton_r. }
    destruct Hinv as [B M RG LV SM UQ NX FR AC].
    constructor; try done; cbn [gl_events gl_next gl_lev gl_active live_event lev_next].
    + intros x Hx. pose proof (NX x Hx). fold p in H |- *. lia.
    + intros x Hx. pose proof (FR x Hx). fold n in H |- *. lia.
    + intros x [_ Hx]%list_elem_of_filter. by apply AC.
  - rewrite (unregistered_lookup G R t Hinv Ht). cbn [of_res mbind proc_bind negb]. eexists. split; [done|].
    pose proof (insert_inv G R t fd timeout Hinv Ht Hp Hn) as Hi. rewrite Hbase in Hi. exact Hi.
Qed.

Lemma event_step_spec G R op : listener_inv G R →
  ∃ G', k_event_step G op = Done (G', (q_event_step R op).2) ∧ listener_inv G' (q_event_step R op).1.
Proof.
  intros Hinv. destruct op as [t fd timeout|t|t].
  - destruct (regist_step G R t fd timeout Hinv) as (G' & E & H'). exists G'. split; [|done]. rewrite E.
    cbn [q_event_step]. by destruct (R !! t).
  - by apply trigger_step.
  - by apply remove_step.
Qed.

(** C30: the listener is a registry with one event per type.  Whatever the sequence of
    registrations, triggers and removals, the calls return the truth values of the registry;
    a trigger makes active exactly the event of the first registration of its type that was
    not removed; no call reads a deleted object or frees an event twice, and the events that
    are live in libevent are exactly those of the registered types; only live events are active. *)
Theorem listener_refines_registry L G ops :
  GameEventListener_new L true true = Done G → live_event L = ∅ →
  ∃ G', k_event_run G ops = Done (G', (q_event_run ∅ ops).2) ∧ listener_inv G' (q_event_run ∅ ops).1.
Proof.
  intros HG HL. assert (listener_inv G ∅) as Hinv.
  { injection HG as <-. constructor; cbn; try done.
    - intros t p. split; [done|]. by intros (? & ? & _).
    - intros n. rewrite HL. split; [by intros ?%not_elem_of_empty|]. by intros (? & ? & ? & _).
    - by intros p [? ?].
    - intros n. rewrite HL. by intros ?%not_elem_of_empty.
    - by intros n ?%not_elem_of_nil. }
  clear HG HL. revert G Hinv. generalize (∅ : registry). induction ops as [|op ops IH]; intros R G Hinv.
  - by exists G.
  - cbn [k_event_run q_event_run]. destruct (event_step_spec G R op Hinv) as (G1 & -> & H1).
    destruct (q_event_step R op) as [R1 o]. cbn [fst snd] in *.
    destruct (IH R1 G1 H1) as (G2 & E2 & H2). destruct (q_event_run R1 ops) as [R2 os].
    exists G2. cbn [fst snd] in *. split; [|done]. cbn [mbind proc_bind]. by rewrite E2.
Qed.

Lemma listener_refines_registry_witness :
  ∃ G, GameEventListener_new lev_empty true true = Done G ∧
  ∃ G', k_event_run G [Regist 98 3 1; Regist 98 4 2; Trigger 98; Remove 98; Trigger 98; Remove 98]
      = Done (G', [(true, None); (false, None); (true, Some (3, 1)); (true, None); (false, None); (false, None)]) ∧
    listener_inv G' ∅.
Proof.
  eexists. split; [reflexivity|].
  apply (listener_refines_registry lev_empty _
    [Regist 98 3 1; Regist 98 4 2; Trigger 98; Remove 98; Trigger 98; Remove 98]); reflexivity.
Defined.
