(* ===== verification/GameLoop.v ===== *)
(** * The loop of the logic thread (src/service/gamesvr/gamelogic.cpp)

    One turn runs the callbacks of due timers and of events, then the packets between
    servers (of the proxy server and of every living connector), then the packets of
    clients.  The packet memory is one pool for all contexts. *)

From S2P Require Import Prelude Spinlock TimerWheel GameTimer Unpack PacketPool Context SocketMessage ServerLogic.
From S2P Require Import Libevent Config NetCmd Codec GameLogic Connector Events.

(** ** Timers *)

(** The callbacks that are run, in order; [wait] and [exec] are the two queues. *)
Definition _ProcessTimerCallback (s : timer_tables) (wait exec : nat)
    : res (list ST_TimerCallback * timer_tables) :=
  s ← PrepareExecute s wait exec;
  match queues s !! exec with
  | None => Fault UseAfterFree
  | Some Q => Ok (m_stCallback <$> m_vecQueue Q, set_queues s (<[exec := TimerQueue_Init Q]> (queues s)))
  end.

Definition _ProcessEventCallback (G : GameEventListener) : list nat * GameEventListener := ProcessOnceLoop G.

(** ** Packets *)

(** A step on the context of an owner, with the packet memory [P] of the process. *)
Definition on_memory {C S A} `{PacketOwner C S} (step : S → res (A * S * nat * nat)) (s : S)
    (P : CPacketMemoryPool) : res (A * S * CPacketMemoryPool * nat * nat) :=
  '(a, s, k, j) ← step (update_net s (sv_net (owner_ctx s)) P);
  Ok (a, s, sv_mem (owner_ctx s), k, j).

Section Loop.
Context {C S : Type} `{NertworkServer C S}.
Context `{Protobuf CSHello} `{Protobuf CSHelloRsp} `{Protobuf SSHello} `{Protobuf SSHelloRsp}.

(** The for loop over the living connectors; a pointer to a context that is NULL fails the
    assert of ConnectorCtx. *)
Fixpoint connector_loop (now : nat → Z) (fuel : nat) (os : nat → write_answer) (v : list nat)
    (iTotalNum : Z) (k j : nat) (R : ConnectorPool) (P : CPacketMemoryPool)
    : res (Z * ConnectorPool * CPacketMemoryPool * nat * nat) :=
  match v with
  | [] => Ok (iTotalNum, R, P, k, j)
  | p :: v =>
      c ← connector R p;
      if negb (IsAlive c) then connector_loop now fuel os v iTotalNum k j R P
      else
        _ ← ConnectorCtx c;
        '(iPacketNum, c, P, k, j) ← on_memory (_ProcessSSNetworkPacket_owner now fuel os k j) c P;
        connector_loop now fuel os v (i32 (iTotalNum + iPacketNum)) k j
          (mk_pool (m_stConnectorPool R) (<[p := c]> (cp_connectors R)) (cp_lev R)) P
  end.

(** The state the logic thread works on. *)
Record Gamesvr := mk_gamesvr {
  m_stMainServer : S;
  m_stProxyServer : S;
  gs_connectors : ConnectorPool;
  gs_mem : CPacketMemoryPool;
  gs_timers : timer_tables;
  gs_events : GameEventListener
}.

Definition _ProcessSSNetworkPacket (now : nat → Z) (fuel : nat) (os : nat → write_answer) (k j : nat)
    (G : Gamesvr) : res (Gamesvr * nat * nat) :=
  '(iTotalNum, proxy, P, k, j) ←
    on_memory (_ProcessSSNetworkPacket_owner now fuel os k j) (m_stProxyServer G) (gs_mem G);
  vecConnectorQueue ← ProcessAliveConnectors (gs_connectors G) [];
  '(_, R, P, k, j) ← connector_loop now fuel os vecConnectorQueue iTotalNum k j (gs_connectors G) P;
  R ← ProcessClosedConnectors R;
  Ok (mk_gamesvr (m_stMainServer G) proxy R P (gs_timers G) (gs_events G), k, j).

(** [wait] and [exec] are the timer queues of the logic thread.  The first result is the
    calls of timers, the second the events that ran. *)
Definition logic_ProcessOneLoop (wait exec : nat) (now : nat → Z) (fuel : nat) (os : nat → write_answer)
    (k j : nat) (G : Gamesvr) : res (list ST_TimerCallback * list nat * Gamesvr * nat * nat) :=
  '(calls, timers) ← _ProcessTimerCallback (gs_timers G) wait exec;
  let '(active, events) := _ProcessEventCallback (gs_events G) in
  let G := mk_gamesvr (m_stMainServer G) (m_stProxyServer G) (gs_connectors G) (gs_mem G) timers events in
  '(G, k, j) ← _ProcessSSNetworkPacket now fuel os k j G;
  '(_, main, P, k, j) ← on_memory (_ProcessCSNetworkPacket now fuel os k j) (m_stMainServer G) (gs_mem G);
  Ok (calls, active,
      mk_gamesvr main (m_stProxyServer G) (gs_connectors G) P (gs_timers G) (gs_events G), k, j).

End Loop.
Arguments Gamesvr : clear implicits.

(** ** Timers run once *)

(** The callbacks of the waiting timers run in the order in which they became due, and both
    queues are empty afterwards. *)
Lemma _ProcessTimerCallback_spec s wait exec Q R :
  wait ≠ exec → queues s !! wait = Some Q → queues s !! exec = Some R → unlocked (q_lock Q) →
  ∃ s', _ProcessTimerCallback s wait exec = Ok (m_stCallback <$> m_vecQueue Q, s') ∧
    queues s' !! wait = Some TimerQueue_new ∧ queues s' !! exec = Some (mk_queue (q_lock R) []) ∧
    ∀ q, q ≠ wait → q ≠ exec → queues s' !! q = queues s !! q.
Proof.
  intros Hne HQ HR Hl. unfold _ProcessTimerCallback. rewrite (PrepareExecute_queues s wait exec Q R HQ HR Hl), bind_Ok.
  cbn [set_queues queues]. rewrite lookup_insert_ne, lookup_insert_eq by done. eexists. split; [done|].
  cbn [set_queues queues]. split; [|split].
  - by rewrite lookup_insert_ne, lookup_insert_eq by done.
  - by rewrite lookup_insert_eq.
  - intros q H1 H2. by rewrite !lookup_insert_ne by done.
Qed.

(** ** A heart beat and its answer *)

Section Handshake.
Context `{Protobuf CSHello} `{Protobuf CSHelloRsp} `{Protobuf SSHello} `{Protobuf SSHelloRsp}.

(** The hello of a heart beat fits into a packet with its time stamp. *)
Definition beat_arrives : Prop := ∀ t, ByteSizeLong (mkSSHello (u64 t)) <= 10232.

Lemma frames_one m : frames [m] = frame m.1 m.2.
Proof. rewrite frames_cons. by rewrite app_nil_r. Qed.

(** C18: a heart beat is answered.  In one process a connector with nothing else to send
    completes ten thousand heart beats and its write event runs; the bytes it writes reach
    the libevent server of another process, on a connection that is registered there; the
    read callback, one round of the logic thread on the packets between servers and one
    command of the network thread then write exactly one frame back to this connection: the
    answer to the hello, with a time, and a time stamp.  The connector is idle again. *)
Theorem heartbeat_is_answered fuel os j clock wclock c O p k n
    now now' now'' fuel' os' k' j' (s : LibeventServer) ps fd seq Os :
  pipe_answers fuel os → pipe_answers fuel' os' → beat_arrives → ss_hello_fits →
  conn_idle c O p k → 0 <= cn_iHeartBeatCnt c → cn_iHeartBeatCnt c + Z.of_nat n = 9999 →
  server_ready s → lv_pipe s = [] → clients_live (lv_ctx s) → send_idle (sv_net (lv_ctx s)) →
  receiving (lv_ctx s) ps fd seq Os [] [] → GetClient (sv_pool (lv_ctx s)) seq = Some ps →
  ∃ c1 j1 c2 out W1 s1 s2 k2 j2 body t,
    beats fuel os j clock (n + 1) c = Ok (c1, j1) ∧
    _OnConnectorBufferEventWrite wclock [SelReady ROk; SelTimeout] c1 = Ok (c2, out) ∧
    OnBufferEventRead now (lv_ctx s) fd (concat (snd <$> out)) = Ok (W1, [], []) ∧
    _ProcessSSNetworkPacket_owner now' fuel' os' k' j' (set_server_ctx s W1) = Ok (1, s1, k2, j2) ∧
    ReceiveCmd now'' s1
      = Ok (s2, [(fd, frame SS_PROTOCOL_MESSAGE_ID_HELLO_RSP (body ++ be_bytes 8 (now'' 1%nat)))]) ∧
    ParseFromArray body = (mkSSHelloRsp t, true) ∧ conn_idle c2 O p k.
Proof.
  intros Hos Hos' Hbeat Hrsp Hidle Hcnt Hn Hready Hpipe Hlive Hsend Hrcv Hseq.
  assert (beat_fits) as Hfits by (intros t; specialize (Hbeat t); lia).
  destruct (heartbeat_period fuel os j clock wclock c O p k n Hos Hfits Hidle Hcnt Hn)
    as (c1 & j1 & c2 & hello & E1 & E2 & _ & Hsize & Hidle2 & _).
  set (m := (SS_PROTOCOL_MESSAGE_ID_HELLO, hello ++ be_bytes 8 (wclock 0%nat 1%nat))).
  assert (msg_ok m) as Hm.
  { specialize (Hbeat (clock n 0%nat)). unfold msg_ok, m. cbn [fst snd]. rewrite length_app, length_be_bytes.
    split; [done|]. lia. }
  destruct (libevent_answers is_ss_hello answers_ss_hello ss_hello_peer HandleSSProto (fun _ => ss_hello_fits)
    HandleSSProto_promise ss_hello_sendable (fun _ => false) now now' now'' fuel' os' k' j' s ps fd seq Os []
    (frame m.1 m.2) [m] [])
    as (W1 & s1 & s2 & k2 & j2 & replies & out & E3 & E4 & E5 & Hans & Ho & Hfd); try done.
  { by rewrite frames_one, app_nil_r. }
  { by constructor. }
  { apply partial_nil. }
  { by constructor. }
  inversion Hans as [|? rp ? l Ha Hl]; subst. inversion Hl; subst.
  destruct Ha as (_ & Hproto & _ & t & Hparse).
  assert (out = [(fd, frame SS_PROTOCOL_MESSAGE_ID_HELLO_RSP (pk_body rp ++ be_bytes 8 (now'' 1%nat)))]) as ->.
  { destruct out as [|[fd' bytes] [|]]; try done. injection Hfd as ->. cbn [fmap list_fmap concat snd] in Ho.
    rewrite app_nil_r in Ho. rewrite Ho. cbn. by rewrite app_nil_r, Hproto. }
  eexists c1, j1, c2, _, W1, s1, s2, k2, j2, (pk_body rp), t.
  split; [exact E1|]. split; [exact E2|]. cbn [fmap list_fmap concat snd]. rewrite app_nil_r. done.
Qed.

End Handshake.

#[local] Existing Instances demo_ss demo_ss_rsp.

(** The connector with 9998 beats of [Connector] and a server with one client. *)
Lemma heartbeat_is_answered_witness :
  ∃ W, OnListenerAcceptConnect lev_server_new 6 (Some 0%nat) 0 0 88 [49] =
      Ok (W, [BuffereventSocketNew 0 6; BuffereventSetcb 0; BuffereventEnable 0]) ∧
  ∃ c1 j1 c2 out W1 s1 s2 k2 j2 body t,
    beats 1 (fun _ => WOk 32) 0 (fun _ _ => 700) 2 demo_connector = Ok (c1, j1) ∧
    _OnConnectorBufferEventWrite (fun _ _ => 258) [SelReady ROk; SelTimeout] c1 = Ok (c2, out) ∧
    OnBufferEventRead (fun _ => 1) W 6 (concat (snd <$> out)) = Ok (W1, [], []) ∧
    _ProcessSSNetworkPacket_owner (fun _ => 2) 1 (fun _ => WOk 32) 0 0
      (mk_lserver [] true true true W1 []) = Ok (1, s1, k2, j2) ∧
    ReceiveCmd (fun _ => 3) s1 = Ok (s2, [(6, frame 20002 (body ++ [0; 0; 0; 0; 0; 0; 0; 3]))]) ∧
    @ParseFromArray SSHelloRsp demo_ss_rsp body = (mkSSHelloRsp t, true) ∧
    conn_idle c2 ∅ 0 demo_client.
Proof.
  destruct (OnListenerAcceptConnect_spec lev_server_new ∅ [] 6 0 88 [49]) as (W & E & En & _ & Hseq & HR & Hlive);
    [apply (receiving_new 0 0)|done|done|].
  exists W. split; [exact E|].
  apply (heartbeat_is_answered 1 (fun _ => WOk 32) 0 (fun _ _ => 700) (fun _ _ => 258)
    demo_connector ∅ 0 demo_client 1 (fun _ => 1) (fun _ => 2) (fun _ => 3) 1 (fun _ => WOk 32) 0 0
    (mk_lserver [] true true true W []) 0 6 88 ∅).
  - apply demo_pipe.
  - apply demo_pipe.
  - intros t. change (ByteSizeLong (mkSSHello (u64 t))) with (Z.of_nat (length (enc (u64 t)))).
    pose proof (length_enc_u64 t). lia.
  - intros t. change (ByteSizeLong (mkSSHelloRsp (u64 t))) with (Z.of_nat (length (enc (u64 t)))).
    pose proof (length_enc_u64 t). lia.
  - apply demo_idle.
  - cbn. lia.
  - done.
  - done.
  - done.
  - apply Hlive. intros seq p Hp. vm_compute in Hp. discriminate Hp.
  - cbn [lv_ctx]. rewrite En. done.
  - exact HR.
  - exact Hseq.
Defined.
