(* ===== verification/GameMemory.v ===== *)
(** * The packet memory of the logic thread
      (src/service/gamesvr/gamelogic.cpp with packet_pool.h, queue.h and context.h)

    The main server, the proxy server and the connectors keep their packets in queues of their
    own and the memory of the packets in one pool.  The file follows a turn of the logic
    thread over all of them: it ends without a fault, every memory that was handed out stays
    in exactly one queue, and what the turn does not release is not touched. *)

From S2P Require Import Prelude Spinlock TimerWheel GameTimer Unpack PacketPool Context SocketMessage ServerLogic.
From S2P Require Import Libevent Config NetCmd Codec GameLogic Connector Events GameLoop.

(** ** Packets and the memory they hold *)

Definition same_on (F : list mem_ptr) (P P' : CPacketMemoryPool) : Prop :=
  ∀ q, q ∈ F → mem_load P' q = mem_load P q.

Lemma same_on_trans F P P1 P2 : same_on F P P1 → same_on F P1 P2 → same_on F P P2.
Proof. intros H1 H2 q Hq. by rewrite H2, H1. Qed.

Lemma same_on_sub F F' P P' : F ⊆ F' → same_on F' P P' → same_on F P P'.
Proof. intros Hs H1 q Hq. by apply H1, Hs. Qed.

Lemma same_on_app F F' P P' : same_on (F ++ F') P P' → same_on F P P' ∧ same_on F' P P'.
Proof. intros H1. split; intros q Hq; apply H1, elem_of_app; auto. Qed.

(** The memory that is handed out is that of the packets [v] and the memories [F], each once,
    and every packet can be read. *)
Record held (P : CPacketMemoryPool) (F : list mem_ptr) (v : list NetPacketBuffer) : Prop := {
  hd_backed : backed v;
  hd_nodup : NoDup (ptrs v ++ F);
  hd_pool : pool_inv P (list_to_set (ptrs v ++ F));
  hd_read : Forall (λ b, ∃ pk, packet_of P b = Ok pk) v;
}.

Lemma ptrs_perm v w : v ≡ₚ w → ptrs v ≡ₚ ptrs w.
Proof. intros E. unfold ptrs. by apply omap_Permutation. Qed.

Lemma ptrs_elem v p : p ∈ ptrs v ↔ ∃ b, b ∈ v ∧ m_pstMemory b = Some p.
Proof. unfold ptrs. apply list_elem_of_omap. Qed.

Lemma held_perm P F v w : v ≡ₚ w → held P F v → held P F w.
Proof.
  intros E [H1 H2 H3 H4]. pose proof (ptrs_perm _ _ E) as Ep. split.
  - unfold backed. by rewrite <- E.
  - by rewrite <- Ep.
  - by rewrite <- (list_to_set_perm_L (ptrs v ++ F)); [|rewrite Ep].
  - by rewrite <- E.
Qed.

(** Packets of the frame: [F] and [ptrs w] are the same to the pool. *)
Lemma held_app P F v w : held P F (v ++ w) → held P (ptrs w ++ F) v.
Proof.
  intros [[B1 B2]%Forall_app H2 H3 [R1 R2]%Forall_app]. rewrite ptrs_app, <- app_assoc in *. by split.
Qed.

Lemma read_frame P P' v :
  backed v → same_on (ptrs v) P P' → Forall (λ b, ∃ pk, packet_of P b = Ok pk) v →
  Forall (λ b, ∃ pk, packet_of P' b = Ok pk) v.
Proof.
  intros Hb Hs Hr. apply Forall_forall. intros b Hin. rewrite Forall_forall in Hr. destruct (Hr b Hin) as [pk Hpk].
  unfold backed in Hb. rewrite Forall_forall in Hb. destruct (Hb b Hin) as [p Hp]. exists pk.
  eapply packet_of_frame; [exact Hp| |exact Hpk]. apply Hs, ptrs_elem. exists b. split; [by apply list_elem_of_In|done].
Qed.

(** The packets [w] stay where the others change. *)
Lemma held_swap P P' F v v' w :
  held P F (v ++ w) → held P' (ptrs w ++ F) v' → same_on (ptrs w) P P' → held P' F (v' ++ w).
Proof.
  intros [[B1 B2]%Forall_app H2 H3 [R1 R2]%Forall_app] [C1 C2 C3 C4] Hs. split.
  - by apply Forall_app.
  - by rewrite ptrs_app, <- app_assoc.
  - by rewrite ptrs_app, <- app_assoc.
  - apply Forall_app. split; [done|]. by eapply read_frame.
Qed.

Lemma held_add P F v q now seq fd proto n src body r q' P' :
  held P F v → n <= 10240 → mem_read src 0 n = Ok body →
  AddPacket P q now seq fd proto n src = Ok (r, q', P') →
  ∃ b, m_vecPacketPool q' = m_vecPacketPool q ++ [b] ∧ held P' F (b :: v) ∧ same_on (ptrs v ++ F) P P'.
Proof.
  intros [H1 H2 H3 H4] Hn Hr E.
  destruct (AddPacket_spec P _ q now seq fd proto n src body H3 Hn Hr) as (p & P1 & b & E' & Hb & Hp & HI & Hf & Hpk).
  rewrite E in E'. injection E' as -> -> ->. rewrite elem_of_list_to_set in Hp.
  assert (ptrs (b :: v) = p :: ptrs v) as Ept by (unfold ptrs; cbn; by rewrite Hb).
  assert (same_on (ptrs v ++ F) P P1) as Hs by (intros q0 Hq0; apply Hf; by apply elem_of_list_to_set).
  exists b. split; [done|]. split; [|done]. split.
  - constructor; [by eexists|done].
  - rewrite Ept. cbn [app]. by apply NoDup_cons_2.
  - by rewrite Ept.
  - constructor; [by eexists|]. eapply read_frame; [done| |done]. exact (proj1 (same_on_app _ _ _ _ Hs)).
Qed.

Lemma held_release P F u v :
  held P F (u ++ v) → ∃ P', release_packets P u = Ok P' ∧ held P' F v ∧ same_on (ptrs v ++ F) P P'.
Proof.
  intros [[B1 B2]%Forall_app H2 H3 [R1 R2]%Forall_app]. rewrite ptrs_app, <- app_assoc in *.
  apply list.NoDup_app in H2 as (D1 & D2 & D3).
  destruct (release_packets_spec u P _ H3 B1 D1) as (P' & E & HI & Hf).
  { intros q Hq. rewrite elem_of_list_to_set, elem_of_app. by left. }
  assert ((list_to_set (ptrs u ++ ptrs v ++ F) : gset mem_ptr) ∖ list_to_set (ptrs u) = list_to_set (ptrs v ++ F)) as Eset.
  { apply set_eq. intros q. rewrite elem_of_difference, !elem_of_list_to_set, (elem_of_app (ptrs u)). split.
    - intros [[?|?] ?]; done.
    - intros Hq. split; [by right|]. intros Hu. by apply (D2 q). }
  rewrite Eset in HI, Hf. exists P'. split; [done|].
  assert (same_on (ptrs v ++ F) P P') as Hs by (intros q0 Hq0; apply Hf; by apply elem_of_list_to_set).
  split; [|done]. split; [done..|]. eapply read_frame; [done| |done]. exact (proj1 (same_on_app _ _ _ _ Hs)).
Qed.

(** ** The queues of a context *)

Definition all_packets (N : NetworkContext) : list NetPacketBuffer :=
  m_vecPacketPool (m_stNetPacketLogicQueue N) ++ m_vecPacketPool (m_stNetPacketRecvPrepareQueue N) ++
  m_vecPacketPool (m_stNetPacketRecvQueue N) ++ m_vecPacketPool (m_stNetPacketSendPrepareQueue N) ++
  m_vecPacketPool (m_stNetPacketSendQueue N) ++ m_vecPacketPool (m_stNetPacketSendCache N).

(** Packets on their way out. *)
Definition outgoing (N : NetworkContext) : list NetPacketBuffer :=
  m_vecPacketPool (m_stNetPacketSendPrepareQueue N) ++ m_vecPacketPool (m_stNetPacketSendQueue N).

(** No lock is held, and the send queue knows whether it is empty. *)
Record net_open (N : NetworkContext) : Prop := {
  no_read : unlocked (m_stReadLock N);
  no_write : unlocked (m_stWriteLock N);
  no_signal : unlocked (s_lock (m_stSignalExec N));
  no_send : m_vecPacketPool (m_stNetPacketSendQueue N) = [] ∨ 0 < m_iPacketNum (m_stNetPacketSendQueue N);
}.

Definition logic_idle (N : NetworkContext) : Prop := m_vecPacketPool (m_stNetPacketLogicQueue N) = [].

(** The counters of the queues do not overflow in a round. *)
Definition net_room (N : NetworkContext) : Prop :=
  Z.of_nat (length (m_vecPacketPool (m_stNetPacketRecvQueue N)) + length (outgoing N)) < 2 ^ 31.

Section MemoryRound.
Context {C S : Type} `{PacketOwner C S}.
Context (handle : (nat → Z) → nat → CPacketMemoryPool → NetworkContext → NetPacketBuffer →
                  res (NetworkContext * CPacketMemoryPool * nat)).
Context (wants fits : packet → Prop) `{dec : ∀ pk, Decision (wants pk)} (answers : packet → packet → Prop).
Context (promise : handler_promise handle wants fits answers).
Context (batch : Z → bool) (now : nat → Z) (fuel : nat) (os : nat → write_answer).
Context (Hos : pipe_answers fuel os).

(** A packet the handler can answer. *)
Definition fitting (P : CPacketMemoryPool) (b : NetPacketBuffer) : Prop :=
  ∃ p pk, m_pstMemory b = Some p ∧ packet_of P b = Ok pk ∧ fits pk.

Lemma fitting_frame P P' v : same_on (ptrs v) P P' → Forall (fitting P) v → Forall (fitting P') v.
Proof using.
  intros Hs. rewrite !Forall_forall. intros Hv b Hb. destruct (Hv b Hb) as (p & pk & Hp & Hpk & Hf).
  exists p, pk. split; [done|]. split; [|done]. eapply packet_of_frame; [done| |done].
  apply Hs, ptrs_elem. exists b. split; [by apply list_elem_of_In|done].
Qed.

(** The context between two steps of a round: the logic queue and the packets being received
    stay, what goes out grows by at most [d]. *)
Record steps (d : nat) (F : list mem_ptr) (s s' : S) : Prop := {
  sp_held : held (sv_mem (owner_ctx s')) F (all_packets (sv_net (owner_ctx s')));
  sp_open : net_open (sv_net (owner_ctx s'));
  sp_ready : owner_ready s';
  sp_logic : m_stNetPacketLogicQueue (sv_net (owner_ctx s')) = m_stNetPacketLogicQueue (sv_net (owner_ctx s));
  sp_prepare : m_stNetPacketRecvPrepareQueue (sv_net (owner_ctx s')) = m_stNetPacketRecvPrepareQueue (sv_net (owner_ctx s));
  sp_recv : m_stNetPacketRecvQueue (sv_net (owner_ctx s')) = m_stNetPacketRecvQueue (sv_net (owner_ctx s));
  sp_size : (length (outgoing (sv_net (owner_ctx s'))) <= length (outgoing (sv_net (owner_ctx s))) + d)%nat;
  sp_same : same_on (ptrs (m_vecPacketPool (m_stNetPacketLogicQueue (sv_net (owner_ctx s))) ++
                           m_vecPacketPool (m_stNetPacketRecvPrepareQueue (sv_net (owner_ctx s)))) ++ F)
              (sv_mem (owner_ctx s)) (sv_mem (owner_ctx s'));
}.

Lemma steps_trans d e F s1 s2 s3 : steps d F s1 s2 → steps e F s2 s3 → steps (d + e) F s1 s3.
Proof using.
  intros [A1 A2 A3 A4 A5 A6 A7 A8] [B1 B2 B3 B4 B5 B6 B7 B8]. split; try done; try congruence; [lia|].
  rewrite A4, A5 in B8. by eapply same_on_trans.
Qed.

Lemma handle_steps s F b k :
  held (sv_mem (owner_ctx s)) F (all_packets (sv_net (owner_ctx s))) → net_open (sv_net (owner_ctx s)) →
  owner_ready s → fitting (sv_mem (owner_ctx s)) b →
  ∃ N P k', handle now k (sv_mem (owner_ctx s)) (sv_net (owner_ctx s)) b = Ok (N, P, k') ∧
    steps 1 F s (update_net s N P).
Proof using promise dec.
  intros Hh Ho Hr (p & pk & Hp & Hpk & Hf).
  destruct (promise now k _ _ (sv_net (owner_ctx s)) b pk (hd_pool _ _ _ Hh) Hpk Hf) as [Hno Hyes].
  assert (∀ N P, owner_ctx (update_net s N P) = set_net (owner_ctx s) N P) as Hc by (intros; apply ctx_set_owner).
  destruct (decide (wants pk)) as [Hw|Hw].
  - destruct (Hyes Hw) as (rp & N & P & k' & E & _ & (t & n & src & q & _ & Hn & Hsrc & Ea & ->)).
    eexists _, P, k'. split; [done|].
    destruct (held_add _ _ _ _ _ _ _ _ _ _ _ _ _ _ Hh Hn Hsrc Ea) as (b' & Eq & Hh' & Hs).
    split; rewrite ?Hc; cbn [set_net sv_mem sv_net set_send m_stNetPacketLogicQueue m_stNetPacketRecvPrepareQueue
      m_stNetPacketRecvQueue]; try done.
    + eapply held_perm; [|exact Hh']. unfold all_packets. cbn [set_send m_stNetPacketLogicQueue
        m_stNetPacketRecvPrepareQueue m_stNetPacketRecvQueue m_stNetPacketSendPrepareQueue m_stNetPacketSendQueue
        m_stNetPacketSendCache]. rewrite Eq. solve_Permutation.
    + destruct Ho. by split.
    + by apply ready_set_owner.
    + unfold outgoing. cbn [set_send m_stNetPacketSendPrepareQueue m_stNetPacketSendQueue]. rewrite Eq, !length_app. cbn. lia.
    + apply same_on_app in Hs as [Hs1 Hs2]. intros q0 [Hq|Hq]%elem_of_app; [|by apply Hs2]. apply Hs1.
      unfold all_packets. rewrite app_assoc, ptrs_app. apply elem_of_app. by left.
  - destruct (Hno Hw) as (k' & E). eexists _, _, k'. split; [done|]. split; rewrite ?Hc; cbn [set_net sv_mem sv_net]; try done.
    + by apply ready_set_owner.
    + lia.
Qed.

Lemma send_steps s F j :
  held (sv_mem (owner_ctx s)) F (all_packets (sv_net (owner_ctx s))) → net_open (sv_net (owner_ctx s)) →
  owner_ready s → Z.of_nat (length (outgoing (sv_net (owner_ctx s)))) < 2 ^ 31 →
  ∃ s' j', OwnerSend fuel os j s = Ok (s', j') ∧ steps 0 F s s'.
Proof using Hos.
  intros Hh [O1 O2 O3 O4] Hr Hlen.
  assert (∃ n N', PacketSendPrepare (sv_net (owner_ctx s)) = Ok (n, N') ∧
    all_packets N' ≡ₚ all_packets (sv_net (owner_ctx s)) ∧ net_open N' ∧
    m_stNetPacketLogicQueue N' = m_stNetPacketLogicQueue (sv_net (owner_ctx s)) ∧
    m_stNetPacketRecvPrepareQueue N' = m_stNetPacketRecvPrepareQueue (sv_net (owner_ctx s)) ∧
    m_stNetPacketRecvQueue N' = m_stNetPacketRecvQueue (sv_net (owner_ctx s)) ∧
    length (outgoing N') = length (outgoing (sv_net (owner_ctx s)))) as (n & N' & E & Hp & Ho & E1 & E2 & E3 & E4).
  { unfold PacketSendPrepare. rewrite (spinlock_lock_free _ O2), bind_Ok, CopyFrom_spec by done. cbv zeta.
    eexists _, _. split; [done|]. unfold all_packets, outgoing in *. cbn. split; [solve_Permutation|].
    split; [|do 3 (split; [done|]); rewrite !length_app; lia]. split; cbn; try done.
    rewrite length_app in Hlen. rewrite length_app, swrap_small by (cbn; lia).
    destruct (m_vecPacketPool (m_stNetPacketSendQueue (sv_net (owner_ctx s)))) as [|x v] eqn:Ev; cbn; [|right; lia].
    destruct (m_vecPacketPool (m_stNetPacketSendPrepareQueue (sv_net (owner_ctx s)))) as [|y w]; cbn; [by left|right; lia]. }
  destruct (owner_sends fuel os j s n N' Hos Hr E) as (s' & j' & Es & _ & Hc & Hr').
  exists s', j'. split; [done|]. split; rewrite ?Hc; cbn [set_net sv_mem sv_net]; try done.
  - by eapply held_perm.
  - lia.
Qed.

Lemma packet_loop_steps v : ∀ s F i k j,
  held (sv_mem (owner_ctx s)) F (all_packets (sv_net (owner_ctx s))) → net_open (sv_net (owner_ctx s)) →
  owner_ready s → v ⊆ m_vecPacketPool (m_stNetPacketLogicQueue (sv_net (owner_ctx s))) →
  Forall (fitting (sv_mem (owner_ctx s))) v →
  Z.of_nat (length v + length (outgoing (sv_net (owner_ctx s)))) < 2 ^ 31 →
  ∃ s' k' j', packet_loop handle batch now fuel os v (length v) i k j s = Ok (s', k', j') ∧ steps (length v) F s s'.
Proof using promise dec Hos.
  induction v as [|b v IH]; intros s F i k j Hh Ho Hr Hsub Hfit Hlen.
  - exists s, k, j. split; [done|]. split; try done. cbn. lia.
  - apply Forall_cons_1 in Hfit as [Hb Hfit]. cbn [packet_loop length].
    destruct (handle_steps s F b k Hh Ho Hr Hb) as (N & P & k1 & -> & Hs1). rewrite bind_Ok.
    set (s1 := update_net s N P) in *. cbn [length] in Hlen.
    assert (∃ s2 j2, (if batch i then '(s, j) ← OwnerSend fuel os j s1; Ok (s, j) else Ok (s1, j)) = Ok (s2, j2) ∧ steps 1 F s s2)
      as (s2 & j2 & E2 & Hs2).
    { destruct (batch i); [|by exists s1, j].
      destruct (send_steps s1 F j) as (s2 & j2 & E & Hs); [apply Hs1..| |].
      - pose proof (sp_size _ _ _ _ Hs1). lia.
      - rewrite E. exists s2, j2. split; [done|]. by eapply (steps_trans 1 0). }
    destruct (IH s2 F (i + 1) k1 j2) as (s3 & k3 & j3 & E3 & Hs3); [apply Hs2..| | | |].
    + rewrite (sp_logic _ _ _ _ Hs2). intros x Hx. apply Hsub. by right.
    + eapply fitting_frame; [|done]. eapply same_on_sub; [|apply Hs2]. intros q Hq. apply elem_of_app. left.
      rewrite ptrs_app. apply elem_of_app. left. apply ptrs_elem in Hq as (x & Hx & Hq). apply ptrs_elem. exists x.
      split; [|done]. apply Hsub. by right.
    + pose proof (sp_size _ _ _ _ Hs2). lia.
    + exists s3, k3, j3. split; [|by eapply (steps_trans 1 (length v))].
      destruct (batch i); [|by injection E2 as -> ->]. destruct (OwnerSend fuel os j s1) as [[s4 j4]|]; [|done].
      cbn [mbind res_bind] in E2 |- *. by injection E2 as -> ->.
Qed.

(** A round ends: the logic queue is empty, the packets that were waiting are gone. *)
Record round_ends (F : list mem_ptr) (s s' : S) : Prop := {
  re_held : held (sv_mem (owner_ctx s')) F (all_packets (sv_net (owner_ctx s')));
  re_open : net_open (sv_net (owner_ctx s'));
  re_ready : owner_ready s';
  re_idle : logic_idle (sv_net (owner_ctx s'));
  re_prepare : m_stNetPacketRecvPrepareQueue (sv_net (owner_ctx s')) = m_stNetPacketRecvPrepareQueue (sv_net (owner_ctx s));
  re_recv : m_stNetPacketRecvQueue (sv_net (owner_ctx s')) = queue_Init ∨
            m_stNetPacketRecvQueue (sv_net (owner_ctx s')) = m_stNetPacketRecvQueue (sv_net (owner_ctx s)) ∧
            sv_mem (owner_ctx s') = sv_mem (owner_ctx s);
  re_same : same_on (ptrs (m_vecPacketPool (m_stNetPacketRecvPrepareQueue (sv_net (owner_ctx s)))) ++ F)
              (sv_mem (owner_ctx s)) (sv_mem (owner_ctx s'));
}.

Lemma process_packets_memory s F n k j :
  held (sv_mem (owner_ctx s)) F (all_packets (sv_net (owner_ctx s))) → net_open (sv_net (owner_ctx s)) →
  owner_ready s → m_stNetPacketRecvQueue (sv_net (owner_ctx s)) = queue_Init →
  m_iPacketNum (m_stNetPacketLogicQueue (sv_net (owner_ctx s))) = n →
  n = Z.of_nat (length (m_vecPacketPool (m_stNetPacketLogicQueue (sv_net (owner_ctx s))))) →
  Forall (fitting (sv_mem (owner_ctx s))) (m_vecPacketPool (m_stNetPacketLogicQueue (sv_net (owner_ctx s)))) →
  n + Z.of_nat (length (outgoing (sv_net (owner_ctx s)))) < 2 ^ 31 →
  ∃ s' k' j', process_packets handle batch now fuel os n k j s = Ok (s', k', j') ∧ round_ends F s s'.
Proof using promise dec Hos.
  intros Hh Ho Hr Hrecv Hn Hlen Hfit Hmax. unfold process_packets. rewrite Hn, Z.eqb_refl. cbn [c_assert]. rewrite bind_Ok.
  rewrite Hlen, Nat2Z.id.
  destruct (packet_loop_steps (m_vecPacketPool (m_stNetPacketLogicQueue (sv_net (owner_ctx s)))) s F 0 k j)
    as (s1 & k1 & j1 & -> & Hs1); [done..|lia|]. rewrite bind_Ok.
  destruct (send_steps s1 F j1) as (s2 & j2 & -> & Hs2); [apply Hs1..| |].
  { pose proof (sp_size _ _ _ _ Hs1). lia. }
  rewrite bind_Ok. pose proof (steps_trans _ _ _ _ _ _ Hs1 Hs2) as [T1 T2 T3 T4 T5 T6 T7 T8].
  unfold all_packets in T1. destruct (held_release _ _ _ _ T1) as (P' & E & Hh' & Hs').
  unfold ReleaseAllPackets. rewrite E, !bind_Ok.
  eexists _, k1, j2. split; [done|]. set (s3 := update_net _ _ _).
  assert (owner_ctx s3 = set_net (owner_ctx s2) (set_recv (sv_net (owner_ctx s2)) (m_stNetPacketRecvPrepareQueue (sv_net (owner_ctx s2)))
    (m_stNetPacketRecvQueue (sv_net (owner_ctx s2)))
    (mk_net_queue (m_iPacketNum (m_stNetPacketLogicQueue (sv_net (owner_ctx s2)))) [])) P') as Hc by apply ctx_set_owner.
  split; rewrite ?Hc; cbn [set_net sv_mem sv_net set_recv m_stNetPacketRecvPrepareQueue m_stNetPacketRecvQueue]; try done.
  - destruct T2. by split.
  - by apply ready_set_owner.
  - left. by rewrite T6.
  - apply same_on_app in T8 as [T8 T9]. rewrite ptrs_app in T8. apply same_on_app in T8 as [_ T8].
    apply same_on_app in Hs' as [Hs1' Hs2']. intros q [Hq|Hq]%elem_of_app.
    + rewrite Hs1'; [by apply T8|]. rewrite T5, ptrs_app. apply elem_of_app. by left.
    + by rewrite Hs2', T9.
Qed.

(** A context a round can start from: nothing is left of the last one, and the handler can
    answer what waits. *)
Record round_starts (F : list mem_ptr) (s : S) : Prop := {
  rs_held : held (sv_mem (owner_ctx s)) F (all_packets (sv_net (owner_ctx s)));
  rs_open : net_open (sv_net (owner_ctx s));
  rs_ready : owner_ready s;
  rs_idle : logic_idle (sv_net (owner_ctx s));
  rs_fit : Forall (fitting (sv_mem (owner_ctx s)))
             (m_vecPacketPool (m_stNetPacketRecvPrepareQueue (sv_net (owner_ctx s))) ++
              m_vecPacketPool (m_stNetPacketRecvQueue (sv_net (owner_ctx s))));
}.

Lemma process_signalled_memory s F k j :
  round_starts F s → net_room (sv_net (owner_ctx s)) →
  ∃ n s' k' j', process_signalled (process_packets handle batch) now fuel os k j s = Ok (n, s', k', j') ∧
    round_ends F s s'.
Proof using promise dec Hos.
  intros [Hh [O1 O2 O3 O4] Hr Hidle [_ Hfit]%Forall_app] Hroom. unfold process_signalled, CheckAndSetSignalActived.
  rewrite (spinlock_lock_free _ O3), !bind_Ok. unfold logic_idle in Hidle. unfold net_room, outgoing in Hroom.
  destruct (m_bHasSignal (m_stSignalExec (sv_net (owner_ctx s)))); cbn [negb].
  - unfold CopyPacketsFromNetToLogic. cbn [set_signal m_stReadLock].
    rewrite (spinlock_lock_free _ O1), bind_Ok, CopyFrom_spec by (by left). cbv zeta.
    cbn [set_signal m_stNetPacketRecvQueue m_stNetPacketRecvPrepareQueue queue_Init m_vecPacketPool app].
    rewrite bind_Ok, swrap_small by (cbn; lia). set (s0 := update_net s _ _).
    match goal with s0 := update_net s ?N ?P |- _ => assert (owner_ctx s0 = set_net (owner_ctx s) N P) as Hc by apply ctx_set_owner end.
    edestruct (process_packets_memory s0 F) as (s' & k' & j' & -> & Hend); rewrite ?Hc; cbn; try done.
    + eapply held_perm; [|exact Hh]. unfold all_packets. cbn. rewrite Hidle. solve_Permutation.
    + by apply ready_set_owner.
    + unfold outgoing. cbn. lia.
    + eexists _, s', k', j'. split; [done|].
      destruct Hend as [E1 E2 E3 E4 E5 E6 E7]. rewrite Hc in *. cbn in E5, E6, E7. split; try done.
      left. by destruct E6 as [?|[? _]].
  - eexists _, _, _, _. split; [done|]. set (s0 := update_net s _ _).
    match goal with s0 := update_net s ?N ?P |- _ => assert (owner_ctx s0 = set_net (owner_ctx s) N P) as Hc by apply ctx_set_owner end.
    split; rewrite ?Hc; cbn [set_net set_signal sv_mem sv_net m_stNetPacketRecvPrepareQueue m_stNetPacketRecvQueue]; try done.
    + by apply ready_set_owner.
    + by right.
Qed.

(** What a round leaves is a place to start from. *)
Lemma ends_starts F s s' : round_starts F s → round_ends F s s' → round_starts F s'.
Proof using.
  intros [R1 R2 R3 R4 R5] [E1 E2 E3 E4 E5 E6 E7]. split; try done. rewrite E5.
  apply Forall_app in R5 as [F1 F2]. apply Forall_app. split.
  - eapply fitting_frame; [|done]. by apply same_on_app in E7 as [? _].
  - destruct E6 as [->|[-> ->]]; [constructor|done].
Qed.

(** What neither sending nor the context changes is kept. *)
Lemma process_signalled_keeps {X} (g : S → X) n s k j s' k' j' :
  (∀ s W, g (set_owner_ctx s W) = g s) →
  (∀ j s s' j', OwnerSend fuel os j s = Ok (s', j') → g s' = g s) →
  process_signalled (process_packets handle batch) now fuel os k j s = Ok (n, s', k', j') → g s' = g s.
Proof using.
  intros Hset Hsend. assert (∀ s N P, g (update_net s N P) = g s) as Hu by (intros; apply Hset).
  assert (∀ v m i k j s s' k' j', packet_loop handle batch now fuel os v m i k j s = Ok (s', k', j') → g s' = g s) as Hloop.
  { induction v as [|b v IH]; intros [|m] i k1 j1 s1 s2 k2 j2 E; try (by injection E as <-); try done.
    cbn [packet_loop] in E. apply bind_Ok_iff in E as ([[N P] k3] & _ & E). destruct (batch i).
    - apply bind_Ok_iff in E as ([s3 j3] & E1 & E). by rewrite (IH _ _ _ _ _ _ _ _ E), (Hsend _ _ _ _ E1), Hu.
    - by rewrite (IH _ _ _ _ _ _ _ _ E), Hu. }
  unfold process_signalled. intros E. apply bind_Ok_iff in E as ([active signal] & _ & E).
  destruct (negb active); [by injection E as <- <-|]. apply bind_Ok_iff in E as ([m N] & _ & E).
  apply bind_Ok_iff in E as ([[s1 k1] j1] & E1 & E). injection E as <- <- <- <-. unfold process_packets in E1.
  apply bind_Ok_iff in E1 as (_ & _ & E1). apply bind_Ok_iff in E1 as ([[s2 k2] j2] & E2 & E1).
  apply bind_Ok_iff in E1 as ([s3 j3] & E3 & E1). apply bind_Ok_iff in E1 as ([q P] & _ & E1). injection E1 as <- <- <-.
  by rewrite Hu, (Hsend _ _ _ _ E3), (Hloop _ _ _ _ _ _ _ _ _ E2), Hu.
Qed.
End MemoryRound.

(** ** One context among others *)

Section OneOfMany.
Context {C S : Type} `{PacketOwner C S}.

Definition packets (s : S) : list NetPacketBuffer := all_packets (sv_net (owner_ctx s)).

(** What a round needs of its own context, when the packet memory is [P]. *)
Record local_ok (fits : packet → Prop) (P : CPacketMemoryPool) (s : S) : Prop := {
  lo_open : net_open (sv_net (owner_ctx s));
  lo_ready : owner_ready s;
  lo_idle : logic_idle (sv_net (owner_ctx s));
  lo_fit : Forall (fitting fits P)
             (m_vecPacketPool (m_stNetPacketRecvPrepareQueue (sv_net (owner_ctx s))) ++
              m_vecPacketPool (m_stNetPacketRecvQueue (sv_net (owner_ctx s))));
}.

Lemma local_frame fits P P' s : same_on (ptrs (packets s)) P P' → local_ok fits P s → local_ok fits P' s.
Proof.
  intros Hs [L1 L2 L3 L4]. split; try done. eapply fitting_frame; [|done]. eapply same_on_sub; [|exact Hs].
  intros q (b & Hb & Hq)%ptrs_elem. apply ptrs_elem. exists b. split; [|done]. unfold packets, all_packets.
  apply elem_of_app in Hb. rewrite !elem_of_app. tauto.
Qed.

Context (handle : (nat → Z) → nat → CPacketMemoryPool → NetworkContext → NetPacketBuffer →
                  res (NetworkContext * CPacketMemoryPool * nat)).
Context (wants fits : packet → Prop) `{dec : ∀ pk, Decision (wants pk)} (answers : packet → packet → Prop).
Context (promise : handler_promise handle wants fits answers).
Context (batch : Z → bool) (now : nat → Z) (fuel : nat) (os : nat → write_answer).
Context (Hos : pipe_answers fuel os).

(** A round on one context: the packets [w] of the others, and [F], are not touched. *)
Lemma on_memory_round s P F w k j :
  held P F (packets s ++ w) → local_ok fits P s → net_room (sv_net (owner_ctx s)) →
  ∃ n s' P' k' j',
    on_memory (process_signalled (process_packets handle batch) now fuel os k j) s P = Ok (n, s', P', k', j') ∧
    held P' F (packets s' ++ w) ∧ local_ok fits P' s' ∧ same_on (ptrs w ++ F) P P' ∧
    ∀ X (g : S → X), (∀ s W, g (set_owner_ctx s W) = g s) →
      (∀ j s s' j', OwnerSend fuel os j s = Ok (s', j') → g s' = g s) → g s' = g s.
Proof using promise dec Hos.
  intros Hh [L1 L2 L3 L4] Hroom. set (s0 := update_net s (sv_net (owner_ctx s)) P).
  assert (owner_ctx s0 = set_net (owner_ctx s) (sv_net (owner_ctx s)) P) as Hc by apply ctx_set_owner.
  assert (round_starts fits (ptrs w ++ F) s0) as Hst.
  { split; rewrite ?Hc; cbn [set_net sv_mem sv_net]; try done; [by apply held_app|by apply ready_set_owner]. }
  destruct (process_signalled_memory handle wants fits answers promise batch now fuel os Hos s0 (ptrs w ++ F) k j Hst)
    as (n & s' & k' & j' & E & Hend); [by rewrite Hc|].
  pose proof (ends_starts fits (ptrs w ++ F) s0 s' Hst Hend) as [R1 R2 R3 R4 R5].
  pose proof (re_same _ _ _ Hend) as Hsame. rewrite Hc in Hsame. cbn [set_net sv_mem] in Hsame.
  apply same_on_app in Hsame as [_ Hsame].
  eexists n, s', _, k', j'. unfold on_memory. fold s0. rewrite E, bind_Ok. split; [done|]. split; [|split; [|split]].
  - eapply held_swap; [exact Hh|exact R1|]. by apply same_on_app in Hsame as [? _].
  - by split.
  - done.
  - intros X g Hset Hsend. rewrite (process_signalled_keeps handle batch now fuel os g n s0 k j s' k' j' Hset Hsend E).
    apply Hset.
Qed.
End OneOfMany.

(** ** The connectors *)

Definition connector_packets (m : gmap nat Connector) : list NetPacketBuffer := map_to_list m ≫= λ e, packets e.2.

Lemma connector_packets_delete m p c :
  m !! p = Some c → connector_packets m ≡ₚ packets c ++ connector_packets (delete p m).
Proof. intros E. unfold connector_packets. by rewrite <- (map_to_list_delete m p c E). Qed.

Lemma connector_packets_insert m p c :
  connector_packets (<[p := c]> m) ≡ₚ packets c ++ connector_packets (delete p m).
Proof.
  rewrite (connector_packets_delete (<[p := c]> m) p c) by apply lookup_insert_eq. by rewrite delete_insert_eq.
Qed.

Section Connectors.
Context `{Protobuf CSHello} `{Protobuf CSHelloRsp} `{Protobuf SSHello} `{Protobuf SSHelloRsp}.
Context (now : nat → Z) (fuel : nat) (os : nat → write_answer) (Hos : pipe_answers fuel os).

Definition ss_fits (_ : packet) : Prop := ss_hello_fits.

(** A connector the loop can meet: it was not closed, and one that is alive has a context. *)
Definition conn_ok (P : CPacketMemoryPool) (c : Connector) : Prop :=
  IsClosed c = false ∧ (IsAlive c = true → local_ok ss_fits P c ∧ is_Some (cn_pstConnectorCtx c)).

Definition conn_room (c : Connector) : Prop := IsAlive c = true → net_room (sv_net (cn_ctx c)).

Lemma conn_frame P P' c : same_on (ptrs (packets c)) P P' → conn_ok P c → conn_ok P' c.
Proof using. intros Hs [H1' H2']. split; [done|]. intros Ha. destruct (H2' Ha). split; [by eapply local_frame|done]. Qed.

(** All of them, when their packets are not touched. *)
Lemma conns_frame P P' m :
  same_on (ptrs (connector_packets m)) P P' → map_Forall (λ _, conn_ok P) m → map_Forall (λ _, conn_ok P') m.
Proof using.
  intros Hs Hok p c Hc. eapply conn_frame; [|by apply (Hok p)]. eapply same_on_sub; [|exact Hs].
  rewrite (ptrs_perm _ _ (connector_packets_delete m p c Hc)), ptrs_app. intros y Hy. apply elem_of_app. by left.
Qed.

Lemma conn_write_keeps n j c cmd c' j' :
  conn_write n os j c cmd = Ok (c', j') → cn_pstConnectorCtx c' = cn_pstConnectorCtx c.
Proof using.
  revert j. induction n as [|n IH]; intros j; cbn [conn_write]; [done|].
  destruct (negb (IsAlive c)); [by intros [= <- _]|]. destruct (os j); [apply IH|]. by intros [= <- _].
Qed.

Lemma conn_send_keeps j c c' j' :
  conn_SendNetworkPackets fuel os j c = Ok (c', j') → cn_pstConnectorCtx c' = cn_pstConnectorCtx c.
Proof using.
  unfold conn_SendNetworkPackets. destruct (negb (IsAlive c)); [by intros [= <- _]|].
  intros E. apply bind_Ok_iff in E as ([n N] & _ & E). by rewrite (conn_write_keeps _ _ _ _ _ _ E).
Qed.

Lemma connector_loop_memory v : ∀ R P F w tot k j,
  held P F (connector_packets (cp_connectors R) ++ w) →
  map_Forall (λ _, conn_ok P) (cp_connectors R) → NoDup v →
  Forall (λ p, ∃ c, cp_connectors R !! p = Some c ∧ conn_room c) v →
  ∃ n R' P' k' j', connector_loop now fuel os v tot k j R P = Ok (n, R', P', k', j') ∧
    held P' F (connector_packets (cp_connectors R') ++ w) ∧ map_Forall (λ _, conn_ok P') (cp_connectors R') ∧
    same_on (ptrs w ++ F) P P' ∧ m_stConnectorPool R' = m_stConnectorPool R ∧
    dom (cp_connectors R') = dom (cp_connectors R).
Proof using Hos.
  induction v as [|p v IH]; intros R P F w tot k j Hh Hok Hnd Hin; [by eexists _, R, P, k, j|].
  apply list.NoDup_cons in Hnd as [Hp Hnd]. apply Forall_cons_1 in Hin as [(c & Hc & Hroom) Hin].
  cbn [connector_loop]. unfold connector. rewrite Hc, bind_Ok. destruct (Hok p c Hc) as [Hcl Hal].
  destruct (IsAlive c) eqn:Ha; cbn [negb]; [|by apply IH]. destruct (Hal eq_refl) as [Hloc [x Hx]].
  unfold ConnectorCtx. rewrite Hx, bind_Ok.
  pose proof (held_perm _ _ _ _ (Permutation_app (connector_packets_delete _ _ _ Hc) (Permutation_refl w)) Hh) as Hh1.
  rewrite <- app_assoc in Hh1.
  destruct (on_memory_round HandleSSProto is_ss_hello ss_fits answers_ss_hello HandleSSProto_promise (fun _ => false)
    now fuel os Hos c P F _ k j Hh1 Hloc (Hroom Ha)) as (n & c' & P1 & k1 & j1 & E & Hh2 & Hloc2 & Hs & Hkeep).
  unfold _ProcessSSNetworkPacket_owner, _ProcessSSNetworkPacketHandle. rewrite E, bind_Ok.
  rewrite ptrs_app in Hs. apply same_on_app in Hs as [Hs HsF]. apply same_on_app in Hs as [Hsc Hsw].
  set (R1 := mk_pool _ _ _).
  destruct (IH R1 P1 F w (i32 (tot + n)) k1 j1) as (n2 & R2 & P2 & k2 & j2 & E2 & A1 & A2 & A3 & A4 & A5).
  - eapply held_perm; [|exact Hh2]. cbn [R1 cp_connectors]. rewrite connector_packets_insert. by rewrite <- app_assoc.
  - intros q d Hq. cbn [R1 cp_connectors] in Hq. apply lookup_insert_Some in Hq as [[<- <-]|[Hne Hq]].
    + pose proof (lo_ready _ _ _ Hloc2) as Hr. cbn in Hr. split.
      * unfold IsAlive in Hr. apply Z.eqb_eq in Hr. unfold IsClosed. by rewrite Hr.
      * intros _. split; [done|]. rewrite (Hkeep _ cn_pstConnectorCtx); [by eexists|done|apply conn_send_keeps].
    + eapply (conns_frame P P1 (delete p (cp_connectors R)) Hsc); [by apply map_Forall_delete|].
      by rewrite lookup_delete_ne.
  - done.
  - apply Forall_forall. rewrite Forall_forall in Hin. intros q Hq. destruct (Hin q Hq) as (d & Hd & Hdr). exists d.
    split; [|done]. cbn [R1 cp_connectors]. rewrite lookup_insert_ne; [done|]. intros ->. by apply Hp, list_elem_of_In.
  - exists n2, R2, P2, k2, j2. split; [done|]. split; [done|]. split; [done|]. split.
    + intros q Hq. rewrite A3 by done. apply elem_of_app in Hq as [Hq|Hq]; [by apply Hsw|by apply HsF].
    + split; [done|]. rewrite A5. cbn [R1 cp_connectors]. by rewrite dom_insert_lookup_L.
Qed.
End Connectors.

(** ** A turn *)

Section Turn.
Context {C S : Type} `{NertworkServer C S}.
Context `{Protobuf CSHello} `{Protobuf CSHelloRsp} `{Protobuf SSHello} `{Protobuf SSHelloRsp}.

(** Every packet of the process. *)
Definition game_packets (G : Gamesvr S) : list NetPacketBuffer :=
  packets (m_stMainServer G) ++ packets (m_stProxyServer G) ++ connector_packets (cp_connectors (gs_connectors G)).

(** [lost] is memory that is in no queue. *)
Record game_ok (wait exec : nat) (lost : list mem_ptr) (G : Gamesvr S) : Prop := {
  gk_timers : ∃ Q R, queues (gs_timers G) !! wait = Some Q ∧ queues (gs_timers G) !! exec = Some R ∧ unlocked (q_lock Q);
  gk_held : held (gs_mem G) lost (game_packets G);
  gk_main : local_ok hello_fits (gs_mem G) (m_stMainServer G);
  gk_proxy : local_ok ss_fits (gs_mem G) (m_stProxyServer G);
  gk_conns : map_Forall (λ _, conn_ok (gs_mem G)) (cp_connectors (gs_connectors G));
  gk_table : Forall (λ e, e.2 ∈ dom (cp_connectors (gs_connectors G))) (m_stConnectorPool (gs_connectors G));
  gk_once : NoDup (m_stConnectorPool (gs_connectors G)).*2;
}.

Definition game_room (G : Gamesvr S) : Prop :=
  net_room (sv_net (owner_ctx (m_stMainServer G))) ∧ net_room (sv_net (owner_ctx (m_stProxyServer G))) ∧
  map_Forall (λ _, conn_room) (cp_connectors (gs_connectors G)).

(** The living connectors, each once. *)
Lemma alive_loop_spec (R : ConnectorPool) m : ∀ acc,
  Forall (λ e, e.2 ∈ dom (cp_connectors R)) m → NoDup (acc ++ m.*2) → Forall (λ p, p ∈ dom (cp_connectors R)) acc →
  ∃ v, alive_loop R m acc = Ok v ∧ NoDup v ∧ Forall (λ p, p ∈ dom (cp_connectors R)) v.
Proof using.
  induction m as [|[key p] m IH]; intros acc Hm Hnd Hacc; cbn [alive_loop].
  - cbn in Hnd. rewrite app_nil_r in Hnd. eauto.
  - apply Forall_cons_1 in Hm as [Hp Hm]. cbn [snd] in Hp. pose proof Hp as [c Hc]%elem_of_dom.
    unfold connector. rewrite Hc, bind_Ok. cbn [fmap list_fmap snd] in Hnd. apply IH; [done| |].
    + destruct (IsAlive c); cbn [negb]; [by rewrite <- app_assoc|].
      eapply sublist_NoDup; [exact Hnd|]. apply sublist_app; [done|]. by constructor.
    + destruct (IsAlive c); cbn [negb]; [|done]. apply Forall_app. split; [done|]. by constructor.
Qed.

Lemma closed_loop_none (R : ConnectorPool) P m :
  map_Forall (λ _, conn_ok P) (cp_connectors R) → Forall (λ e, e.2 ∈ dom (cp_connectors R)) m →
  closed_loop R m = Ok R.
Proof using.
  intros Hok. induction 1 as [|[key p] m Hp _ IH]; [done|]. cbn [closed_loop snd] in Hp |- *.
  apply elem_of_dom in Hp as [c Hc]. unfold connector. rewrite Hc, bind_Ok. by destruct (Hok p c Hc) as [-> _].
Qed.

Context (wait exec : nat) (now : nat → Z) (fuel : nat) (os : nat → write_answer) (Hos : pipe_answers fuel os).

(** The packets between servers. *)
Lemma ss_phase lost G k j :
  game_ok wait exec lost G → game_room G →
  ∃ G' k' j', _ProcessSSNetworkPacket now fuel os k j G = Ok (G', k', j') ∧ game_ok wait exec lost G' ∧
    m_stMainServer G' = m_stMainServer G ∧ same_on lost (gs_mem G) (gs_mem G').
Proof using Hos.
  intros [G1 G2 G3 G4 G5 G6 G7] (_ & Hroom & Hrooms). unfold _ProcessSSNetworkPacket, game_packets in *.
  set (mp := packets (m_stMainServer G)) in *. set (cs := cp_connectors (gs_connectors G)) in *.
  assert (held (gs_mem G) lost (packets (m_stProxyServer G) ++ mp ++ connector_packets cs)) as Hh.
  { eapply held_perm; [|exact G2]. solve_Permutation. }
  destruct (on_memory_round HandleSSProto is_ss_hello ss_fits answers_ss_hello HandleSSProto_promise (fun _ => false)
    now fuel os Hos (m_stProxyServer G) (gs_mem G) lost _ k j Hh G4 Hroom)
    as (n & proxy & P1 & k1 & j1 & E & Hh1 & Hproxy & Hs1 & _).
  unfold _ProcessSSNetworkPacket_owner, _ProcessSSNetworkPacketHandle. rewrite E, bind_Ok.
  rewrite ptrs_app, <- app_assoc in Hs1. apply same_on_app in Hs1 as [Hm1 Hs1]. apply same_on_app in Hs1 as [Hc1 Hl1].
  destruct (alive_loop_spec (gs_connectors G) (m_stConnectorPool (gs_connectors G)) []) as (v & Ev & Hnd & Hv); [done..|].
  unfold ProcessAliveConnectors. rewrite Ev, bind_Ok.
  destruct (connector_loop_memory now fuel os Hos v (gs_connectors G) P1 lost (packets proxy ++ mp) n k1 j1)
    as (n2 & R & P2 & k2 & j2 & -> & Hh2 & Hcs & Hs2 & Htab & Hdom).
  { eapply held_perm; [|exact Hh1]. fold cs. solve_Permutation. }
  { by eapply conns_frame. }
  { done. }
  { eapply Forall_impl; [|exact Hv]. intros q [d Hd]%elem_of_dom. exists d. split; [done|]. by apply (Hrooms q). }
  rewrite bind_Ok. unfold ProcessClosedConnectors. rewrite (closed_loop_none R P2) by (rewrite ?Htab, ?Hdom; done).
  rewrite bind_Ok. eexists _, k2, j2. split; [done|]. rewrite ptrs_app, <- app_assoc in Hs2.
  apply same_on_app in Hs2 as [Hp2 Hs2]. apply same_on_app in Hs2 as [Hm2 Hl2].
  split; [|split; [done|cbn [gs_mem]; by eapply same_on_trans]].
  split; cbn [gs_timers gs_mem m_stMainServer m_stProxyServer gs_connectors]; try done.
  - unfold game_packets. cbn [m_stMainServer m_stProxyServer gs_connectors]. fold mp. eapply held_perm; [|exact Hh2]. solve_Permutation.
  - eapply local_frame; [|exact G3]. by eapply same_on_trans.
  - by eapply local_frame.
  - by rewrite Htab, Hdom.
  - by rewrite Htab.
Qed.

(** C11: a turn of the logic thread keeps the packet memory in order.  Let the waiting hellos
    have answers that fit into a packet of 10240 bytes, no connector be closed, the command
    pipes take what is written and the queues stay below 2^31 packets.  With packets waiting in
    the main server, the proxy server and the connectors, which share one pool, and with
    packets on their way out, a turn then ends without a fault; the callbacks of the due timers
    run in their order; and afterwards every memory the pool has handed out is again in exactly
    one queue (or in [lost], which is not touched) and can be read, so that, but for the room in
    the queues, the next turn can start.  A hello whose answer does not fit stops the server
    ([oversized_hello_stops_server]), a closed connector is used after it was freed
    ([ProcessClosedConnectors_spec]). *)
Theorem turn_keeps_memory lost G k j :
  wait ≠ exec → game_ok wait exec lost G → game_room G →
  ∃ Q active G' k' j',
    queues (gs_timers G) !! wait = Some Q ∧
    logic_ProcessOneLoop wait exec now fuel os k j G = Ok (m_stCallback <$> m_vecQueue Q, active, G', k', j') ∧
    game_ok wait exec lost G' ∧ same_on lost (gs_mem G) (gs_mem G').
Proof using Hos.
  intros Hne HG Hroom. destruct (gk_timers _ _ _ _ HG) as (Q & R & HQ & HR & Hl). exists Q.
  destruct (_ProcessTimerCallback_spec (gs_timers G) wait exec Q R Hne HQ HR Hl) as (timers & Et & HQ' & HR' & _).
  unfold logic_ProcessOneLoop. rewrite Et, bind_Ok. destruct (_ProcessEventCallback (gs_events G)) as [active events].
  set (G0 := mk_gamesvr _ _ _ _ timers events).
  assert (game_ok wait exec lost G0) as HG0.
  { destruct HG as [? A2 A3 A4 A5 A6 A7]. split; try done. by eexists _, _. }
  destruct (ss_phase lost G0 k j HG0 Hroom) as (G1 & k1 & j1 & E1 & HG1 & Hmain & Hs1). rewrite E1, bind_Ok.
  destruct HG1 as [B1 B2 B3 B4 B5 B6 B7]. unfold game_packets in B2.
  destruct (on_memory_round HandleCSProto is_hello hello_fits answers_hello HandleCSProto_promise cs_batch
    now fuel os Hos (m_stMainServer G1) (gs_mem G1) lost _ k1 j1 B2 B3)
    as (n & main & P & k2 & j2 & E2 & Hh2 & Hloc & Hs2 & _); [rewrite Hmain; apply Hroom|].
  unfold _ProcessCSNetworkPacket, _ProcessCSNetworkPacketHandle. rewrite E2, bind_Ok.
  eexists active, _, k2, j2. split; [done|]. split; [done|]. rewrite ptrs_app, <- app_assoc in Hs2.
  apply same_on_app in Hs2 as [Hp2 Hs2]. apply same_on_app in Hs2 as [Hc2 Hl2].
  split; [|cbn [gs_mem]; by eapply same_on_trans].
  split; cbn [gs_timers gs_mem m_stMainServer m_stProxyServer gs_connectors]; try done.
  - by eapply local_frame.
  - by eapply conns_frame.
Qed.
End Turn.

(** ** A hello whose answer does not fit

    The answer repeats the content of the hello and adds two times; the packet memory asserts
    that it takes at most 10240 bytes.  A hello whose answer is longer stops the server. *)

Section Oversized.
Context `{Protobuf CSHello} `{Protobuf CSHelloRsp} `{Protobuf SSHello} `{Protobuf SSHelloRsp}.

Lemma add_too_long P O q now seq fd proto n src :
  pool_inv P O → 10240 < n < 2 ^ 31 → AddPacket P q now seq fd proto n src = Fault AssertFail.
Proof using.
  intros HI Hn. unfold AddPacket. destruct (GetFree_spec P O HI) as (p & P1 & m & -> & _ & HI1 & Hm & _).
  rewrite bind_Ok. unfold NetPacketBuffer_new. rewrite Hm, bind_Ok. unfold memory_Init.
  rewrite (pi_array P1 _ HI1 p m Hm), wrap_small by lia. rewrite (proj2 (Z.leb_le (Z.of_nat 256) n)) by lia.
  by rewrite (proj2 (Z.leb_gt n NETWORK_PACKET_BUFFER_MAX_SIZE)) by (unfold NETWORK_PACKET_BUFFER_MAX_SIZE; lia).
Qed.

Theorem oversized_hello_stops_server now k P O N b pk :
  pool_inv P O → packet_of P b = Ok pk → is_hello pk →
  (let h : CSHello := fst (ParseFromArray (pk_body pk)) in
   10240 < ByteSizeLong (mkCSHelloRsp (hello_id h) (hello_content h) (u64 (m_dwCreateTime b)) (u64 (now k))) < 2 ^ 31) →
  HandleCSProto now k P N b = Fault AssertFail.
Proof using.
  intros HI Hpk Hh Hsize. cbv zeta in Hsize.
  destruct (read_message (M := CSHello) P b pk Hpk) as (Hproto & _ & _ & buf & Hb & Hu).
  unfold is_hello in Hh. rewrite Hproto in Hh. unfold HandleCSProto. rewrite Hh, Z.eqb_refl.
  unfold HandleCSProtoHello. rewrite Hb, bind_Ok, Hu, bind_Ok. set (m := mkCSHelloRsp _ _ _ _) in *.
  unfold PacketProduceProtobufPacket. rewrite swrap_small by (simpl; lia). unfold PackProtobufStruct.
  rewrite Z.ltb_irrefl. destruct (serialize_fits m (ByteSizeLong m)) as (bs & -> & Hbs & _); [lia|].
  rewrite mem_write_Ok by (rewrite ?length_replicate; lia). rewrite !bind_Ok.
  by rewrite (add_too_long P O) by done.
Qed.
End Oversized.

(** ** A server with a hello waiting, and a connector *)

#[local] Existing Instances demo_hello demo_hello_rsp demo_ss demo_ss_rsp.

Definition waiting_net (q : NetPacketQueue) : NetworkContext :=
  mk_net spinlock_init spinlock_init queue_Init q queue_Init queue_Init queue_Init queue_Init (mk_signal spinlock_init true).

Definition demo_server (N : NetworkContext) : LibeventServer :=
  mk_lserver [] true true true (mk_server N (mk_cpool ∅ ∅) ∅ 0 pool_new) [].

Definition demo_game (q : NetPacketQueue) (P : CPacketMemoryPool) : Gamesvr LibeventServer :=
  mk_gamesvr (demo_server (waiting_net q)) (demo_server net_new)
    (mk_pool [(5, 0%nat)] {[0%nat := demo_connector]} lev_empty) P
    (tables (GameTimer_new {[0%nat := TimerQueue_new; 1%nat := TimerQueue_new]}))
    (mk_listener None ∅ ∅ 0 lev_empty []).

Definition hello_body : list Z := enc (5, [104; 105]) ++ be_bytes 8 258.

Lemma demo_ss_fits : ss_hello_fits.
Proof.
  intros t. change (ByteSizeLong (mkSSHelloRsp (u64 t))) with (Z.of_nat (length (enc (u64 t)))).
  pose proof (length_enc_u64 t). lia.
Qed.

Lemma demo_game_ok q P b p :
  m_vecPacketPool q = [b] → m_pstMemory b = Some p → held P [] [b] → packet_of P b = Ok (mk_pkt 88 6 1 hello_body) →
  game_ok 0 1 [] (demo_game q P).
Proof.
  intros Hq Hp Hh Hpk. split.
  - by eexists _, _.
  - unfold game_packets, packets, all_packets, connector_packets. cbn. rewrite map_to_list_singleton. cbn. by rewrite Hq.
  - split; [by split; try left|done|done|]. cbn. rewrite Hq. constructor; [|constructor].
    eexists p, _. split; [done|]. split; [done|]. pose proof (demo_fits 88 6) as Hf. by apply Forall_cons_1 in Hf as [Hf _].
  - split; [by split; try left|done|done|constructor].
  - apply map_Forall_singleton. split; [done|]. intros _. split; [|by eexists].
    split; [by split; try left|done|done|constructor].
  - constructor; [|constructor]. cbn. by apply elem_of_dom.
  - apply NoDup_singleton.
Qed.

Lemma turn_keeps_memory_witness :
  ∃ b q P active G' k' j', m_vecPacketPool q = [b] ∧ packet_of P b = Ok (mk_pkt 88 6 1 hello_body) ∧
    logic_ProcessOneLoop 0 1 (fun _ => 2) 1 (fun _ => WOk 32) 0 0 (demo_game q P) = Ok ([], active, G', k', j') ∧
    game_ok 0 1 [] G'.
Proof.
  destruct (AddPacket_spec pool_new ∅ queue_Init 1 88 6 1 (Z.of_nat (length hello_body)) hello_body hello_body)
    as (p & P & b & E & Hb & _ & _ & _ & Hpk).
  { apply pool_inv_new. }
  { vm_compute. discriminate. }
  { reflexivity. }
  assert (held pool_new [] []) as H0.
  { split; [constructor|constructor|apply pool_inv_new|constructor]. }
  destruct (held_add pool_new [] [] queue_Init 1 88 6 1 (Z.of_nat (length hello_body)) hello_body hello_body _ _ _ H0 ltac:(vm_compute; discriminate) ltac:(reflexivity) E)
    as (b' & Eq & Hh & _).
  injection Eq as <-. set (q := mk_net_queue _ _) in E.
  destruct (turn_keeps_memory 0 1 (fun _ => 2) 1 (fun _ => WOk 32) demo_pipe [] (demo_game q P) 0 0)
    as (Q & active & G' & k' & j' & HQ & Et & HG & _).
  - done.
  - by apply (demo_game_ok q P b p).
  - split; [done|]. split; [done|]. by apply map_Forall_singleton.
  - exists b, q, P, active, G', k', j'. split; [done|]. split; [done|]. split; [|done].
    injection HQ as <-. exact Et.
Defined.
